(* ===== verification/_CoqProject ===== *)
-Q . S2P
Prelude.v
Threads.v
Fifo.v
Text.v
Concrete.v
Types.v
Lease.v
Policy.v
Session.v
Store.v
RusqliteStore.v
StoreRefinement.v
PostgresStore.v
AwsStore.v
Crypto.v
KeySource.v
Auth.v
AuditEvents.v
RusqliteAudit.v
PostgresAudit.v
Frame.v
Transport.v
Sni.v
LeaseState.v
AgentProxy.v
ProxyRun.v
Protocol.v
Client.v
AgentApi.v
Provision.v
GitHelper.v
Provider.v
Vault.v
VaultInv.v
VaultSpec.v
VaultProps.v
VaultThreads.v
VaultLocks.v
VaultMoves.v
VaultConc.v
Demo.v
VaultSecrets.v
VaultConcSecrets.v
VaultAws.v
VaultGc.v
VaultTheorems.v
VaultRaces.v
VaultConcTheorems.v
Server.v
ServerTheorems.v
ServerThreads.v
ClientServer.v
Serve.v
ServerConc.v
ServerFair.v
ServerConcTheorems.v
