(* ===== verification/Prelude.v ===== *)
(** A verification of zerolease, a credential vault for AI agents.

    * The program

    A vault ([src/vault.rs]) keeps secrets encrypted in a store. An agent that needs a
    secret asks for a lease: the policy engine decides whether the agent may have the secret
    for a domain and on which terms; the lease is then the only way to the plaintext, for a
    limited time, a limited number of uses and the domains it names. Leases can be renewed,
    revoked, bound to a session of a user, and are collected when they are dead. Every step
    is recorded in an audit log. The data encryption key comes from a key source and can be
    rotated.

    A server ([src/server.rs]) offers the vault over a connection: length-prefixed JSON
    frames, a handshake with a token, then requests that are dispatched under the identity
    the authenticator gave the connection. A typed client ([src/client.rs]) is the other end
    of it. On the machine of the agent, [zerolease-agent] provisions credentials into files,
    answers git's credential requests and runs a proxy that only lets traffic to leased
    domains out; [zerolease-provider] hands guards to tools and revokes their leases when
    they are dropped. Stores exist for SQLite, PostgreSQL and AWS Secrets Manager.

    * How it is modelled

    A Rust function becomes a Rocq function with the same branches. A method that changes
    state, reads the clock, draws random bytes or does I/O is an operation of the monad [M]
    of [Prelude]: a function from the state of its component and a [World] to an outcome
    ([Ok], [Err] or [Panic]), the state left behind and the world left behind. The [World]
    counts how often each source of nondeterminism was used; the class [Env] says what the
    clock, [Uuid::now_v7], [OsRng] and a call to a database, a stream or a file delivers at
    its n-th use, so a theorem for every [Env] holds for every clock, every random source
    and every pattern of failures. [wp] is the weakest precondition of an operation, on all
    outcomes, and [wp_step] executes one symbolically.

    Code that is not in the repository is a class with its documented behaviour as a class
    of laws: [Chrono], [UuidText], [Serde] and [SerdeValue] (serde_json), [Aead] (the
    ciphers), [Sha256], [Base64], [Keyring], [KmsIO], [Rusqlite] (error texts), [HashIter]
    (the order of a [HashMap]), [Dns], [SecretsManager]. Interfaces of the program are
    classes too: [SecretStore] with [SecretStoreLaws], [AuditLog] with its append-only
    contract, [KeySource], [FrameIO] and [VaultApi]; the theorems about their clients are
    proved against the laws and the implementations discharge them. Integers keep their
    width: versions and counters are [u32] with wrap-around ([u32_add]), lengths of frames
    and TLS vectors are the big-endian numbers of the wire.

    * The files

    Shared: [Prelude] (outcomes, effects, [wp], the environment), [Threads] (programs of
    atomic actions and locks, and pools of them that interleave), [Fifo] (pools whose locks
    serve their waiters in order, as those of tokio do), [Text] (the parts of
    Rust's strings that the code uses: UTF-8, trimming, splitting, parsing, hexadecimal),
    [Concrete] (instances of the parameters, which show that their laws can hold).

    The vault: [Types] ([crates/zerolease-types], [error.rs]), [Lease] ([lease.rs]),
    [Policy] ([policy/mod.rs]), [Session] ([session.rs]), [Store] ([store/mod.rs], the
    contract of a backend), [RusqliteStore] and [StoreRefinement] (the SQLite store and its
    refinement of a map), [PostgresStore] (the PostgreSQL store), [AwsStore] (the Secrets
    Manager store), [Crypto] ([crypto.rs]), [KeySource] ([keysource/]), [Auth] ([auth.rs]), [AuditEvents] ([audit/]),
    [RusqliteAudit] (the hash-chained SQLite audit log), [PostgresAudit] (the PostgreSQL
    audit log), [Vault] ([vault.rs]). [VaultInv],
    [VaultSpec] and [VaultProps] hold the invariants, the specification of each operation
    and the histories of operations ([vstep], [reachable]); [VaultSecrets], [VaultGc],
    [VaultAws] and [VaultTheorems] the theorems, [Demo] a small vault to evaluate on.

    The vault under concurrency: [VaultThreads] (every operation of [vault.rs] once more, as
    a program of its guards and of what it does between its awaits), [VaultLocks] (the order
    of its locks and what they guard), [VaultMoves] (what a single step of an operation may
    do to the shared tables), [VaultConc] (runs in which operations arrive and interleave,
    and their invariants), [VaultConcSecrets] (what happens to the secrets in such runs),
    [VaultRaces] (runs in which operations race, evaluated) and [VaultConcTheorems].

    The wire: [Frame] ([protocol/frame.rs]), [Protocol] ([protocol/mod.rs]), [Server]
    ([server.rs]) with [ServerTheorems], [Transport] ([transport/]), [Serve] (the accept
    loop over many connections, a request at a time), [ServerThreads] (the handlers of
    [server.rs] once more, as programs that run the operations of [VaultThreads]),
    [ServerConc] (connections that share the vault and interleave await by await, and their
    simulation by runs of [VaultConc]), [ServerFair] (the same with fair locks and clients
    that fall silent) with [ServerConcTheorems], [Client] ([client.rs]) with
    [ClientServer], which links the two.

    The agent's side: [AgentApi] (the vault as its remote clients use it), [LeaseState]
    ([lease_state.rs] and the refresh task of [proxy/mod.rs]), [Sni] and [AgentProxy]
    ([proxy/sni.rs], [proxy/connect.rs]), [ProxyRun] ([proxy/mod.rs]: the start, the accept
    loops and the tasks of the proxy), [Provision] ([manifest.rs], [config_writer.rs],
    [provision.rs]), [GitHelper] ([git_credential.rs], [main.rs]), [Provider]
    ([zerolease-provider]).

    * What is shown

    Vault: a secret is only handed out through a live lease that the policy covers, on every
    reachable state ([access_within_policy]); the specification of each operation on every
    branch ([request_lease_spec], [scoped_lease_spec], [delete_secret_spec],
    [revoke_all_for_agent_spec], [renew_lease_bounds], [gc_leases_spec]); invariants over all
    histories: revocation is final, uses stay within their budget, leases within their cap,
    the audit log only grows ([revocation_permanent], [revoke_session_cascade],
    [use_budget_over_history], [lease_cap_invariant], [audit_append_only]); what is stored
    is read back and survives a rotation of the key ([store_lease_access_roundtrip],
    [rotate_dek_preserves_secrets], whose new key is freshly drawn and accepted by the key
    source), and two ways in which a failed rotation loses secrets
    ([rotate_dek_env_strands_secrets], [aws_rotation_not_retriable]).

    Vault under concurrency, for any number of operations that arrive at any time and whose
    steps interleave as the locks allow: an operation that runs alone is the operation in one
    piece ([op_prog_alone]); the locks are taken in one order and guard their tables
    ([conc_lock_discipline]), and with locks that serve their waiters in order every operation
    returns ([conc_progress]; an operation that asked twice for one guard would not, see
    [fifo_reentrant_deadlock]); revocation stays final, uses stay within their budget, every lease is covered by the policy and its grant
    is in the log, every access that succeeds went through a live lease that is covered, and
    has an entry of its own in the log ([conc_revocation_final], [conc_use_budget],
    [conc_table_invariant], [conc_access_audited]); as long as the key is not replaced, every secret decrypts to what
    was stored under its name and nothing else is delivered ([conc_secrets_intact]). The cap
    only holds up to the number of operations at once, a
    bound that is reached ([conc_cap_bound], [cap_race]); four more runs show what the gaps
    between the guards allow ([rotate_race], [session_race], [delete_race],
    [revoke_all_race]).

    Backends: the SQLite store refines a map with atomic batches ([rusqlite_refines_map]),
    and so does the PostgreSQL store up to the rounding of timestamps and to writes whose
    answer is lost ([pg_refines_map]); the
    Secrets Manager store is such a map without atomic batches ([aws_store_spec],
    [aws_batch_keeps_prefix], [aws_list_complete]); the audit chain verifies when no call
    failed while it was recorded and it is untouched, and detects a change of one column
    ([audit_chain_complete], [audit_tamper_detected]; what it does not detect, and when it
    raises a false alarm: [audit_columns_undelimited], [audit_chain_lost_lookup]); queries
    find what was recorded ([pg_audit_queries]); keys persist ([kms_key_persistence]).

    Server and client: authentication and roles over every sequence of bytes
    ([connection_authenticated], [dispatch_permitted], [admin_role_required],
    [agent_binding_enforced], [connection_reachable]), over every interleaving of
    requests too ([serve_authorised]). A handler taken apart into its awaits is the handler in
    one piece when it runs alone ([handle_connection_alone]), and a server with any number of connections
    refines the concurrent vault, with at most one operation under way per open connection,
    each permitted to an authenticated identity ([server_refines_vault]); so what is shown of
    the concurrent vault holds of the served one, the finality of a revocation for instance
    ([server_revocation_final]). A handler waits for its client without a lock, so that a
    client that falls silent does not block the others ([server_progress]).
    Frames are read back ([frames_roundtrip], [frame_bounds]); each method of the client is
    the vault's operation seen through the wire ([client_refines_vault]).

    Agent: the proxy opens guarded tunnels only, and opens them for proper requests
    ([connect_tunnel_guarded], [connect_serves], [transparent_tunnel_guarded],
    [private_ipv4_spec]); the hello parser inverts the encoding of TLS, ends, and panics in
    one case only ([sni_roundtrip], [sni_loops_end], [sni_panics_only_past_hello]); the
    lease file is atomic and the proxy only holds what was provisioned
    ([lease_file_atomic], [proxy_leases_provisioned]), also while connections, refreshes and
    writes of the file interleave ([handle_connect_alone], [handle_transparent_alone],
    [proxy_tunnels_provisioned]); provisioning is all or nothing up to
    the result files ([provision_all_or_nothing], [export_line_roundtrip]); the git helper
    fills in the whole credential of a configured host, and is quiet otherwise
    ([credential_fill_configured], [git_request_roundtrip]); a provider accounts for every
    lease it handed out ([provider_leases_accounted], [provider_drains]).

    * Bounds and fuel

    [request_loop] runs with one more step than there are bytes to read: every iteration
    consumes a frame or ends, and [connection_authenticated] shows that it returns. The loops
    of the hello parser run with the bytes left ([sni_loops_end]), the loop of the git
    request with one more than the bytes of the input ([parse_loop_wp], out of fuel is a
    panic, which is excluded), the listing of Secrets Manager with the page bound of the
    service ([sm_pages_spec]). UTF-8 decoding uses the number of bytes. All other recursion
    is structural.

    * Not modelled

    A call of the store, of the key source or of the audit log is one action of an operation,
    and it returns. The safety theorems leave the order open in which waiting tasks get a lock,
    so they hold for every order; the progress theorems take the order of tokio's locks. The
    handshake of a connection, and the reading or writing of a frame on its own stream, is one
    action of its handler: the incoming bytes of a stream are what the client sends until it
    closes. A client that never closes is one whose handler stops at such an action for good;
    [ServerFair] has these. A point in time stands for one that chrono can represent. A task is not cancelled between two awaits. Memory is not modelled, so zeroization and the lifetime
    of guards in memory are not visible. Sockets, the copying of bytes through a tunnel, the
    sleep of the refresh task, argument parsing, logging, tests, fuzz targets and examples
    are left out. Databases are modelled by what the statements of the code do; locks,
    isolation and several clients of one database are not. *)
From Stdlib Require Export ZArith Lia.
From Stdlib Require Import Strings.Byte Strings.Ascii.
From Stdlib Require Strings.String.
From stdpp Require Export base tactics gmap strings list countable pretty.

Create HintDb zerolease.
Create Rewrite HintDb zerolease.

Local Open Scope Z_scope.

(** ** Bytes, identifiers and time *)

(** [Vec<u8>], [&[u8]] and [[u8; n]]. *)
Abbreviation bytes := (list Byte.byte).

#[global] Instance byte_eq_dec : EqDecision Byte.byte := Byte.byte_eq_dec.

#[global] Instance byte_inhabited : Inhabited Byte.byte := populate Byte.x00.

#[global] Program Instance byte_countable : Countable Byte.byte :=
  inj_countable Byte.to_N Byte.of_N _.
Next Obligation. intros b. apply Byte.of_to_N. Qed.

(** The unsigned value of a byte ([b as usize], [b as u32]). *)
Definition byte_val (b : Byte.byte) : Z := Z.of_N (Byte.to_N b).

(** [z as u8]. *)
Definition byte_of (z : Z) : Byte.byte :=
  default Byte.x00 (Byte.of_N (Z.to_N (z `mod` 256))).

(** [Uuid]: a 128-bit value. *)
Abbreviation Uuid := N.

(** [chrono::DateTime<Utc>], nanoseconds since the Unix epoch, and
    [chrono::TimeDelta], a signed number of nanoseconds. *)
Abbreviation DateTime := Z.
Abbreviation TimeDelta := Z.

Definition NANOS : Z := 1000000000.

(** [u32] arithmetic of a release build: [+= 1] wraps around. *)
Definition U32_MAX : Z := 4294967295.
Definition u32_add (a b : Z) : Z := (a + b) `mod` 4294967296.

(** ** Outcomes and effects

    [outcome E A] is what a Rust call delivers: a value, an error value of
    [Result], or a panic. *)

Inductive outcome (E A : Type) : Type :=
  | Ok (a : A)
  | Err (e : E)
  | Panic.
Arguments Ok {E A} a.
Arguments Err {E A} e.
Arguments Panic {E A}.

Definition is_ok {E A} (r : outcome E A) : bool :=
  match r with Ok _ => true | _ => false end.

(** How often each source of nondeterminism has been consulted. *)
Record World := mkWorld {
  w_clock : nat;
  w_uuid : nat;
  w_rng : nat;
  w_io : nat
}.

Definition tick_clock (w : World) : World :=
  mkWorld (S (w_clock w)) (w_uuid w) (w_rng w) (w_io w).
Definition tick_uuid (w : World) : World :=
  mkWorld (w_clock w) (S (w_uuid w)) (w_rng w) (w_io w).
Definition tick_rng (w : World) : World :=
  mkWorld (w_clock w) (w_uuid w) (S (w_rng w)) (w_io w).
Definition tick_io (w : World) : World :=
  mkWorld (w_clock w) (w_uuid w) (w_rng w) (S (w_io w)).

(** [w'] is a later world than [w]. *)
Definition world_le (w w' : World) : Prop :=
  (w_clock w ≤ w_clock w' ∧ w_uuid w ≤ w_uuid w' ∧ w_rng w ≤ w_rng w' ∧ w_io w ≤ w_io w')%nat.

#[global] Instance world_le_preorder : PreOrder world_le.
Proof. split; unfold world_le; [intros ?; lia|intros ???; lia]. Qed.

Lemma world_le_tick_clock w : world_le w (tick_clock w).
Proof. unfold world_le; simpl; lia. Qed.
Lemma world_le_tick_uuid w : world_le w (tick_uuid w).
Proof. unfold world_le; simpl; lia. Qed.
Lemma world_le_tick_rng w : world_le w (tick_rng w).
Proof. unfold world_le; simpl; lia. Qed.
Lemma world_le_tick_io w : world_le w (tick_io w).
Proof. unfold world_le; simpl; lia. Qed.
#[global] Hint Resolve world_le_tick_clock world_le_tick_uuid world_le_tick_rng
  world_le_tick_io : zerolease.

(** Decides [world_le] between worlds built by ticks, from hypotheses. *)
Ltac solve_world := unfold world_le in *; simpl in *; lia.

(** The environment of a run: the successive readings of the clock, the
    successive identifiers of [Uuid::now_v7], the successive draws of [OsRng]
    (draw [k] of [n] bytes is [os_rng k n]) and, for the calls that reach a
    database, a stream, a file or a service, the failure injected there, if any. *)
Class Env := {
  clock : nat → DateTime;
  now_v7 : nat → Uuid;
  os_rng : nat → nat → bytes;
  io_fault : nat → option string
}.

(** Documented behaviour of the environment that some theorems rely on: a
    UUID v7 is unique, and [fill_bytes] fills the whole buffer. *)
Class EnvLaws `{!Env} := {
  now_v7_inj : ∀ i j, now_v7 i = now_v7 j → i = j;
  os_rng_length : ∀ k n, length (os_rng k n) = n
}.

(** No such call fails. *)
Class Reliable `{!Env} := no_fault : ∀ i, io_fault i = None.

(** The clock never goes backwards. *)
Class MonotoneClock `{!Env} :=
  clock_mono : ∀ i j, (i ≤ j)%nat → clock i ≤ clock j.

(** The calls of the [chrono] crate. [dt_add] is [DateTime + TimeDelta], which
    panics when the sum is not representable; [td_seconds] is
    [TimeDelta::seconds], which panics out of range. *)
Class Chrono := {
  dt_add : DateTime → TimeDelta → option DateTime;
  td_num_seconds : TimeDelta → Z;
  td_seconds : Z → option TimeDelta;
  td_minutes : Z → TimeDelta;
  td_hours : Z → TimeDelta;
  to_rfc3339 : DateTime → string;
  parse_from_rfc3339 : string → outcome string DateTime
}.

(** Its documented behaviour. A [DateTime] stands for one that chrono can represent (within
    some 262,000 years of the epoch); that is where a text is read back to the same time. *)
Class ChronoLaws `{!Chrono} := {
  dt_add_spec : ∀ t d r, dt_add t d = Some r → r = t + d;
  td_num_seconds_spec : ∀ d, td_num_seconds d = Z.quot d NANOS;
  td_seconds_spec : ∀ n, 0 ≤ n ≤ 86400 → td_seconds n = Some (n * NANOS);
  rfc3339_roundtrip : ∀ t, parse_from_rfc3339 (to_rfc3339 t) = Ok t;
  parse_rfc3339_no_panic : ∀ s, parse_from_rfc3339 s ≠ Panic
}.

(** The textual form of a UUID ([Display] and [Uuid::parse_str]). *)
Class UuidText := {
  uuid_to_string : Uuid → string;
  uuid_parse_str : string → outcome string Uuid
}.
Class UuidTextLaws `{!UuidText} := {
  uuid_text_roundtrip : ∀ u, uuid_parse_str (uuid_to_string u) = Ok u;
  uuid_parse_no_panic : ∀ s, uuid_parse_str s ≠ Panic
}.

(** [serde_json] at a type: [to_string] and [from_str], either of which reports a
    message. JSON texts are byte strings, so [from_slice] is the same function. *)
Class Serde (A : Type) := {
  to_json : A → outcome string string;
  from_json : string → outcome string A
}.
(** Neither panics; and at the types whose values all differ in their text, what was written
    is read back. (A response is not such a type: see [ResponseLaws].) *)
Class SerdeTotal (A : Type) `{!Serde A} := {
  to_json_no_panic : ∀ a, to_json a ≠ Panic;
  from_json_no_panic : ∀ s, from_json s ≠ Panic
}.
Class SerdeLaws (A : Type) `{!Serde A} := {
  to_json_returns : ∀ a, to_json a ≠ Panic;
  from_json_returns : ∀ s, from_json s ≠ Panic;
  json_roundtrip : ∀ a s, to_json a = Ok s → from_json s = Ok a
}.
#[global] Instance SerdeLaws_total (A : Type) `{!Serde A, !SerdeLaws A} : SerdeTotal A := {|
  to_json_no_panic := to_json_returns;
  from_json_no_panic := from_json_returns
|}.

(** The order in which a [HashMap] is iterated is unspecified: any order that
    visits every entry once. *)
Class HashIter := {
  hash_iter : ∀ {K V : Type} `{Countable K}, gmap K V → list (K * V);
  hash_iter_perm : ∀ {K V : Type} `{Countable K} (m : gmap K V),
    hash_iter m ≡ₚ map_to_list m
}.

(** An operation on a component with state [St]: it consumes the environment
    and leaves a state behind on every outcome, errors included. *)
Definition M (St E A : Type) : Type := St → World → outcome E A * St * World.

#[global] Instance M_ret {St E} : MRet (M St E) := λ A a s w, (Ok a, s, w).
#[global] Instance M_bind {St E} : MBind (M St E) := λ A B k m s w,
  match m s w with
  | (Ok a, s', w') => k a s' w'
  | (Err e, s', w') => (Err e, s', w')
  | (Panic, s', w') => (Panic, s', w')
  end.

(** [r.map_err(f)] *)
Definition map_err {E F A} (f : E → F) (r : outcome E A) : outcome F A :=
  match r with Ok a => Ok a | Err e => Err (f e) | Panic => Panic end.

(** The outcome of [m] as a value: [match m.await { Ok(..) => .., Err(..) => .. }].
    A panic still unwinds. *)
Definition try_ {St E F A} (m : M St E A) : M St F (outcome E A) := λ s w,
  match m s w with
  | (Panic, s', w') => (Panic, s', w')
  | (r, s', w') => (Ok r, s', w')
  end.

Section effects.
Context {St E : Type}.

Definition throw {A} (e : E) : M St E A := λ s w, (Err e, s, w).
Definition panic {A} : M St E A := λ s w, (Panic, s, w).

(** [r?] for a value already computed. *)
Definition lift {A} (r : outcome E A) : M St E A := λ s w, (r, s, w).

Definition read : M St E St := λ s w, (Ok s, s, w).
Definition write (s' : St) : M St E unit := λ _ w, (Ok tt, s', w).
Definition modify (f : St → St) : M St E unit := λ s w, (Ok tt, f s, w).

(** [o.ok_or(e)?] *)
Definition ok_or {A} (o : option A) (e : E) : M St E A :=
  match o with Some a => mret a | None => throw e end.

(** [o.expect(..)] *)
Definition expect {A} (o : option A) : M St E A :=
  match o with Some a => mret a | None => panic end.

Definition when (b : bool) (m : M St E unit) : M St E unit :=
  if b then m else mret tt.

(** [for x in xs { f(x) }] *)
Fixpoint for_each {A} (f : A → M St E unit) (xs : list A) : M St E unit :=
  match xs with
  | [] => mret tt
  | x :: xs' => f x;; for_each f xs'
  end.

(** [for x in xs { out.push(f(x)?) }] *)
Fixpoint traverse {A B} (f : A → M St E B) (xs : list A) : M St E (list B) :=
  match xs with
  | [] => mret []
  | x :: xs' => y ← f x; ys ← traverse f xs'; mret (y :: ys)
  end.

(** [for x in xs { acc = f(acc, x)?; }] *)
Fixpoint fold_m {A B} (f : B → A → M St E B) (acc : B) (xs : list A) : M St E B :=
  match xs with
  | [] => mret acc
  | x :: xs' => acc' ← f acc x; fold_m f acc' xs'
  end.

Context `{!Env}.

(** [Utc::now()] *)
Definition utc_now : M St E DateTime := λ s w,
  (Ok (clock (w_clock w)), s, tick_clock w).

(** [Uuid::now_v7()] *)
Definition uuid_now_v7 : M St E Uuid := λ s w,
  (Ok (now_v7 (w_uuid w)), s, tick_uuid w).

(** [OsRng.fill_bytes(&mut buf)] for a buffer of [n] bytes. *)
Definition fill_bytes (n : nat) : M St E bytes := λ s w,
  (Ok (os_rng (w_rng w) n), s, tick_rng w).

(** A call into a database: it may fail, with the database's message. *)
Definition db_call : M St E (option string) := λ s w,
  (Ok (io_fault (w_io w)), s, tick_io w).
End effects.

(** An operation on a field of a larger state. *)
Definition zoom {St T E A} (get : St → T) (set : T → St → St)
    (m : M T E A) : M St E A := λ s w,
  match m (get s) w with (r, t', w') => (r, set t' s, w') end.

(** [m.map_err(f)] for an operation. *)
Definition map_err_m {St E F A} (f : E → F) (m : M St E A) : M St F A := λ s w,
  match m s w with (r, s', w') => (map_err f r, s', w') end.

(** ** Reasoning about operations

    [wp m s w Q]: whatever the outcome of [m] from state [s] and world [w], the
    outcome, the state and the world it leaves satisfy [Q]. *)

Definition wp {St E A} (m : M St E A) (s : St) (w : World)
    (Q : outcome E A → St → World → Prop) : Prop :=
  match m s w with (r, s', w') => Q r s' w' end.

(** The environment only moves forward. *)
Definition forward {St E A} (m : M St E A) : Prop :=
  ∀ s w, wp m s w (λ _ _ w', world_le w w').

(** What every call of a backend guarantees: it does not panic, and the environment
    only moves forward. *)
Definition well_behaved {St E A} (m : M St E A) : Prop :=
  ∀ s w, wp m s w (λ r _ w', r ≠ Panic ∧ world_le w w').

Section wp.
Context {St E : Type}.
Implicit Types (s : St) (w : World).

Lemma wp_run {A} (m : M St E A) s w Q r s' w' :
  wp m s w Q → m s w = (r, s', w') → Q r s' w'.
Proof. unfold wp. intros H Hm. by rewrite Hm in H. Qed.

Lemma run_wp {A} (m : M St E A) s w (Q : outcome E A → St → World → Prop) :
  (∀ r s' w', m s w = (r, s', w') → Q r s' w') → wp m s w Q.
Proof. unfold wp. destruct (m s w) as [[r s'] w']. eauto. Qed.

Lemma wp_run_all {A} (m : M St E A) s w (Q : outcome E A → St → World → Prop) :
  wp m s w Q → ∀ r s' w', m s w = (r, s', w') → Q r s' w'.
Proof. intros H r s' w'. by apply wp_run. Qed.

Lemma wp_mono {A} (m : M St E A) s w (P Q : outcome E A → St → World → Prop) :
  wp m s w P → (∀ r s' w', P r s' w' → Q r s' w') → wp m s w Q.
Proof. unfold wp. destruct (m s w) as [[r s'] w']. eauto. Qed.

Lemma wp_ret {A} (a : A) s w (Q : outcome E A → St → World → Prop) :
  Q (Ok a) s w → wp (mret a) s w Q.
Proof. done. Qed.

Lemma well_behaved_forward {A} (m : M St E A) : well_behaved m → forward m.
Proof. intros H s w. eapply wp_mono; [apply H|]. naive_solver. Qed.

(** The primitive operations deliver one outcome. *)
Lemma wp_det {A} (m : M St E A) s w (Q : outcome E A → St → World → Prop) r s' w' :
  m s w = (r, s', w') → Q r s' w' → wp m s w Q.
Proof. unfold wp. by intros ->. Qed.

Lemma wp_bind {A B} (m : M St E A) (k : A → M St E B) s w Q :
  wp m s w (λ r s' w',
    match r with
    | Ok a => wp (k a) s' w' Q
    | Err e => Q (Err e) s' w'
    | Panic => Q Panic s' w'
    end) →
  wp (m ≫= k) s w Q.
Proof.
  unfold wp, mbind, M_bind. by destruct (m s w) as [[[a|e|] s'] w'].
Qed.

Lemma bind_run {A B} (m : M St E A) (k : A → M St E B) s w r s' w' :
  m s w = (r, s', w') →
  (m ≫= k) s w =
  match r with Ok a => k a s' w' | Err e => (Err e, s', w') | Panic => (Panic, s', w') end.
Proof. unfold mbind, M_bind. by intros ->. Qed.

Lemma wp_conj {A} (m : M St E A) s w (P Q : outcome E A → St → World → Prop) :
  wp m s w P → wp m s w Q → wp m s w (λ r s' w', P r s' w' ∧ Q r s' w').
Proof. unfold wp. destruct (m s w) as [[r s'] w']. auto. Qed.

(** The run that leads to the outcome can be kept. *)
Lemma wp_self {A} (m : M St E A) s w (Q : outcome E A → St → World → Prop) :
  wp m s w Q → wp m s w (λ r s' w', m s w = (r, s', w') ∧ Q r s' w').
Proof. unfold wp. by destruct (m s w) as [[r s'] w']. Qed.

Lemma wp_zoom {S0 A} (get : S0 → St) (set : St → S0 → S0) (m : M St E A)
    (s0 : S0) w Q :
  wp m (get s0) w (λ r t w', Q r (set t s0) w') →
  wp (zoom get set m) s0 w Q.
Proof. unfold wp, zoom. by destruct (m (get s0) w) as [[r t] w']. Qed.

Lemma wp_try {F A} (m : M St F A) s w (Q : outcome E (outcome F A) → St → World → Prop) :
  wp m s w (λ r s' w',
    match r with Panic => Q Panic s' w' | _ => Q (Ok r) s' w' end) →
  wp (try_ m) s w Q.
Proof. unfold wp, try_. by destruct (m s w) as [[[a|e|] s'] w']. Qed.

Lemma wp_map_err {F A} (f : E → F) (m : M St E A) s w Q :
  wp m s w (λ r s' w', Q (map_err f r) s' w') →
  wp (map_err_m f m) s w Q.
Proof. unfold wp, map_err_m. by destruct (m s w) as [[r s'] w']. Qed.

(** The loop rule: [I] holds before every iteration and on every exit. *)
Lemma wp_for_each {A} (f : A → M St E unit) (xs : list A)
    (I : list A → St → World → Prop) (Q : outcome E unit → St → World → Prop) s w :
  I xs s w →
  (∀ x xs' s w, I (x :: xs') s w →
     wp (f x) s w (λ r s' w',
       match r with
       | Ok _ => I xs' s' w'
       | Err e => Q (Err e) s' w'
       | Panic => Q Panic s' w'
       end)) →
  (∀ s w, I [] s w → Q (Ok tt) s w) →
  wp (for_each f xs) s w Q.
Proof.
  intros HI Hstep Hend. revert s w HI.
  induction xs as [|x xs IH]; intros s w HI; simpl.
  - by apply wp_ret, Hend.
  - apply wp_bind. eapply wp_mono; [by apply Hstep|].
    intros [u|e|] s' w' HQ; auto.
Qed.

Lemma wp_fold_m {A B} (f : B → A → M St E B) (acc : B) (xs : list A)
    (I : B → list A → St → World → Prop) (Q : outcome E B → St → World → Prop) s w :
  I acc xs s w →
  (∀ acc x xs' s w, I acc (x :: xs') s w →
     wp (f acc x) s w (λ r s' w',
       match r with
       | Ok acc' => I acc' xs' s' w'
       | Err e => Q (Err e) s' w'
       | Panic => Q Panic s' w'
       end)) →
  (∀ acc s w, I acc [] s w → Q (Ok acc) s w) →
  wp (fold_m f acc xs) s w Q.
Proof.
  intros HI Hstep Hend. revert acc s w HI.
  induction xs as [|x xs IH]; intros acc s w HI; simpl.
  - by apply wp_ret, Hend.
  - apply wp_bind. eapply wp_mono; [by apply Hstep|].
    intros [u|e|] s' w' HQ; auto.
Qed.
End wp.

#[global] Hint Resolve wp_ret : zerolease.

(** Symbolic execution of straight-line operations. *)
Ltac wp_det_step := eapply wp_det; [reflexivity|]; cbn beta iota.
Ltac wp_step :=
  lazymatch goal with
  | |- wp (let _ := _ in _) _ _ _ => cbv zeta
  | |- wp (mret _) _ _ _ => apply wp_ret
  | |- wp (_ ≫= _) _ _ _ => apply wp_bind
  | |- wp (zoom _ _ _) _ _ _ => apply wp_zoom
  | |- wp (try_ _) _ _ _ => apply wp_try
  | |- wp (map_err_m _ _) _ _ _ => apply wp_map_err
  | |- wp (throw _) _ _ _ => wp_det_step
  | |- wp panic _ _ _ => wp_det_step
  | |- wp (lift ?r) _ _ _ =>
      lazymatch r with
      | Ok _ => wp_det_step
      | Err _ => wp_det_step
      | Panic => wp_det_step
      | _ => let E := fresh "Hlift" in destruct r eqn:E; wp_det_step
      end
  | |- wp read _ _ _ => wp_det_step
  | |- wp (write _) _ _ _ => wp_det_step
  | |- wp (modify _) _ _ _ => wp_det_step
  | |- wp utc_now _ _ _ => wp_det_step
  | |- wp uuid_now_v7 _ _ _ => wp_det_step
  | |- wp (fill_bytes _) _ _ _ => wp_det_step
  | |- wp db_call _ _ _ => wp_det_step
  | |- wp (ok_or ?o _) _ _ _ => let E := fresh "Hopt" in destruct o eqn:E; cbn [ok_or]
  | |- wp (expect ?o) _ _ _ => let E := fresh "Hopt" in destruct o eqn:E; cbn [expect]
  | |- wp (when ?b _) _ _ _ => let E := fresh "Hb" in destruct b eqn:E; cbn [when]
  | |- wp (if ?b then _ else _) _ _ _ => let E := fresh "Hb" in destruct b eqn:E
  | |- wp (match ?x with _ => _ end) _ _ _ => let E := fresh "Hm" in destruct x eqn:E
  end.
Ltac wp_steps := repeat (wp_step; cbn beta iota).

(** Use a specification for the call at the head. *)
Tactic Notation "wp_call" uconstr(lem) :=
  eapply wp_mono; [eapply lem; eauto with zerolease|]; cbn beta.

(** ** Iterating over a hash map *)

Section hash_iter.
Context `{!HashIter} {K V : Type} `{Countable K}.
Implicit Types (m : gmap K V).

Lemma hash_iter_NoDup m : NoDup (hash_iter m).*1.
Proof. rewrite hash_iter_perm. apply NoDup_fst_map_to_list. Qed.

Lemma elem_of_hash_iter m k v : (k, v) ∈ hash_iter m ↔ m !! k = Some v.
Proof. rewrite hash_iter_perm. apply elem_of_map_to_list. Qed.

Lemma length_filter_perm {A} (P : A → Prop) `{∀ x, Decision (P x)} (l1 l2 : list A) :
  l1 ≡ₚ l2 → length (filter P l1) = length (filter P l2).
Proof.
  induction 1; rewrite ?filter_cons; repeat case_decide; simpl; congruence.
Qed.

Lemma hash_iter_filter_size (P : K * V → Prop) `{∀ x, Decision (P x)} m :
  length (filter P (hash_iter m)) = size (filter P m).
Proof.
  rewrite (length_filter_perm _ _ _ (hash_iter_perm m)), map_filter_alt.
  rewrite <-length_map_to_list, map_to_list_to_map; [done|].
  apply (sublist_NoDup _ (map_to_list m).*1); [apply NoDup_fst_map_to_list|].
  generalize (map_to_list m). intros l.
  induction l as [|x l IH]; [constructor|]. rewrite filter_cons.
  case_decide; rewrite !fmap_cons; by constructor.
Qed.
End hash_iter.
