(* ===== verification/Threads.v ===== *)
(** Operations that run concurrently over a shared state.

    A program is a tree: its actions run atomically on the shared state, and between two of
    them other threads may run; it takes and returns read and write locks. A pool is the
    shared state with a list of threads, and each step of it is a step of one thread whose
    next lock, if it waits for one, is free. This file holds the programs, the pool, and
    what holds of every pool: each schedule ends; programs that take their locks in the
    order of a rank never block each other and keep what a lock guards stable; and programs
    that follow a protocol follow it in every interleaving. *)
From stdpp Require Import relations.
From S2P Require Import Prelude.

Local Open Scope list_scope.

(** How an [RwLock] is held. *)
Inductive Mode := Shared | Exclusive.
#[global] Instance Mode_eq_dec : EqDecision Mode.
Proof. solve_decision. Defined.

(** ** Programs *)

Section programs.
Context {St E L : Type}.

Inductive Prog (B : Type) : Type :=
  | Ret (r : outcome E B)
  | Acquire (l : L) (m : Mode) (k : Prog B)
  | Release (l : L) (k : Prog B)
  | Act {C : Type} (a : M St E C) (k : outcome E C → Prog B).
#[global] Arguments Ret {B}.
#[global] Arguments Acquire {B}.
#[global] Arguments Release {B}.
#[global] Arguments Act {B C}.

(** Run [p], then [k] on its outcome. *)
Fixpoint pseq {B C} (p : Prog B) (k : outcome E B → Prog C) : Prog C :=
  match p with
  | Ret r => k r
  | Acquire l m p' => Acquire l m (pseq p' k)
  | Release l p' => Release l (pseq p' k)
  | Act a f => Act a (λ r, pseq (f r) k)
  end.

Definition atomic {B} (a : M St E B) : Prog B := Act a Ret.

#[global] Instance Prog_ret : MRet Prog := λ B b, Ret (Ok b).
#[global] Instance Prog_bind : MBind Prog := λ B C k p,
  pseq p (λ r, match r with Ok b => k b | Err e => Ret (Err e) | Panic => Ret Panic end).

(** The guard of a lock is dropped at the end of its scope, however the scope is left. *)
Definition with_lock {B} (l : L) (m : Mode) (p : Prog B) : Prog B :=
  Acquire l m (pseq p (λ r, Release l (Ret r))).

(** [for x in xs { acc = f(acc, x)?; }] and [for x in xs { out.push(f(x)?) }] *)
Fixpoint pfold {A B} (f : B → A → Prog B) (acc : B) (xs : list A) : Prog B :=
  match xs with
  | [] => mret acc
  | x :: xs' => acc' ← f acc x; pfold f acc' xs'
  end.
Fixpoint ptraverse {A B} (f : A → Prog B) (xs : list A) : Prog (list B) :=
  match xs with
  | [] => mret []
  | x :: xs' => y ← f x; ys ← ptraverse f xs'; mret (y :: ys)
  end.

(** A program that runs alone. *)
Fixpoint run_prog {B} (p : Prog B) : M St E B := λ s w,
  match p with
  | Ret r => (r, s, w)
  | Acquire _ _ p' | Release _ p' => run_prog p' s w
  | Act a k => match a s w with (r, s', w') => run_prog (k r) s' w' end
  end.
End programs.
Arguments Prog : clear implicits.

(** ** Equality of operations, up to their runs *)

Definition eqM {St E A} (m m' : M St E A) : Prop := ∀ s w, m s w = m' s w.
Infix "≈" := eqM (at level 70).

Section eqM.
Context {St E : Type}.

#[global] Instance eqM_equivalence {A} : Equivalence (eqM (St := St) (E := E) (A := A)).
Proof.
  split; unfold eqM; [done|by intros m m' H s w|].
  intros m1 m2 m3 H1 H2 s w. by rewrite H1.
Qed.
#[global] Instance bind_proper {A B} :
  Proper (pointwise_relation A eqM ==> eqM ==> eqM) (mbind (M := M St E) (A := A) (B := B)).
Proof.
  intros k k' Hk m m' Hm s w. unfold mbind, M_bind. rewrite Hm.
  destruct (m' s w) as [[[a|e|] s'] w']; [apply Hk|done..].
Qed.

Lemma bind_assoc_eq {A B C} (m : M St E A) (f : A → M St E B) (g : B → M St E C) :
  (m ≫= f) ≫= g ≈ m ≫= (λ a, f a ≫= g).
Proof. intros s w. unfold mbind, M_bind. by destruct (m s w) as [[[b|e|] s'] w']. Qed.
Lemma bind_ret_eq {A} (m : M St E A) : m ≫= mret ≈ m.
Proof. intros s w. unfold mbind, M_bind. by destruct (m s w) as [[[b|e|] s'] w']. Qed.
End eqM.

Section running.
Context {St E L : Type}.
Implicit Types (s : St) (w : World).

Lemma run_prog_seq {B C} (p : Prog St E L B) (k : outcome E B → Prog St E L C) s w :
  run_prog (pseq p k) s w =
  match run_prog p s w with (r, s', w') => run_prog (k r) s' w' end.
Proof.
  revert s w. induction p as [r|l m p IH|l p IH|D a f IH]; intros s w; simpl; [done|auto..|].
  destruct (a s w) as [[r s'] w']. apply IH.
Qed.

Lemma run_prog_bind {B C} (p : Prog St E L B) (k : B → Prog St E L C) :
  run_prog (p ≫= k) ≈ run_prog p ≫= (λ b, run_prog (k b)).
Proof.
  intros s w. unfold mbind at 1, Prog_bind. rewrite run_prog_seq.
  unfold mbind, M_bind. by destruct (run_prog p s w) as [[[b|e|] s'] w'].
Qed.
Lemma run_prog_atomic {B} (a : M St E B) : run_prog (atomic (L := L) a) ≈ a.
Proof. intros s w. unfold atomic. simpl. by destruct (a s w) as [[r s'] w']. Qed.
Lemma run_prog_lock {B} l m (p : Prog St E L B) : run_prog (with_lock l m p) ≈ run_prog p.
Proof.
  intros s w. unfold with_lock. simpl. rewrite run_prog_seq.
  by destruct (run_prog p s w) as [[r s'] w'].
Qed.
Lemma run_prog_fold {A B} (f : B → A → Prog St E L B) (g : B → A → M St E B) acc xs :
  (∀ acc x, run_prog (f acc x) ≈ g acc x) → run_prog (pfold f acc xs) ≈ fold_m g acc xs.
Proof.
  intros Hf. revert acc. induction xs as [|x xs IH]; intros acc; [done|]. simpl.
  rewrite run_prog_bind, Hf. apply bind_proper; [|done]. intros acc'. apply IH.
Qed.
Lemma run_prog_traverse {A B} (f : A → Prog St E L B) (g : A → M St E B) xs :
  (∀ x, run_prog (f x) ≈ g x) → run_prog (ptraverse f xs) ≈ traverse g xs.
Proof.
  intros Hf. induction xs as [|x xs IH]; [done|]. simpl.
  rewrite run_prog_bind, Hf. apply bind_proper; [|done]. intros y.
  rewrite run_prog_bind, IH. by apply bind_proper.
Qed.
End running.

(** Turns a program that runs alone into the operation it stands for. *)
Ltac run_alone :=
  repeat first
    [ setoid_rewrite run_prog_bind | setoid_rewrite run_prog_lock
    | setoid_rewrite run_prog_atomic ].
(** Unfolds the sequencing of the operations on one run, and compares their results. *)
Ltac unfold_run :=
  unfold mbind, M_bind, mret, M_ret, Prog_ret, read, throw, panic, lift, modify in *;
  cbn [run_prog fst snd]; cbv beta iota zeta.
Ltac same_run :=
  unfold_run;
  repeat (match goal with
          | |- context [match ?x with _ => _ end] =>
            lazymatch x with context [match _ with _ => _ end] => fail | _ => idtac end;
            let H := fresh in destruct x eqn:H
          end; unfold_run; try done).

(** ** Pools *)

Section pools.
Context {St E L B : Type} `{!EqDecision L}.

Record Thread := mkThread { held : list (L * Mode); prog : Prog St E L B }.
Record Pool := mkPool { pool_state : St; pool_world : World; pool_threads : list Thread }.

Implicit Types (t : Thread) (ts : list Thread) (c : Pool).

Definition spawn (p : Prog St E L B) : Thread := mkThread [] p.

(** A lock can be shared by readers, or held by one writer. Who gets a lock that is free is
    left open here: the runs of a fair lock are among those of the pool ([Fifo]). *)
Definition conflicts (l : L) (m : Mode) (x : L * Mode) : Prop :=
  x.1 = l ∧ (m = Exclusive ∨ x.2 = Exclusive).
#[global] Instance conflicts_dec l m x : Decision (conflicts l m x).
Proof. unfold conflicts. apply _. Defined.
Definition available (l : L) (m : Mode) ts : Prop :=
  Forall (λ t, ¬ Exists (conflicts l m) (held t)) ts.
#[global] Instance available_dec l m ts : Decision (available l m ts).
Proof. unfold available. apply _. Defined.

Definition drop_lock (l : L) (h : list (L * Mode)) : list (L * Mode) :=
  filter (λ x, x.1 ≠ l) h.

Definition thread_step ts t (s : St) (w : World) : option (Thread * St * World) :=
  match prog t with
  | Ret _ => None
  | Acquire l m k =>
      if decide (available l m ts) then Some (mkThread ((l, m) :: held t) k, s, w) else None
  | Release l k => Some (mkThread (drop_lock l (held t)) k, s, w)
  | Act a k => match a s w with (r, s', w') => Some (mkThread (held t) (k r), s', w') end
  end.

(** The step of thread [i], and a whole schedule. *)
Definition step_at (i : nat) c : option Pool :=
  t ← pool_threads c !! i;
  '(t', s', w') ← thread_step (pool_threads c) t (pool_state c) (pool_world c);
  Some (mkPool s' w' (<[i := t']> (pool_threads c))).
Fixpoint run_schedule (sched : list nat) c : option Pool :=
  match sched with [] => Some c | i :: sched' => c' ← step_at i c; run_schedule sched' c' end.

Definition pool_step c c' : Prop := ∃ i, step_at i c = Some c'.

Lemma run_schedule_steps sched c c' : run_schedule sched c = Some c' → rtc pool_step c c'.
Proof.
  revert c. induction sched as [|i sched IH]; simpl; intros c Hrun; [by simplify_eq|].
  apply bind_Some in Hrun as (c1 & Hi & Hrun). eapply rtc_l; [by exists i|auto].
Qed.

Lemma step_at_Some i c c' :
  step_at i c = Some c' ↔ ∃ t t' s' w', pool_threads c !! i = Some t ∧
    thread_step (pool_threads c) t (pool_state c) (pool_world c) = Some (t', s', w') ∧
    c' = mkPool s' w' (<[i := t']> (pool_threads c)).
Proof.
  unfold step_at. split.
  - intros (t & Ht & ([[t' s'] w'] & Hs & Heq)%bind_Some)%bind_Some. simplify_eq. eauto 10.
  - intros (t & t' & s' & w' & Ht & Hs & ->). rewrite Ht. simpl. by rewrite Hs.
Qed.

Definition finished t : Prop := ∃ r, prog t = Ret r.
#[global] Instance finished_dec t : Decision (finished t).
Proof.
  unfold finished. destruct (prog t); [left; eauto|right; by intros [r ?]..].
Defined.
(** The result of thread [i], once it has finished. *)
Definition result (i : nat) c : option (outcome E B) :=
  t ← pool_threads c !! i; match prog t with Ret r => Some r | _ => None end.
(** The number of threads that are still running. *)
Definition running c : nat := length (filter (λ t, ¬ finished t) (pool_threads c)).

(** ** Every schedule ends *)

(** [q] is what remains of [p] after its first step. *)
Definition rest (q p : Prog St E L B) : Prop :=
  match p with
  | Ret _ => False
  | Acquire _ _ k | Release _ k => q = k
  | Act _ k => ∃ r, q = k r
  end.
Lemma rest_wf : well_founded rest.
Proof.
  intros p. induction p as [r|l m k IH|l k IH|C a k IH]; constructor; simpl; intros q Hq;
    [done|by subst..|]. destruct Hq as [r ->]. apply IH.
Qed.

(** One thread of the list moves on. *)
Definition moved ts' ts : Prop :=
  ∃ i t t', ts !! i = Some t ∧ ts' = <[i := t']> ts ∧ rest (prog t') (prog t).
Lemma moved_wf : well_founded moved.
Proof.
  intros ts. induction ts as [|t ts IH]; [by constructor; intros ts' (i & t & t' & ? & _)|].
  remember (prog t) as p eqn:Hp. revert t Hp ts IH.
  induction (rest_wf p) as [p _ IHp]. intros t -> ts Hts. induction Hts as [ts Hts IHts].
  constructor. intros ts' ([|i] & t1 & t2 & Ht & -> & Hr); simplify_eq/=.
  - eapply IHp; [done..|]. by constructor.
  - apply IHts. by exists i, t1, t2.
Qed.

Lemma thread_step_rest ts t s w t' s' w' :
  thread_step ts t s w = Some (t', s', w') → rest (prog t') (prog t).
Proof.
  unfold thread_step. destruct (prog t) as [r|l m k|l k|C a k]; simpl; intros Hs.
  - done.
  - case_decide; by simplify_eq.
  - by simplify_eq.
  - destruct (a s w) as [[r s1] w1]. simplify_eq/=. eauto.
Qed.

Lemma pool_step_wf : well_founded (λ c' c, pool_step c c').
Proof.
  intros c. remember (pool_threads c) as ts eqn:Hts. revert c Hts.
  induction (moved_wf ts) as [ts _ IH]. intros c ->. constructor. intros c' [i Hi].
  apply step_at_Some in Hi as (t & t' & s' & w' & Ht & Hs & ->).
  eapply IH; [|done]. exists i, t, t'. split; [done|]. split; [done|].
  by eapply thread_step_rest.
Qed.
End pools.
Arguments Thread : clear implicits.
Arguments Pool : clear implicits.

(** ** Locks *)

(** The order in which locks are taken. *)
Class LockRank (L : Type) := rank : L → nat.
(** [same l s s']: the part of the state that [l] guards is the same in [s] and [s']. *)
Class Guards (St L : Type) := same : L → St → St → Prop.

Section locks.
Context {St E L : Type} `{!EqDecision L, !LockRank L, !Guards St L}.
Implicit Types (h : list (L * Mode)) (s : St) (w : World).

(** What may be written under the locks [h]: only what a lock held exclusively guards. *)
Definition respects h s s' : Prop := ∀ l, (l, Exclusive) ∉ h → same l s s'.

(** [locked_in h p h']: from holding [h], the program takes every lock above those it
    holds, returns only locks it holds, writes under the locks it needs, and ends holding
    [h']. *)
Fixpoint locked_in {B} h (p : Prog St E L B) h' : Prop :=
  match p with
  | Ret _ => h = h'
  | Acquire l m k => Forall (λ x, (rank x.1 < rank l)%nat) h ∧ locked_in ((l, m) :: h) k h'
  | Release l k => l ∈ h.*1 ∧ locked_in (drop_lock l h) k h'
  | Act a k => ∀ s w, wp a s w (λ r s' _, respects h s s' ∧ locked_in h (k r) h')
  end.

Lemma locked_seq {B C} (p : Prog St E L B) (k : outcome E B → Prog St E L C) h h1 h2 :
  locked_in h p h1 → (∀ r, locked_in h1 (k r) h2) → locked_in h (pseq p k) h2.
Proof.
  intros Hp Hk. revert h Hp.
  induction p as [r|l m p IH|l p IH|D a f IH]; simpl; intros h; [by intros ->|naive_solver..|].
  intros Hp s w. eapply wp_mono; [apply Hp|]. naive_solver.
Qed.
Lemma locked_bind {B C} (p : Prog St E L B) (k : B → Prog St E L C) h :
  locked_in h p h → (∀ b, locked_in h (k b) h) → locked_in h (p ≫= k) h.
Proof. intros Hp Hk. eapply locked_seq; [exact Hp|]. by intros [b|e|]; simpl. Qed.
Lemma locked_ret {B} (b : B) h : locked_in h (mret b) h.
Proof. done. Qed.
Lemma locked_fail {B} (r : outcome E B) h : locked_in h (Ret r) h.
Proof. done. Qed.
Lemma locked_atomic {B} (a : M St E B) h :
  (∀ s w, wp a s w (λ _ s' _, respects h s s')) → locked_in h (atomic a) h.
Proof. intros Ha s w. eapply wp_mono; [apply Ha|]. done. Qed.
Lemma locked_with {B} l m (p : Prog St E L B) h :
  Forall (λ x, (rank x.1 < rank l)%nat) h →
  locked_in ((l, m) :: h) p ((l, m) :: h) → locked_in h (with_lock l m p) h.
Proof.
  intros Hr Hp. split; [done|]. eapply locked_seq; [exact Hp|]. intros r. simpl.
  split; [set_solver|]. unfold drop_lock. rewrite filter_cons_False by (simpl; tauto).
  clear Hp. induction Hr as [|x h Hx _ IH]; [done|].
  rewrite filter_cons_True by (intros Heq; rewrite Heq in Hx; lia). by rewrite IH.
Qed.
Lemma locked_fold {A B} (f : B → A → Prog St E L B) acc xs h :
  (∀ acc x, locked_in h (f acc x) h) → locked_in h (pfold f acc xs) h.
Proof.
  intros Hf. revert acc. induction xs as [|x xs IH]; intros acc; [done|]. simpl.
  by apply locked_bind.
Qed.
Lemma locked_traverse {A B} (f : A → Prog St E L B) xs h :
  (∀ x, locked_in h (f x) h) → locked_in h (ptraverse f xs) h.
Proof.
  intros Hf. induction xs as [|x xs IH]; [done|]. simpl.
  apply locked_bind; [done|]. intros y. by apply locked_bind.
Qed.
End locks.

Section locked_pools.
Context {St E L B : Type} `{!EqDecision L, !LockRank L, !Guards St L}.
Implicit Types (t : Thread St E L B) (c : Pool St E L B).

(** Every thread follows the discipline, and no lock held exclusively is held twice. *)
Definition pool_locked c : Prop :=
  (∀ t, t ∈ pool_threads c → locked_in (held t) (prog t) []) ∧
  (∀ i j ti tj l m, i ≠ j → pool_threads c !! i = Some ti → pool_threads c !! j = Some tj →
     (l, Exclusive) ∈ held ti → (l, m) ∉ held tj).

Lemma spawn_locked (s : St) w (ps : list (Prog St E L B)) :
  Forall (λ p, locked_in [] p []) ps → pool_locked (mkPool s w (spawn <$> ps)).
Proof.
  intros Hps. split; cbn [pool_threads].
  - intros t (p & -> & Hp)%list_elem_of_fmap. rewrite Forall_forall in Hps. auto.
  - intros i j ti tj l m _ Hi _ Hl.
    apply list_lookup_fmap_Some in Hi as (p & -> & _). by apply not_elem_of_nil in Hl.
Qed.

Lemma pool_locked_join c p :
  pool_locked c → locked_in [] p [] →
  pool_locked (mkPool (pool_state c) (pool_world c) (pool_threads c ++ [spawn p])).
Proof.
  intros [Hty Hex] Hp. split; cbn [pool_threads].
  - intros t [Ht| ->%list_elem_of_singleton]%elem_of_app; [by apply Hty|done].
  - intros i j ti tj l m Hne Hi Hj Hl Hl'.
    apply lookup_snoc_Some in Hi as [[_ Hi]|[_ <-]]; [|by apply not_elem_of_nil in Hl].
    apply lookup_snoc_Some in Hj as [[_ Hj]|[_ <-]]; [|by apply not_elem_of_nil in Hl'].
    exact (Hex i j ti tj l m Hne Hi Hj Hl Hl').
Qed.

Lemma thread_step_locked ts t s w t' s' w' :
  thread_step ts t s w = Some (t', s', w') → locked_in (held t) (prog t) [] →
  locked_in (held t') (prog t') [] ∧ respects (held t) s s' ∨
  locked_in (held t') (prog t') [] ∧ s' = s.
Proof.
  unfold thread_step. destruct (prog t) as [r|l m k|l k|C a k]; simpl; intros Hs Hl.
  - done.
  - case_decide; simplify_eq/=. right. by destruct Hl.
  - simplify_eq/=. right. by destruct Hl.
  - specialize (Hl s w). unfold wp in Hl. destruct (a s w) as [[r s1] w1]. simplify_eq/=.
    left. naive_solver.
Qed.

(** A lock that a thread gets conflicts with no lock that another one holds. *)
Lemma thread_step_held ts t s w t' s' w' x :
  thread_step ts t s w = Some (t', s', w') → x ∈ held t' →
  x ∈ held t ∨ available x.1 x.2 ts.
Proof.
  unfold thread_step. destruct (prog t) as [r|l m k|l k|C a k]; simpl; intros Hs Hx.
  - done.
  - case_decide; simplify_eq/=. apply elem_of_cons in Hx as [->|Hx]; auto.
  - simplify_eq/=. left. by apply list_elem_of_filter in Hx as [_ ?].
  - destruct (a s w) as [[r s1] w1]. simplify_eq/=. auto.
Qed.

Lemma available_free l m ts t x :
  available l m ts → t ∈ ts → x ∈ held t → ¬ conflicts l m x.
Proof.
  intros Ha Ht Hx Hc. unfold available in Ha. rewrite Forall_forall in Ha.
  apply (Ha t Ht). apply Exists_exists. eauto.
Qed.

Lemma pool_step_locked c c' : pool_step c c' → pool_locked c → pool_locked c'.
Proof.
  intros [i Hi] [Hty Hex].
  apply step_at_Some in Hi as (t & t' & s' & w' & Ht & Hs & ->). cbn [pool_threads]. split.
  - cbn [pool_threads]. intros t1 Ht1. apply list_elem_of_lookup in Ht1 as [j Hj].
    apply list_lookup_insert_Some in Hj as [(<- & <- & _)|(_ & Hj)].
    + assert (Hl := Hty t (list_elem_of_lookup_2 _ _ _ Ht)).
      destruct (thread_step_locked _ _ _ _ _ _ _ Hs Hl) as [[? _]|[? _]]; done.
    + apply Hty. by eapply list_elem_of_lookup_2.
  - cbn [pool_threads].
    intros j1 j2 t1 t2 l m Hne H1 H2 Hl1 Hl2.
    apply list_lookup_insert_Some in H1 as [(<- & <- & _)|(Hn1 & H1)];
      apply list_lookup_insert_Some in H2 as [(<- & <- & _)|(Hn2 & H2)]; [done| | |exact (Hex j1 j2 t1 t2 l m Hne H1 H2 Hl1 Hl2)].
    + destruct (thread_step_held _ _ _ _ _ _ _ _ Hs Hl1) as [Hl|Ha];
        [exact (Hex _ _ _ _ _ _ Hne Ht H2 Hl Hl2)|].
      eapply (available_free _ _ _ t2 _ Ha); [by eapply list_elem_of_lookup_2|done|].
      split; [done|]. by left.
    + destruct (thread_step_held _ _ _ _ _ _ _ _ Hs Hl2) as [Hl|Ha];
        [exact (Hex _ _ _ _ _ _ Hne H1 Ht Hl1 Hl)|].
      eapply (available_free _ _ _ t1 _ Ha); [by eapply list_elem_of_lookup_2|done|].
      split; [done|]. by right.
Qed.

Lemma pool_steps_locked c c' : rtc pool_step c c' → pool_locked c → pool_locked c'.
Proof. induction 1; eauto using pool_step_locked. Qed.

(** While a thread holds a lock, no other thread changes what the lock guards. *)
Lemma locked_stable `{!∀ l, Reflexive (same (St := St) (L := L) l)} i j c c' t l m :
  pool_locked c → pool_threads c !! i = Some t → (l, m) ∈ held t →
  step_at j c = Some c' → j ≠ i → same l (pool_state c) (pool_state c').
Proof.
  intros [Hty Hex] Ht Hl Hj Hne.
  apply step_at_Some in Hj as (tj & t' & s' & w' & Htj & Hs & ->). simpl.
  assert (Hlj := Hty tj (list_elem_of_lookup_2 _ _ _ Htj)).
  destruct (thread_step_locked _ _ _ _ _ _ _ Hs Hlj) as [[_ Hr]|[_ ->]]; [|done].
  apply Hr. intros Hx. by apply (Hex j i tj t l m).
Qed.

(** The rank of the lock that a thread waits for. *)
Definition wanted t : nat := match prog t with Acquire l _ _ => rank l | _ => O end.

Lemma waits_or_steps ts t s w :
  ¬ finished t → is_Some (thread_step ts t s w) ∨
  ∃ l m k, prog t = Acquire l m k ∧ ¬ available l m ts.
Proof.
  unfold finished, thread_step. intros Hf. destruct (prog t) as [r|l m k|l k|C a k].
  - destruct Hf. eauto.
  - case_decide; [left; eauto|right; eauto 10].
  - left. eauto.
  - left. destruct (a s w) as [[r s1] w1]. eauto.
Qed.

(** A thread that has to wait, waits for one that wants a higher lock, or can step. *)
Lemma waits_for c t l m k :
  pool_locked c → t ∈ pool_threads c → prog t = Acquire l m k →
  ¬ available l m (pool_threads c) →
  ∃ t', t' ∈ pool_threads c ∧ ¬ finished t' ∧
    (is_Some (thread_step (pool_threads c) t' (pool_state c) (pool_world c)) ∨
     (wanted t < wanted t')%nat).
Proof.
  intros [Hty _] Ht Hp Hna. unfold available in Hna.
  apply not_Forall_Exists in Hna; [|apply _].
  apply Exists_exists in Hna as (t' & Ht' & Hc%dec_stable).
  apply Exists_exists in Hc as (x & Hx & Hxl & _). exists t'. split; [done|].
  specialize (Hty t' Ht').
  assert (Hnf : ¬ finished t').
  { intros [r Hr]. rewrite Hr in Hty. simpl in Hty. rewrite Hty in Hx.
    by apply not_elem_of_nil in Hx. }
  split; [done|].
  destruct (waits_or_steps (pool_threads c) t' (pool_state c) (pool_world c) Hnf)
    as [Hs|(l' & m' & k' & Hp' & _)]; [by left|right].
  rewrite Hp' in Hty. destruct Hty as [Hr _]. rewrite Forall_forall in Hr.
  unfold wanted. rewrite Hp, Hp'. specialize (Hr x Hx). by rewrite Hxl in Hr.
Qed.

Lemma rank_bound (ts : list (Thread St E L B)) : ∃ n, ∀ t, t ∈ ts → (wanted t ≤ n)%nat.
Proof.
  induction ts as [|t ts [n IH]]; [exists O; by intros t ?%not_elem_of_nil|].
  exists (Nat.max n (wanted t)). intros t' [->|Ht']%elem_of_cons; [lia|].
  specialize (IH t' Ht'). lia.
Qed.

(** A pool can step as long as one of its threads has not finished. *)
Lemma pool_progress c t :
  pool_locked c → t ∈ pool_threads c → ¬ finished t → ∃ c', pool_step c c'.
Proof.
  intros Hc. destruct (rank_bound (pool_threads c)) as [n Hn].
  remember (n - wanted t)%nat as d eqn:Hd. revert t Hd.
  induction d as [d IH] using lt_wf_ind. intros t -> Ht Hf.
  assert (Hstep : ∀ t1, t1 ∈ pool_threads c →
    is_Some (thread_step (pool_threads c) t1 (pool_state c) (pool_world c)) →
    ∃ c', pool_step c c').
  { intros t1 Ht1 [[[t2 s2] w2] Hs]. apply list_elem_of_lookup in Ht1 as [i Hi].
    eexists. exists i. apply step_at_Some. eauto 10. }
  destruct (waits_or_steps (pool_threads c) t (pool_state c) (pool_world c) Hf)
    as [Hs|(l & m & k & Hp & Hna)]; [by eapply Hstep|].
  destruct (waits_for c t l m k Hc Ht Hp Hna) as (t' & Ht' & Hf' & [Hs|Hlt]); [by eapply Hstep|].
  eapply (IH (n - wanted t')%nat); [|done..]. specialize (Hn t' Ht'). lia.
Qed.
End locked_pools.

(** ** Protocols *)

Section protocols.
Context {St E L X : Type}.
(** [I] holds of the shared state between actions; [T x s w x' s' w'] is what an action of
    a thread may do that has got as far as [x]. *)
Context (I : St → World → Prop) (T : X → St → World → X → St → World → Prop).

(** From [x] on, whatever the other threads do, the program's actions follow the protocol,
    and its result fits what it has done. *)
Fixpoint follows {B} (x : X) (p : Prog St E L B) (Q : X → outcome E B → Prop) : Prop :=
  match p with
  | Ret r => Q x r
  | Acquire _ _ k | Release _ k => follows x k Q
  | Act a k => ∀ s w, I s w → wp a s w (λ r s' w',
      I s' w' ∧ ∃ x', T x s w x' s' w' ∧ follows x' (k r) Q)
  end.

Lemma follows_seq {B C} x (p : Prog St E L B) (k : outcome E B → Prog St E L C) P Q :
  follows x p P → (∀ x' r, P x' r → follows x' (k r) Q) → follows x (pseq p k) Q.
Proof.
  intros Hp Hk. revert x Hp.
  induction p as [r|l m p IH|l p IH|D a f IH]; simpl; intros x; [by apply Hk|by apply IH..|].
  intros Hp s w Hs. eapply wp_mono; [by apply Hp|]. naive_solver.
Qed.
Lemma follows_mono {B} x (p : Prog St E L B) (P Q : X → outcome E B → Prop) :
  follows x p P → (∀ x' r, P x' r → Q x' r) → follows x p Q.
Proof.
  intros Hp HPQ. revert x Hp.
  induction p as [r|l m p IH|l p IH|D a f IH]; simpl; intros x; [auto..|].
  intros Hp s w Hs. eapply wp_mono; [by apply Hp|]. naive_solver.
Qed.
Lemma follows_bind {B C} x (p : Prog St E L B) (k : B → Prog St E L C) P Q :
  follows x p P → (∀ x' b, P x' (Ok b) → follows x' (k b) Q) →
  (∀ x' e, P x' (Err e) → Q x' (Err e)) → (∀ x', P x' Panic → Q x' Panic) →
  follows x (p ≫= k) Q.
Proof.
  intros Hp Hk He Hpa. eapply follows_seq; [exact Hp|]. intros x' [b|e|]; simpl; auto.
Qed.
Lemma follows_lock {B} x l m (p : Prog St E L B) Q : follows x p Q → follows x (with_lock l m p) Q.
Proof. intros Hp. simpl. eapply follows_seq; [exact Hp|]. by intros x' r HQ. Qed.
Lemma follows_atomic {B} x (a : M St E B) Q :
  (∀ s w, I s w → wp a s w (λ r s' w', I s' w' ∧ ∃ x', T x s w x' s' w' ∧ Q x' r)) →
  follows x (atomic a) Q.
Proof. done. Qed.
Lemma follows_fold {A B} (f : B → A → Prog St E L B) acc xs x (P : X → Prop) :
  P x →
  (∀ x acc a, P x → follows x (f acc a) (λ x' _, P x')) →
  follows x (pfold f acc xs) (λ x' _, P x').
Proof.
  intros HP Hf. revert acc x HP. induction xs as [|a xs IH]; intros acc x HP; [done|]. simpl.
  eapply follows_bind; [by apply Hf|simpl; auto..].
Qed.
Lemma follows_traverse {A B} (f : A → Prog St E L B) xs x (P : X → Prop) :
  P x →
  (∀ x a, P x → follows x (f a) (λ x' _, P x')) →
  follows x (ptraverse f xs) (λ x' _, P x').
Proof.
  intros HP Hf. revert x HP. induction xs as [|a xs IH]; intros x HP; [done|]. simpl.
  eapply follows_bind; [by apply Hf| |done..]. intros x' y HP'. simpl in HP'.
  eapply follows_bind; [by apply IH| |done..]. by intros x2 ys HP2.
Qed.

Context {B : Type} `{!EqDecision L} (Q : X → outcome E B → Prop).
Implicit Types (c : Pool St E L B) (xs : list X).

(** A step of one of the threads, seen from the protocol. *)
Definition protocol_step (a b : list X * St * World) : Prop :=
  ∃ i x x', a.1.1 !! i = Some x ∧ T x a.1.2 a.2 x' b.1.2 b.2 ∧ b.1.1 = <[i := x']> a.1.1.

Definition pool_follows xs c : Prop :=
  I (pool_state c) (pool_world c) ∧
  Forall2 (λ x t, follows x (prog t) Q) xs (pool_threads c).

Lemma pool_step_follows c c' xs :
  pool_step c c' → pool_follows xs c →
  ∃ xs', pool_follows xs' c' ∧
    ((xs', pool_state c', pool_world c') = (xs, pool_state c, pool_world c) ∨
     protocol_step (xs, pool_state c, pool_world c) (xs', pool_state c', pool_world c')).
Proof.
  intros [i Hi] [HI Hall].
  apply step_at_Some in Hi as (t & t' & s' & w' & Ht & Hs & ->). simpl.
  destruct (Forall2_lookup_r _ _ _ _ _ Hall Ht) as (x & Hx & Hf).
  assert (Hquiet : follows x (prog t') Q → (s', w') = (pool_state c, pool_world c) →
    ∃ xs', pool_follows xs' (mkPool s' w' (<[i := t']> (pool_threads c))) ∧
      ((xs', s', w') = (xs, pool_state c, pool_world c) ∨
       protocol_step (xs, pool_state c, pool_world c) (xs', s', w'))).
  { intros Hf' [= -> ->]. exists xs. split; [|by left]. split; [done|]. cbn [pool_threads].
    rewrite <-(list_insert_id xs i x) by done. by apply Forall2_insert. }
  unfold thread_step in Hs. destruct (prog t) as [r|l m k|l k|C a k]; simpl in *.
  - done.
  - case_decide; simplify_eq/=. auto.
  - simplify_eq/=. auto.
  - specialize (Hf (pool_state c) (pool_world c) HI). unfold wp in Hf.
    destruct (a (pool_state c) (pool_world c)) as [[r s1] w1]. simplify_eq/=.
    destruct Hf as (HI' & x' & HT & Hf'). exists (<[i := x']> xs). split.
    + split; [done|]. cbn [pool_threads]. by apply Forall2_insert.
    + right. by exists i, x, x'.
Qed.

(** A new thread joins. *)
Lemma pool_follows_join c xs x p :
  pool_follows xs c → follows x p Q →
  pool_follows (xs ++ [x])
    (mkPool (pool_state c) (pool_world c) (pool_threads c ++ [spawn p])).
Proof.
  intros [HI Hall] Hp. split; [done|]. apply Forall2_app; [done|]. by repeat constructor.
Qed.
End protocols.
