(* ===== verification/Fifo.v ===== *)
(** Locks that serve their waiters in order.

    [tokio::sync::RwLock] is fair: who asks for a lock that is not free, or that others wait
    for already, gets in line, and a reader never passes a writer that came before it. A pool
    of [Threads] lets any waiting thread have a lock that is free; here the pool comes with
    the line, and each of its steps is a step of that pool, or one thread getting in line.
    What holds of every run of a pool therefore holds of these runs too; what has to be shown
    again is that nobody waits forever. *)
From stdpp Require Import relations.
From S2P Require Import Prelude Threads.

Local Open Scope list_scope.

(** ** What happens in every schedule *)

(** However the steps of [R] are chosen, a state of [P] is reached, and no state without
    another step before it. *)
Inductive inevitable {X} (R : relation X) (P : X → Prop) : X → Prop :=
  | iv_now x : P x → inevitable R P x
  | iv_later x :
      (∃ y, R x y) → (∀ y, R x y → inevitable R P y) → inevitable R P x.

Lemma inevitable_wf {X} (R : relation X) (P I : X → Prop) :
  (∀ x, I x → Acc (flip R) x) → (∀ x y, I x → R x y → I y) →
  (∀ x, I x → P x ∨ ∃ y, R x y) → ∀ x, I x → inevitable R P x.
Proof.
  intros Hwf HI Hp x Hx. induction (Hwf x Hx) as [x _ IH].
  destruct (Hp x Hx) as [HP|Hy]; [by apply iv_now|]. apply iv_later; [done|].
  intros y Hxy. apply IH; [done|]. by eapply HI.
Qed.

(** ** Pools with a line *)

Section fifo.
Context {St E L B : Type} `{!EqDecision L}.
Abbreviation FPool := (Pool St E L B).

(** The line: threads with the lock each of them waits for, the longest waiting first. *)
Record FifoPool := mkFifo { fifo_pool : FPool; fifo_line : list (nat * L) }.
Implicit Types (F : FifoPool) (q : list (nat * L)) (c : FPool).

(** Nobody else has been waiting for [l], or not as long as thread [i]. *)
Definition in_turn (i : nat) (l : L) q : Prop :=
  match filter (λ x, x.2 = l) q with [] => True | x :: _ => x.1 = i end.
#[global] Instance in_turn_dec i l q : Decision (in_turn i l q).
Proof. unfold in_turn. destruct (filter _ q); apply _. Defined.

(** Thread [i] leaves the line. *)
Definition leave (i : nat) q : list (nat * L) := filter (λ x, x.1 ≠ i) q.

(** The step of thread [i]: it takes the lock it asks for if it is its turn and the lock is
    free, and gets in line otherwise, once; everything else it does as before. *)
Definition fifo_step_at (i : nat) F : option FifoPool :=
  let c := fifo_pool F in
  t ← pool_threads c !! i;
  match prog t with
  | Acquire l m _ =>
    if decide (in_turn i l (fifo_line F) ∧ available l m (pool_threads c)) then
      c' ← step_at i c; Some (mkFifo c' (leave i (fifo_line F)))
    else if decide (i ∈ (fifo_line F).*1) then None
    else Some (mkFifo c (fifo_line F ++ [(i, l)]))
  | _ => c' ← step_at i c; Some (mkFifo c' (fifo_line F))
  end.
Fixpoint fifo_schedule (sched : list nat) F : option FifoPool :=
  match sched with
  | [] => Some F
  | i :: sched' => F' ← fifo_step_at i F; fifo_schedule sched' F'
  end.

Definition fifo_step F F' : Prop := ∃ i, fifo_step_at i F = Some F'.

Definition fifo_threads F : list (Thread St E L B) := pool_threads (fifo_pool F).

Lemma fifo_schedule_steps sched F F' : fifo_schedule sched F = Some F' → rtc fifo_step F F'.
Proof.
  revert F. induction sched as [|i sched IH]; simpl; intros F Hrun; [by simplify_eq|].
  apply bind_Some in Hrun as (F1 & Hi & Hrun). eapply rtc_l; [by exists i|auto].
Qed.

(** A step takes the lock, makes the thread wait, or is one without a lock to take. *)
Lemma fifo_step_at_cases i F F' :
  fifo_step_at i F = Some F' →
  (∃ t l m k c', fifo_threads F !! i = Some t ∧ prog t = Acquire l m k ∧
     in_turn i l (fifo_line F) ∧ step_at i (fifo_pool F) = Some c' ∧
     F' = mkFifo c' (leave i (fifo_line F))) ∨
  (∃ t l m k, fifo_threads F !! i = Some t ∧ prog t = Acquire l m k ∧
     i ∉ (fifo_line F).*1 ∧ F' = mkFifo (fifo_pool F) (fifo_line F ++ [(i, l)])) ∨
  (∃ t c', fifo_threads F !! i = Some t ∧ (∀ l m k, prog t ≠ Acquire l m k) ∧
     step_at i (fifo_pool F) = Some c' ∧ F' = mkFifo c' (fifo_line F)).
Proof.
  unfold fifo_step_at, fifo_threads. intros (t & Ht & Hs)%bind_Some.
  destruct (prog t) as [r|l m k|l k|C a k] eqn:Hp.
  2: { case_decide as Hd.
       - apply bind_Some in Hs as (c' & Hc & [= <-]). left. exists t, l, m, k, c'.
         destruct Hd. done.
       - case_decide as Hq; [done|]. injection Hs as <-. right. left. by exists t, l, m, k. }
  all: apply bind_Some in Hs as (c' & Hc & [= <-]); right; right; exists t, c';
    (split; [done|]); (split; [by rewrite Hp|done]).
Qed.

(** Seen from the pool, a thread steps or nothing happens. *)
Lemma fifo_step_pool F F' :
  fifo_step F F' → fifo_pool F' = fifo_pool F ∨ pool_step (fifo_pool F) (fifo_pool F').
Proof.
  intros [i [(t & l & m & k & c' & _ & _ & _ & Hc & ->)|[(t & l & m & k & _ & _ & _ & ->)|
    (t & c' & _ & _ & Hc & ->)]]%fifo_step_at_cases]; [right; by exists i|by left|right; by exists i].
Qed.

(** Whoever is in line is about to take the lock it is in line for. *)
Definition line_ok F : Prop :=
  ∀ i l, (i, l) ∈ fifo_line F →
    ∃ t m k, fifo_threads F !! i = Some t ∧ prog t = Acquire l m k.

Lemma line_ok_step F F' : fifo_step F F' → line_ok F → line_ok F'.
Proof.
  intros [i Hi] Hok. apply fifo_step_at_cases in Hi as
    [(t & l & m & k & c' & Ht & Hp & _ & Hc & ->)|[(t & l & m & k & Ht & Hp & _ & ->)|
     (t & c' & Ht & Hp & Hc & ->)]]; intros j l'; unfold fifo_threads in *; cbn [fifo_pool fifo_line].
  - intros [Hj Hin]%list_elem_of_filter. simpl in Hj. destruct (Hok j l' Hin) as (t' & m' & k' & Ht' & Hp').
    apply step_at_Some in Hc as (t1 & t2 & s' & w' & H1 & _ & ->). exists t', m', k'.
    cbn [pool_threads]. by rewrite list_lookup_insert_ne by congruence.
  - intros [Hin|Hin]%elem_of_app; [by apply Hok|]. apply list_elem_of_singleton in Hin as [= -> ->].
    by exists t, m, k.
  - intros Hin. destruct (Hok j l' Hin) as (t' & m' & k' & Ht' & Hp').
    destruct (decide (i = j)) as [->|Hne].
    { unfold fifo_threads in *. simplify_eq. by destruct (Hp l' m' k'). }
    apply step_at_Some in Hc as (t1 & t2 & s' & w' & H1 & _ & ->). exists t', m', k'.
    cbn [pool_threads]. by rewrite list_lookup_insert_ne by congruence.
Qed.

(** ** Schedules end *)

(** The threads that are not in line. *)
Definition out_of_line F : list nat :=
  filter (λ i, i ∉ (fifo_line F).*1) (seq 0 (length (fifo_threads F))).

Lemma filter_shrinks (P Q : nat → Prop) `{!∀ i, Decision (P i), !∀ i, Decision (Q i)} i l :
  (∀ j, Q j → P j) → i ∈ l → P i → ¬ Q i → (length (filter Q l) < length (filter P l))%nat.
Proof.
  intros HQP Hi HP HQ. induction l as [|j l IH]; [by apply not_elem_of_nil in Hi|].
  assert (Hle : (length (filter Q l) ≤ length (filter P l))%nat).
  { clear IH Hi. induction l as [|j' l IH]; [done|]. rewrite !filter_cons.
    repeat case_decide; simpl; try lia. naive_solver. }
  rewrite !filter_cons. apply elem_of_cons in Hi as [->|Hi].
  - rewrite (decide_False (P := Q j)), (decide_True (P := P j)) by done. simpl. lia.
  - specialize (IH Hi). repeat case_decide; simpl; try lia. naive_solver.
Qed.

Lemma fifo_step_wf : well_founded (flip fifo_step).
Proof.
  intros F. remember (fifo_threads F) as ts eqn:Hts. revert F Hts.
  induction (moved_wf ts) as [ts _ IH]. intros F Hts.
  remember (length (out_of_line F)) as n eqn:Hn. revert F Hts Hn.
  induction n as [n IHn] using lt_wf_ind. intros F Hts ->. constructor. intros F' [i Hi].
  assert (Hmove : ∀ c' q', step_at i (fifo_pool F) = Some c' → F' = mkFifo c' q' →
    Acc (flip fifo_step) F').
  { intros c' q' Hc ->. eapply IH; [|reflexivity]. unfold fifo_threads in *. subst ts.
    cbn [fifo_pool]. apply step_at_Some in Hc as (t & t' & s' & w' & Ht & Hs & ->).
    exists i, t, t'. split; [done|]. split; [done|]. by eapply thread_step_rest. }
  apply fifo_step_at_cases in Hi as
    [(t & l & m & k & c' & Ht & Hp & _ & Hc & Heq)|[(t & l & m & k & Ht & Hp & Hq & ->)|
     (t & c' & Ht & Hp & Hc & Heq)]]; [by eapply Hmove| |by eapply Hmove].
  eapply IHn; [|exact Hts|reflexivity]. unfold out_of_line, fifo_threads in *. cbn [fifo_pool fifo_line].
  apply (filter_shrinks _ _ i); [| |done|].
  - intros j Hj Hin. apply Hj. rewrite fmap_app. apply elem_of_app. by left.
  - apply elem_of_seq. apply lookup_lt_Some in Ht. lia.
  - intros Hj. apply Hj. rewrite fmap_app. apply elem_of_app. right. simpl. set_solver.
Qed.
End fifo.
Arguments FifoPool : clear implicits.

(** ** Nobody waits forever *)

Section progress.
Context {St E L B : Type} `{!EqDecision L, !LockRank L, !Guards St L}.
Implicit Types (F : FifoPool St E L B) (t : Thread St E L B).

(** Threads that have stopped for good, of themselves: they hold no lock, and wait for none. *)
Definition harmless F (stalled : nat → Prop) : Prop :=
  ∀ i t, stalled i → fifo_threads F !! i = Some t →
    held t = [] ∧ ∀ l m k, prog t ≠ Acquire l m k.

(** A thread that cannot step is in line, behind another thread or for a lock that is held. *)
Lemma fifo_waits_or_steps F i t :
  fifo_threads F !! i = Some t → ¬ finished t →
  (∃ F', fifo_step_at i F = Some F') ∨
  ∃ l m k, prog t = Acquire l m k ∧ i ∈ (fifo_line F).*1 ∧
    ¬ (in_turn i l (fifo_line F) ∧ available l m (fifo_threads F)).
Proof.
  unfold fifo_threads, fifo_step_at. intros Ht Hf. rewrite Ht. cbn [mbind option_bind].
  assert (Hstep : ∀ s', thread_step (pool_threads (fifo_pool F)) t (pool_state (fifo_pool F))
    (pool_world (fifo_pool F)) = Some s' → is_Some (step_at i (fifo_pool F))).
  { intros [[t' s'] w'] Hs. eexists. apply step_at_Some. eauto 10. }
  destruct (prog t) as [r|l m k|l k|C a k] eqn:Hp.
  - destruct Hf. by exists r.
  - case_decide as Hd.
    + left. destruct (Hstep (mkThread ((l, m) :: held t) k, pool_state (fifo_pool F),
        pool_world (fifo_pool F))) as [c' ->]; [|by eexists].
      unfold thread_step. rewrite Hp, decide_True by apply Hd. done.
    + case_decide as Hq; [right; by exists l, m, k|left; by eexists].
  - left. edestruct Hstep as [c' ->]; [|by eexists]. unfold thread_step. by rewrite Hp.
  - left. destruct (a (pool_state (fifo_pool F)) (pool_world (fifo_pool F)))
      as [[r s1] w1] eqn:Ha.
    destruct (Hstep (mkThread (held t) (k r), s1, w1)) as [c' ->]; [|by eexists].
    unfold thread_step. by rewrite Hp, Ha.
Qed.

(** Who is first in line for a lock. *)
Lemma in_line_first i l (q : list (nat * L)) :
  (i, l) ∈ q → ∃ j, (j, l) ∈ q ∧ in_turn j l q.
Proof.
  intros Hin. unfold in_turn.
  assert (Hf : (i, l) ∈ filter (λ x, x.2 = l) q) by (by apply list_elem_of_filter).
  destruct (filter (λ x, x.2 = l) q) as [|[j l'] rest] eqn:Heq; [by apply not_elem_of_nil in Hf|].
  assert (Hj : (j, l') ∈ filter (λ x, x.2 = l) q) by (rewrite Heq; apply list_elem_of_here).
  apply list_elem_of_filter in Hj as [Hl Hj]. simpl in Hl. subst l'. by exists j.
Qed.

(** As long as a thread that has not stopped of itself has not finished, such a thread can
    step. *)
Lemma fifo_progress F (stalled : nat → Prop) i t :
  pool_locked (fifo_pool F) → line_ok F → harmless F stalled →
  fifo_threads F !! i = Some t → ¬ stalled i → ¬ finished t →
  ∃ j F', ¬ stalled j ∧ fifo_step_at j F = Some F'.
Proof.
  intros [Hty Hex] Hline Hharm. destruct (rank_bound (fifo_threads F)) as [n Hn].
  remember (n - wanted t)%nat as d eqn:Hd. revert i t Hd.
  induction d as [d IH] using lt_wf_ind. intros i t -> Ht Hst Hf.
  destruct (fifo_waits_or_steps F i t Ht Hf) as [[F' HF]|(l & m & k & Hp & Hq & _)]; [by eauto|].
  (* The line for the lock, and who is first in it. *)
  assert (Hin : (i, l) ∈ fifo_line F).
  { apply list_elem_of_fmap in Hq as ([i' l'] & -> & Hin). destruct (Hline _ _ Hin)
      as (t' & m' & k' & Ht' & Hp'). simpl in *. rewrite Ht in Ht'. injection Ht' as <-.
    rewrite Hp in Hp'. by injection Hp' as <- _ _. }
  destruct (in_line_first _ _ _ Hin) as (j & Hj & Hturn).
  destruct (Hline _ _ Hj) as (tj & mj & kj & Htj & Hpj).
  assert (Hnfj : ¬ finished tj) by (intros [r Hr]; congruence).
  assert (Hstj : ¬ stalled j) by (intros Hs; destruct (Hharm j tj Hs Htj) as [_ Hno]; by destruct (Hno l mj kj)).
  destruct (fifo_waits_or_steps F j tj Htj Hnfj) as [[F' HF]|(l' & m' & k' & Hp' & _ & Hblk)];
    [by eauto|]. rewrite Hpj in Hp'. injection Hp' as <- <- _.
  (* The lock is held, by a thread that wants a higher one. *)
  assert (Hna : ¬ available l mj (fifo_threads F)) by tauto. unfold available in Hna.
  apply not_Forall_Exists in Hna; [|apply _]. apply Exists_exists in Hna as (t' & Ht' & Hc%dec_stable).
  apply Exists_exists in Hc as (x & Hx & Hxl & _). apply list_elem_of_lookup in Ht' as [i' Ht'].
  specialize (Hty t' (list_elem_of_lookup_2 _ _ _ Ht')).
  assert (Hst' : ¬ stalled i').
  { intros Hs. destruct (Hharm i' t' Hs Ht') as [Hh _]. rewrite Hh in Hx. by apply not_elem_of_nil in Hx. }
  assert (Hnf' : ¬ finished t').
  { intros [r Hr]. rewrite Hr in Hty. simpl in Hty. rewrite Hty in Hx. by apply not_elem_of_nil in Hx. }
  destruct (fifo_waits_or_steps F i' t' Ht' Hnf') as [[F' HF]|(l2 & m2 & k2 & Hp2 & _)]; [by eauto|].
  rewrite Hp2 in Hty. destruct Hty as [Hr _]. rewrite Forall_forall in Hr. specialize (Hr x Hx).
  rewrite Hxl in Hr.
  assert (Hlt : (wanted t < wanted t')%nat) by (unfold wanted; by rewrite Hp, Hp2).
  eapply (IH (n - wanted t')%nat); [|reflexivity|done..].
  pose proof (Hn t' (list_elem_of_lookup_2 _ _ _ Ht')). lia.
Qed.
End progress.

(** ** Every schedule comes to rest *)

Section rest.
Context {St E L B : Type} `{!EqDecision L, !LockRank L, !Guards St L}.
Implicit Types (F : FifoPool St E L B) (t : Thread St E L B).

(** [silent i p]: thread [i] stops for good when it has got to [p]. *)
Context (silent : nat → Prog St E L B → bool).

(** A step of a thread that has not stopped. *)
Definition awake_step F F' : Prop :=
  ∃ i t, fifo_threads F !! i = Some t ∧ silent i (prog t) = false ∧ fifo_step_at i F = Some F'.

(** Every thread has finished, or has stopped without a lock. *)
Definition at_rest F : Prop :=
  ∀ i t, fifo_threads F !! i = Some t → finished t ∨ silent i (prog t) = true ∧ held t = [].

Lemma awake_step_fifo F F' : awake_step F F' → fifo_step F F'.
Proof. intros (i & t & _ & _ & Hs). by exists i. Qed.

Lemma all_or_one (P : nat → Thread St E L B → Prop) `{!∀ i t, Decision (P i t)}
    (ts : list (Thread St E L B)) :
  (∀ i t, ts !! i = Some t → P i t) ∨ ∃ i t, ts !! i = Some t ∧ ¬ P i t.
Proof.
  destruct (decide (Forall (λ it : nat * Thread St E L B, P it.1 it.2) (imap pair ts))) as [Hall|Hno].
  - left. intros i t Ht. rewrite Forall_lookup in Hall. apply (Hall i (i, t)).
    by rewrite list_lookup_imap, Ht.
  - right. apply not_Forall_Exists in Hno; [|apply _].
    apply Exists_exists in Hno as ([i t] & Hin & Hn).
    apply elem_of_lookup_imap in Hin as (j & t' & [= -> ->] & Ht). eauto.
Qed.

(** Threads that take their locks in order, and stop only without a lock, come to rest. *)
Lemma inevitable_rest (I : FifoPool St E L B → Prop) F :
  (∀ F, I F → pool_locked (fifo_pool F) ∧ line_ok F ∧
     harmless F (λ i, ∃ t, fifo_threads F !! i = Some t ∧ silent i (prog t) = true)) →
  (∀ F F', I F → fifo_step F F' → I F') →
  I F → inevitable awake_step at_rest F.
Proof.
  intros HI Hstep. apply (inevitable_wf awake_step at_rest I).
  - intros F0 _. induction (fifo_step_wf F0) as [F0 _ IH]. constructor. intros F' Hs.
    apply IH. by apply awake_step_fifo.
  - intros F1 F2 HF Hs. eapply Hstep; [done|by apply awake_step_fifo].
  - intros F0 HF. destruct (HI F0 HF) as (Hl & Hline & Hharm).
    destruct (all_or_one (λ i t, finished t ∨ silent i (prog t) = true) (fifo_threads F0))
      as [Hall|(i & t & Ht & Hn)].
    + left. intros i t Ht. destruct (Hall i t Ht) as [Hf|Hs]; [by left|right].
      split; [done|]. apply (Hharm i t); eauto.
    + right. apply Decidable.not_or in Hn as [Hf Hs].
      destruct (fifo_progress F0 _ i t Hl Hline Hharm Ht) as (j & F' & Hj & HF'); [|done|].
      { intros (t' & Ht' & Hs'). simplify_eq. }
      exists F'. pose proof (fifo_step_at_cases _ _ _ HF') as Hcases.
      assert (∃ tj, fifo_threads F0 !! j = Some tj) as [tj Htj] by naive_solver.
      exists j, tj. split; [done|]. split; [|done].
      destruct (silent j (prog tj)) eqn:Hsj; [|done]. destruct Hj. eauto.
Qed.
End rest.

(** With threads that never stop, every schedule ends with all of them finished. *)
Lemma inevitable_finished {St E L B : Type} `{!EqDecision L, !LockRank L, !Guards St L}
    (F : FifoPool St E L B) :
  pool_locked (fifo_pool F) → line_ok F →
  inevitable fifo_step (λ F, Forall finished (fifo_threads F)) F.
Proof.
  intros Hl Hline.
  assert (Hsteps : ∀ F1 F2 : FifoPool St E L B,
    pool_locked (fifo_pool F1) → fifo_step F1 F2 → pool_locked (fifo_pool F2)).
  { intros F1 F2 H1 [->|Hs]%fifo_step_pool; [done|]. by eapply pool_step_locked. }
  apply (inevitable_wf _ _ (λ F, pool_locked (fifo_pool F) ∧ line_ok F)); [| | |done].
  - intros F0 _. apply fifo_step_wf.
  - intros F1 F2 [H1 H2] Hs. split; [by eapply Hsteps|by eapply line_ok_step].
  - intros F0 [H1 H2]. destruct (decide (Forall finished (fifo_threads F0))) as [Hf|Hf]; [by left|right].
    apply not_Forall_Exists in Hf; [|apply _]. apply Exists_exists in Hf as (t & Ht & Hnf).
    apply list_elem_of_lookup in Ht as [i Ht].
    assert (Hharm : harmless F0 (λ _, False)) by (by intros i' t' []).
    destruct (fifo_progress F0 _ i t H1 H2 Hharm Ht) as (j & F' & _ & HF'); [tauto|done|].
    exists F'. by exists j.
Qed.

(** ** The line matters *)

(** A reader that takes the same lock a second time, while a writer waits for it. With the
    line of the lock neither of the two can go on; a pool without a line would let the
    reader through. *)
Definition reentrant : Prog unit string unit unit :=
  Acquire tt Shared (Acquire tt Shared (Release tt (Release tt (Ret (Ok tt))))).
Definition writer : Prog unit string unit unit :=
  Acquire tt Exclusive (Release tt (Ret (Ok tt))).
Theorem fifo_reentrant_deadlock w :
  let F := mkFifo (mkPool tt w [spawn reentrant; spawn writer]) [] in
  match fifo_schedule [0; 1; 0]%nat F with
  | Some F' => fifo_step_at 0 F' = None ∧ fifo_step_at 1 F' = None ∧
               is_Some (step_at 0 (fifo_pool F'))
  | None => False
  end.
Proof. vm_compute. eauto. Qed.
