(* ===== verification/Text.v ===== *)
(** Rust's [str] functions that zerolease uses, on byte strings, and UTF-8.

    A Rust [String] is its UTF-8 byte sequence, and [string] is a sequence of
    8-bit characters, so a [string] stands for the bytes of the Rust string. *)
From Stdlib Require Import Strings.Byte Strings.Ascii.
From Stdlib Require Strings.String.
From S2P Require Import Prelude.

Local Open Scope string_scope.
Local Open Scope Z_scope.
Local Open Scope list_scope.
Local Arguments String.append : simpl nomatch.

(** ** Bytes of a string *)

Definition as_bytes (s : string) : bytes := String.list_byte_of_string s.
Definition from_bytes (b : bytes) : string := String.string_of_list_byte b.

Lemma from_as_bytes s : from_bytes (as_bytes s) = s.
Proof. apply String.string_of_list_byte_of_string. Qed.

Lemma as_from_bytes b : as_bytes (from_bytes b) = b.
Proof. apply String.list_byte_of_string_of_list_byte. Qed.

#[export] Hint Rewrite from_as_bytes as_from_bytes : zerolease.

(** [s.len()] *)
Definition str_len (s : string) : Z := Z.of_nat (String.length s).

(** [s.is_empty()] *)
Definition is_empty (s : string) : bool :=
  match s with EmptyString => true | _ => false end.

(** [s == t] *)
Definition str_eqb (s t : string) : bool := bool_decide (s = t).

(** ** Prefixes and suffixes *)

(** [s.strip_prefix(p)] *)
Fixpoint strip_prefix (p s : string) : option string :=
  match p, s with
  | EmptyString, _ => Some s
  | String c p', String d s' => if decide (c = d) then strip_prefix p' s' else None
  | String _ _, EmptyString => None
  end.

(** [s.strip_suffix(suf)] *)
Fixpoint strip_suffix (suf s : string) : option string :=
  if decide (s = suf) then Some ""
  else match s with
       | EmptyString => None
       | String c s' => String c <$> strip_suffix suf s'
       end.

(** [s.starts_with(p)] *)
Definition starts_with (p s : string) : bool :=
  match strip_prefix p s with Some _ => true | None => false end.

(** [s.ends_with(suf)] *)
Definition ends_with (suf s : string) : bool :=
  match strip_suffix suf s with Some _ => true | None => false end.

(** [s.trim_start_matches(c)] and [s.trim_end_matches(c)] *)
Fixpoint trim_start_matches (c : ascii) (s : string) : string :=
  match s with
  | EmptyString => EmptyString
  | String c' s' => if Ascii.eqb c' c then trim_start_matches c s' else s
  end.
Fixpoint trim_end_matches (c : ascii) (s : string) : string :=
  match s with
  | EmptyString => EmptyString
  | String c' s' =>
    match trim_end_matches c s' with
    | EmptyString => if Ascii.eqb c' c then EmptyString else String c' EmptyString
    | t => String c' t
    end
  end.
(** [s.trim_matches(c)] for a character [c]. *)
Definition trim_matches (c : ascii) (s : string) : string :=
  trim_end_matches c (trim_start_matches c s).

(** [s.contains(pat)] *)
Fixpoint contains (pat s : string) : bool :=
  starts_with pat s ||
  match s with EmptyString => false | String _ s' => contains pat s' end.

Lemma app_nil_r_string (s : string) : s +:+ "" = s.
Proof. induction s as [|c s IH]; [done|]. simpl. by f_equal. Qed.

Lemma app_assoc_string (a b c : string) : a +:+ (b +:+ c) = (a +:+ b) +:+ c.
Proof. induction a as [|x a IH]; [done|]. simpl. by f_equal. Qed.

Lemma length_app_string (a b : string) :
  String.length (a +:+ b) = (String.length a + String.length b)%nat.
Proof. induction a as [|x a IH]; [done|]. simpl. by f_equal. Qed.

Lemma app_inj_length (a b c d : string) :
  String.length a = String.length c → a +:+ b = c +:+ d → a = c ∧ b = d.
Proof.
  revert c. induction a as [|x a IH]; intros [|y c] Hl Heq; simplify_eq/=; [done|].
  by destruct (IH c) as [-> ->].
Qed.

Lemma app_inj_tail_string (a b c : string) : a +:+ c = b +:+ c → a = b.
Proof.
  intros Heq. eapply proj1, app_inj_length; [|exact Heq].
  apply (f_equal String.length) in Heq. rewrite !length_app_string in Heq. lia.
Qed.

Lemma strip_prefix_Some p s r : strip_prefix p s = Some r ↔ s = p +:+ r.
Proof.
  revert s. induction p as [|c p IH]; intros s; simpl.
  - naive_solver.
  - destruct s as [|d s]; [naive_solver|].
    case_decide as Hc; [subst; rewrite IH; naive_solver|naive_solver].
Qed.

Lemma strip_suffix_Some suf s r : strip_suffix suf s = Some r ↔ s = r +:+ suf.
Proof.
  revert r. induction s as [|c s IH]; intros r; simpl; case_decide as Hs.
  - subst suf. destruct r; naive_solver.
  - split; [done|]. destruct r; simpl; naive_solver.
  - subst suf. split; [naive_solver|]. intros Heq. f_equal.
    apply (app_inj_tail_string "" r (String c s) Heq).
  - rewrite fmap_Some. setoid_rewrite IH. destruct r as [|d r]; naive_solver.
Qed.

Lemma starts_with_spec p s : starts_with p s = true ↔ ∃ r, s = p +:+ r.
Proof.
  unfold starts_with. setoid_rewrite <-strip_prefix_Some.
  destruct (strip_prefix p s); naive_solver.
Qed.

Lemma ends_with_spec suf s : ends_with suf s = true ↔ ∃ r, s = r +:+ suf.
Proof.
  unfold ends_with. setoid_rewrite <-strip_suffix_Some.
  destruct (strip_suffix suf s); naive_solver.
Qed.

(** ** UTF-8 *)

Definition is_cont (b : Byte.byte) : bool := (128 <=? byte_val b) && (byte_val b <? 192).

(** Decode the scalar value at the head of [b]; the tail has not been read. The
    cases are those of the Unicode table of well-formed byte sequences, which is
    what [String::from_utf8] accepts. *)
Definition utf8_head (b : bytes) : option (Z * bytes) :=
  match b with
  | [] => None
  | b0 :: t0 =>
    let v0 := byte_val b0 in
    if v0 <? 128 then Some (v0, t0) else
    match t0 with
    | [] => None
    | b1 :: t1 =>
      let v1 := byte_val b1 in
      if (194 <=? v0) && (v0 <=? 223) && is_cont b1
      then Some ((v0 - 192) * 64 + (v1 - 128), t1) else
      match t1 with
      | [] => None
      | b2 :: t2 =>
        let v2 := byte_val b2 in
        if is_cont b1 && is_cont b2 &&
           (((v0 =? 224) && (160 <=? v1)) || ((225 <=? v0) && (v0 <=? 236)) ||
            ((v0 =? 237) && (v1 <=? 159)) || ((238 <=? v0) && (v0 <=? 239)))
        then Some (((v0 - 224) * 64 + (v1 - 128)) * 64 + (v2 - 128), t2) else
        match t2 with
        | [] => None
        | b3 :: t3 =>
          let v3 := byte_val b3 in
          if is_cont b1 && is_cont b2 && is_cont b3 &&
             (((v0 =? 240) && (144 <=? v1)) || ((241 <=? v0) && (v0 <=? 243)) ||
              ((v0 =? 244) && (v1 <=? 143)))
          then Some ((((v0 - 240) * 64 + (v1 - 128)) * 64 + (v2 - 128)) * 64
                     + (v3 - 128), t3)
          else None
        end
      end
    end
  end.

(** The scalar values of [b]; every step reads at least one byte, so a fuel of
    [length b] reads all of them. *)
Fixpoint utf8_decode_fuel (fuel : nat) (b : bytes) : option (list Z) :=
  match b with
  | [] => Some []
  | _ =>
    match fuel with
    | O => None
    | S fuel' =>
      match utf8_head b with
      | Some (c, t) => cons c <$> utf8_decode_fuel fuel' t
      | None => None
      end
    end
  end.

Definition utf8_decode (b : bytes) : option (list Z) := utf8_decode_fuel (length b) b.

(** [String::from_utf8(b)] *)
Definition from_utf8 (b : bytes) : option string :=
  match utf8_decode b with Some _ => Some (from_bytes b) | None => None end.

(** [s.chars()]; a Rust string is always valid UTF-8. *)
Definition chars (s : string) : list Z := default [] (utf8_decode (as_bytes s)).

Lemma from_utf8_Some b s : from_utf8 b = Some s → as_bytes s = b.
Proof.
  unfold from_utf8. destruct (utf8_decode b); intros; simplify_eq.
  apply as_from_bytes.
Qed.

(** [char::is_whitespace], the Unicode property [White_Space]. *)
Definition is_whitespace (c : Z) : bool :=
  ((9 <=? c) && (c <=? 13)) || (c =? 32) || (c =? 133) || (c =? 160) ||
  (c =? 5760) || ((8192 <=? c) && (c <=? 8202)) || (c =? 8232) || (c =? 8233) ||
  (c =? 8239) || (c =? 8287) || (c =? 12288).

(** ** Formatting *)

(** [format!("{n}")] for an integer. *)
Definition fmt_Z (n : Z) : string := pretty n.

(** [format!("{b:02x}")] for a byte. *)
Definition hex_digit (n : Z) : ascii :=
  ascii_of_N (Z.to_N (if n <? 10 then 48 + n else 87 + n)).
Definition fmt_02x (b : Byte.byte) : string :=
  String (hex_digit (byte_val b / 16)) (String (hex_digit (byte_val b `mod` 16)) "").

(** [hex::encode] *)
Definition hex_encode (b : bytes) : string :=
  foldr (λ x acc, fmt_02x x +:+ acc) "" b.

(** ** Slicing and integer parsing *)

(** [s.is_char_boundary(i)] *)
Definition is_char_boundary (s : string) (i : nat) : bool :=
  if (i =? 0)%nat then true
  else match as_bytes s !! i with
       | Some b => negb (is_cont b)
       | None => (i =? String.length s)%nat
       end.

(** [&s[a..b]]; [None] is the panic of a range that is reversed, out of bounds or not
    on character boundaries. *)
Definition str_slice (s : string) (a b : nat) : option string :=
  if (a <=? b)%nat && is_char_boundary s a && is_char_boundary s b
  then Some (from_bytes (take (b - a) (drop a (as_bytes s))))
  else None.

(** [char::to_digit(radix)] on an ASCII byte, for a radix up to 16. *)
Definition to_digit (radix : Z) (c : ascii) : option Z :=
  let v := Z.of_N (N_of_ascii c) in
  let d := if (48 <=? v) && (v <=? 57) then v - 48
           else if (97 <=? v) && (v <=? 102) then v - 87
           else if (65 <=? v) && (v <=? 70) then v - 55
           else 99 in
  if d <? radix then Some d else None.

Fixpoint parse_digits (radix max acc : Z) (s : string) : option Z :=
  match s with
  | EmptyString => Some acc
  | String c s' =>
    match to_digit radix c with
    | Some d =>
      let acc' := acc * radix + d in
      if acc' <=? max then parse_digits radix max acc' s' else None
    | None => None
    end
  end.

(** [uN::from_str_radix(s, radix)] for an unsigned type with maximum [max]: an empty
    string and a lone sign are errors, one leading plus sign is skipped, every
    remaining byte must be a digit and the value must not overflow. *)
Definition from_str_radix (radix max : Z) (s : string) : option Z :=
  match s with
  | EmptyString => None
  | String c s' =>
    if Ascii.eqb c "+"%char
    then match s' with EmptyString => None | _ => parse_digits radix max 0 s' end
    else parse_digits radix max 0 s
  end.

Lemma to_digit_hex_digit n : 0 ≤ n < 16 → to_digit 16 (hex_digit n) = Some n.
Proof.
  intros Hn.
  assert (n ∈ seqZ 0 16) as Hin by (apply elem_of_seqZ; lia).
  change (seqZ 0 16) with [0;1;2;3;4;5;6;7;8;9;10;11;12;13;14;15] in Hin.
  repeat (apply elem_of_cons in Hin as [->|Hin]; [reflexivity|]). by apply elem_of_nil in Hin.
Qed.

Lemma byte_val_bound b : 0 ≤ byte_val b < 256.
Proof. unfold byte_val. pose proof (Byte.to_N_bounded b). lia. Qed.

Lemma byte_of_val b : byte_of (byte_val b) = b.
Proof.
  unfold byte_of. rewrite Z.mod_small by apply byte_val_bound.
  unfold byte_val. by rewrite N2Z.id, Byte.of_to_N.
Qed.

Lemma byte_val_of z : byte_val (byte_of z) = z `mod` 256.
Proof.
  unfold byte_of, byte_val. pose proof (Z.mod_pos_bound z 256).
  destruct (Byte.of_N (Z.to_N (z `mod` 256))) as [b|] eqn:Hb.
  - apply Byte.to_of_N in Hb. simpl. rewrite Hb. lia.
  - apply Byte.of_N_None_iff in Hb. lia.
Qed.

(** Two hexadecimal digits parse back to the byte they print. *)
Lemma from_str_radix_fmt_02x b : from_str_radix 16 255 (fmt_02x b) = Some (byte_val b).
Proof. by destruct b. Qed.

Lemma length_hex_encode b : String.length (hex_encode b) = (2 * length b)%nat.
Proof. induction b as [|x b IH]; [done|]. simpl in *. lia. Qed.

Lemma as_bytes_app s t : as_bytes (s +:+ t) = as_bytes s ++ as_bytes t.
Proof.
  induction s as [|c s IH]; [done|].
  change (byte_of_ascii c :: as_bytes (s +:+ t) =
          byte_of_ascii c :: (as_bytes s ++ as_bytes t)). by rewrite IH.
Qed.

Lemma length_as_bytes s : length (as_bytes s) = String.length s.
Proof.
  induction s as [|c s IH]; [done|].
  change (S (length (as_bytes s)) = S (String.length s)). by rewrite IH.
Qed.

(** No byte of a hexadecimal text is a continuation byte. *)
Lemma hex_encode_ascii b : Forall (λ x, is_cont x = false) (as_bytes (hex_encode b)).
Proof.
  induction b as [|x b IH]; [constructor|].
  change (hex_encode (x :: b)) with (fmt_02x x +:+ hex_encode b).
  rewrite as_bytes_app. apply Forall_app. split; [|done]. destruct x; repeat constructor.
Qed.

Lemma is_char_boundary_ascii s i :
  Forall (λ x, is_cont x = false) (as_bytes s) → (i ≤ String.length s)%nat →
  is_char_boundary s i = true.
Proof.
  intros Hall Hi. unfold is_char_boundary. destruct (i =? 0)%nat; [done|].
  destruct (as_bytes s !! i) as [b|] eqn:Hb.
  - rewrite Forall_lookup in Hall. by rewrite (Hall _ _ Hb).
  - apply lookup_ge_None_1 in Hb. rewrite length_as_bytes in Hb.
    apply Nat.eqb_eq. lia.
Qed.

(** The [i]-th pair of digits of a hexadecimal text. *)
Lemma hex_encode_slice b i x :
  b !! i = Some x →
  str_slice (hex_encode b) (i * 2) (i * 2 + 2) = Some (fmt_02x x).
Proof.
  intros Hx. pose proof (lookup_lt_Some _ _ _ Hx) as Hlt. unfold str_slice.
  rewrite !is_char_boundary_ascii
    by (apply hex_encode_ascii || (rewrite length_hex_encode; lia)).
  rewrite (proj2 (Nat.leb_le _ _)) by lia. simpl. f_equal.
  replace (i * 2 + 2 - i * 2)%nat with 2%nat by lia.
  revert i Hx Hlt. induction b as [|y b IH]; intros i Hx Hlt; [done|].
  change (hex_encode (y :: b)) with (fmt_02x y +:+ hex_encode b). rewrite as_bytes_app.
  destruct i as [|i]; simplify_eq/=.
  - by destruct x.
  - apply IH; [done|lia].
Qed.

(** ** Tokens and ASCII case *)

(** [u8::to_ascii_lowercase] and [str::to_ascii_lowercase] *)
Definition lower_byte (b : Byte.byte) : Byte.byte :=
  if (65 <=? byte_val b) && (byte_val b <=? 90) then byte_of (byte_val b + 32) else b.
Definition to_ascii_lowercase (s : string) : string := from_bytes (lower_byte <$> as_bytes s).

(** [s.eq_ignore_ascii_case(t)] *)
Definition eq_ignore_ascii_case (s t : string) : bool :=
  str_eqb (to_ascii_lowercase s) (to_ascii_lowercase t).

(** [s.rsplit_once(c)] for an ASCII character [c]: around its last occurrence. *)
Fixpoint rsplit_once (c : ascii) (s : string) : option (string * string) :=
  match s with
  | EmptyString => None
  | String d s' =>
    match rsplit_once c s' with
    | Some (a, b) => Some (String d a, b)
    | None => if Ascii.eqb d c then Some ("", s') else None
    end
  end.

(** [s.split_whitespace()]: the maximal runs of characters that are not white space.
    [cur] is the run being read; every step reads a character, so a fuel of the number of
    bytes reads them all. *)
Definition run_done (cur : bytes) : list bytes :=
  match cur with [] => [] | _ => [cur] end.
Fixpoint split_ws (fuel : nat) (cur b : bytes) : list bytes :=
  match fuel with
  | O => run_done cur
  | S fuel' =>
    match utf8_head b with
    | None => run_done cur
    | Some (c, t) =>
      if is_whitespace c then run_done cur ++ split_ws fuel' [] t
      else split_ws fuel' (cur ++ take (length b - length t) b) t
    end
  end.
Definition split_whitespace (s : string) : list string :=
  from_bytes <$> split_ws (String.length s) [] (as_bytes s).

(** [s.trim().is_empty()] *)
Definition is_blank (s : string) : bool := forallb is_whitespace (chars s).

(** A character of a token: ASCII, and not white space. *)
Definition token_byte (b : Byte.byte) : bool :=
  (byte_val b <? 128) && negb (is_whitespace (byte_val b)).

Lemma split_ws_token fuel cur tok rest :
  forallb token_byte tok = true → (length tok ≤ fuel)%nat →
  split_ws fuel cur (tok ++ rest) = split_ws (fuel - length tok) (cur ++ tok) rest.
Proof.
  revert fuel cur. induction tok as [|x tok IH]; intros fuel cur Htok Hf.
  { simpl. by rewrite app_nil_r, Nat.sub_0_r. }
  simpl in Htok, Hf. apply andb_prop in Htok as [Hx Htok].
  destruct fuel as [|fuel]; [lia|]. unfold token_byte in Hx.
  apply andb_prop in Hx as [H1 H2]. apply negb_true_iff in H2.
  simpl. rewrite H1, H2. replace (_ - _)%nat with 1%nat by lia.
  simpl. rewrite IH by (done || lia). by rewrite <-app_assoc.
Qed.

Lemma split_ws_space fuel cur x rest :
  byte_val x < 128 → is_whitespace (byte_val x) = true →
  split_ws (S fuel) cur (x :: rest) = run_done cur ++ split_ws fuel [] rest.
Proof.
  intros H1 H2. simpl. apply Z.ltb_lt in H1. by rewrite H1, H2.
Qed.

(** Two tokens and white space between and after them. *)
Lemma split_whitespace_two a b c :
  a ≠ "" → b ≠ "" → forallb token_byte (as_bytes a) = true →
  forallb token_byte (as_bytes b) = true →
  ∃ rest, split_whitespace (a +:+ String " " (b +:+ String " " c)) = a :: b :: rest.
Proof.
  intros Ha Hb Hta Htb. unfold split_whitespace.
  assert (∀ t fuel cur r, forallb token_byte (as_bytes t) = true → t ≠ "" →
    (String.length t < fuel)%nat → cur = [] →
    split_ws fuel cur (as_bytes (t +:+ String " " r)) =
    as_bytes t :: split_ws (fuel - String.length t - 1) [] (as_bytes r)) as Hstep.
  { intros t fuel cur r Ht Hne Hf ->. rewrite as_bytes_app.
    rewrite split_ws_token by (done || rewrite length_as_bytes; lia).
    rewrite length_as_bytes. destruct (fuel - String.length t)%nat as [|f] eqn:Ef; [lia|].
    change (as_bytes (String " " r)) with (Byte.x20 :: as_bytes r).
    rewrite split_ws_space by (vm_compute; reflexivity).
    replace (S f - 1)%nat with f by lia. simpl.
    destruct t as [|x t]; [done|]. done. }
  rewrite Hstep by (done || rewrite length_app_string; simpl; lia).
  rewrite length_app_string. simpl String.length. rewrite length_app_string.
  rewrite Hstep by (done || rewrite ?length_app_string; simpl; lia).
  eexists. rewrite !fmap_cons, !from_as_bytes. reflexivity.
Qed.

(** ASCII bytes are valid UTF-8. *)
Definition is_ascii (b : Byte.byte) : bool := byte_val b <? 128.

Lemma utf8_decode_ascii fuel b :
  forallb is_ascii b = true → (length b ≤ fuel)%nat →
  utf8_decode_fuel fuel b = Some (byte_val <$> b).
Proof.
  revert fuel. induction b as [|x b IH]; intros fuel Hb Hf; [by destruct fuel|].
  simpl in Hb, Hf. apply andb_prop in Hb as [Hx Hb]. destruct fuel as [|fuel]; [lia|].
  simpl. unfold is_ascii in Hx. rewrite Hx. by rewrite IH by (done || lia).
Qed.

Lemma from_utf8_ascii s : forallb is_ascii (as_bytes s) = true → from_utf8 (as_bytes s) = Some s.
Proof.
  intros Hs. unfold from_utf8, utf8_decode.
  rewrite (utf8_decode_ascii _ _ Hs) by done. by rewrite from_as_bytes.
Qed.

Lemma rsplit_once_app c a b :
  rsplit_once c b = None → rsplit_once c (a +:+ String c b) = Some (a, b).
Proof.
  intros Hb. induction a as [|x a IH]; simpl.
  - rewrite Hb. by rewrite Ascii.eqb_refl.
  - by rewrite IH.
Qed.

(** [s.split_once(c)] for an ASCII character [c]: around its first occurrence. *)
Fixpoint split_once (c : ascii) (s : string) : option (string * string) :=
  match s with
  | EmptyString => None
  | String d s' =>
    if Ascii.eqb d c then Some ("", s')
    else match split_once c s' with
         | Some (a, b) => Some (String d a, b)
         | None => None
         end
  end.

(** The characters of [b] with their bytes, up to the first malformed one. *)
Fixpoint utf8_chunks (fuel : nat) (b : bytes) : list (Z * bytes) :=
  match fuel with
  | O => []
  | S fuel' =>
    match utf8_head b with
    | None => []
    | Some (c, t) => (c, take (length b - length t) b) :: utf8_chunks fuel' t
    end
  end.

Fixpoint drop_while {A} (p : A → bool) (l : list A) : list A :=
  match l with
  | [] => []
  | x :: l' => if p x then drop_while p l' else l
  end.

(** [s.trim()] *)
Definition trim (s : string) : string :=
  let ws := λ x : Z * bytes, is_whitespace x.1 in
  let chunks := drop_while ws (utf8_chunks (String.length s) (as_bytes s)) in
  from_bytes (mjoin (rev (drop_while ws (rev chunks))).*2).

(** [s.replace(pat, rep)] for a non-empty [pat]: the occurrences from the left that do not
    overlap; [skip] counts the bytes of an occurrence still to be passed over. *)
Fixpoint replace_go (pat rep : string) (skip : nat) (s : string) : string :=
  match s with
  | EmptyString => EmptyString
  | String c s' =>
    match skip with
    | S k => replace_go pat rep k s'
    | O =>
      if starts_with pat s then rep +:+ replace_go pat rep (String.length pat - 1) s'
      else String c (replace_go pat rep O s')
    end
  end.
Definition str_replace (pat rep s : string) : string := replace_go pat rep 0 s.

(** A line of token characters, without its newline. *)
Definition newline : string := from_bytes [Byte.x0a].

Lemma utf8_chunks_ascii fuel b :
  forallb is_ascii b = true → (length b ≤ fuel)%nat →
  utf8_chunks fuel b = (λ x, (byte_val x, [x])) <$> b.
Proof.
  revert fuel. induction b as [|x b IH]; intros fuel Hb Hf; [by destruct fuel|].
  simpl in Hb, Hf. apply andb_prop in Hb as [Hx Hb]. destruct fuel as [|fuel]; [lia|].
  simpl. unfold is_ascii in Hx. rewrite Hx, IH by (done || lia).
  by replace (S (length b) - length b)%nat with 1%nat by lia.
Qed.

Lemma token_ascii b : forallb token_byte b = true → forallb is_ascii b = true.
Proof.
  rewrite !forallb_forall. intros H x Hx. apply H in Hx. unfold token_byte in Hx.
  by apply andb_prop in Hx as [? _].
Qed.
Lemma token_not_newline b : forallb token_byte b = true → Byte.x0a ∉ b.
Proof. rewrite forallb_forall. intros H Hin%list_elem_of_In%H. done. Qed.

Section line.
Context (s : string).
Hypothesis (Hs : forallb token_byte (as_bytes s) = true) (Hne : s ≠ "").

Lemma line_ascii : forallb is_ascii (as_bytes (s +:+ newline)) = true.
Proof. rewrite as_bytes_app, forallb_app. by rewrite (token_ascii _ Hs). Qed.

Lemma line_not_blank : is_blank (s +:+ newline) = false.
Proof.
  unfold is_blank, chars, utf8_decode. rewrite utf8_decode_ascii by (done || apply line_ascii).
  destruct s as [|c t]; [done|]. simpl in Hs |- *. apply andb_prop in Hs as [Hc _].
  unfold token_byte in Hc. apply andb_prop in Hc as [_ Hc%negb_true_iff]. by rewrite Hc.
Qed.

Lemma token_head (b : bytes) :
  forallb token_byte b = true → b ≠ [] →
  drop_while (λ x : Z * bytes, is_whitespace x.1) ((λ x, (byte_val x, [x])) <$> b) =
  (λ x, (byte_val x, [x])) <$> b.
Proof.
  destruct b as [|x b]; [done|]. simpl. intros [Hx _]%andb_prop _. unfold token_byte in Hx.
  apply andb_prop in Hx as [_ Hx%negb_true_iff]. by rewrite Hx.
Qed.

Lemma trim_line : trim (s +:+ newline) = s.
Proof.
  set (f := λ x : Byte.byte, (byte_val x, [x])).
  assert (Hb : as_bytes s ≠ []) by (destruct s; done).
  unfold trim. rewrite utf8_chunks_ascii by (rewrite ?length_as_bytes; done || apply line_ascii).
  fold f. rewrite as_bytes_app, fmap_app. change (f <$> as_bytes newline) with [f Byte.x0a].
  assert (drop_while (λ x : Z * bytes, is_whitespace x.1) ((f <$> as_bytes s) ++ [f Byte.x0a]) =
    (f <$> as_bytes s) ++ [f Byte.x0a]) as ->.
  { destruct (as_bytes s) as [|x b]; [done|]. simpl in Hs |- *. apply andb_prop in Hs as [Hx _].
    unfold token_byte in Hx. apply andb_prop in Hx as [_ Hx%negb_true_iff]. by rewrite Hx. }
  rewrite rev_unit. simpl. rewrite <-map_rev. change (List.map f) with (fmap (M := list) f).
  rewrite token_head.
  - change (f <$> rev ?l) with (map f (rev l)). rewrite <-map_rev, rev_involutive.
    assert (Hj : ∀ b : bytes, mjoin (map f b).*2 = b).
    { induction b as [|x b IH]; [done|]. simpl. f_equal. exact IH. }
    rewrite Hj. apply from_as_bytes.
  - rewrite forallb_forall in *. intros x Hx%in_rev. auto.
  - intros Hr. apply (f_equal (@rev _)) in Hr. by rewrite rev_involutive in Hr.
Qed.
End line.

Lemma split_once_app c a b :
  contains (String c "") a = false → split_once c (a +:+ String c b) = Some (a, b).
Proof.
  induction a as [|x a IH]; simpl; [by rewrite Ascii.eqb_refl|].
  unfold starts_with. simpl. case_decide as Hx; [done|]. intros Ha.
  rewrite IH by done. destruct (Ascii.eqb_spec x c); [congruence|done].
Qed.
