(* ===== verification/Concrete.v ===== *)
(** Concrete instances of the environment and of the third-party interfaces.

    The theorems quantify over the clock, the identifiers, the random draws and the
    [chrono], [uuid] and [HashMap] interfaces of [Prelude]. The instances below show
    that the documented behaviour those classes demand can hold, and are what the
    witnesses evaluate on. *)
From Stdlib Require Import Strings.Ascii.
From S2P Require Import Prelude Text.

Local Open Scope string_scope.
Local Open Scope Z_scope.

(** ** A numeral syntax with an inverse *)

Fixpoint pos_to_text (p : positive) : string :=
  match p with
  | xH => ""
  | xO p' => String "0"%char (pos_to_text p')
  | xI p' => String "1"%char (pos_to_text p')
  end.
Fixpoint text_to_pos (s : string) : option positive :=
  match s with
  | EmptyString => Some xH
  | String "0"%char s' => xO <$> text_to_pos s'
  | String "1"%char s' => xI <$> text_to_pos s'
  | String _ _ => None
  end.

Lemma text_to_pos_to_text p : text_to_pos (pos_to_text p) = Some p.
Proof. induction p as [p IH|p IH|]; simpl; rewrite ?IH; done. Qed.

Definition Z_to_text (z : Z) : string :=
  match z with
  | Z0 => "0"
  | Zpos p => String "+"%char (pos_to_text p)
  | Zneg p => String "-"%char (pos_to_text p)
  end.
Definition text_to_Z (s : string) : option Z :=
  match s with
  | String "+"%char s' => Zpos <$> text_to_pos s'
  | String "-"%char s' => Zneg <$> text_to_pos s'
  | String "0"%char EmptyString => Some 0
  | _ => None
  end.

Lemma text_to_Z_to_text z : text_to_Z (Z_to_text z) = Some z.
Proof. destruct z; simpl; rewrite ?text_to_pos_to_text; done. Qed.

(** ** Instances *)

(** A clock that advances one second per reading, consecutive identifiers,
    constant-filled random buffers and no database failure. *)
Definition demo_Env : Env := {|
  clock := λ i, Z.of_nat i * NANOS;
  now_v7 := N.of_nat;
  os_rng := λ k n, replicate n (byte_of (Z.of_nat k));
  io_fault := λ _, None
|}.

Definition demo_EnvLaws : @EnvLaws demo_Env.
Proof.
  constructor.
  - apply Nat2N.inj.
  - intros. apply length_replicate.
Qed.

Definition demo_MonotoneClock : @MonotoneClock demo_Env.
Proof. intros i j Hij. unfold clock. simpl. unfold NANOS. lia. Qed.

(** Time instants within [i64] nanoseconds. *)
Definition demo_Chrono : Chrono := {|
  dt_add := λ t d,
    if decide (-(2^63) ≤ t + d < 2^63) then Some (t + d) else None;
  td_num_seconds := λ d, Z.quot d NANOS;
  td_seconds := λ n, if decide (-(2^53) ≤ n ≤ 2^53) then Some (n * NANOS) else None;
  td_minutes := λ n, n * 60 * NANOS;
  td_hours := λ n, n * 3600 * NANOS;
  to_rfc3339 := Z_to_text;
  parse_from_rfc3339 := λ s,
    match text_to_Z s with Some t => Ok t | None => Err "invalid date" end
|}.

Definition demo_ChronoLaws : @ChronoLaws demo_Chrono.
Proof.
  constructor.
  - intros t d r. unfold dt_add. simpl. case_decide; naive_solver.
  - done.
  - intros n Hn. unfold td_seconds. simpl. rewrite decide_True by lia. done.
  - intros t. unfold parse_from_rfc3339, to_rfc3339. simpl. by rewrite text_to_Z_to_text.
  - intros s. unfold parse_from_rfc3339. simpl. by destruct (text_to_Z s).
Qed.

Definition demo_UuidText : UuidText := {|
  uuid_to_string := λ u, Z_to_text (Z.of_N u);
  uuid_parse_str := λ s,
    match text_to_Z s with
    | Some z => if decide (0 ≤ z) then Ok (Z.to_N z) else Err "invalid UUID"
    | None => Err "invalid UUID"
    end
|}.

Definition demo_UuidTextLaws : @UuidTextLaws demo_UuidText.
Proof.
  constructor.
  - intros u. unfold uuid_parse_str, uuid_to_string. simpl.
    rewrite text_to_Z_to_text, decide_True by lia. by rewrite N2Z.id.
  - intros s. unfold uuid_parse_str. simpl. by repeat case_match.
Qed.

Definition demo_HashIter : HashIter := {|
  hash_iter := λ K V _ _ m, map_to_list m;
  hash_iter_perm := λ K V _ _ m, reflexivity (map_to_list m)
|}.

(** Association lists, as cheap stand-ins for external key-value stores. *)
Fixpoint alookup {K V} `{EqDecision K} (k : K) (l : list (K * V)) : option V :=
  match l with
  | [] => None
  | (k', v) :: l' => if decide (k' = k) then Some v else alookup k l'
  end.

Lemma alookup_list_to_map {K V} `{Countable K} (k : K) (l : list (K * V)) :
  (list_to_map l : gmap K V) !! k = alookup k l.
Proof.
  induction l as [|[k' v] l IH]; [done|]. simpl. case_decide as Hk.
  - subst. by rewrite lookup_insert_eq.
  - by rewrite lookup_insert_ne.
Qed.

Definition demo_world : World := mkWorld 0 0 0 0.

(** A serialization that knows one value. *)
Definition single_Serde {A} `{EqDecision A} (x : A) (text : string) : Serde A := {|
  to_json := λ y, if decide (y = x) then Ok text else Err "unsupported";
  from_json := λ s, if decide (s = text) then Ok x else Err "unsupported"
|}.
Lemma single_SerdeLaws {A} `{EqDecision A} (x : A) (text : string) :
  @SerdeLaws A (single_Serde x text).
Proof.
  constructor; unfold to_json, from_json; cbn [single_Serde].
  - intros y. by case_decide.
  - intros s. by case_decide.
  - intros y s. case_decide; [|done]. intros [= <-]. by rewrite decide_True by done; subst.
Qed.

(** A serialization of a countable type: the digits of its code. *)
Definition coded_Serde {A} `{Countable A} : Serde A := {|
  to_json := λ x, Ok (pos_to_text (encode x));
  from_json := λ s,
    match text_to_pos s ≫= decode with Some x => Ok x | None => Err "not a code" end
|}.
Lemma coded_SerdeLaws {A} `{Countable A} : @SerdeLaws A coded_Serde.
Proof.
  constructor; unfold to_json, from_json; cbn [coded_Serde].
  - done.
  - intros s. by destruct (_ ≫= _).
  - intros x s [= <-]. by rewrite text_to_pos_to_text; simpl; rewrite decode_encode.
Qed.
