(* ===== verification/Types.v ===== *)
(** The shared types of [crates/zerolease-types] and the error type of
    [src/error.rs], with the matching of domain scopes.

    Newtypes stay distinct types; a wrapper's constructor is its [new] or
    [from_uuid] and its projection is its [as_str] or [as_uuid]. *)
From S2P Require Import Prelude Text.

Local Open Scope string_scope.
Local Open Scope Z_scope.
Local Arguments String.append : simpl nomatch.

(** ** Identifiers (identity.rs, session.rs) *)

Record SecretId := SecretId_from_uuid { SecretId_as_uuid : Uuid }.
Record AgentId := AgentId_new { AgentId_as_str : string }.
Record LeaseId := LeaseId_from_uuid { LeaseId_as_uuid : Uuid }.
Record SecretName := SecretName_new { SecretName_as_str : string }.
Record DomainScope := DomainScope_new { DomainScope_as_str : string }.
Record SessionId := SessionId_from_uuid { SessionId_as_uuid : Uuid }.
Record SessionToken := SessionToken_from_bytes { SessionToken_bytes : bytes }.

#[global] Instance SecretId_eq_dec : EqDecision SecretId.
Proof. solve_decision. Defined.
#[global] Instance AgentId_eq_dec : EqDecision AgentId.
Proof. solve_decision. Defined.
#[global] Instance LeaseId_eq_dec : EqDecision LeaseId.
Proof. solve_decision. Defined.
#[global] Instance SecretName_eq_dec : EqDecision SecretName.
Proof. solve_decision. Defined.
#[global] Instance DomainScope_eq_dec : EqDecision DomainScope.
Proof. solve_decision. Defined.
#[global] Instance SessionId_eq_dec : EqDecision SessionId.
Proof. solve_decision. Defined.
#[global] Instance SessionToken_eq_dec : EqDecision SessionToken.
Proof. solve_decision. Defined.

#[global] Program Instance LeaseId_countable : Countable LeaseId :=
  inj_countable' LeaseId_as_uuid LeaseId_from_uuid _.
Next Obligation. by intros []. Qed.
#[global] Program Instance SecretName_countable : Countable SecretName :=
  inj_countable' SecretName_as_str SecretName_new _.
Next Obligation. by intros []. Qed.
#[global] Program Instance SessionToken_countable : Countable SessionToken :=
  inj_countable' SessionToken_bytes SessionToken_from_bytes _.
Next Obligation. by intros []. Qed.

Section identity.
Context {St E : Type} `{!Env, !UuidText}.

(** [SecretId::new], [LeaseId::new], [SessionId::new] *)
Definition SecretId_new : M St E SecretId :=
  u ← uuid_now_v7; mret (SecretId_from_uuid u).
Definition LeaseId_new : M St E LeaseId :=
  u ← uuid_now_v7; mret (LeaseId_from_uuid u).
Definition SessionId_new : M St E SessionId :=
  u ← uuid_now_v7; mret (SessionId_from_uuid u).

(** [Display] *)
Definition SecretId_display (i : SecretId) : string :=
  "secret:" +:+ uuid_to_string (SecretId_as_uuid i).
Definition AgentId_display (a : AgentId) : string := "agent:" +:+ AgentId_as_str a.
Definition LeaseId_display (i : LeaseId) : string :=
  "lease:" +:+ uuid_to_string (LeaseId_as_uuid i).
Definition SecretName_display (n : SecretName) : string := SecretName_as_str n.
Definition DomainScope_display (d : DomainScope) : string := DomainScope_as_str d.
Definition SessionId_display (i : SessionId) : string :=
  "session:" +:+ uuid_to_string (SessionId_as_uuid i).
End identity.

(** [Debug] and [Display] of a session token are redacted. *)
Definition SessionToken_display (_ : SessionToken) : string := "SessionToken(***)".

(** [DomainScope::matches] *)
Definition DomainScope_matches (self : DomainScope) (host : string) : bool :=
  let pattern := DomainScope_as_str self in
  if str_eqb pattern host then true else
  match strip_prefix "*." pattern with
  | Some suffix =>
    match strip_suffix suffix host with
    | Some rest => ends_with "." rest && (1 <? str_len rest)
    | None => false
    end
  | None => false
  end.

(** ** Leases (lease.rs) *)

Record LeaseTerms := mkLeaseTerms {
  terms_ttl : TimeDelta;
  terms_renewable : bool;
  terms_max_uses : option Z
}.

Section terms.
Context `{!Chrono}.
Definition LeaseTerms_default_short : LeaseTerms := mkLeaseTerms (td_minutes 15) false None.
Definition LeaseTerms_workflow : LeaseTerms := mkLeaseTerms (td_hours 1) true None.
Definition LeaseTerms_single_use : LeaseTerms := mkLeaseTerms (td_minutes 5) false (Some 1).
End terms.

Record LeaseGrant := mkLeaseGrant {
  grant_lease_id : LeaseId;
  grant_secret_name : SecretName;
  grant_allowed_domains : list DomainScope;
  grant_expires_at : DateTime;
  grant_renewable : bool;
  grant_remaining_uses : option Z
}.

(** ** Stored secrets (store.rs) *)

Inductive CipherAlgorithm := Aes256Gcm | XChaCha20Poly1305.

Definition CipherAlgorithm_as_str (a : CipherAlgorithm) : string :=
  match a with
  | Aes256Gcm => "aes256gcm"
  | XChaCha20Poly1305 => "xchacha20poly1305"
  end.

Inductive SecretKind :=
  | Pat
  | OAuth2 (refresh_ciphertext refresh_nonce : option bytes)
  | ApiKey
  | BasicAuth
  | SshKey
  | ClientCert
  | Opaque.

Definition SecretKind_as_str (k : SecretKind) : string :=
  match k with
  | Pat => "pat"
  | OAuth2 _ _ => "oauth2"
  | ApiKey => "apikey"
  | BasicAuth => "basicauth"
  | SshKey => "sshkey"
  | ClientCert => "clientcert"
  | Opaque => "opaque"
  end.

#[global] Instance CipherAlgorithm_eq_dec : EqDecision CipherAlgorithm.
Proof. solve_decision. Defined.
#[global] Instance SecretKind_eq_dec : EqDecision SecretKind.
Proof. solve_decision. Defined.

Record SecretMetadata := mkSecretMetadata {
  meta_id : SecretId;
  meta_name : SecretName;
  meta_kind : SecretKind;
  meta_description : option string;
  meta_created_at : DateTime;
  meta_updated_at : DateTime;
  meta_version : Z
}.

(** ** Revocation (audit.rs) *)

Inductive RevocationReason :=
  | Expired | AdminRevoked | SecretDeleted | UseLimitReached | VaultShutdown
  | SessionRevokedReason.

(** ** Errors (src/error.rs) *)

Inductive Error :=
  | LeaseExpired (l : LeaseId)
  | LeaseRevoked (l : LeaseId)
  | LeaseNotFound (l : LeaseId)
  | AccessDenied (agent : AgentId) (secret : SecretName) (domain : DomainScope)
  | NoPolicyForAgent (a : AgentId)
  | SessionNotFound
  | SessionExpired (s : SessionId)
  | SessionRevoked (s : SessionId)
  | SessionLeaseLimitReached (s : SessionId) (max : Z)
  | RenewalLimitReached (l : LeaseId) (max : Z)
  | SecretNotFound (n : SecretName)
  | SecretAlreadyExists (n : SecretName)
  | EncryptionFailed
  | DecryptionFailed
  | KeySourceUnavailable (msg : string)
  | Storage (msg : string)
  | Transport (msg : string)
  | InvalidConfig (msg : string)
  | NotSupported (msg : string)
  | Remote (code message : string).

#[global] Instance Error_eq_dec : EqDecision Error.
Proof. solve_decision. Defined.

(** [Error]'s [Display], derived by [thiserror] from the attributes. *)
Definition Error_to_string `{!UuidText} (e : Error) : string :=
  match e with
  | LeaseExpired l => "lease " +:+ LeaseId_display l +:+ " has expired"
  | LeaseRevoked l => "lease " +:+ LeaseId_display l +:+ " has been revoked"
  | LeaseNotFound l => "lease " +:+ LeaseId_display l +:+ " not found"
  | AccessDenied agent secret domain =>
      "agent " +:+ AgentId_display agent +:+ " is not authorized to access secret "
      +:+ SecretName_display secret +:+ " for domain " +:+ DomainScope_display domain
  | NoPolicyForAgent a => "no policy found for agent " +:+ AgentId_display a
  | SessionNotFound => "session not found"
  | SessionExpired s => "session " +:+ SessionId_display s +:+ " has expired"
  | SessionRevoked s => "session " +:+ SessionId_display s +:+ " has been revoked"
  | SessionLeaseLimitReached s m =>
      "session " +:+ SessionId_display s +:+ " has reached the maximum of "
      +:+ fmt_Z m +:+ " concurrent leases"
  | RenewalLimitReached l m =>
      "lease " +:+ LeaseId_display l +:+ " has reached the maximum of "
      +:+ fmt_Z m +:+ " renewals for this session"
  | SecretNotFound n => "secret " +:+ SecretName_display n +:+ " not found"
  | SecretAlreadyExists n => "secret " +:+ SecretName_display n +:+ " already exists"
  | EncryptionFailed => "encryption failed"
  | DecryptionFailed => "decryption failed"
  | KeySourceUnavailable m => "key source unavailable: " +:+ m
  | Storage m => "storage error: " +:+ m
  | Transport m => "transport error: " +:+ m
  | InvalidConfig m => "invalid configuration: " +:+ m
  | NotSupported m => "operation not supported: " +:+ m
  | Remote c m => "remote error (" +:+ c +:+ "): " +:+ m
  end.

(** ** Domain scopes *)

(** The shape of [rest]: a non-empty subdomain and its dot. *)
Lemma rest_ends_with_dot rest :
  ends_with "." rest && (1 <? str_len rest) = true ↔
  ∃ sub, sub ≠ "" ∧ rest = sub +:+ ".".
Proof.
  rewrite andb_true_iff, ends_with_spec, Z.ltb_lt. unfold str_len. split.
  - intros [[r ->] Hlen]. exists r. split; [|done].
    intros ->. simpl in Hlen. lia.
  - intros (sub & Hne & ->). split; [by eexists|].
    rewrite length_app_string. destruct sub; simpl in *; [done|lia].
Qed.

(** Exact matches and wildcard matches. *)
Lemma DomainScope_matches_true (d : DomainScope) (host : string) :
  DomainScope_matches d host = true ↔
  DomainScope_as_str d = host ∨
  ∃ suffix sub, DomainScope_as_str d = "*." +:+ suffix ∧ sub ≠ "" ∧
                host = sub +:+ "." +:+ suffix.
Proof.
  unfold DomainScope_matches, str_eqb. destruct d as [p]; cbn [DomainScope_as_str].
  case_bool_decide as Heq; [naive_solver|].
  destruct (strip_prefix "*." p) as [suffix|] eqn:Hp.
  - apply strip_prefix_Some in Hp as ->.
    destruct (strip_suffix suffix host) as [rest|] eqn:Hs.
    + apply strip_suffix_Some in Hs as ->. rewrite rest_ends_with_dot. split.
      * intros (sub & Hne & ->). right. exists suffix, sub.
        by rewrite <-app_assoc_string.
      * intros [?|(suf' & sub & Hsuf & Hne & Hh)]; [done|].
        apply app_inj_length in Hsuf as [_ <-]; [|done].
        exists sub. split; [done|]. rewrite app_assoc_string in Hh.
        by apply app_inj_tail_string in Hh.
    + split; [done|]. intros [?|(suf' & sub & Hsuf & Hne & Hh)]; [done|].
      apply app_inj_length in Hsuf as [_ <-]; [|done].
      rewrite app_assoc_string in Hh. apply strip_suffix_Some in Hh. congruence.
  - split; [done|]. intros [?|(suf' & sub & Hsuf & _)]; [done|].
    apply strip_prefix_Some in Hsuf. congruence.
Qed.

(** C33. A scope matches a host exactly when they are the same string, or when the
    scope is [*.suffix] and the host is [sub.suffix] for a non-empty [sub]; in
    particular the bare domain and an empty subdomain never match a wildcard. *)
Theorem domain_scope_matches_spec (d : DomainScope) (host : string) :
  (DomainScope_matches d host = true ↔
   DomainScope_as_str d = host ∨
   ∃ suffix sub, DomainScope_as_str d = "*." +:+ suffix ∧ sub ≠ "" ∧
                 host = sub +:+ "." +:+ suffix) ∧
  (∀ suffix,
     DomainScope_matches (DomainScope_new ("*." +:+ suffix)) suffix = false ∧
     DomainScope_matches (DomainScope_new ("*." +:+ suffix)) ("." +:+ suffix) = false).
Proof.
  split; [apply DomainScope_matches_true|]. intros suffix.
  assert (Hlen : ∀ a b : string, a +:+ suffix = b +:+ suffix → a = b)
    by (intros a b; apply app_inj_tail_string).
  split; apply not_true_is_false; rewrite DomainScope_matches_true;
    intros [Heq|(suf & sub & Hsuf & Hne & Heq)]; cbn [DomainScope_as_str] in *.
  - apply (Hlen "*." "") in Heq. done.
  - apply app_inj_length in Hsuf as [_ <-]; [|done].
    rewrite app_assoc_string in Heq. apply (Hlen "" (sub +:+ ".")) in Heq.
    by destruct sub.
  - apply (Hlen "*." ".") in Heq. done.
  - apply app_inj_length in Hsuf as [_ <-]; [|done].
    rewrite app_assoc_string in Heq. apply (Hlen "." (sub +:+ ".")) in Heq.
    destruct sub as [|c [|? ?]]; simplify_eq/=.
Qed.

(** Matching is transitive along scopes used as strings. *)
Lemma DomainScope_matches_trans (outer inner : DomainScope) (host : string) :
  DomainScope_matches outer (DomainScope_as_str inner) = true →
  DomainScope_matches inner host = true →
  DomainScope_matches outer host = true.
Proof.
  rewrite !DomainScope_matches_true.
  intros [Ho|(suf & sub & Ho & Hne & Hi)] Hin; [by rewrite Ho|].
  right. destruct Hin as [<-|(suf' & sub' & Hi' & Hne' & ->)]; [eauto|].
  exists suf. rewrite Hi in Hi'.
  destruct sub as [|c1 [|c2 sub]]; [done| |].
  - (* [sub] is one character: the inner scope is exactly the outer wildcard *)
    simplify_eq/=. exists sub'. auto.
  - (* the inner scope is a wildcard below the outer one *)
    simplify_eq/=. exists (sub' +:+ "." +:+ sub).
    split; [done|]. split; [by destruct sub'|].
    by rewrite <-app_assoc_string.
Qed.

(** A lease never reaches further than the grant it came from: if a scope
    matches the string of another scope, it matches every host that the other
    scope matches. The policy engine compares a requested scope as a string, so
    this is what makes issuing a lease for the requested scope sound. *)
Theorem domain_scope_attenuation (outer inner : DomainScope) (host : string) :
  DomainScope_matches outer (DomainScope_as_str inner) = true →
  DomainScope_matches inner host = true →
  DomainScope_matches outer host = true.
Proof. apply DomainScope_matches_trans. Qed.

Lemma domain_scope_attenuation_witness :
  DomainScope_matches (DomainScope_new "*.atlassian.net") "x.myco.atlassian.net" = true.
Proof.
  apply (domain_scope_attenuation (DomainScope_new "*.atlassian.net")
           (DomainScope_new "*.myco.atlassian.net")); vm_compute; reflexivity.
Defined.

(** The scope [*.] matches every host that ends in a dot and has at least one
    character before it (the fully qualified form of any domain), and nothing else
    but itself. *)
Theorem dot_wildcard_matches_fqdn (host : string) :
  DomainScope_matches (DomainScope_new "*.") host = true ↔
  ∃ sub, sub ≠ "" ∧ host = sub +:+ ".".
Proof.
  rewrite DomainScope_matches_true. cbn [DomainScope_as_str]. split.
  - intros [<-|(suf & sub & Hs & Hne & ->)]; [by exists "*"|].
    destruct suf; simplify_eq/=. exists sub. auto.
  - intros (sub & Hne & ->). right. exists "", sub. auto.
Qed.
