(* ===== verification/Lease.v ===== *)
(** Leases: [src/lease.rs]. *)
From S2P Require Import Prelude Text Concrete Types.

Local Open Scope string_scope.
Local Open Scope Z_scope.

(** ** State *)

Record Lease := mkLease {
  lease_id : LeaseId;
  lease_agent : AgentId;
  lease_secret_name : SecretName;
  lease_allowed_domains : list DomainScope;
  lease_issued_at : DateTime;
  lease_expires_at : DateTime;
  lease_renewable : bool;
  lease_max_uses : option Z;
  lease_use_count : Z;
  lease_revoked : bool;
  lease_session_id : option SessionId;
  lease_renewal_count : Z
}.

Definition set_use_count (n : Z) (l : Lease) : Lease :=
  mkLease (lease_id l) (lease_agent l) (lease_secret_name l) (lease_allowed_domains l)
    (lease_issued_at l) (lease_expires_at l) (lease_renewable l) (lease_max_uses l)
    n (lease_revoked l) (lease_session_id l) (lease_renewal_count l).
Definition set_revoked (b : bool) (l : Lease) : Lease :=
  mkLease (lease_id l) (lease_agent l) (lease_secret_name l) (lease_allowed_domains l)
    (lease_issued_at l) (lease_expires_at l) (lease_renewable l) (lease_max_uses l)
    (lease_use_count l) b (lease_session_id l) (lease_renewal_count l).
Definition set_lease_session (o : option SessionId) (l : Lease) : Lease :=
  mkLease (lease_id l) (lease_agent l) (lease_secret_name l) (lease_allowed_domains l)
    (lease_issued_at l) (lease_expires_at l) (lease_renewable l) (lease_max_uses l)
    (lease_use_count l) (lease_revoked l) o (lease_renewal_count l).
Definition set_renewal (t : DateTime) (n : Z) (l : Lease) : Lease :=
  mkLease (lease_id l) (lease_agent l) (lease_secret_name l) (lease_allowed_domains l)
    (lease_issued_at l) t (lease_renewable l) (lease_max_uses l)
    (lease_use_count l) (lease_revoked l) (lease_session_id l) n.

(** [max_uses] is exhausted: [if let Some(max) = .. && use_count >= max]. *)
Definition uses_exhausted (l : Lease) : bool :=
  match lease_max_uses l with
  | Some max => max <=? lease_use_count l
  | None => false
  end.

(** ** Operations *)

Section operations.
Context {St : Type} `{!Env, !Chrono, !UuidText}.

Definition Lease_new (agent : AgentId) (secret_name : SecretName)
    (allowed_domains : list DomainScope) (terms : LeaseTerms) : M St Error Lease :=
  now ← utc_now;
  id ← LeaseId_new;
  expires_at ← expect (dt_add now (terms_ttl terms));
  mret (mkLease id agent secret_name allowed_domains now expires_at
          (terms_renewable terms) (terms_max_uses terms) 0 false None 0).

Definition Lease_validate (self : Lease) (target_domain : string) : M St Error unit :=
  if lease_revoked self then throw (LeaseRevoked (lease_id self)) else
  now ← utc_now;
  if lease_expires_at self <? now then throw (LeaseExpired (lease_id self)) else
  if uses_exhausted self then throw (LeaseExpired (lease_id self)) else
  if negb (existsb (λ d, DomainScope_matches d target_domain)
             (lease_allowed_domains self))
  then throw (AccessDenied (lease_agent self) (lease_secret_name self)
                (DomainScope_new target_domain))
  else mret tt.

Definition Lease_record_use (self : Lease) : outcome Error Lease :=
  if uses_exhausted self then Err (LeaseExpired (lease_id self))
  else Ok (set_use_count (u32_add (lease_use_count self) 1) self).

Definition Lease_renew (self : Lease) (extension : TimeDelta) : M St Error Lease :=
  if lease_revoked self then throw (LeaseRevoked (lease_id self)) else
  if negb (lease_renewable self)
  then throw (InvalidConfig ("lease " +:+ LeaseId_display (lease_id self)
                             +:+ " is not renewable"))
  else
    now ← utc_now;
    expires_at ← expect (dt_add now extension);
    mret (set_renewal expires_at (u32_add (lease_renewal_count self) 1) self).

Definition Lease_revoke (self : Lease) : Lease := set_revoked true self.

Definition Lease_time_remaining (self : Lease) : M St Error TimeDelta :=
  now ← utc_now; mret (lease_expires_at self - now).
End operations.

(** [impl From<&Lease> for LeaseGrant] *)
Definition LeaseGrant_from (lease : Lease) : LeaseGrant :=
  mkLeaseGrant (lease_id lease) (lease_secret_name lease) (lease_allowed_domains lease)
    (lease_expires_at lease) (lease_renewable lease)
    ((λ max, Z.max 0 (max - lease_use_count lease)) <$> lease_max_uses lease).

(** [LeaseGuard]: the decrypted value and the lease it came from. *)
Record LeaseGuard := LeaseGuard_new {
  guard_lease_id : LeaseId;
  guard_value : string
}.
Definition LeaseGuard_expose {R} (self : LeaseGuard) (f : string → R) : R :=
  f (guard_value self).

(** ** Well-formedness *)

(** Counters fit [u32], and a use budget is never overdrawn. *)
Definition Lease_wf (l : Lease) : Prop :=
  0 ≤ lease_use_count l ≤ U32_MAX ∧
  0 ≤ lease_renewal_count l ≤ U32_MAX ∧
  (∀ m, lease_max_uses l = Some m → lease_use_count l ≤ m ≤ U32_MAX).

Definition LeaseTerms_wf (t : LeaseTerms) : Prop :=
  ∀ m, terms_max_uses t = Some m → 0 ≤ m ≤ U32_MAX.

(** The lease may be used for [host] at time [now]. *)
Definition lease_live_for (l : Lease) (now : DateTime) (host : string) : Prop :=
  lease_revoked l = false ∧ now ≤ lease_expires_at l ∧ uses_exhausted l = false ∧
  ∃ d, d ∈ lease_allowed_domains l ∧ DomainScope_matches d host = true.

Lemma u32_add_range a b : 0 ≤ u32_add a b ≤ U32_MAX.
Proof.
  unfold u32_add, U32_MAX. pose proof (Z.mod_pos_bound (a + b) 4294967296). lia.
Qed.

Lemma u32_add_small a b : 0 ≤ a + b ≤ U32_MAX → u32_add a b = a + b.
Proof. unfold u32_add, U32_MAX. intros. apply Z.mod_small. lia. Qed.

#[export] Hint Resolve u32_add_range : zerolease.

Lemma uses_exhausted_spec l :
  uses_exhausted l = true ↔ ∃ m, lease_max_uses l = Some m ∧ m ≤ lease_use_count l.
Proof.
  unfold uses_exhausted. destruct (lease_max_uses l) as [m|]; [|naive_solver].
  rewrite Z.leb_le. naive_solver.
Qed.

Lemma Lease_record_use_wf l l' :
  Lease_wf l → Lease_record_use l = Ok l' → Lease_wf l'.
Proof.
  unfold Lease_record_use. destruct (uses_exhausted l) eqn:Hu; [done|].
  intros (Hc & Hr & Hm) [= <-]. repeat split; simpl; try lia;
    try (apply u32_add_range); intros.
  - destruct (Hm m) as [Hle ?]; [done|].
    assert (lease_use_count l < m).
    { apply Z.lt_nge. intros ?. apply not_true_iff_false in Hu. apply Hu.
      apply uses_exhausted_spec. eauto. }
    rewrite u32_add_small; unfold U32_MAX in *; lia.
  - by apply (Hm m).
Qed.

Lemma Lease_record_use_ok l :
  uses_exhausted l = false →
  Lease_record_use l = Ok (set_use_count (u32_add (lease_use_count l) 1) l).
Proof. unfold Lease_record_use. by intros ->. Qed.

Section facts.
Context {St : Type} `{!Env, !Chrono, !UuidText}.
Implicit Types (s : St) (w : World).

Lemma Lease_new_wf agent name domains terms s w :
  LeaseTerms_wf terms →
  wp (Lease_new agent name domains terms) s w (λ r s' w',
    s' = s ∧ ∀ l, r = Ok l → Lease_wf l).
Proof.
  intros Ht. unfold Lease_new, LeaseId_new. wp_steps; split; try done.
  intros l [= <-]. unfold Lease_wf, U32_MAX. simpl.
  split; [lia|]. split; [lia|]. exact Ht.
Qed.

(** What the successful construction delivers. *)
Lemma Lease_new_ok agent name domains terms s w t :
  dt_add (clock (w_clock w)) (terms_ttl terms) = Some t →
  Lease_new agent name domains terms s w =
    (Ok (mkLease (LeaseId_from_uuid (now_v7 (w_uuid w))) agent name domains
           (clock (w_clock w)) t (terms_renewable terms) (terms_max_uses terms)
           0 false None 0), s, tick_uuid (tick_clock w)).
Proof.
  intros Ht. unfold Lease_new, LeaseId_new, utc_now, uuid_now_v7, mbind, M_bind, mret, M_ret.
  simpl. by rewrite Ht.
Qed.

(** [validate] never changes its component, never panics, and succeeds exactly on
    a live lease. *)
Lemma Lease_validate_wp l host s w :
  wp (Lease_validate l host) s w (λ r s' w',
    s' = s ∧ world_le w w' ∧
    r ≠ Panic ∧ (r = Ok tt ↔ lease_live_for l (clock (w_clock w)) host)).
Proof.
  unfold Lease_validate, lease_live_for. wp_steps; (split; [done|]); (split; [solve_world|]); (split; [done|]);
    rewrite ?Z.ltb_lt, ?Z.ltb_ge in *.
  - split; [done|]. intros (? & _). congruence.
  - split; [done|]. intros (_ & Hle & _). lia.
  - split; [done|]. intros (_ & _ & ? & _). congruence.
  - split; [done|]. intros (_ & _ & _ & Hd). apply negb_true_iff in Hb2.
    destruct Hd as (d & Hin & Hd). apply not_true_iff_false in Hb2. destruct Hb2.
    apply existsb_exists. exists d. split; [by apply list_elem_of_In|done].
  - split; [|done]. intros _. do 3 (split; [done|]).
    apply negb_false_iff, existsb_exists in Hb2 as (d & Hin & Hd).
    exists d. split; [by apply list_elem_of_In|done].
Qed.
End facts.

(** ** The use budget *)

(** [n] successive calls of [record_use]. *)
Fixpoint record_uses (n : nat) (l : Lease) : outcome Error Lease :=
  match n with
  | O => Ok l
  | S n' =>
    match Lease_record_use l with
    | Ok l' => record_uses n' l'
    | Err e => Err e
    | Panic => Panic
    end
  end.

Lemma record_uses_limited n l m :
  lease_max_uses l = Some m → Lease_wf l →
  record_uses n l =
    if lease_use_count l + Z.of_nat n <=? m
    then Ok (set_use_count (lease_use_count l + Z.of_nat n) l)
    else Err (LeaseExpired (lease_id l)).
Proof.
  revert l. induction n as [|n IH]; intros l Hm Hwf.
  - destruct Hwf as (_ & _ & Hb). destruct (Hb m Hm) as [Hle _].
    rewrite Z.add_0_r. rewrite (proj2 (Z.leb_le _ _) Hle). by destruct l.
  - cbn [record_uses]. destruct (Lease_record_use l) as [l'|e|] eqn:Hu.
    + pose proof (Lease_record_use_wf _ _ Hwf Hu) as Hwf'.
      unfold Lease_record_use in Hu. destruct (uses_exhausted l) eqn:Hx; [done|].
      injection Hu as <-. rewrite IH by done. cbn.
      apply not_true_iff_false in Hx. rewrite uses_exhausted_spec in Hx.
      destruct Hwf as (Hc & _ & Hb). destruct (Hb m Hm).
      assert (lease_use_count l < m) by (apply Z.lt_nge; intros ?; eauto).
      rewrite u32_add_small by (unfold U32_MAX in *; lia).
      replace (lease_use_count l + 1 + Z.of_nat n) with (lease_use_count l + Z.of_nat (S n))
        by lia.
      done.
    + unfold Lease_record_use in Hu. destruct (uses_exhausted l) eqn:Hx; [|done].
      injection Hu as <-. apply uses_exhausted_spec in Hx as (m' & Hm' & Hle).
      simplify_eq. rewrite (proj2 (Z.leb_gt _ _)); [done|lia].
    + unfold Lease_record_use in Hu. by destruct (uses_exhausted l).
Qed.

(** ** Properties *)

(** [validate] leaves the lease alone, never panics, and returns [Ok] exactly when
    the lease is not revoked, its expiry is not before the instant the clock shows,
    its use budget is not spent, and one of its domain scopes matches the target.
    Otherwise the error names the first of these that fails, in that order. *)
Theorem lease_validate_complete `{!Env} {St : Type} (l : Lease) (host : string)
    (s : St) (w : World) :
  let now := clock (w_clock w) in
  ∃ r w', Lease_validate l host s w = (r, s, w') ∧ r ≠ Panic ∧
    (r = Ok tt ↔ lease_live_for l now host) ∧
    (r = Err (LeaseRevoked (lease_id l)) ↔ lease_revoked l = true) ∧
    (r = Err (LeaseExpired (lease_id l)) ↔
       lease_revoked l = false ∧
       (lease_expires_at l < now ∨ uses_exhausted l = true)) ∧
    (r = Err (AccessDenied (lease_agent l) (lease_secret_name l) (DomainScope_new host)) ↔
       lease_revoked l = false ∧ now ≤ lease_expires_at l ∧ uses_exhausted l = false ∧
       ∀ d, d ∈ lease_allowed_domains l → DomainScope_matches d host = false).
Proof.
  intros now. pose proof (Lease_validate_wp l host s w) as Hwp.
  unfold wp in Hwp. destruct (Lease_validate l host s w) as [[r s'] w'] eqn:Hrun.
  destruct Hwp as (-> & _ & Hp & Hok). exists r, w'.
  do 3 (split; [done|]). clear Hok Hp.
  unfold Lease_validate, throw, mret, M_ret in Hrun.
  destruct (lease_revoked l) eqn:Hr; [naive_solver|].
  unfold mbind, M_bind, utc_now in Hrun. fold now in Hrun.
  destruct (Z.ltb_spec (lease_expires_at l) now) as [He|He]; [naive_solver lia|].
  destruct (uses_exhausted l) eqn:Hu; [naive_solver|].
  destruct (existsb _ _) eqn:Hx; simpl in Hrun; simplify_eq.
  - apply existsb_exists in Hx as (d & Hin & Hd). apply list_elem_of_In in Hin.
    split; [naive_solver|]. split; [naive_solver lia|]. split; [done|].
    intros (_ & _ & _ & Hall). rewrite Hall in Hd; done.
  - split; [naive_solver|]. split; [naive_solver lia|]. split; [|done]. intros _.
    do 3 (split; [done|]). intros d Hin. apply not_true_iff_false. intros Hd.
    apply not_true_iff_false in Hx. apply Hx, existsb_exists.
    exists d. by rewrite <-list_elem_of_In.
Qed.

(** The use budget is exact. On a lease granted for [m] uses, [n] successive calls of
    [record_use] all succeed if and only if [n ≤ m], each success counts one use, and
    the first call past the budget fails with [LeaseExpired] and changes nothing. A
    lease without a budget never runs out; its 32-bit counter wraps around. *)
Theorem lease_use_budget (l : Lease) (n : nat) :
  Lease_wf l → lease_use_count l = 0 →
  (∀ m, lease_max_uses l = Some m →
     record_uses n l =
       if Z.of_nat n <=? m then Ok (set_use_count (Z.of_nat n) l)
       else Err (LeaseExpired (lease_id l))) ∧
  (lease_max_uses l = None →
     record_uses n l = Ok (set_use_count (Z.of_nat n `mod` 4294967296) l)).
Proof.
  intros Hwf H0. split.
  - intros m Hm. by rewrite (record_uses_limited _ _ m), H0 by done.
  - intros Hm.
    assert (Hgen : ∀ n l, lease_max_uses l = None → 0 ≤ lease_use_count l ≤ U32_MAX →
      record_uses n l =
        Ok (set_use_count ((lease_use_count l + Z.of_nat n) `mod` 4294967296) l)).
    { clear. induction n as [|n IH]; intros l Hm Hc; cbn [record_uses].
      - rewrite Z.add_0_r, Z.mod_small by (unfold U32_MAX in Hc; lia). by destruct l.
      - unfold Lease_record_use, uses_exhausted. rewrite Hm.
        rewrite IH by (simpl; auto using u32_add_range). cbn. unfold u32_add.
        rewrite Zplus_mod_idemp_l, <-Z.add_assoc.
        replace (1 + Z.of_nat n) with (Z.of_nat (S n)) by lia. done. }
    rewrite Hgen, H0 by (done || (unfold U32_MAX; lia)). done.
Qed.

(** A lease for two uses, as the witness of [lease_use_budget]. *)
Definition sample_lease : Lease :=
  mkLease (LeaseId_from_uuid 7) (AgentId_new "ci-agent") (SecretName_new "github-pat")
    [DomainScope_new "*.github.com"] 0 (900 * NANOS) true (Some 2) 0 false None 0.

Lemma lease_use_budget_witness :
  record_uses 2 sample_lease = Ok (set_use_count 2 sample_lease) ∧
  record_uses 3 sample_lease = Err (LeaseExpired (LeaseId_from_uuid 7)).
Proof.
  assert (Hwf : Lease_wf sample_lease)
    by (repeat split; simpl; unfold U32_MAX; try lia; naive_solver lia).
  split.
  - exact (proj1 (lease_use_budget sample_lease 2 Hwf eq_refl) 2 eq_refl).
  - exact (proj1 (lease_use_budget sample_lease 3 Hwf eq_refl) 2 eq_refl).
Defined.

(** [renew] succeeds only on an unrevoked, renewable lease; a success moves the
    expiry to the extension past the clock reading and counts one renewal, and changes
    neither the agent, the secret, the domains nor the use budget: a renewal never
    widens a lease. On every other outcome no lease is produced. *)
Theorem lease_renew_spec `{!Env, !Chrono, !UuidText, !ChronoLaws} {St : Type}
    (l : Lease) (ext : TimeDelta) (s : St) (w : World) :
  let now := clock (w_clock w) in
  ∃ r w', Lease_renew l ext s w = (r, s, w') ∧
    (∀ l', r = Ok l' ↔
       lease_revoked l = false ∧ lease_renewable l = true ∧
       dt_add now ext = Some (now + ext) ∧
       l' = set_renewal (now + ext) (u32_add (lease_renewal_count l) 1) l) ∧
    (∀ l', r = Ok l' →
       lease_id l' = lease_id l ∧ lease_agent l' = lease_agent l ∧
       lease_secret_name l' = lease_secret_name l ∧
       lease_allowed_domains l' = lease_allowed_domains l ∧
       lease_max_uses l' = lease_max_uses l ∧ lease_use_count l' = lease_use_count l ∧
       lease_session_id l' = lease_session_id l) ∧
    (lease_revoked l = true → r = Err (LeaseRevoked (lease_id l))).
Proof.
  intros now. unfold Lease_renew, throw.
  destruct (lease_revoked l) eqn:Hr; [eexists _, _; naive_solver|].
  destruct (lease_renewable l) eqn:Hn; [|eexists _, _; naive_solver].
  cbn [negb]. unfold mbind, M_bind, utc_now, mret, M_ret, expect, panic.
  fold now. destruct (dt_add now ext) as [t|] eqn:Ht; [|eexists _, _; naive_solver].
  pose proof (dt_add_spec _ _ _ Ht) as ->. eexists _, _. split; [done|]. naive_solver.
Qed.

Lemma lease_renew_spec_witness :
  ∃ w', @Lease_renew unit demo_Env demo_Chrono demo_UuidText sample_lease (60 * NANOS) tt
    demo_world = (Ok (set_renewal (60 * NANOS) 1 sample_lease), tt, w').
Proof.
  destruct (@lease_renew_spec demo_Env demo_Chrono demo_UuidText demo_ChronoLaws unit
              sample_lease (60 * NANOS) tt demo_world) as (r & w' & Hrun & Hok & _).
  exists w'. rewrite Hrun. do 2 f_equal. apply Hok. vm_compute. done.
Defined.
