(* ===== verification/Policy.v ===== *)
(** The policy engine: [src/policy/mod.rs]. *)
From S2P Require Import Prelude Text Concrete Types.

Local Open Scope string_scope.
Local Open Scope Z_scope.
Local Open Scope list_scope.

(** ** Data *)

Inductive AgentPattern :=
  | AgentExact (id : AgentId)
  | AgentPrefix (prefix : string)
  | AgentAny.

Definition AgentPattern_matches (self : AgentPattern) (agent : AgentId) : bool :=
  match self with
  | AgentExact id => bool_decide (id = agent)
  | AgentPrefix prefix => starts_with prefix (AgentId_as_str agent)
  | AgentAny => true
  end.

Inductive SecretPattern :=
  | SecretExact (n : SecretName)
  | SecretPrefix (prefix : string)
  | SecretAny.

Definition SecretPattern_matches (self : SecretPattern) (name : SecretName) : bool :=
  match self with
  | SecretExact n => bool_decide (n = name)
  | SecretPrefix prefix => starts_with prefix (SecretName_as_str name)
  | SecretAny => true
  end.

Record PolicyGrant := mkPolicyGrant {
  pgrant_agent : AgentPattern;
  pgrant_secret : SecretPattern;
  pgrant_allowed_domains : list DomainScope;
  pgrant_lease_terms : option LeaseTerms
}.

Record PolicyConfig := mkPolicyConfig {
  default_lease_terms : LeaseTerms;
  grants : list PolicyGrant
}.

Record PolicyEngine := mkPolicyEngine { engine_config : PolicyConfig }.

(** The warnings that [PolicyEngine::new] logs, with the index of the grant. *)
Inductive PolicyWarning :=
  | EmptyAgentPrefix (grant_index : nat)
  | EmptySecretPrefix (grant_index : nat)
  | EmptyDomainScope (grant_index : nat)
  | MalformedDomainScope (grant_index : nat) (domain : string)
  | WhitespaceDomainScope (grant_index : nat) (domain : string).

(** ** Operations *)

(** [PolicyConfig::from_json] and [PolicyConfig::from_file]; [read_to_string] is the
    file system's answer. *)
Definition PolicyConfig_from_json `{!Serde PolicyConfig} (json : string)
    : outcome Error PolicyConfig :=
  map_err (λ e, InvalidConfig ("invalid policy JSON: " +:+ e)) (from_json json).

Definition PolicyConfig_from_file `{!Serde PolicyConfig}
    (read_to_string : string → outcome string string) (path : string)
    : outcome Error PolicyConfig :=
  match map_err (λ e, InvalidConfig ("failed to read policy file: " +:+ e))
          (read_to_string path) with
  | Ok contents => PolicyConfig_from_json contents
  | Err e => Err e
  | Panic => Panic
  end.

Definition domain_warnings (i : nat) (domain : DomainScope) : list PolicyWarning :=
  let ds := DomainScope_as_str domain in
  if is_empty ds then [EmptyDomainScope i]
  else if str_eqb ds "*." then [MalformedDomainScope i ds]
  else if existsb is_whitespace (chars ds) then [WhitespaceDomainScope i ds]
  else [].

Definition grant_warnings (i : nat) (grant : PolicyGrant) : list PolicyWarning :=
  match pgrant_agent grant with
  | AgentPrefix p => if is_empty p then [EmptyAgentPrefix i] else []
  | _ => []
  end ++
  match pgrant_secret grant with
  | SecretPrefix p => if is_empty p then [EmptySecretPrefix i] else []
  | _ => []
  end ++
  (pgrant_allowed_domains grant ≫= domain_warnings i).

(** [PolicyEngine::new]: the engine, and the warnings in the order they are logged. *)
Definition PolicyEngine_new (config : PolicyConfig) : PolicyEngine * list PolicyWarning :=
  (mkPolicyEngine config,
   mjoin (imap grant_warnings (grants config))).

(** The three tests of a grant in [PolicyEngine::evaluate]. *)
Definition grant_applies (grant : PolicyGrant) (agent : AgentId) (secret : SecretName)
    (domain : DomainScope) : bool :=
  AgentPattern_matches (pgrant_agent grant) agent &&
  SecretPattern_matches (pgrant_secret grant) secret &&
  existsb (λ d, DomainScope_matches d (DomainScope_as_str domain))
    (pgrant_allowed_domains grant).

Fixpoint evaluate_grants (dflt : LeaseTerms) (gs : list PolicyGrant)
    (agent : AgentId) (secret : SecretName) (domain : DomainScope)
    : outcome Error LeaseTerms :=
  match gs with
  | [] => Err (AccessDenied agent secret domain)
  | grant :: gs' =>
    if negb (AgentPattern_matches (pgrant_agent grant) agent)
    then evaluate_grants dflt gs' agent secret domain
    else if negb (SecretPattern_matches (pgrant_secret grant) secret)
    then evaluate_grants dflt gs' agent secret domain
    else if negb (existsb (λ d, DomainScope_matches d (DomainScope_as_str domain))
                    (pgrant_allowed_domains grant))
    then evaluate_grants dflt gs' agent secret domain
    else Ok (default dflt (pgrant_lease_terms grant))
  end.

Definition PolicyEngine_evaluate (self : PolicyEngine) (agent : AgentId)
    (secret : SecretName) (domain : DomainScope) : outcome Error LeaseTerms :=
  evaluate_grants (default_lease_terms (engine_config self)) (grants (engine_config self))
    agent secret domain.

Definition PolicyEngine_grants_for_agent (self : PolicyEngine) (agent : AgentId)
    : list PolicyGrant :=
  filter (λ g, AgentPattern_matches (pgrant_agent g) agent) (grants (engine_config self)).

Definition PolicyEngine_reload (_ : PolicyEngine) (config : PolicyConfig) : PolicyEngine :=
  mkPolicyEngine config.

(** ** Facts *)

Lemma evaluate_grants_cons dflt g gs a n d :
  evaluate_grants dflt (g :: gs) a n d =
    if grant_applies g a n d then Ok (default dflt (pgrant_lease_terms g))
    else evaluate_grants dflt gs a n d.
Proof.
  unfold grant_applies. simpl.
  destruct (AgentPattern_matches _ _), (SecretPattern_matches _ _), (existsb _ _); done.
Qed.
#[export] Hint Rewrite evaluate_grants_cons : zerolease.

(** Only grants that apply matter, and the first of them decides. *)
Lemma evaluate_grants_app dflt gs1 gs2 a n d :
  evaluate_grants dflt (gs1 ++ gs2) a n d =
    match evaluate_grants dflt gs1 a n d with
    | Ok t => Ok t
    | _ => evaluate_grants dflt gs2 a n d
    end.
Proof.
  induction gs1 as [|g gs1 IH]; [done|].
  rewrite <-app_comm_cons, !evaluate_grants_cons, IH. by destruct (grant_applies g a n d).
Qed.

Lemma evaluate_grants_denied dflt gs a n d :
  (∀ g, g ∈ gs → grant_applies g a n d = false) →
  evaluate_grants dflt gs a n d = Err (AccessDenied a n d).
Proof.
  induction gs as [|g gs IH]; intros Hall; [done|].
  rewrite evaluate_grants_cons, Hall by set_solver. apply IH. set_solver.
Qed.

Lemma evaluate_grants_cases dflt gs a n d :
  (evaluate_grants dflt gs a n d = Err (AccessDenied a n d) ∧
   ∀ g, g ∈ gs → grant_applies g a n d = false) ∨
  (∃ pre g post, gs = pre ++ g :: post ∧
     (∀ g', g' ∈ pre → grant_applies g' a n d = false) ∧
     grant_applies g a n d = true ∧
     evaluate_grants dflt gs a n d = Ok (default dflt (pgrant_lease_terms g))).
Proof.
  induction gs as [|g gs IH]; [left; split; [done|set_solver]|].
  rewrite evaluate_grants_cons. destruct (grant_applies g a n d) eqn:Hg.
  { right. exists [], g, gs. split; [done|]. split; [set_solver|done]. }
  destruct IH as [[-> Hall]|(pre & g0 & post & -> & Hpre & Hg0 & ->)].
  - left. split; [done|]. intros g' [->|?]%elem_of_cons; auto.
  - right. exists (g :: pre), g0, post. split; [done|]. split; [|done].
    intros g' [->|?]%elem_of_cons; auto.
Qed.

(** Terms that come out of the engine were written in its configuration. *)
Definition PolicyEngine_wf (P : LeaseTerms → Prop) (e : PolicyEngine) : Prop :=
  P (default_lease_terms (engine_config e)) ∧
  ∀ g t, g ∈ grants (engine_config e) → pgrant_lease_terms g = Some t → P t.

Lemma PolicyEngine_evaluate_terms P e a n d t :
  PolicyEngine_wf P e → PolicyEngine_evaluate e a n d = Ok t → P t.
Proof.
  unfold PolicyEngine_evaluate. intros [Hd Hg] He.
  destruct (evaluate_grants_cases (default_lease_terms (engine_config e))
              (grants (engine_config e)) a n d)
    as [[Hr _]|(pre & g & post & Hgs & _ & _ & Hr)]; rewrite Hr in He; [done|].
  injection He as <-. destruct (pgrant_lease_terms g) as [t|] eqn:Ht; [|done].
  apply (Hg g); [|done]. rewrite Hgs. set_solver.
Qed.

Lemma PolicyEngine_evaluate_err e a n d r :
  PolicyEngine_evaluate e a n d = r → (∃ t, r = Ok t) ∨ r = Err (AccessDenied a n d).
Proof.
  intros <-. unfold PolicyEngine_evaluate.
  destruct (evaluate_grants_cases (default_lease_terms (engine_config e))
              (grants (engine_config e)) a n d)
    as [[-> _]|(pre & g & post & _ & _ & _ & ->)]; eauto.
Qed.

(** A request for a host that a permitted scope matches is itself permitted. *)
Lemma PolicyEngine_evaluate_host e a n d t host :
  PolicyEngine_evaluate e a n d = Ok t → DomainScope_matches d host = true →
  ∃ t', PolicyEngine_evaluate e a n (DomainScope_new host) = Ok t'.
Proof.
  unfold PolicyEngine_evaluate. generalize (default_lease_terms (engine_config e)) as dflt.
  generalize (grants (engine_config e)) as gs. intros gs dflt.
  induction gs as [|g gs IH]; intros He Hd; [done|]. rewrite evaluate_grants_cons in *.
  destruct (grant_applies g a n (DomainScope_new host)) eqn:Hg; [eauto|].
  destruct (grant_applies g a n d) eqn:Hgd; [|auto].
  unfold grant_applies in *. rewrite !andb_true_iff in Hgd.
  destruct Hgd as [[Ha Hn] (d0 & Hin & Hd0)%existsb_exists].
  rewrite Ha, Hn in Hg. apply not_true_iff_false in Hg. destruct Hg. simpl.
  apply existsb_exists. exists d0. split; [done|].
  by apply (DomainScope_matches_trans d0 d host).
Qed.

(** ** Properties *)

(** Deny by default, first match wins. The engine answers [AccessDenied] for exactly
    the requests that no grant of the configuration covers; otherwise it answers with
    the terms of the first grant, in file order, whose agent pattern, secret pattern
    and one of whose domain scopes all match (the vault's default terms when that
    grant has none). It has no other answer. *)
Theorem policy_first_match (e : PolicyEngine) (a : AgentId) (n : SecretName)
    (d : DomainScope) :
  let gs := grants (engine_config e) in
  (PolicyEngine_evaluate e a n d = Err (AccessDenied a n d) ↔
     ∀ g, g ∈ gs → grant_applies g a n d = false) ∧
  (∀ t, PolicyEngine_evaluate e a n d = Ok t ↔
     ∃ pre g post, gs = pre ++ g :: post ∧
       (∀ g', g' ∈ pre → grant_applies g' a n d = false) ∧
       grant_applies g a n d = true ∧
       t = default (default_lease_terms (engine_config e)) (pgrant_lease_terms g)) ∧
  (PolicyEngine_evaluate e a n d = Err (AccessDenied a n d) ∨
   ∃ t, PolicyEngine_evaluate e a n d = Ok t).
Proof.
  intros gs. unfold PolicyEngine_evaluate. fold gs.
  assert (Hfst : ∀ pre g post, gs = pre ++ g :: post →
    (∀ g', g' ∈ pre → grant_applies g' a n d = false) → grant_applies g a n d = true →
    evaluate_grants (default_lease_terms (engine_config e)) gs a n d =
      Ok (default (default_lease_terms (engine_config e)) (pgrant_lease_terms g))).
  { intros pre g post -> Hpre Hg.
    by rewrite evaluate_grants_app, evaluate_grants_denied, evaluate_grants_cons, Hg. }
  destruct (evaluate_grants_cases (default_lease_terms (engine_config e)) gs a n d)
    as [[Hr Hall]|(pre & g & post & Hgs & Hpre & Hg & Hr)]; rewrite Hr.
  - split; [done|]. split; [|by left]. intros t. split; [done|].
    intros (pre & g & post & Hgs & Hpre & Hg & ->).
    rewrite Hall in Hg; [done|]. rewrite Hgs. set_solver.
  - split. { split; [done|]. intros Hall. rewrite Hall in Hg; [done|]. rewrite Hgs. set_solver. }
    split; [|eauto]. intros t. split.
    + intros [= <-]. eauto 10.
    + intros (pre' & g' & post' & Hgs' & Hpre' & Hg' & ->).
      rewrite <-Hr. by eapply Hfst.
Qed.

(** Adding grants at the end of the list never changes a decision that granted access,
    and can only turn a denial into the answer of the added grants alone. *)
Theorem policy_append_monotone (dflt : LeaseTerms) (gs extra : list PolicyGrant)
    (a : AgentId) (n : SecretName) (d : DomainScope) :
  let ev gs := PolicyEngine_evaluate (mkPolicyEngine (mkPolicyConfig dflt gs)) a n d in
  (∀ t, ev gs = Ok t → ev (gs ++ extra) = Ok t) ∧
  (ev gs = Err (AccessDenied a n d) → ev (gs ++ extra) = ev extra).
Proof.
  unfold PolicyEngine_evaluate. cbn [engine_config default_lease_terms grants].
  split; intros *; rewrite evaluate_grants_app; by intros ->.
Qed.

(** [grants_for_agent] is faithful introspection: the grants it lists decide every
    request of that agent exactly as the whole configuration does. *)
Theorem policy_introspection_complete (e : PolicyEngine) (a : AgentId) (n : SecretName)
    (d : DomainScope) :
  PolicyEngine_evaluate
    (PolicyEngine_reload e (mkPolicyConfig (default_lease_terms (engine_config e))
                              (PolicyEngine_grants_for_agent e a))) a n d =
  PolicyEngine_evaluate e a n d.
Proof.
  unfold PolicyEngine_evaluate, PolicyEngine_grants_for_agent, PolicyEngine_reload.
  cbn [engine_config default_lease_terms grants].
  generalize (grants (engine_config e)) as gs. intros gs.
  induction gs as [|g gs IH]; [done|]. rewrite filter_cons, evaluate_grants_cons.
  case_decide as Hm.
  - by rewrite evaluate_grants_cons, IH.
  - rewrite IH. unfold grant_applies.
    destruct (AgentPattern_matches (pgrant_agent g) a); [by destruct Hm|done].
Qed.

(** The validation of [PolicyEngine::new] is silent exactly on the configurations
    whose every prefix pattern is non-empty and whose every domain scope is non-empty,
    is not [*.], and contains no whitespace. *)
Theorem policy_warnings_complete (c : PolicyConfig) :
  (PolicyEngine_new c).2 = [] ↔
  ∀ g, g ∈ grants c →
    pgrant_agent g ≠ AgentPrefix "" ∧ pgrant_secret g ≠ SecretPrefix "" ∧
    ∀ d, d ∈ pgrant_allowed_domains g →
      DomainScope_as_str d ≠ "" ∧ DomainScope_as_str d ≠ "*." ∧
      existsb is_whitespace (chars (DomainScope_as_str d)) = false.
Proof.
  assert (Hdom : ∀ i d, domain_warnings i d = [] ↔
    DomainScope_as_str d ≠ "" ∧ DomainScope_as_str d ≠ "*." ∧
    existsb is_whitespace (chars (DomainScope_as_str d)) = false).
  { intros i d. unfold domain_warnings, str_eqb, is_empty.
    destruct (DomainScope_as_str d) as [|c0 s0] eqn:Hs; [naive_solver|].
    case_bool_decide; [naive_solver|].
    destruct (existsb is_whitespace (chars (String c0 s0))) eqn:Hw; rewrite ?Hw; naive_solver. }
  assert (Hds : ∀ i ds, ds ≫= domain_warnings i = [] ↔
    ∀ d, d ∈ ds → domain_warnings i d = []).
  { intros i ds. induction ds as [|d ds IH]; [set_solver|]. rewrite bind_cons.
    rewrite app_nil, IH. set_solver. }
  assert (Hgr : ∀ i g, grant_warnings i g = [] ↔
    pgrant_agent g ≠ AgentPrefix "" ∧ pgrant_secret g ≠ SecretPrefix "" ∧
    ∀ d, d ∈ pgrant_allowed_domains g → domain_warnings i d = []).
  { intros i g. unfold grant_warnings. rewrite !app_nil, Hds.
    destruct (pgrant_agent g) as [|[|??]|], (pgrant_secret g) as [|[|??]|]; naive_solver. }
  unfold PolicyEngine_new. cbn [snd].
  setoid_rewrite <-(Hdom O).
  enough (Hgen : ∀ gs (f : nat → PolicyGrant → list PolicyWarning), (∀ i g, f i g = [] ↔ grant_warnings 0 g = []) →
    mjoin (imap f gs) = [] ↔ ∀ g, g ∈ gs → grant_warnings 0 g = []).
  { rewrite (Hgen _ grant_warnings).
    - by setoid_rewrite Hgr.
    - intros i g. rewrite !Hgr. by setoid_rewrite Hdom. }
  induction gs as [|g gs IH]; intros f Hf; [set_solver|].
  simpl. rewrite app_nil, Hf.
  rewrite (IH (f ∘ S)) by (intros; apply Hf). set_solver.
Qed.
