(* ===== verification/Session.v ===== *)
(** Sessions: [src/session.rs]. *)
From S2P Require Import Prelude Text Concrete Types.

Local Open Scope string_scope.
Local Open Scope Z_scope.
Local Open Scope list_scope.

(** ** Data *)

Record ToolCredentialBinding := mkToolCredentialBinding {
  binding_tool_name : string;
  binding_allowed_secrets : list SecretName;
  binding_allowed_domains : list DomainScope
}.

Record SessionPolicy := mkSessionPolicy {
  max_session_duration : TimeDelta;
  max_concurrent_leases : Z;
  max_renewals_per_lease : Z;
  tool_bindings : list ToolCredentialBinding
}.

Record Session := mkSession {
  session_id : SessionId;
  session_user : string;
  session_channel : string;
  session_created_at : DateTime;
  session_expires_at : DateTime;
  session_policy : SessionPolicy;
  session_active_lease_count : Z;
  session_revoked : bool
}.

Definition set_session_revoked (b : bool) (s : Session) : Session :=
  mkSession (session_id s) (session_user s) (session_channel s) (session_created_at s)
    (session_expires_at s) (session_policy s) (session_active_lease_count s) b.
Definition set_active_lease_count (n : Z) (s : Session) : Session :=
  mkSession (session_id s) (session_user s) (session_channel s) (session_created_at s)
    (session_expires_at s) (session_policy s) n (session_revoked s).

(** ** Operations *)

Section operations.
Context {St : Type} `{!Env, !Chrono}.

Definition SessionPolicy_default_dev : SessionPolicy :=
  mkSessionPolicy (td_hours 1) 10 3 [].

Definition Session_new (user channel : string) (policy : SessionPolicy)
    : M St Error Session :=
  now ← utc_now;
  id ← SessionId_new;
  expires_at ← expect (dt_add now (max_session_duration policy));
  mret (mkSession id user channel now expires_at policy 0 false).

Definition Session_is_expired (self : Session) : M St Error bool :=
  now ← utc_now; mret (session_expires_at self <? now).

(** [&&] evaluates [is_expired] only for a session that is not revoked. *)
Definition Session_is_active (self : Session) : M St Error bool :=
  if negb (session_revoked self) then
    e ← Session_is_expired self; mret (negb e)
  else mret false.

Definition Session_time_remaining (self : Session) : M St Error TimeDelta :=
  now ← utc_now; mret (session_expires_at self - now).

Definition Session_revoke (self : Session) : Session := set_session_revoked true self.
End operations.

(** One binding of [check_tool_binding]'s loop. *)
Definition binding_allows (binding : ToolCredentialBinding) (tool_name : string)
    (secret_name : SecretName) (domain : DomainScope) : bool :=
  if negb (str_eqb (binding_tool_name binding) tool_name) then false else
  let secret_ok := existsb (λ s, bool_decide (s = secret_name))
                     (binding_allowed_secrets binding) in
  let domain_ok := existsb (λ d, DomainScope_matches d (DomainScope_as_str domain))
                     (binding_allowed_domains binding) in
  secret_ok && domain_ok.

Fixpoint check_bindings (bs : list ToolCredentialBinding) (tool_name : string)
    (secret_name : SecretName) (domain : DomainScope) : outcome Error unit :=
  match bs with
  | [] => Err (AccessDenied (AgentId_new tool_name) secret_name domain)
  | b :: bs' =>
    if binding_allows b tool_name secret_name domain then Ok tt
    else check_bindings bs' tool_name secret_name domain
  end.

Definition Session_check_tool_binding (self : Session) (tool_name : string)
    (secret_name : SecretName) (domain : DomainScope) : outcome Error unit :=
  check_bindings (tool_bindings (session_policy self)) tool_name secret_name domain.

(** ** Facts *)

Definition binding_covers (b : ToolCredentialBinding) (tool : string) (n : SecretName)
    (d : DomainScope) : Prop :=
  binding_tool_name b = tool ∧ n ∈ binding_allowed_secrets b ∧
  ∃ d', d' ∈ binding_allowed_domains b ∧
        DomainScope_matches d' (DomainScope_as_str d) = true.

Lemma binding_allows_spec b tool n d :
  binding_allows b tool n d = true ↔ binding_covers b tool n d.
Proof.
  unfold binding_allows, binding_covers, str_eqb.
  case_bool_decide as Ht; cbn [negb]; [|naive_solver].
  rewrite andb_true_iff, !existsb_exists. setoid_rewrite <-list_elem_of_In.
  setoid_rewrite bool_decide_eq_true. naive_solver.
Qed.

Lemma check_bindings_spec bs tool n d :
  (check_bindings bs tool n d = Ok tt ∧
     ∃ b, b ∈ bs ∧ binding_covers b tool n d) ∨
  (check_bindings bs tool n d = Err (AccessDenied (AgentId_new tool) n d) ∧
     ∀ b, b ∈ bs → ¬ binding_covers b tool n d).
Proof.
  induction bs as [|b bs IH]; [right; split; [done|set_solver]|]. simpl.
  destruct (binding_allows b tool n d) eqn:Hb.
  - apply binding_allows_spec in Hb. left. split; [done|]. exists b. split; [set_solver|done].
  - apply not_true_iff_false in Hb. rewrite binding_allows_spec in Hb.
    destruct IH as [[-> (b' & ? & ?)]|[-> Hall]].
    + left. split; [done|]. exists b'. split; [set_solver|done].
    + right. split; [done|]. intros b' [->|?]%elem_of_cons; auto.
Qed.

(** ** Properties *)

(** A tool binding check passes exactly when some binding of the session's policy
    names the tool, lists the secret, and has a domain scope that matches the requested
    domain; in every other case (in particular for a session with no bindings) it is
    denied with an [AccessDenied] that names the tool. *)
Theorem tool_binding_complete (s : Session) (tool : string) (n : SecretName)
    (d : DomainScope) :
  (Session_check_tool_binding s tool n d = Ok tt ↔
     ∃ b, b ∈ tool_bindings (session_policy s) ∧ binding_covers b tool n d) ∧
  (Session_check_tool_binding s tool n d = Err (AccessDenied (AgentId_new tool) n d) ↔
     ∀ b, b ∈ tool_bindings (session_policy s) → ¬ binding_covers b tool n d).
Proof.
  unfold Session_check_tool_binding.
  destruct (check_bindings_spec (tool_bindings (session_policy s)) tool n d)
    as [[-> Hex]|[-> Hall]]; naive_solver.
Qed.

(** A fresh session is active at every later clock reading up to its policy's maximum
    duration, and expired at every reading past it. *)
Theorem session_lifetime `{!Env, !Chrono, !ChronoLaws} {St : Type} (user channel : string)
    (p : SessionPolicy) (st : St) (w w' : World) (s : Session) :
  Session_new user channel p st w = (Ok s, st, w') →
  ∀ w2, ∃ w3,
    Session_is_active s st w2 =
      (Ok (clock (w_clock w2) <=? clock (w_clock w) + max_session_duration p), st, w3).
Proof.
  unfold Session_new, SessionId_new, mbind, M_bind, utc_now, uuid_now_v7, mret, M_ret,
    expect, panic.
  destruct (dt_add _ _) as [t|] eqn:Ht; [|done]. intros [= <- <-] w2.
  apply dt_add_spec in Ht as ->.
  unfold Session_is_active, Session_is_expired, mbind, M_bind, utc_now, mret, M_ret.
  cbn [session_revoked negb session_expires_at]. eexists.
  by rewrite Z.leb_antisym.
Qed.

Lemma session_lifetime_witness :
  let p := @SessionPolicy_default_dev demo_Chrono in
  ∃ s w', @Session_new unit demo_Env demo_Chrono "u" "cli" p tt demo_world = (Ok s, tt, w') ∧
    ∃ w3, @Session_is_active unit demo_Env s tt w' = (Ok true, tt, w3).
Proof.
  intros p. eexists _, _. split; [reflexivity|].
  exact (@session_lifetime demo_Env demo_Chrono demo_ChronoLaws unit "u" "cli" p tt
           demo_world _ _ eq_refl _).
Defined.
