(* ===== verification/Store.v ===== *)
(** The storage interface: [src/store/mod.rs].

    [SecretStore] is the trait; [SecretStoreLaws] is what a backend promises to the
    vault, in terms of the abstract contents [store_view] of the backend. The vault's
    theorems are proved against it, and [RusqliteStore] discharges it. *)
From Stdlib Require Import Strings.Ascii.
From S2P Require Import Prelude Text Types.

Local Open Scope string_scope.
Local Open Scope Z_scope.
Local Open Scope list_scope.

(** ** Data *)

Record StoredSecret := mkStoredSecret {
  stored_id : SecretId;
  stored_name : SecretName;
  stored_ciphertext : bytes;
  stored_nonce : bytes;
  stored_algorithm : CipherAlgorithm;
  stored_kind : SecretKind;
  stored_description : option string;
  stored_created_at : DateTime;
  stored_updated_at : DateTime;
  stored_version : Z
}.

Record StoreSecretParams := mkStoreSecretParams {
  params_name : SecretName;
  params_ciphertext : bytes;
  params_nonce : bytes;
  params_algorithm : CipherAlgorithm;
  params_kind : SecretKind;
  params_description : option string
}.

Record BatchUpdateItem := mkBatchUpdateItem {
  batch_name : SecretName;
  batch_ciphertext : bytes;
  batch_nonce : bytes;
  batch_algorithm : CipherAlgorithm
}.

(** [impl From<&StoredSecret> for SecretMetadata] *)
Definition SecretMetadata_from (s : StoredSecret) : SecretMetadata :=
  mkSecretMetadata (stored_id s) (stored_name s) (stored_kind s) (stored_description s)
    (stored_created_at s) (stored_updated_at s) (stored_version s).

(** ** Parsing database strings *)

(** A double quote, and a quoted word. *)
Definition dquote : ascii := ascii_of_nat 34.
Definition quoted (s : string) : string :=
  String dquote (s +:+ String dquote EmptyString).

Definition parse_cipher_algorithm (s : string) : outcome Error CipherAlgorithm :=
  if str_eqb s "aes256gcm" then Ok Aes256Gcm
  else if str_eqb s "xchacha20poly1305" then Ok XChaCha20Poly1305
  else if str_eqb s (quoted "Aes256Gcm") then Ok Aes256Gcm
  else if str_eqb s (quoted "XChaCha20Poly1305") then Ok XChaCha20Poly1305
  else Err (Storage ("unknown algorithm: " +:+ s)).

Definition parse_secret_kind (s : string) : outcome Error SecretKind :=
  if str_eqb s "pat" then Ok Pat
  else if str_eqb s "oauth2" then Ok (OAuth2 None None)
  else if str_eqb s "apikey" then Ok ApiKey
  else if str_eqb s "basicauth" then Ok BasicAuth
  else if str_eqb s "sshkey" then Ok SshKey
  else if str_eqb s "clientcert" then Ok ClientCert
  else if str_eqb s "opaque" then Ok Opaque
  else if starts_with (String dquote EmptyString) s then
    let unquoted := trim_matches dquote s in
    if str_eqb unquoted "Pat" then Ok Pat
    else if str_eqb unquoted "ApiKey" then Ok ApiKey
    else if str_eqb unquoted "BasicAuth" then Ok BasicAuth
    else if str_eqb unquoted "SshKey" then Ok SshKey
    else if str_eqb unquoted "ClientCert" then Ok ClientCert
    else if str_eqb unquoted "Opaque" then Ok Opaque
    else Err (Storage ("unknown kind: " +:+ s))
  else Err (Storage ("unknown kind: " +:+ s)).

(** What a kind becomes on its way through its database string: the encrypted refresh
    token of an OAuth2 secret is not part of the string. *)
Definition SecretKind_erase (k : SecretKind) : SecretKind :=
  match k with OAuth2 _ _ => OAuth2 None None | k => k end.

Definition StoredSecret_erase (s : StoredSecret) : StoredSecret :=
  mkStoredSecret (stored_id s) (stored_name s) (stored_ciphertext s) (stored_nonce s)
    (stored_algorithm s) (SecretKind_erase (stored_kind s)) (stored_description s)
    (stored_created_at s) (stored_updated_at s) (stored_version s).

Lemma parse_cipher_algorithm_as_str a :
  parse_cipher_algorithm (CipherAlgorithm_as_str a) = Ok a.
Proof. by destruct a. Qed.
Lemma parse_secret_kind_as_str k :
  parse_secret_kind (SecretKind_as_str k) = Ok (SecretKind_erase k).
Proof. by destruct k. Qed.
Lemma parse_cipher_algorithm_no_panic s : parse_cipher_algorithm s ≠ Panic.
Proof. unfold parse_cipher_algorithm. by repeat case_match. Qed.
Lemma parse_secret_kind_no_panic s : parse_secret_kind s ≠ Panic.
Proof. unfold parse_secret_kind. by repeat case_match. Qed.

(** ** The trait and its contract *)

Class SecretStore (S : Type) := {
  store_put : StoreSecretParams → M S Error StoredSecret;
  store_get : SecretName → M S Error StoredSecret;
  store_update : SecretName → bytes → bytes → CipherAlgorithm → M S Error StoredSecret;
  store_batch_update : list BatchUpdateItem → M S Error unit;
  store_delete : SecretName → M S Error unit;
  store_list : M S Error (list SecretMetadata)
}.

(** A secret with new ciphertext: a rotation bumps the version and the update time. *)
Definition StoredSecret_rotate (ct nonce : bytes) (alg : CipherAlgorithm) (now : DateTime)
    (s : StoredSecret) : StoredSecret :=
  mkStoredSecret (stored_id s) (stored_name s) ct nonce alg (stored_kind s)
    (stored_description s) (stored_created_at s) now (u32_add (stored_version s) 1).

(** The effect of one batch item, and of a batch, on the abstract contents. Every item
    carries the instant at which it was applied. *)
Definition batch_apply1 (u : DateTime * BatchUpdateItem)
    (m : gmap SecretName StoredSecret) : gmap SecretName StoredSecret :=
  alter (StoredSecret_rotate (batch_ciphertext u.2) (batch_nonce u.2)
           (batch_algorithm u.2) u.1) (batch_name u.2) m.
Definition batch_apply (us : list (DateTime * BatchUpdateItem))
    (m : gmap SecretName StoredSecret) : gmap SecretName StoredSecret :=
  foldl (λ m u, batch_apply1 u m) m us.

(** Largest version a backend can represent ([i32::MAX]). *)
Definition VERSION_MAX : Z := 2147483647.

(** An error of the backend itself, with its message. *)
Definition is_storage (e : Error) : Prop := ∃ msg, e = Storage msg.

Class SecretStoreLaws (S : Type) `{!Env, !SecretStore S} := {
  store_inv : S → Prop;
  store_view : S → gmap SecretName StoredSecret;

  store_put_wb : ∀ p, well_behaved (store_put p);
  store_get_wb : ∀ n, well_behaved (store_get n);
  store_batch_update_wb : ∀ us, well_behaved (store_batch_update us);
  store_delete_wb : ∀ n, well_behaved (store_delete n);
  store_list_wb : well_behaved store_list;

  (** Every secret is filed under its own name. *)
  store_view_name : ∀ s n x, store_inv s → store_view s !! n = Some x → stored_name x = n;

  (** [get] reads the contents; absence is [SecretNotFound]. *)
  store_get_spec : ∀ n s w, store_inv s →
    wp (store_get n) s w (λ r s' w', s' = s ∧
      match r with
      | Ok x => store_view s !! n = Some x
      | Err e => (e = SecretNotFound n ∧ store_view s !! n = None) ∨ is_storage e
      | Panic => False
      end ∧
      (Reliable → ∀ e, r = Err e → e = SecretNotFound n));

  (** [put] adds a new secret, and never replaces one. *)
  store_put_spec : ∀ p s w, store_inv s →
    wp (store_put p) s w (λ r s' w', store_inv s' ∧
      match r with
      | Ok x =>
        store_view s !! params_name p = None ∧
        store_view s' = <[params_name p := StoredSecret_erase x]> (store_view s) ∧
        stored_name x = params_name p ∧ stored_ciphertext x = params_ciphertext p ∧
        stored_nonce x = params_nonce p ∧ stored_algorithm x = params_algorithm p ∧
        stored_kind x = params_kind p ∧ stored_description x = params_description p ∧
        stored_version x = 1
      | Err e =>
        store_view s' = store_view s ∧
        (e = SecretAlreadyExists (params_name p) ∨ is_storage e)
      | Panic => False
      end ∧
      (Reliable → ∀ e, r = Err e → e = SecretAlreadyExists (params_name p)));

  (** A batch is all or nothing: every item of it names a secret and all are applied,
      or nothing changes. *)
  store_batch_update_spec : ∀ us s w, store_inv s →
    (∀ n x, store_view s !! n = Some x →
       stored_version x + Z.of_nat (length us) ≤ VERSION_MAX) →
    wp (store_batch_update us) s w (λ r s' w', store_inv s' ∧
      match r with
      | Ok _ =>
        (∀ u, u ∈ us → is_Some (store_view s !! batch_name u)) ∧
        ∃ nows, length nows = length us ∧
          store_view s' = batch_apply (zip nows us) (store_view s)
      | Err e =>
        store_view s' = store_view s ∧
        ((∃ u, u ∈ us ∧ e = SecretNotFound (batch_name u) ∧
               store_view s !! batch_name u = None) ∨ is_storage e)
      | Panic => False
      end ∧
      (Reliable → ∀ e, r = Err e → ¬ is_storage e));

  (** [delete] removes exactly the named secret. *)
  store_delete_spec : ∀ n s w, store_inv s →
    wp (store_delete n) s w (λ r s' w', store_inv s' ∧
      match r with
      | Ok _ => is_Some (store_view s !! n) ∧ store_view s' = delete n (store_view s)
      | Err e =>
        store_view s' = store_view s ∧
        ((e = SecretNotFound n ∧ store_view s !! n = None) ∨ is_storage e)
      | Panic => False
      end ∧
      (Reliable → ∀ e, r = Err e → e = SecretNotFound n));

  (** [list] returns the metadata of every secret, each once. *)
  store_list_spec : ∀ s w, store_inv s →
    wp store_list s w (λ r s' w', s' = s ∧
      match r with
      | Ok ms =>
        NoDup (meta_name <$> ms) ∧
        ∀ m, m ∈ ms ↔ ∃ x, store_view s !! meta_name m = Some x ∧ m = SecretMetadata_from x
      | Err e => is_storage e
      | Panic => False
      end ∧
      (Reliable → ∀ e, r ≠ Err e))
}.

(** ** Properties *)

(** The database strings are lossless for algorithms, and for kinds lose exactly the
    encrypted refresh token of an OAuth2 secret: parsing what [as_str] wrote gives back
    the algorithm, and the kind without its inner data. *)
Theorem db_strings_roundtrip (a : CipherAlgorithm) (k : SecretKind) :
  parse_cipher_algorithm (CipherAlgorithm_as_str a) = Ok a ∧
  parse_secret_kind (SecretKind_as_str k) = Ok (SecretKind_erase k).
Proof. split; [apply parse_cipher_algorithm_as_str|apply parse_secret_kind_as_str]. Qed.
