(* ===== verification/RusqliteStore.v ===== *)
(** The SQLite secret store: [crates/zerolease-store-rusqlite/src/store.rs].

    The table [secrets] is the list of its rows in insertion order; the SQL statements
    of the source are functions on it. A statement can fail with a message of the
    database ([io_fault]); a transaction works on a copy that is written back by its
    commit. *)
From S2P Require Import Prelude Text Concrete Types Store.

Local Open Scope string_scope.
Local Open Scope Z_scope.
Local Open Scope list_scope.

Record SecretRow := mkSecretRow {
  row_id : string;
  row_name : string;
  row_ciphertext : bytes;
  row_nonce : bytes;
  row_algorithm : string;
  row_kind : string;
  row_description : option string;
  row_created_at : string;
  row_updated_at : string;
  row_version : Z
}.

Record RusqliteStore := mkRusqliteStore { secrets : list SecretRow }.

(** The texts of [rusqlite]'s own errors: a [FromSqlConversionFailure] around an error's
    text, an integer that does not fit, and a query without rows. *)
Class Rusqlite := {
  conversion_failure : string → string;
  integral_value_out_of_range : Z → string;
  query_returned_no_rows : string
}.

Definition I32_MIN : Z := -2147483648.
Definition I32_MAX : Z := 2147483647.

(** ** Rows to values *)

Section rows.
Context `{!Chrono, !UuidText, !Rusqlite}.

(** [parse_id] and [parse_timestamp] *)
Definition parse_id (row : SecretRow) : outcome Error SecretId :=
  match uuid_parse_str (row_id row) with
  | Ok uuid => Ok (SecretId_from_uuid uuid)
  | Err e => Err (Storage e)
  | Panic => Panic
  end.

Definition parse_timestamp (column : string) (s : string) : outcome Error DateTime :=
  match parse_from_rfc3339 s with
  | Ok dt => Ok dt
  | Err e => Err (Storage ("invalid " +:+ column +:+ ": " +:+ e))
  | Panic => Panic
  end.

(** [col!(row, "version", i32) as u32] *)
Definition version_column (row : SecretRow) : outcome Error Z :=
  if (I32_MIN <=? row_version row) && (row_version row <=? I32_MAX)
  then Ok (row_version row `mod` 4294967296)
  else Err (Storage (integral_value_out_of_range (row_version row))).

(** [Result]'s [?] in sequence. *)
Definition row_bind {A B} (r : outcome Error A) (k : A → outcome Error B)
    : outcome Error B :=
  match r with Ok a => k a | Err e => Err e | Panic => Panic end.

Definition row_to_stored_secret (row : SecretRow) : outcome Error StoredSecret :=
  row_bind (parse_id row) (λ id,
  row_bind (parse_cipher_algorithm (row_algorithm row)) (λ algorithm,
  row_bind (parse_secret_kind (row_kind row)) (λ kind,
  row_bind (parse_timestamp "created_at" (row_created_at row)) (λ created_at,
  row_bind (parse_timestamp "updated_at" (row_updated_at row)) (λ updated_at,
  row_bind (version_column row) (λ version,
  Ok (mkStoredSecret id (SecretName_new (row_name row)) (row_ciphertext row)
        (row_nonce row) algorithm kind (row_description row) created_at updated_at
        version))))))).

Definition row_to_metadata (row : SecretRow) : outcome Error SecretMetadata :=
  row_bind (parse_id row) (λ id,
  row_bind (parse_secret_kind (row_kind row)) (λ kind,
  row_bind (parse_timestamp "created_at" (row_created_at row)) (λ created_at,
  row_bind (parse_timestamp "updated_at" (row_updated_at row)) (λ updated_at,
  row_bind (version_column row) (λ version,
  Ok (mkSecretMetadata id (SecretName_new (row_name row)) kind (row_description row)
        created_at updated_at version)))))).
End rows.

(** ** SQL statements *)

(** [SELECT .. WHERE name = ?1] for one row. *)
Definition select_by_name (name : string) (rows : list SecretRow) : option SecretRow :=
  snd <$> list_find (λ r, row_name r = name) rows.

(** [INSERT]: refused when the primary key or the unique name is taken. *)
Definition insert_row (row : SecretRow) (rows : list SecretRow) : option (list SecretRow) :=
  if decide (Exists (λ r, row_id r = row_id row ∨ row_name r = row_name row) rows)
  then None else Some (rows ++ [row]).

(** [UPDATE .. WHERE name = ?5]: the new rows and the number of rows changed. *)
Definition update_row (name : string) (ct nonce : bytes) (alg now : string) (r : SecretRow)
    : SecretRow :=
  if decide (row_name r = name)
  then mkSecretRow (row_id r) (row_name r) ct nonce alg (row_kind r) (row_description r)
         (row_created_at r) now (row_version r + 1)
  else r.
Definition update_rows (name : string) (ct nonce : bytes) (alg now : string)
    (rows : list SecretRow) : list SecretRow * nat :=
  (update_row name ct nonce alg now <$> rows,
   length (filter (λ r, row_name r = name) rows)).

(** [DELETE .. WHERE name = ?1] *)
Definition delete_rows (name : string) (rows : list SecretRow) : list SecretRow * nat :=
  (filter (λ r, row_name r ≠ name) rows, length (filter (λ r, row_name r = name) rows)).

(** ** Operations *)

Section operations.
Context `{!Env, !Chrono, !UuidText, !Rusqlite}.
Abbreviation SM := (M RusqliteStore Error).

(** A statement that may fail: [.map_err(|e| Error::Storage(format!("{what}: {e}")))]. *)
Definition sql {St} (what : string) : M St Error unit :=
  fault ← db_call;
  match fault with
  | Some e => throw (Storage (what +:+ ": " +:+ e))
  | None => mret tt
  end.

(** [RusqliteStore::new]: opens the file and creates the schema; [rows] is what the
    file holds. *)
Definition RusqliteStore_new (rows : list SecretRow) : M unit Error RusqliteStore :=
  sql "failed to open database";;
  sql "failed to create schema";;
  mret (mkRusqliteStore rows).

Definition RusqliteStore_put (params : StoreSecretParams) : SM StoredSecret :=
  id ← SecretId_new;
  now ← utc_now;
  sql "insert failed";;
  self ← read;
  match insert_row
          (mkSecretRow (uuid_to_string (SecretId_as_uuid id))
             (SecretName_as_str (params_name params)) (params_ciphertext params)
             (params_nonce params) (CipherAlgorithm_as_str (params_algorithm params))
             (SecretKind_as_str (params_kind params)) (params_description params)
             (to_rfc3339 now) (to_rfc3339 now) 1) (secrets self) with
  | None => throw (SecretAlreadyExists (params_name params))
  | Some rows =>
    write (mkRusqliteStore rows);;
    mret (mkStoredSecret id (params_name params) (params_ciphertext params)
            (params_nonce params) (params_algorithm params) (params_kind params)
            (params_description params) now now 1)
  end.

Definition RusqliteStore_get (name : SecretName) : SM StoredSecret :=
  sql "prepare failed";;
  sql "query failed";;
  self ← read;
  row ← ok_or (select_by_name (SecretName_as_str name) (secrets self)) (SecretNotFound name);
  lift (map_err (λ e, Storage ("query failed: " +:+ conversion_failure (Error_to_string e)))
          (row_to_stored_secret row)).

Definition RusqliteStore_update (name : SecretName) (ciphertext nonce : bytes)
    (algorithm : CipherAlgorithm) : SM StoredSecret :=
  now ← utc_now;
  sql "update failed";;
  self ← read;
  let '(rows, n) := update_rows (SecretName_as_str name) ciphertext nonce
                      (CipherAlgorithm_as_str algorithm) (to_rfc3339 now) (secrets self) in
  write (mkRusqliteStore rows);;
  if (n =? 0)%nat then throw (SecretNotFound name) else
  sql "prepare failed";;
  sql "query failed";;
  row ← ok_or (select_by_name (SecretName_as_str name) rows)
          (Storage ("query failed: " +:+ query_returned_no_rows));
  lift (map_err (λ e, Storage ("query failed: " +:+ conversion_failure (Error_to_string e)))
          (row_to_stored_secret row)).

(** One [tx.execute] of [batch_update], on the transaction's copy of the table. *)
Definition batch_item (rows : list SecretRow) (item : BatchUpdateItem)
    : SM (list SecretRow) :=
  now ← utc_now;
  sql "batch update failed";;
  let '(rows', n) := update_rows (SecretName_as_str (batch_name item))
                       (batch_ciphertext item) (batch_nonce item)
                       (CipherAlgorithm_as_str (batch_algorithm item)) (to_rfc3339 now) rows in
  if (n =? 0)%nat then throw (SecretNotFound (batch_name item)) else mret rows'.

(** An early return drops the transaction, which rolls it back. *)
Definition RusqliteStore_batch_update (updates : list BatchUpdateItem) : SM unit :=
  sql "failed to begin transaction";;
  self ← read;
  rows ← fold_m batch_item (secrets self) updates;
  sql "transaction commit failed";;
  write (mkRusqliteStore rows).

Definition RusqliteStore_delete (name : SecretName) : SM unit :=
  sql "delete failed";;
  self ← read;
  let '(rows, n) := delete_rows (SecretName_as_str name) (secrets self) in
  write (mkRusqliteStore rows);;
  if (n =? 0)%nat then throw (SecretNotFound name) else mret tt.

Definition RusqliteStore_list : SM (list SecretMetadata) :=
  sql "prepare failed";;
  sql "list query failed";;
  self ← read;
  traverse (λ row,
    sql "row extraction failed";;
    lift (map_err (λ e, Storage ("row extraction failed: "
                                 +:+ conversion_failure (Error_to_string e)))
            (row_to_metadata row))) (secrets self).

#[global] Instance RusqliteStore_SecretStore : SecretStore RusqliteStore := {|
  store_put := RusqliteStore_put;
  store_get := RusqliteStore_get;
  store_update := RusqliteStore_update;
  store_batch_update := RusqliteStore_batch_update;
  store_delete := RusqliteStore_delete;
  store_list := RusqliteStore_list
|}.
End operations.

(** ** The contract *)

Section laws.
Context `{!Env, !Chrono, !UuidText, !Rusqlite, !ChronoLaws, !UuidTextLaws}.
Implicit Types (rows : list SecretRow) (s : RusqliteStore).

Definition decodes (r : SecretRow) (x : StoredSecret) : Prop :=
  row_to_stored_secret r = Ok x.

(** Names are unique and every row decodes, to a version that is not negative. *)
Definition table_ok rows : Prop :=
  NoDup (row_name <$> rows) ∧
  ∀ r, r ∈ rows → 1 ≤ row_version r ∧ ∃ x, decodes r x.
Definition rusqlite_inv s : Prop := table_ok (secrets s).

Definition row_entry (r : SecretRow) : option (SecretName * StoredSecret) :=
  match row_to_stored_secret r with
  | Ok x => Some (SecretName_new (row_name r), x)
  | _ => None
  end.
Definition table_view rows : gmap SecretName StoredSecret :=
  list_to_map (omap row_entry rows).
Definition rusqlite_view s : gmap SecretName StoredSecret := table_view (secrets s).

Lemma elem_of_row_entries rows n x :
  (n, x) ∈ omap row_entry rows ↔
  ∃ r, r ∈ rows ∧ SecretName_new (row_name r) = n ∧ decodes r x.
Proof.
  rewrite list_elem_of_omap. unfold row_entry, decodes.
  split; intros (r & Hr & Hx); exists r; (split; [done|]).
  - destruct (row_to_stored_secret r); naive_solver.
  - destruct Hx as [<- ->]. done.
Qed.

Lemma NoDup_row_entries rows :
  NoDup (row_name <$> rows) → NoDup (omap row_entry rows).*1.
Proof.
  induction rows as [|r rows IH]; [constructor|]. rewrite fmap_cons.
  intros [Hn Hnd]%NoDup_cons. simpl. unfold row_entry at 1.
  destruct (row_to_stored_secret r) eqn:Hr; [|by apply IH..].
  rewrite fmap_cons. constructor; [|by apply IH]. simpl.
  intros ([n x] & Hnx & Hin)%list_elem_of_fmap. simplify_eq/=.
  apply elem_of_row_entries in Hin as (r' & Hin & Heq & _). apply Hn.
  apply list_elem_of_fmap. exists r'. split; [congruence|done].
Qed.

Lemma table_view_lookup rows n x :
  NoDup (row_name <$> rows) →
  table_view rows !! n = Some x ↔
    ∃ r, r ∈ rows ∧ SecretName_new (row_name r) = n ∧ decodes r x.
Proof.
  intros Hnd. unfold table_view. rewrite <-elem_of_row_entries.
  symmetry. apply elem_of_list_to_map, NoDup_row_entries, Hnd.
Qed.

Lemma table_view_None rows n :
  table_ok rows →
  table_view rows !! n = None ↔ ∀ r, r ∈ rows → SecretName_new (row_name r) ≠ n.
Proof.
  intros [Hnd Hdec]. split.
  - intros Hno r Hr Hn. destruct (Hdec r Hr) as (_ & x & Hx).
    assert (table_view rows !! n = Some x) by (apply table_view_lookup; eauto).
    congruence.
  - intros Hall. destruct (table_view rows !! n) as [x|] eqn:Hx; [|done].
    apply table_view_lookup in Hx as (r & Hr & Hn & _); [|done].
    by destruct (Hall r Hr).
Qed.

Lemma decodes_name r x : decodes r x → stored_name x = SecretName_new (row_name r).
Proof.
  unfold decodes, row_to_stored_secret, row_bind. intros. repeat case_match; naive_solver.
Qed.

(** One row is what a name selects. *)
Lemma select_by_name_spec name rows :
  match select_by_name name rows with
  | Some r => r ∈ rows ∧ row_name r = name
  | None => ∀ r, r ∈ rows → row_name r ≠ name
  end.
Proof.
  unfold select_by_name. destruct (list_find _ rows) as [[i r]|] eqn:Hf; simpl.
  - apply list_find_Some in Hf as (Hi & Hn & _). split; [|done].
    by eapply list_elem_of_lookup_2.
  - apply list_find_None in Hf. rewrite Forall_forall in Hf. done.
Qed.

Lemma row_to_stored_secret_no_panic r : row_to_stored_secret r ≠ Panic.
Proof.
  unfold row_to_stored_secret, row_bind, parse_id, parse_timestamp, version_column.
  pose proof (uuid_parse_no_panic (row_id r)).
  pose proof (parse_rfc3339_no_panic (row_created_at r)).
  pose proof (parse_rfc3339_no_panic (row_updated_at r)).
  pose proof (parse_cipher_algorithm_no_panic (row_algorithm r)).
  pose proof (parse_secret_kind_no_panic (row_kind r)).
  repeat case_match; congruence.
Qed.

(** Metadata decodes when the secret does, and to its metadata. *)
Lemma row_to_metadata_spec r x :
  decodes r x → row_to_metadata r = Ok (SecretMetadata_from x).
Proof.
  unfold decodes, row_to_stored_secret, row_to_metadata, row_bind.
  intros Hx. repeat case_match; simplify_eq/=; done.
Qed.
Lemma row_to_metadata_no_panic r : row_to_metadata r ≠ Panic.
Proof.
  unfold row_to_metadata, row_bind, parse_id, parse_timestamp, version_column.
  pose proof (uuid_parse_no_panic (row_id r)).
  pose proof (parse_rfc3339_no_panic (row_created_at r)).
  pose proof (parse_rfc3339_no_panic (row_updated_at r)).
  pose proof (parse_secret_kind_no_panic (row_kind r)).
  repeat case_match; congruence.
Qed.

Lemma sql_wp {St} what (t : St) w :
  wp (sql what) t w (λ r t' w',
    t' = t ∧ world_le w w' ∧
    ((r = Ok tt) ∨ (∃ msg, r = Err (Storage msg)) ∧ ¬ Reliable)).
Proof.
  unfold sql. wp_steps; (split; [done|]); (split; [solve_world|]).
  - right. split; [eauto|]. intros Hrel. by rewrite Hrel in Hm.
  - by left.
Qed.

Lemma RusqliteStore_get_wp n s w :
  wp (RusqliteStore_get n) s w (λ r s' w', s' = s ∧ world_le w w' ∧ r ≠ Panic ∧
    (rusqlite_inv s →
     match r with
     | Ok x => rusqlite_view s !! n = Some x
     | Err e => (e = SecretNotFound n ∧ rusqlite_view s !! n = None) ∨ is_storage e
     | Panic => False
     end ∧ (Reliable → ∀ e, r = Err e → e = SecretNotFound n))).
Proof.
  unfold RusqliteStore_get. wp_step. wp_call sql_wp.
  intros r s1 w1 (-> & Hw1 & [->|[[msg ->] Hrel]]);
    [|do 3 (split; [done|]); intros _; split; [right; by eexists|done]].
  wp_step. wp_call sql_wp. intros r s2 w2 (-> & Hw2 & [->|[[msg ->] Hrel]]);
    [|split; [done|]; split; [solve_world|]; split; [done|]; intros _;
      split; [right; by eexists|done]].
  wp_step. wp_step. wp_step. destruct n as [n]. cbn [SecretName_as_str].
  pose proof (select_by_name_spec n (secrets s)) as Hsel.
  destruct (select_by_name n (secrets s)) as [row|]; cbn [ok_or]; wp_step.
  - destruct Hsel as [Hin Hn]. pose proof (row_to_stored_secret_no_panic row).
    destruct (row_to_stored_secret row) as [x|e|] eqn:Hrow; simpl map_err; [| |done];
      wp_step; (split; [done|]); (split; [solve_world|]); (split; [done|]).
    + intros [Hnd Hdec]. split; [|done]. apply table_view_lookup; [done|].
      exists row. split; [done|]. split; [by rewrite Hn|done].
    + intros [Hnd Hdec]. destruct (Hdec row Hin) as (_ & x & Hx).
      unfold decodes in Hx. congruence.
  - split; [done|]. split; [solve_world|]. split; [done|]. intros Hinv.
    split; [|naive_solver]. left. split; [done|].
    apply table_view_None; [done|]. intros r Hr. specialize (Hsel r Hr). congruence.
Qed.

(** Inserting a fresh row. *)
Lemma table_insert rows r x :
  table_ok rows → decodes r x → 1 ≤ row_version r →
  (∀ r', r' ∈ rows → row_name r' ≠ row_name r) →
  table_ok (rows ++ [r]) ∧
  table_view (rows ++ [r]) = <[SecretName_new (row_name r) := x]> (table_view rows).
Proof.
  intros [Hnd Hdec] Hx Hv Hfresh.
  assert (Hnd' : NoDup (row_name <$> rows ++ [r])).
  { rewrite fmap_app. apply NoDup_app. split; [done|]. split; [|apply NoDup_singleton].
    intros n Hin%list_elem_of_fmap. destruct Hin as (r' & -> & Hin).
    simpl. intros Heq%list_elem_of_singleton. by apply (Hfresh r'). }
  split.
  - split; [done|]. intros r' [Hr'|Hr'%list_elem_of_singleton]%elem_of_app; [eauto|subst; eauto].
  - apply map_eq. intros n. apply option_eq. intros y.
    rewrite table_view_lookup by done. rewrite lookup_insert_Some, table_view_lookup by done.
    setoid_rewrite elem_of_app. setoid_rewrite list_elem_of_singleton. split.
    + intros (r' & [Hin| ->] & <- & Hy).
      * right. split; [|eauto]. intros [= Heq]. by apply (Hfresh r').
      * left. unfold decodes in *. split; congruence.
    + intros [[<- ->]|[Hne (r' & Hin & Hn & Hy)]]; [by exists r; auto|by exists r'; auto].
Qed.

(** What a freshly inserted row decodes to. *)
Lemma decodes_new u n ct nonce alg kind desc now :
  decodes
    (mkSecretRow (uuid_to_string u) n ct nonce (CipherAlgorithm_as_str alg)
       (SecretKind_as_str kind) desc (to_rfc3339 now) (to_rfc3339 now) 1)
    (StoredSecret_erase (mkStoredSecret (SecretId_from_uuid u) (SecretName_new n) ct nonce
       alg kind desc now now 1)).
Proof.
  unfold decodes, row_to_stored_secret, parse_id, parse_timestamp.
  cbn [row_id row_name row_algorithm row_kind row_created_at row_updated_at row_version
       row_ciphertext row_nonce row_description].
  rewrite uuid_text_roundtrip, rfc3339_roundtrip. cbn [row_bind].
  rewrite parse_cipher_algorithm_as_str, parse_secret_kind_as_str. done.
Qed.

Lemma insert_row_spec r rows :
  match insert_row r rows with
  | Some rows' => rows' = rows ++ [r] ∧ ∀ r', r' ∈ rows → row_name r' ≠ row_name r
  | None => ∃ r', r' ∈ rows ∧ (row_id r' = row_id r ∨ row_name r' = row_name r)
  end.
Proof.
  unfold insert_row. case_decide as He.
  - apply Exists_exists in He. done.
  - split; [done|]. intros r' Hr' Hn. apply He, Exists_exists. eauto.
Qed.

Lemma RusqliteStore_put_wp p s w :
  wp (RusqliteStore_put p) s w (λ r s' w', world_le w w' ∧ r ≠ Panic ∧
    (rusqlite_inv s →
     rusqlite_inv s' ∧
     match r with
     | Ok x =>
       rusqlite_view s !! params_name p = None ∧
       rusqlite_view s' = <[params_name p := StoredSecret_erase x]> (rusqlite_view s) ∧
       stored_name x = params_name p ∧ stored_ciphertext x = params_ciphertext p ∧
       stored_nonce x = params_nonce p ∧ stored_algorithm x = params_algorithm p ∧
       stored_kind x = params_kind p ∧ stored_description x = params_description p ∧
       stored_version x = 1
     | Err e =>
       rusqlite_view s' = rusqlite_view s ∧
       (e = SecretAlreadyExists (params_name p) ∨ is_storage e)
     | Panic => False
     end ∧ (Reliable → ∀ e, r = Err e → e = SecretAlreadyExists (params_name p)))).
Proof.
  unfold RusqliteStore_put, SecretId_new. do 6 wp_step. wp_step. wp_call sql_wp.
  intros r s1 w1 (-> & Hw1 & [->|[[msg ->] Hrel]]);
    [|split; [solve_world|]; split; [done|]; intros Hinv; split; [done|];
      split; [split; [done|]; right; by eexists|done]].
  wp_step. wp_step. destruct p as [[n] ct nonce alg kind desc].
  cbn [params_name params_ciphertext params_nonce params_algorithm params_kind
       params_description SecretName_as_str SecretId_as_uuid].
  match goal with |- context [insert_row ?row _] => set (row0 := row) end.
  pose proof (insert_row_spec row0 (secrets s)) as Hins.
  destruct (insert_row row0 (secrets s)) as [rows|]; wp_steps;
    (split; [solve_world|]); (split; [done|]); intros Hinv.
  - destruct Hins as [-> Hfresh].
    destruct (table_insert (secrets s) row0 _ Hinv
      (decodes_new (now_v7 (w_uuid w)) n ct nonce alg kind desc
         (clock (w_clock (tick_uuid w))))) as [Hok Hview];
      [simpl; lia|done|]. split; [done|]. split; [|done].
    split; [|done]. apply table_view_None; [done|]. intros r Hr. specialize (Hfresh r Hr).
    simpl in Hfresh. congruence.
  - split; [done|]. split; [|naive_solver]. auto.
Qed.

(** *** Updating and deleting *)

Lemma update_row_name name ct nonce alg now r :
  row_name (update_row name ct nonce alg now r) = row_name r.
Proof. unfold update_row. by case_decide. Qed.

Lemma fmap_update_name name ct nonce alg now rows :
  row_name <$> (update_row name ct nonce alg now <$> rows) = row_name <$> rows.
Proof.
  induction rows as [|r rows IH]; [done|]. rewrite !fmap_cons, IH. f_equal.
  apply update_row_name.
Qed.

Lemma version_column_spec r v :
  1 ≤ row_version r → version_column r = Ok v → v = row_version r ∧ row_version r ≤ I32_MAX.
Proof.
  unfold version_column, I32_MIN, I32_MAX. intros Hv. case_match eqn:Hb; [|done].
  intros [= <-]. apply andb_true_iff in Hb as [Hlo%Z.leb_le Hhi%Z.leb_le].
  rewrite Z.mod_small by lia. done.
Qed.

Lemma decodes_version r x :
  1 ≤ row_version r → decodes r x → stored_version x = row_version r.
Proof.
  intros Hv. unfold decodes, row_to_stored_secret, row_bind. intros Hx.
  repeat case_match; simplify_eq/=. by eapply version_column_spec.
Qed.

(** A rotated row decodes to the rotated secret, as long as its version fits. *)
Lemma decodes_update name ct nonce alg now r x :
  1 ≤ row_version r → row_version r + 1 ≤ I32_MAX → decodes r x →
  decodes (update_row name ct nonce (CipherAlgorithm_as_str alg) (to_rfc3339 now) r)
    (if decide (row_name r = name) then StoredSecret_rotate ct nonce alg now x else x).
Proof.
  intros Hv Hmax Hx. pose proof (decodes_version r x Hv Hx) as Hver.
  unfold update_row. case_decide as Hn; [|done].
  unfold decodes, row_to_stored_secret, parse_timestamp in *.
  cbn [row_id row_name row_algorithm row_kind row_created_at row_updated_at row_version
       row_ciphertext row_nonce row_description] in *.
  unfold parse_id in *. cbn [row_id] in *.
  rewrite rfc3339_roundtrip, parse_cipher_algorithm_as_str.
  assert (Hvc : version_column (mkSecretRow (row_id r) (row_name r) ct nonce
    (CipherAlgorithm_as_str alg) (row_kind r) (row_description r) (row_created_at r)
    (to_rfc3339 now) (row_version r + 1)) = Ok (u32_add (stored_version x) 1)).
  { unfold version_column, I32_MIN, I32_MAX in *. cbn [row_version].
    rewrite (proj2 (Z.leb_le _ _)), (proj2 (Z.leb_le _ _)) by lia. simpl.
    unfold u32_add. by rewrite Hver. }
  rewrite Hvc. clear Hvc. unfold row_bind in *. repeat case_match; simplify_eq/=; done.
Qed.

Lemma table_update name ct nonce alg now rows :
  table_ok rows → (∀ r, r ∈ rows → row_version r + 1 ≤ I32_MAX) →
  let rows' := update_row name ct nonce (CipherAlgorithm_as_str alg) (to_rfc3339 now)
                 <$> rows in
  table_ok rows' ∧
  table_view rows' =
    alter (StoredSecret_rotate ct nonce alg now) (SecretName_new name) (table_view rows).
Proof.
  intros [Hnd Hdec] Hmax rows'.
  assert (Hnd' : NoDup (row_name <$> rows')) by (unfold rows'; by rewrite fmap_update_name).
  assert (Hr' : ∀ r' y, r' ∈ rows' ∧ decodes r' y ↔ ∃ r x, r ∈ rows ∧ decodes r x ∧
    r' = update_row name ct nonce (CipherAlgorithm_as_str alg) (to_rfc3339 now) r ∧
    y = if decide (row_name r = name) then StoredSecret_rotate ct nonce alg now x else x).
  { intros r' y. unfold rows'. rewrite list_elem_of_fmap. split.
    - intros [(r & -> & Hr) Hy]. destruct (Hdec r Hr) as (Hv & x & Hx). exists r, x.
      pose proof (decodes_update name ct nonce alg now r x Hv (Hmax r Hr) Hx) as Hd.
      unfold decodes in *. do 3 (split; [done|]). congruence.
    - intros (r & x & Hr & Hx & -> & ->). destruct (Hdec r Hr) as (Hv & _).
      split; [eauto|]. apply decodes_update; auto. }
  split.
  - split; [done|]. intros r' Hin. pose proof Hin as (r & Heq & Hr)%list_elem_of_fmap.
    destruct (Hdec r Hr) as (Hv & x & Hx). split.
    + subst r'. unfold update_row. case_decide; simpl; lia.
    + eexists. refine (proj2 (proj2 (Hr' r' _) _)). exists r, x. split; [done|].
      split; [done|]. split; [done|]. reflexivity.
  - apply map_eq. intros n. apply option_eq. intros y.
    rewrite table_view_lookup, lookup_alter_Some by done.
    setoid_rewrite (table_view_lookup rows); [|done..]. split.
    + intros (r' & Hin & <- & Hy). destruct (proj1 (Hr' r' y) (conj Hin Hy))
        as (r & x & Hr & Hx & -> & ->). rewrite update_row_name. case_decide as Hn.
      * left. split; [by rewrite Hn|]. exists x. split; [|done]. exists r. by rewrite Hn.
      * right. split; [congruence|]. exists r. done.
    + intros [(<- & x & (r & Hr & Hn & Hx) & ->)|(Hne & r & Hr & <- & Hx)].
      * eexists. destruct (proj2 (Hr' _ _) (ex_intro _ r (ex_intro _ x (conj Hr (conj Hx
          (conj eq_refl eq_refl)))))) as [Hin Hd].
        split; [exact Hin|]. rewrite update_row_name. split; [done|].
        rewrite decide_True in Hd by congruence. done.
      * eexists. destruct (proj2 (Hr' _ _) (ex_intro _ r (ex_intro _ y (conj Hr (conj Hx
          (conj eq_refl eq_refl)))))) as [Hin Hd].
        split; [exact Hin|]. rewrite update_row_name. split; [done|].
        rewrite decide_False in Hd by congruence. done.
Qed.

(** The number of rows a statement with [WHERE name = ..] touches. *)
Lemma matching_rows_zero name rows :
  length (filter (λ r, row_name r = name) rows) = O ↔
  ∀ r, r ∈ rows → row_name r ≠ name.
Proof.
  rewrite length_zero_iff_nil. split.
  - intros Hnil r Hr Hn. apply (not_elem_of_nil r). rewrite <-Hnil.
    by apply list_elem_of_filter.
  - intros Hall. destruct (filter _ rows) as [|r rs] eqn:Hf; [done|].
    assert (r ∈ filter (λ r, row_name r = name) rows) as [Hn Hr]%list_elem_of_filter
      by (rewrite Hf; set_solver).
    by destruct (Hall r Hr).
Qed.

Lemma table_delete name rows :
  table_ok rows →
  table_ok (filter (λ r, row_name r ≠ name) rows) ∧
  table_view (filter (λ r, row_name r ≠ name) rows) =
    delete (SecretName_new name) (table_view rows).
Proof.
  intros [Hnd Hdec].
  assert (Hnd' : NoDup (row_name <$> filter (λ r, row_name r ≠ name) rows)).
  { apply (sublist_NoDup _ (row_name <$> rows)); [done|]. clear.
    induction rows as [|r rows IH]; [constructor|]. rewrite filter_cons.
    case_decide; rewrite !fmap_cons; by constructor. }
  split.
  - split; [done|]. intros r [_ Hr]%list_elem_of_filter. auto.
  - apply map_eq. intros n. apply option_eq. intros x.
    rewrite lookup_delete_Some, !table_view_lookup by done.
    setoid_rewrite list_elem_of_filter. split.
    + intros (r & [Hne Hr] & <- & Hx). split; [congruence|eauto].
    + intros [Hne (r & Hr & <- & Hx)]. exists r. split; [split; [congruence|done]|done].
Qed.

Lemma RusqliteStore_delete_wp n s w :
  wp (RusqliteStore_delete n) s w (λ r s' w', world_le w w' ∧ r ≠ Panic ∧
    (rusqlite_inv s →
     rusqlite_inv s' ∧
     match r with
     | Ok _ => is_Some (rusqlite_view s !! n) ∧
               rusqlite_view s' = delete n (rusqlite_view s)
     | Err e =>
       rusqlite_view s' = rusqlite_view s ∧
       ((e = SecretNotFound n ∧ rusqlite_view s !! n = None) ∨ is_storage e)
     | Panic => False
     end ∧ (Reliable → ∀ e, r = Err e → e = SecretNotFound n))).
Proof.
  unfold RusqliteStore_delete. wp_step. wp_call sql_wp.
  intros r s1 w1 (-> & Hw1 & [->|[[msg ->] Hrel]]);
    [|split; [done|]; split; [done|]; intros Hinv; split; [done|];
      split; [split; [done|]; right; by eexists|done]].
  wp_step. wp_step. destruct n as [n]. unfold delete_rows. cbn [SecretName_as_str].
  wp_step. wp_step.
  destruct (Nat.eqb_spec (length (filter (λ r, row_name r = n) (secrets s))) 0) as [Hz|Hz];
    wp_step; (split; [solve_world|]); (split; [done|]); intros Hinv;
    destruct (table_delete n (secrets s) Hinv) as [Hok Hview]; (split; [done|]).
  - rewrite matching_rows_zero in Hz.
    assert (Hno : rusqlite_view s !! SecretName_new n = None).
    { apply table_view_None; [done|]. intros r Hr. specialize (Hz r Hr). congruence. }
    split; [|naive_solver]. split; [|by left]. unfold rusqlite_view. cbn [secrets].
    rewrite Hview. by apply delete_id.
  - split; [|done]. split; [|done]. rewrite matching_rows_zero in Hz.
    apply not_eq_None_Some. intros Hno. apply Hz. intros r Hr Hn.
    by apply (proj1 (table_view_None _ _ Hinv) Hno r Hr); rewrite Hn.
Qed.

(** Reading every row. *)
Lemma list_rows_wp rows s w :
  wp (traverse (λ row,
        sql "row extraction failed";;
        lift (map_err (λ e, Storage ("row extraction failed: "
                                     +:+ conversion_failure (Error_to_string e)))
                (row_to_metadata row))) rows) s w (λ r s' w',
    s' = s ∧ world_le w w' ∧ r ≠ Panic ∧
    (∀ e, r = Err e → is_storage e) ∧
    ((∀ r, r ∈ rows → ∃ x, decodes r x) →
     (∀ ms, r = Ok ms → Forall2 (λ r m, ∃ x, decodes r x ∧ m = SecretMetadata_from x) rows ms) ∧
     (Reliable → ∀ e, r ≠ Err e))).
Proof.
  revert w. induction rows as [|row rows IH]; intros w; cbn [traverse].
  { wp_step. split; [done|]. split; [reflexivity|]. do 2 (split; [done|]). intros _.
    split; [|done]. intros ms [= <-]. constructor. }
  wp_step. wp_step. wp_call sql_wp.
  intros r s1 w1 (-> & Hw1 & [->|[[msg ->] Hrel]]).
  2:{ split; [done|]. split; [solve_world|]. split; [done|].
      split; [intros e [= <-]; by eexists|]. intros _. split; [done|]. done. }
  pose proof (row_to_metadata_no_panic row) as Hnp.
  destruct (row_to_metadata row) as [m|e|] eqn:Hm; simpl map_err; [| |done]; wp_step.
  2:{ split; [done|]. split; [solve_world|]. split; [done|].
      split; [intros e' [= <-]; by eexists|]. intros Hdec.
      destruct (Hdec row) as [x Hx]; [apply list_elem_of_here|].
      rewrite (row_to_metadata_spec _ _ Hx) in Hm. done. }
  wp_step. wp_call IH. intros r s2 w2 (-> & Hw2 & Hr & He & Hdec).
  assert (Htl : (∀ r, r ∈ row :: rows → ∃ x, decodes r x) →
                (∀ r, r ∈ rows → ∃ x, decodes r x)).
  { intros Hall r' Hin. apply Hall. by apply list_elem_of_further. }
  destruct r as [ms|e|]; [| |done]; [wp_step|]; (split; [done|]);
    (split; [solve_world|]); (split; [done|]).
  - split; [done|]. intros Hall. destruct (Hdec (Htl Hall)) as [Hms Hrel].
    split; [|done]. intros ms' [= <-]. destruct (Hall row) as [x Hx]; [apply list_elem_of_here|].
    rewrite (row_to_metadata_spec _ _ Hx) in Hm. injection Hm as <-.
    constructor; [eauto|]. by apply Hms.
  - split; [done|]. intros Hall. destruct (Hdec (Htl Hall)) as [Hms Hrel]. done.
Qed.

Lemma listed_rows rows ms :
  table_ok rows →
  Forall2 (λ r m, ∃ x, decodes r x ∧ m = SecretMetadata_from x) rows ms →
  NoDup (meta_name <$> ms) ∧
  ∀ m, m ∈ ms ↔ ∃ x, table_view rows !! meta_name m = Some x ∧ m = SecretMetadata_from x.
Proof.
  intros [Hnd Hdec] Hall. split.
  - replace (meta_name <$> ms) with (SecretName_new <$> (row_name <$> rows)).
    { apply NoDup_fmap_2; [|done]. intros a b. congruence. }
    clear Hnd Hdec. induction Hall as [|r m rows ms (x & Hx & ->) _ IH]; [done|].
    rewrite !fmap_cons, IH. f_equal. simpl. by rewrite (decodes_name _ _ Hx).
  - intros m. setoid_rewrite (table_view_lookup rows); [|done]. split.
    + intros Hin. apply list_elem_of_lookup in Hin as [i Hi].
      destruct (Forall2_lookup_r _ _ _ _ _ Hall Hi) as (r & Hr & x & Hx & ->).
      exists x. split; [|done]. exists r. split; [by eapply list_elem_of_lookup_2|].
      split; [|done]. simpl. by rewrite (decodes_name _ _ Hx).
    + intros (x & (r & Hr & Hn & Hx) & ->). apply list_elem_of_lookup in Hr as [i Hi].
      destruct (Forall2_lookup_l _ _ _ _ _ Hall Hi) as (m & Hm & x' & Hx' & ->).
      unfold decodes in *. rewrite Hx in Hx'. injection Hx' as <-.
      by eapply list_elem_of_lookup_2.
Qed.

Lemma RusqliteStore_list_wp s w :
  wp RusqliteStore_list s w (λ r s' w', s' = s ∧ world_le w w' ∧ r ≠ Panic ∧
    (rusqlite_inv s →
     match r with
     | Ok ms => NoDup (meta_name <$> ms) ∧
         ∀ m, m ∈ ms ↔
           ∃ x, rusqlite_view s !! meta_name m = Some x ∧ m = SecretMetadata_from x
     | Err e => is_storage e
     | Panic => False
     end ∧ (Reliable → ∀ e, r ≠ Err e))).
Proof.
  unfold RusqliteStore_list. wp_step. wp_call sql_wp.
  intros r s1 w1 (-> & Hw1 & [->|[[msg ->] Hrel]]);
    [|do 3 (split; [done|]); intros _; split; [by eexists|done]].
  wp_step. wp_call sql_wp. intros r s2 w2 (-> & Hw2 & [->|[[msg ->] Hrel]]);
    [|split; [done|]; split; [solve_world|]; split; [done|]; intros _;
      split; [by eexists|done]].
  wp_step. wp_step. wp_call list_rows_wp. intros r s3 w3 (-> & Hw3 & Hr & He & Hdec).
  split; [done|]. split; [solve_world|]. split; [done|]. intros Hinv.
  destruct Hdec as [Hms Hrel]; [intros row Hin; by destruct (proj2 Hinv row Hin)|].
  split; [|done]. destruct r as [ms|e|]; [|by apply He|done].
  apply listed_rows; [done|]. by apply Hms.
Qed.

(** The transaction's copy after the items [taken] of a batch of [us]. *)
Definition batch_inv rows0 (us : list BatchUpdateItem) rows (rest : list BatchUpdateItem)
    : Prop :=
  table_ok rows0 →
  (∀ r, r ∈ rows0 → row_version r + Z.of_nat (length us) ≤ I32_MAX) →
  table_ok rows ∧
  (∀ r, r ∈ rows → row_version r + Z.of_nat (length rest) ≤ I32_MAX) ∧
  ∃ taken nows, us = taken ++ rest ∧ length nows = length taken ∧
    (∀ u, u ∈ taken → is_Some (table_view rows0 !! batch_name u)) ∧
    table_view rows = batch_apply (zip nows taken) (table_view rows0).

Lemma batch_apply_snoc us u m :
  batch_apply (us ++ [u]) m = batch_apply1 u (batch_apply us m).
Proof. unfold batch_apply. by rewrite foldl_app. Qed.

Lemma batch_apply_is_Some us m n : is_Some (batch_apply us m !! n) ↔ is_Some (m !! n).
Proof.
  revert m. induction us as [|u us IH]; intros m; [done|].
  change (batch_apply (u :: us) m) with (batch_apply us (batch_apply1 u m)). rewrite IH.
  unfold batch_apply1. by rewrite lookup_alter_is_Some.
Qed.

Lemma batch_inv_missing rows0 us rows u rest :
  batch_inv rows0 us rows (u :: rest) →
  length (filter (λ r, row_name r = SecretName_as_str (batch_name u)) rows) = O →
  table_ok rows0 →
  (∀ r, r ∈ rows0 → row_version r + Z.of_nat (length us) ≤ I32_MAX) →
  u ∈ us ∧ table_view rows0 !! batch_name u = None.
Proof.
  intros Hinv Hz Hok Hver. rewrite matching_rows_zero in Hz.
  destruct (Hinv Hok Hver) as (Hok' & _ & taken & nows & Hus & Hlen & _ & Hview).
  split; [rewrite Hus; set_solver|]. apply eq_None_not_Some.
  rewrite <-(batch_apply_is_Some (zip nows taken)), <-Hview. apply eq_None_not_Some.
  apply table_view_None; [done|]. intros r Hr. specialize (Hz r Hr).
  destruct (batch_name u). simpl in Hz. congruence.
Qed.

Lemma batch_inv_step rows0 us rows u rest now :
  batch_inv rows0 us rows (u :: rest) →
  length (filter (λ r, row_name r = SecretName_as_str (batch_name u)) rows) ≠ O →
  batch_inv rows0 us
    (update_row (SecretName_as_str (batch_name u)) (batch_ciphertext u) (batch_nonce u)
       (CipherAlgorithm_as_str (batch_algorithm u)) (to_rfc3339 now) <$> rows) rest.
Proof.
  destruct u as [[n] ct nonce alg].
  cbn [batch_name batch_ciphertext batch_nonce batch_algorithm SecretName_as_str].
  intros Hinv Hz Hok Hver.
  destruct (Hinv Hok Hver) as (Hok' & Hver' & taken & nows & Hus & Hlen & Htk & Hview).
  destruct (table_update n ct nonce alg now rows Hok') as [Hok2 Hview2].
  { intros r Hr. specialize (Hver' r Hr). cbn [length] in Hver'. lia. }
  split; [done|]. split.
  { intros r' (r & -> & Hr)%list_elem_of_fmap. specialize (Hver' r Hr).
    cbn [length] in Hver'. unfold update_row. case_decide; simpl; lia. }
  exists (taken ++ [mkBatchUpdateItem (SecretName_new n) ct nonce alg]), (nows ++ [now]).
  split; [by rewrite <-app_assoc|]. split; [by rewrite !length_app, Hlen|]. split.
  { intros u [Hu|Hu%list_elem_of_singleton]%elem_of_app; [by apply Htk|]. subst u.
    rewrite <-(batch_apply_is_Some (zip nows taken)), <-Hview.
    apply not_eq_None_Some. intros Hno. apply Hz, matching_rows_zero. intros r Hr Hn.
    by apply (proj1 (table_view_None _ _ Hok') Hno r Hr); rewrite Hn. }
  rewrite zip_with_app by done. cbn [zip_with]. rewrite batch_apply_snoc, <-Hview.
  exact Hview2.
Qed.

Lemma batch_inv_start rows us : batch_inv rows us rows us.
Proof.
  intros Hok Hver. split; [done|]. split; [done|].
  exists [], []. split; [done|]. split; [done|]. split; [set_solver|done].
Qed.

Lemma batch_item_wp rows0 us rows u rest s w :
  batch_inv rows0 us rows (u :: rest) →
  wp (batch_item rows u) s w (λ r s' w', s' = s ∧ world_le w w' ∧
    match r with
    | Ok rows' => batch_inv rows0 us rows' rest
    | Err e =>
      (is_storage e ∧ ¬ Reliable) ∨
      (e = SecretNotFound (batch_name u) ∧
       (table_ok rows0 →
        (∀ r, r ∈ rows0 → row_version r + Z.of_nat (length us) ≤ I32_MAX) →
        u ∈ us ∧ table_view rows0 !! batch_name u = None))
    | Panic => False
    end).
Proof.
  intros Hinv. unfold batch_item. wp_step. wp_step. wp_step. wp_call sql_wp.
  intros r s1 w1 (-> & Hw1 & [->|[[msg ->] Hrel]]);
    [|split; [done|]; split; [solve_world|]; left; split; [by eexists|done]].
  unfold update_rows.
  destruct (Nat.eqb_spec (length (filter (λ r, row_name r = SecretName_as_str (batch_name u)) rows)) 0)
    as [Hz|Hz]; wp_step; (split; [done|]); (split; [solve_world|]).
  - right. split; [done|]. by apply (batch_inv_missing _ _ rows _ rest).
  - by apply batch_inv_step.
Qed.

Lemma version_bound rows (us : list BatchUpdateItem) :
  table_ok rows →
  (∀ n x, table_view rows !! n = Some x →
     stored_version x + Z.of_nat (length us) ≤ VERSION_MAX) →
  ∀ r, r ∈ rows → row_version r + Z.of_nat (length us) ≤ I32_MAX.
Proof.
  intros [Hnd Hdec] Hmax r Hr. destruct (Hdec r Hr) as (Hv & x & Hx).
  rewrite <-(decodes_version r x Hv Hx). apply (Hmax (SecretName_new (row_name r))).
  apply table_view_lookup; eauto.
Qed.

Lemma RusqliteStore_batch_update_wp us s w :
  wp (RusqliteStore_batch_update us) s w (λ r s' w', world_le w w' ∧ r ≠ Panic ∧
    (rusqlite_inv s →
     (∀ n x, rusqlite_view s !! n = Some x →
        stored_version x + Z.of_nat (length us) ≤ VERSION_MAX) →
     rusqlite_inv s' ∧
     match r with
     | Ok _ =>
       (∀ u, u ∈ us → is_Some (rusqlite_view s !! batch_name u)) ∧
       ∃ nows, length nows = length us ∧
         rusqlite_view s' = batch_apply (zip nows us) (rusqlite_view s)
     | Err e =>
       rusqlite_view s' = rusqlite_view s ∧
       ((∃ u, u ∈ us ∧ e = SecretNotFound (batch_name u) ∧
              rusqlite_view s !! batch_name u = None) ∨ is_storage e)
     | Panic => False
     end ∧ (Reliable → ∀ e, r = Err e → ¬ is_storage e))).
Proof.
  unfold RusqliteStore_batch_update. wp_step. wp_call sql_wp.
  intros r s1 w1 (-> & Hw1 & [->|[[msg ->] Hrel]]);
    [|split; [done|]; split; [done|]; intros Hinv _; split; [done|];
      split; [split; [done|]; right; by eexists|done]].
  wp_step. wp_step. wp_step.
  apply wp_fold_m with (I := λ rows rest s' w', s' = s ∧ world_le w w' ∧
    batch_inv (secrets s) us rows rest).
  { split; [done|]. split; [done|]. apply batch_inv_start. }
  { intros rows u rest s2 w2 (-> & Hw2 & HI).
    wp_call (batch_item_wp (secrets s) us rows u rest s w2).
    intros r s3 w3 (-> & Hw3 & Hr). destruct r as [rows'|e|]; [|split; [solve_world|]|done].
    - split; [done|]. split; [solve_world|done].
    - split; [done|]. intros Hinv Hmax. split; [done|].
      destruct Hr as [[Hst Hrel]|[-> Hno]].
      + split; [split; [done|by right]|done].
      + destruct (Hno Hinv (version_bound (secrets s) us Hinv Hmax)) as [Hin Hnone].
        split; [split; [done|]; left; eauto|]. intros _ e [= <-] [msg Hmsg]. done. }
  intros rows s2 w2 (-> & Hw2 & HI). wp_step. wp_call sql_wp.
  intros r s3 w3 (-> & Hw3 & [->|[[msg ->] Hrel]]);
    [|split; [solve_world|]; split; [done|]; intros Hinv _; split; [done|];
      split; [split; [done|]; right; by eexists|done]].
  wp_step. split; [solve_world|]. split; [done|]. intros Hinv Hmax.
  destruct (HI Hinv (version_bound (secrets s) us Hinv Hmax))
    as (Hok & _ & taken & nows & Hus & Hlen & Htk & Hview).
  rewrite app_nil_r in Hus. subst taken. split; [done|]. split; [|done].
  split; [done|]. by exists nows.
Qed.

#[global] Instance RusqliteStore_SecretStoreLaws : SecretStoreLaws RusqliteStore.
Proof.
  refine {| store_inv := rusqlite_inv; store_view := rusqlite_view |};
    cbn [store_put store_get store_batch_update store_delete store_list
         RusqliteStore_SecretStore].
  - intros p s w. wp_call RusqliteStore_put_wp. naive_solver.
  - intros n s w. wp_call RusqliteStore_get_wp. naive_solver.
  - intros us s w. wp_call RusqliteStore_batch_update_wp. naive_solver.
  - intros n s w. wp_call RusqliteStore_delete_wp. naive_solver.
  - intros s w. wp_call RusqliteStore_list_wp. naive_solver.
  - intros s n x [Hnd Hdec] Hx. apply table_view_lookup in Hx as (r & Hr & <- & Hd); [|done].
    by apply decodes_name.
  - intros n s w Hinv. wp_call RusqliteStore_get_wp. naive_solver.
  - intros p s w Hinv. wp_call RusqliteStore_put_wp. naive_solver.
  - intros us s w Hinv Hmax. wp_call RusqliteStore_batch_update_wp. naive_solver.
  - intros n s w Hinv. wp_call RusqliteStore_delete_wp. naive_solver.
  - intros s w Hinv. wp_call RusqliteStore_list_wp. naive_solver.
Defined.
End laws.
