(* ===== verification/StoreRefinement.v ===== *)
(** Stores over a whole history: the SQLite store refines a map from names to secrets.

    [abs_step] is the abstract store, a map whose operations either take effect completely
    or leave it alone. Every run of the SQLite store on a well-formed table is a run of it. *)
From S2P Require Import Prelude Text Concrete Types Store RusqliteStore.

Local Open Scope string_scope.
Local Open Scope Z_scope.
Local Open Scope list_scope.

Inductive StoreOp :=
  | SPut (p : StoreSecretParams)
  | SGet (n : SecretName)
  | SUpdate (n : SecretName) (ct nonce : bytes) (alg : CipherAlgorithm)
  | SBatch (us : list BatchUpdateItem)
  | SDelete (n : SecretName)
  | SList.

Inductive StoreResult :=
  | RSecret (x : StoredSecret)
  | RUnit
  | RListed (ms : list SecretMetadata).

(** ** The abstract store *)

Abbreviation Contents := (gmap SecretName StoredSecret).

(** A new secret is what was asked to be stored, at version 1. *)
Definition stores (p : StoreSecretParams) (x : StoredSecret) : Prop :=
  stored_name x = params_name p ∧ stored_ciphertext x = params_ciphertext p ∧
  stored_nonce x = params_nonce p ∧ stored_algorithm x = params_algorithm p ∧
  stored_kind x = params_kind p ∧ stored_description x = params_description p ∧
  stored_version x = 1.

(** What an update may answer and leave: the new contents and the secret in them, an error
    with the old ones, or, when the secret cannot be read back, an error of the database
    with the new ones. *)
Definition abs_update (n : SecretName) (ct nonce : bytes) (alg : CipherAlgorithm)
    (m : Contents) (r : outcome Error StoredSecret) (m' : Contents) : Prop :=
  let updated := ∃ now, is_Some (m !! n) ∧ m' = alter (StoredSecret_rotate ct nonce alg now) n m in
  match r with
  | Ok x => updated ∧ m' !! n = Some x
  | Err e => (m' = m ∧ (is_storage e ∨ e = SecretNotFound n ∧ m !! n = None)) ∨
             (is_storage e ∧ updated)
  | Panic => False
  end.

(** What an operation may answer and leave. An error leaves the contents as they were, the
    reading back of an update apart, and is the operation's own or one of the database. *)
Definition abs_step (m : Contents) (op : StoreOp) (r : outcome Error StoreResult)
    (m' : Contents) : Prop :=
  match r with
  | Panic => False
  | Err e =>
    let unchanged (P : Prop) := m' = m ∧ (is_storage e ∨ P) in
    match op with
    | SPut p => unchanged (e = SecretAlreadyExists (params_name p))
    | SGet n | SDelete n => unchanged (e = SecretNotFound n ∧ m !! n = None)
    | SUpdate n ct nonce alg => abs_update n ct nonce alg m (Err e) m'
    | SBatch us => unchanged
        (∃ u, u ∈ us ∧ e = SecretNotFound (batch_name u) ∧ m !! batch_name u = None)
    | SList => unchanged False
    end
  | Ok res =>
    match op, res with
    | SPut p, RSecret x =>
        m !! params_name p = None ∧ stores p x ∧
        m' = <[params_name p := StoredSecret_erase x]> m
    | SGet n, RSecret x => m !! n = Some x ∧ m' = m
    | SUpdate n ct nonce alg, RSecret x => abs_update n ct nonce alg m (Ok x) m'
    | SBatch us, RUnit =>
        (∀ u, u ∈ us → is_Some (m !! batch_name u)) ∧
        ∃ nows, length nows = length us ∧ m' = batch_apply (zip nows us) m
    | SDelete n, RUnit => is_Some (m !! n) ∧ m' = delete n m
    | SList, RListed ms =>
        m' = m ∧ NoDup (meta_name <$> ms) ∧
        ∀ md, md ∈ ms ↔ ∃ x, m !! meta_name md = Some x ∧ md = SecretMetadata_from x
    | _, _ => False
    end
  end.

(** A history of operations, each taking a step of [R]. *)
Abbreviation StepRel := (Contents → StoreOp → outcome Error StoreResult → Contents → Prop).
Fixpoint history (R : StepRel) (m : Contents) (ops : list StoreOp)
    (rs : list (outcome Error StoreResult)) (m' : Contents) : Prop :=
  match ops, rs with
  | [], [] => m' = m
  | op :: ops', r :: rs' => ∃ m1, R m op r m1 ∧ history R m1 ops' rs' m'
  | _, _ => False
  end.
Definition abs_run : Contents → list StoreOp → list (outcome Error StoreResult) → Contents → Prop :=
  history abs_step.

(** ** Versions *)

(** The updates of a history. *)
Definition updates_of (op : StoreOp) : Z :=
  match op with SUpdate _ _ _ _ => 1 | SBatch us => Z.of_nat (length us) | _ => 0 end.
Definition total_updates (ops : list StoreOp) : Z := foldr (λ op n, updates_of op + n) 0 ops.

Definition versions_below (b : Z) (m : Contents) : Prop :=
  1 ≤ b ∧ ∀ n x, m !! n = Some x → 0 ≤ stored_version x ≤ b.

Lemma versions_below_batch b us m :
  versions_below b m → versions_below (b + Z.of_nat (length us)) (batch_apply us m).
Proof.
  revert b m. induction us as [|u us IH]; intros b m [Hb Hm].
  - split; [simpl; lia|]. intros n x Hx. specialize (Hm n x Hx). simpl. lia.
  - cbn [length batch_apply foldl]. replace (b + Z.of_nat (Datatypes.S (length us)))
      with (b + 1 + Z.of_nat (length us)) by lia.
    apply IH. split; [lia|]. intros n x Hx. unfold batch_apply1 in Hx.
    destruct (decide (n = batch_name u.2)) as [->|Hne].
    + rewrite lookup_alter_eq in Hx. apply fmap_Some in Hx as (y & Hy & ->).
      specialize (Hm _ _ Hy). cbn [StoredSecret_rotate stored_version]. unfold u32_add.
      pose proof (Z.mod_le (stored_version y + 1) 4294967296).
      pose proof (Z.mod_pos_bound (stored_version y + 1) 4294967296). lia.
    + rewrite lookup_alter_ne in Hx by done. specialize (Hm _ _ Hx). lia.
Qed.

Lemma total_updates_nonneg ops : 0 ≤ total_updates ops.
Proof. induction ops as [|[] ops IH]; simpl; lia. Qed.

Lemma versions_below_rotate b n ct nonce alg now m :
  versions_below b m →
  versions_below (b + 1) (alter (StoredSecret_rotate ct nonce alg now) n m).
Proof. exact (versions_below_batch b [(now, mkBatchUpdateItem n ct nonce alg)] m). Qed.

Lemma versions_below_mono b b' m : versions_below b m → b ≤ b' → versions_below b' m.
Proof. intros [Hb Hm] Hle. split; [lia|]. intros n x Hx. specialize (Hm n x Hx). lia. Qed.

Lemma abs_step_versions b m op r m' :
  abs_step m op r m' → versions_below b m → versions_below (b + updates_of op) m'.
Proof.
  intros Hstep Hb.
  assert (Hsame : m' = m → versions_below (b + updates_of op) m').
  { intros ->. apply (versions_below_mono b); [done|]. destruct op; simpl; lia. }
  destruct r as [res|e|]; [| |done].
  2: { destruct op; simpl in Hstep; try (by apply Hsame; destruct Hstep).
       destruct Hstep as [[Hm _]|(_ & now & _ & ->)]; [auto|]. by apply versions_below_rotate. }
  destruct op, res; simpl in Hstep; try done.
  - destruct Hb as [Hb Hm]. destruct Hstep as (_ & Hx & ->). split; [simpl; lia|]. intros n y Hy.
    destruct (decide (n = params_name p)) as [->|Hne].
    + rewrite lookup_insert_eq in Hy. injection Hy as <-.
      destruct Hx as (_ & _ & _ & _ & _ & _ & Hv). simpl. lia.
    + rewrite lookup_insert_ne in Hy by done. specialize (Hm n y Hy). simpl. lia.
  - by apply Hsame; destruct Hstep.
  - destruct Hstep as [(now & _ & ->) _]. by apply versions_below_rotate.
  - destruct Hstep as (_ & nows & Hl & ->). cbn [updates_of].
    replace (length us) with (length (zip nows us)) by (rewrite length_zip; lia).
    by apply versions_below_batch.
  - destruct Hb as [Hb Hm]. destruct Hstep as [_ ->]. split; [simpl; lia|]. intros k y Hy.
    apply lookup_delete_Some in Hy as [_ Hy]. specialize (Hm k y Hy). simpl. lia.
  - by apply Hsame; destruct Hstep.
Qed.

(** ** Histories of a store *)

Section histories.
Context {S : Type} `{!Env, !SecretStore S}.

Definition run_store_op (op : StoreOp) : M S Error StoreResult :=
  match op with
  | SPut p => x ← store_put p; mret (RSecret x)
  | SGet n => x ← store_get n; mret (RSecret x)
  | SUpdate n ct nonce alg => x ← store_update n ct nonce alg; mret (RSecret x)
  | SBatch us => store_batch_update us;; mret RUnit
  | SDelete n => store_delete n;; mret RUnit
  | SList => ms ← store_list; mret (RListed ms)
  end.

(** Run a history, keeping every answer. *)
Definition run_store_ops (ops : list StoreOp)
    : M S Error (list (outcome Error StoreResult)) :=
  traverse (λ op, try_ (run_store_op op)) ops.

(** Stores whose operations take the steps of [R], up to a reading [answer] of what they
    return, have histories of such steps. *)
Variables (R : StepRel) (inv : S → Prop) (view : S → Contents).
Hypothesis R_versions : ∀ b m op r m',
  R m op r m' → versions_below b m → versions_below (b + updates_of op) m'.
Variable answer : StoreOp → outcome Error StoreResult → outcome Error StoreResult.
Hypothesis step : ∀ op s w,
  inv s → versions_below (VERSION_MAX - updates_of op) (view s) →
  wp (run_store_op op) s w (λ r s' _,
    inv s' ∧ r ≠ Panic ∧ R (view s) op (answer op r) (view s')).

Lemma run_store_ops_wp ops s w :
  inv s → versions_below (VERSION_MAX - total_updates ops) (view s) →
  wp (run_store_ops ops) s w (λ r s' _, inv s' ∧
    ∃ rs, r = Ok rs ∧ length rs = length ops ∧
          history R (view s) ops (zip_with answer ops rs) (view s')).
Proof.
  unfold run_store_ops.
  revert s w. induction ops as [|op ops IH]; intros s w Hi Hv; cbn [traverse].
  { wp_step. split; [done|]. by exists []. }
  pose proof (total_updates_nonneg ops).
  wp_step. wp_step. eapply wp_mono; [apply step; [done|]|].
  { destruct Hv as [Hv1 Hv]. simpl in Hv1, Hv. split; [lia|]. intros n x Hx.
    specialize (Hv n x Hx). lia. }
  cbn beta. intros r s1 w1 (Hi1 & Hnp & Hstep).
  assert (Hv1 : versions_below (VERSION_MAX - total_updates ops) (view s1)).
  { replace (VERSION_MAX - total_updates ops) with
      (VERSION_MAX - total_updates (op :: ops) + updates_of op) by (simpl; lia).
    by eapply R_versions. }
  destruct r as [res|e|]; [| |done]; (wp_step; eapply wp_mono; [by apply IH|]; cbn beta;
    intros r s2 w2 (Hi2 & rs & -> & Hlen & Hrun); wp_step; split; [done|]; eexists;
    split; [done|]; split; [simpl; by rewrite Hlen|]; simpl; eauto).
Qed.
End histories.

Lemma zip_with_answers {A B} (xs : list A) (ys : list B) :
  length ys = length xs → zip_with (λ _ y, y) xs ys = ys.
Proof.
  revert ys. induction xs as [|x xs IH]; intros [|y ys] Hl; [done..|]. simpl in *. by rewrite IH by lia.
Qed.

(** ** The SQLite store *)

Section refinement.
Context `{!Env, !Chrono, !UuidText, !Rusqlite, !ChronoLaws, !UuidTextLaws}.
Implicit Types s : RusqliteStore.

Lemma selected_view rows n :
  table_ok rows →
  match select_by_name n rows with
  | Some row => ∃ x, row_to_stored_secret row = Ok x ∧ table_view rows !! SecretName_new n = Some x
  | None => table_view rows !! SecretName_new n = None
  end.
Proof.
  intros Hok. pose proof (select_by_name_spec n rows) as Hsel.
  destruct (select_by_name n rows) as [row|].
  - destruct Hsel as [Hin Hn], (proj2 Hok row Hin) as (_ & x & Hx). exists x. split; [done|].
    apply table_view_lookup; [apply Hok|]. exists row. split; [done|]. split; [by rewrite Hn|done].
  - apply table_view_None; [done|]. intros r Hr. specialize (Hsel r Hr). congruence.
Qed.

Lemma updated_table rows n ct nonce alg now :
  table_ok rows → (∀ n x, table_view rows !! n = Some x → stored_version x + 1 ≤ VERSION_MAX) →
  let rows' := update_row n ct nonce (CipherAlgorithm_as_str alg) (to_rfc3339 now) <$> rows in
  table_ok rows' ∧
  if (length (filter (λ r, row_name r = n) rows) =? 0)%nat
  then table_view rows' = table_view rows ∧ table_view rows !! SecretName_new n = None
  else is_Some (table_view rows !! SecretName_new n) ∧
       table_view rows' =
         alter (StoredSecret_rotate ct nonce alg now) (SecretName_new n) (table_view rows).
Proof.
  intros Hok Hmax rows'.
  destruct (table_update n ct nonce alg now rows Hok) as [Hok' Hview].
  { exact (version_bound rows [mkBatchUpdateItem (SecretName_new n) ct nonce alg] Hok Hmax). }
  split; [done|]. destruct (Nat.eqb_spec (length (filter (λ r, row_name r = n) rows)) 0)
    as [Hz|Hz]; rewrite matching_rows_zero in Hz.
  - assert (Hno : table_view rows !! SecretName_new n = None).
    { apply table_view_None; [done|]. intros r Hr. specialize (Hz r Hr). congruence. }
    split; [|done]. unfold rows'. rewrite Hview. by apply alter_id; intros x Hx; congruence.
  - split; [|exact Hview]. apply not_eq_None_Some. intros Hno. apply Hz. intros r Hr Hn.
    by apply (proj1 (table_view_None _ _ Hok) Hno r Hr); rewrite Hn.
Qed.

Lemma RusqliteStore_update_wp n ct nonce alg s w :
  rusqlite_inv s →
  (∀ n x, rusqlite_view s !! n = Some x → stored_version x + 1 ≤ VERSION_MAX) →
  wp (RusqliteStore_update n ct nonce alg) s w (λ r s' w', rusqlite_inv s' ∧
    abs_update n ct nonce alg (rusqlite_view s) r (rusqlite_view s')).
Proof.
  intros Hinv Hmax. unfold RusqliteStore_update. wp_step. wp_step. wp_step. wp_call sql_wp.
  intros r s1 w1 (-> & Hw1 & [->|[[msg ->] Hrel]]);
    [|split; [done|]; left; split; [done|]; left; by eexists].
  wp_step. wp_step. unfold update_rows. wp_step. destruct n as [n]. cbn [SecretName_as_str].
  destruct (updated_table (secrets s) n ct nonce alg (clock (w_clock w)) Hinv Hmax)
    as [Hok Hview].
  set (rows' := update_row n ct nonce _ _ <$> secrets s) in *.
  wp_step. change (table_view (secrets s)) with (rusqlite_view s) in Hview.
  change (table_view rows') with (rusqlite_view (mkRusqliteStore rows')) in Hview.
  destruct (length _ =? 0)%nat; destruct Hview as [Hv1 Hv2].
  { wp_step. split; [done|]. left. auto. }
  wp_step. wp_call sql_wp. intros r s2 w2 (-> & _ & [->|[[msg ->] _]]);
    [|split; [done|]; right; split; [by eexists|eauto]].
  wp_step. wp_call sql_wp. intros r s2 w3 (-> & _ & [->|[[msg ->] _]]);
    [|split; [done|]; right; split; [by eexists|eauto]].
  wp_step. pose proof (selected_view rows' n Hok) as Hsel.
  destruct (select_by_name n rows') as [row|]; cbn [ok_or]; wp_step.
  - destruct Hsel as (x & Hx & Hl). rewrite Hx. cbn [map_err]. wp_step. split; [done|].
    split; [by eauto|exact Hl].
  - split; [done|]. right. split; [by eexists|eauto].
Qed.

Ltac settle := cbn [abs_step]; unfold stores; tauto.

Lemma rusqlite_step op s w :
  rusqlite_inv s → versions_below (VERSION_MAX - updates_of op) (rusqlite_view s) →
  wp (run_store_op op) s w (λ r s' _,
    rusqlite_inv s' ∧ r ≠ Panic ∧ abs_step (rusqlite_view s) op r (rusqlite_view s')).
Proof.
  intros Hi [_ Hv]. destruct op as [p|n|n ct nonce alg|us|n|]; cbn [run_store_op]; wp_step.
  - wp_call RusqliteStore_put_wp. intros [x|e|] s' w' (_ & ? & Hr); [wp_step| |];
      destruct (Hr Hi) as (Hi' & Hx & _); (split; [done|]; split; [done|]); settle.
  - wp_call RusqliteStore_get_wp. intros [x|e|] s' w' (-> & _ & ? & Hr); [wp_step| |];
      destruct (Hr Hi) as [Hx _]; (split; [done|]; split; [done|]); settle.
  - eapply wp_mono; [apply RusqliteStore_update_wp; [done|]|].
    { intros n' x Hx. specialize (Hv n' x Hx). simpl in Hv. lia. }
    cbn beta. intros [x|e|] s' w' [Hi' Hx]; [wp_step| |done]; done.
  - wp_call RusqliteStore_batch_update_wp. intros [x|e|] s' w' (_ & ? & Hr); [wp_step| |];
      destruct (Hr Hi) as (Hi' & Hx & _);
      try (intros n x0 Hx0; specialize (Hv n x0 Hx0); simpl in Hv; lia);
      (split; [done|]; split; [done|]); settle.
  - wp_call RusqliteStore_delete_wp. intros [x|e|] s' w' (_ & ? & Hr); [wp_step| |];
      destruct (Hr Hi) as (Hi' & Hx & _); (split; [done|]; split; [done|]); settle.
  - wp_call RusqliteStore_list_wp. intros [x|e|] s' w' (-> & _ & ? & Hr); [wp_step| |];
      destruct (Hr Hi) as [Hx _]; (split; [done|]; split; [done|]); settle.
Qed.

(** C30. The SQLite store refines a map. Any history of operations on a well-formed table
    keeps it well-formed and is a history of the abstract store: a new secret is stored
    exactly as given and never replaces one, reads return what is there, a batch is
    applied completely or not at all, an update gives its secret the new value and version,
    a deletion removes exactly its secret, and an error never changes the contents, unless
    an update took effect and could not be read back; as long as the number of updates cannot push a version
    over the largest [i32]. *)
Theorem rusqlite_refines_map ops s w r s' w' :
  rusqlite_inv s → versions_below (VERSION_MAX - total_updates ops) (rusqlite_view s) →
  run_store_ops ops s w = (r, s', w') →
  rusqlite_inv s' ∧ ∃ rs, r = Ok rs ∧ abs_run (rusqlite_view s) ops rs (rusqlite_view s').
Proof.
  intros Hi Hv Hrun.
  destruct (wp_run _ _ _ _ _ _ _ (run_store_ops_wp _ _ _ abs_step_versions (λ _ r, r)
    rusqlite_step ops s w Hi Hv) Hrun) as (Hi' & rs & -> & Hlen & Habs).
  split; [done|]. exists rs. split; [done|]. by rewrite zip_with_answers in Habs.
Qed.
End refinement.

(** ** Witness *)

Definition demo_Rusqlite : Rusqlite := {|
  conversion_failure := λ s, s;
  integral_value_out_of_range := λ z, fmt_Z z;
  query_returned_no_rows := "no rows"
|}.

Lemma rusqlite_refines_map_witness :
  let ops := [SPut (mkStoreSecretParams (SecretName_new "k") [Byte.x01] [] Aes256Gcm Pat None);
              SBatch [mkBatchUpdateItem (SecretName_new "k") [Byte.x02] [] Aes256Gcm];
              SUpdate (SecretName_new "k") [Byte.x03] [] Aes256Gcm;
              SGet (SecretName_new "k"); SDelete (SecretName_new "k")] in
  ∃ rs s' w',
    @run_store_ops RusqliteStore (@RusqliteStore_SecretStore demo_Env demo_Chrono demo_UuidText
      demo_Rusqlite) ops (mkRusqliteStore [])
      demo_world = (Ok rs, s', w') ∧
    abs_run ∅ ops rs (@rusqlite_view demo_Chrono demo_UuidText demo_Rusqlite s').
Proof.
  intros ops.
  destruct (@run_store_ops RusqliteStore (@RusqliteStore_SecretStore demo_Env demo_Chrono demo_UuidText
      demo_Rusqlite) ops
    (mkRusqliteStore []) demo_world) as [[r s'] w'] eqn:Hrun.
  destruct (@rusqlite_refines_map demo_Env demo_Chrono demo_UuidText demo_Rusqlite
    demo_ChronoLaws demo_UuidTextLaws ops (mkRusqliteStore []) demo_world r s' w')
    as (_ & rs & -> & Habs).
  - split; [constructor|]. by intros row ?%not_elem_of_nil.
  - split; [vm_compute; discriminate|]. intros n x Hx. vm_compute in Hx. discriminate Hx.
  - exact Hrun.
  - exists rs, s', w'. split; [reflexivity|exact Habs].
Defined.
