(* ===== verification/PostgresStore.v ===== *)
(** The PostgreSQL secret store: [crates/zerolease-store-postgres/src/store.rs].

    The table has typed columns: timestamps are [TIMESTAMPTZ], which keeps microseconds, and
    the version is an [INTEGER], which refuses to overflow. Its rows correspond to rows of
    the SQLite table ([to_row]), so the lemmas about that table carry over. *)
From S2P Require Import Prelude Text Concrete Types Store RusqliteStore StoreRefinement.

Local Open Scope string_scope.
Local Open Scope Z_scope.
Local Open Scope list_scope.

Record PgRow := mkPgRow {
  pg_id : string;
  pg_name : string;
  pg_ciphertext : bytes;
  pg_nonce : bytes;
  pg_algorithm : string;
  pg_kind : string;
  pg_description : option string;
  pg_created_at : DateTime;
  pg_updated_at : DateTime;
  pg_version : Z
}.

Record PostgresStore := mkPostgresStore { pg_secrets : list PgRow }.

(** What a [TIMESTAMPTZ] column keeps of a bound [DateTime<Utc>], the text of the server's
    error for an [INTEGER] out of range, and whether the failing call number [i] fails only
    after the server has carried the statement out: the connection breaks and the answer is
    lost. *)
Class Postgres := {
  pg_timestamp : DateTime → DateTime;
  integer_out_of_range : string;
  answer_lost : nat → bool
}.
(** The resolution of a timestamp is one microsecond. *)
Class PostgresLaws `{!Postgres} := {
  pg_timestamp_exact : ∀ t, t `mod` 1000 = 0 → pg_timestamp t = t;
  pg_timestamp_near : ∀ t, Z.abs (pg_timestamp t - t) < 1000
}.

(** ** Rows to values *)

Section rows.
Context `{!UuidText}.

Definition pg_parse_id (row : PgRow) : outcome Error SecretId :=
  match uuid_parse_str (pg_id row) with
  | Ok uuid => Ok (SecretId_from_uuid uuid)
  | Err e => Err (Storage e)
  | Panic => Panic
  end.

Definition pg_row_to_stored_secret (row : PgRow) : outcome Error StoredSecret :=
  row_bind (pg_parse_id row) (λ id,
  row_bind (parse_cipher_algorithm (pg_algorithm row)) (λ algorithm,
  row_bind (parse_secret_kind (pg_kind row)) (λ kind,
  Ok (mkStoredSecret id (SecretName_new (pg_name row)) (pg_ciphertext row) (pg_nonce row)
        algorithm kind (pg_description row) (pg_created_at row) (pg_updated_at row)
        (pg_version row `mod` 4294967296))))).

Definition pg_row_to_metadata (row : PgRow) : outcome Error SecretMetadata :=
  row_bind (pg_parse_id row) (λ id,
  row_bind (parse_secret_kind (pg_kind row)) (λ kind,
  Ok (mkSecretMetadata id (SecretName_new (pg_name row)) kind (pg_description row)
        (pg_created_at row) (pg_updated_at row) (pg_version row `mod` 4294967296)))).
End rows.

(** ** SQL statements *)

Definition pg_select (name : string) (rows : list PgRow) : option PgRow :=
  snd <$> list_find (λ r, pg_name r = name) rows.

(** [INSERT]: a unique violation (23505) when the primary key or the name is taken. *)
Definition pg_insert (row : PgRow) (rows : list PgRow) : option (list PgRow) :=
  if decide (Exists (λ r, pg_id r = pg_id row ∨ pg_name r = pg_name row) rows)
  then None else Some (rows ++ [row]).

(** [UPDATE .. SET version = version + 1 WHERE name = $5]: the statement fails when a
    version leaves the range of the column. *)
Definition pg_update_row (name : string) (ct nonce : bytes) (alg : string) (now : DateTime)
    (r : PgRow) : PgRow :=
  if decide (pg_name r = name)
  then mkPgRow (pg_id r) (pg_name r) ct nonce alg (pg_kind r) (pg_description r)
         (pg_created_at r) now (pg_version r + 1)
  else r.
Definition pg_update (name : string) (ct nonce : bytes) (alg : string) (now : DateTime)
    (rows : list PgRow) : option (list PgRow * nat) :=
  if decide (Exists (λ r, pg_name r = name ∧ I32_MAX < pg_version r + 1) rows) then None
  else Some (pg_update_row name ct nonce alg now <$> rows,
             length (filter (λ r, pg_name r = name) rows)).

Definition pg_delete (name : string) (rows : list PgRow) : list PgRow * nat :=
  (filter (λ r, pg_name r ≠ name) rows, length (filter (λ r, pg_name r = name) rows)).

(** ** Operations *)

Section operations.
Context `{!Env, !UuidText, !Postgres}.
Abbreviation SM := (M PostgresStore Error).

(** [.map_err(|e| Error::Storage(e.to_string()))] *)
Definition pg_call {St} : M St Error unit :=
  fault ← db_call;
  match fault with Some e => throw (Storage e) | None => mret tt end.

(** [.execute(&self.pool)] of a statement outside of a transaction, and [tx.commit()]: [f] is
    what the server does to the table. A failing call may have had its effect. *)
Definition pg_execute {A} (what : string)
    (f : list PgRow → outcome Error (list PgRow * A)) : SM A := λ self w,
  match io_fault (w_io w), f (pg_secrets self) with
  | Some e, Ok (rows, _) =>
    (Err (Storage (what +:+ ": " +:+ e)),
     if answer_lost (w_io w) then mkPostgresStore rows else self, tick_io w)
  | Some e, _ => (Err (Storage (what +:+ ": " +:+ e)), self, tick_io w)
  | None, Ok (rows, a) => (Ok a, mkPostgresStore rows, tick_io w)
  | None, Err e => (Err e, self, tick_io w)
  | None, Panic => (Panic, self, tick_io w)
  end.

(** [PostgresStore::new]; [rows] is what the database holds. *)
Definition PostgresStore_new (rows : list PgRow) : M unit Error PostgresStore :=
  pg_call;; pg_call;; mret (mkPostgresStore rows).

Definition PostgresStore_put (params : StoreSecretParams) : SM StoredSecret :=
  id ← SecretId_new;
  now ← utc_now;
  let row := mkPgRow (uuid_to_string (SecretId_as_uuid id))
    (SecretName_as_str (params_name params)) (params_ciphertext params)
    (params_nonce params) (CipherAlgorithm_as_str (params_algorithm params))
    (SecretKind_as_str (params_kind params)) (params_description params)
    (pg_timestamp now) (pg_timestamp now) 1 in
  pg_execute "insert failed" (λ rows,
    match pg_insert row rows with
    | None => Err (SecretAlreadyExists (params_name params))
    | Some rows' => Ok (rows', tt)
    end);;
  mret (mkStoredSecret id (params_name params) (params_ciphertext params)
          (params_nonce params) (params_algorithm params) (params_kind params)
          (params_description params) now now 1).

Definition PostgresStore_get (name : SecretName) : SM StoredSecret :=
  sql "query failed";;
  self ← read;
  row ← ok_or (pg_select (SecretName_as_str name) (pg_secrets self)) (SecretNotFound name);
  lift (pg_row_to_stored_secret row).

Definition PostgresStore_update (name : SecretName) (ciphertext nonce : bytes)
    (algorithm : CipherAlgorithm) : SM StoredSecret :=
  now ← utc_now;
  n ← pg_execute "update failed" (λ rows,
    match pg_update (SecretName_as_str name) ciphertext nonce (CipherAlgorithm_as_str algorithm)
            (pg_timestamp now) rows with
    | None => Err (Storage ("update failed: " +:+ integer_out_of_range))
    | Some (rows', n) => Ok (rows', n)
    end);
  if (n =? 0)%nat then throw (SecretNotFound name) else PostgresStore_get name.

(** One statement of the transaction, on its own view of the table: whether or not a failing
    one was carried out, the transaction does not commit. *)
Definition pg_batch_item (rows : list PgRow) (item : BatchUpdateItem) : SM (list PgRow) :=
  now ← utc_now;
  sql "batch update failed";;
  match pg_update (SecretName_as_str (batch_name item)) (batch_ciphertext item)
          (batch_nonce item) (CipherAlgorithm_as_str (batch_algorithm item))
          (pg_timestamp now) rows with
  | None => throw (Storage ("batch update failed: " +:+ integer_out_of_range))
  | Some (rows', n) =>
    if (n =? 0)%nat then throw (SecretNotFound (batch_name item)) else mret rows'
  end.

(** An early return drops the transaction, which rolls it back. *)
Definition PostgresStore_batch_update (updates : list BatchUpdateItem) : SM unit :=
  sql "failed to begin transaction";;
  self ← read;
  rows ← fold_m pg_batch_item (pg_secrets self) updates;
  pg_execute "transaction commit failed" (λ _, Ok (rows, tt)).

Definition PostgresStore_delete (name : SecretName) : SM unit :=
  n ← pg_execute "delete failed" (λ rows, Ok (pg_delete (SecretName_as_str name) rows));
  if (n =? 0)%nat then throw (SecretNotFound name) else mret tt.

Definition PostgresStore_list : SM (list SecretMetadata) :=
  sql "list query failed";;
  self ← read;
  traverse (λ row, lift (pg_row_to_metadata row)) (pg_secrets self).

#[global] Instance PostgresStore_SecretStore : SecretStore PostgresStore := {|
  store_put := PostgresStore_put;
  store_get := PostgresStore_get;
  store_update := PostgresStore_update;
  store_batch_update := PostgresStore_batch_update;
  store_delete := PostgresStore_delete;
  store_list := PostgresStore_list
|}.
End operations.

(** ** The same table *)

Section correspondence.
Context `{!Chrono, !ChronoLaws, !UuidText, !UuidTextLaws}.
Implicit Types (rows : list PgRow).

(** Any texts will do for the errors of the other database. *)
#[local] Instance any_texts : Rusqlite := {|
  conversion_failure := λ s, s;
  integral_value_out_of_range := λ _, "";
  query_returned_no_rows := ""
|}.

Definition to_row (r : PgRow) : SecretRow :=
  mkSecretRow (pg_id r) (pg_name r) (pg_ciphertext r) (pg_nonce r) (pg_algorithm r) (pg_kind r)
    (pg_description r) (to_rfc3339 (pg_created_at r)) (to_rfc3339 (pg_updated_at r))
    (pg_version r).

Lemma pg_decode r :
  1 ≤ pg_version r ≤ I32_MAX → row_to_stored_secret (to_row r) = pg_row_to_stored_secret r.
Proof.
  intros Hv. unfold row_to_stored_secret, pg_row_to_stored_secret, parse_timestamp, version_column.
  cbn [row_id row_name row_algorithm row_kind row_created_at row_updated_at row_version to_row
       row_ciphertext row_nonce row_description].
  rewrite !rfc3339_roundtrip. cbn [row_bind]. unfold parse_id, pg_parse_id. cbn [row_id to_row].
  unfold I32_MIN, I32_MAX in *.
  rewrite (proj2 (Z.leb_le _ _)), (proj2 (Z.leb_le _ _)) by lia. simpl andb.
  unfold row_bind. by repeat case_match.
Qed.

Lemma pg_metadata r x :
  pg_row_to_stored_secret r = Ok x → pg_row_to_metadata r = Ok (SecretMetadata_from x).
Proof.
  unfold pg_row_to_stored_secret, pg_row_to_metadata, row_bind. intros Hx.
  repeat case_match; simplify_eq/=; done.
Qed.

Lemma select_to_row name rows :
  select_by_name name (to_row <$> rows) = to_row <$> pg_select name rows.
Proof.
  unfold select_by_name, pg_select. rewrite list_find_fmap.
  change ((λ r, row_name r = name) ∘ to_row) with (λ r, pg_name r = name).
  by destruct (list_find _ rows) as [[i r]|].
Qed.

Lemma insert_to_row row rows :
  insert_row (to_row row) (to_row <$> rows) = fmap (M := list) to_row <$> pg_insert row rows.
Proof.
  unfold insert_row, pg_insert.
  destruct (decide (Exists _ (to_row <$> rows))) as [He|He];
    destruct (decide (Exists _ rows)) as [He'|He']; try done.
  - by apply Exists_fmap in He.
  - by destruct He; apply Exists_fmap.
  - cbn [fmap option_fmap option_map]. by rewrite fmap_app.
Qed.

Lemma update_to_row name ct nonce alg now rows :
  to_row <$> (pg_update_row name ct nonce alg now <$> rows) =
  update_row name ct nonce alg (to_rfc3339 now) <$> (to_row <$> rows).
Proof.
  induction rows as [|r rows IH]; [done|]. rewrite !fmap_cons, IH. f_equal.
  unfold update_row, pg_update_row. simpl. by case_decide.
Qed.

Lemma remaining_to_row name rows :
  to_row <$> filter (λ r, pg_name r ≠ name) rows =
  filter (λ r, row_name r ≠ name) (to_row <$> rows).
Proof.
  induction rows as [|r rows IH]; [done|]. rewrite fmap_cons, !filter_cons. simpl.
  case_decide; [rewrite fmap_cons|]; by rewrite IH.
Qed.
Lemma matching_to_row name rows :
  length (filter (λ r, pg_name r = name) rows) =
  length (filter (λ r, row_name r = name) (to_row <$> rows)).
Proof.
  induction rows as [|r rows IH]; [done|]. rewrite fmap_cons, !filter_cons. simpl.
  case_decide; simpl; by rewrite IH.
Qed.

(** ** The contract *)

Definition pg_inv (s : PostgresStore) : Prop := table_ok (to_row <$> pg_secrets s).
Definition pg_view (s : PostgresStore) : gmap SecretName StoredSecret :=
  table_view (to_row <$> pg_secrets s).

Lemma pg_inv_row rows r :
  table_ok (to_row <$> rows) → r ∈ rows →
  1 ≤ pg_version r ≤ I32_MAX ∧ ∃ x, pg_row_to_stored_secret r = Ok x ∧ decodes (to_row r) x.
Proof.
  intros [_ Hdec] Hr. destruct (Hdec (to_row r)) as (Hv & x & Hx); [by apply list_elem_of_fmap_2|].
  cbn [row_version to_row] in Hv.
  assert (Hmax : pg_version r ≤ I32_MAX).
  { unfold decodes, row_to_stored_secret, row_bind in Hx. repeat case_match; simplify_eq.
    match goal with H : version_column _ = Ok _ |- _ =>
      by apply version_column_spec in H as [_ H] end. }
  split; [done|]. exists x. split; [|done]. rewrite <-pg_decode by done. done.
Qed.

Lemma pg_row_no_panic r : pg_row_to_stored_secret r ≠ Panic ∧ pg_row_to_metadata r ≠ Panic.
Proof.
  unfold pg_row_to_stored_secret, pg_row_to_metadata, row_bind, pg_parse_id.
  pose proof (uuid_parse_no_panic (pg_id r)).
  pose proof (parse_cipher_algorithm_no_panic (pg_algorithm r)).
  pose proof (parse_secret_kind_no_panic (pg_kind r)).
  split; repeat case_match; congruence.
Qed.

Lemma pg_row_error r : ∀ e, pg_row_to_stored_secret r = Err e ∨ pg_row_to_metadata r = Err e → is_storage e.
Proof.
  unfold pg_row_to_stored_secret, pg_row_to_metadata, row_bind, pg_parse_id, parse_cipher_algorithm,
    parse_secret_kind.
  intros e [He|He]; repeat case_match; simplify_eq; by eexists.
Qed.

Section laws.
Context `{!Env, !Postgres}.
Implicit Types (s : PostgresStore) (w : World).

Lemma PostgresStore_get_wp n s w :
  wp (PostgresStore_get n) s w (λ r s' w', s' = s ∧ world_le w w' ∧ r ≠ Panic ∧
    (pg_inv s →
     match r with
     | Ok x => pg_view s !! n = Some x
     | Err e => (e = SecretNotFound n ∧ pg_view s !! n = None) ∨ is_storage e
     | Panic => False
     end ∧ (Reliable → ∀ e, r = Err e → e = SecretNotFound n))).
Proof.
  unfold PostgresStore_get. wp_step. wp_call sql_wp.
  intros r s1 w1 (-> & Hw1 & [->|[[msg ->] Hrel]]);
    [|do 3 (split; [done|]); intros _; split; [right; by eexists|done]].
  wp_step. wp_step. wp_step. destruct n as [n]. cbn [SecretName_as_str].
  pose proof (select_by_name_spec n (to_row <$> pg_secrets s)) as Hsel.
  rewrite select_to_row in Hsel.
  destruct (pg_select n (pg_secrets s)) as [row|] eqn:Hpg; cbn [ok_or]; wp_step; simpl in Hsel.
  - destruct Hsel as [Hin Hn].
    assert (Hrow : row ∈ pg_secrets s).
    { unfold pg_select in Hpg. destruct (list_find _ _) as [[i r']|] eqn:Hf; simplify_eq/=.
      apply list_find_Some in Hf as (Hi & _). by eapply list_elem_of_lookup_2. }
    destruct (pg_row_no_panic row) as [Hnp _].
    destruct (pg_row_to_stored_secret row) as [x|e|] eqn:Hx; [| |done];
      wp_step; (split; [done|]); (split; [solve_world|]); (split; [done|]); intros Hinv;
      destruct (pg_inv_row _ _ Hinv Hrow) as (_ & x' & Hx' & Hd); [|congruence].
    split; [|done]. unfold pg_view. apply table_view_lookup; [apply Hinv|].
    exists (to_row row). split; [done|]. split; [cbn [row_name to_row]; by rewrite Hn|]. congruence.
  - split; [done|]. split; [solve_world|]. split; [done|]. intros Hinv.
    split; [|naive_solver]. left. split; [done|].
    apply table_view_None; [done|]. intros r Hr. specialize (Hsel r Hr). congruence.
Qed.

(** Some failing call of the run may have had its effect. *)
Definition lossy : Prop := ∃ i, answer_lost i = true.

Lemma pg_execute_wp {A} what (f : list PgRow → outcome Error (list PgRow * A)) s w :
  wp (pg_execute what f) s w (λ r s' w', world_le w w' ∧
    match f (pg_secrets s) with
    | Ok (rows, a) =>
      r = Ok a ∧ s' = mkPostgresStore rows ∨
      (∃ msg, r = Err (Storage msg)) ∧ ¬ Reliable ∧
        (s' = s ∨ lossy ∧ s' = mkPostgresStore rows)
    | Err e => s' = s ∧ (r = Err e ∨ (∃ msg, r = Err (Storage msg)) ∧ ¬ Reliable)
    | Panic => s' = s ∧ (r = Panic ∨ (∃ msg, r = Err (Storage msg)) ∧ ¬ Reliable)
    end).
Proof.
  unfold wp, pg_execute. destruct (io_fault (w_io w)) as [msg|] eqn:Hf.
  - assert (¬ Reliable) by (intros Hrel; by rewrite Hrel in Hf).
    destruct (f (pg_secrets s)) as [[rows a]|e|]; (split; [solve_world|]).
    + right. split; [eauto|]. split; [done|].
      destruct (answer_lost (w_io w)) eqn:Hl; [right|by left]. split; [by eexists|done].
    + split; [done|]. right. eauto.
    + split; [done|]. right. eauto.
  - destruct (f (pg_secrets s)) as [[rows a]|e|]; (split; [solve_world|]); auto.
Qed.

(** What a [put] stores: the secret with the timestamps the column keeps. *)
Definition pg_rounded (x : StoredSecret) : StoredSecret :=
  mkStoredSecret (stored_id x) (stored_name x) (stored_ciphertext x) (stored_nonce x)
    (stored_algorithm x) (stored_kind x) (stored_description x)
    (pg_timestamp (stored_created_at x)) (pg_timestamp (stored_updated_at x)) (stored_version x).

(** A successful [put] answering [x]. *)
Definition put_done p s (x : StoredSecret) s' : Prop :=
  pg_view s !! params_name p = None ∧
  pg_view s' = <[params_name p := StoredSecret_erase (pg_rounded x)]> (pg_view s) ∧
  stores p x ∧
  ∃ i, stored_created_at x = clock i ∧ stored_updated_at x = clock i.

Lemma PostgresStore_put_wp p s w :
  wp (PostgresStore_put p) s w (λ r s' w', world_le w w' ∧ r ≠ Panic ∧
    (pg_inv s → pg_inv s' ∧
     match r with
     | Ok x => put_done p s x s'
     | Err e =>
       (pg_view s' = pg_view s ∧ (e = SecretAlreadyExists (params_name p) ∨ is_storage e)) ∨
       (lossy ∧ is_storage e ∧ ∃ x, put_done p s x s')
     | Panic => False
     end ∧ (Reliable → ∀ e, r = Err e → e = SecretAlreadyExists (params_name p)))).
Proof.
  unfold PostgresStore_put, SecretId_new. do 6 wp_step. wp_step. wp_call pg_execute_wp.
  destruct p as [[n] ct nonce alg kind desc].
  cbn [params_name params_ciphertext params_nonce params_algorithm params_kind
       params_description SecretName_as_str SecretId_as_uuid].
  match goal with |- context [pg_insert ?row _] => set (row0 := row) end.
  pose proof (insert_row_spec (to_row row0) (to_row <$> pg_secrets s)) as Hins.
  rewrite insert_to_row in Hins. intros r s1 w1 [Hw1 Hr].
  set (p := mkStoreSecretParams _ _ _ _ _ _).
  set (x := mkStoredSecret _ _ _ _ _ _ _ _ _ _).
  destruct (pg_insert row0 (pg_secrets s)) as [rows|]; simpl in Hins.
  - assert (Hput : pg_inv s → pg_inv (mkPostgresStore rows) ∧
      put_done p s x (mkPostgresStore rows)).
    { intros Hinv. destruct Hins as [Hrows Hfresh].
      destruct (table_insert _ (to_row row0) _ Hinv (decodes_new (now_v7 (w_uuid w)) n ct nonce alg
        kind desc (pg_timestamp (clock (w_clock (tick_uuid w)))))) as [Hok Hview];
        [simpl; lia|exact Hfresh|]. unfold pg_inv, put_done, pg_view. cbn [pg_secrets].
      rewrite Hrows. split; [done|]. split.
      { apply table_view_None; [done|]. intros r0 Hr0. specialize (Hfresh r0 Hr0).
        simpl in Hfresh. simpl. congruence. }
      split; [exact Hview|]. split; [done|]. by eexists. }
    destruct Hr as [[-> ->]|([msg ->] & Hrel & Hs)].
    + wp_step. split; [solve_world|]. split; [done|]. intros Hinv. destruct (Hput Hinv).
      by split_and!.
    + split; [solve_world|]. split; [done|]. intros Hinv. destruct (Hput Hinv) as [Hok Hdone].
      destruct Hs as [->|[Hl ->]]; (split; [done|]); (split; [|done]).
      * left. split; [done|]. right. by eexists.
      * right. split; [done|]. split; [by eexists|]. by exists x.
  - destruct Hr as [-> [->|[[msg ->] Hrel]]]; (split; [solve_world|]); (split; [done|]);
      intros Hinv; (split; [done|]); (split; [left; split; [done|]|]).
    + by left.
    + naive_solver.
    + right. by eexists.
    + done.
Qed.

Definition delete_done n s s' : Prop :=
  is_Some (pg_view s !! n) ∧ pg_view s' = delete n (pg_view s).

Lemma PostgresStore_delete_wp n s w :
  wp (PostgresStore_delete n) s w (λ r s' w', world_le w w' ∧ r ≠ Panic ∧
    (pg_inv s → pg_inv s' ∧
     match r with
     | Ok _ => delete_done n s s'
     | Err e =>
       (pg_view s' = pg_view s ∧
        ((e = SecretNotFound n ∧ pg_view s !! n = None) ∨ is_storage e)) ∨
       (lossy ∧ is_storage e ∧ delete_done n s s')
     | Panic => False
     end ∧ (Reliable → ∀ e, r = Err e → e = SecretNotFound n))).
Proof.
  unfold PostgresStore_delete. wp_step. wp_call pg_execute_wp.
  intros r s1 w1 [Hw1 Hr]. destruct n as [n]. unfold pg_delete in Hr. cbn [SecretName_as_str] in Hr.
  rewrite matching_to_row in Hr.
  set (rows := filter (λ r, pg_name r ≠ n) (pg_secrets s)) in Hr.
  set (k := length (filter (λ r, row_name r = n) (to_row <$> pg_secrets s))) in Hr.
  assert (Hdel : pg_inv s → pg_inv (mkPostgresStore rows) ∧
    if (k =? 0)%nat
    then pg_view (mkPostgresStore rows) = pg_view s ∧ pg_view s !! SecretName_new n = None
    else delete_done (SecretName_new n) s (mkPostgresStore rows)).
  { intros Hinv. destruct (table_delete n _ Hinv) as [Hok Hview].
    rewrite <-remaining_to_row in Hok, Hview. split; [exact Hok|].
    destruct (Nat.eqb_spec k 0) as [Hz|Hz].
    - unfold k in Hz; rewrite matching_rows_zero in Hz.
      assert (Hno : pg_view s !! SecretName_new n = None).
      { apply table_view_None; [done|]. intros r0 Hr0. specialize (Hz r0 Hr0). congruence. }
      split; [|done]. unfold pg_view. cbn [pg_secrets]. unfold rows. rewrite Hview.
      by apply delete_id.
    - split; [|done]. apply not_eq_None_Some. intros Hno. apply Hz. unfold k. rewrite matching_rows_zero.
      intros r0 Hr0 Hn. by apply (proj1 (table_view_None _ _ Hinv) Hno r0 Hr0); rewrite Hn. }
  destruct Hr as [[-> ->]|([msg ->] & Hrel & Hs)].
  - destruct (k =? 0)%nat; wp_step; (split; [solve_world|]); (split; [done|]); intros Hinv;
      destruct (Hdel Hinv) as [Hok Hd]; (split; [done|]).
    + destruct Hd as [Hv Hno]. split; [|naive_solver]. left. auto.
    + done.
  - split; [solve_world|]. split; [done|]. intros Hinv. destruct (Hdel Hinv) as [Hok Hd].
    destruct Hs as [->|[Hl ->]]; (split; [done|]); (split; [|done]).
    + left. split; [done|]. right. by eexists.
    + destruct (k =? 0)%nat; [left|right].
      * split; [apply Hd|]. right. by eexists.
      * split; [done|]. split; [by eexists|done].
Qed.

Lemma pg_list_rows_wp rows s w :
  wp (traverse (λ row, lift (pg_row_to_metadata row)) rows) s w (λ r s' w',
    s' = s ∧ w' = w ∧ r ≠ Panic ∧ (∀ e, r = Err e → is_storage e) ∧
    ((∀ r, r ∈ rows → ∃ x, pg_row_to_stored_secret r = Ok x ∧ decodes (to_row r) x) →
     ∃ ms, r = Ok ms ∧ Forall2 (λ r m, ∃ x, decodes r x ∧ m = SecretMetadata_from x)
       (to_row <$> rows) ms)).
Proof.
  induction rows as [|row rows IH]; cbn [traverse].
  { wp_step. do 4 (split; [done|]). intros _. exists []. split; [done|]. constructor. }
  wp_step. destruct (pg_row_no_panic row) as [_ Hnp].
  destruct (pg_row_to_metadata row) as [m|e|] eqn:Hm; [| |done]; wp_step.
  2: { do 3 (split; [done|]). split; [intros e' [= <-]; eapply pg_row_error; by right|].
       intros Hall. destruct (Hall row) as (x & Hx & _); [apply list_elem_of_here|].
       by rewrite (pg_metadata _ _ Hx) in Hm. }
  wp_step. wp_call IH. intros r s2 w2 (-> & -> & Hr & He & Hall).
  assert (Htl : (∀ r, r ∈ row :: rows →
      ∃ x, pg_row_to_stored_secret r = Ok x ∧ decodes (to_row r) x) →
    ∃ ms, r = Ok ms ∧ Forall2 (λ r m, ∃ x, decodes r x ∧ m = SecretMetadata_from x)
      (to_row <$> rows) ms)
    by (intros Hd; apply Hall; intros r' Hr'; apply Hd; by apply list_elem_of_further).
  destruct r as [ms|e|]; [wp_step| |done]; do 3 (split; [done|]); (split; [done|]);
    intros Hd; destruct (Htl Hd) as (ms' & Heq & Hms); simplify_eq.
  destruct (Hd row) as (x & Hx & Hdx); [apply list_elem_of_here|].
  rewrite (pg_metadata _ _ Hx) in Hm. injection Hm as <-.
  eexists. split; [done|]. rewrite fmap_cons. constructor; [eauto|done].
Qed.

Lemma PostgresStore_list_wp s w :
  wp PostgresStore_list s w (λ r s' w', s' = s ∧ world_le w w' ∧ r ≠ Panic ∧
    (pg_inv s →
     match r with
     | Ok ms => NoDup (meta_name <$> ms) ∧
         ∀ m, m ∈ ms ↔ ∃ x, pg_view s !! meta_name m = Some x ∧ m = SecretMetadata_from x
     | Err e => is_storage e
     | Panic => False
     end ∧ (Reliable → ∀ e, r ≠ Err e))).
Proof.
  unfold PostgresStore_list. wp_step. wp_call sql_wp.
  intros r s1 w1 (-> & Hw1 & [->|[[msg ->] Hrel]]);
    [|do 3 (split; [done|]); intros _; split; [by eexists|done]].
  wp_step. wp_step. wp_call pg_list_rows_wp. intros r s3 w3 (-> & -> & Hr & He & Hdec).
  do 3 (split; [done|]). intros Hinv. destruct Hdec as (ms & -> & Hms);
    [intros row Hrow; by apply (pg_inv_row _ row Hinv Hrow)|].
  split; [|done]. by apply listed_rows.
Qed.

(** An update fails with the column's overflow only when a version has reached the limit. *)
Lemma pg_update_spec name ct nonce alg now rows :
  match pg_update name ct nonce alg now rows with
  | None => ∃ r, r ∈ to_row <$> rows ∧ I32_MAX < row_version r + 1
  | Some (rows', n) =>
    to_row <$> rows' = update_row name ct nonce alg (to_rfc3339 now) <$> (to_row <$> rows) ∧
    n = length (filter (λ r, row_name r = name) (to_row <$> rows)) ∧
    ∀ r, r ∈ to_row <$> rows → row_name r = name → row_version r + 1 ≤ I32_MAX
  end.
Proof.
  unfold pg_update. destruct (decide _) as [He|He].
  - apply Exists_exists in He as (r & Hr & _ & Hv). exists (to_row r).
    split; [by apply list_elem_of_fmap_2|done].
  - split; [apply update_to_row|]. split; [apply matching_to_row|].
    intros r' (r & -> & Hr)%list_elem_of_fmap Hn. apply Z.nlt_ge. intros Hv. apply He.
    apply Exists_exists. eauto.
Qed.

Lemma pg_batch_item_wp (rows0 : list SecretRow) us rows u rest s w :
  batch_inv rows0 us (to_row <$> rows) (u :: rest) →
  wp (pg_batch_item rows u) s w (λ r s' w', s' = s ∧ world_le w w' ∧
    match r with
    | Ok rows' => batch_inv rows0 us (to_row <$> rows') rest
    | Err e =>
      table_ok rows0 →
      (∀ r, r ∈ rows0 → row_version r + Z.of_nat (length us) ≤ I32_MAX) →
      (is_storage e ∧ ¬ Reliable) ∨
      (e = SecretNotFound (batch_name u) ∧
       u ∈ us ∧ table_view rows0 !! batch_name u = None)
    | Panic => False
    end).
Proof.
  intros Hinv. unfold pg_batch_item. wp_step. wp_step. wp_step. wp_call sql_wp.
  intros r s1 w1 (-> & Hw1 & [->|[[msg ->] Hrel]]);
    [|split; [done|]; split; [solve_world|]; left; split; [by eexists|done]].
  match goal with |- context [pg_update ?n ?ct ?no ?alg ?now rows] =>
    pose proof (pg_update_spec n ct no alg now rows) as Hup;
    destruct (pg_update n ct no alg now rows) as [[rows' k]|] end.
  - destruct Hup as (Hrows & -> & _).
    destruct (Nat.eqb_spec (length (filter (λ r, row_name r = SecretName_as_str (batch_name u))
      (to_row <$> rows))) 0) as [Hz|Hz]; wp_step; (split; [done|]); (split; [solve_world|]).
    + intros Hok Hver. right. split; [done|]. by apply (batch_inv_missing _ _ _ _ rest Hinv).
    + rewrite Hrows. by apply batch_inv_step.
  - wp_step. split; [done|]. split; [solve_world|]. intros Hok Hver.
    destruct Hup as (r & Hr & Hv), (Hinv Hok Hver) as (_ & Hver' & _).
    specialize (Hver' r Hr). cbn [length] in Hver'. lia.
Qed.

Definition batch_done us s s' : Prop :=
  (∀ u, u ∈ us → is_Some (pg_view s !! batch_name u)) ∧
  ∃ nows, length nows = length us ∧ pg_view s' = batch_apply (zip nows us) (pg_view s).

Lemma PostgresStore_batch_update_wp us s w :
  wp (PostgresStore_batch_update us) s w (λ r s' w', world_le w w' ∧ r ≠ Panic ∧
    (pg_inv s →
     (∀ n x, pg_view s !! n = Some x →
        stored_version x + Z.of_nat (length us) ≤ VERSION_MAX) →
     pg_inv s' ∧
     match r with
     | Ok _ => batch_done us s s'
     | Err e =>
       (pg_view s' = pg_view s ∧
        ((∃ u, u ∈ us ∧ e = SecretNotFound (batch_name u) ∧
               pg_view s !! batch_name u = None) ∨ is_storage e)) ∨
       (lossy ∧ is_storage e ∧ batch_done us s s')
     | Panic => False
     end ∧ (Reliable → ∀ e, r = Err e → ¬ is_storage e))).
Proof.
  unfold PostgresStore_batch_update. wp_step. wp_call sql_wp.
  intros r s1 w1 (-> & Hw1 & [->|[[msg ->] Hrel]]);
    [|do 2 (split; [done|]); intros Hinv _; split; [done|];
      split; [left; split; [done|]; right; by eexists|done]].
  wp_step. wp_step. wp_step.
  apply wp_fold_m with (I := λ rows rest s' w', s' = s ∧ world_le w w' ∧
    batch_inv (to_row <$> pg_secrets s) us (to_row <$> rows) rest).
  { split; [done|]. split; [done|]. apply batch_inv_start. }
  { intros rows u rest s2 w2 (-> & Hw2 & HI).
    wp_call (pg_batch_item_wp (to_row <$> pg_secrets s) us rows u rest s w2).
    intros r s3 w3 (-> & Hw3 & Hr). destruct r as [rows'|e|]; [|split; [solve_world|]|done].
    - split; [done|]. split; [solve_world|done].
    - split; [done|]. intros Hinv Hmax. split; [done|].
      destruct (Hr Hinv (version_bound _ us Hinv Hmax)) as [[Hst Hrel]|(-> & Hin & Hnone)].
      + split; [left; split; [done|by right]|done].
      + split; [left; split; [done|]; left; eauto|]. intros _ e [= <-] [msg Hmsg]. done. }
  intros rows s2 w2 (-> & Hw2 & HI).
  assert (Hdone : pg_inv s → (∀ n x, pg_view s !! n = Some x →
      stored_version x + Z.of_nat (length us) ≤ VERSION_MAX) →
    pg_inv (mkPostgresStore rows) ∧ batch_done us s (mkPostgresStore rows)).
  { intros Hinv Hmax. destruct (HI Hinv (version_bound _ us Hinv Hmax))
      as (Hok & _ & taken & nows & Hus & Hlen & Htk & Hview).
    rewrite app_nil_r in Hus. subst taken. split; [done|]. split; [done|]. by exists nows. }
  wp_call pg_execute_wp. intros r s3 w3 [Hw3 [[-> ->]|([msg ->] & Hrel & Hs)]];
    (split; [solve_world|]); (split; [done|]); intros Hinv Hmax;
    destruct (Hdone Hinv Hmax) as [Hok Hd].
  - by split_and!.
  - destruct Hs as [->|[Hl ->]]; (split; [done|]); (split; [|done]).
    + left. split; [done|]. right. by eexists.
    + right. split; [done|]. split; [by eexists|done].
Qed.

Lemma PostgresStore_update_wp n ct nonce alg s w :
  pg_inv s →
  (∀ n x, pg_view s !! n = Some x → stored_version x + 1 ≤ VERSION_MAX) →
  wp (PostgresStore_update n ct nonce alg) s w (λ r s' w', pg_inv s' ∧
    abs_update n ct nonce alg (pg_view s) r (pg_view s')).
Proof.
  intros Hinv Hmax. unfold PostgresStore_update. wp_step. wp_step. wp_step.
  wp_call pg_execute_wp. intros r s1 w1 [Hw1 Hr]. destruct n as [n].
  cbn [SecretName_as_str] in Hr. set (now := pg_timestamp (clock (w_clock w))) in Hr.
  pose proof (pg_update_spec n ct nonce (CipherAlgorithm_as_str alg) now (pg_secrets s)) as Hup.
  destruct (pg_update _ _ _ _ _ _) as [[rows' k]|].
  2: { destruct Hr as [-> [->|[[msg ->] _]]]; (split; [done|]); left; (split; [done|]);
       left; by eexists. }
  destruct Hup as (Hrows & -> & _).
  destruct (updated_table (to_row <$> pg_secrets s) n ct nonce alg now Hinv Hmax) as [Hok Hview].
  rewrite <-Hrows in Hok, Hview.
  change (table_view (to_row <$> pg_secrets s)) with (pg_view s) in Hview.
  change (table_view (to_row <$> rows')) with (pg_view (mkPostgresStore rows')) in Hview.
  destruct Hr as [[-> ->]|([msg ->] & _ & [->|[_ ->]])].
  - destruct (length _ =? 0)%nat; destruct Hview as [Hv1 Hv2].
    { wp_step. split; [done|]. left. auto. }
    wp_call PostgresStore_get_wp. intros r s2 w2 (-> & _ & Hp & Hr). split; [done|].
    destruct (Hr Hok) as [Hx _]. destruct r as [x|e|]; [| |done].
    + split; [by eauto|done].
    + destruct Hx as [[-> Hno]|Hst]; [|right; eauto]. exfalso.
      rewrite Hv2, lookup_alter_eq in Hno. destruct Hv1 as [x Hx]. by rewrite Hx in Hno.
  - split; [done|]. left. split; [done|]. left. by eexists.
  - split; [done|]. destruct (length _ =? 0)%nat; destruct Hview as [Hv1 Hv2]; [left|right].
    + split; [done|]. left. by eexists.
    + split; [by eexists|]. by exists now.
Qed.

(** ** Histories *)

(** The secret that [put] returns, with the timestamps that were stored. *)
Definition pg_answer (op : StoreOp) (r : outcome Error StoreResult) : outcome Error StoreResult :=
  match op, r with
  | SPut _, Ok (RSecret x) => Ok (RSecret (pg_rounded x))
  | _, _ => r
  end.

(** A step of the abstract store, or one whose answer was lost: the operation took effect as
    if it had succeeded, and reported an error of the database. *)
Definition remote_step (m : Contents) (op : StoreOp) (r : outcome Error StoreResult)
    (m' : Contents) : Prop :=
  abs_step m op r m' ∨
  lossy ∧ ∃ e x, r = Err e ∧ is_storage e ∧ abs_step m op (Ok x) m'.

Lemma remote_step_versions b m op r m' :
  remote_step m op r m' → versions_below b m → versions_below (b + updates_of op) m'.
Proof. intros [?|(_ & e & x & _ & _ & ?)]; by eapply abs_step_versions. Qed.

Ltac settle := left; cbn [abs_step pg_answer]; unfold put_done, delete_done, batch_done, stores in *;
  simpl in *; tauto.
Ltac lost x := right; split; [done|]; eexists _, x; split; [reflexivity|]; split; [done|];
  cbn [abs_step]; unfold put_done, delete_done, batch_done, stores in *; simpl in *; tauto.

Lemma pg_step op s w :
  pg_inv s → versions_below (VERSION_MAX - updates_of op) (pg_view s) →
  wp (run_store_op op) s w (λ r s' _,
    pg_inv s' ∧ r ≠ Panic ∧ remote_step (pg_view s) op (pg_answer op r) (pg_view s')).
Proof.
  intros Hi [_ Hv]. destruct op as [p|n|n ct nonce alg|us|n|]; cbn [run_store_op]; wp_step.
  - wp_call PostgresStore_put_wp. intros [x|e|] s' w' (_ & ? & Hr); [wp_step| |];
      destruct (Hr Hi) as (Hi' & Hx & _); (split; [done|]; split; [done|]); [settle| |done].
    destruct Hx as [Hx|(Hl & He & x & Hx)]; [settle|]. lost (RSecret (pg_rounded x)).
  - wp_call PostgresStore_get_wp. intros [x|e|] s' w' (-> & _ & ? & Hr); [wp_step| |];
      destruct (Hr Hi) as [Hx _]; (split; [done|]; split; [done|]); settle.
  - eapply wp_mono; [apply PostgresStore_update_wp; [done|]|].
    { intros n' x Hx. specialize (Hv n' x Hx). simpl in Hv. lia. }
    cbn beta. intros [x|e|] s' w' [Hi' Hx]; [wp_step| |done]; (split; [done|]; split; [done|]);
      by left.
  - wp_call PostgresStore_batch_update_wp. intros [x|e|] s' w' (_ & ? & Hr); [wp_step| |];
      destruct (Hr Hi) as (Hi' & Hx & _);
      try (intros n x0 Hx0; specialize (Hv n x0 Hx0); simpl in Hv; lia);
      (split; [done|]; split; [done|]); [settle| |done].
    destruct Hx as [Hx|(Hl & He & Hx)]; [settle|]. lost RUnit.
  - wp_call PostgresStore_delete_wp. intros [x|e|] s' w' (_ & ? & Hr); [wp_step| |];
      destruct (Hr Hi) as (Hi' & Hx & _); (split; [done|]; split; [done|]); [settle| |done].
    destruct Hx as [Hx|(Hl & He & Hx)]; [settle|]. lost RUnit.
  - wp_call PostgresStore_list_wp. intros [x|e|] s' w' (-> & _ & ? & Hr); [wp_step| |];
      destruct (Hr Hi) as [Hx _]; (split; [done|]; split; [done|]); settle.
Qed.

(** C31. The PostgreSQL store refines the map of the SQLite store, up to lost answers. Every
    history on a well-formed table keeps it well-formed, and each operation takes a step of
    the abstract map (as long as the updates cannot push a version over the largest [i32]),
    or, when the connection broke after the server had carried it out, reports an error of
    the database and leaves exactly the effect of a success; so an error other than one of
    the database never changes the contents, the failing read back of an update apart, and a
    batch is applied completely or not at all even then. The answers are those of the map,
    except that [put] returns the creation time before the database rounded it, off by less
    than a microsecond from what later reads return. *)
Theorem pg_refines_map `{!PostgresLaws} ops s w r s' w' :
  pg_inv s → versions_below (VERSION_MAX - total_updates ops) (pg_view s) →
  run_store_ops ops s w = (r, s', w') →
  pg_inv s' ∧
  (∃ rs, r = Ok rs ∧
     history remote_step (pg_view s) ops (zip_with pg_answer ops rs) (pg_view s')) ∧
  ∀ x, Z.abs (stored_created_at (pg_rounded x) - stored_created_at x) < 1000 ∧
       Z.abs (stored_updated_at (pg_rounded x) - stored_updated_at x) < 1000.
Proof.
  intros Hi Hv Hrun.
  destruct (wp_run _ _ _ _ _ _ _ (run_store_ops_wp _ _ _ remote_step_versions pg_answer pg_step
    ops s w Hi Hv) Hrun) as (Hi' & rs & -> & Hlen & Habs).
  split; [done|]. split; [by exists rs|]. intros x. split; apply pg_timestamp_near.
Qed.

(** With a clock that ticks in microseconds, and connections that only fail before the server
    has carried a statement out, the store keeps the contract that the vault relies on. *)
Class NoLostAnswers := no_lost_answer : ∀ i, answer_lost i = false.
Lemma not_lossy `{!NoLostAnswers} : ¬ lossy.
Proof. intros [i Hi]. by rewrite no_lost_answer in Hi. Qed.
Class MicroClock := clock_micro : ∀ i, clock i `mod` 1000 = 0.

Lemma pg_rounded_micro `{!PostgresLaws, !MicroClock} x i :
  stored_created_at x = clock i → stored_updated_at x = clock i → pg_rounded x = x.
Proof.
  intros Hc Hu. unfold pg_rounded. rewrite Hc, Hu, pg_timestamp_exact by apply clock_micro.
  rewrite <-Hc at 1. rewrite <-Hu. by destruct x.
Qed.

#[global] Instance PostgresStore_SecretStoreLaws `{!PostgresLaws, !MicroClock, !NoLostAnswers} :
  SecretStoreLaws PostgresStore.
Proof.
  pose proof not_lossy as Hnl.
  refine {| store_inv := pg_inv; store_view := pg_view |};
    cbn [store_put store_get store_batch_update store_delete store_list
         PostgresStore_SecretStore].
  - intros p s w. wp_call PostgresStore_put_wp. naive_solver.
  - intros n s w. wp_call PostgresStore_get_wp. naive_solver.
  - intros us s w. wp_call PostgresStore_batch_update_wp. naive_solver.
  - intros n s w. wp_call PostgresStore_delete_wp. naive_solver.
  - intros s w. wp_call PostgresStore_list_wp. naive_solver.
  - intros s n x [Hnd Hdec] Hx. apply table_view_lookup in Hx as (r & Hr & <- & Hd); [|done].
    by apply decodes_name.
  - intros n s w Hinv. wp_call PostgresStore_get_wp. naive_solver.
  - intros p s w Hinv. wp_call PostgresStore_put_wp. intros r s' w' (_ & _ & Hr).
    destruct (Hr Hinv) as (Hi & Hx & Hrel). split; [done|]. split; [|done].
    destruct r as [x|e|]; [|tauto|done]. destruct Hx as (Hno & Hview & Hst & i & Hc & Hu).
    rewrite (pg_rounded_micro x i Hc Hu) in Hview. unfold stores in Hst. tauto.
  - intros us s w Hinv Hmax. wp_call PostgresStore_batch_update_wp.
    intros r s' w' (_ & _ & Hr). destruct (Hr Hinv Hmax) as (Hi & Hx & Hrel).
    split; [done|]. split; [|done]. destruct r; [done|tauto|done].
  - intros n s w Hinv. wp_call PostgresStore_delete_wp.
    intros r s' w' (_ & _ & Hr). destruct (Hr Hinv) as (Hi & Hx & Hrel).
    split; [done|]. split; [|done]. destruct r; [done|tauto|done].
  - intros s w Hinv. wp_call PostgresStore_list_wp. naive_solver.
Defined.
End laws.
End correspondence.

(** ** Witness *)

Definition demo_Postgres : Postgres := {|
  pg_timestamp := λ t, t - t `mod` 1000;
  integer_out_of_range := "integer out of range";
  answer_lost := λ i, (i =? 4)%nat
|}.
Definition demo_PostgresLaws : @PostgresLaws demo_Postgres.
Proof.
  constructor; unfold pg_timestamp; cbn [demo_Postgres].
  - intros t ->. lia.
  - intros t. pose proof (Z.mod_pos_bound t 1000). lia.
Qed.

(** The fifth call fails after its effect: the answer to the deletion is lost. *)
Definition lost_answer_Env : Env := {|
  clock := clock (Env := demo_Env);
  now_v7 := now_v7 (Env := demo_Env);
  os_rng := os_rng (Env := demo_Env);
  io_fault := λ i, if decide (i = 4)%nat then Some "connection reset" else None
|}.

Lemma pg_refines_map_witness :
  let ops := [SPut (mkStoreSecretParams (SecretName_new "k") [Byte.x01] [] Aes256Gcm Pat None);
              SBatch [mkBatchUpdateItem (SecretName_new "k") [Byte.x02] [] Aes256Gcm];
              SDelete (SecretName_new "k")] in
  ∃ x s' w',
    @run_store_ops PostgresStore
      (@PostgresStore_SecretStore lost_answer_Env demo_UuidText demo_Postgres)
      ops (mkPostgresStore []) demo_world =
      (Ok [Ok (RSecret x); Ok RUnit; Err (Storage "delete failed: connection reset")], s', w') ∧
    pg_secrets s' = [] ∧
    history (@remote_step demo_Postgres) ∅ ops (zip_with (@pg_answer demo_Postgres) ops
        [Ok (RSecret x); Ok RUnit; Err (Storage "delete failed: connection reset")])
      (@pg_view demo_Chrono demo_UuidText s').
Proof.
  intros ops.
  destruct (@run_store_ops PostgresStore
    (@PostgresStore_SecretStore lost_answer_Env demo_UuidText demo_Postgres) ops
    (mkPostgresStore []) demo_world) as [[r s'] w'] eqn:Hrun.
  pose proof Hrun as Hcalc. vm_compute in Hcalc. injection Hcalc as Hr Hs _.
  destruct (@pg_refines_map demo_Chrono demo_ChronoLaws demo_UuidText demo_UuidTextLaws
    lost_answer_Env demo_Postgres demo_PostgresLaws ops (mkPostgresStore []) demo_world r s' w')
    as (_ & (rs & -> & Habs) & _).
  - split; [constructor|]. by intros row ?%not_elem_of_nil.
  - split; [vm_compute; discriminate|]. intros n x Hx. vm_compute in Hx. discriminate Hx.
  - exact Hrun.
  - injection Hr as <-. eexists _, s', w'. split; [reflexivity|].
    split; [by rewrite <-Hs|exact Habs].
Defined.
