(* ===== verification/AwsStore.v ===== *)
(** The AWS Secrets Manager store: [crates/zerolease-store-aws-sm/src/store.rs].

    Secrets Manager is a remote service and a parameter of the model ([SecretsManager]);
    what its documentation promises is stated over the secrets it holds
    ([SecretsManagerLaws]). An error of the service itself changes nothing; when the answer
    is lost on the way (a time-out, a dropped connection), the call may have taken effect. *)
From S2P Require Import Prelude Text Concrete Types Store.

Local Open Scope string_scope.
Local Open Scope Z_scope.
Local Open Scope list_scope.

(** ** The service *)

Record Tag := mkTag { tag_key : option string; tag_value : option string }.

(** What the store distinguishes of an [SdkError]; a [LostAnswer] is every error that is not
    an answer of the service. *)
Inductive SdkError :=
  | ResourceExists
  | ResourceNotFound
  | InvalidRequest (message : option string)
  | OtherService (text : string)
  | LostAnswer (text : string).

(** An entry of a page of [ListSecrets]; dates are seconds and nanoseconds. *)
Record SecretListEntry := mkSecretListEntry {
  entry_name : option string;
  entry_tags : list Tag;
  entry_description : option string;
  entry_created_date : option (Z * Z);
  entry_last_changed_date : option (Z * Z)
}.

(** The calls. [sm_pages] bounds the number of pages of a listing. *)
Class SecretsManager (X : Type) := {
  sm_create_secret : string → string → string → list Tag → M X SdkError unit;
  sm_get_secret_value : string → M X SdkError (option string);
  sm_put_secret_value : string → string → M X SdkError unit;
  sm_tag_resource : string → list Tag → M X SdkError unit;
  sm_describe_secret : string → M X SdkError unit;
  sm_delete_secret : string → bool → M X SdkError unit;
  sm_list_secrets : string → option string →
    M X SdkError (list SecretListEntry * option string);
  sm_pages : nat;
  sdk_debug : SdkError → string
}.

(** [DateTime::from_timestamp(secs, nanos)] *)
Class Timestamp := from_timestamp : Z → Z → option DateTime.

(** ** Tags and payloads *)

Inductive MetadataTag := Kind | Version | UpdatedAt | CreatedAt | Description.

Definition MetadataTag_key (self : MetadataTag) : string :=
  match self with
  | Kind => "zerolease:kind"
  | Version => "zerolease:version"
  | UpdatedAt => "zerolease:updated_at"
  | CreatedAt => "zerolease:created_at"
  | Description => "zerolease:description"
  end.

Definition MetadataTag_find (self : MetadataTag) (tags : list Tag) : option string :=
  t ← snd <$> list_find (λ t, tag_key t = Some (MetadataTag_key self)) tags;
  tag_value t.

Record SecretPayload := mkSecretPayload {
  payload_id : string;
  payload_name : string;
  payload_ciphertext : bytes;
  payload_nonce : bytes;
  payload_algorithm : string;
  payload_kind : string;
  payload_description : option string;
  payload_created_at : DateTime;
  payload_updated_at : DateTime;
  payload_version : Z
}.

Section payload.
Context `{!UuidText, !Chrono}.

Definition SecretPayload_from_stored (s : StoredSecret) : SecretPayload :=
  mkSecretPayload (uuid_to_string (SecretId_as_uuid (stored_id s)))
    (SecretName_as_str (stored_name s)) (stored_ciphertext s) (stored_nonce s)
    (CipherAlgorithm_as_str (stored_algorithm s)) (SecretKind_as_str (stored_kind s))
    (stored_description s) (stored_created_at s) (stored_updated_at s) (stored_version s).

Definition into_stored_secret (self : SecretPayload) : outcome Error StoredSecret :=
  match map_err (λ e, Storage ("invalid UUID: " +:+ e)) (uuid_parse_str (payload_id self)) with
  | Ok id_uuid =>
    match parse_cipher_algorithm (payload_algorithm self) with
    | Ok algorithm =>
      match parse_secret_kind (payload_kind self) with
      | Ok kind =>
        Ok (mkStoredSecret (SecretId_from_uuid id_uuid) (SecretName_new (payload_name self))
              (payload_ciphertext self) (payload_nonce self) algorithm kind
              (payload_description self) (payload_created_at self) (payload_updated_at self)
              (payload_version self))
      | Err e => Err e
      | Panic => Panic
      end
    | Err e => Err e
    | Panic => Panic
    end
  | Err e => Err e
  | Panic => Panic
  end.

Definition metadata_tags (self : SecretPayload) : list Tag :=
  let tag := λ (key : MetadataTag) value, mkTag (Some (MetadataTag_key key)) (Some value) in
  [tag Kind (payload_kind self);
   tag Version (fmt_Z (payload_version self));
   tag UpdatedAt (to_rfc3339 (payload_updated_at self));
   tag CreatedAt (to_rfc3339 (payload_created_at self))]
  ++ match payload_description self with
     | Some desc => [tag Description desc]
     | None => []
     end.
End payload.

(** ** The store *)

Record AwsSecretsManagerStore (X : Type) := mkAwsStore {
  aws_client : X;
  aws_prefix : string;
  aws_force_delete : bool
}.
Arguments mkAwsStore {X}.
Arguments aws_client {X}.
Arguments aws_prefix {X}.
Arguments aws_force_delete {X}.

Definition AwsStore_new {X} (client : X) (prefix : string) : AwsSecretsManagerStore X :=
  mkAwsStore client prefix false.
Definition with_force_delete {X} (force : bool) (self : AwsSecretsManagerStore X)
    : AwsSecretsManagerStore X :=
  mkAwsStore (aws_client self) (aws_prefix self) force.

Definition sm_name (prefix : string) (name : SecretName) : string :=
  prefix +:+ "/" +:+ SecretName_as_str name.
Definition sm_strip_prefix (prefix sm_name : string) : option string :=
  strip_prefix prefix sm_name ≫= strip_prefix "/".

Section store.
Context {X : Type} `{!Env, !UuidText, !Chrono, !SecretsManager X, !Timestamp}.
Context `{!Serde SecretPayload}.
Abbreviation AwsStore := (AwsSecretsManagerStore X).
Abbreviation SM := (M AwsStore Error).

Definition serialize_payload (payload : SecretPayload) : SM string :=
  lift (map_err (λ e, Storage ("payload serialization failed: " +:+ e)) (to_json payload)).
Definition deserialize_payload (s : string) : SM SecretPayload :=
  lift (map_err (λ e, Storage ("payload deserialization failed: " +:+ e)) (from_json s)).

(** A call to the service; its outcome is a value. *)
Definition aws_send {A} (m : M X SdkError A) : SM (outcome SdkError A) :=
  try_ (zoom aws_client (λ c s, mkAwsStore c (aws_prefix s) (aws_force_delete s)) m).
Definition aws_error (what : string) (err : SdkError) : Error :=
  Storage ("Secrets Manager " +:+ what +:+ " failed: " +:+ sdk_debug err).

Definition AwsStore_put (params : StoreSecretParams) : SM StoredSecret :=
  self ← read;
  let sm_name := sm_name (aws_prefix self) (params_name params) in
  id ← SecretId_new;
  now ← utc_now;
  let stored := mkStoredSecret id (params_name params) (params_ciphertext params)
    (params_nonce params) (params_algorithm params) (params_kind params)
    (params_description params) now now 1 in
  let payload := SecretPayload_from_stored stored in
  payload_str ← serialize_payload payload;
  let tags := metadata_tags payload in
  result ← aws_send (sm_create_secret sm_name payload_str
    ("zerolease secret: " +:+ SecretName_as_str (params_name params)) tags);
  match result with
  | Ok _ => mret stored
  | Err ResourceExists => throw (SecretAlreadyExists (params_name params))
  | Err err => throw (aws_error "create" err)
  | Panic => panic
  end.

Definition AwsStore_get (name : SecretName) : SM StoredSecret :=
  self ← read;
  let sm_name := sm_name (aws_prefix self) name in
  result ← aws_send (sm_get_secret_value sm_name);
  match result with
  | Ok output =>
    secret_string ← ok_or output
      (Storage "secret has no string value (binary secrets not supported)");
    payload ← deserialize_payload secret_string;
    lift (into_stored_secret payload)
  | Err ResourceNotFound => throw (SecretNotFound name)
  | Err (InvalidRequest (Some m)) =>
    if contains "marked for deletion" m then throw (SecretNotFound name)
    else throw (aws_error "get" (InvalidRequest (Some m)))
  | Err err => throw (aws_error "get" err)
  | Panic => panic
  end.

Definition AwsStore_update (name : SecretName) (ciphertext nonce : bytes)
    (algorithm : CipherAlgorithm) : SM StoredSecret :=
  existing ← AwsStore_get name;
  now ← utc_now;
  let updated := mkStoredSecret (stored_id existing) (stored_name existing) ciphertext nonce
    algorithm (stored_kind existing) (stored_description existing) (stored_created_at existing)
    now (u32_add (stored_version existing) 1) in
  let payload := SecretPayload_from_stored updated in
  payload_str ← serialize_payload payload;
  self ← read;
  let sm_name := sm_name (aws_prefix self) name in
  result ← aws_send (sm_put_secret_value sm_name payload_str);
  match result with
  | Ok _ => mret tt
  | Err ResourceNotFound => throw (SecretNotFound name)
  | Err err => throw (aws_error "update" err)
  | Panic => panic
  end;;
  aws_send (sm_tag_resource sm_name (metadata_tags payload));;
  mret updated.

Definition AwsStore_batch_update (updates : list BatchUpdateItem) : SM unit :=
  for_each (λ item,
    AwsStore_update (batch_name item) (batch_ciphertext item) (batch_nonce item)
      (batch_algorithm item);;
    mret tt) updates.

Definition AwsStore_delete (name : SecretName) : SM unit :=
  self ← read;
  let sm_name := sm_name (aws_prefix self) name in
  described ← aws_send (sm_describe_secret sm_name);
  match described with
  | Ok _ => mret tt
  | Err ResourceNotFound => throw (SecretNotFound name)
  | Err err => throw (aws_error "describe" err)
  | Panic => panic
  end;;
  deleted ← aws_send (sm_delete_secret sm_name (aws_force_delete self));
  match deleted with
  | Ok _ => mret tt
  | Err err => throw (aws_error "delete" err)
  | Panic => panic
  end.

(** A date of a listing: from its tag, from the service, or the epoch. *)
Definition entry_date (tag : MetadataTag) (tags : list Tag) (date : option (Z * Z)) : DateTime :=
  match MetadataTag_find tag tags ≫= (λ v,
          match parse_from_rfc3339 v with Ok dt => Some dt | _ => None end) with
  | Some dt => dt
  | None =>
    match date with
    | Some (secs, nanos) => default 0 (from_timestamp secs nanos)
    | None => 0
    end
  end.

(** The body of the loop over the entries of a page: [None] is [continue]. *)
Definition list_entry (prefix : string) (secret : SecretListEntry)
    : M AwsStore Error (option SecretMetadata) :=
  match entry_name secret with
  | None => mret None
  | Some sm_name =>
    match sm_strip_prefix prefix sm_name with
    | None => mret None
    | Some zerolease_name =>
      let tags := entry_tags secret in
      match parse_secret_kind (default "" (MetadataTag_find Kind tags)) with
      | Ok kind =>
        let version := default 1
          (MetadataTag_find Version tags ≫= from_str_radix 10 U32_MAX) in
        let created_at := entry_date CreatedAt tags (entry_created_date secret) in
        let updated_at := entry_date UpdatedAt tags (entry_last_changed_date secret) in
        let description := match MetadataTag_find Description tags with
          | Some d => Some d
          | None => entry_description secret
          end in
        id ← SecretId_new;
        mret (Some (mkSecretMetadata id (SecretName_new zerolease_name) kind description
                      created_at updated_at version))
      | _ => mret None
      end
    end
  end.

(** The loop over the pages. *)
Fixpoint list_loop (fuel : nat) (prefix : string) (next_token : option string)
    (secrets : list SecretMetadata) : SM (list SecretMetadata) :=
  match fuel with
  | O => panic
  | S fuel' =>
    response ← aws_send (sm_list_secrets (prefix +:+ "/") next_token);
    match response with
    | Ok (secret_list, next) =>
      page ← traverse (list_entry prefix) secret_list;
      let secrets := secrets ++ omap id page in
      match next with
      | None => mret secrets
      | Some token => list_loop fuel' prefix (Some token) secrets
      end
    | Err e => throw (aws_error "list" e)
    | Panic => panic
    end
  end.

Definition AwsStore_list : SM (list SecretMetadata) :=
  self ← read;
  list_loop (sm_pages (X := X)) (aws_prefix self) None [].
End store.

#[global] Instance AwsStore_SecretStore {X} `{!Env, !UuidText, !Chrono, !SecretsManager X}
    `{!Timestamp, !Serde SecretPayload} : SecretStore (AwsSecretsManagerStore X) := {|
  store_put := AwsStore_put;
  store_get := AwsStore_get;
  store_update := AwsStore_update;
  store_batch_update := AwsStore_batch_update;
  store_delete := AwsStore_delete;
  store_list := AwsStore_list
|}.

(** ** What the service promises *)

Record SmSecret := mkSmSecret {
  sm_value : option string;
  sm_tags : list Tag;
  sm_description : string;
  sm_deleted : bool
}.
Abbreviation SmContents := (gmap string SmSecret).

Definition set_value (v : string) (e : SmSecret) : SmSecret :=
  mkSmSecret (Some v) (sm_tags e) (sm_description e) (sm_deleted e).
(** [TagResource] replaces the tags with the same keys. *)
Definition add_tags (tags : list Tag) (e : SmSecret) : SmSecret :=
  mkSmSecret (sm_value e)
    (tags ++ filter (λ t, tag_key t ∉ (tag_key <$> tags)) (sm_tags e)) (sm_description e)
    (sm_deleted e).
Definition mark_deleted (e : SmSecret) : SmSecret :=
  mkSmSecret (sm_value e) (sm_tags e) (sm_description e) true.
Definition delete_effect (id : string) (force : bool) (m : SmContents) : SmContents :=
  if force then delete id m else alter mark_deleted id m.

(** All entries of a listing whose pages are [page]. *)
Fixpoint collect_pages (page : option string → list SecretListEntry * option string)
    (fuel : nat) (token : option string) : option (list SecretListEntry) :=
  match fuel with
  | O => None
  | S fuel' =>
    match page token with
    | (es, None) => Some es
    | (es, Some t) => app es <$> collect_pages page fuel' (Some t)
    end
  end.

Class SecretsManagerLaws (X : Type) `{!SecretsManager X} := {
  sm_view : X → SmContents;
  sm_page : SmContents → string → option string → list SecretListEntry * option string;

  sm_create_spec : ∀ name value desc tags x w,
    let m' := <[name := mkSmSecret (Some value) tags desc false]> (sm_view x) in
    wp (sm_create_secret name value desc tags) x w (λ r x' w', world_le w w' ∧
      match r with
      | Ok _ => sm_view x !! name = None ∧ sm_view x' = m'
      | Err ResourceExists => is_Some (sm_view x !! name) ∧ sm_view x' = sm_view x
      | Err (LostAnswer _) =>
          sm_view x' = sm_view x ∨ (sm_view x !! name = None ∧ sm_view x' = m')
      | Err _ => sm_view x' = sm_view x
      | Panic => False
      end);

  sm_get_spec : ∀ id x w,
    wp (sm_get_secret_value id) x w (λ r x' w', world_le w w' ∧ sm_view x' = sm_view x ∧
      match r with
      | Ok v => ∃ e, sm_view x !! id = Some e ∧ sm_deleted e = false ∧ sm_value e = v
      | Err ResourceNotFound => sm_view x !! id = None
      | Err (InvalidRequest (Some m)) => contains "marked for deletion" m = true →
          ∃ e, sm_view x !! id = Some e ∧ sm_deleted e = true
      | Err _ => True
      | Panic => False
      end);

  sm_put_spec : ∀ id value x w,
    let applied m' := ∃ e, sm_view x !! id = Some e ∧ sm_deleted e = false ∧
      m' = <[id := set_value value e]> (sm_view x) in
    wp (sm_put_secret_value id value) x w (λ r x' w', world_le w w' ∧
      match r with
      | Ok _ => applied (sm_view x')
      | Err ResourceNotFound => sm_view x !! id = None ∧ sm_view x' = sm_view x
      | Err (LostAnswer _) => sm_view x' = sm_view x ∨ applied (sm_view x')
      | Err _ => sm_view x' = sm_view x
      | Panic => False
      end);

  sm_tag_spec : ∀ id tags x w,
    wp (sm_tag_resource id tags) x w (λ r x' w', world_le w w' ∧ r ≠ Panic ∧
      (sm_view x' = sm_view x ∨ sm_view x' = alter (add_tags tags) id (sm_view x)) ∧
      (is_ok r = true → sm_view x' = alter (add_tags tags) id (sm_view x)));

  sm_describe_spec : ∀ id x w,
    wp (sm_describe_secret id) x w (λ r x' w', world_le w w' ∧ sm_view x' = sm_view x ∧
      match r with
      | Ok _ => is_Some (sm_view x !! id)
      | Err ResourceNotFound => sm_view x !! id = None
      | Err _ => True
      | Panic => False
      end);

  sm_delete_spec : ∀ id force x w,
    wp (sm_delete_secret id force) x w (λ r x' w', world_le w w' ∧
      match r with
      | Ok _ => sm_view x' = delete_effect id force (sm_view x)
      | Err (LostAnswer _) =>
          sm_view x' = sm_view x ∨ sm_view x' = delete_effect id force (sm_view x)
      | Err _ => sm_view x' = sm_view x
      | Panic => False
      end);

  (** Pages of the secrets that are not deleted and whose name begins with the filter. *)
  sm_list_spec : ∀ filter token x w,
    wp (sm_list_secrets filter token) x w (λ r x' w', world_le w w' ∧
      sm_view x' = sm_view x ∧ r ≠ Panic ∧
      ∀ page, r = Ok page → page = sm_page (sm_view x) filter token);
  sm_pages_spec : ∀ m filter, ∃ entries,
    collect_pages (sm_page m filter) sm_pages None = Some entries ∧
    NoDup (entry_name <$> entries) ∧
    ∀ name, Some name ∈ (entry_name <$> entries) ↔
      starts_with filter name = true ∧ ∃ s, m !! name = Some s ∧ sm_deleted s = false;
  sm_entries_spec : ∀ m filter entries e,
    collect_pages (sm_page m filter) sm_pages None = Some entries → e ∈ entries →
    ∃ name s, entry_name e = Some name ∧ m !! name = Some s ∧ entry_tags e = sm_tags s
}.

(** ** What the store holds *)

Section contents.
Context `{!UuidText, !Serde SecretPayload}.

(** The secret in a value, and the secret under a name. *)
Definition decode_value (v : string) : option StoredSecret :=
  match from_json v with
  | Ok payload => match into_stored_secret payload with Ok s => Some s | _ => None end
  | _ => None
  end.
Definition secret_at (prefix : string) (m : SmContents) (n : SecretName) : option StoredSecret :=
  e ← m !! sm_name prefix n;
  if sm_deleted e then None else sm_value e ≫= decode_value.

Lemma sm_name_inj prefix n n' : sm_name prefix n = sm_name prefix n' → n = n'.
Proof.
  unfold sm_name. destruct n as [a], n' as [b]. cbn [SecretName_as_str].
  by intros ->%(inj (String.append prefix))%(inj (String.append "/")).
Qed.

Lemma secret_at_insert_ne prefix m n n' e :
  n' ≠ n → secret_at prefix (<[sm_name prefix n := e]> m) n' = secret_at prefix m n'.
Proof.
  intros Hne. unfold secret_at. rewrite lookup_insert_ne; [done|].
  by intros Heq%sm_name_inj.
Qed.
Lemma secret_at_insert prefix m n e :
  secret_at prefix (<[sm_name prefix n := e]> m) n =
  if sm_deleted e then None else sm_value e ≫= decode_value.
Proof. unfold secret_at. by rewrite lookup_insert_eq. Qed.

(** Tags do not matter for what is stored. *)
Lemma secret_at_tags prefix m tags id n :
  secret_at prefix (alter (add_tags tags) id m) n = secret_at prefix m n.
Proof.
  unfold secret_at. destruct (decide (id = sm_name prefix n)) as [->|Hne].
  - rewrite lookup_alter_eq. by destruct (m !! _).
  - by rewrite lookup_alter_ne.
Qed.

Lemma decode_encode `{!UuidTextLaws, !SerdeLaws SecretPayload} s text :
  to_json (SecretPayload_from_stored s) = Ok text → decode_value text = Some (StoredSecret_erase s).
Proof.
  intros Ht%json_roundtrip. unfold decode_value. rewrite Ht. unfold into_stored_secret.
  destruct s as [[id] [name] ? ? ? ? ? ? ? ?]. simpl.
  rewrite uuid_text_roundtrip. cbn [map_err].
  by rewrite parse_cipher_algorithm_as_str, parse_secret_kind_as_str.
Qed.

Lemma decode_erased v s : decode_value v = Some s → StoredSecret_erase s = s.
Proof.
  unfold decode_value, into_stored_secret. intros Hs. repeat case_match; simplify_eq/=.
  unfold StoredSecret_erase. simpl. f_equal.
  match goal with H : parse_secret_kind _ = Ok _ |- _ => revert H end.
  unfold parse_secret_kind. repeat case_match; intros; by simplify_eq.
Qed.
Lemma secret_at_erased prefix m n s : secret_at prefix m n = Some s → StoredSecret_erase s = s.
Proof.
  unfold secret_at. intros Hs. apply bind_Some in Hs as (e & _ & Hs).
  destruct (sm_deleted e); [done|]. apply bind_Some in Hs as (v & _ & Hs).
  by eapply decode_erased.
Qed.
End contents.

(** ** The operations on what the store holds *)

Section operations.
Context {X : Type} `{!Env, !UuidText, !UuidTextLaws, !Chrono, !Timestamp}.
Context `{!SecretsManager X, !SecretsManagerLaws X}.
Context `{!Serde SecretPayload, !SerdeLaws SecretPayload}.
Abbreviation Store := (AwsSecretsManagerStore X).
Implicit Types (s : Store) (w : World).

Definition aws_contents s (n : SecretName) : option StoredSecret :=
  secret_at (aws_prefix s) (sm_view (aws_client s)) n.

(** The configuration of the store never changes. *)
Definition same_config s s' : Prop :=
  aws_prefix s' = aws_prefix s ∧ aws_force_delete s' = aws_force_delete s.

(** Only the secret [n] may differ. *)
Definition frame (n : SecretName) s s' : Prop :=
  same_config s s' ∧ ∀ n', n' ≠ n → aws_contents s' n' = aws_contents s n'.

Lemma aws_send_wp {A} (m : M X SdkError A) s w Q :
  wp m (aws_client s) w (λ r x w', r ≠ Panic ∧
    Q (Ok r) (mkAwsStore x (aws_prefix s) (aws_force_delete s)) w') →
  wp (aws_send m) s w Q.
Proof.
  intros Hm. unfold aws_send. wp_step. wp_step. eapply wp_mono; [exact Hm|].
  intros r x w' [Hnp HQ]. by destruct r.
Qed.

Lemma contents_insert_ne s x n n' e :
  sm_view x = <[sm_name (aws_prefix s) n := e]> (sm_view (aws_client s)) → n' ≠ n →
  aws_contents (mkAwsStore x (aws_prefix s) (aws_force_delete s)) n' = aws_contents s n'.
Proof. intros Hx Hne. unfold aws_contents. simpl. rewrite Hx. by apply secret_at_insert_ne. Qed.

Lemma contents_same s x :
  sm_view x = sm_view (aws_client s) →
  ∀ n, aws_contents (mkAwsStore x (aws_prefix s) (aws_force_delete s)) n = aws_contents s n.
Proof. intros Hx n. unfold aws_contents. simpl. by rewrite Hx. Qed.

Lemma aws_get_wp n s w :
  wp (AwsStore_get n) s w (λ r s' w', world_le w w' ∧ same_config s s' ∧
    sm_view (aws_client s') = sm_view (aws_client s) ∧
    match r with
    | Ok x => aws_contents s n = Some x
    | Err e => (e = SecretNotFound n ∧ aws_contents s n = None) ∨ is_storage e
    | Panic => False
    end).
Proof.
  unfold AwsStore_get. wp_step. wp_step. cbv zeta. wp_step. apply aws_send_wp.
  wp_call sm_get_spec. intros r x w' (Hw & Hx & Hr). split; [by destruct r|].
  assert (Hc : ∀ e, is_storage e →
    world_le w w' ∧ same_config s (mkAwsStore x (aws_prefix s) (aws_force_delete s)) ∧
    sm_view x = sm_view (aws_client s) ∧
    ((e = SecretNotFound n ∧ aws_contents s n = None) ∨ is_storage e))
    by (intros e He; split; [done|split; [done|split; [done|by right]]]).
  destruct r as [v|err|]; [| |done].
  - destruct Hr as (e & He & Hlive & Hv).
    assert (Hat : aws_contents s n = v ≫= decode_value)
      by (unfold aws_contents, secret_at; by rewrite He; simpl; rewrite Hlive, Hv).
    wp_step. destruct v as [v|]; cbn [ok_or]; wp_step; [|apply Hc; by eexists].
    wp_step. unfold deserialize_payload.
    pose proof (from_json_no_panic (A := SecretPayload) v) as Hnp.
    destruct (from_json v) as [payload|msg|] eqn:Hj; cbn [map_err]; [| |done]; wp_step;
      [|apply Hc; by eexists].
    simpl in Hat. unfold decode_value in Hat. rewrite Hj in Hat.
    assert (Hst : match into_stored_secret payload with
      Ok _ => True | Err e => is_storage e | Panic => False end).
    { unfold into_stored_secret. pose proof (uuid_parse_no_panic (payload_id payload)).
      pose proof (parse_cipher_algorithm_no_panic (payload_algorithm payload)).
      pose proof (parse_secret_kind_no_panic (payload_kind payload)).
      destruct (uuid_parse_str _); cbn [map_err]; [|by eexists|done].
      unfold parse_cipher_algorithm in *. unfold parse_secret_kind in *.
      repeat case_match; try done; simplify_eq; by eexists. }
    destruct (into_stored_secret payload) as [st|e'|]; [| |done]; wp_step;
      [by eauto|by apply Hc].
  - assert (Hnf : sm_view (aws_client s) !! sm_name (aws_prefix s) n = None ∨
      (∃ e, sm_view (aws_client s) !! sm_name (aws_prefix s) n = Some e ∧ sm_deleted e = true) →
      aws_contents s n = None).
    { unfold aws_contents, secret_at. intros [-> | (e & -> & Hd)]; [done|]. simpl. by rewrite Hd. }
    destruct err as [| |[m|]|t|t]; try (wp_step; apply Hc; by eexists).
    + wp_step. do 3 (split; [done|]). left. auto.
    + destruct (contains _ m) eqn:Hm; wp_step; [|apply Hc; by eexists].
      do 3 (split; [done|]). left. auto.
Qed.

Lemma serialize_payload_wp payload s w Q :
  (∀ text, to_json payload = Ok text → Q (Ok text) s w) →
  (∀ e, is_storage e → Q (Err e) s w) → wp (serialize_payload payload) s w Q.
Proof.
  intros Hok Herr. unfold serialize_payload. pose proof (to_json_no_panic payload) as Hnp.
  destruct (to_json payload) as [t|e|]; cbn [map_err]; [| |done]; wp_step; auto.
  apply Herr. by eexists.
Qed.

(** The secret a [put] creates. *)
Definition fresh_secret (params : StoreSecretParams) (x : StoredSecret) : Prop :=
  stored_name x = params_name params ∧ stored_ciphertext x = params_ciphertext params ∧
  stored_nonce x = params_nonce params ∧ stored_algorithm x = params_algorithm params ∧
  stored_kind x = params_kind params ∧ stored_description x = params_description params ∧
  stored_version x = 1.

(** [s'] holds the new secret, which [s] had no secret for. *)
Definition created params s s' (x : StoredSecret) : Prop :=
  fresh_secret params x ∧ aws_contents s (params_name params) = None ∧
  aws_contents s' (params_name params) = Some (StoredSecret_erase x).

Lemma aws_put_wp params s w :
  wp (AwsStore_put params) s w (λ r s' w', world_le w w' ∧ frame (params_name params) s s' ∧
    match r with
    | Ok x => created params s s' x
    | Err e => (e = SecretAlreadyExists (params_name params) ∧ ∀ n, aws_contents s' n = aws_contents s n)
        ∨ (is_storage e ∧ ((∀ n, aws_contents s' n = aws_contents s n) ∨ ∃ x, created params s s' x))
    | Panic => False
    end).
Proof.
  unfold AwsStore_put, SecretId_new. wp_steps.
  set (stored := mkStoredSecret _ _ _ _ _ _ _ _ _ _). set (n := params_name params).
  apply serialize_payload_wp; [intros text Ht|intros e He].
  2: { split; [solve_world|]. split; [done|]. right. split; [done|]. by left. }
  wp_step. apply aws_send_wp. wp_call sm_create_spec. intros r x w' (Hw & Hr).
  split; [by destruct r|].
  assert (Hsame : sm_view x = sm_view (aws_client s) →
    frame n s (mkAwsStore x (aws_prefix s) (aws_force_delete s)))
    by (intros Hx; split; [done|]; intros n' _; by apply contents_same).
  assert (Hnew : sm_view (aws_client s) !! sm_name (aws_prefix s) n = None →
    sm_view x = <[sm_name (aws_prefix s) n := mkSmSecret (Some text)
      (metadata_tags (SecretPayload_from_stored stored))
      ("zerolease secret: " +:+ SecretName_as_str n) false]> (sm_view (aws_client s)) →
    frame n s (mkAwsStore x (aws_prefix s) (aws_force_delete s)) ∧
    created params s (mkAwsStore x (aws_prefix s) (aws_force_delete s)) stored).
  { intros Hnone Hx. split; [split; [done|]; intros n' Hne; by eapply contents_insert_ne|].
    split; [done|]. split; [unfold aws_contents, secret_at; fold n; by rewrite Hnone|].
    unfold aws_contents. fold n. cbn [aws_client aws_prefix]. rewrite Hx, secret_at_insert. simpl.
    by apply decode_encode. }
  destruct r as [[]|err|]; [| |done].
  - destruct Hr as [Hnone Hx]. wp_step. split; [solve_world|]. by apply Hnew.
  - destruct err as [| |m|t|t]; wp_step; (split; [solve_world|]).
    + destruct Hr as [_ Hx]. split; [auto|]. left. split; [done|]. by apply contents_same.
    + split; [auto|]. right. split; [by eexists|]. left. by apply contents_same.
    + split; [auto|]. right. split; [by eexists|]. left. by apply contents_same.
    + split; [auto|]. right. split; [by eexists|]. left. by apply contents_same.
    + destruct Hr as [Hx|[Hnone Hx]].
      * split; [auto|]. right. split; [by eexists|]. left. by apply contents_same.
      * destruct (Hnew Hnone Hx) as [Hf Hc]. split; [done|]. right. split; [by eexists|].
        right. eauto.
Qed.

(** [s'] holds the secret with new ciphertext. *)
Definition rotated n ct nonce alg s s' (x : StoredSecret) : Prop :=
  ∃ now old, aws_contents s n = Some old ∧ x = StoredSecret_rotate ct nonce alg now old ∧
    aws_contents s' n = Some x.

Lemma aws_update_wp n ct nonce alg s w :
  wp (AwsStore_update n ct nonce alg) s w (λ r s' w', world_le w w' ∧ frame n s s' ∧
    match r with
    | Ok x => rotated n ct nonce alg s s' x
    | Err e =>
      (aws_contents s' n = aws_contents s n ∧
       ((e = SecretNotFound n ∧ aws_contents s n = None) ∨ is_storage e))
      ∨ (is_storage e ∧ ∃ x, rotated n ct nonce alg s s' x)
    | Panic => False
    end).
Proof.
  unfold AwsStore_update. wp_step. wp_call aws_get_wp.
  intros r s1 w1 (Hw1 & [Hp Hf] & Hv & Hr).
  assert (Hc1 : ∀ n', aws_contents s1 n' = aws_contents s n')
    by (intros n'; unfold aws_contents; by rewrite Hp, Hv).
  destruct r as [old|e|]; [| |done].
  2: { split; [done|]. split; [by split; [|auto]|]. left. split; [auto|]. done. }
  wp_step. wp_step. cbv zeta. wp_step.
  set (x := mkStoredSecret _ _ _ _ _ _ _ _ _ _). set (id := sm_name (aws_prefix s) n).
  apply serialize_payload_wp; [intros text Ht|intros e He].
  2: { split; [solve_world|]. split; [by split; [|auto]|]. left. split; [auto|]. by right. }
  wp_step. wp_step. wp_step. apply aws_send_wp. wp_call sm_put_spec.
  rewrite Hp, Hv. fold id. intros r x2 w2 (Hw2 & Hr2). split; [by destruct r|].
  set (s2 := mkAwsStore x2 (aws_prefix s) (aws_force_delete s1)).
  assert (Hsame : sm_view x2 = sm_view (aws_client s) → ∀ n', aws_contents s2 n' = aws_contents s n')
    by (intros Hx n'; unfold aws_contents; simpl; by rewrite Hx).
  assert (Hrot : ∀ s3, aws_prefix s3 = aws_prefix s → aws_force_delete s3 = aws_force_delete s →
    (∃ e, sm_view (aws_client s) !! id = Some e ∧ sm_deleted e = false ∧
       ∀ n', aws_contents s3 n' =
         secret_at (aws_prefix s) (<[id := set_value text e]> (sm_view (aws_client s))) n') →
    frame n s s3 ∧ rotated n ct nonce alg s s3 x).
  { intros s3 Hp3 Hf3 (e & He & Hlive & Hc3). split; [split; [done|]|].
    - intros n' Hne. rewrite Hc3. by apply secret_at_insert_ne.
    - exists (clock (w_clock w1)), old. split; [done|]. split; [done|]. rewrite Hc3.
      unfold id. rewrite secret_at_insert. cbn [set_value sm_deleted sm_value]. rewrite Hlive.
      simpl. rewrite (decode_encode x text Ht). f_equal.
      apply secret_at_erased in Hr. unfold x. destruct old as [? ? ? ? ? kind ? ? ? ?].
      unfold StoredSecret_erase in *. simpl in *. congruence. }
  destruct r as [[]|err|]; [| |done].
  - destruct Hr2 as (e & He & Hlive & Hx2). do 3 wp_step. apply aws_send_wp.
    wp_call sm_tag_spec. intros r x3 w3 (Hw3 & Hnp & Htag & _). split; [done|]. wp_step.
    split; [solve_world|]. apply Hrot; [done|simpl; congruence|].
    exists e. split; [done|]. split; [done|]. intros n'. unfold aws_contents. simpl.
    simpl in Htag. rewrite Hx2 in Htag.
    destruct Htag as [-> | ->]; [done|]. apply secret_at_tags.
  - destruct err as [| |m|t|t]; wp_step; (split; [solve_world|]);
      try (split; [split; [by split; [simpl|simpl]|intros n' _; by apply Hsame]|];
           left; split; [by apply Hsame|]; right; by eexists).
    + destruct Hr2 as [Hnone Hx2]. split; [split; [done|intros n' _; by apply Hsame]|].
      left. split; [by apply Hsame|]. left. split; [done|].
      unfold aws_contents, secret_at. fold id. by rewrite Hnone.
    + destruct Hr2 as [Hx2|(e & He & Hlive & Hx2)].
      * split; [split; [done|intros n' _; by apply Hsame]|]. left.
        split; [by apply Hsame|]. right. by eexists.
      * destruct (Hrot s2) as [Hfr Hro]; [done|simpl; congruence| |].
        { exists e. split; [done|]. split; [done|]. intros n'. unfold aws_contents. simpl.
          by rewrite Hx2. }
        split; [done|]. right. split; [by eexists|]. eauto.
Qed.

Lemma frame_refl n s : frame n s s.
Proof. by split; [|]. Qed.

(** The secrets of [us] have been rotated one after the other. *)
Inductive Rotated : list BatchUpdateItem → Store → Store → Prop :=
  | Rotated_nil s s' :
      same_config s s' → (∀ n, aws_contents s' n = aws_contents s n) → Rotated [] s s'
  | Rotated_cons u us s s1 s' x :
      frame (batch_name u) s s1 →
      rotated (batch_name u) (batch_ciphertext u) (batch_nonce u) (batch_algorithm u) s s1 x →
      Rotated us s1 s' → Rotated (u :: us) s s'.

Lemma Rotated_app us1 us2 s s1 s' : Rotated us1 s s1 → Rotated us2 s1 s' → Rotated (us1 ++ us2) s s'.
Proof.
  induction 1 as [s s1 [Hp Hf] Hc|u us s s1 s2 x Hfr Hr _ IH]; simpl.
  - destruct 1 as [s1 s2 [Hp' Hf'] Hc'|u us s1 s2 s3 x [[Hp' Hf'] Hc'] (now & old & Ho & Hx & Hn) Hrest].
    + constructor; [split; congruence|]. intros n. by rewrite Hc', Hc.
    + eapply (Rotated_cons _ _ _ s2); [| |exact Hrest].
      * split; [split; congruence|]. intros n' Hne. by rewrite Hc', Hc.
      * exists now, old. split; [by rewrite <-Hc|]. done.
  - intros Hrest. eapply Rotated_cons; eauto.
Qed.

(** A batch stops at the first failure and keeps what it has done: the items before the
    failing one, and that one too if its answer was lost. *)
Lemma aws_batch_wp us s w :
  wp (AwsStore_batch_update us) s w (λ r s' w', world_le w w' ∧
    match r with
    | Ok _ => Rotated us s s'
    | Err e => ∃ us1 u us2, us = us1 ++ u :: us2 ∧
        ((Rotated us1 s s' ∧
          (is_storage e ∨ (e = SecretNotFound (batch_name u) ∧ aws_contents s' (batch_name u) = None)))
         ∨ (Rotated (us1 ++ [u]) s s' ∧ is_storage e))
    | Panic => False
    end).
Proof.
  revert s w. induction us as [|u us IH]; intros s w; unfold AwsStore_batch_update; simpl.
  { wp_step. split; [done|]. by constructor. }
  wp_step. wp_step. wp_call aws_update_wp.
  intros [x|e|] s1 w1 (Hw1 & Hfr & Hr); [| |done].
  - wp_step. wp_call IH. intros [[]|e|] s2 w2 (Hw2 & Hr2); [| |done]; (split; [solve_world|]).
    + by eapply Rotated_cons.
    + destruct Hr2 as (us1 & u' & us2 & -> & Hcase). exists (u :: us1), u', us2.
      split; [done|]. destruct Hcase as [[Hrot He]|[Hrot He]].
      * left. split; [by eapply Rotated_cons|done].
      * right. split; [by eapply Rotated_cons|done].
  - split; [done|]. exists [], u, us. split; [done|]. simpl.
    destruct Hfr as [Hcfg Hother].
    destruct Hr as [[Hsame Hcase]|[He [x Hrot]]].
    + left. split; [|rewrite Hsame; tauto]. constructor; [done|]. intros n.
      destruct (decide (n = batch_name u)) as [->|Hne]; auto.
    + right. split; [|done]. eapply (Rotated_cons _ _ _ s1); [done|exact Hrot|].
      by constructor.
Qed.

Lemma secret_at_delete prefix m n force n' :
  secret_at prefix (delete_effect (sm_name prefix n) force m) n' =
  if decide (n' = n) then None else secret_at prefix m n'.
Proof.
  unfold secret_at, delete_effect. case_decide as Hn; [subst n'|].
  - destruct force; [by rewrite lookup_delete_eq|]. rewrite lookup_alter_eq.
    by destruct (m !! _).
  - assert (sm_name prefix n ≠ sm_name prefix n') by (by intros ?%sm_name_inj).
    destruct force; [by rewrite lookup_delete_ne|by rewrite lookup_alter_ne].
Qed.

Lemma aws_delete_wp n s w :
  wp (AwsStore_delete n) s w (λ r s' w', world_le w w' ∧ frame n s s' ∧
    match r with
    | Ok _ => aws_contents s' n = None
    | Err e => (aws_contents s' n = aws_contents s n ∧
        ((e = SecretNotFound n ∧ aws_contents s n = None) ∨ is_storage e)) ∨
        (is_storage e ∧ aws_contents s' n = None)
    | Panic => False
    end).
Proof.
  unfold AwsStore_delete. wp_step. wp_step. cbv zeta. wp_step. apply aws_send_wp.
  wp_call sm_describe_spec. intros r x w1 (Hw1 & Hx & Hr). split; [by destruct r|].
  assert (Hsame : ∀ n', aws_contents (mkAwsStore x (aws_prefix s) (aws_force_delete s)) n' =
    aws_contents s n') by (by apply contents_same).
  destruct r as [[]|err|]; [| |done].
  2: { destruct err as [| |m|t|t]; do 2 wp_step; (split; [done|]);
         (split; [by split; [|auto]|]); left; (split; [apply Hsame|]);
         try (right; by eexists).
       left. split; [done|]. unfold aws_contents, secret_at. by rewrite Hr. }
  do 3 wp_step. apply aws_send_wp. wp_call sm_delete_spec.
  intros r x2 w2 (Hw2 & Hr2). split; [by destruct r|]. simpl in *. rewrite Hx in Hr2.
  set (s2 := mkAwsStore x2 (aws_prefix s) (aws_force_delete s)).
  assert (Hdel : sm_view x2 = delete_effect (sm_name (aws_prefix s) n) (aws_force_delete s)
      (sm_view (aws_client s)) → frame n s s2 ∧ aws_contents s2 n = None).
  { intros Hx2. unfold frame, aws_contents, s2. cbn [aws_prefix aws_client]. rewrite Hx2.
    split; [split; [done|]|].
    - intros n' Hne. by rewrite secret_at_delete, decide_False.
    - by rewrite secret_at_delete, decide_True. }
  assert (Hkeep : sm_view x2 = sm_view (aws_client s) →
    frame n s s2 ∧ aws_contents s2 n = aws_contents s n).
  { intros Hx2. split; [split; [done|]; intros n' _|]; by apply contents_same. }
  destruct r as [[]|err|]; [| |done].
  - wp_step. split; [solve_world|]. by apply Hdel.
  - destruct err as [| |m|t|t]; wp_step; (split; [solve_world|]);
      try (destruct (Hkeep Hr2) as [Hfr Hc]; split; [done|]; left; split; [done|];
           right; by eexists).
    destruct Hr2 as [Hx2|Hx2].
    + destruct (Hkeep Hx2) as [Hfr Hc]. split; [done|]. left. split; [done|]. right. by eexists.
    + destruct (Hdel Hx2) as [Hfr Hc]. split; [done|]. right. split; [by eexists|done].
Qed.

(** ** Listing *)

Definition kind_tag (tags : list Tag) : outcome Error SecretKind :=
  parse_secret_kind (default "" (MetadataTag_find Kind tags)).

(** What an entry of a page contributes. *)
Definition lists (prefix : string) (e : SecretListEntry) (o : option SecretMetadata) : Prop :=
  match o with
  | Some m => entry_name e = Some (sm_name prefix (meta_name m)) ∧
      kind_tag (entry_tags e) = Ok (meta_kind m)
  | None => ∀ n, entry_name e = Some (sm_name prefix n) → is_ok (kind_tag (entry_tags e)) = false
  end.

Lemma sm_strip_prefix_Some prefix name z :
  sm_strip_prefix prefix name = Some z ↔ name = sm_name prefix (SecretName_new z).
Proof.
  unfold sm_strip_prefix, sm_name. cbn [SecretName_as_str]. rewrite bind_Some. split.
  - intros (r & ->%strip_prefix_Some & ->%strip_prefix_Some). done.
  - intros ->. exists ("/" +:+ z). split; by apply strip_prefix_Some.
Qed.

Lemma list_entry_wp prefix e s w :
  wp (list_entry prefix e) s w (λ r s' w', world_le w w' ∧ s' = s ∧
    ∃ o, r = Ok o ∧ lists prefix e o).
Proof.
  unfold list_entry. destruct (entry_name e) as [name|] eqn:Hn.
  2: { wp_step. split; [done|]. split; [done|]. exists None. split; [done|]. intros n. congruence. }
  destruct (sm_strip_prefix prefix name) as [z|] eqn:Hz.
  2: { wp_step. split; [done|]. split; [done|]. exists None. split; [done|].
       intros [n] Heq. rewrite Hn in Heq. injection Heq as Heq.
       apply sm_strip_prefix_Some in Heq. congruence. }
  apply sm_strip_prefix_Some in Hz as ->. cbv zeta.
  change (parse_secret_kind _) with (kind_tag (entry_tags e)).
  destruct (kind_tag (entry_tags e)) as [kind|err|] eqn:Hk.
  - unfold SecretId_new. wp_steps. split; [solve_world|]. split; [done|].
    eexists. split; [done|]. done.
  - wp_step. split; [done|]. split; [done|]. exists None. split; [done|]. intros n _.
    by rewrite Hk.
  - wp_step. split; [done|]. split; [done|]. exists None. split; [done|]. intros n _.
    by rewrite Hk.
Qed.

Lemma list_page_wp prefix es s w :
  wp (traverse (list_entry prefix) es) s w (λ r s' w', world_le w w' ∧ s' = s ∧
    ∃ os, r = Ok os ∧ Forall2 (lists prefix) es os).
Proof.
  revert w. induction es as [|e es IH]; intros w; simpl.
  { wp_step. split; [done|]. split; [done|]. exists []. by split; [|constructor]. }
  wp_step. wp_call list_entry_wp. intros r s1 w1 (Hw1 & -> & o & -> & Ho). wp_step.
  wp_call IH. intros r s2 w2 (Hw2 & -> & os & -> & Hos). wp_step.
  split; [solve_world|]. split; [done|]. exists (o :: os). split; [done|]. by constructor.
Qed.

Lemma list_loop_wp fuel prefix token acc es s w :
  collect_pages (sm_page (sm_view (aws_client s)) (prefix +:+ "/")) fuel token = Some es →
  wp (list_loop fuel prefix token acc) s w (λ r s' w', world_le w w' ∧ same_config s s' ∧
    sm_view (aws_client s') = sm_view (aws_client s) ∧
    match r with
    | Ok ms => ∃ os, Forall2 (lists prefix) es os ∧ ms = acc ++ omap id os
    | Err e => is_storage e
    | Panic => False
    end).
Proof.
  revert token acc es s w. induction fuel as [|fuel IH]; intros token acc es s w Hc; [done|].
  cbn [list_loop collect_pages] in *. wp_step. apply aws_send_wp. wp_call sm_list_spec.
  intros r x w1 (Hw1 & Hx & Hnp & Hpage). split; [done|].
  destruct r as [[page next]|err|]; [| |done].
  2: { wp_step. do 3 (split; [done|]). by eexists. }
  rewrite <-(Hpage _ eq_refl) in Hc. wp_step. wp_call list_page_wp.
  intros r s2 w2 (Hw2 & -> & os & -> & Hos). cbv zeta. destruct next as [t|].
  - destruct (collect_pages _ fuel _) as [es'|] eqn:Hes; [|done]. injection Hc as <-.
    wp_call (IH (Some t) (acc ++ omap id os) es'); [simpl; by rewrite Hx|].
    intros r s3 w3 (Hw3 & [Hp Hf] & Hv & Hr). split; [solve_world|]. split; [done|].
    split; [simpl in Hv; congruence|]. destruct r as [ms|e|]; [|done|done].
    destruct Hr as (os' & Hos' & ->). exists (os ++ os'). split; [by apply Forall2_app|].
    by rewrite omap_app, app_assoc.
  - injection Hc as <-. wp_step. split; [solve_world|]. do 2 (split; [done|]). eauto.
Qed.

Lemma listed_names prefix es os :
  Forall2 (lists prefix) es os → NoDup (entry_name <$> es) →
  NoDup (meta_name <$> omap id os) ∧
  ∀ n, n ∈ meta_name <$> omap id os ↔
    ∃ e, e ∈ es ∧ entry_name e = Some (sm_name prefix n) ∧ is_ok (kind_tag (entry_tags e)) = true.
Proof.
  induction 1 as [|e o es os Ho _ IH]; intros Hnd.
  { split; [constructor|]. intros n. rewrite elem_of_nil. split; [done|].
    intros (e & He%elem_of_nil & _). done. }
  rewrite fmap_cons, NoDup_cons in Hnd. destruct Hnd as [Hnot Hnd].
  destruct (IH Hnd) as [IHnd IHn]. destruct o as [m|]; simpl.
  - destruct Ho as [Hn Hk]. split.
    + constructor; [|done]. rewrite IHn. intros (e' & He' & Hn' & _). apply Hnot.
      rewrite Hn, <-Hn'. by apply list_elem_of_fmap_2.
    + intros n. rewrite elem_of_cons, IHn. split.
      * intros [-> | (e' & He' & ?)]; [exists e|exists e']; rewrite elem_of_cons;
          [by rewrite Hk; auto|by auto].
      * intros (e' & He'%elem_of_cons & Hn' & Hk'). destruct He' as [->|He']; [left|right; eauto].
        rewrite Hn in Hn'. injection Hn' as Hn'. by apply sm_name_inj in Hn'.
  - split; [done|]. intros n. rewrite IHn. split.
    + intros (e' & He' & ?). exists e'. rewrite elem_of_cons. auto.
    + intros (e' & He'%elem_of_cons & Hn' & Hk'). destruct He' as [->|He']; [|eauto].
      simpl in Ho. rewrite (Ho n Hn') in Hk'. done.
Qed.

(** The names a listing shows: live secrets with a readable kind tag. *)
Definition listed (prefix : string) (m : SmContents) (n : SecretName) : Prop :=
  ∃ e, m !! sm_name prefix n = Some e ∧ sm_deleted e = false ∧
    is_ok (kind_tag (sm_tags e)) = true.

Lemma aws_list_wp s w :
  wp AwsStore_list s w (λ r s' w', world_le w w' ∧ same_config s s' ∧
    sm_view (aws_client s') = sm_view (aws_client s) ∧
    match r with
    | Ok ms => NoDup (meta_name <$> ms) ∧
        ∀ n, n ∈ meta_name <$> ms ↔ listed (aws_prefix s) (sm_view (aws_client s)) n
    | Err e => is_storage e
    | Panic => False
    end).
Proof.
  unfold AwsStore_list. wp_step. wp_step.
  set (m := sm_view (aws_client s)). set (f := aws_prefix s +:+ "/").
  destruct (sm_pages_spec m f) as (es & Hes & Hnd & Hnames).
  wp_call (list_loop_wp _ _ None [] es).
  intros r s' w' (Hw & Hcfg & Hv & Hr). do 3 (split; [done|]).
  destruct r as [ms|e|]; [|done|done]. destruct Hr as (os & Hos & ->). simpl.
  destruct (listed_names _ _ _ Hos Hnd) as [Hnd' Hn]. split; [done|]. intros n. rewrite Hn.
  split.
  - intros (e & He & Hen & Hk).
    destruct (sm_entries_spec m f es e Hes He) as (name & x & Hen' & Hx & Htags).
    assert (Hin : Some name ∈ entry_name <$> es)
      by (rewrite <-Hen'; by apply list_elem_of_fmap_2).
    apply Hnames in Hin as (_ & x' & Hx' & Hlive). rewrite Hen in Hen'.
    simplify_eq. exists x. by rewrite <-Htags.
  - intros (x & Hx & Hlive & Hk).
    assert (Hin : Some (sm_name (aws_prefix s) n) ∈ entry_name <$> es).
    { apply Hnames. split; [|eauto]. apply starts_with_spec. exists (SecretName_as_str n).
      unfold f, sm_name. by rewrite app_assoc_string. }
    apply list_elem_of_fmap in Hin as (e & Hen & He). exists e. split; [done|].
    split; [done|]. destruct (sm_entries_spec m f es e Hes He) as (name & x' & Hen' & Hx' & Htags).
    rewrite <-Hen in Hen'. simplify_eq. by rewrite Htags.
Qed.
End operations.

(** ** Properties *)


(** A batch update is sequential and not atomic. On success every item was applied, in
    order; on an error the items before the failing one stay applied, and the failing one
    too when only its answer was lost. *)
Theorem aws_batch_keeps_prefix {X} `{!Env, !UuidText, !UuidTextLaws, !Chrono,
    !SecretsManager X, !SecretsManagerLaws X, !Serde SecretPayload, !SerdeLaws SecretPayload}
    us (s s' : AwsSecretsManagerStore X) w r w' :
  AwsStore_batch_update us s w = (r, s', w') →
  match r with
  | Ok _ => Rotated us s s'
  | Err e => ∃ us1 u us2, us = us1 ++ u :: us2 ∧
      (Rotated us1 s s' ∨ (Rotated (us1 ++ [u]) s s' ∧ is_storage e))
  | Panic => False
  end.
Proof.
  intros Hrun. pose proof (wp_run _ _ _ _ _ _ _ (aws_batch_wp us s w) Hrun) as [_ Hr].
  destruct r as [[]|e|]; [done| |done]. destruct Hr as (us1 & u & us2 & Hus & Hcase).
  exists us1, u, us2. naive_solver.
Qed.

(** A listing is complete. However many pages the service needs, the listing ends; it
    changes nothing, and on success names every secret under the prefix that is not deleted
    and whose kind tag can be read, each once, and nothing else. *)
Theorem aws_list_complete {X} `{!Env, !UuidText, !Chrono, !Timestamp, !SecretsManager X,
    !SecretsManagerLaws X} (s : AwsSecretsManagerStore X) w r s' w' :
  AwsStore_list s w = (r, s', w') →
  sm_view (aws_client s') = sm_view (aws_client s) ∧
  match r with
  | Ok ms => NoDup (meta_name <$> ms) ∧
      ∀ n, n ∈ meta_name <$> ms ↔ listed (aws_prefix s) (sm_view (aws_client s)) n
  | Err e => is_storage e
  | Panic => False
  end.
Proof.
  intros Hrun. pose proof (wp_run _ _ _ _ _ _ _ (aws_list_wp s w) Hrun) as (_ & _ & Hv & Hr).
  done.
Qed.

(** ** Witnesses *)

(** A service that holds its secrets in a map, delivers listings in one page and fails when
    the environment does. *)
Definition demo_refuse {A} `{!Env} (m : M SmContents SdkError A) : M SmContents SdkError A :=
  fault ← db_call;
  match fault with Some e => throw (OtherService e) | None => m end.

Definition demo_page (m : SmContents) (f : string) (token : option string)
    : list SecretListEntry * option string :=
  ((λ kv : string * SmSecret,
      mkSecretListEntry (Some kv.1) (sm_tags kv.2) (Some (sm_description kv.2)) None None) <$>
     filter (λ kv : string * SmSecret, starts_with f kv.1 = true ∧ sm_deleted kv.2 = false)
       (map_to_list m), None).

(** The secret a call needs, if it is there and not deleted. *)
Definition demo_live (id : string) : M SmContents SdkError SmSecret :=
  m ← read;
  match m !! id with
  | None => throw ResourceNotFound
  | Some e =>
    if sm_deleted e then throw (InvalidRequest (Some "it was marked for deletion"))
    else mret e
  end.

Definition demo_SecretsManager `{!Env} : SecretsManager SmContents := {|
  sm_create_secret := λ name value desc tags, demo_refuse (
    m ← read;
    if decide (is_Some (m !! name)) then throw ResourceExists
    else write (<[name := mkSmSecret (Some value) tags desc false]> m));
  sm_get_secret_value := λ id, demo_refuse (e ← demo_live id; mret (sm_value e));
  sm_put_secret_value := λ id v, demo_refuse (
    e ← demo_live id; modify <[id := set_value v e]>);
  sm_tag_resource := λ id tags, demo_refuse (modify (alter (add_tags tags) id));
  sm_describe_secret := λ id, demo_refuse (
    m ← read; match m !! id with None => throw ResourceNotFound | Some _ => mret tt end);
  sm_delete_secret := λ id force, demo_refuse (modify (delete_effect id force));
  sm_list_secrets := λ f token, demo_refuse (m ← read; mret (demo_page m f token));
  sm_pages := 1;
  sdk_debug := λ e, match e with OtherService t => t | _ => "error" end
|}.

Lemma demo_refuse_wp `{!Env} {A} (m : M SmContents SdkError A) x w Q :
  (∀ e, Q (Err (OtherService e)) x (tick_io w)) → wp m x (tick_io w) Q → wp (demo_refuse m) x w Q.
Proof. intros He Hm. unfold demo_refuse. wp_step. wp_step. destruct (io_fault _); [|done]. wp_step. auto. Qed.

Lemma demo_live_wp id x w (Q : outcome SdkError SmSecret → SmContents → World → Prop) :
  (x !! id = None → Q (Err ResourceNotFound) x w) →
  (∀ e, x !! id = Some e → sm_deleted e = true →
     Q (Err (InvalidRequest (Some "it was marked for deletion"))) x w) →
  (∀ e, x !! id = Some e → sm_deleted e = false → Q (Ok e) x w) →
  wp (demo_live id) x w Q.
Proof.
  intros Hnone Hdel Hlive. unfold demo_live. wp_step. wp_step.
  destruct (x !! id) as [e|]; [|wp_step; auto]. destruct (sm_deleted e) eqn:Hd; wp_step; eauto.
Qed.

Lemma NoDup_fst_filter {K V} (P : K * V → Prop) `{∀ x, Decision (P x)} (l : list (K * V)) :
  NoDup l.*1 → NoDup (filter P l).*1.
Proof.
  intros Hl. eapply sublist_NoDup; [exact Hl|]. apply fmap_sublist, sublist_filter.
Qed.

#[local] Obligation Tactic := idtac.
#[program] Definition demo_SecretsManagerLaws `{!Env} : @SecretsManagerLaws _ demo_SecretsManager := {|
  sm_view := λ m, m;
  sm_page := demo_page
|}.
Next Obligation.
  intros HE name value desc tags x w. simpl. apply demo_refuse_wp; [by split; [solve_world|]|].
  wp_step. wp_step. case_decide as Hd; wp_step; (split; [solve_world|]); [done|].
  by rewrite <-eq_None_not_Some in Hd.
Qed.
Next Obligation.
  intros HE id x w. simpl. apply demo_refuse_wp; [by split; [solve_world|]|].
  wp_step. apply demo_live_wp; intros; [| |wp_step]; (split; [solve_world|]); eauto.
Qed.
Next Obligation.
  intros HE id value x w. simpl. apply demo_refuse_wp; [by split; [solve_world|]|].
  wp_step. apply demo_live_wp; intros; [| |wp_step]; (split; [solve_world|]); eauto.
Qed.
Next Obligation.
  intros HE id tags x w. simpl. apply demo_refuse_wp.
  - intros e. split; [solve_world|]. split; [done|]. split; [by left|done].
  - wp_step. split; [solve_world|]. split; [done|]. split; [by right|done].
Qed.
Next Obligation.
  intros HE id x w. simpl. apply demo_refuse_wp; [by split; [solve_world|]|].
  wp_step. wp_step. destruct (x !! id) as [e|] eqn:He; wp_step; (split; [solve_world|]); eauto.
Qed.
Next Obligation.
  intros HE id force x w. simpl. apply demo_refuse_wp; [by split; [solve_world|]|].
  wp_step. by split; [solve_world|].
Qed.
Next Obligation.
  intros HE f token x w. simpl. apply demo_refuse_wp.
  - intros e. split; [solve_world|]. split; [done|]. by split.
  - wp_step. wp_step. wp_step. split; [solve_world|]. split; [done|]. split; [done|].
    by intros page [= <-].
Qed.
Next Obligation.
  intros HE m f. eexists. split; [done|]. unfold demo_page. cbn [fst].
  rewrite <-list_fmap_compose. change (entry_name ∘ _) with (λ kv : string * SmSecret, Some kv.1).
  split.
  - change (λ kv : string * SmSecret, Some kv.1) with (Some ∘ (fst : string * SmSecret → string)).
    rewrite list_fmap_compose. apply NoDup_fmap_2; [apply _|]. apply NoDup_fst_filter.
    apply NoDup_fst_map_to_list.
  - intros name. rewrite list_elem_of_fmap. split.
    + intros ([k e] & [= ->] & Hin). apply list_elem_of_filter in Hin as [[Hf Hd] Hin].
      simpl in *. split; [done|]. exists e. by rewrite elem_of_map_to_list in Hin.
    + intros [Hf (e & He & Hd)]. exists (name, e). split; [done|].
      apply list_elem_of_filter. split; [done|]. by apply elem_of_map_to_list.
Qed.
Next Obligation.
  intros HE m f entries e [= <-] He. apply list_elem_of_fmap in He as ([k x] & -> & Hin).
  apply list_elem_of_filter in Hin as [_ Hin]. apply elem_of_map_to_list in Hin. eauto.
Qed.

#[global] Instance SecretPayload_eq_dec : EqDecision SecretPayload.
Proof. solve_decision. Defined.
#[global] Program Instance SecretPayload_countable : Countable SecretPayload :=
  inj_countable' (λ p, (payload_id p, payload_name p, payload_ciphertext p, payload_nonce p,
      payload_algorithm p, payload_kind p, payload_description p, payload_created_at p,
      payload_updated_at p, payload_version p))
    (λ '(a, b, c, d, e, f, g, h, i, j), mkSecretPayload a b c d e f g h i j) _.
Next Obligation. by intros []. Qed.

Module DemoAws.
#[export] Existing Instance demo_Chrono.
#[export] Existing Instance demo_UuidText.
#[export] Existing Instance demo_UuidTextLaws.
#[export] Existing Instance demo_SecretsManager.
#[export] Existing Instance demo_SecretsManagerLaws.
#[export] Instance demo_Timestamp : Timestamp := λ secs nanos, Some (secs * NANOS + nanos).
#[export] Instance demo_Serde_payload : Serde SecretPayload := coded_Serde.
#[export] Instance demo_SerdeLaws_payload : SerdeLaws SecretPayload := coded_SerdeLaws.
End DemoAws.

Section witnesses.
Import DemoAws.
#[local] Existing Instance demo_Env.

Definition aws_demo_store : AwsSecretsManagerStore SmContents := AwsStore_new ∅ "zerolease".
Definition aws_demo_name : SecretName := SecretName_new "gh".
Definition aws_demo_params : StoreSecretParams :=
  mkStoreSecretParams aws_demo_name [Byte.x01] [Byte.x02] Aes256Gcm Pat (Some "token").
Definition aws_demo_stored : AwsSecretsManagerStore SmContents :=
  (AwsStore_put aws_demo_params aws_demo_store demo_world).1.2.


Lemma aws_batch_keeps_prefix_witness :
  ∃ s' w', AwsStore_batch_update [mkBatchUpdateItem aws_demo_name [Byte.x03] [Byte.x04] Aes256Gcm]
      aws_demo_stored demo_world = (Ok tt, s', w') ∧
    Rotated [mkBatchUpdateItem aws_demo_name [Byte.x03] [Byte.x04] Aes256Gcm] aws_demo_stored s'.
Proof.
  set (us := [mkBatchUpdateItem _ _ _ _]).
  assert (Hok : (AwsStore_batch_update us aws_demo_stored demo_world).1.1 = Ok tt)
    by (vm_compute; reflexivity).
  destruct (AwsStore_batch_update us aws_demo_stored demo_world) as [[r s'] w'] eqn:Hrun.
  simpl in Hok. subst r. exists s', w'. split; [reflexivity|].
  exact (aws_batch_keeps_prefix us aws_demo_stored s' demo_world (Ok tt) w' Hrun).
Defined.

Lemma aws_list_complete_witness :
  ∃ ms s' w', AwsStore_list aws_demo_stored demo_world = (Ok ms, s', w') ∧
    meta_name <$> ms = [aws_demo_name] ∧
    listed "zerolease" (sm_view (aws_client aws_demo_stored)) aws_demo_name.
Proof.
  assert (Hok : match (AwsStore_list aws_demo_stored demo_world).1.1 with
    Ok ms => meta_name <$> ms = [aws_demo_name] | _ => False end) by (vm_compute; reflexivity).
  destruct (AwsStore_list aws_demo_stored demo_world) as [[r s'] w'] eqn:Hrun.
  simpl in Hok. destruct r as [ms|e|]; [|destruct Hok|destruct Hok]. exists ms, s', w'.
  split; [reflexivity|]. split; [exact Hok|].
  destruct (aws_list_complete aws_demo_stored demo_world (Ok ms) s' w' Hrun) as (_ & _ & Hl).
  apply Hl. rewrite Hok. apply list_elem_of_here.
Defined.

(** A listing invents a new identifier for every secret. *)
Theorem aws_list_fresh_ids :
  match (AwsStore_list aws_demo_stored demo_world).1.1,
        (AwsStore_list aws_demo_stored (tick_uuid demo_world)).1.1 with
  | Ok [m1], Ok [m2] => meta_name m1 = meta_name m2 ∧ meta_id m1 ≠ meta_id m2
  | _, _ => False
  end.
Proof. vm_compute. by split. Qed.
End witnesses.
