(* ===== verification/Crypto.v ===== *)
(** Encryption at rest: [src/crypto.rs], and the data encryption key of
    [src/keysource/mod.rs].

    The ciphers themselves ([aes_gcm], [chacha20poly1305]) are the parameter class
    [Aead]; its law is correctness of decryption. No theorem relies on secrecy. *)
From S2P Require Import Prelude Text Concrete Types.

Local Open Scope string_scope.
Local Open Scope Z_scope.
Local Open Scope list_scope.

(** ** The cipher crates *)

(** [new_from_slice] accepts or refuses a key; [encrypt] and [decrypt] take the key, the
    nonce and the data. *)
Class Aead := {
  aead_new_from_slice : CipherAlgorithm → bytes → bool;
  aead_encrypt : CipherAlgorithm → bytes → bytes → bytes → option bytes;
  aead_decrypt : CipherAlgorithm → bytes → bytes → bytes → option bytes
}.

Class AeadLaws `{!Aead} := {
  aead_key_32 : ∀ a k, length k = 32%nat → aead_new_from_slice a k = true;
  aead_roundtrip : ∀ a k n p c,
    aead_encrypt a k n p = Some c → aead_decrypt a k n c = Some p
}.

(** ** Data *)

Record DataEncryptionKey := DataEncryptionKey_from_bytes {
  DataEncryptionKey_as_bytes : bytes
}.

#[global] Instance DataEncryptionKey_eq_dec : EqDecision DataEncryptionKey.
Proof. solve_decision. Defined.

(** [[u8; 32]]: what the Rust type guarantees. *)
Definition DataEncryptionKey_wf (k : DataEncryptionKey) : Prop :=
  length (DataEncryptionKey_as_bytes k) = 32%nat.

(** [Debug] of a key is redacted. *)
Definition DataEncryptionKey_debug (_ : DataEncryptionKey) : string :=
  "DataEncryptionKey([REDACTED])".

Record Sealed := mkSealed {
  sealed_ciphertext : bytes;
  sealed_nonce : bytes;
  sealed_algorithm : CipherAlgorithm
}.

Record Cipher := Cipher_new { cipher_default_algorithm : CipherAlgorithm }.

(** ** Operations *)

Section operations.
Context {St : Type} `{!Env, !Aead}.

(** [encrypt_aes_gcm] and [decrypt_aes_gcm] *)
Definition encrypt_aes_gcm (plaintext key : bytes) : M St Error (bytes * bytes) :=
  if negb (aead_new_from_slice Aes256Gcm key) then throw EncryptionFailed else
  nonce ← fill_bytes 12;
  ciphertext ← ok_or (aead_encrypt Aes256Gcm key nonce plaintext) EncryptionFailed;
  mret (ciphertext, nonce).

Definition decrypt_aes_gcm (ciphertext nonce key : bytes) : outcome Error bytes :=
  if negb (length nonce =? 12)%nat then Err DecryptionFailed else
  if negb (aead_new_from_slice Aes256Gcm key) then Err DecryptionFailed else
  match aead_decrypt Aes256Gcm key nonce ciphertext with
  | Some plaintext => Ok plaintext
  | None => Err DecryptionFailed
  end.

(** [encrypt_xchacha] and [decrypt_xchacha] *)
Definition encrypt_xchacha (plaintext key : bytes) : M St Error (bytes * bytes) :=
  if negb (aead_new_from_slice XChaCha20Poly1305 key) then throw EncryptionFailed else
  nonce ← fill_bytes 24;
  ciphertext ← ok_or (aead_encrypt XChaCha20Poly1305 key nonce plaintext) EncryptionFailed;
  mret (ciphertext, nonce).

Definition decrypt_xchacha (ciphertext nonce key : bytes) : outcome Error bytes :=
  if negb (length nonce =? 24)%nat then Err DecryptionFailed else
  if negb (aead_new_from_slice XChaCha20Poly1305 key) then Err DecryptionFailed else
  match aead_decrypt XChaCha20Poly1305 key nonce ciphertext with
  | Some plaintext => Ok plaintext
  | None => Err DecryptionFailed
  end.

Definition Cipher_encrypt (self : Cipher) (plaintext : bytes) (key : DataEncryptionKey)
    : M St Error Sealed :=
  let key_bytes := DataEncryptionKey_as_bytes key in
  cn ← match cipher_default_algorithm self with
       | Aes256Gcm => encrypt_aes_gcm plaintext key_bytes
       | XChaCha20Poly1305 => encrypt_xchacha plaintext key_bytes
       end;
  mret (mkSealed cn.1 cn.2 (cipher_default_algorithm self)).

(** Dispatches on [sealed.algorithm], not on the default. *)
Definition Cipher_decrypt (self : Cipher) (sealed : Sealed) (key : DataEncryptionKey)
    : outcome Error bytes :=
  let key_bytes := DataEncryptionKey_as_bytes key in
  match sealed_algorithm sealed with
  | Aes256Gcm => decrypt_aes_gcm (sealed_ciphertext sealed) (sealed_nonce sealed) key_bytes
  | XChaCha20Poly1305 =>
      decrypt_xchacha (sealed_ciphertext sealed) (sealed_nonce sealed) key_bytes
  end.
End operations.

(** The nonce length of each algorithm. *)
Definition nonce_len (a : CipherAlgorithm) : nat :=
  match a with Aes256Gcm => 12 | XChaCha20Poly1305 => 24 end.

(** ** Facts *)

Section facts.
Context {St : Type} `{!Env, !Aead}.
Implicit Types (s : St) (w : World).

Lemma Cipher_decrypt_eq c sealed k :
  Cipher_decrypt c sealed k =
    if negb (length (sealed_nonce sealed) =? nonce_len (sealed_algorithm sealed))%nat
    then Err DecryptionFailed else
    if negb (aead_new_from_slice (sealed_algorithm sealed) (DataEncryptionKey_as_bytes k))
    then Err DecryptionFailed else
    match aead_decrypt (sealed_algorithm sealed) (DataEncryptionKey_as_bytes k)
            (sealed_nonce sealed) (sealed_ciphertext sealed) with
    | Some plaintext => Ok plaintext
    | None => Err DecryptionFailed
    end.
Proof. unfold Cipher_decrypt. by destruct (sealed_algorithm sealed). Qed.

Lemma Cipher_decrypt_no_panic c sealed k : Cipher_decrypt c sealed k ≠ Panic.
Proof. rewrite Cipher_decrypt_eq. by repeat case_match. Qed.

(** The only error of [encrypt] is [EncryptionFailed], and it is stateless. *)
Lemma Cipher_encrypt_wp c plaintext k s w :
  wp (Cipher_encrypt c plaintext k) s w (λ r s' w',
    s' = s ∧ world_le w w' ∧ r ≠ Panic ∧
    (∀ e, r = Err e → e = EncryptionFailed) ∧
    ∀ sealed, r = Ok sealed →
      sealed_algorithm sealed = cipher_default_algorithm c ∧
      sealed_nonce sealed = os_rng (w_rng w) (nonce_len (cipher_default_algorithm c)) ∧
      aead_new_from_slice (cipher_default_algorithm c) (DataEncryptionKey_as_bytes k) = true ∧
      aead_encrypt (cipher_default_algorithm c) (DataEncryptionKey_as_bytes k)
        (sealed_nonce sealed) plaintext = Some (sealed_ciphertext sealed)).
Proof.
  unfold Cipher_encrypt, encrypt_aes_gcm, encrypt_xchacha. wp_steps;
    (split; [done|]); (split; [solve_world|]); (split; [done|]); (split; [naive_solver|]);
    intros sealed; try done; intros [= <-]; simpl;
    rewrite negb_false_iff in *; auto.
Qed.

Lemma Cipher_encrypt_decrypt `{!EnvLaws, !AeadLaws} c plaintext k s w sealed s' w' c' :
  Cipher_encrypt c plaintext k s w = (Ok sealed, s', w') →
  Cipher_decrypt c' sealed k = Ok plaintext.
Proof.
  intros Hrun. destruct (wp_run _ _ _ _ _ _ _ (Cipher_encrypt_wp c plaintext k s w) Hrun)
    as (_ & _ & _ & _ & Hok).
  destruct (Hok _ eq_refl) as (Ha & Hn & Hk & He).
  rewrite Cipher_decrypt_eq, Ha, Hk, (aead_roundtrip _ _ _ _ _ He), Hn, os_rng_length.
  by rewrite Nat.eqb_refl.
Qed.
End facts.

(** ** A concrete cipher for the witnesses: the key is checked, the data is clear. *)
Definition demo_Aead : Aead := {|
  aead_new_from_slice := λ _ k, (length k =? 32)%nat;
  aead_encrypt := λ _ k _ p, Some (k ++ p);
  aead_decrypt := λ _ k _ c,
    if decide (take (length k) c = k) then Some (drop (length k) c) else None
|}.
Definition demo_AeadLaws : @AeadLaws demo_Aead.
Proof.
  constructor.
  - intros a k Hk. unfold aead_new_from_slice. simpl. by rewrite Hk.
  - intros a k n p c. unfold aead_encrypt, aead_decrypt. simpl. intros [= <-].
    rewrite take_app_length, drop_app_length. by rewrite decide_True.
Qed.

Definition demo_dek : DataEncryptionKey :=
  DataEncryptionKey_from_bytes (replicate 32 (byte_of 171)).

(** ** Properties *)

(** Whatever algorithm the encrypting cipher was configured with, any cipher decrypts
    what it sealed under the same key to the same bytes: changing the default algorithm
    of a vault does not lose the secrets stored before. *)
Theorem crypto_roundtrip `{!Env, !Aead, !EnvLaws, !AeadLaws} {St : Type}
    (c c' : Cipher) (plaintext : bytes) (k : DataEncryptionKey) (s s' : St) (w w' : World)
    (sealed : Sealed) :
  Cipher_encrypt c plaintext k s w = (Ok sealed, s', w') →
  Cipher_decrypt c' sealed k = Ok plaintext ∧
  sealed_algorithm sealed = cipher_default_algorithm c ∧
  length (sealed_nonce sealed) = nonce_len (cipher_default_algorithm c).
Proof.
  intros Hrun. split; [by eapply Cipher_encrypt_decrypt|].
  destruct (wp_run _ _ _ _ _ _ _ (Cipher_encrypt_wp c plaintext k s w) Hrun)
    as (_ & _ & _ & _ & Hok).
  destruct (Hok _ eq_refl) as (-> & -> & _). split; [done|apply os_rng_length].
Qed.

Lemma crypto_roundtrip_witness :
  ∃ sealed w',
    @Cipher_encrypt unit demo_Env demo_Aead (Cipher_new XChaCha20Poly1305)
      (as_bytes "tok") demo_dek tt demo_world = (Ok sealed, tt, w') ∧
    @Cipher_decrypt demo_Aead (Cipher_new Aes256Gcm) sealed demo_dek = Ok (as_bytes "tok").
Proof.
  eexists _, _. split; [reflexivity|].
  exact (proj1 (@crypto_roundtrip demo_Env demo_Aead demo_EnvLaws demo_AeadLaws unit
                  (Cipher_new XChaCha20Poly1305) (Cipher_new Aes256Gcm) (as_bytes "tok")
                  demo_dek tt tt demo_world _ _ eq_refl)).
Defined.

(** [decrypt] never panics and its only error is [DecryptionFailed]: a nonce of the
    wrong length is rejected before it reaches the cipher. *)
Theorem crypto_decrypt_total `{!Aead} (c : Cipher) (sealed : Sealed) (k : DataEncryptionKey) :
  (∃ p, Cipher_decrypt c sealed k = Ok p ∧
        length (sealed_nonce sealed) = nonce_len (sealed_algorithm sealed)) ∨
  Cipher_decrypt c sealed k = Err DecryptionFailed.
Proof.
  rewrite Cipher_decrypt_eq. destruct (Nat.eqb_spec (length (sealed_nonce sealed))
    (nonce_len (sealed_algorithm sealed))) as [Hn|]; [|by right]. simpl.
  destruct (aead_new_from_slice _ _); [|by right]. simpl.
  destruct (aead_decrypt _ _ _ _) as [p|]; [left; eauto|by right].
Qed.
