(* ===== verification/KeySource.v ===== *)
(** Key sources: [src/keysource/mod.rs], [env.rs], [keychain.rs] and [kms.rs].

    The process environment, the [keyring] crate, the AWS KMS client and the file
    system are parameter classes. *)
From S2P Require Import Prelude Text Concrete Types Crypto.

Local Open Scope string_scope.
Local Open Scope Z_scope.
Local Open Scope list_scope.

Record EncryptedDek := mkEncryptedDek {
  edek_ciphertext : bytes;
  edek_key_id : string
}.

(** ** The trait *)

Class KeySource (K : Type) := {
  ks_load_or_create_dek : M K Error DataEncryptionKey;
  ks_rotate_dek : DataEncryptionKey → M K Error EncryptedDek;
  ks_description : K → string
}.

(** What the vault's invariants rely on: calls do not rewind the environment. *)
Class KeySourceLaws (K : Type) `{!KeySource K} := {
  ks_load_forward : forward ks_load_or_create_dek;
  ks_rotate_forward : ∀ k, forward (ks_rotate_dek k)
}.

(** ** Environment variables (env.rs) *)

(** [std::env::var], [None] for a variable that is unset or not Unicode. *)
Class ProcEnv := env_var : string → option string.

Record EnvVarSource := mkEnvVarSource {
  env_var_name : string;
  env_description : string
}.

Definition EnvVarSource_new (var_name : string) : EnvVarSource :=
  mkEnvVarSource var_name ("env:" +:+ var_name).

(** The body of [decode_hex_32]'s loop for the indices [idx], in order. *)
Fixpoint decode_hex_loop (hex var_name : string) (idx : list nat) : outcome Error bytes :=
  match idx with
  | [] => Ok []
  | i :: idx' =>
    match str_slice hex (i * 2) (i * 2 + 2) with
    | None => Panic
    | Some digits =>
      match from_str_radix 16 255 digits with
      | None => Err (InvalidConfig ("env var " +:+ var_name +:+ " is not valid hex"))
      | Some b =>
        match decode_hex_loop hex var_name idx' with
        | Ok bs => Ok (byte_of b :: bs)
        | Err e => Err e
        | Panic => Panic
        end
      end
    end
  end.

Definition decode_hex_32 (hex var_name : string) : outcome Error bytes :=
  if negb (String.length hex =? 64)%nat then
    Err (InvalidConfig ("env var " +:+ var_name
           +:+ " must be 64 hex characters (32 bytes), got " +:+ fmt_Z (str_len hex)))
  else decode_hex_loop hex var_name (seq 0 32).

Section env.
Context `{!ProcEnv}.

Definition EnvVarSource_load_or_create_dek : M EnvVarSource Error DataEncryptionKey :=
  self ← read;
  hex ← ok_or (env_var (env_var_name self))
          (KeySourceUnavailable ("env var " +:+ env_var_name self +:+ " not set"));
  bytes ← lift (decode_hex_32 hex (env_var_name self));
  mret (DataEncryptionKey_from_bytes bytes).

Definition EnvVarSource_rotate_dek (_ : DataEncryptionKey)
    : M EnvVarSource Error EncryptedDek :=
  throw (KeySourceUnavailable
    "cannot rotate an env-var key source; set a new value and restart").

#[global] Instance EnvVarSource_KeySource : KeySource EnvVarSource := {|
  ks_load_or_create_dek := EnvVarSource_load_or_create_dek;
  ks_rotate_dek := EnvVarSource_rotate_dek;
  ks_description := env_description
|}.
End env.

(** ** OS keychain (keychain.rs) *)

Inductive KeyringError := NoEntry | KeyringOther (msg : string).

(** The [keyring] crate on a platform store of type [KR]. *)
Class Keyring (KR : Type) := {
  KeyringError_to_string : KeyringError → string;
  keyring_entry_new : string → string → M KR KeyringError unit;
  keyring_get_secret : string → string → M KR KeyringError bytes;
  keyring_set_secret : string → string → bytes → M KR KeyringError unit
}.

(** Its documented behaviour: looking a credential up does not change the store, a
    stored credential is what a later lookup finds, and [NoEntry] means there is none. *)
Class KeyringLaws (KR : Type) `{!Keyring KR} := {
  keyring_view : KR → gmap (string * string) bytes;
  keyring_entry_new_spec : ∀ sv ac s w,
    wp (keyring_entry_new sv ac) s w (λ r s' w', s' = s ∧ r ≠ Panic ∧ world_le w w');
  keyring_get_spec : ∀ sv ac s w,
    wp (keyring_get_secret sv ac) s w (λ r s' w',
      s' = s ∧ r ≠ Panic ∧ world_le w w' ∧
      (∀ b, r = Ok b → keyring_view s !! (sv, ac) = Some b) ∧
      (r = Err NoEntry → keyring_view s !! (sv, ac) = None));
  keyring_set_spec : ∀ sv ac b s w,
    wp (keyring_set_secret sv ac b) s w (λ r s' w',
      r ≠ Panic ∧ world_le w w' ∧
      (r = Ok tt → keyring_view s' = <[(sv, ac) := b]> (keyring_view s)))
}.

Record KeychainSource (KR : Type) := mkKeychainSource {
  keychain_service : string;
  keychain_account : string;
  keychain_description : string;
  keychain_store : KR
}.
Arguments mkKeychainSource {KR}.
Arguments keychain_service {KR}.
Arguments keychain_account {KR}.
Arguments keychain_description {KR}.
Arguments keychain_store {KR}.

Definition KeychainSource_new {KR} (service account : string) (store : KR)
    : KeychainSource KR :=
  mkKeychainSource service account ("keychain:" +:+ service +:+ "/" +:+ account) store.

Definition set_keychain_store {KR} (kr : KR) (s : KeychainSource KR) : KeychainSource KR :=
  mkKeychainSource (keychain_service s) (keychain_account s) (keychain_description s) kr.

Section keychain.
Context {KR : Type} `{!Env, !Keyring KR}.

(** The key length is read after the buffer was zeroized, which empties it. *)
Definition load_or_create_blocking (service account : string)
    : M KR Error DataEncryptionKey :=
  map_err_m (λ e, KeySourceUnavailable ("keychain entry error: " +:+ KeyringError_to_string e))
    (keyring_entry_new service account);;
  found ← try_ (keyring_get_secret service account);
  match found with
  | Ok bytes =>
    if negb (length bytes =? 32)%nat then
      let bytes : Prelude.bytes := [] in
      throw (InvalidConfig ("keychain entry has wrong key length (expected 32 bytes, got "
               +:+ fmt_Z (Z.of_nat (length bytes)) +:+ ")"))
    else mret (DataEncryptionKey_from_bytes bytes)
  | Err NoEntry =>
    key_bytes ← fill_bytes 32;
    map_err_m (λ e, KeySourceUnavailable ("failed to store DEK in keychain: "
                      +:+ KeyringError_to_string e))
      (keyring_set_secret service account key_bytes);;
    mret (DataEncryptionKey_from_bytes key_bytes)
  | Err e => throw (KeySourceUnavailable ("keychain error: " +:+ KeyringError_to_string e))
  | Panic => panic
  end.

Definition KeychainSource_load_or_create_dek
    : M (KeychainSource KR) Error DataEncryptionKey :=
  self ← read;
  zoom keychain_store set_keychain_store
    (load_or_create_blocking (keychain_service self) (keychain_account self)).

Definition KeychainSource_rotate_dek (_ : DataEncryptionKey)
    : M (KeychainSource KR) Error EncryptedDek :=
  throw (KeySourceUnavailable "DEK rotation not yet supported for keychain source").

#[global] Instance KeychainSource_KeySource : KeySource (KeychainSource KR) := {|
  ks_load_or_create_dek := KeychainSource_load_or_create_dek;
  ks_rotate_dek := KeychainSource_rotate_dek;
  ks_description := keychain_description
|}.
End keychain.

(** ** AWS KMS (kms.rs) *)

(** The KMS client and the file system, on a joint state of type [X]. A KMS response
    may come without its payload. *)
Class KmsIO (X : Type) := {
  kms_encrypt : string → bytes → M X string (option bytes);
  kms_decrypt : string → bytes → M X string (option bytes);
  fs_exists : string → X → bool;
  fs_read : string → M X string bytes;
  fs_create_dir_all : string → M X string unit;
  fs_write : string → bytes → M X string unit;
  path_parent : string → option string
}.

(** Documented behaviour: KMS decrypts what it encrypted under the same key and does
    not touch the disk, and a file holds what was last written to it. *)
Class KmsIOLaws (X : Type) `{!KmsIO X} := {
  fs_view : X → gmap string bytes;
  kms_ct : string → bytes → bytes → Prop;
  kms_encrypt_spec : ∀ k p s w,
    wp (kms_encrypt k p) s w (λ r s' w',
      r ≠ Panic ∧ world_le w w' ∧ fs_view s' = fs_view s ∧
      ∀ c, r = Ok (Some c) → kms_ct k p c);
  kms_decrypt_spec : ∀ k c s w,
    wp (kms_decrypt k c) s w (λ r s' w',
      r ≠ Panic ∧ world_le w w' ∧ fs_view s' = fs_view s ∧
      ∀ p p', kms_ct k p c → r = Ok (Some p') → p' = p);
  fs_exists_spec : ∀ f s, fs_exists f s = bool_decide (is_Some (fs_view s !! f));
  fs_read_spec : ∀ f s w,
    wp (fs_read f) s w (λ r s' w',
      r ≠ Panic ∧ world_le w w' ∧ fs_view s' = fs_view s ∧
      ∀ b, r = Ok b → fs_view s !! f = Some b);
  fs_create_dir_all_spec : ∀ f s w,
    wp (fs_create_dir_all f) s w (λ r s' w',
      r ≠ Panic ∧ world_le w w' ∧ fs_view s' = fs_view s);
  fs_write_spec : ∀ f b s w,
    wp (fs_write f b) s w (λ r s' w',
      r ≠ Panic ∧ world_le w w' ∧
      (r = Ok tt → fs_view s' = <[f := b]> (fs_view s)))
}.

Record KmsSource (X : Type) := mkKmsSource {
  kms_client : X;
  kms_key_id : string;
  kms_encrypted_dek_path : string;
  kms_description : string
}.
Arguments mkKmsSource {X}.
Arguments kms_client {X}.
Arguments kms_key_id {X}.
Arguments kms_encrypted_dek_path {X}.
Arguments kms_description {X}.

Definition KmsSource_new {X} (client : X) (key_id encrypted_dek_path : string)
    : KmsSource X :=
  mkKmsSource client key_id encrypted_dek_path ("kms:" +:+ key_id).

Definition set_kms_client {X} (x : X) (s : KmsSource X) : KmsSource X :=
  mkKmsSource x (kms_key_id s) (kms_encrypted_dek_path s) (kms_description s).

Section kms.
Context {X : Type} `{!Env, !KmsIO X}.

Definition ksu (prefix : string) : string → Error :=
  λ e, KeySourceUnavailable (prefix +:+ e).

Definition kms_load_existing (key_id path : string) : M X Error DataEncryptionKey :=
  ciphertext ← map_err_m (ksu ("failed to read encrypted DEK from " +:+ path +:+ ": "))
                 (fs_read path);
  response ← map_err_m (ksu "KMS decrypt failed: ") (kms_decrypt key_id ciphertext);
  bytes ← ok_or response (KeySourceUnavailable "KMS decrypt returned no plaintext");
  if negb (length bytes =? 32)%nat then
    throw (InvalidConfig ("KMS decrypted DEK has wrong length (expected 32 bytes, got "
             +:+ fmt_Z (Z.of_nat (length bytes)) +:+ ")"))
  else mret (DataEncryptionKey_from_bytes bytes).

Definition kms_create (key_id path : string) : M X Error DataEncryptionKey :=
  key_bytes ← fill_bytes 32;
  response ← map_err_m (ksu "KMS encrypt failed: ") (kms_encrypt key_id key_bytes);
  ciphertext ← ok_or response (KeySourceUnavailable "KMS encrypt returned no ciphertext");
  match path_parent path with
  | Some parent =>
      map_err_m (ksu "failed to create directory for DEK blob: ") (fs_create_dir_all parent)
  | None => mret tt
  end;;
  map_err_m (ksu ("failed to write encrypted DEK to " +:+ path +:+ ": "))
    (fs_write path ciphertext);;
  mret (DataEncryptionKey_from_bytes key_bytes).

Definition KmsSource_load_or_create_dek : M (KmsSource X) Error DataEncryptionKey :=
  self ← read;
  zoom kms_client set_kms_client (
    if fs_exists (kms_encrypted_dek_path self) (kms_client self)
    then kms_load_existing (kms_key_id self) (kms_encrypted_dek_path self)
    else kms_create (kms_key_id self) (kms_encrypted_dek_path self)).

Definition KmsSource_rotate_dek (new_dek : DataEncryptionKey)
    : M (KmsSource X) Error EncryptedDek :=
  self ← read;
  zoom kms_client set_kms_client (
    response ← map_err_m (ksu "KMS encrypt failed during rotation: ")
                 (kms_encrypt (kms_key_id self) (DataEncryptionKey_as_bytes new_dek));
    ciphertext ← ok_or response
      (KeySourceUnavailable "KMS encrypt returned no ciphertext during rotation");
    map_err_m (ksu ("failed to write rotated DEK to " +:+ kms_encrypted_dek_path self +:+ ": "))
      (fs_write (kms_encrypted_dek_path self) ciphertext);;
    mret (mkEncryptedDek ciphertext (kms_key_id self))).

#[global] Instance KmsSource_KeySource : KeySource (KmsSource X) := {|
  ks_load_or_create_dek := KmsSource_load_or_create_dek;
  ks_rotate_dek := KmsSource_rotate_dek;
  ks_description := kms_description
|}.
End kms.

(** ** Configuration (mod.rs) *)

Inductive KeySourceConfig :=
  | Keychain (service account : string)
  | AwsKms (key_id region encrypted_dek_path : string)
  | EnvVar (var_name : string).

(** [Box<dyn KeySource>] over the three implementations. *)
Inductive AnyKeySource (KR X : Type) :=
  | BoxEnv (s : EnvVarSource)
  | BoxKeychain (s : KeychainSource KR)
  | BoxKms (s : KmsSource X).
Arguments BoxEnv {KR X}.
Arguments BoxKeychain {KR X}.
Arguments BoxKms {KR X}.

(** [KeySourceConfig::build] on Unix; [kms_feature] is the cargo feature, [keyring] the
    platform store and [aws region] the client for a region. *)
Definition KeySourceConfig_build {KR X} (kms_feature : bool) (keyring : KR)
    (aws : string → X) (self : KeySourceConfig) : outcome Error (AnyKeySource KR X) :=
  match self with
  | EnvVar var_name => Ok (BoxEnv (EnvVarSource_new var_name))
  | Keychain service account => Ok (BoxKeychain (KeychainSource_new service account keyring))
  | AwsKms key_id region path =>
    if kms_feature then Ok (BoxKms (KmsSource_new (aws region) key_id path))
    else Err (InvalidConfig "KMS key source requires the 'kms' feature to be enabled")
  end.

(** ** Facts *)

Lemma decode_hex_loop_ok hex var idx b :
  decode_hex_loop hex var idx = Ok b → length b = length idx.
Proof.
  revert b. induction idx as [|i idx IH]; intros b Hb; [by injection Hb as <-|].
  cbn [decode_hex_loop] in Hb. destruct (str_slice _ _ _) as [d|]; [|done].
  destruct (from_str_radix _ _ _); [|done].
  destruct (decode_hex_loop hex var idx) as [bs| |]; [|done|done].
  injection Hb as <-. simpl. by rewrite (IH bs).
Qed.

Lemma decode_hex_32_ok hex var b : decode_hex_32 hex var = Ok b → length b = 32%nat.
Proof.
  unfold decode_hex_32. destruct (_ =? _)%nat; [|done]. cbv iota beta delta [negb]. intros Hb.
  apply decode_hex_loop_ok in Hb. done.
Qed.

Lemma decode_hex_loop_encode b var :
  ∀ idx, (∀ i, i ∈ idx → (i < length b)%nat) →
  decode_hex_loop (hex_encode b) var idx = Ok ((λ i, b !!! i) <$> idx).
Proof.
  induction idx as [|i idx IH]; intros Hidx; [done|]. cbn [decode_hex_loop].
  destruct (lookup_lt_is_Some_2 b i) as [x Hx]; [apply Hidx; set_solver|].
  rewrite (hex_encode_slice _ _ _ Hx), from_str_radix_fmt_02x, IH by set_solver.
  rewrite fmap_cons, byte_of_val. by rewrite (list_lookup_total_correct _ _ _ Hx).
Qed.

Lemma decode_hex_32_encode b var :
  length b = 32%nat → decode_hex_32 (hex_encode b) var = Ok b.
Proof.
  intros Hb. unfold decode_hex_32. rewrite length_hex_encode, Hb.
  change (negb (2 * 32 =? 64)%nat) with false. cbv iota.
  rewrite decode_hex_loop_encode by (intros i Hi%elem_of_seq; lia). f_equal.
  apply list_eq. intros i. rewrite list_lookup_fmap.
  destruct (decide (i < 32)%nat) as [Hi|Hi].
  - rewrite lookup_seq_lt by lia. simpl. rewrite list_lookup_lookup_total_lt by lia. done.
  - rewrite lookup_seq_ge by lia. rewrite lookup_ge_None_2 by lia. done.
Qed.

(** Text without continuation bytes never makes the slices panic. *)
Lemma decode_hex_32_no_panic hex var :
  Forall (λ x, is_cont x = false) (as_bytes hex) → decode_hex_32 hex var ≠ Panic.
Proof.
  intros Hall. unfold decode_hex_32.
  destruct (Nat.eqb_spec (String.length hex) 64) as [Hlen|]; [|done]. simpl negb. cbv iota.
  assert (Hidx : ∀ i, i ∈ seq 0 32 → (i < 32)%nat) by (intros i Hi%elem_of_seq; lia).
  revert Hidx. generalize (seq 0 32). intros idx.
  induction idx as [|i idx IH]; intros Hidx; [done|]. cbn [decode_hex_loop].
  pose proof (Hidx i (list_elem_of_here _ _)).
  unfold str_slice. rewrite !is_char_boundary_ascii by (done || lia).
  rewrite (proj2 (Nat.leb_le _ _)) by lia. simpl.
  destruct (from_str_radix _ _ _); [|done].
  destruct (decode_hex_loop hex var idx) as [| |] eqn:Hd; [done|done|].
  destruct IH; [|done]. intros j Hj. apply Hidx. set_solver.
Qed.

Section keychain_facts.
Context {KR : Type} `{!Env, !Keyring KR, !KeyringLaws KR}.

(** What the keychain holds after a successful load is the key that was returned. *)
Lemma load_or_create_blocking_wp `{!EnvLaws} sv ac s w :
  wp (load_or_create_blocking sv ac) s w (λ r s' w',
    r ≠ Panic ∧ world_le w w' ∧
    ∀ k, r = Ok k →
      DataEncryptionKey_wf k ∧
      keyring_view s' !! (sv, ac) = Some (DataEncryptionKey_as_bytes k) ∧
      (∀ b, keyring_view s !! (sv, ac) = Some b → DataEncryptionKey_as_bytes k = b)).
Proof.
  unfold load_or_create_blocking. wp_step. wp_step. wp_call keyring_entry_new_spec.
  intros r s1 w1 (-> & Hr & Hw1). destruct r; [| |done]; simpl; [|done].
  wp_step. wp_step. wp_call keyring_get_spec.
  intros r s2 w2 (-> & Hr2 & Hw2 & Hok & Hno).
  destruct r as [b|[|msg]|]; [| | |done]; wp_steps.
  - split; [done|]. split; [solve_world|]. done.
  - split; [done|]. split; [solve_world|]. intros k [= <-].
    rewrite negb_false_iff, Nat.eqb_eq in Hb. rewrite (Hok b) by done. naive_solver.
  - wp_call keyring_set_spec. intros r s3 w3 (Hr3 & Hw3 & Hs3).
    destruct r as [[]| |]; [| |done]; simpl.
    + apply wp_ret. split; [done|]. split; [solve_world|]. intros k [= <-].
      split; [apply os_rng_length|]. rewrite Hs3, lookup_insert_eq by done.
      split; [done|]. rewrite Hno by done. done.
    + split; [done|]. split; [solve_world|]. done.
  - split; [done|]. split; [solve_world|]. done.
Qed.
End keychain_facts.

Section kms_facts.
Context {X : Type} `{!Env, !KmsIO X, !KmsIOLaws X}.

(** The blob on disk is an encryption of [k]. *)
Definition kms_holds (src : KmsSource X) (k : DataEncryptionKey) : Prop :=
  ∃ c, fs_view (kms_client src) !! kms_encrypted_dek_path src = Some c ∧
       kms_ct (kms_key_id src) (DataEncryptionKey_as_bytes k) c.

Lemma kms_load_existing_wp key path s w :
  wp (kms_load_existing key path) s w (λ r s' w',
    r ≠ Panic ∧ world_le w w' ∧ fs_view s' = fs_view s ∧
    ∀ k, r = Ok k → DataEncryptionKey_wf k ∧
      ∀ c p, fs_view s !! path = Some c → kms_ct key p c →
        DataEncryptionKey_as_bytes k = p).
Proof.
  unfold kms_load_existing. wp_step. wp_step. wp_call fs_read_spec.
  intros r s1 w1 (Hr & Hw1 & Hv1 & Hrd). destruct r as [c| |]; [| |done]; simpl;
    [|split; [done|]; split; [solve_world|]; done].
  wp_step. wp_step. wp_call kms_decrypt_spec.
  intros r s2 w2 (Hr2 & Hw2 & Hv2 & Hdec). destruct r as [o| |]; [| |done]; simpl;
    [|split; [done|]; split; [solve_world|]; split; [congruence|done]].
  wp_steps; split; try done; (split; [solve_world|]); (split; [congruence|]); try done.
  intros k [= <-]. rewrite negb_false_iff, Nat.eqb_eq in Hb. split; [done|].
  intros c' p' Hc' Hct. rewrite (Hrd c) in Hc' by done. simplify_eq/=.
  by apply (Hdec p').
Qed.

Lemma kms_create_wp `{!EnvLaws} key path s w :
  wp (kms_create key path) s w (λ r s' w',
    r ≠ Panic ∧ world_le w w' ∧
    ∀ k, r = Ok k → DataEncryptionKey_wf k ∧
      ∃ c, fs_view s' !! path = Some c ∧ kms_ct key (DataEncryptionKey_as_bytes k) c).
Proof.
  unfold kms_create. do 4 wp_step. wp_call kms_encrypt_spec.
  intros r s1 w1 (Hr & Hw1 & Hv1 & Hct). destruct r as [o| |]; [| |done]; simpl;
    [|split; [done|]; split; [solve_world|done]].
  wp_steps; [| |split; [done|]; split; [solve_world|done]].
  - wp_call fs_create_dir_all_spec. intros r s2 w2 (Hr2 & Hw2 & Hv2).
    destruct r as [[]| |]; [| |done]; simpl; [|split; [done|]; split; [solve_world|done]].
    wp_steps. wp_call fs_write_spec. intros r s3 w3 (Hr3 & Hw3 & Hv3).
    destruct r as [[]| |]; [| |done]; simpl; [|split; [done|]; split; [solve_world|done]].
    wp_steps. split; [done|]. split; [solve_world|]. intros k [= <-].
    split; [apply os_rng_length|]. rewrite Hv3, lookup_insert_eq by done. eauto.
  - wp_call fs_write_spec. intros r s3 w3 (Hr3 & Hw3 & Hv3).
    destruct r as [[]| |]; [| |done]; simpl; [|split; [done|]; split; [solve_world|done]].
    wp_steps. split; [done|]. split; [solve_world|]. intros k [= <-].
    split; [apply os_rng_length|]. rewrite Hv3, lookup_insert_eq by done. eauto.
Qed.

Lemma KmsSource_load_wp `{!EnvLaws} src w :
  wp KmsSource_load_or_create_dek src w (λ r src' w',
    r ≠ Panic ∧ world_le w w' ∧
    kms_key_id src' = kms_key_id src ∧
    kms_encrypted_dek_path src' = kms_encrypted_dek_path src ∧
    ∀ k, r = Ok k → DataEncryptionKey_wf k ∧
      (∀ k0, kms_holds src k0 → k = k0 ∧ kms_holds src' k0) ∧
      (fs_view (kms_client src) !! kms_encrypted_dek_path src = None → kms_holds src' k)).
Proof.
  unfold KmsSource_load_or_create_dek. wp_step. wp_step. wp_step.
  rewrite fs_exists_spec. case_bool_decide as He.
  - wp_call kms_load_existing_wp. intros r s' w' (Hr & Hw & Hv & Hk).
    do 4 (split; [done|]). intros k ->. destruct (Hk k eq_refl) as [Hwf Hdec].
    split; [done|]. split.
    + intros k0 (c & Hc & Hct). pose proof (Hdec _ _ Hc Hct) as Heq.
      split; [destruct k, k0; simpl in *; by subst|].
      exists c. simpl. by rewrite Hv.
    + intros Hno. rewrite Hno in He. by destruct He.
  - wp_call kms_create_wp. intros r s' w' (Hr & Hw & Hk).
    do 4 (split; [done|]). intros k ->. destruct (Hk k eq_refl) as [Hwf Hc].
    split; [done|]. split; [|done].
    intros k0 (c & Hc0 & _). by rewrite Hc0 in He; destruct He.
Qed.

Lemma KmsSource_rotate_wp k src w :
  wp (KmsSource_rotate_dek k) src w (λ r src' w',
    r ≠ Panic ∧ world_le w w' ∧ ∀ e, r = Ok e → kms_holds src' k).
Proof.
  unfold KmsSource_rotate_dek. do 5 wp_step. wp_call kms_encrypt_spec.
  intros r s1 w1 (Hr & Hw1 & Hv1 & Hct). destruct r as [o| |]; [| |done]; simpl; [|done].
  wp_steps; [|split; [done|]; split; [solve_world|done]].
  wp_call fs_write_spec. intros r s3 w3 (Hr3 & Hw3 & Hv3).
  destruct r as [[]| |]; [| |done]; simpl; [|split; [done|]; split; [solve_world|done]].
  wp_steps. split; [done|]. split; [solve_world|]. intros e _.
  eexists. simpl. rewrite Hv3, lookup_insert_eq by done. eauto.
Qed.
End kms_facts.

(** Every source satisfies what the vault relies on. *)
#[global] Instance KeychainSource_KeySourceLaws {KR} `{!Env, !EnvLaws, !Keyring KR, !KeyringLaws KR} :
  KeySourceLaws (KeychainSource KR).
Proof.
  constructor.
  - intros s w. cbn [ks_load_or_create_dek KeychainSource_KeySource].
    unfold KeychainSource_load_or_create_dek. wp_steps.
    wp_call load_or_create_blocking_wp. naive_solver.
  - intros k s w. apply wp_det with (Err (KeySourceUnavailable
      "DEK rotation not yet supported for keychain source")) s w; [done|].
    reflexivity.
Qed.

#[global] Instance EnvVarSource_KeySourceLaws `{!ProcEnv} : KeySourceLaws EnvVarSource.
Proof.
  constructor.
  - intros s w. cbn [ks_load_or_create_dek EnvVarSource_KeySource].
    unfold EnvVarSource_load_or_create_dek. wp_steps; reflexivity.
  - intros k s w. apply wp_det with (Err (KeySourceUnavailable
      "cannot rotate an env-var key source; set a new value and restart")) s w; [done|].
    reflexivity.
Qed.

#[global] Instance KmsSource_KeySourceLaws {X} `{!Env, !EnvLaws, !KmsIO X, !KmsIOLaws X} :
  KeySourceLaws (KmsSource X).
Proof.
  constructor.
  - intros s w. cbn [ks_load_or_create_dek KmsSource_KeySource].
    wp_call KmsSource_load_wp. naive_solver.
  - intros k s w. cbn [ks_rotate_dek KmsSource_KeySource].
    wp_call KmsSource_rotate_wp. naive_solver.
Qed.

(** ** A concrete keychain and KMS for the witnesses *)

Definition demo_Keyring : Keyring (list ((string * string) * bytes)) := {|
  KeyringError_to_string := λ e, match e with NoEntry => "no entry" | KeyringOther m => m end;
  keyring_entry_new := λ _ _, mret tt;
  keyring_get_secret := λ sv ac s w,
    (match alookup (sv, ac) s with Some b => Ok b | None => Err NoEntry end, s, w);
  keyring_set_secret := λ sv ac b s w, (Ok tt, ((sv, ac), b) :: s, w)
|}.
Definition demo_KeyringLaws : @KeyringLaws _ demo_Keyring.
Proof.
  refine {| keyring_view := λ s, list_to_map s |}; intros; cbv beta delta [wp]; simpl.
  - done.
  - rewrite alookup_list_to_map. destruct (alookup (sv, ac) s) eqn:E; naive_solver.
  - done.
Defined.

(** KMS prefixes the key id; the disk is a map from paths to contents. *)
Definition demo_KmsIO : KmsIO (list (string * bytes)) := {|
  kms_encrypt := λ k p s w, (Ok (Some (as_bytes k ++ p)), s, w);
  kms_decrypt := λ k c s w, (Ok (Some (drop (length (as_bytes k)) c)), s, w);
  fs_exists := λ f s, bool_decide (is_Some (alookup f s));
  fs_read := λ f s w,
    (match alookup f s with Some b => Ok b | None => Err "not found" end, s, w);
  fs_create_dir_all := λ _, mret tt;
  fs_write := λ f b s w, (Ok tt, (f, b) :: s, w);
  path_parent := λ _, None
|}.
Definition demo_KmsIOLaws : @KmsIOLaws _ demo_KmsIO.
Proof.
  refine {| fs_view := λ s, list_to_map s; kms_ct := λ k p c, c = as_bytes k ++ p |};
    intros; cbv beta delta [wp]; simpl; try done.
  - naive_solver.
  - split; [done|]. split; [done|]. split; [done|].
    intros p p' -> [= <-]. by rewrite drop_app_length.
  - by rewrite alookup_list_to_map.
  - rewrite alookup_list_to_map. destruct (alookup f s) eqn:E; naive_solver.
Defined.

(** ** Properties *)

(** Setting the variable to the hexadecimal form of any 32 bytes makes the env-var
    source load exactly those bytes, without touching its state; whatever the text, a
    loaded key is 32 bytes long, and text without multi-byte characters never panics. *)
Theorem env_key_roundtrip `{!ProcEnv} (src : EnvVarSource) (w : World) :
  (∀ b, env_var (env_var_name src) = Some (hex_encode b) → length b = 32%nat →
     EnvVarSource_load_or_create_dek src w = (Ok (DataEncryptionKey_from_bytes b), src, w)) ∧
  (∀ hex, env_var (env_var_name src) = Some hex →
     Forall (λ x, is_cont x = false) (as_bytes hex) →
     ∃ r, EnvVarSource_load_or_create_dek src w = (r, src, w) ∧ r ≠ Panic ∧
       ∀ k, r = Ok k → DataEncryptionKey_wf k).
Proof.
  unfold EnvVarSource_load_or_create_dek, read, lift, mbind, M_bind, ok_or, mret, M_ret.
  split.
  - intros b Hv Hb. by rewrite Hv, decode_hex_32_encode.
  - intros hex Hv Hall. rewrite Hv. pose proof (decode_hex_32_no_panic hex (env_var_name src) Hall).
    destruct (decode_hex_32 hex (env_var_name src)) as [b|e|] eqn:Hd; [| |done].
    + eexists. split; [done|]. split; [done|]. intros k [= <-]. by eapply decode_hex_32_ok.
    + eexists. done.
Qed.

(** The decoder is laxer than "64 hexadecimal characters": a plus sign is accepted as
    the first digit of a pair, and 64 bytes of text in which a character straddles a
    pair make it panic instead of returning an error. *)
Theorem decode_hex_lenient :
  (∃ hex b, contains "+" hex = true ∧ decode_hex_32 hex "K" = Ok b) ∧
  (∃ hex, utf8_decode (as_bytes hex) ≠ None ∧ decode_hex_32 hex "K" = Panic).
Proof.
  split.
  - exists ("+f" +:+ hex_encode (replicate 31 Byte.xab)). eexists.
    split; vm_compute; reflexivity.
  - exists ("0" +:+ from_bytes [Byte.xc3; Byte.xa9] +:+ "0" +:+ hex_encode (replicate 30 Byte.xab)).
    split; [|vm_compute; reflexivity].
    vm_compute. done.
Qed.

(** A keychain-backed key is stable: once a load succeeded, every later load that
    succeeds returns the same 32-byte key, including the first load, which creates it. *)
Theorem keychain_key_stable {KR : Type} `{!Env, !Keyring KR, !KeyringLaws KR, !EnvLaws}
    (src src1 src2 : KeychainSource KR) (w w1 w2 : World) (k1 k2 : DataEncryptionKey) :
  KeychainSource_load_or_create_dek src w = (Ok k1, src1, w1) →
  KeychainSource_load_or_create_dek src1 w1 = (Ok k2, src2, w2) →
  k2 = k1 ∧ DataEncryptionKey_wf k1.
Proof.
  unfold KeychainSource_load_or_create_dek, read, mbind, M_bind, zoom.
  destruct (load_or_create_blocking (keychain_service src) _ _ _) as [[r s1] w1'] eqn:H1.
  intros [= -> <- <-]. cbn [keychain_service keychain_account keychain_store set_keychain_store].
  destruct (load_or_create_blocking _ _ s1 w1') as [[r' s2] w2'] eqn:H2.
  intros [= -> <- <-].
  destruct (wp_run _ _ _ _ _ _ _ (load_or_create_blocking_wp _ _ _ _) H1)
    as (_ & _ & Hk1). destruct (Hk1 _ eq_refl) as (Hwf & Hv & _).
  destruct (wp_run _ _ _ _ _ _ _ (load_or_create_blocking_wp _ _ _ _) H2)
    as (_ & _ & Hk2). destruct (Hk2 _ eq_refl) as (_ & _ & Hsame).
  split; [|done]. destruct k1, k2. simpl in *. by rewrite (Hsame _ Hv).
Qed.

Lemma keychain_key_stable_witness :
  ∃ k s1 w1 s2 w2,
    @KeychainSource_load_or_create_dek _ demo_Env demo_Keyring
      (KeychainSource_new "zerolease" "dek" []) demo_world = (Ok k, s1, w1) ∧
    @KeychainSource_load_or_create_dek _ demo_Env demo_Keyring s1 w1 = (Ok k, s2, w2) ∧
    DataEncryptionKey_wf k.
Proof.
  eexists _, _, _, _, _. split; [reflexivity|]. split; [vm_compute; reflexivity|].
  eapply (@keychain_key_stable _ demo_Env demo_Keyring demo_KeyringLaws demo_EnvLaws
            (KeychainSource_new "zerolease" "dek" []) _ _ demo_world); reflexivity.
Defined.

(** A KMS-backed key survives restarts and rotations. A load that succeeds returns the
    key the blob on disk encrypts, or creates one whose encryption is then on disk; and
    after a successful rotation every load that succeeds returns the new key. *)
Theorem kms_key_persistence {X : Type} `{!Env, !KmsIO X, !KmsIOLaws X, !EnvLaws}
    (src src1 : KmsSource X) (w w1 : World) :
  (∀ k k' src2 w2,
     KmsSource_load_or_create_dek src w = (Ok k, src1, w1) →
     (∃ k0, kms_holds src k0) ∨
       fs_view (kms_client src) !! kms_encrypted_dek_path src = None →
     KmsSource_load_or_create_dek src1 w1 = (Ok k', src2, w2) → k' = k) ∧
  (∀ new e k' src2 w2,
     KmsSource_rotate_dek new src w = (Ok e, src1, w1) →
     KmsSource_load_or_create_dek src1 w1 = (Ok k', src2, w2) → k' = new).
Proof.
  split.
  - intros k k' src2 w2 H1 Hor H2.
    destruct (wp_run _ _ _ _ _ _ _ (KmsSource_load_wp _ _) H1) as (_ & _ & _ & _ & Hk).
    destruct (Hk _ eq_refl) as (_ & Hold & Hnew).
    destruct (wp_run _ _ _ _ _ _ _ (KmsSource_load_wp _ _) H2) as (_ & _ & _ & _ & Hk').
    destruct (Hk' _ eq_refl) as (_ & Hold' & _).
    destruct Hor as [[k0 Hk0]|Hno].
    + destruct (Hold _ Hk0) as [-> Hh]. by apply Hold'.
    + by apply Hold', Hnew.
  - intros new e k' src2 w2 H1 H2.
    destruct (wp_run _ _ _ _ _ _ _ (KmsSource_rotate_wp _ _ _) H1) as (_ & _ & Hh).
    destruct (wp_run _ _ _ _ _ _ _ (KmsSource_load_wp _ _) H2) as (_ & _ & _ & _ & Hk').
    destruct (Hk' _ eq_refl) as (_ & Hold' & _). by apply Hold', (Hh e).
Qed.

Lemma kms_key_persistence_witness :
  ∃ e src1 w1,
    @KmsSource_rotate_dek _ demo_KmsIO demo_dek
      (KmsSource_new [] "alias/k" "/dek") demo_world = (Ok e, src1, w1) ∧ ∃ src2 w2,
    @KmsSource_load_or_create_dek _ demo_Env demo_KmsIO src1 w1 = (Ok demo_dek, src2, w2).
Proof.
  eexists _, _, _. split; [reflexivity|].
  match goal with |- ∃ _ _, ?l = _ => destruct l as [[r src2] w2] eqn:Hl end.
  exists src2, w2.
  assert (∃ k, r = Ok k) as [k ->] by (vm_compute in Hl; injection Hl as <- _ _; eauto).
  pose proof (proj2 (@kms_key_persistence _ demo_Env demo_KmsIO demo_KmsIOLaws demo_EnvLaws
                (KmsSource_new [] "alias/k" "/dek") _ demo_world _) demo_dek _ _ _ _
                eq_refl Hl) as ->. reflexivity.
Defined.
