(* ===== verification/Auth.v ===== *)
(** Peer identities ([src/transport/mod.rs]) and connection authentication
    ([src/auth.rs]).

    SHA-256 is a parameter; a socket address is its printed form. *)
From S2P Require Import Prelude Text Concrete Types.

Local Open Scope string_scope.
Local Open Scope Z_scope.
Local Open Scope list_scope.

(** The [sha2] crate. *)
Class Sha256 := sha256 : bytes → bytes.
Class Sha256Laws `{!Sha256} := sha256_length : ∀ b, length (sha256 b) = 32%nat.

(** ** Peer identity *)

Inductive PeerIdentity :=
  | Unix (uid pid : Z)
  | Vsock (cid : Z)
  | Tcp (addr : string) (token_hash : bytes)
  | Anonymous.

#[global] Instance PeerIdentity_eq_dec : EqDecision PeerIdentity.
Proof. solve_decision. Defined.

Definition PeerIdentity_set_token_hash (self : PeerIdentity) (hash : bytes) : PeerIdentity :=
  match self with
  | Tcp addr _ => Tcp addr hash
  | p => p
  end.

(** [Display]: the first eight bytes of a token hash, in hexadecimal. *)
Definition PeerIdentity_to_string (self : PeerIdentity) : string :=
  match self with
  | Unix uid pid => "unix(uid=" +:+ fmt_Z uid +:+ ", pid=" +:+ fmt_Z pid +:+ ")"
  | Vsock cid => "vsock(cid=" +:+ fmt_Z cid +:+ ")"
  | Tcp addr token_hash =>
      "tcp(addr=" +:+ addr +:+ ", token=" +:+ hex_encode (take 8 token_hash) +:+ ")"
  | Anonymous => "anonymous"
  end.

Definition hash_token `{!Sha256} (token : string) : bytes := sha256 (as_bytes token).

(** ** Roles and authenticators *)

Inductive Role := Admin | Agent | Orchestrator.

#[global] Instance Role_eq_dec : EqDecision Role.
Proof. solve_decision. Defined.

Record ConnectionIdentity := mkConnectionIdentity {
  identity_role : Role;
  identity_agent_id : option AgentId;
  identity_label : string
}.

(** The trait, on a state of type [T]. *)
Class Authenticator (T : Type) :=
  authenticate : T → PeerIdentity → option string → option ConnectionIdentity.

Inductive AllowAllAdmin := mkAllowAllAdmin.

#[global] Instance AllowAllAdmin_Authenticator : Authenticator AllowAllAdmin :=
  λ _ _ _, Some (mkConnectionIdentity Admin None "allow-all-admin").

Record TokenAuthenticator := mkTokenAuthenticator {
  auth_tokens : gmap bytes ConnectionIdentity
}.

Section token.
Context `{!Sha256}.

Definition TokenAuthenticator_new : TokenAuthenticator := mkTokenAuthenticator ∅.

Definition TokenAuthenticator_register (self : TokenAuthenticator) (token : string)
    (identity : ConnectionIdentity) : TokenAuthenticator :=
  mkTokenAuthenticator (<[hash_token token := identity]> (auth_tokens self)).

(** Returns whether the token was found. *)
Definition TokenAuthenticator_revoke (self : TokenAuthenticator) (token : string)
    : bool * TokenAuthenticator :=
  let hash := hash_token token in
  (bool_decide (is_Some (auth_tokens self !! hash)),
   mkTokenAuthenticator (delete hash (auth_tokens self))).

Definition TokenAuthenticator_authenticate (self : TokenAuthenticator)
    (_ : PeerIdentity) (token : option string) : option ConnectionIdentity :=
  match token with
  | Some raw => auth_tokens self !! hash_token raw
  | None => None
  end.

#[global] Instance TokenAuthenticator_Authenticator : Authenticator TokenAuthenticator :=
  TokenAuthenticator_authenticate.
End token.

(** ** The history of an authenticator *)

(** What an administrator did, most recent last. *)
Inductive TokenOp :=
  | OpRegister (token : string) (identity : ConnectionIdentity)
  | OpRevoke (token : string).

Definition token_op `{!Sha256} (a : TokenAuthenticator) (op : TokenOp) : TokenAuthenticator :=
  match op with
  | OpRegister t i => TokenAuthenticator_register a t i
  | OpRevoke t => (TokenAuthenticator_revoke a t).2
  end.

(** The identity a token stands for after a history: its last registration, unless it
    was revoked since. *)
Fixpoint last_grant (t : string) (acc : option ConnectionIdentity) (ops : list TokenOp)
    : option ConnectionIdentity :=
  match ops with
  | [] => acc
  | OpRegister t' i :: ops' => last_grant t (if decide (t' = t) then Some i else acc) ops'
  | OpRevoke t' :: ops' => last_grant t (if decide (t' = t) then None else acc) ops'
  end.

(** The tokens an operation names. *)
Definition op_token (op : TokenOp) : string :=
  match op with OpRegister t _ => t | OpRevoke t => t end.

Lemma foldl_token_op_lookup `{!Sha256} ops t a :
  (∀ op, op ∈ ops → hash_token (op_token op) = hash_token t → op_token op = t) →
  auth_tokens (foldl token_op a ops) !! hash_token t =
    last_grant t (auth_tokens a !! hash_token t) ops.
Proof.
  revert a. induction ops as [|op ops IH]; intros a Hinj; [done|]. cbn [foldl].
  rewrite IH by (intros; apply Hinj; [set_solver|done]).
  pose proof (Hinj op (list_elem_of_here _ _)) as Hop.
  destruct op as [t' i|t']; cbn [last_grant token_op op_token TokenAuthenticator_register
    TokenAuthenticator_revoke snd auth_tokens] in *.
  - destruct (decide (t' = t)) as [->|Hne]; [by rewrite lookup_insert_eq|].
    rewrite lookup_insert_ne; [done|]. auto.
  - destruct (decide (t' = t)) as [->|Hne]; [by rewrite lookup_delete_eq|].
    rewrite lookup_delete_ne; [done|]. auto.
Qed.

(** ** Properties *)

(** C40. A token authenticator accepts a connection exactly with the identity of the last
    registration of the presented token that was not revoked since, and rejects every
    connection without a token, provided SHA-256 does not collide on the tokens in use. *)
Theorem token_authenticator_history `{!Sha256} (ops : list TokenOp) (peer : PeerIdentity)
    (t : string) :
  (∀ op, op ∈ ops → hash_token (op_token op) = hash_token t → op_token op = t) →
  let a := foldl token_op TokenAuthenticator_new ops in
  authenticate a peer (Some t) = last_grant t None ops ∧
  authenticate a peer None = None.
Proof.
  intros Hinj. split; [|done]. unfold authenticate, TokenAuthenticator_Authenticator.
  cbn [TokenAuthenticator_authenticate]. by rewrite foldl_token_op_lookup.
Qed.

(** An injective stand-in for SHA-256. *)
Definition demo_Sha256 : Sha256 := λ b, b.

Lemma token_authenticator_history_witness :
  let i := mkConnectionIdentity Agent (Some (AgentId_new "vm-1")) "vm" in
  let a := foldl (@token_op demo_Sha256) TokenAuthenticator_new
             [OpRegister "t1" i; OpRegister "t2" i; OpRevoke "t1"] in
  @authenticate _ (@TokenAuthenticator_Authenticator demo_Sha256) a Anonymous (Some "t1") = None.
Proof.
  intros i a.
  refine (proj1 (@token_authenticator_history demo_Sha256
    [OpRegister "t1" i; OpRegister "t2" i; OpRevoke "t1"] Anonymous "t1" _)).
  intros op Hop. repeat (apply elem_of_cons in Hop as [->|Hop]; [by vm_compute|]).
  by apply elem_of_nil in Hop.
Defined.
