(* ===== verification/AuditEvents.v ===== *)
(** Audit events and the audit log interface: [src/audit/mod.rs] and
    [src/audit/tracing_log.rs]. *)
From S2P Require Import Prelude Text Concrete Types Auth.

Local Open Scope string_scope.
Local Open Scope Z_scope.
Local Open Scope list_scope.

(** ** Data *)

Inductive AuditEvent :=
  | EvLeaseGranted (lease_id : LeaseId) (secret_name : SecretName)
      (domains : list DomainScope) (ttl_seconds : Z)
  | EvSecretAccessed (lease_id : LeaseId) (secret_name : SecretName)
      (target_domain : DomainScope)
  | EvLeaseRevoked (lease_id : LeaseId) (reason : RevocationReason)
  | EvLeaseRenewed (lease_id : LeaseId) (extension_secs : Z)
  | EvAccessDenied (secret_name : SecretName) (requested_domain : DomainScope)
      (reason : string)
  | EvSecretStored (secret_name : SecretName)
  | EvSecretRotated (secret_name : SecretName) (new_version : Z)
  | EvSecretDeleted (secret_name : SecretName)
  | EvDekRotated
  | EvPolicyReloaded (grant_count : Z)
  | EvSessionCreated (session_id : SessionId) (user channel : string) (duration_secs : Z)
  | EvSessionRevoked (session_id : SessionId) (reason : string) (leases_revoked : Z)
  | EvToolBindingDenied (session_id : SessionId) (tool_name : string)
      (secret_name : SecretName) (reason : string).

Inductive AuditOutcome :=
  | Success
  | Denied (reason : string)
  | ErrorOutcome (message : string).

Record AuditEntry := mkAuditEntry {
  entry_timestamp : DateTime;
  entry_event_id : Uuid;
  entry_event : AuditEvent;
  entry_agent : AgentId;
  entry_peer_identity : string;
  entry_outcome : AuditOutcome
}.

(** [AuditEvent::indexed_fields] *)
Definition AuditEvent_indexed_fields (self : AuditEvent) : option string * option LeaseId :=
  match self with
  | EvLeaseGranted lease_id secret_name _ _ =>
      (Some (SecretName_as_str secret_name), Some lease_id)
  | EvSecretAccessed lease_id secret_name _ =>
      (Some (SecretName_as_str secret_name), Some lease_id)
  | EvLeaseRevoked lease_id _ => (None, Some lease_id)
  | EvLeaseRenewed lease_id _ => (None, Some lease_id)
  | EvAccessDenied secret_name _ _ => (Some (SecretName_as_str secret_name), None)
  | EvSecretStored secret_name => (Some (SecretName_as_str secret_name), None)
  | EvSecretRotated secret_name _ => (Some (SecretName_as_str secret_name), None)
  | EvSecretDeleted secret_name => (Some (SecretName_as_str secret_name), None)
  | EvDekRotated | EvPolicyReloaded _ => (None, None)
  | EvSessionCreated _ _ _ _ | EvSessionRevoked _ _ _ => (None, None)
  | EvToolBindingDenied _ _ secret_name _ => (Some (SecretName_as_str secret_name), None)
  end.

Section operations.
Context {St : Type} `{!Env}.

(** [AuditEntry::new] *)
Definition AuditEntry_new (event : AuditEvent) (agent : AgentId) (peer : PeerIdentity)
    (outcome : AuditOutcome) : M St Error AuditEntry :=
  timestamp ← utc_now;
  event_id ← uuid_now_v7;
  mret (mkAuditEntry timestamp event_id event agent (PeerIdentity_to_string peer) outcome).
End operations.

(** ** The trait and its contract *)

Class AuditLog (A : Type) := {
  audit_record : AuditEntry → M A Error unit;
  audit_query_by_agent : AgentId → Z → M A Error (list AuditEntry);
  audit_query_by_secret : SecretName → Z → M A Error (list AuditEntry);
  audit_query_by_lease : LeaseId → M A Error (list AuditEntry)
}.

(** A log is append-only: a recorded entry is appended, a refused one leaves no trace. *)
Class AuditLogLaws (A : Type) `{!AuditLog A} := {
  audit_view : A → list AuditEntry;
  audit_record_spec : ∀ e s w,
    wp (audit_record e) s w (λ r s' w',
      r ≠ Panic ∧ world_le w w' ∧
      audit_view s' = (if is_ok r then audit_view s ++ [e] else audit_view s))
}.

(** The log accepts every entry. *)
Class AuditReliable (A : Type) `{!AuditLog A} :=
  audit_never_fails : ∀ e s w, ∃ s' w', audit_record e s w = (Ok tt, s', w').

(** ** The tracing log (tracing_log.rs) *)

(** The fields of one [tracing::info!] record. *)
Record TracingRecord := mkTracingRecord {
  tr_event_id : Uuid;
  tr_timestamp : DateTime;
  tr_agent : string;
  tr_peer_identity : string;
  tr_event : string;
  tr_outcome : string;
  tr_secret_name : string;
  tr_lease_id : string
}.

(** The log itself has no state; what it emitted is kept to speak about it. *)
Record TracingAuditLog := mkTracingAuditLog {
  emitted : list (AuditEntry * TracingRecord)
}.

Section tracing.
Context `{!UuidText, !Serde AuditEvent, !Serde AuditOutcome}.

Definition TracingAuditLog_record (entry : AuditEntry) : M TracingAuditLog Error unit :=
  let fields := AuditEvent_indexed_fields (entry_event entry) in
  let lease_id_str := (λ i, uuid_to_string (LeaseId_as_uuid i)) <$> fields.2 in
  event_json ← lift (map_err (λ e, Storage ("failed to serialize audit event: " +:+ e))
                      (to_json (entry_event entry)));
  outcome_json ← lift (map_err (λ e, Storage ("failed to serialize audit outcome: " +:+ e))
                        (to_json (entry_outcome entry)));
  modify (λ s, mkTracingAuditLog (emitted s ++ [(entry,
    mkTracingRecord (entry_event_id entry) (entry_timestamp entry)
      (AgentId_as_str (entry_agent entry)) (entry_peer_identity entry)
      event_json outcome_json (default "" fields.1) (default "" lease_id_str))])).

Definition tracing_unsupported {A} : M TracingAuditLog Error A :=
  throw (NotSupported "TracingAuditLog does not support querying; use your log aggregator").

#[global] Instance TracingAuditLog_AuditLog : AuditLog TracingAuditLog := {|
  audit_record := TracingAuditLog_record;
  audit_query_by_agent := λ _ _, tracing_unsupported;
  audit_query_by_secret := λ _ _, tracing_unsupported;
  audit_query_by_lease := λ _, tracing_unsupported
|}.

#[global] Instance TracingAuditLog_AuditLogLaws
  `{!SerdeLaws AuditEvent, !SerdeLaws AuditOutcome} : AuditLogLaws TracingAuditLog.
Proof.
  refine {| audit_view := λ s, (emitted s).*1 |}. intros e s w.
  cbn [audit_record TracingAuditLog_AuditLog]. unfold TracingAuditLog_record.
  pose proof (to_json_no_panic (entry_event e)).
  pose proof (to_json_no_panic (entry_outcome e)).
  destruct (to_json (entry_event e)), (to_json (entry_outcome e)); simpl; wp_steps;
    simplify_eq/=; try done; (split; [done|]); (split; [reflexivity|]); [|done..].
  by rewrite fmap_app.
Defined.
End tracing.

(** An audit log that cannot fail, for the witnesses: the list of its entries. *)
Definition demo_AuditLog : AuditLog (list AuditEntry) := {|
  audit_record := λ e, modify (λ s, s ++ [e]);
  audit_query_by_agent := λ a _ s w, (Ok (filter (λ e, entry_agent e = a) s), s, w);
  audit_query_by_secret := λ n _ s w, (Ok (filter (λ e,
    (AuditEvent_indexed_fields (entry_event e)).1 = Some (SecretName_as_str n)) s), s, w);
  audit_query_by_lease := λ l s w, (Ok (filter (λ e,
    (AuditEvent_indexed_fields (entry_event e)).2 = Some l) s), s, w)
|}.
Definition demo_AuditLogLaws : @AuditLogLaws _ demo_AuditLog.
Proof.
  refine {| audit_view := λ s : list AuditEntry, s |}. intros e s w.
  cbv beta delta [wp]. simpl. split; [done|]. split; [reflexivity|done].
Defined.

Section facts.
Context {St : Type} `{!Env}.

Lemma AuditEntry_new_wp ev ag peer out (s : St) w :
  wp (AuditEntry_new ev ag peer out) s w (λ r s' w',
    s' = s ∧ w' = tick_uuid (tick_clock w) ∧
    r = Ok (mkAuditEntry (clock (w_clock w)) (now_v7 (w_uuid w)) ev ag
              (PeerIdentity_to_string peer) out)).
Proof. unfold AuditEntry_new. wp_steps. done. Qed.
End facts.
