(* ===== verification/RusqliteAudit.v ===== *)
(** The SQLite audit log with its hash chain:
    [crates/zerolease-store-rusqlite/src/audit.rs].

    The table [audit_events] is the list of its rows in insertion order. [ORDER BY
    timestamp] sorts by the text of the column and may break ties either way, so the two
    orders are parameters with the sorting they promise. *)
From stdpp Require Import sorting.
From S2P Require Import Prelude Text Concrete Types Auth AuditEvents RusqliteStore.

Local Open Scope string_scope.
Local Open Scope Z_scope.
Local Open Scope list_scope.

Record AuditRow := mkAuditRow {
  arow_event_id : string;
  arow_timestamp : string;
  arow_event : string;
  arow_agent : string;
  arow_peer_identity : string;
  arow_outcome : string;
  arow_secret_name : option string;
  arow_lease_id : option string;
  arow_prev_hash : option string;
  arow_entry_hash : option string
}.

Record RusqliteAuditLog := mkRusqliteAuditLog { audit_events : list AuditRow }.

(** Texts compare byte by byte ([BINARY] collation). *)
Definition older (a b : AuditRow) : Prop :=
  String.leb (arow_timestamp a) (arow_timestamp b) = true.

(** The database: [ORDER BY timestamp ASC] and [DESC], and its messages. *)
Class SqliteAudit := {
  order_asc : list AuditRow → list AuditRow;
  order_desc : list AuditRow → list AuditRow;
  unique_violation : string;
  duplicate_column : string
}.
Class SqliteAuditLaws `{!SqliteAudit} := {
  order_asc_perm : ∀ rows, order_asc rows ≡ₚ rows;
  order_asc_sorted : ∀ rows, StronglySorted older (order_asc rows);
  order_desc_perm : ∀ rows, order_desc rows ≡ₚ rows;
  order_desc_sorted : ∀ rows, StronglySorted (flip older) (order_desc rows)
}.

(** ** The hash chain *)

Section hashing.
Context `{!Sha256}.

Definition GENESIS_HASH : string := "sha256:zerolease-audit-genesis".
Definition genesis_hash : string := hex_encode (sha256 (as_bytes GENESIS_HASH)).

Definition compute_entry_hash
    (prev_hash event_id timestamp event_json agent outcome_json : string) : string :=
  hex_encode (sha256 (as_bytes prev_hash ++ as_bytes event_id ++ as_bytes timestamp
                      ++ as_bytes event_json ++ as_bytes agent ++ as_bytes outcome_json)).

Record AuditChainVerification := mkAuditChainVerification {
  total_entries : Z;
  verified_entries : Z;
  first_broken_at : option string;
  is_valid : bool
}.

(** The variables of the loop of [verify_audit_chain]. *)
Record ChainScan := mkChainScan {
  scan_total : Z;
  scan_verified : Z;
  scan_first_broken_at : option string;
  scan_expected_prev_hash : string
}.

Definition mark_broken (event_id : string) (b : option string) : option string :=
  match b with None => Some event_id | Some _ => b end.

(** The body of the loop. *)
Definition verify_row (s : ChainScan) (row : AuditRow) : ChainScan :=
  match arow_prev_hash row, arow_entry_hash row with
  | Some stored_prev, Some stored_hash =>
    if negb (str_eqb stored_prev (scan_expected_prev_hash s)) then
      mkChainScan (scan_total s + 1) (scan_verified s)
        (mark_broken (arow_event_id row) (scan_first_broken_at s)) stored_hash
    else if str_eqb (compute_entry_hash stored_prev (arow_event_id row) (arow_timestamp row)
                       (arow_event row) (arow_agent row) (arow_outcome row)) stored_hash then
      mkChainScan (scan_total s + 1) (scan_verified s + 1) (scan_first_broken_at s) stored_hash
    else
      mkChainScan (scan_total s + 1) (scan_verified s)
        (mark_broken (arow_event_id row) (scan_first_broken_at s)) stored_hash
  | _, _ =>
    mkChainScan (scan_total s + 1) (scan_verified s) (scan_first_broken_at s) genesis_hash
  end.

Definition scan_start : ChainScan := mkChainScan 0 0 None genesis_hash.

Definition scan_result (s : ChainScan) : AuditChainVerification :=
  mkAuditChainVerification (scan_total s) (scan_verified s) (scan_first_broken_at s)
    (match scan_first_broken_at s with None => 0 <? scan_total s | Some _ => false end).
End hashing.

(** ** Operations *)

Section operations.
Context `{!Env, !Chrono, !UuidText, !Rusqlite, !SqliteAudit, !Sha256}.
Context `{!Serde AuditEvent, !Serde AuditOutcome}.
Abbreviation LM := (M RusqliteAuditLog Error).

(** [migrate_add_hash_columns] on a table that has the columns or not: a failing schema
    query counts as a table without them. *)
Definition migrate_add_hash_columns {St} (has_columns : bool) : M St Error unit :=
  fault ← db_call;
  if (match fault with Some _ => false | None => has_columns end : bool) then mret tt else
  sql "failed to add hash chain columns";;
  if has_columns
  then throw (Storage ("failed to add hash chain columns: " +:+ duplicate_column))
  else mret tt.

(** [RusqliteAuditLog::new]: [db] is the table in the file, if there is one, with whether
    it has the hash columns. *)
Definition RusqliteAuditLog_new (db : option (bool * list AuditRow))
    : M unit Error RusqliteAuditLog :=
  sql "failed to open audit database";;
  sql "failed to set WAL mode";;
  sql "failed to create audit_events table";;
  let table := default (true, []) db in
  migrate_add_hash_columns table.1;;
  for_each (λ _, sql "failed to create index") [1; 2; 3; 4];;
  mret (mkRusqliteAuditLog table.2).

Definition verify_audit_chain : LM AuditChainVerification :=
  self ← read;
  sql "prepare failed";;
  sql "query failed";;
  scan ← fold_m (λ s row, sql "row next failed";; mret (verify_row s row)) scan_start
           (order_asc (audit_events self));
  sql "row next failed";;
  mret (scan_result scan).

Definition row_to_audit_entry (row : AuditRow) : outcome Error AuditEntry :=
  row_bind (map_err (λ e, Storage ("invalid event_id: " +:+ e))
              (uuid_parse_str (arow_event_id row))) (λ event_id,
  row_bind (map_err (λ e, Storage ("invalid timestamp: " +:+ e))
              (parse_from_rfc3339 (arow_timestamp row))) (λ timestamp,
  row_bind (map_err (λ e, Storage ("invalid event JSON: " +:+ e))
              (from_json (arow_event row))) (λ event,
  row_bind (map_err (λ e, Storage ("invalid outcome JSON: " +:+ e))
              (from_json (arow_outcome row))) (λ outcome,
  Ok (mkAuditEntry timestamp event_id event (AgentId_new (arow_agent row))
        (arow_peer_identity row) outcome))))).

(** [LIMIT ?]: a negative limit is none. *)
Definition sql_limit {B} (n : Z) (rows : list B) : list B :=
  if n <? 0 then rows else take (Z.to_nat n) rows.
(** [limit as i64] *)
Definition usize_as_i64 (n : Z) : Z :=
  if n <? 9223372036854775808 then n else n - 18446744073709551616.

Definition query_rows (rows : list AuditRow) : LM (list AuditEntry) :=
  sql "prepare failed";;
  sql "query failed";;
  traverse (λ row,
    sql "row extraction failed";;
    lift (map_err (λ e, Storage ("row extraction failed: "
                                 +:+ conversion_failure (Error_to_string e)))
            (row_to_audit_entry row))) rows.

(** [SELECT entry_hash .. WHERE entry_hash IS NOT NULL ORDER BY timestamp DESC LIMIT 1],
    and the genesis hash when there is none or the query fails. *)
Definition last_entry_hash (fault : option string) (rows : list AuditRow) : string :=
  match fault with
  | Some _ => genesis_hash
  | None =>
    default genesis_hash
      (head (order_desc (filter (λ r, is_Some (arow_entry_hash r)) rows)) ≫= arow_entry_hash)
  end.

Definition insert_event (row : AuditRow) (rows : list AuditRow) : option (list AuditRow) :=
  if decide (Exists (λ r, arow_event_id r = arow_event_id row) rows)
  then None else Some (rows ++ [row]).

Definition RusqliteAuditLog_record (entry : AuditEntry) : LM unit :=
  let fields := AuditEvent_indexed_fields (entry_event entry) in
  let lease_id := (λ i, uuid_to_string (LeaseId_as_uuid i)) <$> fields.2 in
  let event_id_str := uuid_to_string (entry_event_id entry) in
  let timestamp_str := to_rfc3339 (entry_timestamp entry) in
  event_str ← lift (map_err (λ e, Storage ("failed to serialize event: " +:+ e))
                     (to_json (entry_event entry)));
  let agent_str := AgentId_as_str (entry_agent entry) in
  outcome_str ← lift (map_err (λ e, Storage ("failed to serialize outcome: " +:+ e))
                       (to_json (entry_outcome entry)));
  self ← read;
  fault ← db_call;
  let prev_hash := last_entry_hash fault (audit_events self) in
  let entry_hash := compute_entry_hash prev_hash event_id_str timestamp_str event_str
                      agent_str outcome_str in
  sql "failed to insert audit event";;
  match insert_event
          (mkAuditRow event_id_str timestamp_str event_str agent_str
             (entry_peer_identity entry) outcome_str fields.1 lease_id
             (Some prev_hash) (Some entry_hash)) (audit_events self) with
  | None => throw (Storage ("failed to insert audit event: " +:+ unique_violation))
  | Some rows => write (mkRusqliteAuditLog rows)
  end.

Definition RusqliteAuditLog_query_by_agent (agent : AgentId) (limit : Z)
    : LM (list AuditEntry) :=
  self ← read;
  query_rows (sql_limit (usize_as_i64 limit) (order_desc
    (filter (λ r, arow_agent r = AgentId_as_str agent) (audit_events self)))).
Definition RusqliteAuditLog_query_by_secret (secret : SecretName) (limit : Z)
    : LM (list AuditEntry) :=
  self ← read;
  query_rows (sql_limit (usize_as_i64 limit) (order_desc
    (filter (λ r, arow_secret_name r = Some (SecretName_as_str secret))
       (audit_events self)))).
Definition RusqliteAuditLog_query_by_lease (lease : LeaseId) : LM (list AuditEntry) :=
  self ← read;
  query_rows (order_desc
    (filter (λ r, arow_lease_id r = Some (uuid_to_string (LeaseId_as_uuid lease)))
       (audit_events self))).

#[global] Instance RusqliteAuditLog_AuditLog : AuditLog RusqliteAuditLog := {|
  audit_record := RusqliteAuditLog_record;
  audit_query_by_agent := RusqliteAuditLog_query_by_agent;
  audit_query_by_secret := RusqliteAuditLog_query_by_secret;
  audit_query_by_lease := RusqliteAuditLog_query_by_lease
|}.
End operations.

(** ** Facts *)

Lemma string_leb_antisym s t : String.leb s t = true → String.leb t s = true → s = t.
Proof.
  unfold String.leb. rewrite (String.compare_antisym t s).
  destruct (String.compare s t) eqn:Hc; simpl; try done.
  by apply String.compare_eq_iff in Hc.
Qed.
Lemma string_ltb_leb s t : String.ltb s t = true → String.leb s t = true.
Proof. unfold String.ltb, String.leb. by destruct (String.compare s t). Qed.
Lemma string_ltb_irrefl s : String.ltb s s ≠ true.
Proof.
  unfold String.ltb. pose proof (String.compare_antisym s s) as Ha.
  by destruct (String.compare s s).
Qed.

(** Timestamps increase strictly along the list. *)
Definition increasing (ts : list string) : Prop :=
  StronglySorted (λ a b, String.ltb a b = true) ts.
Definition in_order (rows : list AuditRow) : Prop := increasing (arow_timestamp <$> rows).

Lemma increasing_inj (rows : list AuditRow) a b :
  in_order rows → a ∈ rows → b ∈ rows → arow_timestamp a = arow_timestamp b → a = b.
Proof.
  unfold in_order, increasing. induction rows as [|r rows IH]; [by intros _ ?%not_elem_of_nil|].
  rewrite fmap_cons. intros [Hs Hall]%StronglySorted_inv Ha Hb Heq.
  rewrite Forall_fmap, Forall_forall in Hall.
  apply elem_of_cons in Ha as [->|Ha]; apply elem_of_cons in Hb as [->|Hb]; [done| | |auto].
  - destruct (string_ltb_irrefl (arow_timestamp r)). rewrite Heq at 2. by apply Hall.
  - destruct (string_ltb_irrefl (arow_timestamp r)). rewrite <-Heq at 2. by apply Hall.
Qed.

Lemma in_order_older rows : in_order rows → StronglySorted older rows.
Proof.
  unfold in_order, increasing. induction rows as [|r rows IH]; [constructor|].
  rewrite fmap_cons. intros [Hs Hall]%StronglySorted_inv. constructor; [auto|].
  rewrite Forall_fmap in Hall. eapply Forall_impl; [exact Hall|].
  intros r' Hr. by apply string_ltb_leb.
Qed.

Lemma StronglySorted_reverse {B} (R : relation B) l :
  StronglySorted R l → StronglySorted (flip R) (reverse l).
Proof.
  induction 1 as [|x l Hs IH Hall]; [constructor|]. rewrite reverse_cons.
  apply StronglySorted_app. split; [|split; [done|repeat constructor]].
  intros y z Hy Hz. apply list_elem_of_singleton in Hz as ->.
  rewrite elem_of_reverse in Hy. rewrite Forall_forall in Hall. by apply Hall.
Qed.

Section order_facts.
Context `{!SqliteAudit, !SqliteAuditLaws}.

Lemma order_asc_in_order rows : in_order rows → order_asc rows = rows.
Proof.
  intros Ho. apply (StronglySorted_unique_strong older).
  - intros a b Ha Hb Hab Hba. rewrite order_asc_perm in Ha.
    eapply increasing_inj; [done..|]. by apply string_leb_antisym.
  - apply order_asc_sorted.
  - by apply in_order_older.
  - apply order_asc_perm.
Qed.

Lemma order_desc_in_order rows : in_order rows → order_desc rows = reverse rows.
Proof.
  intros Ho. apply (StronglySorted_unique_strong (flip older)).
  - intros a b Ha Hb Hab Hba. rewrite order_desc_perm in Ha. rewrite elem_of_reverse in Hb.
    eapply increasing_inj; [done..|]. by apply string_leb_antisym.
  - apply order_desc_sorted.
  - by apply StronglySorted_reverse, in_order_older.
  - rewrite order_desc_perm. symmetry. apply reverse_Permutation.
Qed.
End order_facts.

Lemma hex_encode_inj a b : hex_encode a = hex_encode b → a = b.
Proof.
  revert b. induction a as [|x a IH]; intros [|y b] Heq; [done|done|done|].
  change (fmt_02x x +:+ hex_encode a = fmt_02x y +:+ hex_encode b) in Heq.
  apply app_inj_length in Heq as [Hxy Hab]; [|done]. f_equal; [|auto].
  pose proof (from_str_radix_fmt_02x x) as Hx. rewrite Hxy, from_str_radix_fmt_02x in Hx.
  injection Hx as Hx. rewrite <-(byte_of_val x), <-(byte_of_val y). by rewrite Hx.
Qed.

Section chain.
Context `{!Sha256}.

(** The text that [compute_entry_hash] digests for a row. *)
Definition hash_input (prev : string) (r : AuditRow) : bytes :=
  as_bytes prev ++ as_bytes (arow_event_id r) ++ as_bytes (arow_timestamp r)
    ++ as_bytes (arow_event r) ++ as_bytes (arow_agent r) ++ as_bytes (arow_outcome r).
Definition row_hash (prev : string) (r : AuditRow) : string :=
  hex_encode (sha256 (hash_input prev r)).

(** Every row carries the hash of its predecessor, and its own. *)
Fixpoint chained (prev : string) (rows : list AuditRow) : Prop :=
  match rows with
  | [] => True
  | r :: rows' =>
    arow_prev_hash r = Some prev ∧ arow_entry_hash r = Some (row_hash prev r) ∧
    chained (row_hash prev r) rows'
  end.
Definition chain_end (prev : string) (rows : list AuditRow) : string := foldl row_hash prev rows.

Lemma chained_app prev rows1 rows2 :
  chained prev (rows1 ++ rows2) ↔ chained prev rows1 ∧ chained (chain_end prev rows1) rows2.
Proof.
  revert prev. induction rows1 as [|r rows1 IH]; intros prev; simpl; [tauto|].
  rewrite IH. tauto.
Qed.

Lemma chained_hashed prev rows :
  chained prev rows → filter (λ r, is_Some (arow_entry_hash r)) rows = rows.
Proof.
  revert prev. induction rows as [|r rows IH]; intros prev; [done|]. intros (_ & Hh & Hc).
  rewrite filter_cons_True by (rewrite Hh; eauto). by rewrite (IH _ Hc).
Qed.

Lemma chained_last prev rows :
  chained prev rows →
  default prev (last rows ≫= arow_entry_hash) = chain_end prev rows.
Proof.
  destruct rows as [|r rows _] using rev_ind; [done|]. intros [_ Hc]%chained_app.
  rewrite last_snoc. unfold chain_end. rewrite foldl_app. simpl in *.
  by destruct Hc as (_ & -> & _).
Qed.

Lemma verify_row_chained t v b prev r :
  arow_prev_hash r = Some prev → arow_entry_hash r = Some (row_hash prev r) →
  verify_row (mkChainScan t v b prev) r = mkChainScan (t + 1) (v + 1) b (row_hash prev r).
Proof.
  intros Hp Hh. unfold verify_row. rewrite Hp, Hh. unfold str_eqb. simpl.
  rewrite bool_decide_true by done. simpl. by rewrite bool_decide_true.
Qed.

Lemma scan_chained rows t v b prev :
  chained prev rows →
  foldl verify_row (mkChainScan t v b prev) rows =
    mkChainScan (t + Z.of_nat (length rows)) (v + Z.of_nat (length rows)) b
      (chain_end prev rows).
Proof.
  revert t v prev. induction rows as [|r rows IH]; intros t v prev; simpl.
  { intros _. f_equal; lia. }
  intros (Hp & Hh & Hc). rewrite verify_row_chained by done. rewrite IH by done.
  f_equal; lia.
Qed.

Lemma scan_total_length rows s :
  scan_total (foldl verify_row s rows) = scan_total s + Z.of_nat (length rows).
Proof.
  revert s. induction rows as [|r rows IH]; intros s; simpl; [lia|]. rewrite IH.
  assert (scan_total (verify_row s r) = scan_total s + 1) as ->; [|lia].
  unfold verify_row. by repeat case_match.
Qed.

Lemma scan_stays_broken rows s id :
  scan_first_broken_at s = Some id →
  scan_first_broken_at (foldl verify_row s rows) = Some id.
Proof.
  revert s. induction rows as [|r rows IH]; intros s Hs; [done|]. simpl. apply IH.
  unfold verify_row. destruct (arow_prev_hash r), (arow_entry_hash r); simpl; try done.
  rewrite Hs. by repeat case_match.
Qed.
End chain.

Section log_facts.
Context `{!Env, !Chrono, !UuidText, !Rusqlite, !SqliteAudit, !Sha256}.
Context `{!Serde AuditEvent, !Serde AuditOutcome}.

Lemma verify_audit_chain_wp s w :
  wp verify_audit_chain s w (λ r s' w', s' = s ∧
    (r = Ok (scan_result (foldl verify_row scan_start (order_asc (audit_events s)))) ∨
     (∃ e, r = Err e) ∧ ¬ Reliable)).
Proof.
  unfold verify_audit_chain. do 2 wp_step. wp_step.
  wp_call sql_wp. intros r s1 w1 (-> & _ & [->|[[msg ->] Hrel]]); [|split; [done|]; right; eauto].
  wp_step. wp_call sql_wp. intros r s2 w2 (-> & _ & [->|[[msg ->] Hrel]]);
    [|split; [done|]; right; eauto].
  wp_step. apply wp_fold_m with (I := λ scan rest s' w', s' = s ∧
    foldl verify_row scan rest = foldl verify_row scan_start (order_asc (audit_events s))).
  - done.
  - intros scan row rest s3 w3 [-> Hscan]. wp_step. wp_call sql_wp.
    intros r s4 w4 (-> & _ & [->|[[msg ->] Hrel]]); [|split; [done|]; right; eauto].
    wp_step. done.
  - intros scan s3 w3 [-> Hscan]. wp_step. wp_call sql_wp.
    intros r s4 w4 (-> & _ & [->|[[msg ->] Hrel]]); [|split; [done|]; right; eauto].
    wp_step. simpl in Hscan. split; [done|]. left. by rewrite Hscan.
Qed.

Lemma verify_run `{!Reliable} s w :
  ∃ w', verify_audit_chain s w =
    (Ok (scan_result (foldl verify_row scan_start (order_asc (audit_events s)))), s, w').
Proof.
  pose proof (verify_audit_chain_wp s w) as Hwp. unfold wp in Hwp.
  destruct (verify_audit_chain s w) as [[r s'] w'].
  destruct Hwp as [-> [->|[_ []]]]; [|done]. by exists w'.
Qed.

(** The row that [record] inserts for an entry, after [prev]. *)
Definition entry_row (prev event_str outcome_str : string) (e : AuditEntry) : AuditRow :=
  let id := uuid_to_string (entry_event_id e) in
  let ts := to_rfc3339 (entry_timestamp e) in
  mkAuditRow id ts event_str (AgentId_as_str (entry_agent e)) (entry_peer_identity e)
    outcome_str (AuditEvent_indexed_fields (entry_event e)).1
    ((λ i, uuid_to_string (LeaseId_as_uuid i)) <$> (AuditEvent_indexed_fields (entry_event e)).2)
    (Some prev)
    (Some (compute_entry_hash prev id ts event_str (AgentId_as_str (entry_agent e)) outcome_str)).

Lemma RusqliteAuditLog_record_wp `{!SerdeLaws AuditEvent, !SerdeLaws AuditOutcome} e s w :
  wp (RusqliteAuditLog_record e) s w (λ r s' w', r ≠ Panic ∧ world_le w w' ∧
    if is_ok r then
      ∃ fault ev out, to_json (entry_event e) = Ok ev ∧ to_json (entry_outcome e) = Ok out ∧
        fault = io_fault (w_io w) ∧ (w_io w < w_io w')%nat ∧
        audit_events s' = audit_events s ++
          [entry_row (last_entry_hash fault (audit_events s)) ev out e]
    else s' = s).
Proof.
  unfold RusqliteAuditLog_record. cbv zeta.
  pose proof (to_json_no_panic (entry_event e)). pose proof (to_json_no_panic (entry_outcome e)).
  wp_step. destruct (to_json (entry_event e)) as [ev|m|]; [|wp_step; done|done].
  cbn [map_err]. wp_step. wp_step.
  destruct (to_json (entry_outcome e)) as [out|m|]; [|wp_step; done|done].
  cbn [map_err]. do 5 wp_step. wp_step.
  wp_call sql_wp. intros r s1 w1 (-> & Hw1 & [->|[[msg ->] _]]);
    [|split; [done|]; split; [solve_world|done]].
  unfold insert_event. case_decide; wp_step; (split; [done|]); (split; [solve_world|done || idtac]).
  simpl. exists (io_fault (w_io w)), ev, out. do 3 (split; [done|]).
  split; [|done]. destruct Hw1 as (_ & _ & _ & Hio). simpl in Hio. lia.
Qed.

Definition row_audit_entry (r : AuditRow) : option AuditEntry :=
  match row_to_audit_entry r with Ok e => Some e | _ => None end.

Context `{!ChronoLaws, !UuidTextLaws, !SerdeLaws AuditEvent, !SerdeLaws AuditOutcome}.

Lemma entry_row_roundtrip prev ev out e :
  to_json (entry_event e) = Ok ev → to_json (entry_outcome e) = Ok out →
  row_to_audit_entry (entry_row prev ev out e) = Ok e.
Proof.
  intros Hev Hout. unfold row_to_audit_entry. simpl.
  rewrite uuid_text_roundtrip, rfc3339_roundtrip. simpl.
  rewrite (json_roundtrip _ _ Hev), (json_roundtrip _ _ Hout). simpl.
  by destruct e as [? ? ? [] ? ?].
Qed.

(** The log implements the contract the vault relies on. *)
#[global] Instance RusqliteAuditLog_AuditLogLaws : AuditLogLaws RusqliteAuditLog.
Proof.
  refine {| audit_view := λ s, omap row_audit_entry (audit_events s) |}. intros e s w.
  cbn [audit_record RusqliteAuditLog_AuditLog]. wp_call RusqliteAuditLog_record_wp.
  intros r s' w' (Hp & Hw & Hr). split; [done|]. split; [done|].
  destruct (is_ok r); [|by subst]. destruct Hr as (fault & ev & out & Hev & Hout & _ & _ & ->).
  rewrite omap_app. f_equal. simpl. unfold row_audit_entry.
  by rewrite (entry_row_roundtrip _ _ _ _ Hev Hout).
Defined.
End log_facts.

(** ** Properties *)

Section theorems.
Context `{!Env, !Chrono, !UuidText, !Rusqlite, !SqliteAudit, !Sha256}.
Context `{!Serde AuditEvent, !Serde AuditOutcome}.
Context `{!SqliteAuditLaws, !ChronoLaws, !UuidTextLaws}.
Context `{!SerdeLaws AuditEvent, !SerdeLaws AuditOutcome}.

Definition timestamps (es : list AuditEntry) : list string :=
  (λ e, to_rfc3339 (entry_timestamp e)) <$> es.

(** The table holds the entries [es], chained from the genesis hash. *)
Definition holds_log (rows : list AuditRow) (es : list AuditEntry) : Prop :=
  chained genesis_hash rows ∧
  Forall2 (λ r e, row_to_audit_entry r = Ok e ∧ arow_timestamp r = to_rfc3339 (entry_timestamp e))
    rows es.

Lemma holds_log_timestamps rows es :
  holds_log rows es → arow_timestamp <$> rows = timestamps es.
Proof.
  intros [_ Hall]. induction Hall as [|r e rows es [_ Ht] _ IH]; [done|].
  unfold timestamps in *. rewrite !fmap_cons, IH. by rewrite Ht.
Qed.

Lemma last_entry_hash_chain rows es :
  holds_log rows es → increasing (timestamps es) →
  last_entry_hash None rows = chain_end genesis_hash rows.
Proof.
  intros Hh Hinc. pose proof Hh as [Hc _]. unfold last_entry_hash.
  rewrite (chained_hashed _ _ Hc), order_desc_in_order.
  - rewrite head_reverse. by apply chained_last.
  - unfold in_order. by rewrite (holds_log_timestamps _ _ Hh).
Qed.

Lemma record_holds_log e rows es fault ev out :
  holds_log rows es → increasing (timestamps es) →
  to_json (entry_event e) = Ok ev → to_json (entry_outcome e) = Ok out → fault = None →
  holds_log (rows ++ [entry_row (last_entry_hash fault rows) ev out e]) (es ++ [e]).
Proof.
  intros Hh Hinc Hev Hout ->. rewrite (last_entry_hash_chain _ _ Hh Hinc).
  destruct Hh as [Hc Hall]. split.
  - apply chained_app. split; [done|]. by simpl.
  - apply Forall2_app; [done|]. constructor; [|constructor].
    split; [by apply entry_row_roundtrip|done].
Qed.

(** No database call failed between two moments. *)
Definition no_fault_between (w w' : World) : Prop :=
  ∀ i, (w_io w ≤ i < w_io w')%nat → io_fault i = None.

Lemma record_all_wp es0 es s w :
  holds_log (audit_events s) es0 → increasing (timestamps (es0 ++ es)) →
  wp (for_each RusqliteAuditLog_record es) s w (λ r s' w',
    r = Ok tt → no_fault_between w w' → holds_log (audit_events s') (es0 ++ es)).
Proof.
  intros Hh Hinc. apply wp_for_each with (I := λ rest s' w',
    world_le w w' ∧ ∃ done_, es = done_ ++ rest ∧
      (no_fault_between w w' → holds_log (audit_events s') (es0 ++ done_))).
  - split; [done|]. exists []. by rewrite app_nil_r.
  - intros e rest s1 w1 (Hw1 & done_ & -> & Hs1). wp_call RusqliteAuditLog_record_wp.
    intros r s2 w2 (Hp & Hw2 & Hr). destruct r as [[]|m|]; [|done..].
    destruct Hr as (fault & ev & out & Hev & Hout & -> & Hio & ->).
    split; [solve_world|]. exists (done_ ++ [e]). split; [by rewrite <-app_assoc|].
    intros Hno. rewrite app_assoc.
    assert (Hle : (w_io w ≤ w_io w1)%nat) by apply Hw1.
    apply record_holds_log; [|..|apply Hno; lia]; try done.
    + apply Hs1. intros i Hi. apply Hno. lia.
    + unfold timestamps, increasing in *.
      rewrite app_assoc, fmap_app in Hinc. by apply StronglySorted_app_1_l in Hinc.
  - intros s1 w1 (_ & done_ & -> & Hs1) _ Hno. rewrite app_nil_r. by apply Hs1.
Qed.

Lemma recorded_log es w s w1 :
  for_each RusqliteAuditLog_record es (mkRusqliteAuditLog []) w = (Ok tt, s, w1) →
  no_fault_between w w1 → increasing (timestamps es) →
  holds_log (audit_events s) es ∧ in_order (audit_events s).
Proof.
  intros Hrun Hno Hinc.
  assert (Hh : holds_log (audit_events s) es).
  { refine (wp_run _ _ _ _ _ _ _ (record_all_wp [] es (mkRusqliteAuditLog []) w _ Hinc)
      Hrun eq_refl Hno). split; [done|constructor]. }
  split; [done|]. unfold in_order. by rewrite (holds_log_timestamps _ _ Hh).
Qed.

(** What a verification says unless one of its own queries fails. *)
Lemma verify_result s w r s' w' :
  verify_audit_chain s w = (r, s', w') →
  s' = s ∧ ((∃ e, r = Err e) ∧ ¬ Reliable ∨
            r = Ok (scan_result (foldl verify_row scan_start (order_asc (audit_events s))))).
Proof.
  intros Hrun. destruct (wp_run _ _ _ _ _ _ _ (verify_audit_chain_wp s w) Hrun) as [-> Hr].
  tauto.
Qed.

(** C36. The hash chain of an untouched log verifies, provided no query failed while it was
    written. When entries with increasing timestamps have been recorded into a fresh log and
    none of the database calls of those recordings failed (the lookup of the previous hash
    included, whose failure [record] does not report), [verify_audit_chain] leaves the log
    alone and, unless one of its own queries fails and it returns an error, counts and
    verifies every entry and reports no break; it says valid unless the log is empty. *)
Theorem audit_chain_complete es w s w1 w2 r s' w3 :
  for_each RusqliteAuditLog_record es (mkRusqliteAuditLog []) w = (Ok tt, s, w1) →
  no_fault_between w w1 →
  increasing (timestamps es) →
  verify_audit_chain s w2 = (r, s', w3) →
  let n := Z.of_nat (length es) in
  s' = s ∧ ((∃ e, r = Err e) ∧ ¬ Reliable ∨
            r = Ok (mkAuditChainVerification n n None (0 <? n))).
Proof.
  intros Hrun Hno Hinc Hver n. destruct (recorded_log _ _ _ _ Hrun Hno Hinc) as [[Hc Hall] Ho].
  apply verify_result in Hver as [-> Hr]. split; [done|]. destruct Hr as [Hr|Hr]; [by left|right].
  rewrite order_asc_in_order in Hr by done. unfold scan_start in Hr.
  rewrite scan_chained in Hr by done.
  rewrite (Forall2_length _ _ _ Hall) in Hr. unfold scan_result in Hr. simpl in Hr.
  by fold n in Hr.
Qed.

(** The columns the chain covers, and a row with one of them overwritten. *)
Inductive HashedColumn :=
  | ColEventId | ColTimestamp | ColEvent | ColAgent | ColOutcome | ColPrevHash | ColEntryHash.
Definition overwrite (c : HashedColumn) (v : string) (row : AuditRow) : AuditRow :=
  let '(mkAuditRow id ts ev ag peer out sec lease prev hash) := row in
  match c with
  | ColEventId => mkAuditRow v ts ev ag peer out sec lease prev hash
  | ColTimestamp => mkAuditRow id v ev ag peer out sec lease prev hash
  | ColEvent => mkAuditRow id ts v ag peer out sec lease prev hash
  | ColAgent => mkAuditRow id ts ev v peer out sec lease prev hash
  | ColOutcome => mkAuditRow id ts ev ag peer v sec lease prev hash
  | ColPrevHash => mkAuditRow id ts ev ag peer out sec lease (Some v) hash
  | ColEntryHash => mkAuditRow id ts ev ag peer out sec lease prev (Some v)
  end.

(** Overwriting one text column changes the text that is digested. *)
Lemma overwrite_input c v row prev :
  arow_prev_hash (overwrite c v row) = arow_prev_hash row →
  arow_entry_hash (overwrite c v row) = arow_entry_hash row →
  hash_input prev (overwrite c v row) = hash_input prev row → overwrite c v row = row.
Proof.
  destruct row. unfold hash_input. destruct c; simpl; try congruence; intros _ _ Heq;
    repeat (apply app_inv_head in Heq); repeat (apply app_inv_tail in Heq);
    by apply (f_equal from_bytes) in Heq; rewrite !from_as_bytes in Heq; subst.
Qed.

(** A row of the chain with one column overwritten fails its check, unless the digests of
    its old and its new text are equal. *)
Lemma verify_overwritten c v t n prev row :
  arow_prev_hash row = Some prev → arow_entry_hash row = Some (row_hash prev row) →
  overwrite c v row ≠ row →
  scan_first_broken_at (verify_row (mkChainScan t n None prev) (overwrite c v row)) =
    Some (arow_event_id (overwrite c v row)) ∨
  hash_input prev (overwrite c v row) ≠ hash_input prev row ∧
  sha256 (hash_input prev (overwrite c v row)) = sha256 (hash_input prev row).
Proof.
  intros Hp Hh Hne.
  destruct (decide (sha256 (hash_input prev (overwrite c v row)) = sha256 (hash_input prev row)))
    as [Heq|Hdiff].
  - destruct (decide (hash_input prev (overwrite c v row) = hash_input prev row)) as [Hin|Hin];
      [|by right]. left.
    assert (Hcol : c = ColPrevHash ∨ c = ColEntryHash).
    { destruct c; try (by auto); destruct Hne; apply (overwrite_input _ _ _ prev); try done;
        by destruct row. }
    destruct row as [id ts ev ag peer out sec lease prev0 [hash|]]; [|done].
    simpl in Hp, Hh. subst prev0. injection Hh as Hh.
    destruct Hcol as [-> | ->]; simpl in *; unfold verify_row, str_eqb; simpl.
    + by rewrite bool_decide_false by congruence.
    + rewrite bool_decide_true by done. simpl. rewrite bool_decide_false; [done|].
      intros Hv. apply Hne. do 2 f_equal. rewrite Hh, <-Hv. done.
  - left. assert (Hrow : row_hash prev (overwrite c v row) ≠ row_hash prev row)
      by (intros ?%hex_encode_inj; done).
    assert (Hhash : arow_entry_hash (overwrite c v row) = arow_entry_hash row).
    { by destruct c, row. }
    assert (Hprev : arow_prev_hash (overwrite c v row) = arow_prev_hash row).
    { by destruct c, row. }
    unfold verify_row. rewrite Hprev, Hhash, Hp, Hh. unfold str_eqb. simpl.
    rewrite bool_decide_true by done. simpl. by rewrite bool_decide_false.
Qed.

(** C37. Overwriting a hashed column is detected. If any one of the columns the chain covers
    (event id, timestamp, event, agent, outcome, or one of the two hashes) of a row of a
    valid log is given another text, and the timestamps still increase, [verify_audit_chain]
    leaves the log alone and, unless one of its own queries fails and it returns an error,
    counts every row, reports the log invalid and names that row, unless the old and the new
    texts of that very row are two different texts with the same SHA-256 digest. *)
Theorem audit_tamper_detected pre row c v post w r s' w' :
  chained genesis_hash (pre ++ row :: post) →
  overwrite c v row ≠ row → in_order (pre ++ overwrite c v row :: post) →
  verify_audit_chain (mkRusqliteAuditLog (pre ++ overwrite c v row :: post)) w = (r, s', w') →
  s' = mkRusqliteAuditLog (pre ++ overwrite c v row :: post) ∧
  ((∃ e, r = Err e) ∧ ¬ Reliable ∨
   (∃ verified, r = Ok (mkAuditChainVerification (Z.of_nat (length (pre ++ row :: post))) verified
      (Some (arow_event_id (overwrite c v row))) false)) ∨
   let prev := chain_end genesis_hash pre in
   hash_input prev (overwrite c v row) ≠ hash_input prev row ∧
   sha256 (hash_input prev (overwrite c v row)) = sha256 (hash_input prev row)).
Proof.
  intros Hc Hne Ho Hver. apply chained_app in Hc as [Hpre (Hrp & Hrh & _)].
  apply verify_result in Hver as [-> Hr]. split; [done|]. destruct Hr as [Hr|Hr]; [by left|right].
  simpl audit_events in Hr. rewrite order_asc_in_order, foldl_app in Hr by done.
  unfold scan_start in Hr. rewrite scan_chained in Hr by done. cbn [foldl] in Hr.
  set (scan := foldl verify_row _ post) in Hr.
  destruct (verify_overwritten c v (0 + Z.of_nat (length pre)) (0 + Z.of_nat (length pre))
    (chain_end genesis_hash pre) row Hrp Hrh Hne) as [Hb|Hcol]; [left|by right].
  apply (scan_stays_broken post) in Hb. fold scan in Hb.
  assert (Htot : scan_total scan = Z.of_nat (length (pre ++ row :: post))).
  { unfold scan. rewrite scan_total_length, length_app. simpl.
    match goal with |- scan_total ?x + _ = _ => assert (scan_total x = Z.of_nat (length pre) + 1)
      as ->; [|lia] end.
    unfold verify_row. by repeat case_match. }
  exists (scan_verified scan). unfold scan_result in Hr. by rewrite Hr, Hb, Htot.
Qed.

(** The columns are not delimited: in a valid log, bytes can be moved from the start of the
    agent to the end of the event without any effect on the verification. *)
Theorem audit_columns_undelimited pre row x y post w r s' w' :
  chained genesis_hash (pre ++ row :: post) → in_order (pre ++ row :: post) →
  arow_agent row = x +:+ y →
  let row' := overwrite ColAgent y (overwrite ColEvent (arow_event row +:+ x) row) in
  verify_audit_chain (mkRusqliteAuditLog (pre ++ row' :: post)) w = (r, s', w') →
  (∃ e, r = Err e) ∧ ¬ Reliable ∨
  let n := Z.of_nat (length (pre ++ row :: post)) in
  r = Ok (mkAuditChainVerification n n None true).
Proof.
  intros Hc Ho Hag row' Hver. apply verify_result in Hver as [_ Hr].
  destruct Hr as [Hr|Hr]; [by left|right]. intros n.
  assert (Hrow : ∀ prev, row_hash prev row' = row_hash prev row).
  { intros prev. unfold row_hash, hash_input, row'. destruct row. simpl in *. subst.
    by rewrite !as_bytes_app, <-!app_assoc. }
  assert (Hc' : chained genesis_hash (pre ++ row' :: post)).
  { apply chained_app in Hc as [Hpre (Hp & Hh & Hpost)]. apply chained_app. split; [done|].
    simpl. rewrite Hrow. unfold row'. by destruct row. }
  rewrite order_asc_in_order in Hr.
  2: { unfold in_order in *. simpl. rewrite !fmap_app, !fmap_cons in *. unfold row'.
       by destruct row. }
  unfold scan_start in Hr. simpl audit_events in Hr. rewrite scan_chained in Hr by done.
  assert (Hn : length (pre ++ row' :: post) = length (pre ++ row :: post))
    by (by rewrite !length_app).
  rewrite Hn in Hr. fold n in Hr. rewrite Hr. unfold scan_result. do 2 f_equal.
  apply Z.ltb_lt. unfold n. simpl. rewrite length_app. simpl. lia.
Qed.

(** Two rows that agree on the columns the chain covers. *)
Definition same_hashed (a b : AuditRow) : Prop :=
  arow_event_id a = arow_event_id b ∧ arow_timestamp a = arow_timestamp b ∧
  arow_event a = arow_event b ∧ arow_agent a = arow_agent b ∧
  arow_outcome a = arow_outcome b ∧ arow_prev_hash a = arow_prev_hash b ∧
  arow_entry_hash a = arow_entry_hash b.

(** What the chain does not protect. Of a valid log, any non-empty initial part is
    valid too, so the removal of the latest entries goes unnoticed; and the peer
    identity, secret and lease columns can be rewritten at will without any effect on the
    verification. *)
Theorem audit_chain_blind_spots `{!Reliable} rows rows' k w :
  chained genesis_hash rows → in_order rows →
  Forall2 same_hashed rows' rows → (0 < k ≤ length rows)%nat →
  (∃ w', verify_audit_chain (mkRusqliteAuditLog (take k rows)) w =
     (Ok (mkAuditChainVerification (Z.of_nat k) (Z.of_nat k) None true),
      mkRusqliteAuditLog (take k rows), w')) ∧
  (∃ v w' w'', verify_audit_chain (mkRusqliteAuditLog rows) w =
                 (Ok v, mkRusqliteAuditLog rows, w') ∧
               verify_audit_chain (mkRusqliteAuditLog rows') w =
                 (Ok v, mkRusqliteAuditLog rows', w'')).
Proof.
  intros Hc Ho Hall Hk. split.
  - destruct (verify_run (mkRusqliteAuditLog (take k rows)) w) as [w' ->]. exists w'.
    rewrite <-(take_drop k rows) in Hc, Ho. apply chained_app in Hc as [Hc _].
    unfold in_order, increasing in Ho. rewrite fmap_app in Ho.
    apply StronglySorted_app_1_l in Ho. simpl audit_events.
    rewrite order_asc_in_order by done. unfold scan_start. rewrite scan_chained by done.
    unfold scan_result. simpl. rewrite length_take. repeat f_equal; try lia.
    apply Z.ltb_lt. lia.
  - assert (Hts : arow_timestamp <$> rows' = arow_timestamp <$> rows).
    { clear -Hall. induction Hall as [|a b l l' (_ & Ht & _) _ IH]; [done|].
      by rewrite !fmap_cons, IH, Ht. }
    destruct (verify_run (mkRusqliteAuditLog rows) w) as [w1 ->].
    destruct (verify_run (mkRusqliteAuditLog rows') w) as [w2 ->].
    eexists _, w1, w2. split; [done|]. simpl audit_events.
    rewrite !order_asc_in_order by (unfold in_order in *; by rewrite ?Hts).
    do 4 f_equal. generalize scan_start. clear -Hall.
    induction Hall as [|a b l l' Hab _ IH]; intros s; [done|]. simpl.
    assert (verify_row s a = verify_row s b) as ->; [|apply IH].
    destruct Hab as (Hi & Ht & He & Hg & Hu & Hp & Hh). unfold verify_row.
    by rewrite Hi, Ht, He, Hg, Hu, Hp, Hh.
Qed.
End theorems.

(** ** Witnesses *)

Lemma string_leb_cons a b s t :
  String.leb (String a s) (String b t) = true ↔
  (Ascii.N_of_ascii a < Ascii.N_of_ascii b)%N ∨ a = b ∧ String.leb s t = true.
Proof.
  unfold String.leb. simpl. unfold Ascii.compare.
  destruct (N.compare_spec (Ascii.N_of_ascii a) (Ascii.N_of_ascii b)) as [He|Hl|Hg].
  - assert (a = b) as -> by (by rewrite <-(Ascii.ascii_N_embedding a), He,
      Ascii.ascii_N_embedding).
    destruct (String.compare s t); split; try done; try (by right); intros [?|[_ ?]]; try done; lia.
  - split; [by left|done].
  - split; [done|]. intros [?|[-> _]]; lia.
Qed.

#[global] Instance older_dec : RelDecision older.
Proof. intros a b. unfold older. apply _. Defined.
#[global] Instance older_trans : Transitive older.
Proof.
  intros [? x] [? y] [? z]. unfold older. simpl. revert y z.
  induction x as [|a x IH]; intros [|b y] [|c z]; try done.
  rewrite !string_leb_cons. intros [?|[-> ?]] [?|[-> ?]]; [left; lia|by left|by left|].
  right. split; [done|]. by eapply IH.
Qed.
#[global] Instance older_total : Total older.
Proof.
  intros a b. unfold older, String.leb.
  rewrite (String.compare_antisym (arow_timestamp b)).
  destruct (String.compare (arow_timestamp a) (arow_timestamp b)); simpl; auto.
Qed.

Definition demo_SqliteAudit : SqliteAudit := {|
  order_asc := merge_sort older;
  order_desc := λ rows, reverse (merge_sort older rows);
  unique_violation := "UNIQUE constraint failed";
  duplicate_column := "duplicate column"
|}.
Definition demo_SqliteAuditLaws : @SqliteAuditLaws demo_SqliteAudit.
Proof.
  constructor; intros rows; cbn [order_asc order_desc demo_SqliteAudit].
  - apply merge_sort_Permutation.
  - apply StronglySorted_merge_sort; apply _.
  - rewrite reverse_Permutation. apply merge_sort_Permutation.
  - apply StronglySorted_reverse, StronglySorted_merge_sort; apply _.
Qed.

(** JSON for the events and outcomes that the witnesses record. *)
Definition demo_Serde_AuditEvent : Serde AuditEvent := {|
  to_json := λ e, match e with EvDekRotated => Ok "DekRotated" | _ => Err "unsupported" end;
  from_json := λ s, if decide (s = "DekRotated") then Ok EvDekRotated else Err "unsupported"
|}.
Definition demo_SerdeLaws_AuditEvent : @SerdeLaws _ demo_Serde_AuditEvent.
Proof.
  constructor; unfold to_json, from_json; cbn [demo_Serde_AuditEvent].
  - by intros [].
  - intros s. by case_decide.
  - intros [] s [=]. subst. by rewrite decide_True.
Qed.
Definition demo_Serde_AuditOutcome : Serde AuditOutcome := {|
  to_json := λ e, match e with Success => Ok "Success" | _ => Err "unsupported" end;
  from_json := λ s, if decide (s = "Success") then Ok Success else Err "unsupported"
|}.
Definition demo_SerdeLaws_AuditOutcome : @SerdeLaws _ demo_Serde_AuditOutcome.
Proof.
  constructor; unfold to_json, from_json; cbn [demo_Serde_AuditOutcome].
  - by intros [].
  - intros s. by case_decide.
  - intros [] s [=]. subst. by rewrite decide_True.
Qed.

Section witnesses.
#[local] Existing Instance demo_Env.
#[local] Existing Instance demo_Chrono.
#[local] Existing Instance demo_ChronoLaws.
#[local] Existing Instance demo_UuidText.
#[local] Existing Instance demo_UuidTextLaws.
#[local] Existing Instance demo_Sha256.
#[local] Existing Instance demo_SqliteAudit.
#[local] Existing Instance demo_SqliteAuditLaws.
#[local] Existing Instance demo_Serde_AuditEvent.
#[local] Existing Instance demo_SerdeLaws_AuditEvent.
#[local] Existing Instance demo_Serde_AuditOutcome.
#[local] Existing Instance demo_SerdeLaws_AuditOutcome.
#[local] Instance demo_no_fault : Reliable.
Proof. done. Qed.

Definition demo_entry (t : Z) (id : Uuid) : AuditEntry :=
  mkAuditEntry t id EvDekRotated (AgentId_new "admin") "anonymous" Success.
Definition demo_entries : list AuditEntry := [demo_entry 1 7; demo_entry 3 8].
Definition demo_log : RusqliteAuditLog :=
  (for_each RusqliteAuditLog_record demo_entries (mkRusqliteAuditLog []) demo_world).1.2.

Lemma demo_entries_increasing : increasing (timestamps demo_entries).
Proof. repeat constructor. Qed.

Lemma demo_log_run : ∃ w1,
  for_each RusqliteAuditLog_record demo_entries (mkRusqliteAuditLog []) demo_world
    = (Ok tt, demo_log, w1).
Proof. eexists. vm_compute. reflexivity. Qed.

Lemma audit_chain_complete_witness :
  ∃ w1 r w3, verify_audit_chain demo_log w1 = (r, demo_log, w3) ∧
    r = Ok (mkAuditChainVerification 2 2 None true).
Proof.
  destruct demo_log_run as [w1 Hrun].
  destruct (verify_audit_chain demo_log w1) as [[r s'] w3] eqn:Hver.
  destruct (audit_chain_complete demo_entries demo_world demo_log w1 w1 r s' w3 Hrun
    (λ i _, eq_refl) demo_entries_increasing Hver) as [-> [[_ []]| ->]]; [exact demo_no_fault|].
  exists w1, (Ok (mkAuditChainVerification 2 2 None true)), w3. split; [exact Hver|reflexivity].
Defined.

Lemma demo_log_rows : ∃ r r2, audit_events demo_log = [r; r2] ∧ arow_agent r = "admin".
Proof. eexists _, _. split; vm_compute; reflexivity. Qed.

Lemma demo_log_ok :
  holds_log (audit_events demo_log) demo_entries ∧ in_order (audit_events demo_log).
Proof.
  destruct demo_log_run as [w1 Hrun].
  exact (recorded_log _ _ _ _ Hrun (λ i _, eq_refl) demo_entries_increasing).
Qed.

(** The log with its first agent changed. *)
Lemma audit_tamper_detected_witness :
  ∃ row post r w', verify_audit_chain
      (mkRusqliteAuditLog ([] ++ overwrite ColAgent "mallory" row :: post)) demo_world =
      (r, mkRusqliteAuditLog (overwrite ColAgent "mallory" row :: post), w') ∧
    ((∃ verified, r = Ok (mkAuditChainVerification 2 verified (Some (arow_event_id row)) false)) ∨
     sha256 (hash_input genesis_hash (overwrite ColAgent "mallory" row)) =
     sha256 (hash_input genesis_hash row)).
Proof.
  destruct demo_log_rows as (row & r2 & Hr & Ha). exists row, [r2].
  destruct demo_log_ok as [[Hc _] Ho]. rewrite Hr in Hc, Ho.
  destruct (verify_audit_chain (mkRusqliteAuditLog ([] ++ overwrite ColAgent "mallory" row :: [r2]))
    demo_world) as [[r s'] w'] eqn:Hver.
  destruct (audit_tamper_detected [] row ColAgent "mallory" [r2] demo_world r s' w' Hc)
    as [-> Hres]; [| |exact Hver|].
  - intros Heq. apply (f_equal arow_agent) in Heq. rewrite Ha in Heq. destruct row. discriminate.
  - destruct row. exact Ho.
  - exists r, w'. split; [reflexivity|]. destruct Hres as [[_ []]|[[verified ->]|[_ Hcol]]].
    + exact demo_no_fault.
    + left. exists verified. destruct row. reflexivity.
    + right. exact Hcol.
Defined.

Lemma audit_chain_blind_spots_witness :
  ∃ w', verify_audit_chain (mkRusqliteAuditLog (take 1 (audit_events demo_log))) demo_world =
    (Ok (mkAuditChainVerification 1 1 None true),
     mkRusqliteAuditLog (take 1 (audit_events demo_log)), w').
Proof.
  destruct demo_log_ok as [[Hc _] Ho].
  apply (audit_chain_blind_spots (audit_events demo_log) (audit_events demo_log) 1 demo_world
           Hc Ho).
  - apply Forall_Forall2_diag, Forall_true. done.
  - vm_compute. lia.
Defined.

(** The chain follows insertion, verification follows timestamps. Two entries recorded
    through the log itself, the second with an earlier timestamp than the first, leave a
    log that [verify_audit_chain] declares broken. *)
Theorem audit_chain_needs_increasing_time :
  let s := (for_each RusqliteAuditLog_record [demo_entry 3 7; demo_entry 1 8]
              (mkRusqliteAuditLog []) demo_world).1.2 in
  (verify_audit_chain s demo_world).1.1 =
    Ok (mkAuditChainVerification 2 0 (Some (uuid_to_string 8)) false).
Proof. vm_compute. reflexivity. Qed.

(** A failure of the lookup of the previous hash is not reported, and breaks the chain: both
    entries are recorded with success, the second chained from the genesis hash, and the
    untouched log is declared broken. *)
Definition lost_lookup_Env : Env := {|
  clock := clock (Env := demo_Env);
  now_v7 := now_v7 (Env := demo_Env);
  os_rng := os_rng (Env := demo_Env);
  io_fault := λ i, if decide (i = 2)%nat then Some "disk I/O error" else None
|}.
Theorem audit_chain_lost_lookup :
  let '(r, s, w) := for_each (RusqliteAuditLog_record (H := lost_lookup_Env)) demo_entries
                      (mkRusqliteAuditLog []) demo_world in
  r = Ok tt ∧ length (audit_events s) = 2%nat ∧
  (verify_audit_chain (H := lost_lookup_Env) s w).1.1 =
    Ok (mkAuditChainVerification 2 1 (Some (uuid_to_string 8)) false).
Proof. vm_compute. done. Qed.
End witnesses.
