(* ===== verification/PostgresAudit.v ===== *)
(** The PostgreSQL audit log: [crates/zerolease-store-postgres/src/audit.rs].

    Like the SQLite log without its hash chain. [ORDER BY timestamp DESC] may break ties
    either way, so the order is a parameter with the sorting it promises; a negative
    [LIMIT] is an error here, where SQLite reads it as none. *)
From stdpp Require Import sorting.
From S2P Require Import Prelude Text Concrete Types Auth AuditEvents RusqliteStore RusqliteAudit.
From S2P Require Import PostgresStore.

Local Open Scope string_scope.
Local Open Scope Z_scope.
Local Open Scope list_scope.

Record PgAuditRow := mkPgAuditRow {
  pga_event_id : string;
  pga_timestamp : DateTime;
  pga_event : string;
  pga_agent : string;
  pga_peer_identity : string;
  pga_outcome : string;
  pga_secret_name : option string;
  pga_lease_id : option string
}.

Record PostgresAuditLog := mkPostgresAuditLog { pg_audit_events : list PgAuditRow }.

Definition newer_row (a b : PgAuditRow) : Prop := pga_timestamp b ≤ pga_timestamp a.

(** The database: [ORDER BY timestamp DESC], and its messages. *)
Class PgAudit := {
  pg_order_desc : list PgAuditRow → list PgAuditRow;
  pg_unique_violation : string;
  limit_must_not_be_negative : string
}.
Class PgAuditLaws `{!PgAudit} := {
  pg_order_desc_perm : ∀ rows, pg_order_desc rows ≡ₚ rows;
  pg_order_desc_sorted : ∀ rows, StronglySorted newer_row (pg_order_desc rows)
}.

(** ** Operations *)

Section operations.
Context `{!Env, !UuidText, !Postgres, !PgAudit, !Serde AuditEvent, !Serde AuditOutcome}.
Abbreviation LM := (M PostgresAuditLog Error).

(** [PostgresAuditLog::new]; [rows] is what the database holds. *)
Definition PostgresAuditLog_new (rows : list PgAuditRow) : M unit Error PostgresAuditLog :=
  sql "failed to open audit database";;
  sql "failed to create audit schema";;
  mret (mkPostgresAuditLog rows).

Definition pg_row_to_audit_entry (row : PgAuditRow) : outcome Error AuditEntry :=
  row_bind (map_err (λ e, Storage ("invalid event_id: " +:+ e))
              (uuid_parse_str (pga_event_id row))) (λ event_id,
  row_bind (map_err (λ e, Storage ("invalid event JSON: " +:+ e))
              (from_json (pga_event row))) (λ event,
  row_bind (map_err (λ e, Storage ("invalid outcome JSON: " +:+ e))
              (from_json (pga_outcome row))) (λ outcome,
  Ok (mkAuditEntry (pga_timestamp row) event_id event (AgentId_new (pga_agent row))
        (pga_peer_identity row) outcome)))).

Definition pg_insert_event (row : PgAuditRow) (rows : list PgAuditRow)
    : option (list PgAuditRow) :=
  if decide (Exists (λ r, pga_event_id r = pga_event_id row) rows)
  then None else Some (rows ++ [row]).

Definition PostgresAuditLog_record (entry : AuditEntry) : LM unit :=
  let fields := AuditEvent_indexed_fields (entry_event entry) in
  let lease_id_str := (λ i, uuid_to_string (LeaseId_as_uuid i)) <$> fields.2 in
  let event_id_str := uuid_to_string (entry_event_id entry) in
  event_str ← lift (map_err (λ e, Storage ("failed to serialize event: " +:+ e))
                     (to_json (entry_event entry)));
  let agent_str := AgentId_as_str (entry_agent entry) in
  outcome_str ← lift (map_err (λ e, Storage ("failed to serialize outcome: " +:+ e))
                       (to_json (entry_outcome entry)));
  sql "failed to insert audit event";;
  self ← read;
  match pg_insert_event
          (mkPgAuditRow event_id_str (pg_timestamp (entry_timestamp entry)) event_str agent_str
             (entry_peer_identity entry) outcome_str fields.1 lease_id_str)
          (pg_audit_events self) with
  | None => throw (Storage ("failed to insert audit event: " +:+ pg_unique_violation))
  | Some rows => write (mkPostgresAuditLog rows)
  end.

(** [rows.iter().map(row_to_audit_entry).collect()] *)
Definition pg_collect (rows : list PgAuditRow) : LM (list AuditEntry) :=
  traverse (λ row, lift (pg_row_to_audit_entry row)) rows.

(** [LIMIT $2] *)
Definition pg_limit (what : string) (n : Z) (rows : list PgAuditRow) : LM (list PgAuditRow) :=
  if n <? 0 then throw (Storage (what +:+ ": " +:+ limit_must_not_be_negative))
  else mret (take (Z.to_nat n) rows).

Definition PostgresAuditLog_query_by_agent (agent : AgentId) (limit : Z)
    : LM (list AuditEntry) :=
  sql "query_by_agent failed";;
  self ← read;
  rows ← pg_limit "query_by_agent failed" (usize_as_i64 limit) (pg_order_desc
    (filter (λ r, pga_agent r = AgentId_as_str agent) (pg_audit_events self)));
  pg_collect rows.

Definition PostgresAuditLog_query_by_secret (secret : SecretName) (limit : Z)
    : LM (list AuditEntry) :=
  sql "query_by_secret failed";;
  self ← read;
  rows ← pg_limit "query_by_secret failed" (usize_as_i64 limit) (pg_order_desc
    (filter (λ r, pga_secret_name r = Some (SecretName_as_str secret)) (pg_audit_events self)));
  pg_collect rows.

Definition PostgresAuditLog_query_by_lease (lease : LeaseId) : LM (list AuditEntry) :=
  sql "query_by_lease failed";;
  self ← read;
  pg_collect (pg_order_desc
    (filter (λ r, pga_lease_id r = Some (uuid_to_string (LeaseId_as_uuid lease)))
       (pg_audit_events self))).

#[global] Instance PostgresAuditLog_AuditLog : AuditLog PostgresAuditLog := {|
  audit_record := PostgresAuditLog_record;
  audit_query_by_agent := PostgresAuditLog_query_by_agent;
  audit_query_by_secret := PostgresAuditLog_query_by_secret;
  audit_query_by_lease := PostgresAuditLog_query_by_lease
|}.
End operations.

(** ** What the table holds *)

Section facts.
Context `{!Env, !UuidText, !Postgres, !PgAudit, !Serde AuditEvent, !Serde AuditOutcome}.
Context `{!UuidTextLaws, !SerdeLaws AuditEvent, !SerdeLaws AuditOutcome}.
Implicit Types (e : AuditEntry) (rows : list PgAuditRow).

(** An entry with the timestamp that the column keeps of it. *)
Definition pg_entry (e : AuditEntry) : AuditEntry :=
  mkAuditEntry (pg_timestamp (entry_timestamp e)) (entry_event_id e) (entry_event e)
    (entry_agent e) (entry_peer_identity e) (entry_outcome e).

(** The row of an entry. *)
Definition pg_row_of (r : PgAuditRow) (e : AuditEntry) : Prop :=
  pg_row_to_audit_entry r = Ok (pg_entry e) ∧
  pga_secret_name r = (AuditEvent_indexed_fields (entry_event e)).1 ∧
  pga_lease_id r = (λ i, uuid_to_string (LeaseId_as_uuid i)) <$>
                     (AuditEvent_indexed_fields (entry_event e)).2.

Lemma PostgresAuditLog_record_wp e s w :
  wp (PostgresAuditLog_record e) s w (λ r s' w', r ≠ Panic ∧ world_le w w' ∧
    if is_ok r then ∃ row, pg_row_of row e ∧ pg_audit_events s' = pg_audit_events s ++ [row]
    else s' = s).
Proof.
  unfold PostgresAuditLog_record. cbv zeta.
  pose proof (to_json_no_panic (entry_event e)). pose proof (to_json_no_panic (entry_outcome e)).
  wp_step. destruct (to_json (entry_event e)) as [ev|m|] eqn:Hev; [|wp_step; done|done].
  cbn [map_err]. wp_step. wp_step.
  destruct (to_json (entry_outcome e)) as [out|m|] eqn:Hout; [|wp_step; done|done].
  cbn [map_err]. wp_step. wp_step.
  wp_call sql_wp. intros r s1 w1 (-> & Hw1 & [->|[[msg ->] _]]);
    [|split; [done|]; split; [solve_world|done]].
  wp_step. wp_step.
  unfold pg_insert_event. case_decide; wp_step; (split; [done|]); (split; [solve_world|]); [done|].
  simpl. eexists. split; [|done]. split; [|done]. unfold pg_row_to_audit_entry. simpl.
  rewrite uuid_text_roundtrip, (json_roundtrip _ _ Hev), (json_roundtrip _ _ Hout). simpl.
  by destruct e as [? ? ? [] ? ?].
Qed.

Lemma pg_record_all_wp es s w :
  pg_audit_events s = [] →
  wp (for_each PostgresAuditLog_record es) s w (λ r s' w',
    r = Ok tt → Forall2 pg_row_of (pg_audit_events s') es).
Proof.
  intros Hs. apply wp_for_each with (I := λ rest s' w',
    ∃ done_, es = done_ ++ rest ∧ Forall2 pg_row_of (pg_audit_events s') done_).
  - exists []. split; [done|]. rewrite Hs. constructor.
  - intros e rest s1 w1 (done_ & -> & Hs1). wp_call PostgresAuditLog_record_wp.
    intros r s2 w2 (Hp & _ & Hr). destruct r as [[]|m|]; [|done..].
    destruct Hr as (row & Hrow & ->). exists (done_ ++ [e]).
    split; [by rewrite <-app_assoc|]. apply Forall2_app; [done|]. by constructor.
  - intros s1 w1 (done_ & -> & Hs1) _. by rewrite app_nil_r.
Qed.

(** ** Queries *)

(** [es'] are the entries [es], the latest first. *)
Definition newest_first (es es' : list AuditEntry) : Prop :=
  es' ≡ₚ es ∧ StronglySorted (λ a b, entry_timestamp b ≤ entry_timestamp a) es'.

Lemma decoded_fields r e :
  pg_row_to_audit_entry r = Ok e →
  pga_timestamp r = entry_timestamp e ∧ pga_agent r = AgentId_as_str (entry_agent e).
Proof. unfold pg_row_to_audit_entry, row_bind. intros Hd. by repeat case_match; simplify_eq/=. Qed.

Lemma decoded_sorted rows es :
  Forall2 (λ r e, pg_row_to_audit_entry r = Ok e) rows es → StronglySorted newer_row rows →
  StronglySorted (λ a b, entry_timestamp b ≤ entry_timestamp a) es.
Proof.
  induction 1 as [|r e rows es Hr Hall IH]; [constructor|].
  intros [Hs Hnew]%StronglySorted_inv. constructor; [auto|].
  rewrite Forall_forall in Hnew. apply Forall_forall. intros e' [i Hi]%list_elem_of_lookup.
  destruct (Forall2_lookup_r _ _ _ _ _ Hall Hi) as (r' & Hr' & He').
  rewrite <-(proj1 (decoded_fields _ _ Hr)), <-(proj1 (decoded_fields _ _ He')).
  apply Hnew. by eapply list_elem_of_lookup_2.
Qed.

Section selection.
Context (P : PgAuditRow → Prop) `{!∀ r, Decision (P r)}.
Context (Q : AuditEntry → Prop) `{!∀ e, Decision (Q e)}.
Hypothesis same : ∀ r e, pg_row_of r e → P r ↔ Q (pg_entry e).

Lemma pg_filtered rows es :
  Forall2 pg_row_of rows es →
  Forall2 (λ r e, pg_row_to_audit_entry r = Ok e) (filter P rows) (filter Q (pg_entry <$> es)).
Proof using same.
  induction 1 as [|r e rows es Hr _ IH]; [constructor|].
  rewrite fmap_cons, !filter_cons. pose proof (same r e Hr).
  repeat case_decide; try tauto. constructor; [apply Hr|done].
Qed.

Lemma pg_selected `{!PgAuditLaws} rows es :
  Forall2 pg_row_of rows es →
  ∃ es', newest_first (filter Q (pg_entry <$> es)) es' ∧
    Forall2 (λ r e, pg_row_to_audit_entry r = Ok e) (pg_order_desc (filter P rows)) es'.
Proof using same.
  intros Hall%pg_filtered.
  destruct (Permutation_Forall2 (symmetry (pg_order_desc_perm (filter P rows))) Hall)
    as (es' & Hperm & Hall'). exists es'. split; [|done].
  split; [by symmetry|]. eapply decoded_sorted; [done|]. apply pg_order_desc_sorted.
Qed.
End selection.

Lemma pg_collect_wp rows es s w :
  Forall2 (λ r e, pg_row_to_audit_entry r = Ok e) rows es →
  wp (pg_collect rows) s w (λ r s' w', r = Ok es ∧ s' = s).
Proof.
  unfold pg_collect. intros Hall. revert w. induction Hall as [|r e rows es Hr _ IH]; intros w;
    cbn [traverse]; [by wp_step|].
  wp_step. rewrite Hr. wp_step. wp_step. wp_call IH. intros r' s' w' [-> ->]. by wp_step.
Qed.

Lemma pg_limited_wp what limit rows es s w :
  0 ≤ limit < 18446744073709551616 →
  Forall2 (λ r e, pg_row_to_audit_entry r = Ok e) rows es →
  wp (rows' ← pg_limit what (usize_as_i64 limit) rows; pg_collect rows') s w (λ r s' w', s' = s ∧
    if limit <? 9223372036854775808 then r = Ok (take (Z.to_nat limit) es)
    else ∃ msg, r = Err (Storage msg)).
Proof.
  intros Hl Hall. unfold pg_limit, usize_as_i64. wp_step.
  destruct (Z.ltb_spec limit 9223372036854775808) as [Hlt|Hge].
  - rewrite (proj2 (Z.ltb_ge limit 0)) by lia. wp_step.
    eapply wp_mono; [apply pg_collect_wp, Forall2_take; exact Hall|]. cbn beta. naive_solver.
  - rewrite (proj2 (Z.ltb_lt _ 0)) by lia. wp_step. split; [done|]. by eexists.
Qed.

Lemma lease_text_inj (i j : LeaseId) :
  uuid_to_string (LeaseId_as_uuid i) = uuid_to_string (LeaseId_as_uuid j) ↔ i = j.
Proof.
  split; [|congruence]. intros Heq. apply (f_equal uuid_parse_str) in Heq.
  rewrite !uuid_text_roundtrip in Heq. destruct i, j. simpl in Heq. congruence.
Qed.
End facts.

(** ** Properties *)

Section theorems.
Context `{!Env, !UuidText, !Postgres, !PgAudit, !Serde AuditEvent, !Serde AuditOutcome}.
Context `{!UuidTextLaws, !SerdeLaws AuditEvent, !SerdeLaws AuditOutcome, !PgAuditLaws, !Reliable}.

(** The answer to a query that may take at most [limit] of the entries [es]. *)
Definition limited_answer (limit : Z) (es : list AuditEntry) (s : PostgresAuditLog)
    (out : outcome Error (list AuditEntry) * PostgresAuditLog * World) : Prop :=
  if limit <? 9223372036854775808
  then ∃ es' w', newest_first es es' ∧ out = (Ok (take (Z.to_nat limit) es'), s, w')
  else ∃ msg w', out = (Err (Storage msg), s, w').

Lemma pg_limited_query what (P : PgAuditRow → Prop) `{!∀ r, Decision (P r)}
    (Q : AuditEntry → Prop) `{!∀ e, Decision (Q e)} limit es s w :
  (∀ r e, pg_row_of r e → P r ↔ Q (pg_entry e)) →
  Forall2 pg_row_of (pg_audit_events s) es → 0 ≤ limit < 18446744073709551616 →
  limited_answer limit (filter Q (pg_entry <$> es)) s
    ((sql what;; self ← read;
      rows ← pg_limit what (usize_as_i64 limit) (pg_order_desc (filter P (pg_audit_events self)));
      pg_collect rows) s w).
Proof.
  intros Hsame Hall Hl. destruct (pg_selected P Q Hsame _ _ Hall) as (es' & Hnew & Hdec).
  unfold limited_answer.
  match goal with |- context [(?m : M _ _ _) s w] => set (q := m) end.
  assert (Hq : wp q s w (λ r s' _, s' = s ∧
    if limit <? 9223372036854775808 then r = Ok (take (Z.to_nat limit) es')
    else ∃ msg, r = Err (Storage msg))).
  { unfold q. wp_step. wp_call sql_wp. intros r s1 w2 (-> & _ & [->|[_ []]]); [|done].
    wp_step. wp_step. by apply pg_limited_wp. }
  unfold wp in Hq. destruct (q s w) as [[r s'] w']. destruct Hq as [-> Hr].
  destruct (limit <? _).
  - exists es', w'. by rewrite Hr.
  - destruct Hr as [msg ->]. by exists msg, w'.
Qed.

End theorems.

(** ** Witness *)

#[global] Instance newer_row_dec : RelDecision newer_row.
Proof. intros a b. unfold newer_row. apply _. Defined.
#[global] Instance newer_row_trans : Transitive newer_row.
Proof. intros a b c. unfold newer_row. lia. Qed.
#[global] Instance newer_row_total : Total newer_row.
Proof. intros a b. unfold newer_row. lia. Qed.

Definition demo_PgAudit : PgAudit := {|
  pg_order_desc := merge_sort newer_row;
  pg_unique_violation := "duplicate key value violates unique constraint";
  limit_must_not_be_negative := "LIMIT must not be negative"
|}.
Definition demo_PgAuditLaws : @PgAuditLaws demo_PgAudit.
Proof.
  constructor; intros rows; cbn [pg_order_desc demo_PgAudit].
  - apply merge_sort_Permutation.
  - apply StronglySorted_merge_sort; apply _.
Qed.

Section witnesses.
#[local] Existing Instance demo_Env.
#[local] Existing Instance demo_UuidText.
#[local] Existing Instance demo_UuidTextLaws.
#[local] Existing Instance demo_Postgres.
#[local] Existing Instance demo_PgAudit.
#[local] Existing Instance demo_PgAuditLaws.
#[local] Existing Instance demo_Serde_AuditEvent.
#[local] Existing Instance demo_SerdeLaws_AuditEvent.
#[local] Existing Instance demo_Serde_AuditOutcome.
#[local] Existing Instance demo_SerdeLaws_AuditOutcome.
#[local] Existing Instance demo_no_fault.

End witnesses.
