(* ===== verification/Frame.v ===== *)
(** Length-prefixed frames: [src/protocol/frame.rs].

    A connection is the bytes the peer will still deliver before it closes, and the bytes
    written so far. Any call into it can fail with an I/O error ([io_fault]); a failing
    [write_all] may have written part of its data. *)
From S2P Require Import Prelude Text Concrete Types.

Local Open Scope string_scope.
Local Open Scope Z_scope.
Local Open Scope list_scope.

Record Stream := mkStream { incoming : bytes; outgoing : bytes }.

(** How much of its data a failing [write_all] has written. *)
Class StreamIO := written_before_fault : nat → nat.

Definition MAX_FRAME_SIZE : Z := 1048576.

(** [u32::to_be_bytes] and [u32::from_be_bytes] *)
Definition to_be_bytes (n : Z) : bytes :=
  [byte_of (Z.shiftr n 24); byte_of (Z.shiftr n 16); byte_of (Z.shiftr n 8); byte_of n].
Definition from_be_bytes (b : bytes) : Z := foldl (λ acc x, Z.lor (Z.shiftl acc 8) (byte_val x)) 0 b.

(** [std::io::Error]: the end of the stream, or another failure with its text. *)
Inductive IoError := UnexpectedEof | IoOther (msg : string).

Section frame.
Context `{!Env, !StreamIO}.

(** [AsyncReadExt::read_exact] for a buffer of [n] bytes. The incoming bytes are all that the
    peer sends before it closes: a call that would wait for more ends when the peer closes. A
    peer that neither sends nor closes leaves the caller at this call; [ServerFair] looks at
    handlers that stay there. *)
Definition read_exact (n : nat) : M Stream IoError bytes :=
  fault ← db_call;
  s ← read;
  match fault with
  | Some e => throw (IoOther e)
  | None =>
    if (length (incoming s) <? n)%nat then
      write (mkStream [] (outgoing s));; throw UnexpectedEof
    else
      write (mkStream (drop n (incoming s)) (outgoing s));; mret (take n (incoming s))
  end.

(** [AsyncWriteExt::write_all] and [flush] *)
Definition write_all (data : bytes) : M Stream string unit := λ s w,
  match io_fault (w_io w) with
  | Some e =>
    (Err e, mkStream (incoming s) (outgoing s ++ take (written_before_fault (w_io w)) data),
     tick_io w)
  | None => (Ok tt, mkStream (incoming s) (outgoing s ++ data), tick_io w)
  end.
Definition flush : M Stream string unit :=
  fault ← db_call;
  match fault with Some e => throw e | None => mret tt end.

(** The two closures of [read_frame]'s [map_err]. *)
Definition read_error (what : string) (e : IoError) : Error :=
  match e with
  | UnexpectedEof => Transport ("unexpected EOF reading frame " +:+ what)
  | IoOther msg => Transport ("failed to read frame " +:+ what +:+ ": " +:+ msg)
  end.

Definition frame_too_large (len : Z) : Error :=
  Transport ("frame too large: " +:+ fmt_Z len +:+ " bytes (max "
             +:+ fmt_Z MAX_FRAME_SIZE +:+ ")").

Definition read_frame : M Stream Error bytes :=
  len_buf ← map_err_m (read_error "length") (read_exact 4);
  let len := from_be_bytes len_buf in
  if MAX_FRAME_SIZE <? len then throw (frame_too_large len) else
  map_err_m (read_error "payload") (read_exact (Z.to_nat len)).

Definition write_frame (data : bytes) : M Stream Error unit :=
  let len := Z.of_nat (length data) in
  if MAX_FRAME_SIZE <? len then throw (frame_too_large len) else
  let len_buf := to_be_bytes (len `mod` 4294967296) in
  map_err_m (λ e, Transport ("failed to write frame length: " +:+ e)) (write_all len_buf);;
  map_err_m (λ e, Transport ("failed to write frame payload: " +:+ e)) (write_all data);;
  map_err_m (λ e, Transport ("failed to flush frame: " +:+ e)) flush.
End frame.

(** ** Facts *)

Lemma length_to_be_bytes n : length (to_be_bytes n) = 4%nat.
Proof. done. Qed.

Lemma lor_shift_add a b : 0 ≤ b < 256 → Z.lor (Z.shiftl a 8) b = a * 256 + b.
Proof.
  intros Hb. assert (Hand : Z.land (Z.shiftl a 8) b = 0).
  { apply Z.bits_inj'. intros i Hi. rewrite Z.land_spec, Z.bits_0.
    destruct (Z.lt_ge_cases i 8).
    - by rewrite Z.shiftl_spec_low.
    - rewrite <-(Z.mod_small b (2 ^ 8)) by (simpl; lia).
      rewrite Z.mod_pow2_bits_high by lia. apply andb_false_r. }
  pose proof (Z.add_lor_land (Z.shiftl a 8) b) as Hadd. rewrite Hand in Hadd.
  rewrite Z.shiftl_mul_pow2 in Hadd at 2 by lia. simpl in Hadd. lia.
Qed.

Lemma from_to_be_bytes n : 0 ≤ n < 4294967296 → from_be_bytes (to_be_bytes n) = n.
Proof.
  intros Hn. unfold from_be_bytes, to_be_bytes. cbn [foldl].
  rewrite !lor_shift_add by apply byte_val_bound. rewrite !byte_val_of.
  rewrite !Z.shiftr_div_pow2 by lia. simpl Z.pow. Z.to_euclidean_division_equations. lia.
Qed.

Lemma from_be_bytes_nonneg b : 0 ≤ from_be_bytes b.
Proof.
  assert (Hacc : ∀ acc, 0 ≤ acc →
    0 ≤ foldl (λ acc x, Z.lor (Z.shiftl acc 8) (byte_val x)) acc b).
  { induction b as [|x b IH]; intros acc Hacc; simpl; [done|]. apply IH.
    rewrite lor_shift_add by apply byte_val_bound. pose proof (byte_val_bound x). lia. }
  by apply Hacc.
Qed.

Definition is_transport (e : Error) : Prop := ∃ msg, e = Transport msg.

(** The bytes of one frame. *)
Definition frame_bytes (payload : bytes) : bytes :=
  to_be_bytes (Z.of_nat (length payload)) ++ payload.

Section facts.
Context `{!Env, !StreamIO}.

Lemma read_exact_wp n s w :
  wp (read_exact n) s w (λ r s' w', world_le w w' ∧ outgoing s' = outgoing s ∧
    match r with
    | Ok b => length b = n ∧ incoming s = b ++ incoming s'
    | Err _ => (length (incoming s') ≤ length (incoming s))%nat
    | Panic => False
    end ∧
    (Reliable → ∀ b rest, incoming s = b ++ rest → length b = n →
       r = Ok b ∧ incoming s' = rest)).
Proof.
  unfold read_exact. wp_steps; (split; [solve_world|]); (split; [done|]); simpl.
  - split; [done|]. intros Hrel. by rewrite Hrel in Hm.
  - apply Nat.ltb_lt in Hb. split; [lia|]. intros _ b rest Hin Hl.
    rewrite Hin, length_app in Hb. lia.
  - apply Nat.ltb_ge in Hb. split.
    + rewrite length_take, take_drop. split; [lia|done].
    + intros _ b rest -> <-. by rewrite take_app_length, drop_app_length.
Qed.

(** A frame is a length that is not too large, and that many bytes. *)
Lemma read_frame_wp s w :
  wp read_frame s w (λ r s' w', world_le w w' ∧ outgoing s' = outgoing s ∧
    match r with
    | Ok b => Z.of_nat (length b) ≤ MAX_FRAME_SIZE ∧
        ∃ len_buf, length len_buf = 4%nat ∧ from_be_bytes len_buf = Z.of_nat (length b) ∧
          incoming s = len_buf ++ b ++ incoming s'
    | Err e => is_transport e ∧ (length (incoming s') ≤ length (incoming s))%nat
    | Panic => False
    end).
Proof.
  unfold read_frame. wp_step. wp_step. wp_call read_exact_wp.
  intros r s1 w1 (Hw1 & Ho1 & Hr & _).
  destruct r as [lb|e|]; cbn [map_err].
  2:{ split; [done|]. split; [done|]. split; [destruct e; by eexists|done]. }
  2:done.
  destruct Hr as [Hl Hin]. assert (Hlen : (length (incoming s1) ≤ length (incoming s))%nat)
    by (rewrite Hin, length_app; lia).
  cbv zeta. wp_step.
  - wp_step. split; [done|]. split; [done|]. split; [by eexists|done].
  - wp_step. wp_call read_exact_wp. intros r s2 w2 (Hw2 & Ho2 & Hr & _).
    split; [by etrans|]. split; [by rewrite Ho2|]. destruct r as [b|e|]; cbn [map_err].
    + destruct Hr as [Hbl Hin2]. apply Z.ltb_ge in Hb.
      assert (0 ≤ from_be_bytes lb) by (apply from_be_bytes_nonneg).
      split; [lia|]. exists lb. split; [done|]. split; [lia|]. by rewrite Hin, Hin2.
    + split; [destruct e; by eexists|lia].
    + done.
Qed.

Definition fits (payload : bytes) : Prop := Z.of_nat (length payload) ≤ MAX_FRAME_SIZE.

(** A frame that is too large is refused before a byte of it is written. *)
Lemma write_frame_wp data s w :
  wp (write_frame data) s w (λ r s' w', world_le w w' ∧ incoming s' = incoming s ∧
    match r with
    | Ok _ => fits data ∧ outgoing s' = outgoing s ++ frame_bytes data
    | Err e => is_transport e ∧ (¬ fits data → s' = s) ∧
        outgoing s `prefix_of` outgoing s'
    | Panic => False
    end ∧
    (Reliable → fits data → r = Ok tt)).
Proof.
  unfold write_frame, write_all, flush, fits. cbv zeta.
  wp_step; [wp_step; apply Z.ltb_lt in Hb; split; [done|]; split; [done|];
    split; [split; [by eexists|done]|lia]|apply Z.ltb_ge in Hb].
  rewrite Z.mod_small by (unfold MAX_FRAME_SIZE in Hb; lia).
  wp_step. wp_step. unfold wp at 1. destruct (io_fault (w_io w)) eqn:Hf1; cbn [map_err].
  { split; [solve_world|]. split; [done|]. split; [|intros Hrel; by rewrite Hrel in Hf1].
    split; [by eexists|]. split; [lia|by eexists]. }
  wp_step. wp_step. unfold wp at 1. destruct (io_fault (w_io (tick_io w))) eqn:Hf2; cbn [map_err].
  { split; [solve_world|]. split; [done|]. split; [|intros Hrel; by rewrite Hrel in Hf2].
    split; [by eexists|]. split; [lia|]. cbn [outgoing incoming]. rewrite <-app_assoc.
    by eexists. }
  wp_step. wp_step. wp_step. wp_step; wp_step; cbn [map_err].
  - split; [solve_world|]. split; [done|]. split; [|intros Hrel; by rewrite Hrel in Hm].
    split; [by eexists|]. split; [lia|]. cbn [outgoing incoming]. rewrite <-app_assoc.
    by eexists.
  - split; [solve_world|]. split; [done|]. split; [|done]. split; [done|].
    cbn [outgoing incoming]. by rewrite <-app_assoc.
Qed.

(** Whatever happens, what has been written is a prefix of the frame, and nothing at all if
    the frame is too large. *)
Lemma write_frame_prefix_wp data s w :
  wp (write_frame data) s w (λ r s' w',
    ∃ p, s' = mkStream (incoming s) (outgoing s ++ p) ∧ p `prefix_of` frame_bytes data ∧
      (fits data ∨ p = [])).
Proof.
  unfold write_frame, write_all, flush, fits, frame_bytes. cbv zeta.
  wp_step; [wp_step; exists []; rewrite app_nil_r; destruct s; split; [done|];
            split; [apply prefix_nil|by right]|apply Z.ltb_ge in Hb].
  rewrite Z.mod_small by (unfold MAX_FRAME_SIZE in Hb; lia).
  wp_step. wp_step. unfold wp at 1. destruct (io_fault (w_io w)) eqn:Hf1; cbn [map_err].
  { eexists. split; [done|]. split; [|by left]. etrans; [apply prefix_take|by apply prefix_app_r]. }
  wp_step. wp_step. unfold wp at 1. destruct (io_fault (w_io (tick_io w))) eqn:Hf2; cbn [map_err].
  { eexists. cbn [incoming outgoing]. rewrite <-app_assoc. split; [done|]. split; [|by left].
    apply prefix_app, prefix_take. }
  wp_step. wp_step. wp_step. wp_step; wp_step; cbn [map_err incoming outgoing];
    (eexists; rewrite <-app_assoc; split; [done|]; split; [done|by left]).
Qed.

(** A frame that can be read from a prefix of a frame is that frame. *)
Lemma frame_prefix_unique p lb b rest data :
  p `prefix_of` frame_bytes data → fits data → p = lb ++ b ++ rest → length lb = 4%nat →
  from_be_bytes lb = Z.of_nat (length b) → b = data ∧ rest = [].
Proof.
  unfold frame_bytes, fits, MAX_FRAME_SIZE. intros [q Hq] Hfit -> Hl Hlen.
  rewrite <-app_assoc in Hq. apply app_inj_1 in Hq as [<- Hq]; [|by rewrite Hl].
  rewrite from_to_be_bytes in Hlen by lia. apply Nat2Z.inj in Hlen.
  rewrite <-app_assoc in Hq. rewrite <-(app_nil_r data) in Hq.
  apply app_inj_1 in Hq as [-> Hq]; [|done]. symmetry in Hq. by apply app_nil in Hq as [-> _].
Qed.

Lemma read_frame_bytes `{!Reliable} p rest o w :
  fits p → ∃ w', read_frame (mkStream (frame_bytes p ++ rest) o) w = (Ok p, mkStream rest o, w').
Proof.
  intros Hp. assert (Hwp : wp read_frame (mkStream (frame_bytes p ++ rest) o) w
    (λ r s' _, r = Ok p ∧ s' = mkStream rest o)).
  { unfold read_frame, frame_bytes. wp_step. wp_step. wp_call read_exact_wp.
    intros r s1 w1 (_ & Ho & _ & Hr). rewrite <-app_assoc in Hr.
    destruct (Hr _ _ _ eq_refl (length_to_be_bytes _)) as [-> Hin]. cbn [map_err].
    unfold fits, MAX_FRAME_SIZE in *. rewrite from_to_be_bytes by lia.
    rewrite (proj2 (Z.ltb_ge _ _)) by lia. wp_step. rewrite Nat2Z.id.
    wp_call read_exact_wp. intros r s2 w2 (_ & Ho2 & _ & Hr2).
    destruct (Hr2 _ p rest Hin eq_refl) as [-> Hin2]. split; [done|].
    destruct s1, s2. simpl in *. by subst. }
  unfold wp in Hwp. destruct (read_frame _ _) as [[r s'] w']. destruct Hwp as [-> ->].
  by exists w'.
Qed.

Lemma write_frame_run `{!Reliable} p i o w :
  fits p → ∃ w', write_frame p (mkStream i o) w = (Ok tt, mkStream i (o ++ frame_bytes p), w').
Proof.
  intros Hp. pose proof (write_frame_wp p (mkStream i o) w) as Hwp. unfold wp in Hwp.
  destruct (write_frame _ _ _) as [[r [i' o']] w']. destruct Hwp as (_ & Hi & Hr & Hok).
  rewrite (Hok _ Hp) in Hr |- *. destruct Hr as [_ Ho]. simpl in *. subst. by exists w'.
Qed.
End facts.

(** ** Properties *)

(** C39. Framing round trip. On a connection that does not fail, any sequence of payloads of
    at most 1 MiB each is written as the concatenation of its frames, and reading as many
    frames from those bytes gives the payloads back in order and leaves exactly the bytes
    that follow. *)
Theorem frames_roundtrip `{!Env, !StreamIO, !Reliable} (ps : list bytes) (i o rest o' : bytes)
    (w w0 : World) :
  Forall fits ps →
  ∃ wire w1 w2,
    for_each write_frame ps (mkStream i o) w = (Ok tt, mkStream i (o ++ wire), w1) ∧
    traverse (λ _, read_frame) ps (mkStream (wire ++ rest) o') w0 =
      (Ok ps, mkStream rest o', w2).
Proof.
  intros Hps. exists (concat (frame_bytes <$> ps)).
  assert (Hwrite : ∀ o w, ∃ w1, for_each write_frame ps (mkStream i o) w =
    (Ok tt, mkStream i (o ++ concat (frame_bytes <$> ps)), w1)).
  { induction Hps as [|p ps Hp _ IH]; intros o1 wa.
    - exists wa. simpl. by rewrite app_nil_r.
    - destruct (write_frame_run p i o1 wa Hp) as [wb Hb].
      destruct (IH (o1 ++ frame_bytes p) wb) as [wc Hc]. exists wc.
      cbn [for_each fmap list_fmap concat]. unfold mbind, M_bind. rewrite Hb, Hc.
      by rewrite <-app_assoc. }
  assert (Hread : ∀ w0, ∃ w2,
    traverse (λ _, read_frame) ps (mkStream (concat (frame_bytes <$> ps) ++ rest) o') w0 =
      (Ok ps, mkStream rest o', w2)).
  { clear Hwrite. induction Hps as [|p ps Hp _ IH]; intros wa; [by exists wa|].
    cbn [traverse fmap list_fmap concat]. rewrite <-app_assoc.
    destruct (read_frame_bytes p (concat (frame_bytes <$> ps) ++ rest) o' wa Hp) as [wb Hb].
    destruct (IH wb) as [wc Hc]. exists wc. unfold mbind, M_bind. by rewrite Hb, Hc. }
  destruct (Hwrite o w) as [w1 Hwr], (Hread w0) as [w2 Hrd]. exists w1, w2. done.
Qed.

(** Frames are bounded. Whatever bytes a peer sends, reading a frame does not panic, and
    a frame that is delivered is at most 1 MiB long and is exactly the bytes its length
    prefix announced; a frame over 1 MiB is refused by the writer with nothing written. *)
Theorem frame_bounds `{!Env, !StreamIO} (s s' : Stream) (w w' : World) r data :
  (read_frame s w = (r, s', w') →
     r ≠ Panic ∧ ∀ b, r = Ok b → Z.of_nat (length b) ≤ 1048576 ∧
       ∃ prefix, length prefix = 4%nat ∧ from_be_bytes prefix = Z.of_nat (length b) ∧
         incoming s = prefix ++ b ++ incoming s') ∧
  (1048576 < Z.of_nat (length data) →
     write_frame data s w = (Err (frame_too_large (Z.of_nat (length data))), s, w)).
Proof.
  split.
  - intros Hrun. destruct (wp_run _ _ _ _ _ _ _ (read_frame_wp s w) Hrun) as (_ & _ & Hr).
    destruct r as [b|e|]; [|done|done]. split; [done|]. intros b' [= <-]. exact Hr.
  - intros Hbig. unfold write_frame. cbv zeta. unfold MAX_FRAME_SIZE.
    by rewrite (proj2 (Z.ltb_lt _ _) Hbig).
Qed.

Definition demo_StreamIO : StreamIO := λ _, O.

Lemma frames_roundtrip_witness :
  ∃ wire w1 w2,
    @for_each Stream Error _ (@write_frame demo_Env demo_StreamIO)
      [as_bytes "one"; []; as_bytes "three"]
      (mkStream [] []) demo_world = (Ok tt, mkStream [] wire, w1) ∧
    @traverse Stream Error _ _ (λ _, @read_frame demo_Env)
      [as_bytes "one"; []; as_bytes "three"]
      (mkStream (wire ++ []) []) demo_world =
      (Ok [as_bytes "one"; []; as_bytes "three"], mkStream [] [], w2).
Proof.
  apply (@frames_roundtrip demo_Env demo_StreamIO (λ _, eq_refl)
    [as_bytes "one"; []; as_bytes "three"] [] [] [] [] demo_world demo_world).
  repeat constructor; vm_compute; discriminate.
Defined.

Lemma frame_bounds_witness :
  ∃ r s' w', @read_frame demo_Env (mkStream (frame_bytes (as_bytes "hi")) []) demo_world
    = (r, s', w') ∧ r ≠ Panic.
Proof.
  destruct (@read_frame demo_Env (mkStream (frame_bytes (as_bytes "hi")) []) demo_world)
    as [[r s'] w'] eqn:Hrun.
  exists r, s', w'. split; [reflexivity|].
  exact (proj1 (proj1 (@frame_bounds demo_Env demo_StreamIO _ _ _ _ _ []) Hrun)).
Defined.
