(* ===== verification/Transport.v ===== *)
(** The transports: [src/transport/tcp.rs], [uds.rs] and [vsock.rs].

    A listener turns what the operating system accepted into a stream and the identity of
    its peer; a connector names where to connect to. The answers of the operating system
    are arguments: the accepted stream with what is known of its other end, or a message. *)
From S2P Require Import Prelude Text Concrete Types Auth Frame.

Local Open Scope string_scope.
Local Open Scope Z_scope.
Local Open Scope list_scope.

(** [.map_err(|e| Error::Transport(format!(..)))] *)
Definition transport_result {B} (what : string) (r : outcome string B) : outcome Error B :=
  map_err (λ e, Transport (what +:+ e)) r.

(** The outcome of [VaultListener::accept]. *)
Abbreviation Accepted := (outcome Error (Stream * PeerIdentity)).

(** ** TCP *)

Record TcpConnector := mkTcpConnector { tcp_addr : string; tcp_token : string }.

(** [([127, 0, 0, 1], port).into()], as it is displayed *)
Definition loopback (port : Z) : string := "127.0.0.1:" +:+ fmt_Z port.

Definition TcpListener_bind {Socket} (port : Z) (bind : string → outcome string Socket)
    : outcome Error Socket :=
  transport_result ("failed to bind TCP listener on " +:+ loopback port +:+ ": ")
    (bind (loopback port)).

Definition ZERO_HASH : bytes := replicate 32 Byte.x00.

Definition TcpListener_accept (res : outcome string (Stream * string)) : Accepted :=
  match transport_result "TCP accept failed: " res with
  | Ok (stream, addr) => Ok (stream, Tcp addr ZERO_HASH)
  | Err e => Err e
  | Panic => Panic
  end.

Definition TcpConnector_new (addr token : string) : TcpConnector := mkTcpConnector addr token.
Definition TcpConnector_connect (self : TcpConnector) (connect : string → outcome string Stream)
    : outcome Error Stream :=
  transport_result ("TCP connect to " +:+ tcp_addr self +:+ " failed: ") (connect (tcp_addr self)).

(** ** Unix domain sockets *)

Record UdsConnector := mkUdsConnector { uds_path : string }.

Definition UdsListener_bind {Socket} (path : string) (bind : string → outcome string Socket)
    : outcome Error Socket := map_err Transport (bind path).

(** [x as u32] of an [i32] *)
Definition i32_as_u32 (n : Z) : Z := n `mod` 4294967296.

(** [cred] is the answer of [peer_cred()]: the user and, where known, the process. *)
Definition uds_peer (cred : outcome string (Z * option Z)) : PeerIdentity :=
  match cred with
  | Ok (uid, pid) => Unix uid (i32_as_u32 (default 0 pid))
  | _ => Anonymous
  end.
Definition UdsListener_accept (res : outcome string (Stream * outcome string (Z * option Z)))
    : Accepted :=
  match map_err Transport res with
  | Ok (stream, cred) => Ok (stream, uds_peer cred)
  | Err e => Err e
  | Panic => Panic
  end.

Definition UdsConnector_connect (self : UdsConnector) (connect : string → outcome string Stream)
    : outcome Error Stream :=
  transport_result "failed to connect to UDS: " (connect (uds_path self)).

(** ** vsock *)

Record VsockConnector := mkVsockConnector { vsock_cid : Z; vsock_port : Z }.

Definition VMADDR_CID_ANY : Z := 4294967295.

Definition VsockListener_bind {Socket} (port : Z) (bind : Z → Z → outcome string Socket)
    : outcome Error Socket :=
  transport_result "failed to bind vsock: " (bind VMADDR_CID_ANY port).

Definition VsockListener_accept (res : outcome string (Stream * Z)) : Accepted :=
  match transport_result "vsock accept failed: " res with
  | Ok (stream, cid) => Ok (stream, Vsock cid)
  | Err e => Err e
  | Panic => Panic
  end.

Definition VsockConnector_connect (self : VsockConnector)
    (connect : Z → Z → outcome string Stream) : outcome Error Stream :=
  transport_result "vsock connect failed: " (connect (vsock_cid self) (vsock_port self)).

(** ** What a listener says of a peer *)

(** A peer as a listener reports it: nothing in it was chosen by the client. *)
Definition fresh_peer (p : PeerIdentity) : Prop :=
  match p with Tcp _ hash => hash = ZERO_HASH | _ => True end.

(** Listeners report fresh peers, and a process id in the range of a [u32]. *)
Theorem listeners_fresh res_tcp res_uds res_vsock :
  (∀ s p, TcpListener_accept res_tcp = Ok (s, p) → ∃ addr, p = Tcp addr ZERO_HASH) ∧
  (∀ s p, UdsListener_accept res_uds = Ok (s, p) →
     p = Anonymous ∨ ∃ uid pid, p = Unix uid pid ∧ 0 ≤ pid < 4294967296) ∧
  (∀ s p, VsockListener_accept res_vsock = Ok (s, p) → ∃ cid, p = Vsock cid).
Proof.
  split; [|split]; intros s p.
  - unfold TcpListener_accept, transport_result. destruct res_tcp as [[]| |]; naive_solver.
  - unfold UdsListener_accept, uds_peer. destruct res_uds as [[s' [[uid pid]| |]]| |];
      intros [= <- <-]; [|by left..].
    right. eexists _, _. split; [done|]. unfold i32_as_u32. apply Z.mod_pos_bound. lia.
  - unfold VsockListener_accept, transport_result. destruct res_vsock as [[]| |]; naive_solver.
Qed.
