(* ===== verification/Sni.v ===== *)
(** The server name of a TLS ClientHello: [extract_sni], [parse_server_name] and
    [u24_to_usize] of [zerolease-agent/src/proxy/sni.rs].

    The functions return [Option] and index slices, so their result is an [outcome unit]:
    [Ok] is [Some], [Err tt] is [None] (also by [?]), [Panic] is an index out of bounds.
    Positions are [usize]; they stay below 2^17 here, so they are naturals. *)
From S2P Require Import Prelude Text Frame.

Local Open Scope string_scope.
Local Open Scope Z_scope.
Local Open Scope list_scope.
Local Open Scope nat_scope.

(** ** Slices *)

Abbreviation Opt := (outcome unit).

#[local] Instance Opt_ret : MRet (outcome unit) := λ A, Ok.
#[local] Instance Opt_bind : MBind (outcome unit) := λ A B k m,
  match m with Ok a => k a | Err e => Err e | Panic => Panic end.

(** [data.get(i)?] *)
Definition get (data : bytes) (i : nat) : Opt Byte.byte :=
  match data !! i with Some b => Ok b | None => Err tt end.

(** [data.get(a..b)?] *)
Definition get_range (data : bytes) (a b : nat) : Opt bytes :=
  if (a <=? b) && (b <=? length data) then Ok (take (b - a) (drop a data)) else Err tt.

(** [data[i]] *)
Definition index (data : bytes) (i : nat) : Opt Byte.byte :=
  match data !! i with Some b => Ok b | None => Panic end.

(** [b as usize] *)
Definition as_usize (b : Byte.byte) : nat := Z.to_nat (byte_val b).

(** [u16::from_be_bytes([a, b]) as usize] *)
Definition u16_be (a b : Byte.byte) : nat := Z.to_nat (from_be_bytes [a; b]).

(** ** The parser *)

Definition u24_to_usize (b : bytes) : Opt nat :=
  if length b <? 3 then Err tt else
  b0 ← index b 0; b1 ← index b 1; b2 ← index b 2;
  Ok (Z.to_nat (Z.lor (Z.lor (Z.shiftl (byte_val b0) 16) (Z.shiftl (byte_val b1) 8))
                  (byte_val b2))).

(** The loop of [parse_server_name]. The loop runs while [pos + 3 <= data.len()] and every
    iteration moves [pos] forward: with [fuel] at least [data.len() - pos], the condition
    is false when the fuel is used up, and the loop ends in [None] as the source does. *)
Fixpoint server_name_loop (fuel : nat) (data : bytes) (pos : nat) : Opt string :=
  match fuel with
  | O => Err tt
  | S fuel' =>
    if pos + 3 <=? length data then
      name_type ← index data pos;
      b1 ← index data (pos + 1); b2 ← index data (pos + 2);
      let name_len := u16_be b1 b2 in
      let pos := pos + 3 in
      if (byte_val name_type =? 0)%Z then
        name_bytes ← get_range data pos (pos + name_len);
        match from_utf8 name_bytes with Some s => Ok s | None => Err tt end
      else server_name_loop fuel' data (pos + name_len)
    else Err tt
  end.

Definition parse_server_name (data : bytes) : Opt string :=
  if length data <? 2 then Err tt else
  b0 ← index data 0; b1 ← index data 1;
  let _list_len := u16_be b0 b1 in
  server_name_loop (length data) data 2.

(** The loop over the extensions, under the same convention for [fuel]. *)
Fixpoint extension_loop (fuel : nat) (hello : bytes) (ext_end pos : nat) : Opt string :=
  match fuel with
  | O => Err tt
  | S fuel' =>
    if pos + 4 <=? ext_end then
      t0 ← index hello pos; t1 ← index hello (pos + 1);
      let ext_type := u16_be t0 t1 in
      l0 ← index hello (pos + 2); l1 ← index hello (pos + 3);
      let ext_data_len := u16_be l0 l1 in
      let pos := pos + 4 in
      if ext_type =? 0 then
        data ← get_range hello pos (pos + ext_data_len);
        parse_server_name data
      else extension_loop fuel' hello ext_end (pos + ext_data_len)
    else Err tt
  end.

(** The handshake message of the record, and the ClientHello in it. *)
Definition client_hello (data : bytes) : Opt bytes :=
  if length data <? 5 then Err tt else
  b0 ← index data 0;
  if negb (byte_val b0 =? 22)%Z then Err tt else
  b3 ← index data 3; b4 ← index data 4;
  let record_len := u16_be b3 b4 in
  handshake ← get_range data 5 (5 + record_len);
  if match handshake with [] => true | h0 :: _ => negb (byte_val h0 =? 1)%Z end
  then Err tt else
  len3 ← get_range handshake 1 4;
  hello_len ← u24_to_usize len3;
  get_range handshake 4 (4 + hello_len).

(** The position of the extensions and their end, as announced. *)
Definition extensions_range (hello : bytes) : Opt (nat * nat) :=
  if length hello <? 34 then Err tt else
  let pos := 34 in
  session_id_len ← get hello pos;
  let pos := pos + (1 + as_usize session_id_len) in
  c0 ← get hello pos; c1 ← get hello (pos + 1);
  let pos := pos + (2 + u16_be c0 c1) in
  comp_len ← get hello pos;
  let pos := pos + (1 + as_usize comp_len) in
  if length hello <? pos + 2 then Err tt else
  e0 ← index hello pos; e1 ← index hello (pos + 1);
  let ext_len := u16_be e0 e1 in
  let pos := pos + 2 in
  Ok (pos, pos + ext_len).

Definition extract_sni (data : bytes) : Opt string :=
  hello ← client_hello data;
  range ← extensions_range hello;
  extension_loop (range.2 - range.1) hello range.2 range.1.

(** ** The messages of TLS

    The layout of RFC 8446 and RFC 6066 that the parser reads: vectors with a length of
    one, two or three bytes in front. *)

Definition be16 (n : nat) : bytes := [byte_of (Z.of_nat n / 256); byte_of (Z.of_nat n)].
Definition be24 (n : nat) : bytes := byte_of (Z.of_nat n / 65536) :: be16 n.
Definition vec8 (b : bytes) : bytes := byte_of (Z.of_nat (length b)) :: b.
Definition vec16 (b : bytes) : bytes := be16 (length b) ++ b.
Definition vec24 (b : bytes) : bytes := be24 (length b) ++ b.

(** An entry of the server name list: its type (0 is a host name) and its bytes. *)
Abbreviation NameEntry := (Byte.byte * bytes)%type.

Inductive Extension :=
  | ServerNames (names : list NameEntry)
  | OtherExtension (ext_type : nat) (ext_data : bytes).

Record ClientHelloMsg := mkClientHelloMsg {
  msg_version : bytes;
  msg_random : bytes;
  msg_session_id : bytes;
  msg_cipher_suites : bytes;
  msg_compression : bytes;
  msg_extensions : list Extension
}.

Definition encode_names (names : list NameEntry) : bytes :=
  mjoin ((λ n : NameEntry, n.1 :: vec16 n.2) <$> names).
Definition encode_extension (e : Extension) : bytes :=
  match e with
  | ServerNames names => be16 0 ++ vec16 (vec16 (encode_names names))
  | OtherExtension t d => be16 t ++ vec16 d
  end.
Definition encode_extensions (es : list Extension) : bytes := mjoin (encode_extension <$> es).
Definition encode_hello (h : ClientHelloMsg) : bytes :=
  msg_version h ++ msg_random h ++ vec8 (msg_session_id h) ++ vec16 (msg_cipher_suites h) ++
  vec8 (msg_compression h) ++ vec16 (encode_extensions (msg_extensions h)).
Definition encode_handshake (h : ClientHelloMsg) : bytes := Byte.x01 :: vec24 (encode_hello h).
Definition encode_record (version : bytes) (h : ClientHelloMsg) : bytes :=
  Byte.x16 :: version ++ vec16 (encode_handshake h).

(** Every vector fits its length field, and only [ServerNames] has type 0. The outer
    bound is that of the record, the inner ones follow where the record bounds them. *)
Definition extension_wf (e : Extension) : Prop :=
  match e with
  | ServerNames names => (Z.of_nat (length (vec16 (encode_names names))) < 65536)%Z
  | OtherExtension t d => 0 < t ∧ (Z.of_nat t < 65536)%Z ∧ (Z.of_nat (length d) < 65536)%Z
  end.
Definition msg_wf (h : ClientHelloMsg) : Prop :=
  length (msg_version h) = 2 ∧ length (msg_random h) = 32 ∧
  length (msg_session_id h) < 256 ∧ length (msg_compression h) < 256 ∧
  Forall extension_wf (msg_extensions h) ∧ (Z.of_nat (length (encode_handshake h)) < 65536)%Z.

(** The host name a message announces: the first host name of its first list. *)
Fixpoint host_name (names : list NameEntry) : option string :=
  match names with
  | [] => None
  | (t, name) :: names' => if (byte_val t =? 0)%Z then from_utf8 name else host_name names'
  end.
Fixpoint announced_name (es : list Extension) : option string :=
  match es with
  | [] => None
  | ServerNames names :: _ => host_name names
  | OtherExtension _ _ :: es' => announced_name es'
  end.
Definition to_opt {A} (o : option A) : Opt A :=
  match o with Some a => Ok a | None => Err tt end.

(** ** Reading what was written *)

Lemma from_be2 a b : from_be_bytes [a; b] = (byte_val a * 256 + byte_val b)%Z.
Proof.
  unfold from_be_bytes. cbn [foldl]. by rewrite !lor_shift_add by apply byte_val_bound.
Qed.

Lemma u16_be16 n x y : (Z.of_nat n < 65536)%Z → be16 n = [x; y] → u16_be x y = n.
Proof.
  intros Hn [= <- <-]. unfold u16_be. rewrite from_be2, !byte_val_of.
  apply Nat2Z.inj. rewrite Z2Nat.id by (Z.to_euclidean_division_equations; lia).
  Z.to_euclidean_division_equations; lia.
Qed.

Lemma as_usize_of n : n < 256 → as_usize (byte_of (Z.of_nat n)) = n.
Proof. intros Hn. unfold as_usize. rewrite byte_val_of, Z.mod_small by lia. lia. Qed.

Lemma u24_be24 n : (Z.of_nat n < 65536 * 256)%Z → u24_to_usize (be24 n) = Ok n.
Proof.
  intros Hn. unfold u24_to_usize, be24, be16. simpl. unfold index, mbind, Opt_bind. simpl.
  f_equal.
  assert (∀ a b, 0 ≤ b < 256 → Z.lor (Z.shiftl a 16) (Z.shiftl b 8) =
    Z.shiftl (a * 256 + b) 8)%Z as Hor.
  { intros a b Hb. rewrite <-lor_shift_add by done.
    by rewrite Z.shiftl_lor, Z.shiftl_shiftl by lia. }
  rewrite Hor, lor_shift_add, !byte_val_of by apply byte_val_bound.
  Z.to_euclidean_division_equations; lia.
Qed.

Lemma index_drop data pos i t : drop pos data = t → index data (pos + i) = index t i.
Proof. intros <-. unfold index. by rewrite lookup_drop. Qed.
Lemma index_here data pos t : drop pos data = t → index data pos = index t 0.
Proof. intros H. rewrite <-(index_drop _ _ 0 _ H). f_equal. lia. Qed.
Lemma get_drop data pos i t : drop pos data = t → get data (pos + i) = get t i.
Proof. intros <-. unfold get. by rewrite lookup_drop. Qed.
Lemma get_here data pos t : drop pos data = t → get data pos = get t 0.
Proof. intros H. rewrite <-(get_drop _ _ 0 _ H). f_equal. lia. Qed.

Lemma drop_app_at data pos (m r : bytes) n :
  drop pos data = m ++ r → n = length m → drop (pos + n) data = r.
Proof. intros H ->. by rewrite <-drop_drop, H, drop_app_length. Qed.

Lemma drop_length data pos (t : bytes) :
  drop pos data = t → t ≠ [] → length data = pos + length t.
Proof.
  intros H Hne. apply (f_equal length) in H. rewrite length_drop in H.
  destruct t; [done|]. simpl in *. lia.
Qed.

Lemma get_range_at data pos (m r : bytes) n :
  drop pos data = m ++ r → n = length m → pos ≤ length data →
  get_range data pos (pos + n) = Ok m.
Proof.
  intros H -> Hpos. unfold get_range.
  assert (length data = pos + length m + length r) as Hl.
  { apply (f_equal length) in H. rewrite length_drop, length_app in H. lia. }
  rewrite (proj2 (Nat.leb_le _ _)), (proj2 (Nat.leb_le _ _)) by lia. simpl.
  rewrite H. replace (pos + length m - pos) with (length m) by lia.
  by rewrite take_app_length.
Qed.

Lemma length_vec16 b : length (vec16 b) = 2 + length b.
Proof. done. Qed.

(** Past the end of the data, both loops end in [None]. *)
Lemma server_name_loop_end fuel data pos :
  length data < pos + 3 → server_name_loop fuel data pos = Err tt.
Proof.
  intros H. destruct fuel; [done|]. simpl. by rewrite (proj2 (Nat.leb_gt _ _)) by lia.
Qed.
Lemma extension_loop_end fuel hello e pos :
  e < pos + 4 → extension_loop fuel hello e pos = Err tt.
Proof.
  intros H. destruct fuel; [done|]. simpl. by rewrite (proj2 (Nat.leb_gt _ _)) by lia.
Qed.

Lemma server_names_read names fuel data pos :
  (Z.of_nat (length (encode_names names)) < 65536)%Z → pos ≤ length data →
  drop pos data = encode_names names → length data - pos ≤ fuel →
  server_name_loop fuel data pos = to_opt (host_name names).
Proof.
  revert fuel pos. induction names as [|[t name] names IH]; intros fuel pos Hb Hpos Hd Hf.
  - apply (f_equal length) in Hd. rewrite length_drop in Hd. simpl in Hd.
    apply server_name_loop_end. lia.
  - assert (Hl := Hd). apply (f_equal length) in Hl. rewrite length_drop in Hl.
    change (encode_names ((t, name) :: names))
      with (t :: be16 (length name) ++ name ++ encode_names names) in *.
    remember (be16 (length name)) as l16 eqn:El. destruct l16 as [|x [|y [|??]]]; try done.
    simpl in Hb, Hl, Hd. rewrite length_app in Hb, Hl.
    destruct fuel as [|fuel]; [lia|]. simpl.
    rewrite (proj2 (Nat.leb_le _ _)) by lia.
    rewrite (index_here _ _ _ Hd), (index_drop _ _ 1 _ Hd), (index_drop _ _ 2 _ Hd).
    unfold index, mbind, Opt_bind. simpl.
    rewrite (u16_be16 (length name)) by (done || lia).
    assert (Hd' : drop (pos + 3) data = name ++ encode_names names)
      by exact (drop_app_at _ _ [t; x; y] _ 3 Hd eq_refl).
    destruct (byte_val t =? 0)%Z.
    + rewrite (get_range_at _ _ _ _ _ Hd' eq_refl) by lia. simpl. by destruct (from_utf8 name).
    + apply IH; [lia|lia|by eapply drop_app_at|lia].
Qed.

Lemma parse_server_name_read names :
  (Z.of_nat (length (vec16 (encode_names names))) < 65536)%Z →
  parse_server_name (vec16 (encode_names names)) = to_opt (host_name names).
Proof.
  intros Hb. rewrite length_vec16 in Hb.
  change (parse_server_name ?d) with (server_name_loop (length d) d 2).
  apply (server_names_read names _ (vec16 (encode_names names)) 2);
    rewrite ?length_vec16; [lia|lia|done|lia].
Qed.

(** One extension in front of others: its type and its data. *)
Definition ext_fields (e : Extension) : nat * bytes :=
  match e with
  | ServerNames names => (0, vec16 (encode_names names))
  | OtherExtension t d => (t, d)
  end.
Lemma encode_extension_fields e :
  encode_extension e = be16 (ext_fields e).1 ++ vec16 (ext_fields e).2.
Proof. by destruct e. Qed.

Lemma extensions_read es fuel hello tail pos :
  Forall extension_wf es → drop pos hello = encode_extensions es ++ tail →
  pos ≤ length hello → length (encode_extensions es) ≤ fuel →
  extension_loop fuel hello (pos + length (encode_extensions es)) pos =
    to_opt (announced_name es).
Proof.
  intros Hwf. revert fuel pos.
  induction Hwf as [|e es He _ IH]; intros fuel pos Hd Hpos Hf.
  { apply extension_loop_end. simpl. lia. }
  change (encode_extensions (e :: es)) with (encode_extension e ++ encode_extensions es) in *.
  assert (Ht : (Z.of_nat (ext_fields e).1 < 65536)%Z) by (destruct e; simpl in *; lia).
  assert (Hdl : (Z.of_nat (length (ext_fields e).2) < 65536)%Z)
    by (destruct e; simpl in *; lia).
  rewrite encode_extension_fields in *. unfold vec16 in *.
  assert (Hname : announced_name (e :: es) =
    if (ext_fields e).1 =? 0 then match e with ServerNames n => host_name n | _ => None end
    else announced_name es).
  { destruct e as [n|t d]; [done|]. simpl in *. by destruct t; [lia|]. }
  assert (Hparse : (ext_fields e).1 = 0 → parse_server_name (ext_fields e).2 =
    to_opt match e with ServerNames n => host_name n | _ => None end).
  { destruct e as [n|t d]; simpl in *; [|lia]. intros _. by apply parse_server_name_read. }
  rewrite Hname. clear Hname He. destruct (ext_fields e) as [t d]. cbn [fst snd] in *.
  rewrite !length_app in *. change (length (be16 _)) with 2 in *.
  remember (be16 t) as t16 eqn:Et. destruct t16 as [|t0 [|t1 [|??]]]; try done.
  remember (be16 (length d)) as l16 eqn:El. destruct l16 as [|l0 [|l1 [|??]]]; try done.
  simpl in Hf. destruct fuel as [|fuel]; [lia|]. simpl in Hd. rewrite <-app_assoc in Hd.
  cbn [extension_loop length]. rewrite (proj2 (Nat.leb_le _ _)) by lia.
  rewrite (index_here _ _ _ Hd), !(index_drop _ _ _ _ Hd).
  unfold index, mbind, Opt_bind. simpl.
  rewrite (u16_be16 t), (u16_be16 (length d)) by (done || lia).
  assert (Hd' : drop (pos + 4) hello = d ++ encode_extensions es ++ tail)
    by exact (drop_app_at _ _ [t0; t1; l0; l1] _ 4 Hd eq_refl).
  assert (Hlen : pos + 4 ≤ length hello)
    by (apply (f_equal length) in Hd; rewrite length_drop in Hd; simpl in Hd; lia).
  destruct (Nat.eqb_spec t 0) as [H0|H0].
  - rewrite (get_range_at _ _ _ _ _ Hd' eq_refl) by done. auto.
  - rewrite <-(IH fuel (pos + 4 + length d)); [f_equal; lia|by eapply drop_app_at| |lia].
    apply (f_equal length) in Hd'. rewrite length_drop, length_app in Hd'. lia.
Qed.

Lemma client_hello_read version h rest :
  msg_wf h → length version = 2 →
  client_hello (encode_record version h ++ rest) = Ok (encode_hello h).
Proof.
  intros (Hv & Hr & _ & _ & _ & Hlen) Hver. unfold encode_record.
  destruct version as [|v0 [|v1 [|??]]]; try done.
  unfold vec16. remember (be16 (length (encode_handshake h))) as l16 eqn:El.
  destruct l16 as [|x [|y [|??]]]; try done. unfold client_hello. simpl.
  unfold index, mbind, Opt_bind. simpl.
  rewrite (u16_be16 (length (encode_handshake h))) by done.
  change (S (S (S (S (S ?n))))) with (5 + n).
  rewrite (get_range_at _ 5 (encode_handshake h) rest) by (done || simpl; lia).
  unfold encode_handshake, vec24 in *. simpl in Hlen.
  cbv iota beta. change (negb _) with false. cbv iota beta.
  change (get_range (Byte.x01 :: be24 ?n ++ ?t) 1 4) with (@Ok unit _ (be24 n)).
  cbv iota beta. rewrite u24_be24 by lia.
  apply (get_range_at _ 4 (encode_hello h) []); [by rewrite app_nil_r|done|simpl; lia].
Qed.

Lemma get_vec8 b r : get (vec8 b ++ r) 0 = Ok (byte_of (Z.of_nat (length b))).
Proof. done. Qed.
Lemma get_vec16_0 b r : get (vec16 b ++ r) 0 = Ok (byte_of (Z.of_nat (length b) / 256)).
Proof. done. Qed.
Lemma get_vec16_1 b r : get (vec16 b ++ r) 1 = Ok (byte_of (Z.of_nat (length b))).
Proof. done. Qed.

Lemma extensions_range_read h :
  msg_wf h → ∃ pos, pos ≤ length (encode_hello h) ∧
    extensions_range (encode_hello h) =
      Ok (pos, pos + length (encode_extensions (msg_extensions h))) ∧
    drop pos (encode_hello h) = encode_extensions (msg_extensions h).
Proof.
  intros (Hv & Hr & Hs & Hc & _ & Hlen). unfold encode_handshake, vec24 in Hlen.
  simpl in Hlen. revert Hlen. unfold encode_hello.
  set (ext := encode_extensions _). set (hello := _ ++ _). intros Hlen.
  assert (Hll : length hello = 34 + (1 + length (msg_session_id h)) +
    (2 + length (msg_cipher_suites h)) + (1 + length (msg_compression h)) + 2 + length ext).
  { subst hello. rewrite !length_app, !length_vec16. simpl. lia. }
  assert (D0 : drop 34 hello = vec8 (msg_session_id h) ++ vec16 (msg_cipher_suites h) ++
    vec8 (msg_compression h) ++ vec16 ext).
  { subst hello. rewrite app_assoc. apply drop_app_length'. rewrite length_app. lia. }
  assert (D1 := drop_app_at _ _ _ _ (1 + length (msg_session_id h)) D0 eq_refl).
  assert (D2 := drop_app_at _ _ _ _ (2 + length (msg_cipher_suites h)) D1 eq_refl).
  assert (D3 := drop_app_at _ _ _ _ (1 + length (msg_compression h)) D2 eq_refl).
  assert (D4 := drop_app_at _ _ (be16 (length ext)) _ 2 D3 eq_refl).
  unfold extensions_range. clearbody hello ext.
  rewrite (proj2 (Nat.ltb_ge _ _)) by lia.
  rewrite (get_here _ _ _ D0), get_vec8. cbv iota beta zeta delta [mbind Opt_bind].
  rewrite as_usize_of, (get_here _ _ _ D1), (get_drop _ _ 1 _ D1) by done.
  rewrite get_vec16_0, get_vec16_1. cbv iota beta.
  rewrite (u16_be16 (length (msg_cipher_suites h))) by (done || lia).
  rewrite (get_here _ _ _ D2), get_vec8. cbv iota beta.
  rewrite as_usize_of, (proj2 (Nat.ltb_ge _ _)) by (done || lia).
  rewrite (index_here _ _ _ D3), (index_drop _ _ 1 _ D3).
  change (index (vec16 ext) 0) with (@Ok unit _ (byte_of (Z.of_nat (length ext) / 256))).
  change (index (vec16 ext) 1) with (@Ok unit _ (byte_of (Z.of_nat (length ext)))).
  cbv iota beta. rewrite (u16_be16 (length ext)) by (done || lia).
  eexists. split; [|split; [reflexivity|exact D4]]. lia.
Qed.

(** C34. The server name is read back from every ClientHello. For every message whose
    vectors fit their length fields, in a record of any version and followed by any bytes,
    [extract_sni] delivers the first host name of its first server name list, or nothing
    if the message has no server name, no host name in the list, or one that is not
    UTF-8. *)
Theorem sni_roundtrip version h rest :
  msg_wf h → length version = 2 →
  extract_sni (encode_record version h ++ rest) = to_opt (announced_name (msg_extensions h)).
Proof.
  intros Hwf Hver. unfold extract_sni, mbind, Opt_bind.
  rewrite client_hello_read by done.
  destruct (extensions_range_read h Hwf) as (pos & Hpos & -> & Hd). cbn [fst snd].
  rewrite Nat.add_comm, Nat.add_sub, Nat.add_comm.
  apply (extensions_read _ _ _ []); [apply Hwf|by rewrite app_nil_r|done|done].
Qed.

(** ** Panics *)

Lemma index_ok data i : i < length data → index data i ≠ Panic.
Proof. intros Hi. unfold index. by destruct (lookup_lt_is_Some_2 data i Hi) as [b ->]. Qed.
Lemma get_no_panic data i : get data i ≠ Panic.
Proof. unfold get. by destruct (data !! i). Qed.
Lemma get_range_no_panic data a b : get_range data a b ≠ Panic.
Proof. unfold get_range. by case_match. Qed.

Lemma bind_no_panic {A B} (m : Opt A) (k : A → Opt B) :
  m ≠ Panic → (∀ a, k a ≠ Panic) → m ≫= k ≠ Panic.
Proof. destruct m; simpl; auto. Qed.

(** Walks through a parser: every slice access is in bounds or checked. *)
Ltac no_panic :=
  repeat match goal with
  | |- _ ≫= _ ≠ Panic => apply bind_no_panic; [|intros ?]
  | |- index _ _ ≠ Panic => apply index_ok; lia
  | |- get _ _ ≠ Panic => apply get_no_panic
  | |- get_range _ _ _ ≠ Panic => apply get_range_no_panic
  | |- Ok _ ≠ Panic => discriminate
  | |- Err _ ≠ Panic => discriminate
  | |- (if ?a <? ?b then _ else _) ≠ Panic => destruct (Nat.ltb_spec a b)
  | |- (if ?a <=? ?b then _ else _) ≠ Panic => destruct (Nat.leb_spec a b)
  | |- (if ?b then _ else _) ≠ Panic => destruct b
  | |- match ?x with _ => _ end ≠ Panic => destruct x
  | |- _ => progress cbv zeta
  end.

Lemma parse_server_name_no_panic data : parse_server_name data ≠ Panic.
Proof.
  assert (Hloop : ∀ fuel pos, server_name_loop fuel data pos ≠ Panic).
  { induction fuel as [|fuel IH]; intros pos; simpl; no_panic. apply IH. }
  unfold parse_server_name. no_panic. apply Hloop.
Qed.

Lemma client_hello_no_panic data : client_hello data ≠ Panic.
Proof. unfold client_hello, u24_to_usize. no_panic. Qed.
Lemma extensions_range_no_panic hello : extensions_range hello ≠ Panic.
Proof. unfold extensions_range. no_panic. Qed.
Lemma extension_loop_no_panic fuel hello e pos :
  e ≤ length hello → extension_loop fuel hello e pos ≠ Panic.
Proof.
  intros He. revert pos. induction fuel as [|fuel IH]; intros pos; simpl; no_panic.
  - apply parse_server_name_no_panic.
  - apply IH.
Qed.

(** The parser of the transparent proxy panics only on lying lengths: if [extract_sni]
    panics, the input holds a ClientHello whose announced extensions end beyond it. *)
Theorem sni_panics_only_past_hello data :
  extract_sni data = Panic →
  ∃ hello pos ext_end, client_hello data = Ok hello ∧
    extensions_range hello = Ok (pos, ext_end) ∧ length hello < ext_end.
Proof.
  unfold extract_sni, mbind, Opt_bind. intros H.
  pose proof (client_hello_no_panic data) as Hc.
  destruct (client_hello data) as [hello|[]|]; [|done|done].
  pose proof (extensions_range_no_panic hello) as He.
  destruct (extensions_range hello) as [[pos e]|[]|] eqn:Hr; [|done|done].
  exists hello, pos, e. do 2 (split; [done|]). simpl in H.
  destruct (Nat.lt_ge_cases (length hello) e) as [|Hle]; [done|].
  by destruct (extension_loop_no_panic (e - pos) hello e pos Hle).
Qed.

(** ** Termination *)

(** The loops of the parser end. More fuel than there are bytes left between the
    position and the end changes nothing: the result of either loop is that of the
    unbounded loop of the source, which ends after at most that many iterations. *)
Theorem sni_loops_end :
  (∀ fuel data pos, length data - pos ≤ fuel →
     server_name_loop fuel data pos = server_name_loop (length data - pos) data pos) ∧
  (∀ fuel hello ext_end pos, ext_end - pos ≤ fuel →
     extension_loop fuel hello ext_end pos = extension_loop (ext_end - pos) hello ext_end pos).
Proof.
  assert (Hname : ∀ f1 f2 data pos, length data - pos ≤ f1 → length data - pos ≤ f2 →
    server_name_loop f1 data pos = server_name_loop f2 data pos).
  { induction f1 as [|f1 IH]; intros [|f2] data pos H1 H2; try done;
      try (by rewrite !server_name_loop_end by lia).
    simpl. destruct (Nat.leb_spec (pos + 3) (length data)) as [Hle|]; [|done].
    do 3 (destruct (index data _) as [?|[]|]; simpl; [|done|done]).
    case_match; [done|]. apply IH; lia. }
  assert (Hext : ∀ f1 f2 hello e pos, e - pos ≤ f1 → e - pos ≤ f2 →
    extension_loop f1 hello e pos = extension_loop f2 hello e pos).
  { induction f1 as [|f1 IH]; intros [|f2] hello e pos H1 H2; try done;
      try (by rewrite !extension_loop_end by lia).
    simpl. destruct (Nat.leb_spec (pos + 4) e) as [Hle|]; [|done].
    do 4 (destruct (index hello _) as [?|[]|]; simpl; [|done|done]).
    case_match; [done|]. apply IH; lia. }
  split; intros; [apply Hname|apply Hext]; lia.
Qed.

(** ** Concrete messages *)

(** [build_client_hello] of the tests of the source. *)
Definition sample_hello (extensions : list Extension) : ClientHelloMsg :=
  mkClientHelloMsg [Byte.x03; Byte.x03] (replicate 32 Byte.x00) [] [Byte.x00; Byte.x2f]
    [Byte.x00] extensions.
Definition sample_extensions : list Extension :=
  [OtherExtension 16 [Byte.x00; Byte.x00];
   ServerNames [(Byte.x07, as_bytes "other"); (Byte.x00, as_bytes "github.com")]].

Lemma sni_roundtrip_witness :
  extract_sni (encode_record [Byte.x03; Byte.x01] (sample_hello sample_extensions) ++ [Byte.xff])
  = Ok "github.com".
Proof.
  apply (sni_roundtrip [Byte.x03; Byte.x01] (sample_hello sample_extensions) [Byte.xff]);
    [|done].
  do 4 (split; [simpl; lia|]). split; [|vm_compute; reflexivity].
  repeat constructor; try (vm_compute; reflexivity); simpl; lia.
Defined.

(** A ClientHello of 40 bytes that announces four bytes of extensions it does not have. *)
Definition lying_hello : bytes :=
  replicate 34 Byte.x00 ++ [Byte.x00; Byte.x00; Byte.x00; Byte.x00; Byte.x00; Byte.x04].
Definition lying_record : bytes :=
  [Byte.x16; Byte.x03; Byte.x01] ++ vec16 (Byte.x01 :: vec24 lying_hello).

(** The transparent proxy can be made to panic: the loop over the extensions only checks
    the announced length and indexes past the end of the message. *)
Theorem sni_panics : extract_sni lying_record = Panic.
Proof. reflexivity. Qed.

Lemma sni_panics_only_past_hello_witness :
  ∃ hello pos ext_end, client_hello lying_record = Ok hello ∧
    extensions_range hello = Ok (pos, ext_end) ∧ length hello < ext_end.
Proof. apply (sni_panics_only_past_hello lying_record). reflexivity. Defined.
