(* ===== verification/LeaseState.v ===== *)
(** The lease state file of the agent: [zerolease-agent/src/lease_state.rs], and the task
    of the proxy that reloads it ([lease_refresh_loop] and the initial load of [run] in
    [zerolease-agent/src/proxy/mod.rs]).

    The provisioner writes the file while the proxy reads it, so the file system keeps
    every state it went through ([fs_history], newest first): a reader can see any of
    them. *)
From Stdlib Require Import Strings.Ascii.
From S2P Require Import Prelude Text Concrete Frame.

Local Open Scope string_scope.
Local Open Scope Z_scope.
Local Open Scope list_scope.

(** ** Paths and files *)

(** An absolute path in normal form: its components. *)
Abbreviation Path := (list string).

(** [path.parent()] *)
Definition path_parent (p : Path) : option Path :=
  match p with [] => None | _ => Some (take (length p - 1) p) end.

(** [file_stem] of a file name: up to its last dot, unless that is its first character. *)
Definition file_stem (name : string) : string :=
  match rsplit_once "."%char name with
  | None => name
  | Some ("", _) => name
  | Some (stem, _) => stem
  end.

(** [path.with_extension(ext)] for a non-empty extension. *)
Definition with_extension (p : Path) (ext : string) : Path :=
  match last p with
  | None => p
  | Some name => take (length p - 1) p ++ [file_stem name +:+ "." +:+ ext]
  end.

Record FileSystem := mkFileSystem {
  fs_files : gmap Path string;
  fs_history : list (gmap Path string)
}.

(** A change of the files; the previous contents go to the history. *)
Definition fs_update (f : gmap Path string → gmap Path string) (fs : FileSystem) : FileSystem :=
  mkFileSystem (f (fs_files fs)) (fs_files fs :: fs_history fs).

Section files.
Context `{!Env, !StreamIO}.

(** [std::fs::create_dir_all]: the files stay as they are. *)
Definition create_dir_all (dir : Path) : M FileSystem IoError unit :=
  fault ← db_call;
  match fault with Some e => throw (IoOther e) | None => mret tt end.

(** [std::fs::write]: the file is truncated and then filled; a failure can leave a part of
    the contents behind. *)
Definition fs_write (p : Path) (contents : string) : M FileSystem IoError unit := λ fs w,
  let fs := fs_update <[p := ""]> fs in
  match io_fault (w_io w) with
  | Some e =>
    let part := from_bytes (take (written_before_fault (w_io w)) (as_bytes contents)) in
    (Err (IoOther e), fs_update <[p := part]> fs, tick_io w)
  | None => (Ok tt, fs_update <[p := contents]> fs, tick_io w)
  end.

(** [std::fs::rename]: replaces the target in one step. *)
Definition fs_rename (src dst : Path) : M FileSystem IoError unit :=
  fault ← db_call;
  fs ← read;
  match fault, fs_files fs !! src with
  | Some e, _ => throw (IoOther e)
  | None, None => throw (IoOther "No such file or directory (os error 2)")
  | None, Some contents =>
    modify (fs_update (λ files, <[dst := contents]> (delete src files)))
  end.

(** [std::fs::read_to_string] *)
Definition read_to_string (p : Path) : M FileSystem IoError string :=
  fault ← db_call;
  fs ← read;
  match fault, fs_files fs !! p with
  | Some e, _ => throw (IoOther e)
  | None, None => throw (IoOther "No such file or directory (os error 2)")
  | None, Some contents =>
    match from_utf8 (as_bytes contents) with
    | Some s => mret s
    | None => throw (IoOther "stream did not contain valid UTF-8")
    end
  end.
End files.

(** ** The lease state *)

Definition LEASE_STATE_VERSION : Z := 1.

Record LeaseInfo := mkLeaseInfo {
  info_lease_id : string;
  info_expires_at : DateTime
}.

Record LeaseState := mkLeaseState {
  ls_version : Z;
  ls_leases : gmap string LeaseInfo
}.

Definition LeaseState_new : LeaseState := mkLeaseState LEASE_STATE_VERSION ∅.

(** [info.expires_at > now] *)
Definition info_live (now : DateTime) (info : LeaseInfo) : bool := now <? info_expires_at info.

Section lease_state.
Context `{!Env, !StreamIO, !Serde LeaseState}.

Definition is_allowed {St E} (self : LeaseState) (domain : string) : M St E bool :=
  match ls_leases self !! domain with
  | None => mret false
  | Some info => now ← utc_now; mret (info_live now info)
  end.

Definition prune_expired {St E} (self : LeaseState) : M St E LeaseState :=
  now ← utc_now;
  mret (mkLeaseState (ls_version self)
          (filter (λ kv, info_live now kv.2 = true) (ls_leases self))).

Definition write_atomic (self : LeaseState) (path : Path) : M FileSystem IoError unit :=
  dir ← ok_or (path_parent path) (IoOther "no parent dir");
  create_dir_all dir;;
  let temp_path := with_extension path "tmp" in
  json ← lift (map_err IoOther (to_json self));
  fs_write temp_path json;;
  fs_rename temp_path path.

Definition read_from (path : Path) : M FileSystem IoError LeaseState :=
  contents ← read_to_string path;
  lift (map_err IoOther (from_json contents)).

(** ** The proxy's copy *)

(** The proxy: its copy of the lease state, and the files it reads. *)
Record Proxy := mkProxy { proxy_state : LeaseState; proxy_files : FileSystem }.

Definition on_files {E A} (m : M FileSystem E A) : M Proxy E A :=
  zoom proxy_files (λ fs p, mkProxy (proxy_state p) fs) m.
Definition set_state (st : LeaseState) : M Proxy IoError unit :=
  modify (λ p, mkProxy st (proxy_files p)).

(** The initial load of [run]: [LeaseState::read_from(&args.lease_file).unwrap_or_default()]. *)
Definition initial_load (path : Path) : M Proxy IoError unit :=
  r ← try_ (on_files (read_from path));
  match r with Ok st => set_state st | _ => set_state LeaseState_new end.

(** One iteration of [lease_refresh_loop], after its sleep. *)
Definition refresh_once (path : Path) : M Proxy IoError unit :=
  r ← try_ (on_files (read_from path));
  match r with
  | Ok new_state =>
    if negb (ls_version new_state =? LEASE_STATE_VERSION) then mret tt
    else st ← prune_expired new_state; set_state st
  | Err _ => p ← read; st ← prune_expired (proxy_state p); set_state st
  | Panic => panic
  end.

(** What the provisioner and the refresh task of the proxy do in turn, on one file. *)
Inductive AgentStep := StepWrite (st : LeaseState) | StepRefresh.

Definition agent_step (path : Path) (s : AgentStep) : M Proxy IoError unit :=
  match s with
  | StepWrite st => try_ (E := IoError) (on_files (write_atomic st path));; mret tt
  | StepRefresh => refresh_once path
  end.
End lease_state.

(** A JSON text is a Rust [String]: [serde_json] writes valid UTF-8. *)
Class SerdeUtf8 (A : Type) `{!Serde A} :=
  to_json_utf8 : ∀ a s, to_json a = Ok s → from_utf8 (as_bytes s) = Some s.

Lemma single_SerdeUtf8 {A} `{EqDecision A} (x : A) (text : string) :
  from_utf8 (as_bytes text) = Some text → @SerdeUtf8 A (single_Serde x text).
Proof. intros Ht y s. unfold to_json. simpl. case_decide; [|done]. by intros [= <-]. Qed.

(** ** Writing the file *)

Section facts.
Context `{!Env, !StreamIO, !Serde LeaseState, !SerdeLaws LeaseState, !SerdeUtf8 LeaseState}.
Implicit Types (fs : FileSystem) (path : Path).

(** [fs'] was reached from [fs] by states that all satisfy [P]. *)
Definition fs_steps (P : gmap Path string → Prop) fs fs' : Prop :=
  ∃ h, fs_files fs' :: fs_history fs' = h ++ fs_files fs :: fs_history fs ∧ Forall P h.

Lemma fs_steps_refl P fs : fs_steps P fs fs.
Proof. by exists []. Qed.
Lemma fs_steps_update P f fs fs' :
  fs_steps P fs fs' → P (f (fs_files fs')) → fs_steps P fs (fs_update f fs').
Proof.
  intros (h & Heq & Hh) HP. exists (f (fs_files fs') :: h). split; [|by constructor].
  unfold fs_update. simpl. by rewrite Heq.
Qed.

(** What a reader of [path] finds in every state a write of [st] goes through. *)
Definition old_or_new (st : LeaseState) path fs (files : gmap Path string) : Prop :=
  files !! path = fs_files fs !! path ∨ ∃ json, to_json st = Ok json ∧ files !! path = Some json.

Lemma write_atomic_wp st path fs w :
  with_extension path "tmp" ≠ path →
  wp (write_atomic st path) fs w (λ r fs' w', world_le w w' ∧ r ≠ Panic ∧
    fs_steps (old_or_new st path fs) fs fs' ∧
    (∀ p, p ≠ path → p ≠ with_extension path "tmp" → fs_files fs' !! p = fs_files fs !! p) ∧
    match r with
    | Ok _ => ∃ json, to_json st = Ok json ∧ fs_files fs' !! path = Some json
    | _ => fs_files fs' !! path = fs_files fs !! path
    end).
Proof.
  intros Htmp. unfold write_atomic, create_dir_all. set (tmp := with_extension path "tmp") in *.
  pose proof (to_json_no_panic st) as Hnp.
  wp_steps; try (split; [solve_world|]); try (split; [done|]);
    try (split; [by apply fs_steps_refl|done]).
  2: { by destruct (to_json st). }
  destruct (to_json st) as [json|e|] eqn:Hjson; simplify_eq/=.
  assert (Hold : ∀ c, old_or_new st path fs (<[tmp := c]> (<[tmp := ""]> (fs_files fs))))
    by (intros c; left; by rewrite !lookup_insert_ne).
  assert (Hempty : old_or_new st path fs (<[tmp := ""]> (fs_files fs)))
    by (left; by rewrite lookup_insert_ne).
  assert (Hsteps : ∀ c, fs_steps (old_or_new st path fs) fs
    (fs_update <[tmp := c]> (fs_update <[tmp := ""]> fs)))
    by (intros c; do 2 (apply fs_steps_update; [|done]); apply fs_steps_refl).
  unfold fs_write, wp at 1. simpl. destruct (io_fault (S (w_io w))) as [e|] eqn:Hf; simpl.
  - split; [solve_world|]. split; [done|]. split; [apply Hsteps|].
    split; [intros p Hp Hp'|]; simpl; by rewrite !lookup_insert_ne by done.
  - unfold fs_rename. wp_steps; simpl in *; simplify_map_eq; (split; [solve_world|]);
      (split; [done|]).
    + split; [apply Hsteps|]. split; [|done]. intros p Hp Hp'. by simplify_map_eq.
    + split; [apply fs_steps_update; [apply Hsteps|]|].
      * right. eexists. split; [exact Hjson|]. apply lookup_insert_eq.
      * split; [|by eexists]. intros p Hp Hp'. by simplify_map_eq.
Qed.

(** ** Reading it back *)

Lemma read_from_wp path fs w :
  wp (read_from path) fs w (λ r fs' w', world_le w w' ∧ fs' = fs ∧ r ≠ Panic ∧
    (∀ st, r = Ok st → ∃ json, fs_files fs !! path = Some json ∧ from_json json = Ok st) ∧
    (Reliable → ∀ st json, fs_files fs !! path = Some json → to_json st = Ok json → r = Ok st)).
Proof.
  unfold read_from, read_to_string.
  wp_steps; (split; [solve_world|]); (split; [done|]);
    lazymatch goal with
    | H : from_utf8 (as_bytes ?c) = Some ?s |- _ =>
        assert (s = c) as -> by (rewrite <-(from_as_bytes s), (from_utf8_Some _ _ H);
                                 apply from_as_bytes);
        pose proof (from_json_no_panic (A := LeaseState) c) as Hnp
    | _ => idtac
    end.
  all: try (split; [done|split; [done|]]; intros Hrel st json; try (rewrite Hrel in *; done);
            intros Hj Hst; simplify_eq/=; by rewrite (to_json_utf8 _ _ Hst) in *).
  all: destruct (from_json _) as [st|msg|] eqn:Hj; simplify_eq/=.
  - split; [done|]. split; [intros ? [= <-]; eauto|]. intros _ st' json Hf Hst. simplify_eq/=.
    apply json_roundtrip in Hst. congruence.
  - split; [done|]. split; [done|]. intros _ st' json Hf Hst. simplify_eq/=.
    apply json_roundtrip in Hst. congruence.
Qed.

(** The live part of a lease state. *)
Definition pruned (now : DateTime) (st : LeaseState) : LeaseState :=
  mkLeaseState (ls_version st) (filter (λ kv, info_live now kv.2 = true) (ls_leases st)).

Lemma prune_expired_run {St E} st (s : St) w :
  prune_expired (E := E) st s w = (Ok (pruned (clock (w_clock w)) st), s, tick_clock w).
Proof. done. Qed.

(** After a refresh the proxy holds the live leases of the file, if the file is readable and
    of the known version, and otherwise what it held before: all of it, or the live part. *)
Lemma refresh_once_wp path p w :
  wp (refresh_once path) p w (λ r p' w', r = Ok tt ∧ world_le w w' ∧
    proxy_files p' = proxy_files p ∧
    ((∃ json st, fs_files (proxy_files p) !! path = Some json ∧ from_json json = Ok st ∧
        ((ls_version st = LEASE_STATE_VERSION ∧
          ∃ i, (w_clock w ≤ i < w_clock w')%nat ∧ proxy_state p' = pruned (clock i) st) ∨
         (ls_version st ≠ LEASE_STATE_VERSION ∧ proxy_state p' = proxy_state p))) ∨
     ∃ i, (w_clock w ≤ i < w_clock w')%nat ∧ proxy_state p' = pruned (clock i) (proxy_state p))).
Proof.
  unfold refresh_once, on_files. wp_step. wp_step. wp_step. wp_call read_from_wp.
  intros r fs w1 (Hw & -> & Hnp & Hok & _). destruct r as [st|e|]; [| |done].
  - destruct (Hok st eq_refl) as (json & Hj & Hst).
    wp_step; (split; [done|split; [solve_world|split; [done|]]]); left; exists json, st;
      (split; [done|split; [done|]]).
    + right. apply negb_true_iff, Z.eqb_neq in Hb. by destruct p.
    + left. apply negb_false_iff, Z.eqb_eq in Hb. split; [done|].
      exists (w_clock w1). split; [solve_world|done].
  - do 2 wp_step. split; [done|]. split; [solve_world|]. split; [done|]. right.
    exists (w_clock w1). split; [solve_world|done].
Qed.

Lemma pruned_lookup now st d info :
  ls_leases (pruned now st) !! d = Some info → ls_leases st !! d = Some info.
Proof. simpl. intros Hd. by apply map_lookup_filter_Some in Hd as [? _]. Qed.

(** The lease was in a state of the known version that the provisioner wrote. *)
Definition provisioned (steps : list AgentStep) (d : string) (info : LeaseInfo) : Prop :=
  ∃ st, StepWrite st ∈ steps ∧ ls_version st = LEASE_STATE_VERSION ∧
    ls_leases st !! d = Some info.

(** What holds after the steps [past]: the file is one of the states written, and the
    leases the proxy holds come from them. *)
Definition agent_inv (path : Path) (past : list AgentStep) (p : Proxy) : Prop :=
  (∀ json, fs_files (proxy_files p) !! path = Some json →
     ∃ st, StepWrite st ∈ past ∧ to_json st = Ok json) ∧
  ls_version (proxy_state p) = LEASE_STATE_VERSION ∧
  ∀ d info, ls_leases (proxy_state p) !! d = Some info → provisioned past d info.

Lemma agent_inv_mono path past s p : agent_inv path past p → agent_inv path (past ++ [s]) p.
Proof.
  intros (Hf & Hv & Hl). split; [|split; [done|]].
  - intros json Hj. destruct (Hf json Hj) as (st & Hin & ?). exists st.
    split; [|done]. apply elem_of_app. by left.
  - intros d info Hd. destruct (Hl d info Hd) as (st & Hin & ?). exists st.
    split; [|done]. apply elem_of_app. by left.
Qed.

Lemma agent_step_wp path past s p w :
  with_extension path "tmp" ≠ path → agent_inv path past p →
  wp (agent_step path s) p w (λ r p' w', r = Ok tt ∧ world_le w w' ∧
    agent_inv path (past ++ [s]) p').
Proof.
  intros Htmp Hinv. destruct s as [st|]; simpl.
  - unfold on_files. wp_step. wp_step. wp_step. wp_call write_atomic_wp.
    intros r fs' w' (Hw & Hnp & _ & _ & Hr). apply (agent_inv_mono _ _ (StepWrite st)) in Hinv.
    destruct Hinv as (Hf & Hrest).
    destruct r as [[]|e|]; [| |done]; wp_step; (split; [done|]); (split; [done|]);
      (split; [|done]); simpl; intros json Hj.
    + destruct Hr as (json' & Hst & Hj'). exists st. split; [|congruence].
      apply elem_of_app. right. apply list_elem_of_here.
    + rewrite Hr in Hj. auto.
  - wp_call refresh_once_wp. intros r p' w' (-> & Hw & Hfiles & Hst). split; [done|].
    split; [done|]. apply (agent_inv_mono _ _ StepRefresh) in Hinv as (Hf & Hv & Hl).
    split; [by rewrite Hfiles|].
    destruct Hst as [(json & st & Hj & Hst & [[Hver (i & _ & ->)]|[_ ->]])|(i & _ & ->)].
    + split; [done|]. intros d info Hd%pruned_lookup.
      destruct (Hf json Hj) as (st' & Hin & Hst'%json_roundtrip).
      assert (st' = st) as -> by congruence. by exists st.
    + done.
    + split; [done|]. intros d info Hd%pruned_lookup. auto.
Qed.
End facts.

(** ** Properties *)

(** C25. The lease file is replaced atomically. Whatever call fails, in every state the file
    system goes through during [write_atomic] a reader of the lease file finds its previous
    contents or the complete new ones; no file other than the lease file and its temporary
    file changes; on success the file holds the new state and a read that does not fail
    delivers it, on an error the file is as before. *)
Theorem lease_file_atomic `{!Env, !StreamIO, !Serde LeaseState, !SerdeLaws LeaseState,
    !SerdeUtf8 LeaseState} st path fs w r fs' w' :
  with_extension path "tmp" ≠ path → write_atomic st path fs w = (r, fs', w') →
  r ≠ Panic ∧ fs_steps (old_or_new st path fs) fs fs' ∧
  (∀ p, p ≠ path → p ≠ with_extension path "tmp" → fs_files fs' !! p = fs_files fs !! p) ∧
  match r with
  | Ok _ => is_Some (fs_files fs' !! path) ∧
      (Reliable → ∀ w1, ∃ w2, read_from path fs' w1 = (Ok st, fs', w2))
  | _ => fs_files fs' !! path = fs_files fs !! path
  end.
Proof.
  intros Htmp Hrun.
  destruct (wp_run _ _ _ _ _ _ _ (write_atomic_wp st path fs w Htmp) Hrun)
    as (_ & Hnp & Hsteps & Hother & Hr).
  do 3 (split; [done|]). destruct r as [[]|e|]; [|done|done].
  destruct Hr as (json & Hst & Hj). split; [by eexists|]. intros Hrel w1.
  pose proof (read_from_wp path fs' w1) as Hread. unfold wp in Hread.
  destruct (read_from path fs' w1) as [[r1 fs1] w2].
  destruct Hread as (_ & -> & _ & _ & Hok). exists w2. by rewrite (Hok Hrel st json Hj Hst).
Qed.

(** The proxy only trusts the provisioner. Start the proxy without a lease file and let
    the provisioner's writes and the proxy's refreshes happen in any order, with any call
    failing: no step fails, the state of the proxy keeps the known version, and every lease
    in it was in a state of that version that the provisioner wrote, with the same
    expiry. *)
Theorem proxy_leases_provisioned `{!Env, !StreamIO, !Serde LeaseState, !SerdeLaws LeaseState,
    !SerdeUtf8 LeaseState} path steps p w r p' w' :
  with_extension path "tmp" ≠ path → fs_files (proxy_files p) !! path = None →
  proxy_state p = LeaseState_new →
  for_each (agent_step path) steps p w = (r, p', w') →
  r = Ok tt ∧ ls_version (proxy_state p') = LEASE_STATE_VERSION ∧
  ∀ d info, ls_leases (proxy_state p') !! d = Some info → provisioned steps d info.
Proof.
  intros Htmp Hnone Hnew Hrun. revert Hrun. apply (wp_run _ _ _ (λ r p' _,
    r = Ok tt ∧ ls_version (proxy_state p') = LEASE_STATE_VERSION ∧
    ∀ d info, ls_leases (proxy_state p') !! d = Some info → provisioned steps d info)).
  apply (wp_for_each _ _ (λ rest p _, ∃ past, steps = past ++ rest ∧ agent_inv path past p)).
  - exists []. split; [done|]. split; [by rewrite Hnone|]. by rewrite Hnew.
  - intros s rest p1 w1 (past & -> & Hinv). wp_call agent_step_wp.
    intros r1 p2 w2 (-> & _ & Hinv'). exists (past ++ [s]). by rewrite <-app_assoc.
  - intros p1 w1 (past & -> & _ & Hv & Hl). by rewrite app_nil_r.
Qed.

(** ** Witnesses *)

#[global] Instance LeaseInfo_eq_dec : EqDecision LeaseInfo.
Proof. solve_decision. Defined.
#[global] Instance LeaseState_eq_dec : EqDecision LeaseState.
Proof. solve_decision. Defined.

Definition demo_info : LeaseInfo := mkLeaseInfo "lease-1" (900 * NANOS).
Definition demo_state : LeaseState :=
  mkLeaseState LEASE_STATE_VERSION {["github.com" := demo_info]}.
Definition demo_lease_file : Path := ["var"; "run"; "zerolease"; "leases.json"].

Definition demo_Serde_LeaseState : Serde LeaseState := single_Serde demo_state "github".

Module DemoLeaseFile.
#[export] Existing Instance demo_Env.
#[export] Existing Instance demo_StreamIO.
#[export] Existing Instance demo_Serde_LeaseState.
End DemoLeaseFile.
Import DemoLeaseFile.

Lemma demo_SerdeLaws_LeaseState : SerdeLaws LeaseState.
Proof. apply single_SerdeLaws. Qed.
Lemma demo_SerdeUtf8_LeaseState : SerdeUtf8 LeaseState.
Proof. by apply single_SerdeUtf8. Qed.

Definition empty_files : FileSystem := mkFileSystem ∅ [].
Definition demo_proxy : Proxy := mkProxy LeaseState_new empty_files.

Lemma lease_file_atomic_witness :
  ∃ fs' w', write_atomic demo_state demo_lease_file empty_files demo_world = (Ok tt, fs', w') ∧
    ∃ w2, read_from demo_lease_file fs' w' = (Ok demo_state, fs', w2).
Proof.
  assert (Hok : (write_atomic demo_state demo_lease_file empty_files demo_world).1.1 = Ok tt)
    by (vm_compute; reflexivity).
  destruct (write_atomic demo_state demo_lease_file empty_files demo_world)
    as [[r fs'] w'] eqn:Hrun. simpl in Hok. subst r. exists fs', w'. split; [done|].
  destruct (@lease_file_atomic demo_Env demo_StreamIO demo_Serde_LeaseState
    demo_SerdeLaws_LeaseState demo_SerdeUtf8_LeaseState demo_state demo_lease_file empty_files
    demo_world _ _ _ ltac:(done) Hrun) as (_ & _ & _ & _ & Hread).
  apply Hread. intros i. reflexivity.
Defined.

Lemma proxy_leases_provisioned_witness :
  ∃ p' w', for_each (agent_step demo_lease_file) [StepRefresh; StepWrite demo_state; StepRefresh]
      demo_proxy demo_world = (Ok tt, p', w') ∧
    ls_leases (proxy_state p') !! "github.com" = Some demo_info ∧
    provisioned [StepRefresh; StepWrite demo_state; StepRefresh] "github.com" demo_info.
Proof.
  set (steps := [StepRefresh; StepWrite demo_state; StepRefresh]).
  assert (Hok : (for_each (agent_step demo_lease_file) steps demo_proxy demo_world).1.1 = Ok tt)
    by (vm_compute; reflexivity).
  assert (Hd : ls_leases (proxy_state
      (for_each (agent_step demo_lease_file) steps demo_proxy demo_world).1.2) !! "github.com" =
    Some demo_info) by (vm_compute; reflexivity).
  destruct (for_each (agent_step demo_lease_file) steps demo_proxy demo_world)
    as [[r p'] w'] eqn:Hrun. simpl in Hok, Hd. subst r.
  exists p', w'. split; [done|]. split; [done|].
  eapply (@proxy_leases_provisioned demo_Env demo_StreamIO demo_Serde_LeaseState
    demo_SerdeLaws_LeaseState demo_SerdeUtf8_LeaseState demo_lease_file _ demo_proxy demo_world);
    [done|done|done|exact Hrun|exact Hd].
Defined.

(** The first load of the proxy takes a file of an unknown version; only the refreshes
    reject it. *)
Definition future_state : LeaseState := mkLeaseState 2 (ls_leases demo_state).
Theorem initial_load_ignores_version :
  let _ : Serde LeaseState :=
    {| to_json := λ _, Err "unsupported"; from_json := λ _, Ok future_state |} in
  let p := mkProxy LeaseState_new (mkFileSystem {[demo_lease_file := "v2"]} []) in
  proxy_state (initial_load demo_lease_file p demo_world).1.2 = future_state ∧
  proxy_state (refresh_once demo_lease_file p demo_world).1.2 = LeaseState_new.
Proof. vm_compute. done. Qed.
