(* ===== verification/AgentProxy.v ===== *)
(** The two handlers of the agent's proxy: [handle_connect] of
    [zerolease-agent/src/proxy/connect.rs] with the functions it calls, and
    [handle_transparent] of [zerolease-agent/src/proxy/sni.rs].

    A handler runs on the connection's stream; the tunnel it ends in is its result, since
    what flows through the tunnel is the peers' business. *)
From Stdlib Require Import Strings.Ascii.
From S2P Require Import Prelude Text Concrete Frame Sni LeaseState.

Local Open Scope string_scope.
Local Open Scope Z_scope.
Local Open Scope list_scope.

(** ** Addresses *)

Inductive IpAddr :=
  | V4 (a b c d : Z)
  | V6 (bits : N).

Record SocketAddr := mkSocketAddr { sa_ip : IpAddr; sa_port : Z }.

(** [to_socket_addrs] on a [host:port] string: the answer of the resolver at its [i]-th
    call, [None] when the resolution fails. *)
Class Dns := to_socket_addrs : nat → string → option (list SocketAddr).

(** How many bytes have arrived on a connection at the [i]-th call. *)
Class Arrival := arrived : nat → nat.

(** [std::net::Ipv4Addr] *)
Definition is_loopback (a : Z) : bool := a =? 127.
Definition is_private (a b : Z) : bool :=
  (a =? 10) || ((a =? 172) && (16 <=? b) && (b <=? 31)) || ((a =? 192) && (b =? 168)).
Definition is_link_local (a b : Z) : bool := (a =? 169) && (b =? 254).
Definition is_broadcast (a b c d : Z) : bool :=
  (a =? 255) && (b =? 255) && (c =? 255) && (d =? 255).
Definition is_unspecified (a b c d : Z) : bool :=
  (a =? 0) && (b =? 0) && (c =? 0) && (d =? 0).

Definition is_private_ip (ip : IpAddr) : bool :=
  match ip with
  | V4 a b c d =>
    is_loopback a || is_private a b || is_link_local a b || is_broadcast a b c d
    || is_unspecified a b c d || ((a =? 100) && (Z.land b 192 =? 64))
  | V6 bits => (bits =? 1)%N || (bits =? 0)%N
  end.

(** ** The CONNECT request *)

Definition MAX_REQUEST_LINE : Z := 8192.
Definition MAX_HEADERS : nat := 64.
(** [Duration]s in seconds. *)
Definition MAX_TUNNEL_DURATION : Z := 3600.
Definition ALLOWED_PORTS : list Z := [443; 8443].

Definition parse_connect_target (line : string) : option (string * Z) :=
  let parts := split_whitespace line in
  match parts with
  | method :: target :: _ =>
    if negb (eq_ignore_ascii_case method "CONNECT") then None else
    hp ← rsplit_once ":"%char target;
    port ← from_str_radix 10 65535 hp.2;
    if is_empty hp.1 then None else Some (hp.1, port)
  | _ => None
  end.

(** [b.is_ascii_alphanumeric() || b == b'-' || b == b'.'] *)
Definition hostname_byte (b : Byte.byte) : bool :=
  let v := byte_val b in
  ((48 <=? v) && (v <=? 57)) || ((65 <=? v) && (v <=? 90)) || ((97 <=? v) && (v <=? 122))
  || (v =? 45) || (v =? 46).

Definition is_valid_hostname (host : string) : bool :=
  negb (is_empty host) && (str_len host <=? 253) && forallb hostname_byte (as_bytes host)
  && negb (starts_with "-" host) && negb (starts_with "." host).

(** The bytes up to and including the first newline. *)
Fixpoint line_length (b : bytes) : nat :=
  match b with
  | [] => O
  | x :: b' => if decide (x = Byte.x0a) then 1%nat else S (line_length b')
  end.

Section proxy.
Context `{!Env, !StreamIO, !Chrono, !Dns, !Arrival}.

(** [AsyncBufReadExt::read_line]: a line with its newline, the rest of the stream if it has
    none, nothing at its end. *)
Definition read_line : M Stream IoError string :=
  fault ← db_call;
  s ← read;
  match fault with
  | Some e => throw (IoOther e)
  | None =>
    let n := line_length (incoming s) in
    write (mkStream (drop n (incoming s)) (outgoing s));;
    match from_utf8 (take n (incoming s)) with
    | Some line => mret line
    | None => throw (IoOther "stream did not contain valid UTF-8")
    end
  end.

(** The header loop; its body ends the loop on an overlong or blank line. *)
Fixpoint consume_headers (n : nat) : M Stream IoError unit :=
  match n with
  | O => mret tt
  | S n' =>
    header ← read_line;
    if (MAX_REQUEST_LINE <? str_len header) || is_blank header then mret tt
    else consume_headers n'
  end.

Definition respond (text : string) : M Stream IoError unit :=
  map_err_m IoOther (write_all (as_bytes text)).

Definition CRLF : string := from_bytes [Byte.x0d; Byte.x0a].
Definition RESP_400 : string := "HTTP/1.1 400 Bad Request" +:+ CRLF +:+ CRLF.
Definition RESP_403 : string := "HTTP/1.1 403 Forbidden" +:+ CRLF +:+ CRLF.
Definition RESP_502 : string := "HTTP/1.1 502 Bad Gateway" +:+ CRLF +:+ CRLF.
Definition RESP_200 : string := "HTTP/1.1 200 Connection Established" +:+ CRLF +:+ CRLF.

Definition resolve_and_validate {St E} (target : string) : M St E (outcome string SocketAddr) :=
  λ s w,
  let r :=
    match to_socket_addrs (w_io w) target with
    | None => Err "DNS resolution failed"
    | Some [] => Err "DNS returned no addresses"
    | Some (addr :: _) =>
      if is_private_ip (sa_ip addr) then Err "resolved to private/internal IP" else Ok addr
    end in
  (Ok r, s, tick_io w).

(** [TcpStream::connect]: the upstream connection, or a failure. *)
Definition tcp_connect {St E} : M St E bool :=
  fault ← db_call; mret (match fault with Some _ => false | None => true end).

(** How a handler ends: the connection is closed, or handed to a tunnel to a validated
    address for at most so many seconds ([Tunnel]), or to a tunnel without a time limit to
    a host name ([OpenTunnel]). *)
Inductive Handled :=
  | Closed
  | Tunnel (addr : SocketAddr) (timeout : Z)
  | OpenTunnel (target : string).

(** [Duration::from_secs(remaining.num_seconds().max(0) as u64)], at most an hour, for the
    lease of the domain; zero without a lease. *)
Definition tunnel_limit {St E} (state : LeaseState) (domain : string) : M St E Z :=
  match ls_leases state !! domain with
  | None => mret (Z.min 0 MAX_TUNNEL_DURATION)
  | Some info =>
    now ← utc_now;
    mret (Z.min (Z.max (td_num_seconds (info_expires_at info - now)) 0) MAX_TUNNEL_DURATION)
  end.

(** [reader.into_inner()]: the bytes the buffered reader has read ahead, [arrived] of those
    still to come and at most its capacity, are dropped with it. *)
Definition BUF_CAPACITY : nat := Z.to_nat 8192.
Definition into_inner : M Stream IoError unit := λ s w,
  (Ok tt, mkStream (drop (Nat.min BUF_CAPACITY (arrived (w_io w))) (incoming s)) (outgoing s), w).

(** The end of [handle_connect], for a domain and a port that passed the syntactic checks. *)
Definition connect_tunnel (state : LeaseState) (domain : string) (port : Z) : M Stream IoError Handled :=
  allowed ← is_allowed state domain;
  timeout ← tunnel_limit state domain;
  if negb allowed then respond RESP_403;; mret Closed else
  let target_str := domain +:+ ":" +:+ fmt_Z port in
  resolved ← resolve_and_validate target_str;
  match resolved with
  | Ok resolved_addr =>
    connected ← tcp_connect;
    if negb connected then respond RESP_502;; mret Closed else
    respond RESP_200;; into_inner;; mret (Tunnel resolved_addr timeout)
  | _ => respond RESP_502;; mret Closed
  end.

Definition handle_connect (state : LeaseState) : M Stream IoError Handled :=
  request_line ← read_line;
  if MAX_REQUEST_LINE <? str_len request_line then respond RESP_400;; mret Closed else
  match parse_connect_target request_line with
  | None => respond RESP_400;; mret Closed
  | Some (host, port) =>
    consume_headers MAX_HEADERS;;
    if negb (bool_decide (port ∈ ALLOWED_PORTS)) then respond RESP_403;; mret Closed
    else if negb (is_valid_hostname host) then respond RESP_400;; mret Closed else
    let domain := to_ascii_lowercase host in
    connect_tunnel state domain port
  end.

(** ** The transparent proxy *)

Definition MAX_CLIENT_HELLO : nat := Z.to_nat 16384.

(** [stream.peek(&mut buf)]: the bytes that have arrived, up to the size of the buffer;
    they stay in the stream. *)
Definition peek (limit : nat) : M Stream IoError bytes := λ s w,
  match io_fault (w_io w) with
  | Some e => (Err (IoOther e), s, tick_io w)
  | None => (Ok (take (Nat.min limit (arrived (w_io w))) (incoming s)), s, tick_io w)
  end.

Definition handle_transparent (state : LeaseState) : M Stream IoError Handled :=
  buf ← peek MAX_CLIENT_HELLO;
  match extract_sni buf with
  | Panic => panic
  | Err _ => mret Closed
  | Ok name =>
    let domain := to_ascii_lowercase name in
    allowed ← is_allowed state domain;
    if negb allowed then mret Closed else
    let target := domain +:+ ":443" in
    connected ← tcp_connect;
    if negb connected then mret Closed else
    mret (OpenTunnel target)
  end.
End proxy.
#[local] Arguments Nat.min : simpl never.
#[local] Arguments BUF_CAPACITY : simpl never.

(** ** Private addresses *)

(** An IPv4 address as a number, and the block [base/len] of addresses. *)
Definition ipv4 (a b c d : Z) : Z := ((a * 256 + b) * 256 + c) * 256 + d.
Definition in_block (base : Z) (len : Z) (ip : Z) : Prop :=
  base ≤ ip < base + 2 ^ (32 - len).

(** The blocks named in the comments of [is_private_ip]. *)
Definition internal_blocks : list (Z * Z) :=
  [(ipv4 127 0 0 0, 8); (ipv4 10 0 0 0, 8); (ipv4 172 16 0 0, 12); (ipv4 192 168 0 0, 16);
   (ipv4 169 254 0 0, 16); (ipv4 255 255 255 255, 32); (ipv4 0 0 0 0, 32);
   (ipv4 100 64 0 0, 10)].

Definition octet (x : Z) : Prop := 0 ≤ x < 256.

(** The mask test of the code, checked on every octet. *)
Lemma land_192 b : octet b → (Z.land b 192 =? 64) = ((64 <=? b) && (b <? 128)).
Proof.
  intros Hb. set (P n := bool_decide ((Z.land (Z.of_nat n) 192 =? 64) =
    ((64 <=? Z.of_nat n) && (Z.of_nat n <? 128)))).
  assert (Hall : forallb P (seq 0 256) = true) by (vm_compute; reflexivity).
  rewrite forallb_forall in Hall. specialize (Hall (Z.to_nat b)).
  unfold octet in Hb. subst P. cbv beta in Hall. rewrite Z2Nat.id in Hall by lia.
  apply bool_decide_eq_true in Hall; [done|]. apply in_seq. lia.
Qed.

(** Membership in a block, octet by octet. *)
Lemma in_block_8 x a b c d : octet b → octet c → octet d →
  in_block (ipv4 x 0 0 0) 8 (ipv4 a b c d) ↔ a = x.
Proof. unfold octet, in_block, ipv4. change (2 ^ (32 - 8)) with 16777216. lia. Qed.
Lemma in_block_16 x y a b c d : octet y → octet b → octet c → octet d →
  in_block (ipv4 x y 0 0) 16 (ipv4 a b c d) ↔ a = x ∧ b = y.
Proof. unfold octet, in_block, ipv4. change (2 ^ (32 - 16)) with 65536. lia. Qed.
Lemma in_block_172 a b c d : octet b → octet c → octet d →
  in_block (ipv4 172 16 0 0) 12 (ipv4 a b c d) ↔ a = 172 ∧ 16 ≤ b ≤ 31.
Proof. unfold octet, in_block, ipv4. change (2 ^ (32 - 12)) with 1048576. lia. Qed.
Lemma in_block_100 a b c d : octet b → octet c → octet d →
  in_block (ipv4 100 64 0 0) 10 (ipv4 a b c d) ↔ a = 100 ∧ 64 ≤ b < 128.
Proof. unfold octet, in_block, ipv4. change (2 ^ (32 - 10)) with 4194304. lia. Qed.
Lemma in_block_32 x y z u a b c d :
  octet y → octet z → octet u → octet b → octet c → octet d →
  in_block (ipv4 x y z u) 32 (ipv4 a b c d) ↔ a = x ∧ b = y ∧ c = z ∧ d = u.
Proof. unfold octet, in_block, ipv4. change (2 ^ (32 - 32)) with 1. lia. Qed.

(** The address filter blocks exactly the internal IPv4 addresses. An IPv4 address is
    refused exactly when it lies in one of the blocks 127/8, 10/8, 172.16/12, 192.168/16,
    169.254/16 (cloud metadata), 100.64/10, or is the broadcast or the unspecified
    address. *)
Theorem private_ipv4_spec a b c d :
  octet a → octet b → octet c → octet d →
  is_private_ip (V4 a b c d) = true ↔
  Exists (λ blk, in_block blk.1 blk.2 (ipv4 a b c d)) internal_blocks.
Proof.
  intros Ha Hb Hc Hd. unfold internal_blocks. rewrite !Exists_cons, Exists_nil. cbn [fst snd].
  rewrite !in_block_8, !in_block_16, in_block_172, in_block_100, !in_block_32
    by (done || unfold octet; lia).
  unfold is_private_ip, is_loopback, is_private, is_link_local, is_broadcast, is_unspecified.
  rewrite land_192 by done.
  rewrite !orb_true_iff, !andb_true_iff, !Z.eqb_eq, !Z.leb_le, Z.ltb_lt. tauto.
Qed.

(** An address that a tunnel may go to: an IPv4 address outside those blocks, or an IPv6
    address that is neither [::1] nor [::]. *)
Definition outside (ip : IpAddr) : Prop :=
  match ip with
  | V4 a b c d => octet a → octet b → octet c → octet d →
      Forall (λ blk, ¬ in_block blk.1 blk.2 (ipv4 a b c d)) internal_blocks
  | V6 bits => bits ≠ 0%N ∧ bits ≠ 1%N
  end.
Lemma not_private_outside ip : is_private_ip ip = false → outside ip.
Proof.
  destruct ip as [a b c d|bits]; intros Hp.
  - intros Ha Hb Hc Hd. apply Forall_forall. intros blk Hin Hblk.
    assert (Ht : is_private_ip (V4 a b c d) = true); [|congruence].
    apply private_ipv4_spec; [done..|]. apply Exists_exists. by exists blk.
  - simpl in Hp. by apply orb_false_iff in Hp as [?%N.eqb_neq ?%N.eqb_neq].
Qed.

(** ** The handlers *)

Section facts.
Context `{!Env, !StreamIO, !Chrono, !ChronoLaws, !Dns, !Arrival}.
Implicit Types (s : Stream) (w : World) (state : LeaseState).

(** Reading consumes bytes and writes none. *)
Definition reads s s' : Prop := outgoing s' = outgoing s ∧ ∃ b, incoming s = b ++ incoming s'.

Lemma reads_refl s : reads s s.
Proof. split; [done|]. by exists []. Qed.
Lemma reads_trans s1 s2 s3 : reads s1 s2 → reads s2 s3 → reads s1 s3.
Proof.
  intros [Ho1 (b1 & Hi1)] [Ho2 (b2 & Hi2)]. split; [congruence|]. exists (b1 ++ b2).
  by rewrite Hi1, Hi2, app_assoc.
Qed.

Lemma read_line_wp s w :
  wp read_line s w (λ r s' w', world_le w w' ∧ reads s s' ∧ r ≠ Panic ∧
    ∀ line, r = Ok line → incoming s = as_bytes line ++ incoming s').
Proof.
  unfold read_line. wp_steps; (split; [solve_world|]).
  - by split; [apply reads_refl|].
  - split; [split; [done|]; eexists; symmetry; apply take_drop|]. split; [done|].
    intros line [= <-]. rewrite (from_utf8_Some _ _ Hm0). symmetry. apply take_drop.
  - split; [split; [done|]; eexists; symmetry; apply take_drop|]. done.
Qed.

Lemma consume_headers_wp n s w :
  wp (consume_headers n) s w (λ r s' w', world_le w w' ∧ reads s s' ∧ r ≠ Panic).
Proof.
  revert s w. induction n as [|n IH]; intros s w; simpl.
  { wp_step. split; [solve_world|]. by split; [apply reads_refl|]. }
  wp_step. wp_call read_line_wp. intros [line|e|] s1 w1 (Hw & Hs & Hnp & _); [|done|done].
  wp_step; [by wp_step|]. wp_call IH. intros r s2 w2 (Hw2 & Hs2 & Hnp2).
  split; [solve_world|]. split; [by eapply reads_trans|done].
Qed.

Lemma respond_wp text s w :
  wp (respond text) s w (λ r s' w', world_le w w' ∧ incoming s' = incoming s ∧ r ≠ Panic ∧
    ∃ t, outgoing s' = outgoing s ++ t ∧ t `prefix_of` as_bytes text ∧
      (is_ok r = true → t = as_bytes text)).
Proof.
  unfold respond. wp_step. unfold write_all, wp. destruct (io_fault (w_io w)) as [e|]; simpl;
    (split; [solve_world|]); (split; [done|]); (split; [done|]); eexists; (split; [done|]).
  - split; [|done]. apply prefix_take.
  - by split.
Qed.

(** The connection is refused: one complete response and no tunnel, or a failed write. *)
Definition refused (text : string) s (r : outcome IoError Handled) s' : Prop :=
  (r = Ok Closed ∧ outgoing s' = outgoing s ++ as_bytes text) ∨
  ∃ e t, r = Err e ∧ outgoing s' = outgoing s ++ t ∧ t `prefix_of` as_bytes text.

Lemma refuse_wp text s0 s w :
  outgoing s = outgoing s0 →
  wp (respond text;; mret Closed) s w (λ r s' w', world_le w w' ∧ refused text s0 r s').
Proof.
  intros Hs. wp_step. wp_call respond_wp.
  intros [[]|e|] s1 w1 (Hw & _ & Hnp & t & Ho & Hp & Ht); [| |done].
  - wp_step. split; [done|]. left. split; [done|]. by rewrite Ho, Hs, Ht.
  - split; [done|]. right. exists e, t. by rewrite Ho, Hs.
Qed.

(** The lease of the domain is live at a reading of the clock in the given interval, and
    the limit of the tunnel is at most an hour and at most the whole seconds left of the
    lease at the next reading. *)
Definition lease_limit state (domain : string) (i : nat) (timeout : Z) : Prop :=
  ∃ info, ls_leases state !! domain = Some info ∧ clock i < info_expires_at info ∧
    0 ≤ timeout ≤ MAX_TUNNEL_DURATION ∧
    timeout * NANOS ≤ Z.max 0 (info_expires_at info - clock (S i)).

Lemma limit_bounds d :
  let t := Z.min (Z.max (td_num_seconds d) 0) MAX_TUNNEL_DURATION in
  0 ≤ t ≤ MAX_TUNNEL_DURATION ∧ t * NANOS ≤ Z.max 0 d.
Proof.
  simpl. rewrite td_num_seconds_spec. unfold MAX_TUNNEL_DURATION, NANOS.
  Z.to_euclidean_division_equations. lia.
Qed.

(** The address is the first answer of the resolver for the target, and lies outside. *)
Definition validated_addr (target : string) (k : nat) (addr : SocketAddr) : Prop :=
  ∃ addrs, to_socket_addrs k target = Some (addr :: addrs) ∧ outside (sa_ip addr).

(** A tunnel is allowed between two worlds. *)
Definition tunnel_granted state domain port w w' addr timeout : Prop :=
  ∃ i k, (w_clock w ≤ i)%nat ∧ (S i < w_clock w')%nat ∧ lease_limit state domain i timeout ∧
    (w_io w ≤ k < w_io w')%nat ∧ validated_addr (domain +:+ ":" +:+ fmt_Z port) k addr.

(** How [connect_tunnel] ends. *)
Definition connect_result state domain port s0 w r s' w' : Prop :=
  refused RESP_403 s0 r s' ∨ refused RESP_502 s0 r s' ∨
  ∃ addr timeout, tunnel_granted state domain port w w' addr timeout ∧
    ((r = Ok (Tunnel addr timeout) ∧ outgoing s' = outgoing s0 ++ as_bytes RESP_200) ∨
     ∃ e t, r = Err e ∧ outgoing s' = outgoing s0 ++ t ∧ t `prefix_of` as_bytes RESP_200).

Lemma connect_tunnel_wp state domain port s0 s w :
  outgoing s = outgoing s0 →
  wp (connect_tunnel state domain port) s w (λ r s' w', world_le w w' ∧
    connect_result state domain port s0 w r s' w').
Proof.
  intros Hs. unfold connect_tunnel, is_allowed, tunnel_limit. wp_step.
  destruct (ls_leases state !! domain) as [info|] eqn:Hinfo.
  2: { do 3 wp_step. cbn [negb]. wp_call (refuse_wp RESP_403 s0 s w Hs).
       intros r s' w' [Hw Hr]. split; [done|]. by left. }
  do 7 wp_step. wp_step.
  { wp_call (refuse_wp RESP_403 s0 s). intros r s' w' [Hw Hr].
    split; [solve_world|]. by left. }
  apply negb_false_iff in Hb. wp_step. eapply wp_det; [reflexivity|].
  cbn beta iota. set (w2 := tick_clock (tick_clock w)).
  assert (Hrefuse : ∀ w3, world_le w w3 →
    wp (respond RESP_502;; mret Closed) s w3 (λ r s' w', world_le w w' ∧
      connect_result state domain port s0 w r s' w')).
  { intros w3 Hw3. wp_call (refuse_wp RESP_502 s0 s w3 Hs). intros r s' w' [Hw Hr].
    split; [solve_world|]. by right; left. }
  destruct (to_socket_addrs (w_io w2) _) as [[|addr addrs]|] eqn:Hdns;
    try (apply Hrefuse; solve_world).
  destruct (is_private_ip (sa_ip addr)) eqn:Hpriv; [apply Hrefuse; solve_world|].
  wp_step. unfold tcp_connect. do 3 wp_step.
  wp_step; [apply Hrefuse; solve_world|]. wp_step. wp_call (respond_wp RESP_200 s).
  intros r s' w3 (Hw3 & _ & Hnp & t & Ho & Hp & Ht).
  assert (Hgrant : tunnel_granted state domain port w w3 addr
    (Z.min (Z.max (td_num_seconds (info_expires_at info - clock (S (w_clock w)))) 0)
       MAX_TUNNEL_DURATION)).
  { exists (w_clock w), (w_io w). do 2 (split; [solve_world|]). split.
    - exists info. split; [done|]. split; [by apply Z.ltb_lt|]. apply limit_bounds.
    - split; [solve_world|]. exists addrs. split; [done|]. by apply not_private_outside. }
  rewrite Hs in Ho. destruct r as [[]|e|]; [| |done];
    [wp_step; wp_det_step; wp_step|]; (split; [solve_world|]);
    right; right; eexists _, _; (split; [exact Hgrant|]).
  - left. simpl. by rewrite Ho, Ht.
  - right. by exists e, t.
Qed.

(** ** Properties of the explicit proxy *)

Lemma handle_connect_wp state s w :
  wp (handle_connect state) s w (λ r s' w', world_le w w' ∧
    (refused RESP_400 s r s' ∨ refused RESP_403 s r s' ∨
     (∃ e, r = Err e ∧ outgoing s' = outgoing s) ∨
     ∃ line rest host port, incoming s = as_bytes line ++ rest ∧
       str_len line ≤ MAX_REQUEST_LINE ∧ parse_connect_target line = Some (host, port) ∧
       port ∈ ALLOWED_PORTS ∧ is_valid_hostname host = true ∧
       connect_result state (to_ascii_lowercase host) port s w r s' w')).
Proof.
  unfold handle_connect. wp_step. wp_call read_line_wp.
  intros [line|e|] s1 w1 (Hw1 & [Ho1 _] & Hnp & Hline); [| |done].
  2: { split; [done|]. right; right; left. by exists e. }
  specialize (Hline line eq_refl). wp_step.
  { wp_call (refuse_wp RESP_400 s s1). intros r s' w' [Hw Hr]. split; [solve_world|]. by left. }
  apply Z.ltb_ge in Hb. destruct (parse_connect_target line) as [[host port]|] eqn:Hparse.
  2: { wp_call (refuse_wp RESP_400 s s1). intros r s' w' [Hw Hr].
       split; [solve_world|]. by left. }
  wp_step. wp_call consume_headers_wp.
  intros [[]|e|] s2 w2 (Hw2 & [Ho2 _] & Hnp2); [| |done]; rewrite Ho1 in Ho2.
  2: { split; [solve_world|]. right; right; left. by exists e. }
  wp_step.
  { wp_call (refuse_wp RESP_403 s s2). intros r s' w' [Hw Hr]. split; [solve_world|].
    by right; left. }
  wp_step.
  { wp_call (refuse_wp RESP_400 s s2). intros r s' w' [Hw Hr]. split; [solve_world|]. by left. }
  apply negb_false_iff, bool_decide_eq_true in Hb0. apply negb_false_iff in Hb1.
  wp_call (connect_tunnel_wp state _ port s). intros r s' w' [Hw Hr].
  split; [solve_world|]. right; right; right. exists line, (incoming s1), host, port.
  do 5 (split; [done|]).
  destruct Hr as [Hr|[Hr|(addr & t & (i & k & Hi & Hi' & Hl & Hk & Ha) & Hr)]];
    [by left|by right; left|right; right].
  exists addr, t. split; [|done]. exists i, k. do 2 (split; [solve_world|]). split; [done|].
  split; [solve_world|done].
Qed.

(** What the handler of the explicit proxy leaves behind: a guarded tunnel and a 200, a
    complete error response, or a part of one response when the stream failed. *)
Definition connect_outcome state s w (r : outcome IoError Handled) s' w' : Prop :=
  match r with
  | Ok (Tunnel addr timeout) => ∃ line rest host port,
      incoming s = as_bytes line ++ rest ∧ str_len line ≤ MAX_REQUEST_LINE ∧
      parse_connect_target line = Some (host, port) ∧ port ∈ ALLOWED_PORTS ∧
      is_valid_hostname host = true ∧
      tunnel_granted state (to_ascii_lowercase host) port w w' addr timeout ∧
      outgoing s' = outgoing s ++ as_bytes RESP_200
  | Ok Closed => ∃ text, text ∈ [RESP_400; RESP_403; RESP_502] ∧
      outgoing s' = outgoing s ++ as_bytes text
  | Ok (OpenTunnel _) => False
  | Err _ => ∃ t text, outgoing s' = outgoing s ++ t ∧ t `prefix_of` as_bytes text ∧
      text ∈ [RESP_400; RESP_403; RESP_502; RESP_200]
  | Panic => False
  end.

Lemma refused_outcome state s w r s' w' text :
  text ∈ [RESP_400; RESP_403; RESP_502] → refused text s r s' → connect_outcome state s w r s' w'.
Proof.
  intros Hin [[-> Ho]|(e & t & -> & Ho & Hp)]; [by exists text|].
  exists t, text. do 2 (split; [done|]). change [_; _; _; _] with
    ([RESP_400; RESP_403; RESP_502] ++ [RESP_200]). apply elem_of_app. by left.
Qed.
End facts.

(** C8. No tunnel without a lease. The explicit proxy never panics, and ends in a tunnel
    only if the first line of the request is at most 8192 bytes long and asks to CONNECT to
    a valid host name on port 443 or 8443, the lower-cased name has a lease that has not
    expired when it is checked, and the tunnel goes to the first address the resolver gave
    for that name and port, which is not in 127/8, 10/8, 172.16/12, 192.168/16, 169.254/16,
    100.64/10, nor the broadcast or the unspecified address, and as an IPv6 address neither
    [::1] nor [::]; the tunnel is limited to an hour and to the whole seconds left of the
    lease, and the client is told 200. In every other case the client gets one complete 400,
    403 or 502 response, or the stream has failed. *)
Theorem connect_tunnel_guarded `{!Env, !StreamIO, !Chrono, !ChronoLaws, !Dns, !Arrival}
    state s w r s' w' :
  handle_connect state s w = (r, s', w') → connect_outcome state s w r s' w'.
Proof.
  intros Hrun. apply (wp_run _ _ _ _ _ _ _ (handle_connect_wp state s w)) in Hrun as [_ Hr].
  assert (Hin : ∀ text, text ∈ [RESP_400; RESP_403; RESP_502] ↔
    text = RESP_400 ∨ text = RESP_403 ∨ text = RESP_502)
    by (intros; rewrite !elem_of_cons, elem_of_nil; tauto).
  destruct Hr as [Hr|[Hr|[(e & -> & Ho)|(line & rest & host & port & Hline & Hlen & Hparse &
    Hport & Hhost & [Hr|[Hr|(addr & t & Hg & Hr)]])]]];
    try (eapply refused_outcome; [|exact Hr]; apply Hin; tauto).
  - exists [], RESP_400. rewrite app_nil_r. split; [done|]. split; [apply prefix_nil|].
    apply list_elem_of_here.
  - destruct Hr as [[-> Ho]|(e & t' & -> & Ho & Hp)].
    + by exists line, rest, host, port.
    + exists t', RESP_200. do 2 (split; [done|]). do 3 apply list_elem_of_further.
      apply list_elem_of_here.
Qed.

(** ** A well-formed request is served *)

(** The request line and the blank line of a client. *)
Definition connect_line (host : string) (port : Z) : string :=
  "CONNECT" +:+ String " " ((host +:+ String ":" (fmt_Z port)) +:+
    String " " ("HTTP/1.1" +:+ CRLF)).

Lemma hostname_byte_token b : hostname_byte b = true → token_byte b = true ∧ is_ascii b = true.
Proof. revert b. intros []; vm_compute; try discriminate; auto. Qed.

Lemma hostname_no_newline b : hostname_byte b = true → b ≠ Byte.x0a.
Proof. intros Hb ->. discriminate Hb. Qed.

Lemma forallb_mono {A} (P Q : A → bool) l :
  (∀ x, P x = true → Q x = true) → forallb P l = true → forallb Q l = true.
Proof. intros HPQ. rewrite !forallb_forall. eauto. Qed.

Lemma line_length_app a rest :
  Byte.x0a ∉ a → line_length (a ++ Byte.x0a :: rest) = S (length a).
Proof.
  induction a as [|x a IH]; simpl; intros Ha; [done|].
  apply not_elem_of_cons in Ha as [Hx Ha]. rewrite decide_False by congruence. by rewrite IH.
Qed.

Section request.
Context (host : string) (port : Z).
Hypothesis (Hhost : is_valid_hostname host = true) (Hport : port ∈ ALLOWED_PORTS).

Lemma port_cases : port = 443 ∨ port = 8443.
Proof. revert Hport. unfold ALLOWED_PORTS. rewrite !elem_of_cons, elem_of_nil. tauto. Qed.

Lemma host_bytes : forallb hostname_byte (as_bytes host) = true.
Proof. revert Hhost. unfold is_valid_hostname. rewrite !andb_true_iff. tauto. Qed.
Lemma host_length : str_len host ≤ 253.
Proof.
  revert Hhost. unfold is_valid_hostname. rewrite !andb_true_iff.
  intros ((((_ & Hl) & _) & _) & _). by apply Z.leb_le.
Qed.
Lemma host_nonempty : host ≠ "".
Proof. intros ->. by vm_compute in Hhost. Qed.

Lemma parse_connect_line : parse_connect_target (connect_line host port) = Some (host, port).
Proof.
  unfold parse_connect_target, connect_line.
  destruct (split_whitespace_two "CONNECT" (host +:+ String ":" (fmt_Z port))
    ("HTTP/1.1" +:+ CRLF)) as [rest ->]; [done| |done| |].
  - pose proof host_nonempty. by destruct host.
  - rewrite as_bytes_app, forallb_app. apply andb_true_intro. split.
    + eapply forallb_mono, host_bytes. intros b Hb. by apply hostname_byte_token.
    + by destruct port_cases as [-> | ->].
  - change (eq_ignore_ascii_case "CONNECT" "CONNECT") with true. cbn [negb].
    pose proof host_nonempty.
    destruct port_cases as [-> | ->]; rewrite rsplit_once_app by done; by destruct host.
Qed.

(** The line is ASCII and holds no newline but its last byte. *)
Lemma connect_line_bytes :
  ∃ a, as_bytes (connect_line host port) = a ++ [Byte.x0a] ∧ Byte.x0a ∉ a ∧
    forallb is_ascii (as_bytes (connect_line host port)) = true ∧
    Z.of_nat (length a) ≤ 300.
Proof.
  exists (as_bytes "CONNECT " ++ as_bytes host ++ as_bytes (":" +:+ fmt_Z port) ++
          as_bytes (" HTTP/1.1" +:+ from_bytes [Byte.x0d])).
  assert (Heq : as_bytes (connect_line host port) =
    (as_bytes "CONNECT " ++ as_bytes host ++ as_bytes (":" +:+ fmt_Z port) ++
     as_bytes (" HTTP/1.1" +:+ from_bytes [Byte.x0d])) ++ [Byte.x0a]).
  { unfold connect_line. rewrite !as_bytes_app.
    change (as_bytes (String " " ?s)) with (Byte.x20 :: as_bytes s).
    rewrite !as_bytes_app. by rewrite <-!app_assoc. }
  split; [done|]. split; [|split].
  - rewrite !elem_of_app. intros [Hin|[Hin|[Hin|Hin]]].
    + revert Hin. by apply (bool_decide_unpack _).
    + apply list_elem_of_In in Hin. pose proof host_bytes as Hb. rewrite forallb_forall in Hb.
      by apply Hb in Hin.
    + revert Hin. destruct port_cases as [-> | ->]; by apply (bool_decide_unpack _).
    + revert Hin. by apply (bool_decide_unpack _).
  - rewrite Heq, !forallb_app, !andb_true_iff. repeat split; try done.
    + eapply forallb_mono, host_bytes. intros b Hb. by apply hostname_byte_token.
    + by destruct port_cases as [-> | ->].
  - rewrite !length_app, (length_as_bytes host). pose proof host_length.
    unfold str_len in *. destruct port_cases as [-> | ->]; simpl; lia.
Qed.
End request.

Lemma read_line_run `{!Env, !StreamIO, !Reliable} line a rest o w :
  as_bytes line = a ++ [Byte.x0a] → Byte.x0a ∉ a → forallb is_ascii (as_bytes line) = true →
  read_line (mkStream (as_bytes line ++ rest) o) w = (Ok line, mkStream rest o, tick_io w).
Proof.
  intros Hl Ha Hascii. unfold read_line, mbind, M_bind, db_call, read. simpl.
  rewrite no_fault. unfold write. simpl.
  assert (line_length (as_bytes line ++ rest) = length (as_bytes line)) as ->.
  { rewrite Hl, <-app_assoc. simpl. rewrite line_length_app by done. rewrite length_app.
    simpl. lia. }
  rewrite drop_app_length, take_app_length, from_utf8_ascii by done. done.
Qed.

(** A proper request gets its tunnel. When no call fails, the lower-cased host has a
    lease that has not expired and the resolver answers with an address that is not
    internal, a CONNECT request for that host on port 443 or 8443 is answered with 200 and
    handed to a tunnel to that address, for the whole seconds left of the lease and at most
    an hour. The tunnel starts with the bytes that follow the request, from which only those
    are missing that had arrived before the tunnel, at most 8192: a client that waits for
    the response loses nothing. *)
Theorem connect_serves `{!Env, !StreamIO, !Chrono, !Dns, !Arrival, !Reliable}
    state host port info addr rest o w :
  is_valid_hostname host = true → port ∈ ALLOWED_PORTS →
  ls_leases state !! to_ascii_lowercase host = Some info →
  clock (w_clock w) < info_expires_at info →
  (∀ k, ∃ addrs,
     to_socket_addrs k (to_ascii_lowercase host +:+ ":" +:+ fmt_Z port) = Some (addr :: addrs)) →
  is_private_ip (sa_ip addr) = false →
  ∃ w' early, (early ≤ BUF_CAPACITY)%nat ∧ (early ≤ arrived (w_io w'))%nat ∧
    handle_connect state
      (mkStream (as_bytes (connect_line host port) ++ as_bytes CRLF ++ rest) o) w =
    (Ok (Tunnel addr (Z.min (Z.max (td_num_seconds
            (info_expires_at info - clock (S (w_clock w)))) 0) MAX_TUNNEL_DURATION)),
     mkStream (drop early rest) (o ++ as_bytes RESP_200), w').
Proof.
  intros Hhost Hport Hinfo Hlive Hdns Hpriv.
  destruct (connect_line_bytes host port Hhost Hport) as (a & Ha & Hnl & Hascii & Hlen).
  unfold handle_connect, mbind, M_bind. rewrite (read_line_run _ a) by done.
  assert (MAX_REQUEST_LINE <? str_len (connect_line host port) = false) as ->.
  { apply Z.ltb_ge. unfold str_len, MAX_REQUEST_LINE. rewrite <-length_as_bytes, Ha, length_app.
    simpl. lia. }
  rewrite parse_connect_line by done.
  change MAX_HEADERS with (S 63). cbn [consume_headers]. unfold mbind, M_bind.
  rewrite (read_line_run CRLF [Byte.x0d]); [|done|by apply (bool_decide_unpack _)|done].
  change (is_blank CRLF) with true. rewrite orb_true_r. cbn [mret M_ret].
  unfold mret, M_ret. cbv iota beta.
  rewrite bool_decide_eq_true_2 by done. rewrite Hhost. cbn [negb].
  unfold connect_tunnel, is_allowed, tunnel_limit, mbind, M_bind. rewrite !Hinfo.
  unfold utc_now, mret, M_ret, info_live. simpl.
  rewrite (proj2 (Z.ltb_lt _ _) Hlive). simpl. unfold resolve_and_validate. simpl.
  destruct (Hdns (S (S (w_io w)))) as [addrs ->]. rewrite Hpriv.
  unfold tcp_connect, mbind, M_bind, db_call, mret, M_ret. simpl. rewrite no_fault. simpl.
  unfold respond, map_err_m, write_all. simpl. rewrite no_fault. unfold into_inner.
  generalize BUF_CAPACITY as cap. intros cap. simpl.
  eexists _, _. split; [|split; [|reflexivity]]; [apply Nat.le_min_l|apply Nat.le_min_r].
Qed.

(** The transparent proxy follows the announced name. It leaves the stream as it is and
    opens a tunnel only to port 443 of the lower-cased server name found in the first bytes
    that arrived, at most 16384 of them, and only if that name has a lease that has not
    expired when it is checked; it panics only if the parser of the hello does. *)
Theorem transparent_tunnel_guarded `{!Env, !Arrival} state s w r s' w' :
  handle_transparent state s w = (r, s', w') →
  s' = s ∧
  match r with
  | Ok (OpenTunnel target) => ∃ n name info i, (n ≤ MAX_CLIENT_HELLO)%nat ∧
      extract_sni (take n (incoming s)) = Ok name ∧
      target = to_ascii_lowercase name +:+ ":443" ∧
      ls_leases state !! to_ascii_lowercase name = Some info ∧
      (w_clock w ≤ i < w_clock w')%nat ∧ clock i < info_expires_at info
  | Ok (Tunnel _ _) => False
  | Panic => ∃ n, (n ≤ MAX_CLIENT_HELLO)%nat ∧ extract_sni (take n (incoming s)) = Panic
  | _ => True
  end.
Proof.
  intros Hrun. revert Hrun. generalize r s' w'. apply wp_run_all.
  unfold handle_transparent. wp_step. unfold peek, wp at 1.
  destruct (io_fault (w_io w)) as [e|]; [done|].
  set (n := Nat.min MAX_CLIENT_HELLO (arrived (w_io w))).
  assert (Hn : (n ≤ MAX_CLIENT_HELLO)%nat) by apply Nat.le_min_l. clearbody n.
  destruct (extract_sni (take n (incoming s))) as [name|e|] eqn:Hsni.
  2: { by wp_step. }
  2: { wp_step. split; [done|]. by exists n. }
  cbv zeta. wp_step. unfold is_allowed, tcp_connect.
  destruct (ls_leases state !! to_ascii_lowercase name) as [info|] eqn:Hinfo; wp_steps;
    try done; (split; [done|]); try done.
  exists n, name, info, (w_clock w). apply negb_false_iff, Z.ltb_lt in Hb.
  repeat split; simpl; try done; lia.
Qed.

(** ** Witnesses *)

(** A resolver that knows one address. *)
Definition demo_addr : SocketAddr := mkSocketAddr (V4 140 82 114 4) 443.
Definition demo_Dns : Dns := λ _ _, Some [demo_addr].
Definition demo_Arrival : Arrival := λ _, Z.to_nat 16384.

Definition demo_request_bytes : bytes :=
  as_bytes (connect_line "GitHub.com" 443) ++ as_bytes CRLF ++ as_bytes "tls".

(** A client that waits for the response. *)
Definition quiet_Arrival : Arrival := λ _, O.

Lemma connect_serves_witness :
  ∃ w', @handle_connect demo_Env demo_StreamIO demo_Chrono demo_Dns quiet_Arrival demo_state
      (mkStream demo_request_bytes []) demo_world =
    (Ok (Tunnel demo_addr 899), mkStream (as_bytes "tls") (as_bytes RESP_200), w').
Proof.
  destruct (@connect_serves demo_Env demo_StreamIO demo_Chrono demo_Dns quiet_Arrival
    (λ _, eq_refl) demo_state "GitHub.com" 443 demo_info demo_addr (as_bytes "tls") [] demo_world)
    as (w' & early & _ & Hearly & Hrun);
    [vm_compute; reflexivity|apply list_elem_of_here|vm_compute; reflexivity|
     vm_compute; reflexivity|intros k; by exists []|vm_compute; reflexivity|].
  exists w'. unfold arrived, quiet_Arrival in Hearly.
  assert (early = O) as -> by lia. exact Hrun.
Defined.

(** A client that does not wait loses the bytes that the reader had read ahead. *)
Theorem connect_drops_early_bytes :
  incoming (@handle_connect demo_Env demo_StreamIO demo_Chrono demo_Dns demo_Arrival demo_state
    (mkStream demo_request_bytes []) demo_world).1.2 = [].
Proof. vm_compute. done. Qed.

Lemma connect_tunnel_guarded_witness :
  ∃ s' w', @handle_connect demo_Env demo_StreamIO demo_Chrono demo_Dns demo_Arrival demo_state
      (mkStream demo_request_bytes []) demo_world = (Ok (Tunnel demo_addr 899), s', w') ∧
    outgoing s' = as_bytes RESP_200 ∧ outside (sa_ip demo_addr).
Proof.
  destruct (@handle_connect demo_Env demo_StreamIO demo_Chrono demo_Dns demo_Arrival demo_state
    (mkStream demo_request_bytes []) demo_world) as [[r s'] w'] eqn:Hrun.
  assert (Hok : r = Ok (Tunnel demo_addr 899)).
  { transitivity (@handle_connect demo_Env demo_StreamIO demo_Chrono demo_Dns demo_Arrival
      demo_state (mkStream demo_request_bytes []) demo_world).1.1; [by rewrite Hrun|].
    vm_compute. reflexivity. }
  subst r. exists s', w'. split; [done|].
  destruct (@connect_tunnel_guarded demo_Env demo_StreamIO demo_Chrono demo_ChronoLaws demo_Dns
    demo_Arrival _ _ _ _ _ _ Hrun)
    as (line & rest & host & port & _ & _ & _ & _ & _ & (i & k & _ & _ & _ & _ & addrs & _ & Hout)
      & Ho).
  split; [exact Ho|exact Hout].
Defined.

Lemma transparent_tunnel_guarded_witness :
  let hello := encode_record [Byte.x03; Byte.x01] (sample_hello sample_extensions) in
  ∃ w', @handle_transparent demo_Env demo_Arrival demo_state (mkStream hello []) demo_world =
      (Ok (OpenTunnel "github.com:443"), mkStream hello [], w') ∧
    ∃ info, ls_leases demo_state !! "github.com" = Some info ∧ 0 < info_expires_at info.
Proof.
  intros hello.
  assert (Hok : (@handle_transparent demo_Env demo_Arrival demo_state (mkStream hello [])
    demo_world).1.1 = Ok (OpenTunnel "github.com:443")) by (vm_compute; reflexivity).
  destruct (@handle_transparent demo_Env demo_Arrival demo_state (mkStream hello []) demo_world)
    as [[r s'] w'] eqn:Hrun. simpl in Hok. subst r. exists w'.
  destruct (@transparent_tunnel_guarded demo_Env demo_Arrival _ _ _ _ _ _ Hrun)
    as (-> & n & name & info & i & _ & _ & Htarget & Hinfo & _ & Hlive).
  split; [done|]. exists info.
  apply (app_inj_tail_string "github.com" _ ":443") in Htarget. rewrite Htarget.
  split; [done|]. revert Hlive. simpl. unfold NANOS. lia.
Defined.

Lemma private_ipv4_spec_witness :
  Exists (λ blk, in_block blk.1 blk.2 (ipv4 169 254 169 254)) internal_blocks.
Proof.
  apply (private_ipv4_spec 169 254 169 254); [..|reflexivity]; unfold octet; lia.
Defined.

(** IPv6 addresses are only refused when they are the loopback or the unspecified address:
    the IPv4 loopback mapped into IPv6 and the unique local addresses pass. *)
Theorem ipv6_internal_not_blocked :
  is_private_ip (V6 0xffff7f000001) = false ∧
  is_private_ip (V6 0xfd000000000000000000000000000001) = false ∧
  is_private_ip (V6 0xfe800000000000000000000000000001) = false.
Proof. done. Qed.
