(* ===== verification/ProxyRun.v ===== *)
(** The agent's proxy as a whole: [zerolease-agent/src/proxy/mod.rs].

    [run] loads the lease state, binds the two listeners and accepts connections; every
    connection is a task that runs one of the handlers of [AgentProxy], and the refresh task
    replaces the lease state meanwhile, under the lock of [SharedLeaseState]. The handlers
    and the refresh are programs of [Threads]; the state is read once per connection, under
    one guard. *)
From stdpp Require Import relations.
From S2P Require Import Prelude Threads Text Concrete Frame Sni LeaseState AgentProxy.

Local Open Scope string_scope.
Local Open Scope Z_scope.
Local Open Scope list_scope.

(** The lock of [SharedLeaseState]. *)
Inductive ProxyLock := LState.
#[global] Instance ProxyLock_eq_dec : EqDecision ProxyLock.
Proof. solve_decision. Defined.

(** The lease state with the files, and the streams of the accepted connections. *)
Record ProxySys := mkProxySys { sys_proxy : Proxy; sys_conns : list Stream }.

Section programs.
Context `{!Env, !StreamIO, !Chrono, !Dns, !Arrival, !Serde LeaseState}.
Abbreviation PM := (M ProxySys IoError).
Abbreviation PP := (Prog ProxySys IoError ProxyLock).

Definition on_proxy {A} (m : M Proxy IoError A) : PM A :=
  zoom sys_proxy (λ p s, mkProxySys p (sys_conns s)) m.
(** The stream of connection [i]. *)
Definition set_conn (i : nat) (st : Stream) (s : ProxySys) : ProxySys :=
  mkProxySys (sys_proxy s) (<[i := st]> (sys_conns s)).
Definition on_conn {A} (i : nat) (m : M Stream IoError A) : PM A :=
  zoom (λ s, default (mkStream [] []) (sys_conns s !! i)) (set_conn i) m.

Definition reply (i : nat) (text : string) : PP (option Handled) :=
  atomic (on_conn i (respond text));; mret (Some Closed).

Fixpoint consume_headers_prog (i n : nat) : PP unit :=
  match n with
  | O => mret tt
  | S n' =>
    header ← atomic (on_conn i read_line);
    if (MAX_REQUEST_LINE <? str_len header) || is_blank header then mret tt
    else consume_headers_prog i n'
  end.

(** What [handle_connect] does under its guard. *)
Definition check_lease (domain : string) : PM (bool * Z) :=
  s ← read;
  allowed ← is_allowed (proxy_state (sys_proxy s)) domain;
  timeout ← tunnel_limit (proxy_state (sys_proxy s)) domain;
  mret (allowed, timeout).

Definition connect_tunnel_prog (i : nat) (domain : string) (port : Z) : PP (option Handled) :=
  checked ← with_lock LState Shared (atomic (check_lease domain));
  if negb checked.1 then reply i RESP_403 else
  resolved ← atomic (resolve_and_validate (domain +:+ ":" +:+ fmt_Z port));
  match resolved with
  | Ok resolved_addr =>
    connected ← atomic tcp_connect;
    if negb connected then reply i RESP_502 else
    atomic (on_conn i (respond RESP_200));;
    atomic (on_conn i into_inner);;
    mret (Some (Tunnel resolved_addr checked.2))
  | _ => reply i RESP_502
  end.

Definition handle_connect_prog (i : nat) : PP (option Handled) :=
  request_line ← atomic (on_conn i read_line);
  if MAX_REQUEST_LINE <? str_len request_line then reply i RESP_400 else
  match parse_connect_target request_line with
  | None => reply i RESP_400
  | Some (host, port) =>
    consume_headers_prog i MAX_HEADERS;;
    if negb (bool_decide (port ∈ ALLOWED_PORTS)) then reply i RESP_403
    else if negb (is_valid_hostname host) then reply i RESP_400
    else connect_tunnel_prog i (to_ascii_lowercase host) port
  end.

Definition handle_transparent_prog (i : nat) : PP (option Handled) :=
  buf ← atomic (on_conn i (peek MAX_CLIENT_HELLO));
  match extract_sni buf with
  | Panic => Ret Panic
  | Err _ => mret (Some Closed)
  | Ok name =>
    let domain := to_ascii_lowercase name in
    allowed ← with_lock LState Shared
      (atomic (s ← read; is_allowed (proxy_state (sys_proxy s)) domain));
    if negb allowed then mret (Some Closed) else
    connected ← atomic tcp_connect;
    if negb connected then mret (Some Closed) else
    mret (Some (OpenTunnel (domain +:+ ":443")))
  end.

(** One iteration of [lease_refresh_loop]; the file is read outside the guard. *)
Definition refresh_prog (path : Path) : PP (option Handled) :=
  r ← atomic (try_ (on_proxy (on_files (read_from path))));
  match r with
  | Ok new_state =>
    if negb (ls_version new_state =? LEASE_STATE_VERSION) then mret None
    else with_lock LState Exclusive
           (atomic (on_proxy (st ← prune_expired new_state; set_state st)));; mret None
  | Err _ =>
    with_lock LState Exclusive
      (atomic (on_proxy (p ← read; st ← prune_expired (proxy_state p); set_state st)));; mret None
  | Panic => Ret Panic
  end.

(** ** [run] *)

Abbreviation ProxyPool := (Pool ProxySys IoError ProxyLock (option Handled)).

Inductive ExitCode := ExitFailure.

(** What happens while the proxy runs: a listener's [accept] returns, the refresh task wakes
    up, a task takes a step, or the provisioner writes the lease file. *)
Inductive ProxyEvent :=
  | Accept (explicit : bool) (r : outcome IoError Stream)
  | Tick
  | Step (i : nat)
  | Provision (st : LeaseState).

Definition spawn_task (p : PP (option Handled)) (s : ProxySys) (c : ProxyPool) : ProxyPool :=
  mkPool s (pool_world c) (pool_threads c ++ [spawn p]).

(** [accept_explicit] and [accept_transparent]: a new connection gets its own task. *)
Definition accepted (explicit : bool) (stream : Stream) (c : ProxyPool) : ProxyPool :=
  let i := length (sys_conns (pool_state c)) in
  spawn_task (if explicit then handle_connect_prog i else handle_transparent_prog i)
    (mkProxySys (sys_proxy (pool_state c)) (sys_conns (pool_state c) ++ [stream])) c.

(** A listener that fails ends [run]: the result is its exit code. [None] when a task that is
    to take a step cannot. *)
Definition proxy_event (path : Path) (ev : ProxyEvent) (c : ProxyPool)
    : option (ProxyPool + ExitCode) :=
  match ev with
  | Accept explicit (Ok stream) => Some (inl (accepted explicit stream c))
  | Accept _ _ => Some (inr ExitFailure)
  | Tick => Some (inl (spawn_task (refresh_prog path) (pool_state c) c))
  | Step i => inl <$> step_at i c
  | Provision st =>
    match on_proxy (on_files (write_atomic st path)) (pool_state c) (pool_world c) with
    | (_, s', w') => Some (inl (mkPool s' w' (pool_threads c)))
    end
  end.
Fixpoint proxy_events (path : Path) (evs : list ProxyEvent) (c : ProxyPool)
    : option (ProxyPool + ExitCode) :=
  match evs with
  | [] => Some (inl c)
  | ev :: evs' =>
    r ← proxy_event path ev c;
    match r with inl c' => proxy_events path evs' c' | inr code => Some (inr code) end
  end.

Record ProxyArgs := mkProxyArgs {
  args_port : Z;
  args_transparent_port : Z;
  args_lease_file : Path;
  args_refresh_interval : Z
}.
Definition ProxyArgs_default : ProxyArgs :=
  mkProxyArgs 8080 8443 ["var"; "run"; "zerolease"; "leases.json"] 5.

(** [TcpListener::bind] *)
Definition bind_listener (port : Z) : M Proxy IoError bool :=
  fault ← db_call; mret (match fault with Some _ => false | None => true end).

(** [run], up to the [select!] over the accept loops: the lease state is loaded, and both
    ports are bound. *)
Definition proxy_start (args : ProxyArgs) : M Proxy IoError (option ExitCode) :=
  initial_load (args_lease_file args);;
  explicit ← bind_listener (args_port args);
  if negb explicit then mret (Some ExitFailure) else
  transparent ← bind_listener (args_transparent_port args);
  if negb transparent then mret (Some ExitFailure) else mret None.

Definition proxy_run (args : ProxyArgs) (evs : list ProxyEvent) (fs : FileSystem) (w : World)
    : option (ProxyPool + ExitCode) :=
  match proxy_start args (mkProxy LeaseState_new fs) w with
  | (Ok None, p, w') =>
      proxy_events (args_lease_file args) evs (mkPool (mkProxySys p []) w' [])
  | (Ok (Some code), _, _) => Some (inr code)
  | _ => None
  end.
End programs.

(** ** Alone, a task is its handler *)

Section alone.
Context `{!Env, !StreamIO, !Chrono, !Dns, !Arrival, !Serde LeaseState}.
Implicit Types (s : ProxySys) (st : Stream) (w : World).

Lemma on_conn_run {A} i (m : M Stream IoError A) s st w r st' w' :
  sys_conns s !! i = Some st → m st w = (r, st', w') →
  on_conn i m s w = (r, set_conn i st' s, w').
Proof. intros Hi Hm. unfold on_conn, zoom. rewrite Hi. simpl. by rewrite Hm. Qed.

Lemma set_conn_id i st s : sys_conns s !! i = Some st → set_conn i st s = s.
Proof. destruct s. simpl. intros Hi. unfold set_conn. simpl. by rewrite list_insert_id. Qed.
Lemma set_conn_lookup i st st' s :
  sys_conns s !! i = Some st → sys_conns (set_conn i st' s) !! i = Some st'.
Proof. intros Hi%lookup_lt_Some. simpl. by apply list_lookup_insert_eq. Qed.

(** [m] is what [p] does to connection [i] when nothing else runs. *)
Definition plays {B} (i : nat) (p : Prog ProxySys IoError ProxyLock B)
    (m : LeaseState → M Stream IoError B) : Prop :=
  ∀ s st w, sys_conns s !! i = Some st →
    run_prog p s w = match m (proxy_state (sys_proxy s)) st w with
                     | (r, st', w') => (r, set_conn i st' s, w')
                     end.

Lemma plays_ret {B} i (r : outcome IoError B) : plays i (Ret r) (λ _ st w, (r, st, w)).
Proof. intros s st w Hi. simpl. by rewrite set_conn_id. Qed.
Lemma plays_conn {B} i (m : M Stream IoError B) : plays i (atomic (on_conn i m)) (λ _, m).
Proof.
  intros s st w Hi. rewrite (run_prog_atomic _ s w). destruct (m st w) as [[r st'] w'] eqn:Hm.
  by apply (on_conn_run i m s st).
Qed.
Lemma plays_bind {B C} i (p : Prog ProxySys IoError ProxyLock B) (k : B → Prog _ _ _ C) m k' :
  plays i p m → (∀ b, plays i (k b) (k' b)) →
  plays i (p ≫= k) (λ state, m state ≫= λ b, k' b state).
Proof.
  intros Hp Hk s st w Hi. rewrite (run_prog_bind _ _ s w). unfold mbind, M_bind.
  rewrite (Hp s st w Hi). destruct (m (proxy_state (sys_proxy s)) st w) as [[[b|e|] st1] w1];
    [|done..].
  rewrite (Hk b _ st1) by (by eapply set_conn_lookup). cbn [set_conn sys_proxy].
  destruct (k' b _ st1 w1) as [[r st2] w2]. unfold set_conn. simpl. by rewrite list_insert_insert_eq.
Qed.
Lemma plays_lock {B} i md (p : Prog ProxySys IoError ProxyLock B) m :
  plays i p m → plays i (with_lock LState md p) m.
Proof. intros Hp s st w Hi. rewrite (run_prog_lock _ _ _ s w). by apply Hp. Qed.
Lemma plays_check {B} i (a : M ProxySys IoError B) m :
  (∀ s st w, ∃ r w', a s w = (r, s, w') ∧ m (proxy_state (sys_proxy s)) st w = (r, st, w')) →
  plays i (atomic a) m.
Proof.
  intros Ha s st w Hi. rewrite (run_prog_atomic _ s w). destruct (Ha s st w) as (r & w' & -> & ->).
  by rewrite set_conn_id.
Qed.
Lemma plays_reply i text :
  plays i (reply i text) (λ _, respond text;; mret (Some Closed)).
Proof. apply plays_bind; [apply plays_conn|]. intros _. apply plays_ret. Qed.
Lemma plays_headers i n : plays i (consume_headers_prog i n) (λ _, consume_headers n).
Proof.
  induction n as [|n IH]; [apply plays_ret|]. cbn [consume_headers_prog consume_headers].
  apply plays_bind; [apply plays_conn|]. intros header. destruct (_ || _); [apply plays_ret|exact IH].
Qed.

(** The result of a handler, as the result of its task. *)
Definition tasked (m : LeaseState → M Stream IoError Handled) (state : LeaseState)
    : M Stream IoError (option Handled) := h ← m state; mret (Some h).

Lemma plays_tasked_check i domain :
  plays i (with_lock LState Shared (atomic (check_lease domain))) (λ state,
    allowed ← is_allowed state domain;
    timeout ← tunnel_limit state domain;
    mret (allowed, timeout)).
Proof.
  apply plays_lock, plays_check. intros s st w. unfold check_lease, is_allowed, tunnel_limit.
  unfold mbind, M_bind, read, utc_now, mret, M_ret. simpl.
  destruct (ls_leases (proxy_state (sys_proxy s)) !! domain); eauto.
Qed.

Lemma plays_proper {B} i (p : Prog ProxySys IoError ProxyLock B) m m' :
  plays i p m → (∀ state, m state ≈ m' state) → plays i p m'.
Proof. intros Hp Hm s st w Hi. by rewrite (Hp s st w Hi), (Hm _ st w). Qed.

Lemma plays_if {B} i (c : bool) (p q : Prog ProxySys IoError ProxyLock B) m m' :
  plays i p m → plays i q m' →
  plays i (if c then p else q) (λ state, if c then m state else m' state).
Proof. by destruct c. Qed.
Lemma plays_outcome {B C F} i (r : outcome F C) f g h f' g' h' :
  (∀ a, plays (B := B) i (f a) (f' a)) → (∀ e, plays i (g e) (g' e)) → plays i h h' →
  plays i (match r with Ok a => f a | Err e => g e | Panic => h end)
    (λ state, match r with Ok a => f' a state | Err e => g' e state | Panic => h' state end).
Proof. by destruct r. Qed.
Lemma plays_resolve i target :
  plays i (atomic (resolve_and_validate target)) (λ _, resolve_and_validate target).
Proof. apply plays_check. intros s st w. eexists _, _. split; reflexivity. Qed.
Lemma plays_tcp_connect i : plays i (atomic tcp_connect) (λ _, tcp_connect).
Proof. apply plays_check. intros s st w. eexists _, _. split; reflexivity. Qed.

Ltac playing :=
  repeat first
    [ apply plays_reply | apply plays_headers | apply plays_tasked_check | apply plays_resolve
    | apply plays_tcp_connect | apply plays_conn | apply plays_ret
    | apply plays_if | apply plays_outcome; [intros ?..|] | apply plays_bind; [|intros ?] ].

Lemma connect_tunnel_alone i domain port :
  plays i (connect_tunnel_prog i domain port)
    (tasked (λ state, connect_tunnel state domain port)).
Proof.
  eapply plays_proper.
  - unfold connect_tunnel_prog. playing.
  - intros state st w. unfold tasked, connect_tunnel. same_run.
Qed.

(** Each task, while nothing else runs, does to its connection what its handler does with
    the lease state of the moment. *)
Theorem handle_connect_alone i :
  plays i (handle_connect_prog i) (tasked handle_connect).
Proof.
  eapply plays_proper.
  - unfold handle_connect_prog. apply plays_bind; [apply plays_conn|]. intros line.
    apply plays_if; [apply plays_reply|].
    instantiate (1 := λ state, match parse_connect_target line with
      | None => respond RESP_400;; mret (Some Closed)
      | Some (host, port) => consume_headers MAX_HEADERS;;
          if negb (bool_decide (port ∈ ALLOWED_PORTS)) then respond RESP_403;; mret (Some Closed)
          else if negb (is_valid_hostname host) then respond RESP_400;; mret (Some Closed)
          else tasked (λ state, connect_tunnel state (to_ascii_lowercase host) port) state
      end).
    destruct (parse_connect_target line) as [[host port]|]; [|apply plays_reply].
    apply plays_bind; [apply plays_headers|]. intros _.
    apply plays_if; [apply plays_reply|]. apply plays_if; [apply plays_reply|].
    apply connect_tunnel_alone.
  - intros state st w. unfold tasked, handle_connect. same_run.
Qed.
Theorem handle_transparent_alone i :
  plays i (handle_transparent_prog i) (tasked handle_transparent).
Proof.
  eapply plays_proper.
  - unfold handle_transparent_prog. apply plays_bind; [apply plays_conn|]. intros buf.
    apply plays_outcome; [intros name|intros e; apply plays_ret|apply plays_ret].
    apply plays_bind; [apply plays_lock, plays_check|intros allowed; playing].
    instantiate (1 := λ state, is_allowed state (to_ascii_lowercase name)).
    intros s st w. unfold is_allowed, mbind, M_bind, read, utc_now, mret, M_ret. simpl.
    destruct (ls_leases (proxy_state (sys_proxy s)) !! to_ascii_lowercase name); eauto.
  - intros state st w. unfold tasked, handle_transparent. same_run.
Qed.
End alone.

(** ** What the tasks may do *)

(** How far a task has got: it has read the file, or found the lease of its domain. *)
Inductive TaskPhase :=
  | TaskIdle
  | FileRead (st : LeaseState)
  | LeaseSeen (domain : string) (info : LeaseInfo) (j : nat).

Section protocol.
Context `{!Env, !StreamIO, !Chrono, !ChronoLaws, !Dns, !Arrival}.
Context `{!Serde LeaseState, !SerdeLaws LeaseState, !SerdeUtf8 LeaseState}.
Context (path : Path).
Abbreviation PM := (M ProxySys IoError).
Abbreviation PP := (Prog ProxySys IoError ProxyLock).
Implicit Types (s : ProxySys) (w : World) (x : TaskPhase) (p : Proxy).

(** A step of a task that holds the locks [h]. The lease state is replaced under the
    exclusive guard, and a lease is found under the shared one, at the reading of the clock
    that the step makes. *)
Inductive task_move (h : list (ProxyLock * Mode))
    : TaskPhase → Proxy → World → TaskPhase → Proxy → World → Prop :=
  | tm_quiet x p w w' : world_le w w' → task_move h x p w x p w'
  | tm_read p w w' json st :
      world_le w w' → fs_files (proxy_files p) !! path = Some json → from_json json = Ok st →
      task_move h TaskIdle p w (FileRead st) p w'
  | tm_install p w w' st i :
      world_le w w' → ls_version st = LEASE_STATE_VERSION → (LState, Exclusive) ∈ h →
      task_move h (FileRead st) p w TaskIdle (mkProxy (pruned (clock i) st) (proxy_files p)) w'
  | tm_prune x p w w' i :
      world_le w w' → (LState, Exclusive) ∈ h →
      task_move h x p w x (mkProxy (pruned (clock i) (proxy_state p)) (proxy_files p)) w'
  | tm_seen p w w' domain info :
      world_le w w' → (LState, Shared) ∈ h →
      ls_leases (proxy_state p) !! domain = Some info →
      clock (w_clock w) < info_expires_at info →
      task_move h TaskIdle p w (LeaseSeen domain info (w_clock w)) p w'.

(** From phase [x] on, holding [h], the program moves in this way whatever the others do;
    it returns without a lock, and its result fits its phase. *)
Fixpoint pfollows {B} (h : list (ProxyLock * Mode)) (x : TaskPhase) (p : PP B)
    (Q : TaskPhase → outcome IoError B → Prop) : Prop :=
  match p with
  | Ret r => h = [] ∧ Q x r
  | Acquire l m k => pfollows ((l, m) :: h) x k Q
  | Release l k => pfollows (drop_lock l h) x k Q
  | Act a k => ∀ s w, wp a s w (λ r s' w', ∃ x',
      task_move h x (sys_proxy s) w x' (sys_proxy s') w' ∧ pfollows h x' (k r) Q)
  end.

Lemma pfollows_seq {B C} h x (p : PP B) (k : outcome IoError B → PP C) P Q :
  pfollows h x p P → (∀ x' r, P x' r → pfollows [] x' (k r) Q) → pfollows h x (pseq p k) Q.
Proof.
  intros Hp Hk. revert h x Hp.
  induction p as [r|l m p IH|l p IH|D a f IH]; simpl; intros h x; [|by apply IH..|].
  - intros [-> Hr]. by apply Hk.
  - intros Hp s w. eapply wp_mono; [apply Hp|]. naive_solver.
Qed.
Lemma pfollows_bind {B C} h x (p : PP B) (k : B → PP C) P Q :
  pfollows h x p P → (∀ x' b, P x' (Ok b) → pfollows [] x' (k b) Q) →
  (∀ x' e, P x' (Err e) → Q x' (Err e)) → (∀ x', P x' Panic → Q x' Panic) →
  pfollows h x (p ≫= k) Q.
Proof.
  intros Hp Hk He Hpa. eapply pfollows_seq; [exact Hp|]. intros x' [b|e|]; simpl; auto.
Qed.
Lemma pfollows_atomic {B} x (a : PM B) (Q : TaskPhase → outcome IoError B → Prop) :
  (∀ s w, wp a s w (λ r s' w', ∃ x',
     task_move [] x (sys_proxy s) w x' (sys_proxy s') w' ∧ Q x' r)) →
  pfollows [] x (atomic a) Q.
Proof. intros Ha s w. eapply wp_mono; [apply Ha|]. intros r s' w' (x' & Hm & HQ). exists x'. by split. Qed.
Lemma pfollows_guarded {B} x m (a : PM B) (Q : TaskPhase → outcome IoError B → Prop) :
  (∀ s w, wp a s w (λ r s' w', ∃ x',
     task_move [(LState, m)] x (sys_proxy s) w x' (sys_proxy s') w' ∧ Q x' r)) →
  pfollows [] x (with_lock LState m (atomic a)) Q.
Proof.
  intros Ha s w. eapply wp_mono; [apply Ha|]. intros r s' w' (x' & Hm & HQ). exists x'.
  by split.
Qed.

(** A tunnel that was opened: to an address that is not internal and that the resolver gave
    for the name and the port, for at most what was left of the lease; or to the name
    itself. *)
Definition opened (domain : string) (info : LeaseInfo) (j : nat) (h : Handled) : Prop :=
  match h with
  | Closed => True
  | Tunnel addr timeout => ∃ port k, port ∈ ALLOWED_PORTS ∧
      validated_addr (domain +:+ ":" +:+ fmt_Z port) k addr ∧
      0 ≤ timeout ≤ MAX_TUNNEL_DURATION ∧
      timeout * NANOS ≤ Z.max 0 (info_expires_at info - clock (S j))
  | OpenTunnel target => target = domain +:+ ":443"
  end.
Definition task_post x (r : outcome IoError (option Handled)) : Prop :=
  match r with
  | Ok (Some (Tunnel _ _ as h)) | Ok (Some (OpenTunnel _ as h)) =>
      ∃ domain info j, x = LeaseSeen domain info j ∧ opened domain info j h
  | _ => True
  end.

(** An action on a stream, or one that only lets time pass. *)
Lemma pfollows_conn {B} x i (m : M Stream IoError B) (Q : TaskPhase → outcome IoError B → Prop) :
  forward m → (∀ r, Q x r) → pfollows [] x (atomic (on_conn i m) : PP B) Q.
Proof.
  intros Hm HQ. apply pfollows_atomic. intros s w. unfold on_conn. wp_step.
  eapply wp_mono; [apply Hm|]. intros r st' w' Hw. exists x. split; [by apply tm_quiet|done].
Qed.
Lemma pfollows_still {B} x (a : PM B) (Q : TaskPhase → outcome IoError B → Prop) :
  (∀ s w, wp a s w (λ r s' w', s' = s ∧ world_le w w' ∧ Q x r)) → pfollows [] x (atomic a : PP B) Q.
Proof.
  intros Ha. apply pfollows_atomic. intros s w. eapply wp_mono; [apply Ha|].
  intros r s' w' (-> & Hw & HQ). exists x. split; [by apply tm_quiet|done].
Qed.

Lemma read_line_forward : forward read_line.
Proof. intros st w. eapply wp_mono; [apply read_line_wp|]. naive_solver. Qed.
Lemma respond_forward text : forward (respond text).
Proof. intros st w. eapply wp_mono; [apply respond_wp|]. naive_solver. Qed.

Lemma reply_follows x i text : pfollows [] x (reply i text) task_post.
Proof.
  unfold reply. eapply (pfollows_bind _ _ _ _ (λ _ _, True)); [|done..].
  apply pfollows_conn; [apply respond_forward|done].
Qed.
Lemma headers_follow x i n : pfollows [] x (consume_headers_prog i n) (λ x' _, x' = x).
Proof.
  induction n as [|n IH]; [done|]. cbn [consume_headers_prog].
  eapply (pfollows_bind _ _ _ _ (λ x' _, x' = x)); [|intros x' header ->|done..].
  - apply pfollows_conn; [apply read_line_forward|done].
  - destruct (_ || _); [done|exact IH].
Qed.

Lemma check_lease_follows domain :
  pfollows [] TaskIdle (with_lock LState Shared (atomic (check_lease domain))) (λ x r,
    ∀ allowed timeout, r = Ok (allowed, timeout) → allowed = true →
      ∃ info j, x = LeaseSeen domain info j ∧ 0 ≤ timeout ≤ MAX_TUNNEL_DURATION ∧
        timeout * NANOS ≤ Z.max 0 (info_expires_at info - clock (S j))).
Proof.
  apply pfollows_guarded. intros s w.
  unfold check_lease, is_allowed, tunnel_limit. do 3 wp_step.
  destruct (ls_leases (proxy_state (sys_proxy s)) !! domain) as [info|] eqn:Hd.
  2: { wp_steps. exists TaskIdle. split; [apply tm_quiet; solve_world|]. by intros a t [= <- _]. }
  do 7 wp_step. unfold info_live.
  destruct (clock (w_clock w) <? info_expires_at info) eqn:Hlive.
  - exists (LeaseSeen domain info (w_clock w)). apply Z.ltb_lt in Hlive. split.
    + apply tm_seen; [solve_world|by left|done|done].
    + intros allowed timeout [= _ <-] _. exists info, (w_clock w). split; [done|].
      apply limit_bounds.
  - exists TaskIdle. split; [apply tm_quiet; solve_world|]. by intros a t [= <- _].
Qed.

Lemma into_inner_forward : forward into_inner.
Proof. intros st w. wp_det_step. reflexivity. Qed.
Lemma peek_forward n : forward (peek n).
Proof. intros st w. unfold peek, wp. destruct (io_fault (w_io w)); solve_world. Qed.
Lemma tcp_connect_still s w : wp (tcp_connect (E := IoError)) s w (λ _ s' w', s' = s ∧ world_le w w').
Proof. unfold tcp_connect. wp_steps; (split; [done|solve_world]). Qed.

Lemma connect_tunnel_follows i domain port :
  port ∈ ALLOWED_PORTS → pfollows [] TaskIdle (connect_tunnel_prog i domain port) task_post.
Proof.
  intros Hport. unfold connect_tunnel_prog.
  eapply pfollows_bind; [apply check_lease_follows|..]; [|done..].
  intros x [allowed timeout] Hx. cbn [fst snd]. destruct allowed; [|apply reply_follows].
  destruct (Hx true timeout eq_refl eq_refl) as (info & j & -> & Ht). clear Hx. cbn [negb].
  set (x := LeaseSeen domain info j).
  eapply (pfollows_bind _ _ _ _ (λ x' r, x' = x ∧ ∀ addr, r = Ok (Ok addr) →
    ∃ k, validated_addr (domain +:+ ":" +:+ fmt_Z port) k addr)); [| |done..].
  { apply pfollows_still. intros s w. eapply wp_det; [reflexivity|]. split; [done|].
    split; [solve_world|]. split; [done|]. intros addr [= Hr]. exists (w_io w). unfold validated_addr.
    destruct (to_socket_addrs _ _) as [[|a addrs]|]; [done| |done].
    destruct (is_private_ip (sa_ip a)) eqn:Hp; simplify_eq. eauto using not_private_outside. }
  intros x' [addr|e|] [-> Hk]; [|apply reply_follows..].
  destruct (Hk addr eq_refl) as [k Haddr].
  eapply (pfollows_bind _ _ _ _ (λ x' _, x' = x)); [| |done..].
  { apply pfollows_still. intros s w. eapply wp_mono; [apply tcp_connect_still|]. naive_solver. }
  intros x' connected ->. destruct connected; [|apply reply_follows]. cbn [negb].
  eapply (pfollows_bind _ _ _ _ (λ x' _, x' = x)); [| |done..].
  { apply pfollows_conn; [apply respond_forward|done]. }
  intros x' _ ->. eapply (pfollows_bind _ _ _ _ (λ x' _, x' = x)); [| |done..].
  { apply pfollows_conn; [apply into_inner_forward|done]. }
  intros x' _ ->. split; [done|]. exists domain, info, j. split; [done|]. exists port, k. done.
Qed.

Lemma handle_connect_follows i : pfollows [] TaskIdle (handle_connect_prog i) task_post.
Proof.
  unfold handle_connect_prog.
  eapply (pfollows_bind _ _ _ _ (λ x' _, x' = TaskIdle)); [| |done..].
  { apply pfollows_conn; [apply read_line_forward|done]. }
  intros x line ->. destruct (_ <? _); [apply reply_follows|].
  destruct (parse_connect_target line) as [[host port]|]; [|apply reply_follows].
  eapply pfollows_bind; [apply headers_follow|..]; [|done..]. intros x _ ->. cbn beta.
  destruct (bool_decide (port ∈ ALLOWED_PORTS)) eqn:Hp; [|apply reply_follows]. cbn [negb].
  destruct (is_valid_hostname host); [|apply reply_follows].
  apply connect_tunnel_follows. by apply bool_decide_eq_true in Hp.
Qed.

Lemma handle_transparent_follows i : pfollows [] TaskIdle (handle_transparent_prog i) task_post.
Proof.
  unfold handle_transparent_prog.
  eapply (pfollows_bind _ _ _ _ (λ x' _, x' = TaskIdle)); [| |done..].
  { apply pfollows_conn; [apply peek_forward|done]. }
  intros x buf ->. destruct (extract_sni buf) as [name|e|]; [|done..]. cbv zeta.
  set (domain := to_ascii_lowercase name).
  eapply (pfollows_bind _ _ _ _ (λ x r,
    r = Ok true → ∃ info j, x = LeaseSeen domain info j)); [| |done..].
  { apply pfollows_guarded. intros s w. unfold is_allowed. wp_step. wp_step.
    destruct (ls_leases (proxy_state (sys_proxy s)) !! domain) as [info|] eqn:Hd.
    2: { wp_steps. exists TaskIdle. split; [apply tm_quiet; solve_world|done]. }
    wp_steps. unfold info_live.
    destruct (clock (w_clock w) <? info_expires_at info) eqn:Hlive.
    - exists (LeaseSeen domain info (w_clock w)). apply Z.ltb_lt in Hlive. split; [|eauto].
      apply tm_seen; [solve_world|by left|done|done].
    - exists TaskIdle. split; [apply tm_quiet; solve_world|done]. }
  intros x [|] Hx; [|done]. destruct (Hx eq_refl) as (info & j & ->). cbn [negb].
  eapply (pfollows_bind _ _ _ _ (λ x' _, x' = LeaseSeen domain info j)); [| |done..].
  { apply pfollows_still. intros s w. eapply wp_mono; [apply tcp_connect_still|]. naive_solver. }
  intros x' connected ->. destruct connected; [|done]. split; [done|]. by exists domain, info, j.
Qed.

Lemma refresh_follows : pfollows [] TaskIdle (refresh_prog path) task_post.
Proof.
  unfold refresh_prog.
  eapply (pfollows_bind _ _ _ _ (λ x r, match r with
    | Ok (Ok st) => x = FileRead st | _ => x = TaskIdle end)); [| |done..].
  { apply pfollows_atomic. intros s w. unfold on_proxy, on_files. do 3 wp_step.
    wp_call read_from_wp. intros r fs w' (Hw & -> & Hnp & Hok & _).
    assert (Hp : mkProxy (proxy_state (sys_proxy s)) (proxy_files (sys_proxy s)) = sys_proxy s)
      by (by destruct (sys_proxy s)).
    destruct r as [st|e|]; [| |done]; simpl; rewrite Hp.
    - destruct (Hok st eq_refl) as (json & Hj & Hst). exists (FileRead st). split; [|done].
      by eapply tm_read.
    - exists TaskIdle. split; [by apply tm_quiet|done]. }
  intros x [st|e|] Hx; subst x; [| |done].
  - destruct (ls_version st =? LEASE_STATE_VERSION) eqn:Hv; [|done]. apply Z.eqb_eq in Hv.
    cbn [negb]. eapply (pfollows_bind _ _ _ _ (λ _ _, True)); [|done..]. apply pfollows_guarded.
    intros s w. unfold on_proxy, set_state, prune_expired. wp_steps. simpl. eexists. split; [|done]. apply tm_install; [solve_world|done|by left].
  - eapply (pfollows_bind _ _ _ _ (λ _ _, True)); [|done..]. apply pfollows_guarded.
    intros s w. unfold on_proxy, set_state, prune_expired. wp_steps. simpl. eexists.
    split; [|done]. apply tm_prune; [solve_world|by left].
Qed.
End protocol.

(** ** Every run of the proxy *)

Section runs.
Context `{!Env, !StreamIO, !Chrono, !ChronoLaws, !Dns, !Arrival}.
Context `{!Serde LeaseState, !SerdeLaws LeaseState, !SerdeUtf8 LeaseState}.
Context (path : Path) (fs : FileSystem).
Abbreviation ProxyPool := (Pool ProxySys IoError ProxyLock (option Handled)).
Implicit Types (c : ProxyPool) (evs : list ProxyEvent) (xs : list TaskPhase).

(** The lease state that [run] finds in the file. *)
Definition at_start (st : LeaseState) : Prop :=
  ∃ json, fs_files fs !! path = Some json ∧ from_json json = Ok st.
(** Where a lease of the proxy comes from: from a state of the known version that the
    provisioner has written, or from the file that was there at the start, which the initial
    load takes in any version. *)
Definition lease_origin evs (d : string) (info : LeaseInfo) : Prop :=
  ∃ st, ls_leases st !! d = Some info ∧
    ((Provision st ∈ evs ∧ ls_version st = LEASE_STATE_VERSION) ∨ at_start st).

(** The next step of task [i] finds the lease of [d], and the task has its guard: the task is
    at the check of [handle_connect] or of [handle_transparent]. *)
Definition finds_lease (i : nat) c (d : string) (info : LeaseInfo) : Prop :=
  (∃ t, pool_threads c !! i = Some t ∧ (LState, Shared) ∈ held t) ∧
  ls_leases (proxy_state (sys_proxy (pool_state c))) !! d = Some info ∧
  clock (w_clock (pool_world c)) < info_expires_at info.

Definition phase_known c0 evs (i : nat) (x : TaskPhase) : Prop :=
  match x with
  | TaskIdle => True
  | FileRead st => Provision st ∈ evs ∨ at_start st
  | LeaseSeen d info j => ∃ evs1 evs2 c1,
      evs = evs1 ++ Step i :: evs2 ∧ proxy_events path evs1 c0 = Some (inl c1) ∧
      finds_lease i c1 d info ∧ j = w_clock (pool_world c1) ∧ lease_origin evs1 d info
  end.
Definition files_known evs (p : Proxy) : Prop :=
  (∀ json, fs_files (proxy_files p) !! path = Some json →
     (∃ st, Provision st ∈ evs ∧ to_json st = Ok json) ∨ fs_files fs !! path = Some json) ∧
  ∀ d info, ls_leases (proxy_state p) !! d = Some info → lease_origin evs d info.
Definition run_inv c0 evs xs c : Prop :=
  Forall2 (λ x t, pfollows path (held t) x (prog t) task_post) xs (pool_threads c) ∧
  files_known evs (sys_proxy (pool_state c)) ∧
  ∀ i x, xs !! i = Some x → phase_known c0 evs i x.

Lemma lease_origin_app evs evs' d info : lease_origin evs d info → lease_origin (evs ++ evs') d info.
Proof.
  intros (st & Hd & [[Hin Hv]|Hs]); exists st; (split; [done|]); [left|by right].
  split; [|done]. apply elem_of_app. by left.
Qed.
Lemma phase_known_app c0 evs evs' i x : phase_known c0 evs i x → phase_known c0 (evs ++ evs') i x.
Proof.
  destruct x as [|st|d info j]; simpl; [done| |].
  - intros [Hin|Hs]; [left|by right]. apply elem_of_app. by left.
  - intros (evs1 & evs2 & c1 & -> & Hrest). exists evs1, (evs2 ++ evs'), c1.
    by rewrite <-app_assoc.
Qed.
Lemma files_known_app evs evs' p : files_known evs p → files_known (evs ++ evs') p.
Proof.
  intros [Hf Hl]. split; [|intros d info Hd; by apply lease_origin_app, Hl].
  intros json Hj. destruct (Hf json Hj) as [(st & Hin & Hst)|Hs]; [left|by right].
  exists st. split; [|done]. apply elem_of_app. by left.
Qed.

(** A step of task [i] keeps what is known, and a lease it finds is there. *)
Lemma task_move_known c0 evs i t x c x' p' w' :
  proxy_events path evs c0 = Some (inl c) → pool_threads c !! i = Some t →
  task_move path (held t) x (sys_proxy (pool_state c)) (pool_world c) x' p' w' →
  files_known evs (sys_proxy (pool_state c)) → phase_known c0 evs i x →
  files_known evs p' ∧ phase_known c0 (evs ++ [Step i]) i x'.
Proof.
  intros Hrun Ht Hm [Hf Hl] Hx.
  inversion Hm as [? ? ? ? _|? ? ? json st _ Hj Hst|? ? ? st j _ Hv _|? ? ? ? j _ _
    |? ? ? d info _ Hg Hd Hlive]; subst.
  - split; [done|by apply phase_known_app].
  - split; [done|]. simpl. destruct (Hf json Hj) as [(st' & Hin & Hst'%json_roundtrip)|Hs].
    + left. assert (st' = st) as -> by congruence. apply elem_of_app. by left.
    + right. by exists json.
  - split; [|done]. split; [done|]. intros d info Hd%pruned_lookup. exists st. split; [done|].
    destruct Hx as [Hin|Hs]; [by left|by right].
  - split; [|by apply phase_known_app]. split; [done|]. intros d info Hd%pruned_lookup. by apply Hl.
  - split; [done|]. exists evs, [], c. split; [done|]. split; [done|].
    split; [|split; [done|by apply Hl]]. split; [by exists t|done].
Qed.

Lemma step_known c0 evs i xs c c' :
  proxy_events path evs c0 = Some (inl c) → step_at i c = Some c' → run_inv c0 evs xs c →
  ∃ xs', run_inv c0 (evs ++ [Step i]) xs' c'.
Proof.
  intros Hrun Hs (Hall & Hfiles & Hxs).
  apply step_at_Some in Hs as (t & t' & s' & w' & Ht & Hs & ->).
  destruct (Forall2_lookup_r _ _ _ _ _ Hall Ht) as (x & Hx & Hf).
  assert (Hone : ∀ x', pfollows path (held t') x' (prog t') task_post →
    files_known evs (sys_proxy s') → phase_known c0 (evs ++ [Step i]) i x' →
    run_inv c0 (evs ++ [Step i]) (<[i := x']> xs) (mkPool s' w' (<[i := t']> (pool_threads c)))).
  { intros x' Hf' Hk Hx'. split; [by apply Forall2_insert|]. split; [by apply files_known_app|].
    intros j y [(<- & <- & _)|(_ & Hy)]%list_lookup_insert_Some; [done|].
    by apply phase_known_app, Hxs. }
  unfold thread_step in Hs. destruct (prog t) as [r|l m k|l k|C a k]; simpl in *.
  - done.
  - case_decide; simplify_eq/=. exists (<[i := x]> xs). apply Hone; [done..|].
    by apply phase_known_app, Hxs.
  - simplify_eq/=. exists (<[i := x]> xs). apply Hone; [done..|]. by apply phase_known_app, Hxs.
  - specialize (Hf (pool_state c) (pool_world c)). unfold wp in Hf.
    destruct (a (pool_state c) (pool_world c)) as [[r s1] w1]. simplify_eq/=.
    destruct Hf as (x' & Hm & Hf'). exists (<[i := x']> xs).
    destruct (task_move_known c0 evs i t x c _ _ _ Hrun Ht Hm Hfiles (Hxs i x Hx)). by apply Hone.
Qed.

Lemma spawn_known c0 evs ev xs c p s :
  run_inv c0 evs xs c → pfollows path [] TaskIdle p task_post → sys_proxy s = sys_proxy (pool_state c) →
  ∃ xs', run_inv c0 (evs ++ [ev]) xs' (spawn_task p s c).
Proof.
  intros (Hall & Hfiles & Hxs) Hp Hs. exists (xs ++ [TaskIdle]).
  split; [apply Forall2_app; by repeat constructor|]. split.
  - cbn [spawn_task pool_state]. rewrite Hs. by apply files_known_app.
  - intros i x [Hi|[_ Hi]]%lookup_app_Some; [by apply phase_known_app, Hxs|].
    by apply list_lookup_singleton_Some in Hi as [_ <-].
Qed.

Lemma write_known c0 evs xs c st r p' w' :
  with_extension path "tmp" ≠ path → run_inv c0 evs xs c →
  on_files (E := IoError) (write_atomic st path) (sys_proxy (pool_state c)) (pool_world c) =
    (r, p', w') →
  files_known (evs ++ [Provision st]) p'.
Proof.
  intros Hpath (_ & Hfiles & _) Hrun. apply (files_known_app _ [Provision st]) in Hfiles as [Hf Hl].
  unfold on_files, zoom in Hrun.
  destruct (write_atomic st path (proxy_files (sys_proxy (pool_state c))) (pool_world c))
    as [[r1 fs1] w1] eqn:Hw. simplify_eq/=.
  destruct (wp_run _ _ _ _ _ _ _ (write_atomic_wp st path _ _ Hpath) Hw) as (_ & _ & _ & _ & Hr).
  split; [|done]. simpl. intros json Hj. destruct r as [[]|e|]; [|rewrite Hr in Hj; by apply Hf..].
  destruct Hr as (json' & Hst & Hj'). left. exists st. split; [|congruence].
  apply elem_of_app. right. apply list_elem_of_here.
Qed.

Lemma event_known c0 evs ev xs c c' :
  with_extension path "tmp" ≠ path → proxy_events path evs c0 = Some (inl c) →
  proxy_event path ev c = Some (inl c') → run_inv c0 evs xs c →
  ∃ xs', run_inv c0 (evs ++ [ev]) xs' c'.
Proof.
  intros Hpath Hrun Hev Hinv.
  destruct ev as [explicit [stream|e|]| |i|st]; simpl in Hev; simplify_eq.
  - apply (spawn_known _ _ _ xs); [done| |done].
    destruct explicit; [apply handle_connect_follows|apply handle_transparent_follows].
  - apply (spawn_known _ _ _ xs); [done|apply refresh_follows|done].
  - destruct (step_at i c) as [c1|] eqn:Hs; simplify_eq/=. by eapply step_known.
  - unfold on_proxy, zoom in Hev.
    destruct (on_files (write_atomic st path) (sys_proxy (pool_state c)) (pool_world c))
      as [[r p'] w'] eqn:Hw. simplify_eq/=. exists xs.
    pose proof (write_known _ _ _ _ _ _ _ _ Hpath Hinv Hw) as Hk. destruct Hinv as (Hall & _ & Hxs).
    split; [done|]. split; [done|]. intros i x Hi. by apply phase_known_app, Hxs.
Qed.

Lemma proxy_events_snoc evs ev c0 c :
  proxy_events path (evs ++ [ev]) c0 = Some (inl c) →
  ∃ c1, proxy_events path evs c0 = Some (inl c1) ∧ proxy_event path ev c1 = Some (inl c).
Proof.
  revert c0. induction evs as [|ev' evs IH]; intros c0; simpl.
  - intros ([c1|code] & Hev & Hrun)%bind_Some; [|done]. injection Hrun as ->. by exists c0.
  - intros ([c1|code] & Hev & Hrun)%bind_Some; [|done]. rewrite Hev. by apply IH.
Qed.
Lemma events_known c0 evs c :
  with_extension path "tmp" ≠ path → run_inv c0 [] [] c0 →
  proxy_events path evs c0 = Some (inl c) → ∃ xs, run_inv c0 evs xs c.
Proof.
  intros Hpath Hc0. revert c. induction evs as [|ev evs IH] using rev_ind; intros c Hrun.
  - injection Hrun as <-. by exists [].
  - apply proxy_events_snoc in Hrun as (c1 & Hrun & Hev). destruct (IH c1 Hrun) as [xs Hinv].
    by eapply event_known.
Qed.

Lemma initial_load_known w :
  wp (initial_load path) (mkProxy LeaseState_new fs) w (λ _ p' _, files_known [] p').
Proof.
  assert (Hnew : files_known [] (mkProxy LeaseState_new fs)) by (split; [auto|done]).
  unfold initial_load, on_files, set_state. do 3 wp_step. wp_call read_from_wp.
  intros r fs' w' (_ & -> & Hnp & Hok & _). destruct r as [st|e|]; [| |done]; wp_step; [|done].
  destruct (Hok st eq_refl) as (json & Hj & Hst). split; [auto|]. intros d info Hd.
  exists st. split; [done|]. right. by exists json.
Qed.

(** A run is what [run] does before its loops, and the events. *)
Lemma proxy_run_start args evs w c :
  args_lease_file args = path → proxy_run args evs fs w = Some (inl c) →
  ∃ c0, run_inv c0 [] [] c0 ∧ proxy_events path evs c0 = Some (inl c) ∧
    ∀ evs', proxy_run args evs' fs w = proxy_events path evs' c0.
Proof.
  intros Hp Hrun. unfold proxy_run, proxy_start in *. rewrite !Hp in *. pose proof (initial_load_known w) as Hinit.
  unfold wp in Hinit. unfold bind_listener, mbind, M_bind, db_call, mret, M_ret in *.
  destruct (initial_load path (mkProxy LeaseState_new fs) w) as [[[[]|e|] p] w1];
    [|done..].
  destruct (io_fault (w_io w1)); [done|]. simpl in *.
  destruct (io_fault (S (w_io w1))); [done|]. simpl in *. eexists. split; [|by split].
  split; [constructor|]. split; [done|]. intros i x Hx. by rewrite lookup_nil in Hx.
Qed.
End runs.


(** ** A run *)

Definition demo_proxy_events : list ProxyEvent :=
  [Provision demo_state; Accept true (Ok (mkStream demo_request_bytes [])); Tick] ++
  replicate 2 (Step 0) ++ replicate 4 (Step 1) ++ replicate 7 (Step 0).

