(* ===== verification/Protocol.v ===== *)
(** The wire protocol: [src/protocol/mod.rs].

    [serde_json::Value] is a type parameter [V]; conversions between it and the typed
    parameters and results, and the JSON text of the messages, are parameters. *)
From S2P Require Import Prelude Text Concrete Types Auth Store.

Local Open Scope string_scope.
Local Open Scope Z_scope.
Local Open Scope list_scope.

(** ** Handshake *)

Definition PROTOCOL_NAME : string := "zerolease".
Definition CURRENT_VERSION : Z := 1.

Record ClientHello := mkClientHello {
  chello_protocol : string;
  chello_version : Z;
  chello_token : option string
}.
Definition ClientHello_new : ClientHello := mkClientHello PROTOCOL_NAME CURRENT_VERSION None.
Definition ClientHello_with_token (token : string) : ClientHello :=
  mkClientHello PROTOCOL_NAME CURRENT_VERSION (Some token).

Record ServerHello := mkServerHello {
  shello_protocol : string;
  shello_version : Z;
  shello_ok : bool;
  shello_error : option string
}.
Definition ServerHello_accept (version : Z) : ServerHello :=
  mkServerHello PROTOCOL_NAME version true None.
Definition ServerHello_reject (reason : string) : ServerHello :=
  mkServerHello PROTOCOL_NAME CURRENT_VERSION false (Some reason).

(** ** Envelopes *)

Record Request (V : Type) := mkRequest {
  request_id : Uuid;
  request_method : string;
  request_params : V
}.
Arguments mkRequest {V}.
Arguments request_id {V}.
Arguments request_method {V}.
Arguments request_params {V}.

Record ErrorPayload := mkErrorPayload { payload_code : string; payload_message : string }.

Record Response (V : Type) := mkResponse {
  response_id : Uuid;
  response_ok : bool;
  response_result : option V;
  response_error : option ErrorPayload
}.
Arguments mkResponse {V}.
Arguments response_id {V}.
Arguments response_ok {V}.
Arguments response_result {V}.
Arguments response_error {V}.

(** ** Error codes *)

Definition error_to_code (err : Error) : string :=
  match err with
  | LeaseExpired _ => "lease_expired"
  | LeaseRevoked _ => "lease_revoked"
  | LeaseNotFound _ => "lease_not_found"
  | AccessDenied _ _ _ => "access_denied"
  | NoPolicyForAgent _ => "no_policy_for_agent"
  | SecretNotFound _ => "secret_not_found"
  | SecretAlreadyExists _ => "secret_already_exists"
  | EncryptionFailed => "encryption_failed"
  | DecryptionFailed => "decryption_failed"
  | KeySourceUnavailable _ => "key_source_unavailable"
  | Storage _ => "storage"
  | Transport _ => "transport"
  | InvalidConfig _ => "invalid_config"
  | NotSupported _ => "not_supported"
  | Remote _ _ => "remote"
  | SessionNotFound => "session_not_found"
  | SessionExpired _ => "session_expired"
  | SessionRevoked _ => "session_revoked"
  | SessionLeaseLimitReached _ _ => "session_lease_limit"
  | RenewalLimitReached _ _ => "renewal_limit_reached"
  end.

Definition CODE_INVALID_REQUEST : string := "invalid_request".
Definition CODE_PROTOCOL_ERROR : string := "protocol_error".

Section envelopes.
Context {V : Type} `{!UuidText}.

Definition error_to_payload (err : Error) : ErrorPayload :=
  mkErrorPayload (error_to_code err) (Error_to_string err).

Definition Response_success (id : Uuid) (result : V) : Response V :=
  mkResponse id true (Some result) None.
Definition Response_from_error (id : Uuid) (err : Error) : Response V :=
  mkResponse id false None (Some (error_to_payload err)).
Definition Response_protocol_error (id : Uuid) (code message : string) : Response V :=
  mkResponse id false None (Some (mkErrorPayload code message)).
End envelopes.

(** ** Methods *)

Definition STORE_SECRET : string := "store_secret".
Definition REQUEST_LEASE : string := "request_lease".
Definition ACCESS_SECRET : string := "access_secret".
Definition REVOKE_LEASE : string := "revoke_lease".
Definition REVOKE_ALL_FOR_AGENT : string := "revoke_all_for_agent".
Definition LIST_SECRETS : string := "list_secrets".
Definition RENEW_LEASE : string := "renew_lease".
Definition DELETE_SECRET : string := "delete_secret".

Record StoreSecretRequest (V : Type) := mkStoreSecretRequest {
  ssr_name : string;
  ssr_plaintext : string;
  ssr_kind : V;
  ssr_description : option string
}.
Arguments mkStoreSecretRequest {V}.
Arguments ssr_name {V}.
Arguments ssr_plaintext {V}.
Arguments ssr_kind {V}.
Arguments ssr_description {V}.

Record RequestLeaseRequest := mkRequestLeaseRequest {
  rlr_agent : string;
  rlr_secret_name : string;
  rlr_domain : string
}.
Record AccessSecretRequest := mkAccessSecretRequest {
  asr_lease_id : Uuid;
  asr_target_domain : string
}.
Record AccessSecretResponse := mkAccessSecretResponse { asresp_secret : string }.
Record RevokeLeaseRequest (V : Type) := mkRevokeLeaseRequest {
  rvl_lease_id : Uuid;
  rvl_reason : V
}.
Arguments mkRevokeLeaseRequest {V}.
Arguments rvl_lease_id {V}.
Arguments rvl_reason {V}.
Record RevokeAllForAgentRequest := mkRevokeAllForAgentRequest { raa_agent : string }.
Record RevokeAllForAgentResponse := mkRevokeAllForAgentResponse { raa_revoked_count : Z }.
Record ListSecretsRequest := mkListSecretsRequest {}.
Record ListSecretsResponse (V : Type) := mkListSecretsResponse { lsr_secrets : list V }.
Arguments mkListSecretsResponse {V}.
Arguments lsr_secrets {V}.
Record RenewLeaseRequest := mkRenewLeaseRequest {
  rnl_lease_id : Uuid;
  rnl_extension_secs : Z
}.
Record DeleteSecretRequest := mkDeleteSecretRequest { dsr_name : string }.

(** ** JSON values and base64 *)

(** [serde_json::to_value] and [serde_json::from_value] at a type. *)
Class SerdeValue (V A : Type) := {
  to_value : A → outcome string V;
  from_value : V → outcome string A
}.
(** Documented: neither panics. *)
Class SerdeValueLaws (V A : Type) `{!SerdeValue V A} := {
  to_value_no_panic : ∀ a : A, to_value a ≠ Panic;
  from_value_no_panic : ∀ v, from_value v ≠ Panic;
  value_roundtrip : ∀ a v, to_value a = Ok v → from_value v = Ok a
}.

(** Every type that travels in [params] or [result], [json!({})] and [Value::Null]. *)
Class Wire (V : Type) := {
  wire_store_secret :: SerdeValue V (StoreSecretRequest V);
  wire_request_lease :: SerdeValue V RequestLeaseRequest;
  wire_access_secret :: SerdeValue V AccessSecretRequest;
  wire_access_response :: SerdeValue V AccessSecretResponse;
  wire_revoke_lease :: SerdeValue V (RevokeLeaseRequest V);
  wire_revoke_all :: SerdeValue V RevokeAllForAgentRequest;
  wire_revoke_all_response :: SerdeValue V RevokeAllForAgentResponse;
  wire_list_request :: SerdeValue V ListSecretsRequest;
  wire_list_response :: SerdeValue V (ListSecretsResponse V);
  wire_renew_lease :: SerdeValue V RenewLeaseRequest;
  wire_delete_secret :: SerdeValue V DeleteSecretRequest;
  wire_kind :: SerdeValue V SecretKind;
  wire_reason :: SerdeValue V RevocationReason;
  wire_metadata :: SerdeValue V SecretMetadata;
  wire_grant :: SerdeValue V LeaseGrant;
  empty_object : V;
  json_null : V
}.
Class WireLaws (V : Type) `{!Wire V} := {
  wirel_store_secret :: SerdeValueLaws V (StoreSecretRequest V);
  wirel_request_lease :: SerdeValueLaws V RequestLeaseRequest;
  wirel_access_secret :: SerdeValueLaws V AccessSecretRequest;
  wirel_access_response :: SerdeValueLaws V AccessSecretResponse;
  wirel_revoke_lease :: SerdeValueLaws V (RevokeLeaseRequest V);
  wirel_revoke_all :: SerdeValueLaws V RevokeAllForAgentRequest;
  wirel_revoke_all_response :: SerdeValueLaws V RevokeAllForAgentResponse;
  wirel_list_request :: SerdeValueLaws V ListSecretsRequest;
  wirel_list_response :: SerdeValueLaws V (ListSecretsResponse V);
  wirel_renew_lease :: SerdeValueLaws V RenewLeaseRequest;
  wirel_delete_secret :: SerdeValueLaws V DeleteSecretRequest;
  wirel_kind :: SerdeValueLaws V SecretKind;
  wirel_reason :: SerdeValueLaws V RevocationReason;
  wirel_metadata :: SerdeValueLaws V SecretMetadata;
  wirel_grant :: SerdeValueLaws V LeaseGrant;
  (** A struct is written as an object. *)
  object_access_response : ∀ x : AccessSecretResponse, to_value x ≠ Ok json_null;
  object_revoke_all_response : ∀ x : RevokeAllForAgentResponse, to_value x ≠ Ok json_null;
  object_list_response : ∀ x : ListSecretsResponse V, to_value x ≠ Ok json_null;
  object_metadata : ∀ x : SecretMetadata, to_value x ≠ Ok json_null;
  object_grant : ∀ x : LeaseGrant, to_value x ≠ Ok json_null;
  object_empty : empty_object ≠ json_null
}.
(** [Some(Value::Null)] is written as [null], which [Option] reads back as [None]: the other
    responses are read back as they were. *)
Definition not_null {V} `{!Wire V} (r : Response V) : Prop := response_result r ≠ Some json_null.
Class ResponseLaws (V : Type) `{!Wire V, !Serde (Response V)} := {
  response_total :: SerdeTotal (Response V);
  response_roundtrip : ∀ (r : Response V) s, not_null r → to_json r = Ok s → from_json s = Ok r
}.

(** [base64::engine::general_purpose::STANDARD] *)
Class Base64 := {
  b64_encode : bytes → string;
  b64_decode : string → outcome string bytes
}.
Class Base64Laws `{!Base64} := {
  b64_roundtrip : ∀ b, b64_decode (b64_encode b) = Ok b;
  b64_decode_no_panic : ∀ s, b64_decode s ≠ Panic
}.
