(* ===== verification/Client.v ===== *)
(** The typed client: [src/client.rs].

    The client is generic over its transport, as [VaultClient<C: VaultConnector>] is: it
    needs to send a frame and to wait for one ([FrameIO]). A byte stream is such a
    transport; so is a link to a server that serves the connection ([ClientServer]). *)
From S2P Require Import Prelude Text Concrete Types Lease Session Store Auth.
From S2P Require Import AuditEvents Frame Protocol.

Local Open Scope string_scope.
Local Open Scope Z_scope.
Local Open Scope list_scope.

(** The two halves of a connection: [write_frame] on one, [read_frame] on the other. *)
Class FrameIO (St : Type) := {
  send_frame : bytes → M St Error unit;
  recv_frame : M St Error bytes
}.

#[global] Instance stream_FrameIO `{!Env, !StreamIO} : FrameIO Stream := {|
  send_frame := write_frame;
  recv_frame := read_frame
|}.

Section client.
Context {St V : Type} `{!Env, !FrameIO St, !UuidText, !Wire V, !Base64}.
Context `{!Serde ClientHello, !Serde ServerHello, !Serde (Request V), !Serde (Response V)}.
Abbreviation CM := (M St Error).

(** [r.map_err(|e| Error::Transport(format!("{what}: {e}")))?] *)
Definition transport_err {A} (what : string) (r : outcome string A) : CM A :=
  lift (map_err (λ e, Transport (what +:+ ": " +:+ e)) r).

(** [connector] is the outcome of [connector.connect()], a stream to use from then on. *)
Definition connect_with_hello (connector : outcome Error St) (hello : ClientHello) : CM unit :=
  stream ← lift connector;
  write stream;;
  hello_bytes ← transport_err "failed to serialize hello" (to_json hello);
  send_frame (as_bytes hello_bytes);;
  resp_bytes ← recv_frame;
  server_hello ← transport_err (A := ServerHello) "invalid server hello"
                   (from_json (from_bytes resp_bytes));
  if negb (shello_ok server_hello)
  then throw (Transport ("handshake rejected: " +:+ default "" (shello_error server_hello)))
  else mret tt.
Definition connect (connector : outcome Error St) : CM unit :=
  connect_with_hello connector ClientHello_new.
Definition connect_with_token (connector : outcome Error St) (token : string) : CM unit :=
  connect_with_hello connector (ClientHello_with_token token).

(** The part of [request] after the response has arrived. *)
Definition response_value (response : Response V) : outcome Error V :=
  if response_ok response then Ok (default empty_object (response_result response))
  else
    let payload := default (mkErrorPayload "unknown" "server returned an error with no payload")
                     (response_error response) in
    Err (Remote (payload_code payload) (payload_message payload)).

Definition client_request (method : string) (params : V) : CM V :=
  id ← uuid_now_v7;
  let request := mkRequest id method params in
  req_bytes ← transport_err "failed to serialize request" (to_json request);
  send_frame (as_bytes req_bytes);;
  resp_bytes ← recv_frame;
  response ← transport_err (A := Response V) "invalid response" (from_json (from_bytes resp_bytes));
  lift (response_value response).

Definition parse_result {A} `{!SerdeValue V A} (value : V) : CM A :=
  transport_err "failed to parse response" (from_value value).

Definition to_params {A} `{!SerdeValue V A} (params : A) : CM V :=
  transport_err "failed to serialize params" (to_value params).

Definition client_store_secret (name : string) (plaintext : bytes) (kind : SecretKind)
    (description : option string) : CM SecretMetadata :=
  kind_value ← transport_err "failed to serialize kind" (to_value kind);
  let params := mkStoreSecretRequest name (b64_encode plaintext) kind_value description in
  value ← to_params params;
  result ← client_request STORE_SECRET value;
  parse_result result.

Definition client_request_lease (agent secret_name domain : string) : CM LeaseGrant :=
  value ← to_params (mkRequestLeaseRequest agent secret_name domain);
  result ← client_request REQUEST_LEASE value;
  parse_result result.

Definition client_access_secret (lease_id : Uuid) (target_domain : string) : CM bytes :=
  value ← to_params (mkAccessSecretRequest lease_id target_domain);
  result ← client_request ACCESS_SECRET value;
  resp ← parse_result (A := AccessSecretResponse) result;
  transport_err "invalid base64 in server response" (b64_decode (asresp_secret resp)).

Definition client_revoke_lease (lease_id : Uuid) (reason : RevocationReason) : CM unit :=
  reason_value ← transport_err "failed to serialize reason" (to_value reason);
  value ← to_params (mkRevokeLeaseRequest lease_id reason_value);
  client_request REVOKE_LEASE value;;
  mret tt.

Definition client_revoke_all_for_agent (agent : string) : CM Z :=
  value ← to_params (mkRevokeAllForAgentRequest agent);
  result ← client_request REVOKE_ALL_FOR_AGENT value;
  resp ← parse_result (A := RevokeAllForAgentResponse) result;
  mret (raa_revoked_count resp).

Definition client_list_secrets : CM (list SecretMetadata) :=
  result ← client_request LIST_SECRETS empty_object;
  resp ← parse_result (A := ListSecretsResponse V) result;
  traverse (λ v, transport_err "failed to parse secret metadata" (from_value v))
    (lsr_secrets resp).

Definition client_renew_lease (lease_id : Uuid) (extension_secs : Z) : CM LeaseGrant :=
  value ← to_params (mkRenewLeaseRequest lease_id extension_secs);
  result ← client_request RENEW_LEASE value;
  parse_result result.

Definition client_delete_secret (name : string) : CM unit :=
  value ← to_params (mkDeleteSecretRequest name);
  client_request DELETE_SECRET value;;
  mret tt.
End client.

Lemma wp_transport_err {St B} what (r : outcome string B) (s : St) w
    (Q : outcome Error B → St → World → Prop) :
  r ≠ Panic → (∀ b, r = Ok b → Q (Ok b) s w) →
  (∀ e, is_transport e → Q (Err e) s w) → wp (transport_err what r) s w Q.
Proof.
  intros Hnp Hok Herr. unfold transport_err. destruct r as [b|e|]; cbn [map_err]; [| |done]; wp_step; auto.
  apply Herr. by eexists.
Qed.
