(* ===== verification/AgentApi.v ===== *)
(** The vault as its clients in the other crates use it.

    The provisioner and the git helper of [zerolease-agent] and the provider of
    [zerolease-provider] all connect, request a lease, read the secret and revoke the
    lease. [VaultApi] is that interface; the typed client of [src/client.rs] implements it
    over any transport. Their theorems are stated over a vault that logs its calls, so that
    they say what was asked of it whatever it answers. *)
From S2P Require Import Prelude Text Concrete Types Lease Session Store Auth.
From S2P Require Import AuditEvents Frame Protocol Client.

Local Open Scope string_scope.
Local Open Scope Z_scope.
Local Open Scope list_scope.

(** ** The interface *)

Class VaultApi (St : Type) := {
  api_connect : option string → M St Error unit;
  api_request_lease : string → string → string → M St Error LeaseGrant;
  api_access_secret : Uuid → string → M St Error bytes;
  api_revoke_lease : Uuid → RevocationReason → M St Error unit
}.

(** The typed client; [connector] gives the stream of a new connection. *)
Definition client_VaultApi {St V} `{!Env, !FrameIO St, !UuidText, !Wire V, !Base64}
    `{!Serde ClientHello, !Serde ServerHello, !Serde (Request V), !Serde (Response V)}
    (connector : outcome Error St) : VaultApi St := {|
  api_connect := λ token,
    match token with Some t => connect_with_token connector t | None => connect connector end;
  api_request_lease := client_request_lease (V := V);
  api_access_secret := client_access_secret (V := V);
  api_revoke_lease := client_revoke_lease (V := V)
|}.

(** Whatever is asked, a call returns, with a value or an error. *)
Class VaultApiLaws (St : Type) `{!VaultApi St} := {
  api_connect_ok : ∀ t, well_behaved (api_connect t);
  api_request_lease_ok : ∀ a n d, well_behaved (api_request_lease a n d);
  api_access_secret_ok : ∀ i d, well_behaved (api_access_secret i d);
  api_revoke_lease_ok : ∀ i r, well_behaved (api_revoke_lease i r)
}.

(** ** The typed client implements it *)

Section well_behaved.
Context {St E : Type}.

Lemma well_behaved_bind {A B} (m : M St E A) (k : A → M St E B) :
  well_behaved m → (∀ a, well_behaved (k a)) → well_behaved (m ≫= k).
Proof.
  intros Hm Hk s w. wp_step. eapply wp_mono; [apply Hm|].
  intros [a|e|] s1 w1 [Hnp Hw1]; [|by split|done].
  eapply wp_mono; [apply Hk|]. intros r s2 w2 [? Hw2]. split; [done|]. by etrans.
Qed.
Lemma well_behaved_lift {A} (r : outcome E A) : r ≠ Panic → well_behaved (St := St) (lift r).
Proof. by intros Hr s w. Qed.
Lemma well_behaved_ret {A} (a : A) : well_behaved (St := St) (E := E) (mret a).
Proof. by intros s w. Qed.
Lemma well_behaved_write (s' : St) : well_behaved (E := E) (write s').
Proof. by intros s w. Qed.
End well_behaved.
#[export] Hint Resolve well_behaved_bind well_behaved_lift well_behaved_ret
  well_behaved_write : zerolease.

Class FrameIOLaws (St : Type) `{!FrameIO St} := {
  send_frame_ok : ∀ b, well_behaved (send_frame b);
  recv_frame_ok : well_behaved recv_frame
}.
#[global] Instance stream_FrameIOLaws `{!Env, !StreamIO} : FrameIOLaws Stream.
Proof.
  split.
  - intros b s w. wp_call write_frame_wp. intros [[]|e|] s' w' (Hw & _ & Hr); split; naive_solver.
  - intros s w. wp_call read_frame_wp. intros [b|e|] s' w' (Hw & _ & Hr); split; naive_solver.
Qed.

Section client_laws.
Context {St V : Type} `{!Env, !FrameIO St, !FrameIOLaws St, !UuidText, !Base64, !Base64Laws}.
Context `{!Wire V, !WireLaws V}.
Context `{!Serde ClientHello, !SerdeLaws ClientHello, !Serde ServerHello, !SerdeLaws ServerHello}.
Context `{!Serde (Request V), !SerdeLaws (Request V), !Serde (Response V), !SerdeTotal (Response V)}.

Lemma transport_err_ok {A} what (r : outcome string A) :
  r ≠ Panic → well_behaved (St := St) (transport_err what r).
Proof. intros Hr. apply well_behaved_lift. by destruct r. Qed.

Ltac well_behaved_step :=
  first
    [ apply well_behaved_bind; [|intros ?]
    | apply transport_err_ok;
      first [apply to_json_no_panic | apply from_json_no_panic | apply to_value_no_panic
            | apply from_value_no_panic | apply b64_decode_no_panic]
    | apply send_frame_ok | apply recv_frame_ok | apply well_behaved_ret ].
Ltac well_behaved_tac := repeat well_behaved_step.

Lemma connect_with_hello_ok connector hello :
  connector ≠ Panic → well_behaved (connect_with_hello (St := St) connector hello).
Proof.
  intros Hc. unfold connect_with_hello.
  apply well_behaved_bind; [by apply well_behaved_lift|intros stream].
  apply well_behaved_bind; [apply well_behaved_write|intros _]. well_behaved_tac.
  by destruct (negb _).
Qed.

Lemma client_request_ok method (params : V) : well_behaved (client_request (St := St) method params).
Proof.
  unfold client_request. apply well_behaved_bind; [by intros s w; split; [|solve_world]|].
  intros id. cbv zeta. well_behaved_tac. apply well_behaved_lift. unfold response_value.
  by destruct (response_ok _).
Qed.

(** The typed client keeps the promise of the interface over every transport whose calls
    return. *)
Lemma client_VaultApiLaws connector :
  connector ≠ Panic → @VaultApiLaws St (client_VaultApi (V := V) connector).
Proof.
  intros Hc. split.
  - intros [t|]; by apply connect_with_hello_ok.
  - intros a n d. simpl. unfold client_request_lease, to_params, parse_result.
    repeat first [apply client_request_ok | well_behaved_step].
  - intros i d. simpl. unfold client_access_secret, to_params, parse_result.
    repeat first [apply client_request_ok | well_behaved_step].
  - intros i r. simpl. unfold client_revoke_lease, to_params.
    repeat first [apply client_request_ok | well_behaved_step].
Qed.
End client_laws.

(** ** A vault with a log *)

Inductive ApiCall :=
  | CallConnect (token : option string)
  | CallLease (agent secret domain : string) (r : outcome Error LeaseGrant)
  | CallAccess (id : Uuid) (domain : string) (r : outcome Error bytes)
  | CallRevoke (id : Uuid) (reason : RevocationReason).

(** Any vault, with a log of the calls made. *)
Definition logged_call {St A} (m : M St Error A) (c : outcome Error A → ApiCall)
    : M (St * list ApiCall) Error A := λ s w,
  match m s.1 w with (r, s', w') => (r, (s', s.2 ++ [c r]), w') end.
Definition logged_VaultApi {St} `{!VaultApi St} : VaultApi (St * list ApiCall) := {|
  api_connect := λ t, logged_call (api_connect t) (λ _, CallConnect t);
  api_request_lease := λ a n d, logged_call (api_request_lease a n d) (CallLease a n d);
  api_access_secret := λ i d, logged_call (api_access_secret i d) (CallAccess i d);
  api_revoke_lease := λ i r, logged_call (api_revoke_lease i r) (λ _, CallRevoke i r)
|}.

(** The leases a log shows as granted, and those it shows as revoked. *)
Definition leased (log : list ApiCall) : list Uuid :=
  omap (λ c, match c with
    | CallLease _ _ _ (Ok g) => Some (LeaseId_as_uuid (grant_lease_id g))
    | _ => None end) log.
Definition revoked (log : list ApiCall) : list Uuid :=
  omap (λ c, match c with CallRevoke i _ => Some i | _ => None end) log.

Lemma leased_app l1 l2 : leased (l1 ++ l2) = leased l1 ++ leased l2.
Proof. apply omap_app. Qed.
Lemma revoked_app l1 l2 : revoked (l1 ++ l2) = revoked l1 ++ revoked l2.
Proof. apply omap_app. Qed.

Lemma logged_call_wp {St A} (m : M St Error A) (c : outcome Error A → ApiCall) s w :
  well_behaved m →
  wp (logged_call m c) s w (λ r s' w', r ≠ Panic ∧ world_le w w' ∧ s'.2 = s.2 ++ [c r]).
Proof.
  intros Hm. specialize (Hm s.1 w). unfold wp, logged_call in *.
  destruct (m s.1 w) as [[r s'] w']. naive_solver.
Qed.

Lemma logged_call_run {St A} (m : M St Error A) (c : outcome Error A → ApiCall) s w r s' w' :
  logged_call m c s w = (r, s', w') → m s.1 w = (r, s'.1, w').
Proof. unfold logged_call. destruct (m s.1 w) as [[r1 s1] w1]. by intros [= <- <- <-]. Qed.

(** ** Witnesses *)

(** A vault that grants lease 1 to every request. *)
Definition demo_grant : LeaseGrant :=
  mkLeaseGrant (LeaseId_from_uuid 1) (SecretName_new "gh") [] (900 * NANOS) false None.
Definition demo_VaultApi : VaultApi unit := {|
  api_connect := λ _, mret tt;
  api_request_lease := λ _ _ _, mret demo_grant;
  api_access_secret := λ _ _, mret (as_bytes "it's");
  api_revoke_lease := λ _ _, mret tt
|}.
Lemma demo_VaultApiLaws : @VaultApiLaws unit demo_VaultApi.
Proof. by constructor; intros; intros s w. Qed.
