(* ===== verification/Provision.v ===== *)
(** The agent's provisioner: [manifest.rs], [config_writer.rs] and [provision.rs] of
    [zerolease-agent/src], a client of the vault through the interface of [AgentApi]. *)
From Stdlib Require Import Strings.Ascii.
From S2P Require Import Prelude Text Concrete Types Lease Session Store Auth AuditEvents.
From S2P Require Import Frame LeaseState AgentProxy Protocol Client AgentApi.

Local Open Scope string_scope.
Local Open Scope Z_scope.
Local Open Scope list_scope.

(** ** The manifest *)

Inductive InjectMechanism :=
  | Env_ (var : string)
  | File_ (path template : string)
  | GitCredential (host : string).

Record CredentialEntry := mkCredentialEntry {
  entry_secret_name : string;
  entry_target_domain : string;
  entry_inject : list InjectMechanism
}.

Record CredentialManifest := mkCredentialManifest { manifest_credentials : list CredentialEntry }.

Definition CredentialManifest_from_file `{!Env, !Serde CredentialManifest} (path : Path)
    : M FileSystem IoError CredentialManifest :=
  contents ← read_to_string path;
  lift (map_err IoOther (from_json contents)).

(** The inner loop of [git_host_map]. *)
Definition entry_hosts (entry : CredentialEntry) (map : gmap string (string * string))
    : gmap string (string * string) :=
  foldl (λ map mechanism,
    match mechanism with
    | GitCredential host =>
        <[host := (entry_secret_name entry, entry_target_domain entry)]> map
    | _ => map
    end) map (entry_inject entry).
Definition git_host_map (self : CredentialManifest) : gmap string (string * string) :=
  foldl (λ map entry, entry_hosts entry map) ∅ (manifest_credentials self).

(** ** Config files *)

(** The components of a path string: empty and dot components do not count. *)
Fixpoint split_char (c : ascii) (s : string) : list string :=
  match s with
  | EmptyString => [""]
  | String d s' =>
    match split_char c s' with
    | [] => []
    | x :: xs => if Ascii.eqb d c then "" :: x :: xs else String d x :: xs
    end
  end.
Definition components (s : string) : Path :=
  List.filter (λ x, negb (str_eqb x "") && negb (str_eqb x ".")) (split_char "/"%char s).

(** The working directory and the environment variable [HOME]. *)
Class Home := { cwd : Path; home : option string }.

(** The file a path string names. *)
Definition path_from `{!Home} (s : string) : Path :=
  if starts_with "/" s then components s else cwd ++ components s.

(** [PathBuf::from(base).join(rest)], a path string. *)
Definition path_join (base rest : string) : string :=
  if starts_with "/" rest || is_empty base then rest
  else if ends_with "/" base then base +:+ rest
  else base +:+ "/" +:+ rest.

Definition expand_tilde `{!Home} (path : string) : string :=
  match strip_prefix "~/" path, home with
  | Some rest, Some h => path_join h rest
  | _, _ => path
  end.

Definition SECRET_PLACEHOLDER : string := "${SECRET}".
Definition expand_template (template secret : string) : string :=
  str_replace SECRET_PLACEHOLDER secret template.

Section files.
Context `{!Env, !StreamIO}.

(** [std::fs::set_permissions]: the contents stay. *)
Definition set_permissions (p : Path) : M FileSystem IoError unit :=
  fault ← db_call;
  match fault with Some e => throw (IoOther e) | None => mret tt end.

Definition write_config (path : Path) (content : string) : M FileSystem IoError unit :=
  match path_parent path with Some parent => create_dir_all parent | None => mret tt end;;
  fs_write path content;;
  set_permissions path.

(** The same body as [write_config]. *)
Definition write_env_file (path : Path) (content : string) : M FileSystem IoError unit :=
  match path_parent path with Some parent => create_dir_all parent | None => mret tt end;;
  fs_write path content;;
  set_permissions path.
End files.

(** ** Provisioning *)

(** The quoting of a value between single quotes: [s.replace('\'', "'\\''")]. *)
Definition quote : string := from_bytes [Byte.x27].
Definition escaped_quote : string := from_bytes [Byte.x27; Byte.x5c; Byte.x27; Byte.x27].
Definition sh_escape (s : string) : string := str_replace quote escaped_quote s.
(** [writeln!(env_lines, "export {var}='{}'", ...)] *)
Definition export_line (var value : string) : string :=
  "export " +:+ var +:+ "=" +:+ quote +:+ value +:+ quote +:+ newline.

Record ProvisionArgs := mkProvisionArgs {
  arg_vault_addr : string;
  arg_token : string;
  arg_manifest : string;
  arg_env_file : string;
  arg_lease_file : string;
  arg_credential_token : option string
}.

(** The agent's process: its connection, the files, and what it has gathered so far. *)
Record Agent (St : Type) := mkAgent {
  agent_api : St;
  agent_files : FileSystem;
  agent_env_lines : string;
  agent_leases : LeaseState;
  agent_acquired : list Uuid
}.
Arguments mkAgent {St}.
Arguments agent_api {St}.
Arguments agent_files {St}.
Arguments agent_env_lines {St}.
Arguments agent_leases {St}.
Arguments agent_acquired {St}.

Inductive ExitCode := SUCCESS | FAILURE.

Section provision.
Context {St : Type} `{!Env, !StreamIO, !Home, !UuidText, !VaultApi St}.
Context `{!Serde LeaseState, !Serde CredentialManifest}.

(** Display of an I/O error. *)
Definition io_message (e : IoError) : string :=
  match e with UnexpectedEof => "unexpected end of file" | IoOther m => m end.

(** A call on the connection or on the files, with its error as a message. *)
Definition agent_call {A} (f : Error → string) (m : M St Error A) : M (Agent St) string A :=
  zoom agent_api (λ s a, mkAgent s (agent_files a) (agent_env_lines a) (agent_leases a)
                           (agent_acquired a)) (map_err_m f m).
Definition agent_io {A} (f : IoError → string) (m : M FileSystem IoError A)
    : M (Agent St) string A :=
  zoom agent_files (λ fs a, mkAgent (agent_api a) fs (agent_env_lines a) (agent_leases a)
                              (agent_acquired a)) (map_err_m f m).

Definition push_env (line : string) (a : Agent St) : Agent St :=
  mkAgent (agent_api a) (agent_files a) (agent_env_lines a +:+ line) (agent_leases a)
    (agent_acquired a).
Definition push_lease (domain : string) (info : LeaseInfo) (a : Agent St) : Agent St :=
  mkAgent (agent_api a) (agent_files a) (agent_env_lines a)
    (mkLeaseState (ls_version (agent_leases a)) (<[domain := info]> (ls_leases (agent_leases a))))
    (agent_acquired a).
Definition push_acquired (id : Uuid) (a : Agent St) : Agent St :=
  mkAgent (agent_api a) (agent_files a) (agent_env_lines a) (agent_leases a)
    (agent_acquired a ++ [id]).

(** The body of the loop over the mechanisms of an entry. *)
Definition inject (secret : string) (mechanism : InjectMechanism) : M (Agent St) string unit :=
  match mechanism with
  | Env_ var => modify (push_env (export_line var (sh_escape secret)))
  | File_ path template =>
    let expanded := expand_tilde path in
    let content := expand_template template secret in
    agent_io (λ e, "failed to write " +:+ expanded +:+ ": " +:+ io_message e)
      (write_config (path_from expanded) content)
  | GitCredential _ => mret tt
  end.

(** The body of the loop of [acquire_credentials]. *)
Definition acquire_entry (entry : CredentialEntry) : M (Agent St) string unit :=
  let name := entry_secret_name entry in
  grant ← agent_call (λ e, "lease failed for " +:+ name +:+ ": " +:+ Error_to_string e)
            (api_request_lease "provisioner" name (entry_target_domain entry));
  let id := LeaseId_as_uuid (grant_lease_id grant) in
  modify (push_acquired id);;
  secret_bytes ← agent_call (λ e, "access failed for " +:+ name +:+ ": " +:+ Error_to_string e)
                   (api_access_secret id (entry_target_domain entry));
  match from_utf8 secret_bytes with
  | None => throw ("secret " +:+ name +:+ " is not valid UTF-8")
  | Some secret =>
    modify (push_lease (entry_target_domain entry)
              (mkLeaseInfo (uuid_to_string id) (grant_expires_at grant)));;
    for_each (inject secret) (entry_inject entry)
  end.

Definition acquire_credentials (manifest : CredentialManifest) : M (Agent St) string unit :=
  for_each acquire_entry (manifest_credentials manifest).

(** The rollback of [run]: the outcome of a revocation is only logged. *)
Definition rollback : M (Agent St) string unit :=
  a ← read;
  for_each (λ lease_id,
    try_ (E := string) (agent_call Error_to_string (api_revoke_lease lease_id AdminRevoked));;
    mret tt) (agent_acquired a).

(** The lines of the env file that do not depend on the secrets. *)
Definition env_trailer (args : ProvisionArgs) (self_path : string) : string :=
  export_line "ZEROLEASE_VAULT_ADDR" (arg_vault_addr args)
  +:+ match arg_credential_token args with
      | Some t => export_line "ZEROLEASE_CREDENTIAL_TOKEN" (sh_escape t)
      | None => ""
      end
  +:+ "export GIT_TERMINAL_PROMPT=0" +:+ newline
  +:+ "export GIT_CONFIG_COUNT=1" +:+ newline
  +:+ export_line "GIT_CONFIG_KEY_0" "credential.helper"
  +:+ export_line "GIT_CONFIG_VALUE_0"
        (self_path +:+ " credential-fill --manifest " +:+ arg_manifest args)
  +:+ export_line "HTTPS_PROXY" "http://127.0.0.1:8080"
  +:+ export_line "HTTP_PROXY" "http://127.0.0.1:8080".

(** [run], from an agent process that has gathered nothing yet. [self_path] is the path of
    the executable. *)
Definition provision_run (args : ProvisionArgs) (self_path : string)
    : M (Agent St) string ExitCode :=
  m ← try_ (E := string) (agent_io io_message 
       (CredentialManifest_from_file (path_from (arg_manifest args))));
  match m with
  | Ok manifest =>
    connected ← try_ (E := string) (agent_call Error_to_string (api_connect (Some (arg_token args))));
    match connected with
    | Ok _ =>
      result ← try_ (E := string) (acquire_credentials manifest);
      match result with
      | Ok _ =>
        modify (push_env (env_trailer args self_path));;
        a ← read;
        written ← try_ (E := string)
          (agent_io io_message (write_env_file (path_from (arg_env_file args))
                                (agent_env_lines a)));
        match written with
        | Ok _ =>
          stated ← try_ (E := string)
            (agent_io io_message (write_atomic (agent_leases a)
                                  (path_from (arg_lease_file args))));
          match stated with Ok _ => mret SUCCESS | _ => mret FAILURE end
        | _ => mret FAILURE
        end
      | _ => rollback;; mret FAILURE
      end
    | _ => mret FAILURE
    end
  | _ => mret FAILURE
  end.
End provision.

(** ** Shell quoting *)

(** The value of a shell word: single quotes take everything literally, outside of them a
    backslash quotes the next character and white space ends the word. *)
Fixpoint sh_word (in_quotes : bool) (s : string) : option (string * string) :=
  match s with
  | EmptyString => if in_quotes then None else Some ("", "")
  | String c s' =>
    if in_quotes then
      if Ascii.eqb c "'"%char then sh_word false s'
      else match sh_word true s' with
           | Some (v, rest) => Some (String c v, rest)
           | None => None
           end
    else if Ascii.eqb c "'"%char then sh_word true s'
    else if Ascii.eqb c "\"%char then
      match s' with
      | EmptyString => None
      | String d s'' =>
        match sh_word false s'' with
        | Some (v, rest) => Some (String d v, rest)
        | None => None
        end
      end
    else if Ascii.eqb c "032"%char || Ascii.eqb c "009"%char || Ascii.eqb c "010"%char
    then Some ("", s)
    else match sh_word false s' with
         | Some (v, rest) => Some (String c v, rest)
         | None => None
         end
  end.

Lemma sh_escape_cons c s :
  sh_escape (String c s) =
  if Ascii.eqb c "'"%char then escaped_quote +:+ sh_escape s else String c (sh_escape s).
Proof.
  unfold sh_escape, str_replace. cbn [replace_go]. unfold starts_with.
  change quote with (String "'" ""). cbn [strip_prefix].
  destruct (Ascii.eqb_spec c "'"%char) as [->|Hc].
  - by rewrite decide_True.
  - by rewrite decide_False by congruence.
Qed.

Lemma sh_word_quoted t :
  sh_word true (escaped_quote +:+ t) =
  match sh_word true t with Some (v, rest) => Some (String "'" v, rest) | None => None end.
Proof. done. Qed.
Lemma sh_word_literal c t :
  c ≠ "'"%char → sh_word true (String c t) =
  match sh_word true t with Some (v, rest) => Some (String c v, rest) | None => None end.
Proof. intros Hc. cbn [sh_word]. by rewrite (proj2 (Ascii.eqb_neq _ _) Hc). Qed.

Lemma sh_word_escape value rest :
  sh_word true (sh_escape value +:+ quote +:+ newline +:+ rest) = Some (value, newline +:+ rest).
Proof.
  induction value as [|c value IH]; [done|]. rewrite sh_escape_cons.
  destruct (Ascii.eqb_spec c "'"%char) as [->|Hc].
  - by rewrite <-app_assoc_string, sh_word_quoted, IH.
  - change (String c ?a +:+ ?b) with (String c (a +:+ b)). by rewrite sh_word_literal, IH.
Qed.

(** Exported secrets survive the shell. The line the provisioner writes for a variable
    assigns, when a shell reads it, exactly the secret, whatever characters it holds; the
    rest of the file is left for the next line. *)
Theorem export_line_roundtrip var secret rest :
  ∃ word, export_line var (sh_escape secret) +:+ rest = "export " +:+ var +:+ "=" +:+ word ∧
    sh_word false word = Some (secret, newline +:+ rest).
Proof.
  exists (quote +:+ sh_escape secret +:+ quote +:+ newline +:+ rest). split.
  - unfold export_line. by rewrite !app_assoc_string.
  - apply (sh_word_escape secret rest).
Qed.

(** ** What a run asks of the vault *)

(** A credential as it was acquired. *)
Record Acquired := mkAcquired {
  acq_entry : CredentialEntry;
  acq_grant : LeaseGrant;
  acq_secret : string
}.
Definition acq_id (x : Acquired) : Uuid := LeaseId_as_uuid (grant_lease_id (acq_grant x)).

Definition acq_calls (x : Acquired) : list ApiCall :=
  let e := acq_entry x in
  [CallLease "provisioner" (entry_secret_name e) (entry_target_domain e) (Ok (acq_grant x));
   CallAccess (acq_id x) (entry_target_domain e) (Ok (as_bytes (acq_secret x)))].

Definition mechanism_env (secret : string) (m : InjectMechanism) : string :=
  match m with Env_ var => export_line var (sh_escape secret) | _ => "" end.
Definition str_concat (l : list string) : string := foldr String.append "" l.
Definition acq_env (x : Acquired) : string :=
  str_concat (mechanism_env (acq_secret x) <$> entry_inject (acq_entry x)).
(** The files the [File_] mechanisms of an entry name, with the contents they are given. *)
Definition mechanism_files `{!Home} (secret : string) (m : InjectMechanism)
    : list (Path * string) :=
  match m with
  | File_ path template => [(path_from (expand_tilde path), expand_template template secret)]
  | _ => []
  end.
Definition acq_files `{!Home} (x : Acquired) : list (Path * string) :=
  mjoin (mechanism_files (acq_secret x) <$> entry_inject (acq_entry x)).
(** Files written one after the other: a later one replaces an earlier one. *)
Definition write_files (l : list (Path * string)) (files : gmap Path string)
    : gmap Path string :=
  foldl (λ files pc, <[pc.1 := pc.2]> files) files l.
Definition acq_info `{!UuidText} (x : Acquired) : LeaseInfo :=
  mkLeaseInfo (uuid_to_string (acq_id x)) (grant_expires_at (acq_grant x)).
Definition add_lease `{!UuidText} (st : LeaseState) (x : Acquired) : LeaseState :=
  mkLeaseState (ls_version st)
    (<[entry_target_domain (acq_entry x) := acq_info x]> (ls_leases st)).

Section spec.
Context {St : Type} `{!Env, !StreamIO, !Home, !UuidText, !VaultApi St, !VaultApiLaws St}.
Context `{!Serde LeaseState, !SerdeLaws LeaseState, !Serde CredentialManifest}.
Context `{!SerdeLaws CredentialManifest}.
#[local] Existing Instance logged_VaultApi.
Abbreviation LAgent := (Agent (St * list ApiCall)).
Implicit Types (a : LAgent) (w : World).

Definition agent_log a : list ApiCall := (agent_api a).2.

(** A call only touches the connection. *)
Definition same_work a a' : Prop :=
  agent_env_lines a' = agent_env_lines a ∧ agent_leases a' = agent_leases a ∧
  agent_acquired a' = agent_acquired a.

Lemma agent_call_wp {A} (f : Error → string) (m : M St Error A) (c : outcome Error A → ApiCall)
    a w :
  well_behaved m →
  wp (agent_call f (logged_call m c)) a w (λ r a' w', world_le w w' ∧ same_work a a' ∧
    agent_files a' = agent_files a ∧
    match r with
    | Ok x => agent_log a' = agent_log a ++ [c (Ok x)]
    | Err _ => ∃ e, agent_log a' = agent_log a ++ [c (Err e)]
    | Panic => False
    end).
Proof.
  intros Hm. unfold agent_call. wp_step. wp_step. wp_call logged_call_wp.
  intros r s' w' (Hnp & Hw & Hlog). split; [done|]. split; [done|]. split; [done|].
  unfold agent_log. cbn [agent_api]. destruct r as [x|e|]; cbn [map_err]; eauto.
Qed.

(** Writing files only touches the files. *)
Lemma write_config_wp path content fs w :
  wp (write_config path content) fs w (λ r fs' w', r ≠ Panic ∧ world_le w w' ∧
    (is_ok r = true → fs_files fs' = <[path := content]> (fs_files fs))).
Proof.
  unfold write_config, create_dir_all.
  assert (Hrest : ∀ fs w1, world_le w w1 → wp (fs_write path content;; set_permissions path)
    fs w1 (λ r fs' w', r ≠ Panic ∧ world_le w w' ∧
    (is_ok r = true → fs_files fs' = <[path := content]> (fs_files fs)))).
  { intros fs1 w1 Hw1. wp_step. unfold fs_write, wp at 1.
    destruct (io_fault (w_io w1)); [split; [done|split; [solve_world|done]]|].
    unfold set_permissions. wp_steps; (split; [done|split; [solve_world|]]); [done|].
    intros _. simpl. apply insert_insert_eq. }
  wp_step. destruct (path_parent path).
  - wp_step. wp_step. wp_step; wp_step; [|apply Hrest; solve_world].
    split; [done|split; [solve_world|done]].
  - wp_step. by apply Hrest.
Qed.

Definition agent_disk a : gmap Path string := fs_files (agent_files a).

Lemma write_files_app l1 l2 files :
  write_files (l1 ++ l2) files = write_files l2 (write_files l1 files).
Proof. apply foldl_app. Qed.

Lemma inject_wp secret m a w :
  wp (inject secret m) a w (λ r a' w', world_le w w' ∧ r ≠ Panic ∧
    agent_api a' = agent_api a ∧ agent_acquired a' = agent_acquired a ∧
    agent_leases a' = agent_leases a ∧
    (is_ok r = true → agent_env_lines a' = agent_env_lines a +:+ mechanism_env secret m ∧
       agent_disk a' = write_files (mechanism_files secret m) (agent_disk a))).
Proof.
  destruct m as [var|path template|host]; simpl; [wp_step| |wp_step].
  - do 5 (split; [done|]). done.
  - unfold agent_io. wp_step. wp_step. wp_call write_config_wp.
    intros r fs w' (Hnp & Hw & Hf). split; [done|]. split; [by destruct r|]. do 3 (split; [done|]).
    intros Hok. rewrite app_nil_r_string. split; [done|]. apply Hf. by destruct r.
  - split; [done|]. split; [done|]. do 3 (split; [done|]). intros _.
    by rewrite app_nil_r_string.
Qed.

Lemma inject_all_wp secret ms a w :
  wp (for_each (inject secret) ms) a w (λ r a' w', world_le w w' ∧ r ≠ Panic ∧
    agent_api a' = agent_api a ∧ agent_acquired a' = agent_acquired a ∧
    agent_leases a' = agent_leases a ∧
    (is_ok r = true →
       agent_env_lines a' = agent_env_lines a +:+ str_concat (mechanism_env secret <$> ms) ∧
       agent_disk a' = write_files (mjoin (mechanism_files secret <$> ms)) (agent_disk a))).
Proof.
  revert a w. induction ms as [|m ms IH]; intros a w; simpl.
  { wp_step. split; [done|]. do 4 (split; [done|]). intros _. by rewrite app_nil_r_string. }
  wp_step. wp_call inject_wp. intros [[]|e|] a1 w1 (Hw1 & Hnp & Hapi & Hacq & Hls & Henv);
    [|do 5 (split; [done|]); done|done].
  wp_call IH. intros r a2 w2 (Hw2 & Hnp2 & Hapi2 & Hacq2 & Hls2 & Henv2).
  split; [solve_world|]. split; [done|]. do 3 (split; [congruence|]). intros Hok.
  destruct (Henv eq_refl) as [He Hf], (Henv2 Hok) as [He2 Hf2].
  rewrite He2, He, app_assoc_string. split; [done|]. by rewrite Hf2, Hf, write_files_app.
Qed.

(** What the agent has gathered after acquiring [xs], when its log started as [log] and the
    files were [disk]. *)
Definition gathered (log : list ApiCall) (disk : gmap Path string) (xs : list Acquired) a
    : Prop :=
  agent_log a = log ++ mjoin (acq_calls <$> xs) ∧
  agent_acquired a = acq_id <$> xs ∧
  agent_env_lines a = str_concat (acq_env <$> xs) ∧
  agent_leases a = foldl add_lease LeaseState_new xs ∧
  agent_disk a = write_files (mjoin (acq_files <$> xs)) disk.

(** After a failure: the agent knows every lease it was granted, and has revoked none. *)
Definition tracked (log : list ApiCall) a : Prop :=
  ∃ calls, agent_log a = log ++ calls ∧ revoked calls = [] ∧ agent_acquired a = leased calls.

Lemma str_concat_app l1 l2 : str_concat (l1 ++ l2) = str_concat l1 +:+ str_concat l2.
Proof. induction l1 as [|x l1 IH]; [done|]. simpl. by rewrite IH, app_assoc_string. Qed.

Lemma leased_calls xs : leased (mjoin (acq_calls <$> xs)) = acq_id <$> xs.
Proof.
  induction xs as [|x xs IH]; [done|]. unfold leased in *. simpl.
  change (acq_id x :: omap ?g ?l = acq_id x :: ?r) with (acq_id x :: omap g l = acq_id x :: r).
  by f_equal.
Qed.
Lemma revoked_calls xs : revoked (mjoin (acq_calls <$> xs)) = [].
Proof. induction xs as [|x xs IH]; [done|]. exact IH. Qed.
Lemma gathered_tracked log xs calls a :
  agent_log a = log ++ mjoin (acq_calls <$> xs) ++ calls → revoked calls = [] →
  agent_acquired a = (acq_id <$> xs) ++ leased calls → tracked log a.
Proof.
  intros Hlog Hrev Hacq. exists (mjoin (acq_calls <$> xs) ++ calls).
  split; [done|]. by rewrite revoked_app, leased_app, revoked_calls, leased_calls.
Qed.

Lemma acquire_entry_wp log disk xs entry a w :
  gathered log disk xs a →
  wp (acquire_entry entry) a w (λ r a' w', world_le w w' ∧
    match r with
    | Ok _ => ∃ x, acq_entry x = entry ∧ gathered log disk (xs ++ [x]) a'
    | Err _ => tracked log a'
    | Panic => False
    end).
Proof.
  intros (Hlog & Hacq & Henv & Hls & Hdisk). unfold acquire_entry. cbv zeta. wp_step.
  wp_call (agent_call_wp _ (api_request_lease (St := St) _ _ _) (CallLease _ _ _));
    [apply api_request_lease_ok|].
  intros [g|e|] a1 w1 (Hw1 & (He1 & Hl1 & Ha1) & Hf1 & Hlog1); [| |done].
  2: { split; [done|]. destruct Hlog1 as [e' Hlog1]. eapply (gathered_tracked log xs [_]);
       [by rewrite Hlog1, Hlog, <-app_assoc|done|by rewrite Ha1, Hacq, app_nil_r]. }
  wp_step. wp_step. set (id := LeaseId_as_uuid (grant_lease_id g)).
  wp_step. wp_call (agent_call_wp _ (api_access_secret (St := St) _ _) (CallAccess _ _));
    [apply api_access_secret_ok|].
  intros rb a2 w2 (Hw2 & (He2 & Hl2 & Ha2) & Hf2 & Hlog2).
  assert (Hfail : ∀ c a3, agent_log a3 = agent_log (push_acquired id a1) ++ [CallAccess id
    (entry_target_domain entry) c] → agent_acquired a3 = agent_acquired (push_acquired id a1) →
    tracked log a3).
  { intros c a3 H3 H4. eapply (gathered_tracked log xs [CallLease _ _ _ (Ok g); CallAccess _ _ c]).
    - rewrite H3. unfold agent_log in *. cbn [agent_api push_acquired].
      by rewrite Hlog1, Hlog, <-!app_assoc.
    - done.
    - rewrite H4. cbn [agent_acquired push_acquired]. by rewrite Ha1, Hacq. }
  destruct rb as [b|e|]; [| |done].
  2: { split; [solve_world|]. destruct Hlog2 as [e' Hlog2]. by eapply Hfail. }
  destruct (from_utf8 b) as [secret|] eqn:Hutf; [|wp_step; split; [solve_world|by eapply Hfail]].
  wp_step. wp_step. wp_call inject_all_wp.
  intros r a3 w3 (Hw3 & Hnp & Hapi3 & Hacq3 & Hls3 & Henv3). split; [solve_world|].
  assert (Hlog3 : agent_log a3 = agent_log a2) by (unfold agent_log; by rewrite Hapi3).
  destruct r as [[]|e|]; [| |done].
  2: { eapply Hfail; [by rewrite Hlog3|by rewrite Hacq3]. }
  exists (mkAcquired entry g secret). split; [done|]. unfold gathered.
  destruct (Henv3 eq_refl) as [Henv3' Hdisk3].
  rewrite !fmap_app, foldl_app, str_concat_app. split; [|split; [|split; [|split]]].
  - rewrite Hlog3, Hlog2. unfold agent_log in *. cbn [agent_api push_acquired].
    rewrite Hlog1, Hlog, join_app, <-!app_assoc. simpl.
    unfold acq_calls. cbn [acq_entry acq_grant acq_secret]. by rewrite (from_utf8_Some _ _ Hutf).
  - rewrite Hacq3. cbn [push_lease agent_acquired]. rewrite Ha2. cbn [push_acquired agent_acquired].
    by rewrite Ha1, Hacq.
  - rewrite Henv3'. cbn [push_lease agent_env_lines]. rewrite He2.
    cbn [push_acquired agent_env_lines]. rewrite He1, Henv. simpl. by rewrite app_nil_r_string.
  - rewrite Hls3. cbn [push_lease agent_leases]. rewrite Hl2. cbn [push_acquired agent_leases].
    by rewrite Hl1, Hls.
  - rewrite Hdisk3. unfold agent_disk in *. cbn [push_lease agent_files]. rewrite Hf2.
    cbn [push_acquired agent_files]. rewrite Hf1, Hdisk, join_app, write_files_app. simpl.
    by rewrite app_nil_r.
Qed.

Lemma acquire_credentials_wp log disk manifest a w :
  gathered log disk [] a →
  wp (acquire_credentials manifest) a w (λ r a' w', world_le w w' ∧
    match r with
    | Ok _ => ∃ xs, acq_entry <$> xs = manifest_credentials manifest ∧ gathered log disk xs a'
    | Err _ => tracked log a'
    | Panic => False
    end).
Proof.
  intros Ha. unfold acquire_credentials.
  apply (wp_for_each _ _ (λ rest a' w', world_le w w' ∧ ∃ xs,
    manifest_credentials manifest = (acq_entry <$> xs) ++ rest ∧ gathered log disk xs a')).
  - split; [done|]. by exists [].
  - intros entry rest a1 w1 (Hw1 & xs & Heq & Hg). wp_call acquire_entry_wp.
    intros [[]|e|] a2 w2 [Hw2 Hr]; [|split; [solve_world|done]|done].
    split; [solve_world|]. destruct Hr as (x & <- & Hg'). exists (xs ++ [x]).
    split; [|done]. by rewrite fmap_app, <-app_assoc.
  - intros a1 w1 (Hw1 & xs & Heq & Hg). split; [done|]. exists xs. split; [|done].
    by rewrite Heq, app_nil_r.
Qed.

Lemma rollback_wp a w :
  wp rollback a w (λ r a' w', r = Ok tt ∧ world_le w w' ∧ agent_files a' = agent_files a ∧
    agent_log a' = agent_log a ++ ((λ i, CallRevoke i AdminRevoked) <$> agent_acquired a)).
Proof.
  unfold rollback. wp_step. wp_step. generalize (agent_acquired a) as ids. intros ids.
  apply (wp_for_each _ _ (λ rest a' w', world_le w w' ∧ agent_files a' = agent_files a ∧
    ∃ done_, ids = done_ ++ rest ∧
      agent_log a' = agent_log a ++ ((λ i, CallRevoke i AdminRevoked) <$> done_))).
  - split; [done|]. split; [done|]. exists []. by rewrite app_nil_r.
  - intros i rest a1 w1 (Hw1 & Hf & done_ & -> & Hlog). wp_step. wp_step.
    wp_call (agent_call_wp _ (api_revoke_lease (St := St) i AdminRevoked)
               (λ _, CallRevoke i AdminRevoked)); [apply api_revoke_lease_ok|].
    intros r a2 w2 (Hw2 & _ & Hf2 & Hlog2).
    assert (Hl : agent_log a2 = agent_log a1 ++ [CallRevoke i AdminRevoked])
      by (destruct r; naive_solver).
    destruct r as [[]|e|]; [| |done]; wp_step;
      (split; [solve_world|]); (split; [congruence|]); exists (done_ ++ [i]);
      (split; [by rewrite <-app_assoc|]); by rewrite Hl, Hlog, fmap_app, <-app_assoc.
  - intros a1 w1 (Hw1 & Hf & done_ & -> & Hlog). by rewrite app_nil_r.
Qed.

Lemma leased_revokes ids : leased ((λ i, CallRevoke i AdminRevoked) <$> ids) = [].
Proof. by induction ids. Qed.
Lemma revoked_revokes ids : revoked ((λ i, CallRevoke i AdminRevoked) <$> ids) = ids.
Proof. induction ids as [|i ids IH]; [done|]. unfold revoked in *. simpl. by f_equal. Qed.

Lemma manifest_from_file_wp path fs w :
  wp (CredentialManifest_from_file path) fs w (λ r fs' w', world_le w w' ∧ fs' = fs ∧
    match r with
    | Ok m => ∃ text, fs_files fs !! path = Some text ∧ from_json text = Ok m
    | Err _ => True
    | Panic => False
    end).
Proof.
  unfold CredentialManifest_from_file, read_to_string.
  wp_steps; (split; [solve_world|]); (split; [done|]); try done;
    lazymatch goal with H : map_err _ (from_json ?c) = _ |- _ =>
      pose proof (from_json_no_panic (A := CredentialManifest) c);
      destruct (from_json c) eqn:Hj; simplify_eq/= end.
  eexists. split; [reflexivity|].
  match goal with H : from_utf8 (as_bytes ?c) = Some ?s |- _ =>
    replace c with s; [done|]; rewrite <-(from_as_bytes s), (from_utf8_Some _ _ H);
    apply from_as_bytes end.
Qed.
End spec.

(** ** A provisioning run *)

(** The agent of a new process: nothing asked, nothing gathered. *)
Definition fresh_agent {St} (a : Agent (St * list ApiCall)) : Prop :=
  agent_log a = [] ∧ agent_acquired a = [] ∧ agent_env_lines a = "" ∧
  agent_leases a = LeaseState_new.

(** The manifest read at the start, and a run that acquired all of its entries, as [xs]. *)
Definition acquired_all {St} `{!Home, !Serde CredentialManifest} (args : ProvisionArgs)
    (a a' : Agent (St * list ApiCall)) (xs : list Acquired) : Prop :=
  ∃ text manifest, fs_files (agent_files a) !! path_from (arg_manifest args) = Some text ∧
    from_json text = Ok manifest ∧ acq_entry <$> xs = manifest_credentials manifest ∧
    agent_log a' = CallConnect (Some (arg_token args)) :: mjoin (acq_calls <$> xs).

(** The contents of the env file and of the lease file for the credentials [xs]. *)
Definition env_content (args : ProvisionArgs) (self_path : string) (xs : list Acquired)
    : string := str_concat (acq_env <$> xs) +:+ env_trailer args self_path.
Definition lease_content `{!UuidText} (xs : list Acquired) : LeaseState :=
  foldl add_lease LeaseState_new xs.

(** The files a successful run leaves behind: the env file, the lease file, every file a
    [File_] mechanism names, and the others as they were. *)
Definition files_written {St} `{!Home, !UuidText, !Serde LeaseState} (args : ProvisionArgs)
    (self_path : string) (xs : list Acquired) (a a' : Agent (St * list ApiCall)) : Prop :=
  let files := fs_files (agent_files a') in
  let env_path := path_from (arg_env_file args) in
  let lease_path := path_from (arg_lease_file args) in
  files !! env_path = Some (env_content args self_path xs) ∧
  (∃ json, to_json (lease_content xs) = Ok json ∧ files !! lease_path = Some json) ∧
  ∀ p, p ≠ env_path → p ≠ lease_path → p ≠ with_extension lease_path "tmp" →
    files !! p = write_files (mjoin (acq_files <$> xs)) (fs_files (agent_files a)) !! p.

(** The run ended with the write of a result file that reported an error: that of the env
    file, or that of the lease file after it. *)
Definition write_failed {St} `{!Env, !StreamIO, !Home, !UuidText, !Serde LeaseState}
    (args : ProvisionArgs) (self_path : string) (xs : list Acquired)
    (a' : Agent (St * list ApiCall)) (w' : World) : Prop :=
  ∃ fs w r fs1 w1,
    write_env_file (path_from (arg_env_file args)) (env_content args self_path xs) fs w =
      (r, fs1, w1) ∧
    match r with
    | Ok _ => ∃ e, write_atomic (lease_content xs) (path_from (arg_lease_file args)) fs1 w1 =
        (Err e, agent_files a', w')
    | _ => fs1 = agent_files a' ∧ w1 = w'
    end.

Section run.
Context {St : Type} `{!Env, !StreamIO, !Home, !UuidText, !VaultApi St, !VaultApiLaws St}.
Context `{!Serde LeaseState, !SerdeLaws LeaseState, !SerdeUtf8 LeaseState}.
Context `{!Serde CredentialManifest, !SerdeLaws CredentialManifest}.
#[local] Existing Instance logged_VaultApi.
Implicit Types (a : Agent (St * list ApiCall)) (w : World).

(** The agent at the start of the run. *)
Variable a0 : Agent (St * list ApiCall).

(** The end of a run that has acquired everything: the env file, then the lease file. *)
Lemma write_results_wp args self_path xs a w :
  let env_path := path_from (arg_env_file args) in
  let lease_path := path_from (arg_lease_file args) in
  with_extension lease_path "tmp" ≠ lease_path →
  env_path ≠ lease_path → env_path ≠ with_extension lease_path "tmp" →
  agent_env_lines a = env_content args self_path xs → agent_leases a = lease_content xs →
  agent_disk a = write_files (mjoin (acq_files <$> xs)) (agent_disk a0) →
  wp (E := string) (
    written ← try_ (E := string) (agent_io io_message (write_env_file env_path (agent_env_lines a)));
    match written with
    | Ok _ =>
      stated ← try_ (E := string) (agent_io io_message (write_atomic (agent_leases a) lease_path));
      match stated with Ok _ => mret SUCCESS | _ => mret FAILURE end
    | _ => mret FAILURE
    end) a w (λ r a' w', agent_log a' = agent_log a ∧
    match r with
    | Ok SUCCESS => files_written args self_path xs a0 a'
    | Ok FAILURE => write_failed args self_path xs a' w'
    | _ => False
    end).
Proof.
  intros env_path lease_path Htmp Hne Hne' Hlines Hls Hdisk. unfold agent_io.
  wp_step. wp_step. wp_step. wp_step.
  eapply wp_mono; [apply wp_self, write_config_wp|].
  intros [[]|e|] fs w1 (Hrun & Hnp & _ & Henv); [| |done]; cbn [map_err].
  2: { wp_step. split; [done|]. rewrite Hlines in Hrun. repeat eexists; [exact Hrun|done..]. }
  wp_step. wp_step. wp_step. wp_step.
  eapply wp_mono; [apply wp_self, write_atomic_wp, Htmp|].
  intros [[]|e|] fs' w2 (Hrun' & _ & Hnp' & _ & Hother & Hr); [| |done]; cbn [map_err]; wp_step;
    (split; [done|]); cbn [agent_files agent_leases] in *.
  - specialize (Henv eq_refl). rewrite Hls in Hr. split; [|split; [done|]]; simpl.
    + rewrite Hother, Henv by done. rewrite lookup_insert_eq. by rewrite Hlines.
    + intros p ? ? ?. rewrite Hother, Henv, lookup_insert_ne by done.
      change (fs_files (agent_files a)) with (agent_disk a). by rewrite Hdisk.
  - rewrite Hlines in Hrun. rewrite Hls in Hrun'. repeat eexists; [exact Hrun|]. by eexists.
Qed.

Lemma provision_run_wp args self_path w :
  with_extension (path_from (arg_lease_file args)) "tmp" ≠ path_from (arg_lease_file args) →
  path_from (arg_env_file args) ≠ path_from (arg_lease_file args) →
  path_from (arg_env_file args) ≠ with_extension (path_from (arg_lease_file args)) "tmp" →
  fresh_agent a0 →
  wp (provision_run args self_path) a0 w (λ r a' w',
    match r with
    | Ok SUCCESS => ∃ xs, acquired_all args a0 a' xs ∧ files_written args self_path xs a0 a'
    | Ok FAILURE => revoked (agent_log a') = leased (agent_log a') ∨
        ∃ xs, acquired_all args a0 a' xs ∧ write_failed args self_path xs a' w'
    | _ => False
    end).
Proof.
  intros Htmp Hne Hne' (Hlog & Hacq & Henv & Hls). unfold provision_run.
  wp_step. wp_step. unfold agent_io at 1. wp_step. wp_step. wp_call manifest_from_file_wp.
  intros [manifest|e|] fs w1 (_ & -> & Hm); cbn [map_err]; [| |done].
  2: { wp_step. left. unfold agent_log in *. simpl. by rewrite Hlog. }
  destruct Hm as (text & Htext & Hjson).
  set (a1 := mkAgent (agent_api a0) (agent_files a0) _ _ _).
  wp_step. wp_step. wp_call (agent_call_wp _ (api_connect (St := St) _)
    (λ _, CallConnect (Some (arg_token args)))); [apply api_connect_ok|].
  intros rc a2 w2 (_ & (He2 & Hl2 & Ha2) & Hf2 & Hlog2).
  assert (Hlog2' : agent_log a2 = [CallConnect (Some (arg_token args))]).
  { replace (agent_log a1) with (@nil ApiCall) in Hlog2 by (unfold agent_log; simpl; done).
    destruct rc; naive_solver. }
  destruct rc as [[]|e|]; [| |done].
  2: { wp_step. left. by rewrite Hlog2'. }
  wp_step. wp_step.
  wp_call (acquire_credentials_wp [CallConnect (Some (arg_token args))] (agent_disk a0)).
  { split; [by rewrite Hlog2', app_nil_r|]. rewrite Ha2, He2, Hl2. unfold agent_disk.
    by rewrite Hf2. }
  intros [[]|e|] a3 w3 [_ Hr]; [| |done].
  - destruct Hr as (xs & Hxs & Hlog3 & Hacq3 & Henv3 & Hls3 & Hd3).
    wp_step. wp_step. wp_step. wp_step.
    wp_call (write_results_wp args self_path xs);
      [cbn [push_env agent_env_lines]; by rewrite Henv3|].
    intros r a4 w4 [Hlog4 Hr4].
    assert (Hall : acquired_all args a0 a4 xs).
    { exists text, manifest. do 3 (split; [done|]). rewrite Hlog4. exact Hlog3. }
    destruct r as [[]|e|]; [| |done|done]; eauto.
  - wp_step. wp_call rollback_wp. intros r a4 w4 (-> & _ & _ & Hlog4). wp_step. left.
    destruct Hr as (calls & Hc & Hrev & Hacq3).
    rewrite Hlog4, Hc, !revoked_app, !leased_app, leased_revokes, revoked_revokes, Hrev, Hacq3.
    rewrite !app_nil_r. reflexivity.
Qed.
End run.

(** C9. Provisioning delivers everything or gives everything back. The env file is taken to
    be neither the lease file nor its temporary file, and the lease file not to be its own
    temporary file. Whatever the vault answers and whatever call fails, a run ends with an
    exit code. On success the vault was asked, in the order of the manifest, for a lease and
    the secret of every entry and for nothing else; the env file exports exactly the secrets
    of those entries, escaped, the lease file lists their leases, and every file a [File_]
    mechanism names (and that is none of those three) holds its template with the secret
    filled in, the last one where two name the same file, all other files being as before.
    On failure every lease that was granted has been asked to be revoked, unless every entry
    was acquired and the run stopped at a write of the env file or of the lease file that
    returned an error. *)
Theorem provision_all_or_nothing {St : Type} `{!Env, !StreamIO, !Home, !UuidText, !VaultApi St,
    !VaultApiLaws St, !Serde LeaseState, !SerdeLaws LeaseState, !SerdeUtf8 LeaseState,
    !Serde CredentialManifest, !SerdeLaws CredentialManifest} args self_path
    (a a' : Agent (St * list ApiCall)) w r w' :
  with_extension (path_from (arg_lease_file args)) "tmp" ≠ path_from (arg_lease_file args) →
  path_from (arg_env_file args) ≠ path_from (arg_lease_file args) →
  path_from (arg_env_file args) ≠ with_extension (path_from (arg_lease_file args)) "tmp" →
  fresh_agent a →
  provision_run (VaultApi0 := logged_VaultApi) args self_path a w = (r, a', w') →
  ∃ code, r = Ok code ∧
  match code with
  | SUCCESS => ∃ xs, acquired_all args a a' xs ∧ files_written args self_path xs a a'
  | FAILURE => revoked (agent_log a') = leased (agent_log a') ∨
      ∃ xs, acquired_all args a a' xs ∧ write_failed args self_path xs a' w'
  end.
Proof.
  intros Htmp Hne Hne' Ha Hrun.
  pose proof (wp_run _ _ _ _ _ _ _ (provision_run_wp a args self_path w Htmp Hne Hne' Ha) Hrun)
    as Hr. destruct r as [[]|e|]; [| |done|done]; eexists; eauto.
Qed.

(** ** Witnesses *)

#[global] Instance InjectMechanism_eq_dec : EqDecision InjectMechanism.
Proof. solve_decision. Defined.
#[global] Instance CredentialEntry_eq_dec : EqDecision CredentialEntry.
Proof. solve_decision. Defined.
#[global] Instance CredentialManifest_eq_dec : EqDecision CredentialManifest.
Proof. solve_decision. Defined.

Definition demo_manifest : CredentialManifest :=
  mkCredentialManifest [mkCredentialEntry "gh" "github.com"
    [Env_ "GH_TOKEN"; File_ "~/.npmrc" "token=${SECRET}"; GitCredential "github.com"]].
Definition demo_args : ProvisionArgs :=
  mkProvisionArgs "10.0.2.2:9100" "tok" "/etc/zerolease/credentials.json" "/etc/zerolease/env"
    "/var/run/zerolease/leases.json" None.
Definition demo_Home : Home := {| cwd := ["root"]; home := Some "/root" |}.
Definition demo_provisioner : Agent (unit * list ApiCall) :=
  mkAgent (tt, []) (mkFileSystem {[["etc"; "zerolease"; "credentials.json"] := "manifest"]} []) ""
    LeaseState_new [].
Definition provisioned_state : LeaseState :=
  mkLeaseState LEASE_STATE_VERSION {["github.com" := mkLeaseInfo "+" (900 * NANOS)]}.

Module DemoProvision.
#[export] Existing Instance demo_StreamIO.
#[export] Existing Instance demo_Home.
#[export] Existing Instance demo_UuidText.
#[export] Existing Instance demo_VaultApi.
#[export] Instance demo_Serde_manifest : Serde CredentialManifest :=
  single_Serde demo_manifest "manifest".
#[export] Instance demo_Serde_provisioned : Serde LeaseState :=
  single_Serde provisioned_state "leases".
End DemoProvision.
Import DemoProvision.

Definition demo_provision (env : Env) :=
  provision_run (VaultApi0 := logged_VaultApi) demo_args "zerolease-agent" demo_provisioner demo_world.

Lemma provision_all_or_nothing_witness :
  ∃ a' w', demo_provision demo_Env = (Ok SUCCESS, a', w') ∧
    fs_files (agent_files a') !! ["root"; ".npmrc"] = Some "token=it's" ∧
    ∃ xs, acquired_all demo_args demo_provisioner a' xs ∧
      files_written demo_args "zerolease-agent" xs demo_provisioner a'.
Proof.
  assert (Hok : (demo_provision demo_Env).1.1 = Ok SUCCESS) by (vm_compute; reflexivity).
  assert (Hf : fs_files (agent_files (demo_provision demo_Env).1.2) !! ["root"; ".npmrc"] =
    Some "token=it's") by (vm_compute; reflexivity).
  destruct (demo_provision demo_Env) as [[r a'] w'] eqn:Hrun. simpl in Hok, Hf. subst r.
  exists a', w'. split; [reflexivity|]. split; [exact Hf|].
  destruct (@provision_all_or_nothing unit demo_Env _ _ _ _ demo_VaultApiLaws _
    (single_SerdeLaws _ _) (single_SerdeUtf8 provisioned_state "leases" eq_refl) _
    (single_SerdeLaws demo_manifest "manifest") demo_args "zerolease-agent" demo_provisioner a'
      demo_world (Ok SUCCESS) w') as (code & [= <-] & Hs);
    [by vm_compute|by vm_compute|by vm_compute|repeat split|exact Hrun|exact Hs].
Defined.

(** When the env file cannot be written the leases that were acquired stay, and the run
    does not ask for their revocation. *)
Definition full_disk_Env : Env := {|
  clock := clock (Env := demo_Env);
  now_v7 := now_v7 (Env := demo_Env);
  os_rng := os_rng (Env := demo_Env);
  io_fault := λ i, if decide (4 ≤ i)%nat then Some "disk full" else None
|}.
Theorem provision_keeps_leases_on_write_failure :
  let '(r, a', _) := demo_provision full_disk_Env in
  r = Ok FAILURE ∧ leased (agent_log a') = [1%N] ∧ revoked (agent_log a') = [].
Proof. vm_compute. done. Qed.
