(* ===== verification/GitHelper.v ===== *)
(** The git credential helper of the agent: [zerolease-agent/src/git_credential.rs] and
    [cmd_credential_fill] of [zerolease-agent/src/main.rs].

    Git starts the helper with a request on its standard input; the helper answers on its
    standard output with a secret it leases from the vault. *)
From Stdlib Require Import Strings.Ascii.
From S2P Require Import Prelude Text Concrete Types Lease Session Store Auth AuditEvents.
From S2P Require Import KeySource Frame LeaseState AgentProxy Protocol Client AgentApi Provision.

Local Open Scope string_scope.
Local Open Scope Z_scope.
Local Open Scope list_scope.

(** ** The request *)

Record CredentialRequest := mkCredentialRequest {
  cr_protocol : option string;
  cr_host : option string;
  cr_path : option string;
  cr_username : option string
}.
Definition CredentialRequest_default : CredentialRequest := mkCredentialRequest None None None None.

(** The [match key] of the parser. *)
Definition set_field (key value : string) (req : CredentialRequest) : CredentialRequest :=
  let '(mkCredentialRequest p h t u) := req in
  if str_eqb key "protocol" then mkCredentialRequest (Some value) h t u
  else if str_eqb key "host" then mkCredentialRequest p (Some value) t u
  else if str_eqb key "path" then mkCredentialRequest p h (Some value) u
  else if str_eqb key "username" then mkCredentialRequest p h t (Some value)
  else req.

Section parse.
Context `{!Env}.

(** The loop of the parser; an iteration consumes a line, so it ends within the number of
    bytes of the input ([git_parse_ends]). *)
Fixpoint parse_loop (fuel : nat) (req : CredentialRequest)
    : M Stream IoError CredentialRequest :=
  match fuel with
  | O => panic
  | S fuel' =>
    line ← read_line;
    if (str_len line =? 0) || is_blank line then mret req
    else
      let trimmed := trim line in
      parse_loop fuel'
        match split_once "="%char trimmed with
        | Some (key, value) => set_field key value req
        | None => req
        end
  end.

Definition CredentialRequest_parse : M Stream IoError CredentialRequest :=
  reader ← read;
  parse_loop (S (length (incoming reader))) CredentialRequest_default.
End parse.

Definition write_credential `{!Env, !StreamIO} (username password : string)
    : M Stream IoError unit :=
  map_err_m IoOther (
    write_all (as_bytes ("username=" +:+ username +:+ newline));;
    write_all (as_bytes ("password=" +:+ password +:+ newline));;
    write_all (as_bytes newline);;
    flush).

(** ** Answering it *)

(** [str::parse] to a [std::net::SocketAddr]. *)
Class SocketAddrText := parse_socket_addr : string → option SocketAddr.

(** The helper's process: its connection, the files, standard input and output. *)
Record Helper (St : Type) := mkHelper {
  helper_api : St;
  helper_files : FileSystem;
  helper_stdio : Stream
}.
Arguments mkHelper {St}.
Arguments helper_api {St}.
Arguments helper_files {St}.
Arguments helper_stdio {St}.

Section helper.
Context {St : Type} `{!Env, !StreamIO, !Home, !ProcEnv, !SocketAddrText, !UuidText, !VaultApi St}.
Context `{!Serde CredentialManifest}.

Definition helper_call {A} (m : M St Error A) : M (Helper St) string A :=
  zoom helper_api (λ s h, mkHelper s (helper_files h) (helper_stdio h))
    (map_err_m Error_to_string m).
Definition on_stdio {A} (m : M Stream IoError A) : M (Helper St) string A :=
  zoom helper_stdio (λ s h, mkHelper (helper_api h) (helper_files h) s) (map_err_m io_message m).
Definition helper_file {A} (m : M FileSystem IoError A) : M (Helper St) string A :=
  zoom helper_files (λ fs h, mkHelper (helper_api h) fs (helper_stdio h)) (map_err_m io_message m).

Definition handle_get (request : CredentialRequest) (host_map : gmap string (string * string))
    (token : string) : M (Helper St) string bool :=
  match cr_host request with
  | None => mret false
  | Some host =>
    match host_map !! host with
    | None => mret false
    | Some (secret_name, target_domain) =>
      helper_call (api_connect (Some token));;
      grant ← helper_call (api_request_lease "credential-helper" secret_name target_domain);
      secret_bytes ← helper_call
        (api_access_secret (LeaseId_as_uuid (grant_lease_id grant)) target_domain);
      secret ← ok_or (from_utf8 secret_bytes) "secret is not UTF-8";
      on_stdio (write_credential "x-access-token" secret);;
      mret true
    end
  end.

Definition cmd_credential_fill (operation manifest_path : string)
    : M (Helper St) string ExitCode :=
  if negb (str_eqb operation "get") then mret SUCCESS else
  request ← try_ (E := string) (on_stdio CredentialRequest_parse);
  match request with
  | Ok request =>
    match (env_var "ZEROLEASE_VAULT_ADDR" ≫= parse_socket_addr) with
    | None => mret FAILURE
    | Some _ =>
      match env_var "ZEROLEASE_CREDENTIAL_TOKEN" with
      | None => mret FAILURE
      | Some token =>
        manifest ← try_ (E := string)
          (helper_file (CredentialManifest_from_file (path_from manifest_path)));
        match manifest with
        | Ok manifest =>
          r ← try_ (E := string) (handle_get request (git_host_map manifest) token);
          match r with Ok _ => mret SUCCESS | _ => mret FAILURE end
        | _ => mret FAILURE
        end
      end
    end
  | _ => mret FAILURE
  end.
End helper.

(** ** Reading a request *)

(** What git writes: a line per attribute, then a blank line. *)
Definition attribute (key : string) (value : option string) : string :=
  match value with Some v => key +:+ "=" +:+ v +:+ newline | None => "" end.
Definition git_request (req : CredentialRequest) : string :=
  attribute "protocol" (cr_protocol req) +:+ attribute "host" (cr_host req)
  +:+ attribute "path" (cr_path req) +:+ attribute "username" (cr_username req) +:+ newline.

(** A value without white space, in ASCII. *)
Definition plain (value : option string) : bool :=
  match value with Some v => forallb token_byte (as_bytes v) | None => true end.
Definition plain_request (req : CredentialRequest) : bool :=
  plain (cr_protocol req) && plain (cr_host req) && plain (cr_path req) && plain (cr_username req).

Section parse_facts.
Context `{!Env}.

Lemma read_line_consumes s w :
  wp read_line s w (λ r s' w', world_le w w' ∧ r ≠ Panic ∧ outgoing s' = outgoing s ∧
    ∀ line, r = Ok line → length (incoming s) = (String.length line + length (incoming s'))%nat).
Proof.
  unfold read_line. wp_step. wp_step. wp_step. wp_step. wp_step.
  - wp_step. split; [solve_world|]. done.
  - wp_step. wp_step. destruct (from_utf8 _) as [line|] eqn:Hl; wp_step;
      (split; [solve_world|]); (split; [done|]); (split; [done|]); [|done].
    intros ? [= <-]. rewrite <-length_as_bytes, (from_utf8_Some _ _ Hl). simpl.
    rewrite <-length_app, take_drop. done.
Qed.

(** More fuel than there are bytes to read is enough, and what is enough gives the same
    result as any other fuel that is. *)
Lemma parse_loop_wp fuel fuel' req s w :
  (length (incoming s) < fuel)%nat → (length (incoming s) < fuel')%nat →
  wp (parse_loop fuel req) s w (λ r s' w', r ≠ Panic ∧ world_le w w' ∧
    outgoing s' = outgoing s ∧ parse_loop fuel' req s w = (r, s', w')).
Proof.
  revert fuel' req s w. induction fuel as [|fuel IH]; intros [|fuel'] req s w Hn Hn'; try lia.
  cbn [parse_loop]. wp_step. apply run_wp. intros r s1 w1 Hrun.
  destruct (wp_run _ _ _ _ _ _ _ (read_line_consumes s w) Hrun) as (Hw & Hnp & Ho & Hlen).
  rewrite (bind_run _ _ _ _ _ _ _ Hrun). destruct r as [line|e|]; [|by split_and!|done].
  destruct ((str_len line =? 0) || is_blank line) eqn:Hend; [by wp_step; split_and!|]. cbv zeta.
  apply orb_false_elim in Hend as [Hl _]. apply Z.eqb_neq in Hl. unfold str_len in Hl.
  specialize (Hlen line eq_refl). eapply wp_mono; [apply (IH fuel'); lia|].
  intros r s2 w2 (? & ? & ? & ?). split; [done|]. split; [solve_world|]. split; [congruence|done].
Qed.

Lemma CredentialRequest_parse_wp s w :
  wp CredentialRequest_parse s w (λ r s' _, r ≠ Panic ∧ outgoing s' = outgoing s).
Proof.
  unfold CredentialRequest_parse. wp_step. wp_step.
  wp_call (parse_loop_wp _ (S (length (incoming s)))); [lia..|]. intros r s' w'. tauto.
Qed.
End parse_facts.

Section roundtrip.
Context `{!Env, !StreamIO, !Reliable}.

(** The parser, started with [req] on [input], ends with [req'] and leaves [rest]. *)
Definition parses (req : CredentialRequest) (input : bytes) (req' : CredentialRequest)
    (rest : bytes) : Prop :=
  ∀ fuel o w, (length input < fuel)%nat →
    ∃ w', parse_loop fuel req (mkStream input o) w = (Ok req', mkStream rest o, w').

Lemma parses_end req rest : parses req (as_bytes newline ++ rest) req rest.
Proof.
  intros [|fuel] o w Hf; [lia|]. cbn [parse_loop].
  rewrite (bind_run _ _ _ _ _ _ _ (read_line_run newline [] rest o w eq_refl
    ltac:(apply not_elem_of_nil) eq_refl)). by eexists.
Qed.

Lemma parses_attribute key value req req' input rest :
  key ∈ ["protocol"; "host"; "path"; "username"] → plain value = true →
  parses (match value with Some v => set_field key v req | None => req end) input req' rest →
  parses req (as_bytes (attribute key value) ++ input) req' rest.
Proof.
  intros Hkey Hv Hrest. destruct value as [v|]; [|done]. cbn [attribute plain] in *.
  assert (Hk : forallb token_byte (as_bytes key) = true ∧ key ≠ "" ∧
    contains "=" key = false).
  { rewrite !elem_of_cons, elem_of_nil in Hkey. naive_solver. }
  destruct Hk as (Htk & Hne & Heq).
  set (s := key +:+ "=" +:+ v).
  assert (Hs : forallb token_byte (as_bytes s) = true).
  { unfold s. rewrite !as_bytes_app, !forallb_app, Htk, Hv. done. }
  assert (Hsne : s ≠ "") by (by destruct key).
  assert (Hline : key +:+ "=" +:+ v +:+ newline = s +:+ newline)
    by (unfold s; by rewrite !app_assoc_string).
  rewrite Hline. intros [|fuel] o w Hf; [lia|]. cbn [parse_loop].
  rewrite (bind_run _ _ _ _ _ _ _ (read_line_run (s +:+ newline) (as_bytes s) input o w
    (as_bytes_app _ _) (token_not_newline _ Hs) (line_ascii s Hs))).
  rewrite line_not_blank, orb_false_r by done. cbv zeta.
  rewrite trim_line by done. change s with (key +:+ String "=" v) at 2.
  rewrite split_once_app by done.
  destruct (Z.eqb_spec (str_len (s +:+ newline)) 0) as [Hz|_].
  { unfold str_len in Hz. rewrite length_app_string in Hz. simpl in Hz. lia. }
  apply Hrest. rewrite length_app, length_as_bytes, length_app_string in Hf. simpl in Hf. lia.
Qed.
End roundtrip.

(** The helper understands git. A request git writes, with plain attribute values, is
    read back as it is, up to its blank line; and whatever the input, the parser returns,
    with a request or an I/O error, and writes nothing. *)
Theorem git_request_roundtrip `{!Env, !StreamIO} :
  (∀ s w, wp CredentialRequest_parse s w (λ r s' _, r ≠ Panic ∧ outgoing s' = outgoing s)) ∧
  (Reliable → ∀ req rest o w, plain_request req = true →
     ∃ w', CredentialRequest_parse (mkStream (as_bytes (git_request req) ++ rest) o) w =
           (Ok req, mkStream rest o, w')).
Proof.
  split.
  - apply CredentialRequest_parse_wp.
  - intros Hrel [p h t u] rest o w Hp. unfold plain_request in Hp. simpl in Hp.
    rewrite !andb_true_iff in Hp. destruct Hp as (((Hp & Hh) & Ht) & Hu).
    unfold git_request. cbn [cr_protocol cr_host cr_path cr_username].
    assert (Hparse : parses CredentialRequest_default (as_bytes (attribute "protocol" p +:+
      attribute "host" h +:+ attribute "path" t +:+ attribute "username" u +:+ newline) ++ rest)
      (mkCredentialRequest p h t u) rest).
    { rewrite !as_bytes_app, <-!app_assoc.
      do 4 (apply parses_attribute; [by apply (bool_decide_unpack _)|done|]).
      destruct p, h, t, u; apply parses_end. }
    unfold CredentialRequest_parse, mbind, M_bind, read. apply Hparse. simpl. lia.
Qed.

(** ** What the helper asks for and prints *)

Definition credential_text (secret : string) : string :=
  ("username=" +:+ "x-access-token" +:+ newline) +:+ ("password=" +:+ secret +:+ newline) +:+ newline.

Lemma write_credential_wp `{!Env, !StreamIO} secret s w :
  wp (write_credential "x-access-token" secret) s w (λ r s' w', world_le w w' ∧ r ≠ Panic ∧
    incoming s' = incoming s ∧
    ∃ out, outgoing s' = outgoing s ++ out ∧ out `prefix_of` as_bytes (credential_text secret) ∧
      (is_ok r = true → out = as_bytes (credential_text secret))).
Proof.
  assert (Hw : ∀ data s w, wp (write_all data) s w (λ r s' w', world_le w w' ∧ r ≠ Panic ∧
    incoming s' = incoming s ∧ ∃ out, outgoing s' = outgoing s ++ out ∧ out `prefix_of` data ∧
      (is_ok r = true → out = data))).
  { intros data s0 w0. unfold wp, write_all. destruct (io_fault (w_io w0)).
    - split; [solve_world|]. do 2 (split; [done|]). eexists. split; [done|].
      split; [apply prefix_take|done].
    - split; [solve_world|]. do 2 (split; [done|]). by exists data. }
  unfold credential_text. rewrite as_bytes_app, (as_bytes_app ("password=" +:+ _)).
  set (a := as_bytes ("username=" +:+ "x-access-token" +:+ newline)).
  set (b := as_bytes ("password=" +:+ secret +:+ newline)). set (c := as_bytes newline).
  unfold write_credential. wp_step. wp_step. wp_call Hw.
  intros [[]|e|] s1 w1 (Hw1 & Hnp1 & Hi1 & o1 & Ho1 & Hp1 & Hok1); [| |done].
  2: { cbn [map_err]. do 3 (split; [done|]). exists o1. split; [done|]. split; [|done].
       by apply prefix_app_r. }
  specialize (Hok1 eq_refl) as ->. wp_step. wp_call Hw.
  intros [[]|e|] s2 w2 (Hw2 & Hnp2 & Hi2 & o2 & Ho2 & Hp2 & Hok2); [| |done].
  2: { cbn [map_err]. split; [solve_world|]. split; [done|]. split; [congruence|].
       exists (a ++ o2). split; [by rewrite Ho2, Ho1, app_assoc|]. split; [|done].
       apply prefix_app. by apply prefix_app_r. }
  specialize (Hok2 eq_refl) as ->. wp_step. wp_call Hw.
  intros r s3 w3 (Hw3 & Hnp3 & Hi3 & o3 & Ho3 & Hp3 & Hok3).
  assert (Hall : outgoing s3 = outgoing s ++ a ++ b ++ o3)
    by (by rewrite Ho3, Ho2, Ho1, <-!app_assoc).
  destruct r as [[]|e|]; [| |done].
  2: { cbn [map_err]. split; [solve_world|]. split; [done|]. split; [congruence|].
       exists (a ++ b ++ o3). split; [done|]. split; [|done]. by do 2 apply prefix_app. }
  specialize (Hok3 eq_refl) as ->. unfold flush.
  wp_steps; cbn [map_err]; (split; [solve_world|]); (split; [done|]); (split; [congruence|]);
    by exists (a ++ b ++ c).
Qed.

(** The entry that answers for a host: the last one of the manifest that lists the host for
    git. *)
Definition answers_for (host : string) (entry : CredentialEntry) : Prop :=
  GitCredential host ∈ entry_inject entry.
Definition configured (m : CredentialManifest) (host name domain : string) : Prop :=
  ∃ before entry after, manifest_credentials m = before ++ entry :: after ∧
    answers_for host entry ∧ Forall (λ e, ¬ answers_for host e) after ∧
    entry_secret_name entry = name ∧ entry_target_domain entry = domain.
Definition unlisted (m : CredentialManifest) (host : string) : Prop :=
  Forall (λ e, ¬ answers_for host e) (manifest_credentials m).

Lemma entry_hosts_lookup entry map host :
  entry_hosts entry map !! host =
  if decide (GitCredential host ∈ entry_inject entry)
  then Some (entry_secret_name entry, entry_target_domain entry) else map !! host.
Proof.
  unfold entry_hosts.
  generalize (entry_inject entry) as ms. intros ms. revert map.
  induction ms as [|m ms IH] using rev_ind; intros map; [done|]. rewrite foldl_app. simpl.
  destruct m as [var|path template|h]; [rewrite IH..|];
    try (apply decide_ext; rewrite elem_of_app, list_elem_of_singleton; naive_solver).
  destruct (decide (h = host)) as [->|Hne].
  - rewrite lookup_insert_eq, decide_True; [done|]. set_solver.
  - rewrite lookup_insert_ne, IH by done.
    apply decide_ext. rewrite elem_of_app, list_elem_of_singleton. naive_solver.
Qed.

Lemma git_host_map_lookup m host :
  match git_host_map m !! host with
  | Some (name, domain) => configured m host name domain
  | None => unlisted m host
  end.
Proof.
  unfold git_host_map, configured, unlisted. generalize (manifest_credentials m) as es. intros es.
  induction es as [|e es IH] using rev_ind; [apply Forall_nil_2|].
  rewrite foldl_app. simpl. rewrite entry_hosts_lookup. case_decide as He.
  { exists es, e, []. by rewrite Forall_nil. }
  destruct (foldl _ _ _ !! host) as [[name domain]|].
  - destruct IH as (before & entry & after & -> & ? & Ha & ?). exists before, entry, (after ++ [e]).
    split; [by rewrite <-app_assoc|]. by rewrite Forall_app, Forall_singleton.
  - by rewrite Forall_app, Forall_singleton.
Qed.

Definition exit_code {E A} (r : outcome E A) : ExitCode :=
  match r with Ok _ => SUCCESS | _ => FAILURE end.

Section fill.
Context {St : Type} `{!Env, !StreamIO, !Home, !ProcEnv, !SocketAddrText, !UuidText}.
Context `{!VaultApi St, !VaultApiLaws St}.
Context `{!Serde CredentialManifest, !SerdeLaws CredentialManifest}.
#[local] Existing Instance logged_VaultApi.
Implicit Types (h : Helper (St * list ApiCall)) (w : World).

Definition helper_log h : list ApiCall := (helper_api h).2.
Definition helper_out h : bytes := outgoing (helper_stdio h).

(** What a run that got as far as the vault did: the calls it made, in order, what it wrote
    to its standard output, and whether it reported success. *)
Inductive Fill (token name domain : string) : list ApiCall → bytes → ExitCode → Prop :=
  | FillNoConnection :
      (∃ s w e s' w', api_connect (St := St) (Some token) s w = (Err e, s', w')) →
      Fill token name domain [CallConnect (Some token)] [] FAILURE
  | FillNoLease e :
      Fill token name domain
        [CallConnect (Some token); CallLease "credential-helper" name domain (Err e)] [] FAILURE
  | FillNoSecret g r :
      (∀ b, r = Ok b → from_utf8 b = None) →
      Fill token name domain
        [CallConnect (Some token); CallLease "credential-helper" name domain (Ok g);
         CallAccess (LeaseId_as_uuid (grant_lease_id g)) domain r] [] FAILURE
  | FillSecret g secret s w r s' w' out :
      write_credential "x-access-token" secret s w = (r, s', w') →
      outgoing s' = outgoing s ++ out → out `prefix_of` as_bytes (credential_text secret) →
      (is_ok r = true → out = as_bytes (credential_text secret)) →
      Fill token name domain
        [CallConnect (Some token); CallLease "credential-helper" name domain (Ok g);
         CallAccess (LeaseId_as_uuid (grant_lease_id g)) domain (Ok (as_bytes secret))] out
        (exit_code r).

Lemma helper_call_wp {A} (m : M St Error A) (c : outcome Error A → ApiCall) h w :
  well_behaved m →
  wp (helper_call (logged_call m c)) h w (λ r h' w', world_le w w' ∧
    helper_files h' = helper_files h ∧ helper_stdio h' = helper_stdio h ∧
    match r with
    | Ok x => helper_log h' = helper_log h ++ [c (Ok x)]
    | Err _ => ∃ e, helper_log h' = helper_log h ++ [c (Err e)] ∧
        ∃ s w s' w', m s w = (Err e, s', w')
    | Panic => False
    end).
Proof.
  intros Hm. unfold helper_call. wp_step. wp_step.
  eapply wp_mono; [by apply wp_self, logged_call_wp|].
  intros r s' w' (Hrun & Hnp & Hw & Hlog). do 3 (split; [done|]).
  apply logged_call_run in Hrun.
  unfold helper_log. cbn [helper_api]. destruct r as [x|e|]; cbn [map_err]; eauto 10.
Qed.

(** The connection is used as [Fill] says; files and standard input are left alone. *)
Definition filled token name domain h h' (code : ExitCode) : Prop :=
  helper_files h' = helper_files h ∧ incoming (helper_stdio h') = incoming (helper_stdio h) ∧
  ∃ out, helper_out h' = helper_out h ++ out ∧ Fill token name domain (helper_log h') out code.

Lemma filled_silent token name domain h h' :
  helper_files h' = helper_files h → helper_stdio h' = helper_stdio h →
  Fill token name domain (helper_log h') [] FAILURE → filled token name domain h h' FAILURE.
Proof.
  intros Hf Hs HF. split; [done|]. split; [by rewrite Hs|]. exists [].
  split; [|done]. unfold helper_out. by rewrite Hs, app_nil_r.
Qed.

(** The part of [handle_get] that uses the vault. *)
Lemma fill_wp token name domain h w :
  helper_log h = [] →
  wp (helper_call (api_connect (Some token));;
      grant ← helper_call (api_request_lease "credential-helper" name domain);
      secret_bytes ← helper_call
        (api_access_secret (LeaseId_as_uuid (grant_lease_id grant)) domain);
      secret ← ok_or (from_utf8 secret_bytes) "secret is not UTF-8";
      on_stdio (write_credential "x-access-token" secret);;
      mret true) h w
    (λ r h' _, r ≠ Panic ∧ r ≠ Ok false ∧ filled token name domain h h' (exit_code r)).
Proof.
  intros Hlog. wp_step.
  wp_call (helper_call_wp (api_connect (St := St) (Some token)) (λ _, CallConnect (Some token)));
    [apply api_connect_ok|].
  intros [[]|e|] h1 w1 (_ & Hf1 & Hs1 & Hl1); [rewrite Hlog in Hl1|setoid_rewrite Hlog in Hl1|done].
  2: { do 2 (split; [done|]). apply filled_silent; [done..|]. destruct Hl1 as (? & -> & ?).
       constructor. naive_solver. }
  wp_step. wp_call (helper_call_wp (api_request_lease (St := St) _ _ _) (CallLease _ _ _));
    [apply api_request_lease_ok|].
  intros [g|e|] h2 w2 (_ & Hf2 & Hs2 & Hl2); [rewrite Hl1 in Hl2|setoid_rewrite Hl1 in Hl2|done].
  2: { do 2 (split; [done|]). apply filled_silent; [congruence..|]. destruct Hl2 as (? & -> & _).
       constructor. }
  wp_step. wp_call (helper_call_wp (api_access_secret (St := St) _ _) (CallAccess _ _));
    [apply api_access_secret_ok|].
  intros [b|e|] h3 w3 (_ & Hf3 & Hs3 & Hl3); [rewrite Hl2 in Hl3|setoid_rewrite Hl2 in Hl3|done].
  2: { do 2 (split; [done|]). apply filled_silent; [congruence..|]. destruct Hl3 as (? & -> & _).
       by constructor. }
  wp_step. wp_step; wp_step.
  2: { do 2 (split; [done|]). apply filled_silent; [congruence..|]. rewrite Hl3.
       constructor. by intros ? [= <-]. }
  wp_step. unfold on_stdio. wp_step. wp_step.
  eapply wp_mono; [apply wp_self, write_credential_wp|].
  intros r s4 w4 (Hrun & _ & Hnp & Hi & out & Ho & Hpre & Hok).
  assert (Hdone : filled token name domain h (mkHelper (helper_api h3) (helper_files h3) s4)
    (exit_code r)).
  { split; [simpl; congruence|]. split; [simpl; congruence|]. exists out.
    split; [unfold helper_out; simpl; congruence|]. unfold helper_log in *. simpl.
    rewrite Hl3, <-(from_utf8_Some _ _ Hopt). by eapply FillSecret. }
  destruct r as [[]|e|]; [| |done]; cbn [map_err]; [wp_step|]; (split; [done|split; [done|]]);
    exact Hdone.
Qed.

Lemma handle_get_wp request manifest token h w :
  helper_log h = [] →
  wp (handle_get request (git_host_map manifest) token) h w (λ r h' w', r ≠ Panic ∧
    ((r = Ok false ∧ h' = h ∧ ∀ host, cr_host request = Some host → unlisted manifest host) ∨
     ∃ host name domain, cr_host request = Some host ∧ configured manifest host name domain ∧
       filled token name domain h h' (exit_code r))).
Proof.
  intros Hlog. unfold handle_get. destruct (cr_host request) as [host|] eqn:Hhost;
    [|wp_step; split; [done|]; by left].
  pose proof (git_host_map_lookup manifest host) as Hlook.
  destruct (git_host_map manifest !! host) as [[name domain]|] eqn:Hmap.
  - wp_call fill_wp. intros r h' w' (Hnp & _ & HF). split; [done|]. right. eauto 10.
  - wp_step. split; [done|]. left. naive_solver.
Qed.

(** The vault is not asked for anything and nothing is printed. *)
Definition quiet h h' : Prop := helper_log h' = [] ∧ helper_out h' = helper_out h.

(** Why a helper started for get gives up before it looks up the host: the request cannot be
    read, the vault's address or the token is not set, or the manifest cannot be read. *)
Definition unusable (manifest_path : string) h w : Prop :=
  (∃ e s' w', CredentialRequest_parse (helper_stdio h) w = (Err e, s', w')) ∨
  env_var "ZEROLEASE_VAULT_ADDR" ≫= parse_socket_addr = None ∨
  env_var "ZEROLEASE_CREDENTIAL_TOKEN" = None ∨
  ∃ w1 e fs w2, CredentialManifest_from_file (path_from manifest_path) (helper_files h) w1 =
    (Err e, fs, w2).

(** What a helper started for get finds before it looks up the host. *)
Definition usable (manifest_path : string) h w (token : string) (req : CredentialRequest)
    (manifest : CredentialManifest) : Prop :=
  (∃ s' w', CredentialRequest_parse (helper_stdio h) w = (Ok req, s', w')) ∧
  is_Some (env_var "ZEROLEASE_VAULT_ADDR" ≫= parse_socket_addr) ∧
  env_var "ZEROLEASE_CREDENTIAL_TOKEN" = Some token ∧
  ∃ text, fs_files (helper_files h) !! path_from manifest_path = Some text ∧
    from_json text = Ok manifest.

(** The outcome of a helper started for get. *)
Inductive GetOutcome (manifest_path : string) h w h' : ExitCode → Prop :=
  | GetUnusable : unusable manifest_path h w → quiet h h' →
      GetOutcome manifest_path h w h' FAILURE
  | GetUnlisted token req manifest : usable manifest_path h w token req manifest →
      (∀ host, cr_host req = Some host → unlisted manifest host) → quiet h h' →
      GetOutcome manifest_path h w h' SUCCESS
  | GetListed token req manifest host name domain out code :
      usable manifest_path h w token req manifest →
      cr_host req = Some host → configured manifest host name domain →
      helper_out h' = helper_out h ++ out → Fill token name domain (helper_log h') out code →
      GetOutcome manifest_path h w h' code.

Lemma cmd_credential_fill_wp operation manifest_path h w :
  helper_log h = [] →
  wp (cmd_credential_fill operation manifest_path) h w (λ r h' _, ∃ code, r = Ok code ∧
    helper_files h' = helper_files h ∧
    (operation ≠ "get" → code = SUCCESS ∧ h' = h) ∧
    (operation = "get" → GetOutcome manifest_path h w h' code)).
Proof.
  intros Hlog. unfold cmd_credential_fill. destruct (str_eqb operation "get") eqn:Hop;
    cbn [negb]; [apply bool_decide_eq_true in Hop|apply bool_decide_eq_false in Hop];
    [|wp_step; eexists; by eauto 10].
  wp_step. wp_step. unfold on_stdio at 1. wp_step. wp_step.
  apply run_wp. intros r s1 w1 Hparse.
  destruct (wp_run _ _ _ _ _ _ _ (CredentialRequest_parse_wp _ _) Hparse) as (Hnp & Ho).
  set (h1 := mkHelper (helper_api h) (helper_files h) s1).
  assert (Hquiet : quiet h h1) by done.
  assert (Hquit : unusable manifest_path h w → ∃ code, Ok FAILURE = Ok (E := string) code ∧
    helper_files h1 = helper_files h ∧ (operation ≠ "get" → code = SUCCESS ∧ h1 = h) ∧
    (operation = "get" → GetOutcome manifest_path h w h1 code)).
  { intros Hu. exists FAILURE. do 3 (split; [done|]). intros _. by apply GetUnusable. }
  destruct r as [req|e|]; [| |done]; cbn [map_err].
  2: { wp_step. apply Hquit. left. eauto. }
  destruct (env_var "ZEROLEASE_VAULT_ADDR" ≫= _) as [addr|] eqn:Haddr.
  2: { wp_step. apply Hquit. right. by left. }
  destruct (env_var "ZEROLEASE_CREDENTIAL_TOKEN") as [token|] eqn:Htok.
  2: { wp_step. apply Hquit. right. right. by left. }
  wp_step. wp_step. unfold helper_file. wp_step. wp_step.
  eapply wp_mono; [apply wp_self, manifest_from_file_wp|].
  intros [manifest|e|] fs w2 (Hread & _ & -> & Hm); cbn [map_err]; [| |done].
  2: { wp_step. apply Hquit. do 3 right. eauto 10. }
  destruct Hm as (text & Htext & Hjson).
  assert (Hu : usable manifest_path h w token req manifest)
    by (split; [by eauto|split; [by rewrite Haddr|by eauto]]).
  wp_step. wp_step. wp_call handle_get_wp.
  intros r h2 w3 (Hnp2 & [(-> & -> & Hun)|(host & name & domain & Hhost & Hmap & Hf & _ & out & Ho2 & HF)]).
  { wp_step. exists SUCCESS. do 3 (split; [done|]). intros _. by eapply GetUnlisted. }
  assert (Hend : GetOutcome manifest_path h w h2 (exit_code r)).
  { eapply GetListed; [done..| |done]. rewrite Ho2. unfold helper_out. simpl. by rewrite Ho. }
  destruct r as [found|e|]; [| |done]; wp_step; eexists; (split; [done|]); (split; [done|]);
    by (split; [done|]).
Qed.
End fill.

(** C10. The git helper answers for the configured hosts and for no other. Whatever is on its
    standard input, whatever the vault answers and whatever call fails, the helper ends with
    an exit code and changes no file. An operation other than get exits with success and
    touches nothing. For get: it fails without a call to the vault and without output only
    when the request, the environment or the manifest cannot be read; when no entry of the
    manifest lists the requested host for git it exits with success, again without a call or
    output; otherwise it asks the vault, with the restricted token, for the secret and the
    domain of the last entry that lists the host and for nothing else. Then success is
    reported only after the whole credential of that entry was printed, and failure only when
    the connection, the lease, the secret (or its decoding) or the write of the answer
    failed; nothing is printed unless the secret was read, and then a prefix of the
    credential. *)
Theorem credential_fill_configured {St : Type} `{!Env, !StreamIO, !Home, !ProcEnv,
    !SocketAddrText, !UuidText, !VaultApi St, !VaultApiLaws St, !Serde CredentialManifest,
    !SerdeLaws CredentialManifest} operation manifest_path
    (h h' : Helper (St * list ApiCall)) w r w' :
  helper_log h = [] →
  cmd_credential_fill (VaultApi0 := logged_VaultApi) operation manifest_path h w = (r, h', w') →
  ∃ code, r = Ok code ∧ helper_files h' = helper_files h ∧
    (operation ≠ "get" → code = SUCCESS ∧ h' = h) ∧
    (operation = "get" → GetOutcome manifest_path h w h' code).
Proof.
  intros Hlog. apply (wp_run_all _ _ _ _ (cmd_credential_fill_wp _ _ _ _ Hlog)).
Qed.

(** ** Witnesses *)

Definition helper_ProcEnv : ProcEnv := λ v,
  if str_eqb v "ZEROLEASE_VAULT_ADDR" then Some "10.0.2.2:9100"
  else if str_eqb v "ZEROLEASE_CREDENTIAL_TOKEN" then Some "cred" else None.
Definition demo_SocketAddrText : SocketAddrText := λ _, Some (mkSocketAddr (V4 10 0 2 2) 9100).
Definition helper_request : CredentialRequest :=
  mkCredentialRequest (Some "https") (Some "github.com") None None.
Definition demo_helper : Helper (unit * list ApiCall) :=
  mkHelper (tt, []) (agent_files demo_provisioner) (mkStream (as_bytes (git_request helper_request)) []).

Module DemoFill.
#[export] Existing Instance demo_Env.
#[export] Existing Instance demo_StreamIO.
#[export] Existing Instance demo_Home.
#[export] Existing Instance demo_UuidText.
#[export] Existing Instance demo_VaultApi.
#[export] Existing Instance helper_ProcEnv.
#[export] Existing Instance demo_SocketAddrText.
#[export] Existing Instance DemoProvision.demo_Serde_manifest.
End DemoFill.
Import DemoFill.

Lemma credential_fill_configured_witness :
  ∃ h' w', cmd_credential_fill (VaultApi0 := logged_VaultApi) "get" (arg_manifest demo_args)
      demo_helper demo_world = (Ok SUCCESS, h', w') ∧
    helper_out h' = as_bytes (credential_text "it's") ∧
    GetOutcome (arg_manifest demo_args) demo_helper demo_world h' SUCCESS.
Proof.
  set (run := cmd_credential_fill (VaultApi0 := logged_VaultApi) "get" (arg_manifest demo_args)
    demo_helper demo_world).
  assert (Hok : run.1.1 = Ok SUCCESS) by (vm_compute; reflexivity).
  assert (Ho : helper_out run.1.2 = as_bytes (credential_text "it's"))
    by (vm_compute; reflexivity).
  destruct run as [[r h'] w'] eqn:Hrun. simpl in Hok, Ho. subst r. exists h', w'.
  split; [reflexivity|]. split; [exact Ho|].
  destruct (@credential_fill_configured unit demo_Env demo_StreamIO demo_Home helper_ProcEnv
    demo_SocketAddrText demo_UuidText demo_VaultApi demo_VaultApiLaws
    DemoProvision.demo_Serde_manifest (single_SerdeLaws demo_manifest "manifest") "get"
    (arg_manifest demo_args) demo_helper h' demo_world (Ok SUCCESS) w' eq_refl Hrun)
    as (code & [= <-] & _ & _ & Hget). exact (Hget eq_refl).
Defined.

(** A secret with a newline adds lines of its own to the answer. *)
Theorem credential_text_injection :
  credential_text ("pw" +:+ newline +:+ "host=evil.example") =
  "username=x-access-token" +:+ newline +:+ "password=pw" +:+ newline
  +:+ "host=evil.example" +:+ newline +:+ newline.
Proof. vm_compute. done. Qed.
