(* ===== verification/Provider.v ===== *)
(** Credential providers for tools: [zerolease-provider/src].

    A tool acquires a guard, uses the secret through it and drops it. Dropping a guard of
    [ZeroleaseProvider] puts its lease on a bounded queue, from which a background task
    revokes leases one by one. [provider_step] is one move of a tool or of that task; a run
    is any sequence of moves. *)
From S2P Require Import Prelude Text Concrete Types Lease Session Store Auth.
From S2P Require Import AuditEvents Frame Protocol Client AgentApi.

Local Open Scope string_scope.
Local Open Scope Z_scope.
Local Open Scope list_scope.

(** ** Requests, guards and errors *)

Record CredentialRequest := mkCredentialRequest {
  request_secret_name : SecretName;
  request_target_domain : DomainScope;
  request_agent_id : AgentId;
  request_session_token : option SessionToken;
  request_tool_name : option string
}.

Inductive ProviderError :=
  | Unavailable (msg : string)
  | ConnectionFailed (msg : string)
  | InvalidUtf8.

(** [guard_revocable] says whether the guard holds a sender of the provider's channel. *)
Record CredentialGuard := mkCredentialGuard {
  guard_secret : string;
  guard_lease_id : Uuid;
  guard_target_domain : DomainScope;
  guard_revocable : bool
}.
Definition CredentialGuard_new (secret : string) (lease_id : Uuid) (domain : DomainScope)
    : CredentialGuard := mkCredentialGuard secret lease_id domain true.
Definition CredentialGuard_new_static `{!Env} {St E} (secret : string) (domain : DomainScope)
    : M St E CredentialGuard :=
  id ← uuid_now_v7;
  mret (mkCredentialGuard secret id domain false).
Definition CredentialGuard_expose {R} (self : CredentialGuard) (f : string → R) : R :=
  f (guard_secret self).

(** ** Static credentials *)

Record StaticProvider := mkStaticProvider { static_credentials : gmap SecretName string }.
Definition StaticProvider_new : StaticProvider := mkStaticProvider ∅.
Definition StaticProvider_insert (name : SecretName) (value : string) (self : StaticProvider)
    : StaticProvider := mkStaticProvider (<[name := value]> (static_credentials self)).
Definition StaticProvider_acquire `{!Env} {St} (self : StaticProvider)
    (request : CredentialRequest) : M St ProviderError CredentialGuard :=
  secret ← ok_or (static_credentials self !! request_secret_name request)
             (Unavailable ("no such secret: " +:+ SecretName_as_str (request_secret_name request)));
  CredentialGuard_new_static secret (request_target_domain request).

(** ** Leased credentials *)

(** [mpsc::channel::<Uuid>(64)] *)
Definition CHANNEL_CAPACITY : nat := 64.

(** The provider, with the queue of its channel and the guards its tools hold. *)
Record ZeroleaseProvider (St : Type) := mkProvider {
  prov_api : St;
  prov_queue : list Uuid;
  prov_guards : list CredentialGuard
}.
Arguments mkProvider {St}.
Arguments prov_api {St}.
Arguments prov_queue {St}.
Arguments prov_guards {St}.

Section provider.
Context {St : Type} `{!Env, !UuidText, !VaultApi St}.
Abbreviation PM := (M (ZeroleaseProvider St)).

Definition prov_call {E A} (m : M St E A) : PM E A :=
  zoom prov_api (λ s p, mkProvider s (prov_queue p) (prov_guards p)) m.

Definition ZeroleaseProvider_acquire (request : CredentialRequest)
    : PM ProviderError CredentialGuard :=
  map_err_m (λ e, ConnectionFailed (Error_to_string e)) (prov_call (api_connect None));;
  grant ← map_err_m (λ e, Unavailable (Error_to_string e))
    (prov_call (api_request_lease (AgentId_as_str (request_agent_id request))
       (SecretName_as_str (request_secret_name request))
       (DomainScope_as_str (request_target_domain request))));
  let id := LeaseId_as_uuid (grant_lease_id grant) in
  secret_bytes ← map_err_m (λ e, Unavailable (Error_to_string e))
    (prov_call (api_access_secret id (DomainScope_as_str (request_target_domain request))));
  secret_str ← ok_or (from_utf8 secret_bytes) InvalidUtf8;
  mret (CredentialGuard_new secret_str id (request_target_domain request)).

(** [try_send]: refused when the channel is full. *)
Definition try_send (id : Uuid) : PM ProviderError bool :=
  p ← read;
  if (length (prov_queue p) <? CHANNEL_CAPACITY)%nat
  then write (mkProvider (prov_api p) (prov_queue p ++ [id]) (prov_guards p));; mret true
  else mret false.

(** [Drop for CredentialGuard]; the result says whether the lease was queued. *)
Definition CredentialGuard_drop (self : CredentialGuard) : PM ProviderError bool :=
  if guard_revocable self then try_send (guard_lease_id self) else mret false.

(** One iteration of [revocation_worker], and what it took from the queue. *)
Definition revocation_worker : PM ProviderError (option Uuid) :=
  p ← read;
  match prov_queue p with
  | [] => mret None
  | lease_id :: rest =>
    write (mkProvider (prov_api p) rest (prov_guards p));;
    connected ← try_ (F := ProviderError) (prov_call (api_connect None));
    match connected with
    | Ok _ => try_ (F := ProviderError) (prov_call (api_revoke_lease lease_id AdminRevoked));;
              mret tt
    | _ => mret tt
    end;;
    mret (Some lease_id)
  end.

(** ** Runs *)

Inductive Move :=
  | MoveAcquire (request : CredentialRequest)
  | MoveDrop (i : nat)
  | MoveWork.

(** What a move did with a lease. *)
Inductive Event :=
  | Granted (id : Uuid)
  | Refused (e : ProviderError)
  | Queued (id : Uuid)
  | Dropped (id : Uuid)
  | Attempted (id : Uuid)
  | Idle.

Definition provider_step (m : Move) : PM ProviderError Event :=
  match m with
  | MoveAcquire request =>
    r ← try_ (E := ProviderError) (ZeroleaseProvider_acquire request);
    match r with
    | Ok guard =>
      modify (λ p, mkProvider (prov_api p) (prov_queue p) (prov_guards p ++ [guard]));;
      mret (Granted (guard_lease_id guard))
    | Err e => mret (Refused e)
    | Panic => panic
    end
  | MoveDrop i =>
    p ← read;
    match prov_guards p !! i with
    | None => mret Idle
    | Some guard =>
      write (mkProvider (prov_api p) (prov_queue p) (delete i (prov_guards p)));;
      queued ← CredentialGuard_drop guard;
      mret (if (queued : bool) then Queued (guard_lease_id guard)
            else Dropped (guard_lease_id guard))
    end
  | MoveWork =>
    taken ← revocation_worker;
    mret (match taken with Some id => Attempted id | None => Idle end)
  end.
End provider.

Definition granted (evs : list Event) : list Uuid :=
  omap (λ e, match e with Granted i => Some i | _ => None end) evs.
Definition queued (evs : list Event) : list Uuid :=
  omap (λ e, match e with Queued i => Some i | _ => None end) evs.
Definition dropped (evs : list Event) : list Uuid :=
  omap (λ e, match e with Dropped i => Some i | _ => None end) evs.
Definition attempted (evs : list Event) : list Uuid :=
  omap (λ e, match e with Attempted i => Some i | _ => None end) evs.

(** ** Facts about a move *)

Section facts.
Context {St : Type} `{!Env, !UuidText, !VaultApi St, !VaultApiLaws St}.
#[local] Existing Instance logged_VaultApi.
Abbreviation LProvider := (ZeroleaseProvider (St * list ApiCall)).
Implicit Types (p : LProvider) (w : World).

Definition prov_log p : list ApiCall := (prov_api p).2.

(** A call to the vault leaves the queue and the guards alone. *)
Lemma prov_call_raw_wp {A} (m : M St Error A) (c : outcome Error A → ApiCall) p w :
  well_behaved m →
  wp (prov_call (logged_call m c)) p w (λ r p' w', world_le w w' ∧
    prov_queue p' = prov_queue p ∧ prov_guards p' = prov_guards p ∧
    r ≠ Panic ∧ r = (m (prov_api p).1 w).1.1 ∧ prov_log p' = prov_log p ++ [c r]).
Proof.
  intros Hm. specialize (Hm (prov_api p).1 w). unfold wp, prov_call, zoom, logged_call in *.
  destruct (m (prov_api p).1 w) as [[r s'] w']. naive_solver.
Qed.
Lemma prov_call_wp {E A} (f : Error → E) (m : M St Error A) (c : outcome Error A → ApiCall) p w :
  well_behaved m →
  wp (map_err_m f (prov_call (logged_call m c))) p w (λ r p' w', world_le w w' ∧
    prov_queue p' = prov_queue p ∧ prov_guards p' = prov_guards p ∧
    match r with
    | Ok x => prov_log p' = prov_log p ++ [c (Ok x)]
    | Err _ => ∃ e, prov_log p' = prov_log p ++ [c (Err e)]
    | Panic => False
    end).
Proof.
  intros Hm. wp_step. wp_call prov_call_raw_wp.
  intros r p' w' (Hw & Hq & Hg & Hnp & _ & Hlog). do 3 (split; [done|]).
  destruct r as [x|e|]; cbn [map_err]; eauto.
Qed.

(** Acquiring: the guard holds the secret that was read through the lease it names. *)
Lemma acquire_wp request p w :
  wp (ZeroleaseProvider_acquire request) p w (λ r p' w', world_le w w' ∧
    prov_queue p' = prov_queue p ∧ prov_guards p' = prov_guards p ∧
    ∃ calls, prov_log p' = prov_log p ++ calls ∧ revoked calls = [] ∧
    match r with
    | Ok guard => guard_revocable guard = true ∧
        guard_target_domain guard = request_target_domain request ∧
        leased calls = [guard_lease_id guard] ∧
        CallAccess (guard_lease_id guard) (DomainScope_as_str (guard_target_domain guard))
          (Ok (as_bytes (guard_secret guard))) ∈ calls
    | Err _ => True
    | Panic => False
    end).
Proof.
  unfold ZeroleaseProvider_acquire. wp_step.
  wp_call (prov_call_wp _ (api_connect (St := St) None) (λ _, CallConnect None));
    [apply api_connect_ok|].
  intros [[]|e|] p1 w1 (Hw1 & Hq1 & Hg1 & Hl1); [| |done].
  2: { destruct Hl1 as [? Hl1]. do 3 (split; [done|]). eauto. }
  wp_step. wp_call (prov_call_wp _ (api_request_lease (St := St) _ _ _) (CallLease _ _ _));
    [apply api_request_lease_ok|].
  intros [g|e|] p2 w2 (Hw2 & Hq2 & Hg2 & Hl2); [| |done].
  2: { destruct Hl2 as [? Hl2]. rewrite Hl1, <-app_assoc in Hl2.
       split; [solve_world|]. do 2 (split; [congruence|]). eauto. }
  rewrite Hl1, <-app_assoc in Hl2. cbv zeta.
  wp_step. wp_call (prov_call_wp _ (api_access_secret (St := St) _ _) (CallAccess _ _));
    [apply api_access_secret_ok|].
  intros [b|e|] p3 w3 (Hw3 & Hq3 & Hg3 & Hl3); [| |done].
  2: { destruct Hl3 as [? Hl3]. rewrite Hl2, <-app_assoc in Hl3.
       split; [solve_world|]. do 2 (split; [congruence|]). eauto. }
  rewrite Hl2, <-app_assoc in Hl3. wp_step. wp_step; wp_step;
    (split; [solve_world|]); (do 2 (split; [congruence|])); eexists; (split; [exact Hl3|]);
    (split; [done|]); [|done].
  do 3 (split; [done|]). cbn [guard_lease_id guard_target_domain guard_secret CredentialGuard_new].
  rewrite (from_utf8_Some _ _ Hopt). simpl. rewrite !elem_of_cons. auto.
Qed.

(** The worker: it takes the head of the queue and asks for its revocation when it gets a
    connection. *)
Lemma worker_wp p w :
  wp revocation_worker p w (λ r p' w', world_le w w' ∧ prov_guards p' = prov_guards p ∧
    match prov_queue p with
    | [] => r = Ok None ∧ p' = p
    | id :: rest => r = Ok (Some id) ∧ prov_queue p' = rest ∧
        ∃ calls, prov_log p' = prov_log p ++ calls ∧ leased calls = [] ∧
          (revoked calls = [] ∨ revoked calls = [id]) ∧
          ((∀ t s w, is_ok (api_connect (St := St) t s w).1.1 = true) →
           calls = [CallConnect None; CallRevoke id AdminRevoked])
    end).
Proof.
  unfold revocation_worker. wp_step. wp_step. destruct (prov_queue p) as [|id rest] eqn:Hq.
  { wp_step. by split_and!. }
  wp_step. wp_step. wp_step. wp_step.
  wp_call (prov_call_raw_wp (api_connect (St := St) None) (λ _, CallConnect None));
    [apply api_connect_ok|].
  intros rc p1 w1 (Hw1 & Hq1 & Hg1 & Hnp & Hrc & Hl1). cbn [prov_queue prov_guards] in *.
  destruct rc as [[]|e|]; [| |done]; wp_step.
  - wp_step. wp_step.
    wp_call (prov_call_raw_wp (api_revoke_lease (St := St) id AdminRevoked)
      (λ _, CallRevoke id AdminRevoked)); [apply api_revoke_lease_ok|].
    intros r p2 w2 (Hw2 & Hq2 & Hg2 & Hnp2 & _ & Hl2). rewrite Hl1, <-app_assoc in Hl2.
    destruct r as [[]|e|]; [| |done]; wp_step; wp_step; (split; [solve_world|]);
      (split; [congruence|]); (split; [done|]); (split; [congruence|]); eexists;
      (split; [exact Hl2|]); eauto.
  - wp_step. wp_step. do 2 (split; [done|]). do 2 (split; [done|]). eexists.
    split; [exact Hl1|]. do 2 (split; [by eauto|]). intros Hok.
    specialize (Hok None (prov_api p).1 w). cbn [prov_api] in Hrc. by rewrite <-Hrc in Hok.
Qed.

(** What holds after the moves that had the events [evs]. *)
Record provider_inv (evs : list Event) p : Prop := {
  inv_fifo : queued evs = attempted evs ++ prov_queue p;
  inv_bound : (length (prov_queue p) ≤ CHANNEL_CAPACITY)%nat;
  inv_conserved :
    granted evs ≡ₚ (guard_lease_id <$> prov_guards p) ++ queued evs ++ dropped evs;
  inv_revocable : Forall (λ g, guard_revocable g = true) (prov_guards p);
  inv_leased : granted evs `sublist_of` leased (prov_log p);
  inv_revoked : revoked (prov_log p) `sublist_of` attempted evs;
  inv_secret : Forall (λ g, CallAccess (guard_lease_id g)
    (DomainScope_as_str (guard_target_domain g)) (Ok (as_bytes (guard_secret g))) ∈ prov_log p)
    (prov_guards p);
  inv_dropped : dropped evs ≠ [] → (CHANNEL_CAPACITY ≤ length (queued evs))%nat
}.

Lemma sublist_snoc (l l' k : list Uuid) : l `sublist_of` l' → l `sublist_of` l' ++ k.
Proof. intros Hl. rewrite <-(app_nil_r l). by apply sublist_app; [|apply sublist_nil_l]. Qed.

(** The two projections of the events that a move extends. *)
Ltac events := unfold granted, queued, dropped, attempted in *; rewrite ?omap_app; simpl;
  rewrite ?app_nil_r.

Lemma acquire_inv evs request p w :
  provider_inv evs p →
  wp (provider_step (MoveAcquire request)) p w (λ r p' w', world_le w w' ∧
    ∃ ev, r = Ok ev ∧ provider_inv (evs ++ [ev]) p').
Proof.
  intros [Hfifo Hb Hc Hrev Hleased Hrevd Hsec Hdr]. cbn [provider_step]. wp_step. wp_step.
  wp_call acquire_wp.
  intros [g|e|] p1 w1 (Hw & Hq & Hg & calls & Hl & Hr & Hres); [| |done].
  - destruct Hres as (Hgr & _ & Hid & Hacc). wp_step. wp_step. wp_step. split; [done|].
    eexists. split; [done|].
    assert (Hlog : prov_log (mkProvider (prov_api p1) (prov_queue p1) (prov_guards p1 ++ [g])) =
      prov_log p ++ calls) by done.
    split; rewrite ?Hlog; cbn [prov_queue prov_guards]; rewrite ?Hq, ?Hg.
    + by events.
    + done.
    + rewrite fmap_app. events. rewrite Hc. simpl. solve_Permutation.
    + by apply Forall_app; split; [|constructor].
    + events. rewrite leased_app, Hid. by apply sublist_app.
    + rewrite revoked_app, Hr, app_nil_r. by events.
    + apply Forall_app. split.
      * eapply Forall_impl; [exact Hsec|]. simpl. intros x Hx. apply elem_of_app. by left.
      * constructor; [|constructor]. apply elem_of_app. by right.
    + by events.
  - wp_step. split; [done|]. eexists. split; [done|].
    split; rewrite ?Hl, ?Hq, ?Hg; try (by events).
    + events. rewrite leased_app. by apply sublist_snoc.
    + rewrite revoked_app, Hr, app_nil_r. by events.
    + eapply Forall_impl; [exact Hsec|]. simpl. intros x Hx. apply elem_of_app. by left.
Qed.

Lemma drop_inv evs i p w :
  provider_inv evs p →
  wp (provider_step (MoveDrop i)) p w (λ r p' w', world_le w w' ∧
    ∃ ev, r = Ok ev ∧ provider_inv (evs ++ [ev]) p').
Proof.
  intros [Hfifo Hb Hc Hrev Hleased Hrevd Hsec Hdr]. cbn [provider_step]. wp_step. wp_step.
  destruct (prov_guards p !! i) as [g|] eqn:Hgi.
  2: { wp_step. split; [done|]. exists Idle. split; [done|]. split; try done; by events. }
  assert (Hg : guard_lease_id <$> prov_guards p ≡ₚ
    guard_lease_id g :: (guard_lease_id <$> delete i (prov_guards p)))
    by (rewrite (delete_Permutation _ _ _ Hgi) at 1; done).
  pose proof (Forall_lookup_1 _ _ _ _ Hrev Hgi) as Hrg. simpl in Hrg.
  wp_step. wp_step. wp_step. unfold CredentialGuard_drop. rewrite Hrg. unfold try_send.
  wp_step. wp_step. wp_step; [wp_step; wp_step; wp_step|wp_step]; wp_step;
    (split; [done|]); eexists; (split; [done|]); cbn [prov_queue] in *;
    split; cbn [prov_queue prov_guards]; try (by events);
    try (by apply Forall_delete).
  - events. by rewrite Hfifo, app_assoc.
  - apply Nat.ltb_lt in Hb0. rewrite length_app. simpl. lia.
  - events. rewrite Hc, Hg. simpl. solve_Permutation.
  - events. intros Hd. rewrite length_app. specialize (Hdr Hd). lia.
  - events. rewrite Hc, Hg. simpl. solve_Permutation.
  - events. intros _. apply Nat.ltb_ge in Hb0. rewrite Hfifo, length_app. lia.
Qed.

Lemma work_inv evs p w :
  provider_inv evs p →
  wp (provider_step MoveWork) p w (λ r p' w', world_le w w' ∧
    ∃ ev, r = Ok ev ∧ provider_inv (evs ++ [ev]) p').
Proof.
  intros [Hfifo Hb Hc Hrev Hleased Hrevd Hsec Hdr]. cbn [provider_step]. wp_step.
  wp_call worker_wp. intros r p1 w1 (Hw & Hg & Hq).
  destruct (prov_queue p) as [|id rest] eqn:Hqueue.
  { destruct Hq as [-> ->]. wp_step. split; [done|]. exists Idle. split; [done|].
    rewrite app_nil_r in Hfifo. split; rewrite ?Hqueue; try done; by events. }
  destruct Hq as (-> & Hq & calls & Hl & Hnl & Hnr & _). wp_step. split; [done|].
  exists (Attempted id). split; [done|].
  split; rewrite ?Hl, ?Hq, ?Hg; try (by events).
  - events. by rewrite <-app_assoc.
  - simpl in Hb. lia.
  - events. rewrite leased_app, Hnl, app_nil_r. done.
  - rewrite revoked_app. events. destruct Hnr as [-> | ->]; [|by apply sublist_app].
    rewrite app_nil_r. by apply sublist_snoc.
  - eapply Forall_impl; [exact Hsec|]. simpl. intros x Hx. apply elem_of_app. by left.
Qed.

Lemma step_inv evs m p w :
  provider_inv evs p →
  wp (provider_step m) p w (λ r p' w', world_le w w' ∧
    ∃ ev, r = Ok ev ∧ provider_inv (evs ++ [ev]) p').
Proof. destruct m; [apply acquire_inv|apply drop_inv|apply work_inv]. Qed.

Lemma run_inv evs moves p w :
  provider_inv evs p →
  wp (traverse provider_step moves) p w (λ r p' w', world_le w w' ∧
    ∃ evs', r = Ok evs' ∧ length evs' = length moves ∧ provider_inv (evs ++ evs') p').
Proof.
  revert evs p w. induction moves as [|m moves IH]; intros evs p w Hinv; simpl.
  { wp_step. split; [done|]. exists []. by rewrite app_nil_r. }
  wp_step. wp_call step_inv. intros r p1 w1 (Hw1 & ev & -> & Hinv1). wp_step.
  wp_call IH. intros r p2 w2 (Hw2 & evs' & -> & Hlen & Hinv2). wp_step.
  split; [solve_world|]. exists (ev :: evs'). split; [done|]. split; [simpl; by rewrite Hlen|].
  by rewrite <-app_assoc in Hinv2.
Qed.

(** Letting the worker run: it empties the queue. *)
Lemma drain_wp p w :
  wp (traverse provider_step (replicate (length (prov_queue p)) MoveWork)) p w (λ r p' _,
    r = Ok (Attempted <$> prov_queue p) ∧ prov_queue p' = [] ∧
    ((∀ t s w, is_ok (api_connect (St := St) t s w).1.1 = true) →
     prov_log p' = prov_log p ++
       mjoin ((λ id, [CallConnect None; CallRevoke id AdminRevoked]) <$> prov_queue p))).
Proof.
  remember (prov_queue p) as q eqn:Hq. revert p w Hq.
  induction q as [|id q IH]; intros p w Hq; simpl.
  { wp_step. split; [done|]. split; [done|]. by rewrite app_nil_r. }
  wp_step. wp_step. wp_call worker_wp. rewrite <-Hq.
  intros r p1 w1 (_ & _ & -> & Hq1 & calls & Hl & _ & _ & Hok). wp_step. wp_step.
  wp_call (IH p1). intros r p2 w2 (-> & Hq2 & Hl2). wp_step.
  split; [done|]. split; [done|]. intros Hconn.
  rewrite (Hl2 Hconn), Hl, (Hok Hconn). by rewrite <-app_assoc.
Qed.
End facts.

(** ** Properties *)

(** The provider of a new process. *)
Definition new_provider {St} (p : ZeroleaseProvider (St * list ApiCall)) : Prop :=
  prov_log p = [] ∧ prov_queue p = [] ∧ prov_guards p = [].

(** C11. Every credential is accounted for. Whatever tools acquire and drop, in whatever
    order the background task runs, and whatever the vault answers: no move fails; the
    leases of the guards handed out are, each exactly once, those of the live guards, those
    queued for revocation and those lost because the channel was full, which only happens
    once 64 have been queued; the queue never exceeds its capacity and is served in order,
    each lease once; revocation is only ever asked for leases whose guard was dropped; and
    a live guard holds the secret that was read through its lease, for its domain. *)
Theorem provider_leases_accounted {St} `{!Env, !UuidText, !VaultApi St, !VaultApiLaws St}
    moves (p p' : ZeroleaseProvider (St * list ApiCall)) w r w' :
  new_provider p →
  traverse (provider_step (VaultApi0 := logged_VaultApi)) moves p w = (r, p', w') →
  ∃ evs, r = Ok evs ∧ length evs = length moves ∧ provider_inv evs p'.
Proof.
  intros (Hlog & Hq & Hg) Hrun.
  assert (Hinit : provider_inv [] p)
    by (split; rewrite ?Hlog, ?Hq, ?Hg; simpl; done || lia).
  destruct (wp_run _ _ _ _ _ _ _ (run_inv [] moves p w Hinit) Hrun) as (_ & evs & -> & Hl & Hinv).
  eauto.
Qed.

(** Dropped credentials get revoked. When the background task gets as many turns as
    there are leases in the queue, it attempts them all, in order, and the queue is empty;
    if the vault accepts its connections, the vault has then been asked to revoke exactly
    those leases. *)
Theorem provider_drains {St} `{!Env, !UuidText, !VaultApi St, !VaultApiLaws St}
    (p p' : ZeroleaseProvider (St * list ApiCall)) w r w' :
  traverse (provider_step (VaultApi0 := logged_VaultApi))
    (replicate (length (prov_queue p)) MoveWork) p w = (r, p', w') →
  r = Ok (Attempted <$> prov_queue p) ∧ prov_queue p' = [] ∧
  ((∀ t s w, is_ok (api_connect (St := St) t s w).1.1 = true) →
   revoked (prov_log p') = revoked (prov_log p) ++ prov_queue p).
Proof.
  intros Hrun. destruct (wp_run _ _ _ _ _ _ _ (drain_wp p w) Hrun) as (-> & Hq & Hlog).
  split; [done|]. split; [done|]. intros Hconn. rewrite (Hlog Hconn), revoked_app. f_equal.
  generalize (prov_queue p) as q. intros q. induction q as [|id q IH]; [done|].
  unfold revoked in *. simpl. by f_equal.
Qed.

(** The session and the tool named in a request play no role. *)
Theorem provider_ignores_session {St} `{!Env, !UuidText, !VaultApi St} name domain agent
    session tool :
  ZeroleaseProvider_acquire (mkCredentialRequest name domain agent session tool) =
  ZeroleaseProvider_acquire (mkCredentialRequest name domain agent None None).
Proof. reflexivity. Qed.

(** ** Witnesses *)

Definition demo_credential_request : CredentialRequest :=
  mkCredentialRequest (SecretName_new "gh") (DomainScope_new "github.com") (AgentId_new "tool")
    None None.
Definition demo_provider : ZeroleaseProvider (unit * list ApiCall) := mkProvider (tt, []) [] [].

Module DemoProvider.
#[export] Existing Instance demo_Env.
#[export] Existing Instance demo_UuidText.
#[export] Existing Instance demo_VaultApi.
End DemoProvider.
Import DemoProvider.

Definition demo_moves : list Move :=
  [MoveAcquire demo_credential_request; MoveAcquire demo_credential_request; MoveDrop 0; MoveWork].

Lemma provider_leases_accounted_witness :
  ∃ p' w', traverse (provider_step (VaultApi0 := logged_VaultApi)) demo_moves demo_provider
      demo_world = (Ok [Granted 1; Granted 1; Queued 1; Attempted 1], p', w') ∧
    provider_inv [Granted 1; Granted 1; Queued 1; Attempted 1] p'.
Proof.
  destruct (traverse (provider_step (VaultApi0 := logged_VaultApi)) demo_moves demo_provider
      demo_world) as [[r p'] w'] eqn:Hrun.
  destruct (provider_leases_accounted demo_moves demo_provider p' demo_world r w'
    (VaultApiLaws0 := demo_VaultApiLaws) ltac:(done) Hrun) as (evs & -> & _ & Hinv).
  assert (evs = [Granted 1; Granted 1; Queued 1; Attempted 1]) as -> by
    (vm_compute in Hrun; congruence).
  exists p', w'. done.
Defined.

Lemma provider_drains_witness :
  ∃ p' w', traverse (provider_step (VaultApi0 := logged_VaultApi)) [MoveWork; MoveWork]
      (mkProvider (tt, []) [7%N; 8%N] []) demo_world = (Ok [Attempted 7; Attempted 8], p', w') ∧
    revoked (prov_log p') = [7%N; 8%N].
Proof.
  destruct (traverse (provider_step (VaultApi0 := logged_VaultApi)) [MoveWork; MoveWork]
      (mkProvider (tt, []) [7%N; 8%N] []) demo_world) as [[r p'] w'] eqn:Hrun.
  destruct (provider_drains (VaultApiLaws0 := demo_VaultApiLaws)
    (mkProvider (tt, []) [7%N; 8%N] []) p' demo_world r w' Hrun) as (-> & _ & Hrev).
  exists p', w'. split; [done|]. apply Hrev. done.
Defined.

(** When the secret cannot be read after the lease was granted, no guard knows the lease and
    nothing ever revokes it. *)
Definition failing_VaultApi : VaultApi unit := {|
  api_connect := λ _, mret tt;
  api_request_lease := λ _ _ _, mret demo_grant;
  api_access_secret := λ _ _, throw (Transport "connection reset");
  api_revoke_lease := λ _ _, mret tt
|}.
Theorem provider_leaks_lease :
  let '(r, p', _) := traverse (provider_step (VaultApi0 := logged_VaultApi (VaultApi0 := failing_VaultApi)))
    [MoveAcquire demo_credential_request; MoveWork] demo_provider demo_world in
  (∃ e, r = Ok [Refused e; Idle]) ∧ leased (prov_log p') = [1%N] ∧ revoked (prov_log p') = [] ∧
  prov_queue p' = [].
Proof. vm_compute. eauto. Qed.
