(* ===== verification/Vault.v ===== *)
(** The vault: [src/vault.rs].

    Here an operation is a sequential run, in one piece; [VaultThreads] takes it apart into
    its guards and awaits. The state holds the key source, the store and the audit log behind
    their interfaces, and the tables the code keeps in memory. *)
From S2P Require Import Prelude Text Concrete Types Lease Policy Session Store.
From S2P Require Import Crypto KeySource Auth AuditEvents.

Local Open Scope string_scope.
Local Open Scope Z_scope.
Local Open Scope list_scope.

(** ** State *)

Record Vault (K S A : Type) := mkVault {
  vault_key_source : K;
  vault_store : S;
  vault_audit : A;
  vault_policy : PolicyEngine;
  vault_leases : gmap LeaseId Lease;
  vault_sessions : gmap SessionToken Session;
  vault_dek : option DataEncryptionKey;
  vault_cipher : Cipher;
  vault_max_leases_per_agent : nat
}.
Arguments mkVault {K S A}.
Arguments vault_key_source {K S A}.
Arguments vault_store {K S A}.
Arguments vault_audit {K S A}.
Arguments vault_policy {K S A}.
Arguments vault_leases {K S A}.
Arguments vault_sessions {K S A}.
Arguments vault_dek {K S A}.
Arguments vault_cipher {K S A}.
Arguments vault_max_leases_per_agent {K S A}.

Section setters.
Context {K S A : Type}.
Implicit Type v : Vault K S A.

Definition set_key_source (k : K) v : Vault K S A :=
  mkVault k (vault_store v) (vault_audit v) (vault_policy v) (vault_leases v)
    (vault_sessions v) (vault_dek v) (vault_cipher v) (vault_max_leases_per_agent v).
Definition set_store (s : S) v : Vault K S A :=
  mkVault (vault_key_source v) s (vault_audit v) (vault_policy v) (vault_leases v)
    (vault_sessions v) (vault_dek v) (vault_cipher v) (vault_max_leases_per_agent v).
Definition set_audit (a : A) v : Vault K S A :=
  mkVault (vault_key_source v) (vault_store v) a (vault_policy v) (vault_leases v)
    (vault_sessions v) (vault_dek v) (vault_cipher v) (vault_max_leases_per_agent v).
Definition set_leases (m : gmap LeaseId Lease) v : Vault K S A :=
  mkVault (vault_key_source v) (vault_store v) (vault_audit v) (vault_policy v) m
    (vault_sessions v) (vault_dek v) (vault_cipher v) (vault_max_leases_per_agent v).
Definition set_sessions (m : gmap SessionToken Session) v : Vault K S A :=
  mkVault (vault_key_source v) (vault_store v) (vault_audit v) (vault_policy v)
    (vault_leases v) m (vault_dek v) (vault_cipher v) (vault_max_leases_per_agent v).
Definition set_dek (d : option DataEncryptionKey) v : Vault K S A :=
  mkVault (vault_key_source v) (vault_store v) (vault_audit v) (vault_policy v)
    (vault_leases v) (vault_sessions v) d (vault_cipher v) (vault_max_leases_per_agent v).
Definition set_max_leases (n : nat) v : Vault K S A :=
  mkVault (vault_key_source v) (vault_store v) (vault_audit v) (vault_policy v)
    (vault_leases v) (vault_sessions v) (vault_dek v) (vault_cipher v) n.
End setters.

(** [leases.values().filter(|l| &l.agent == agent && !l.revoked).count()] *)
Definition active_for (agent : AgentId) (kl : LeaseId * Lease) : Prop :=
  lease_agent kl.2 = agent ∧ lease_revoked kl.2 = false.
#[global] Instance active_for_dec agent kl : Decision (active_for agent kl).
Proof. unfold active_for. apply _. Defined.
Definition active_count (agent : AgentId) (m : gmap LeaseId Lease) : nat :=
  size (filter (active_for agent) m).

Definition DEFAULT_MAX_LEASES_PER_AGENT : nat := 100.
Definition MAX_EXTENSION_SECS : Z := 86400.

(** [Vault::new] and [Vault::with_max_leases_per_agent] *)
Definition Vault_new {K S A} (key_source : K) (store : S) (audit : A)
    (policy : PolicyEngine) (default_algorithm : CipherAlgorithm) : Vault K S A :=
  mkVault key_source store audit policy ∅ ∅ None (Cipher_new default_algorithm)
    DEFAULT_MAX_LEASES_PER_AGENT.
Definition Vault_with_max_leases_per_agent {K S A} (self : Vault K S A) (max : nat)
    : Vault K S A := set_max_leases max self.

(** ** Operations *)

Section operations.
Context {K S A : Type}.
Context `{!Env, !Chrono, !UuidText, !HashIter, !Aead}.
Context `{!KeySource K, !SecretStore S, !AuditLog A}.
Abbreviation VM := (M (Vault K S A) Error).

Definition on_store {B} (m : M S Error B) : VM B := zoom vault_store set_store m.
Definition on_audit {B} (m : M A Error B) : VM B := zoom vault_audit set_audit m.
Definition on_key_source {B} (m : M K Error B) : VM B :=
  zoom vault_key_source set_key_source m.

Definition Vault_initialize : VM unit :=
  dek ← on_key_source ks_load_or_create_dek;
  modify (set_dek (Some dek)).

Definition Vault_trace_and_record (entry : AuditEntry) : VM unit :=
  on_audit (audit_record entry).

Definition Vault_trace_and_record_best_effort (entry : AuditEntry) : VM unit :=
  try_ (on_audit (audit_record entry));; mret tt.

(** [AuditEntry::new] followed by one of the two. *)
Definition audit_event (ev : AuditEvent) (agent : AgentId) (peer : PeerIdentity)
    (outcome : AuditOutcome) : VM unit :=
  entry ← AuditEntry_new ev agent peer outcome;
  Vault_trace_and_record entry.
Definition audit_event_best_effort (ev : AuditEvent) (agent : AgentId)
    (peer : PeerIdentity) (outcome : AuditOutcome) : VM unit :=
  entry ← AuditEntry_new ev agent peer outcome;
  Vault_trace_and_record_best_effort entry.

Definition no_dek : Error := KeySourceUnavailable "vault not initialized (no DEK)".

Definition Vault_encrypt (plaintext : bytes) : VM Sealed :=
  self ← read;
  dek ← ok_or (vault_dek self) no_dek;
  Cipher_encrypt (vault_cipher self) plaintext dek.

Definition Vault_decrypt (ciphertext nonce : bytes) (algorithm : CipherAlgorithm)
    : VM string :=
  self ← read;
  dek ← ok_or (vault_dek self) no_dek;
  raw ← lift (Cipher_decrypt (vault_cipher self) (mkSealed ciphertext nonce algorithm) dek);
  ok_or (from_utf8 raw) DecryptionFailed.

Definition Vault_request_lease (agent : AgentId) (secret_name : SecretName)
    (domain : DomainScope) (peer : PeerIdentity) : VM LeaseGrant :=
  self ← read;
  match PolicyEngine_evaluate (vault_policy self) agent secret_name domain with
  | Err e =>
    audit_event (EvAccessDenied secret_name domain (Error_to_string e)) agent peer
      (Denied (Error_to_string e));;
    throw e
  | Panic => panic
  | Ok terms =>
    if (vault_max_leases_per_agent self <=? active_count agent (vault_leases self))%nat
    then throw (InvalidConfig ("agent " +:+ AgentId_display agent
           +:+ " has reached the maximum of "
           +:+ fmt_Z (Z.of_nat (vault_max_leases_per_agent self)) +:+ " active leases"))
    else
      on_store (store_get secret_name);;
      lease ← Lease_new agent secret_name [domain] terms;
      let grant := LeaseGrant_from lease in
      audit_event (EvLeaseGranted (lease_id lease) secret_name [domain]
                     (td_num_seconds (terms_ttl terms))) agent peer Success;;
      modify (λ v, set_leases (<[lease_id lease := lease]> (vault_leases v)) v);;
      mret grant
  end.

Definition Vault_access_secret (lease_id : LeaseId) (target_domain : string)
    (peer : PeerIdentity) : VM LeaseGuard :=
  self ← read;
  lease ← ok_or (vault_leases self !! lease_id) (LeaseNotFound lease_id);
  Lease_validate lease target_domain;;
  lease' ← lift (Lease_record_use lease);
  modify (λ v, set_leases (<[lease_id := lease']> (vault_leases v)) v);;
  let agent := lease_agent lease' in
  let secret_name := lease_secret_name lease' in
  stored ← on_store (store_get secret_name);
  plaintext ← Vault_decrypt (stored_ciphertext stored) (stored_nonce stored)
                (stored_algorithm stored);
  let guard := LeaseGuard_new lease_id plaintext in
  audit_event (EvSecretAccessed lease_id secret_name (DomainScope_new target_domain))
    agent peer Success;;
  mret guard.

Definition Vault_revoke_lease (lease_id : LeaseId) (reason : RevocationReason)
    (peer : PeerIdentity) : VM unit :=
  self ← read;
  lease ← ok_or (vault_leases self !! lease_id) (LeaseNotFound lease_id);
  modify (λ v, set_leases (<[lease_id := Lease_revoke lease]> (vault_leases v)) v);;
  audit_event (EvLeaseRevoked lease_id reason) (lease_agent lease) peer Success.

(** The loop of [revoke_all_for_agent], [delete_secret] and [revoke_session]: every
    lease that [sel] selects and that is not yet revoked is revoked, audited on a
    best-effort basis, and counted with [incr]. *)
Definition revoke_loop (sel : Lease → bool) (reason : RevocationReason)
    (incr : Z → Z) (peer : PeerIdentity) : VM Z :=
  self ← read;
  fold_m (λ count (kl : LeaseId * Lease),
    let lease := kl.2 in
    if sel lease && negb (lease_revoked lease) then
      modify (λ v, set_leases (<[kl.1 := Lease_revoke lease]> (vault_leases v)) v);;
      audit_event_best_effort (EvLeaseRevoked (lease_id lease) reason)
        (lease_agent lease) peer Success;;
      mret (incr count)
    else mret count) 0 (hash_iter (vault_leases self)).

Definition Vault_revoke_all_for_agent (agent : AgentId) (peer : PeerIdentity) : VM Z :=
  revoke_loop (λ l, bool_decide (lease_agent l = agent)) AdminRevoked Z.succ peer.

Definition Vault_store_secret (name : SecretName) (plaintext : bytes) (kind : SecretKind)
    (description : option string) (peer : PeerIdentity) : VM SecretMetadata :=
  sealed ← Vault_encrypt plaintext;
  let params := mkStoreSecretParams name (sealed_ciphertext sealed) (sealed_nonce sealed)
                  (sealed_algorithm sealed) kind description in
  stored ← on_store (store_put params);
  audit_event (EvSecretStored name) (AgentId_new "admin") peer Success;;
  mret (SecretMetadata_from stored).

Definition Vault_list_secrets : VM (list SecretMetadata) := on_store store_list.

(** [sessions.values().find(|s| s.id == session_id)] *)
Definition find_session (sid : SessionId) (m : gmap SessionToken Session) : option Session :=
  (λ its : nat * (SessionToken * Session), its.2.2) <$>
    list_find (λ ts : SessionToken * Session, session_id ts.2 = sid) (hash_iter m).

(** The renewal cap of the lease's session, when it has one and it is still known. *)
Definition renewal_limit (lease : Lease) (m : gmap SessionToken Session) : option Z :=
  match lease_session_id lease with
  | Some sid =>
    match find_session sid m with
    | Some session =>
      if max_renewals_per_lease (session_policy session) <=? lease_renewal_count lease
      then Some (max_renewals_per_lease (session_policy session)) else None
    | None => None
    end
  | None => None
  end.

Definition Vault_renew_lease (lease_id : LeaseId) (extension_secs : Z)
    (peer : PeerIdentity) : VM LeaseGrant :=
  self ← read;
  lease ← ok_or (vault_leases self !! lease_id) (LeaseNotFound lease_id);
  now ← utc_now;
  if lease_expires_at lease <? now then throw (LeaseExpired lease_id) else
  if (extension_secs <=? 0) || (MAX_EXTENSION_SECS <? extension_secs)
  then throw (InvalidConfig ("extension must be between 1 and "
         +:+ fmt_Z MAX_EXTENSION_SECS +:+ " seconds, got " +:+ fmt_Z extension_secs))
  else
  match renewal_limit lease (vault_sessions self) with
  | Some max => throw (RenewalLimitReached lease_id max)
  | None =>
    extension ← expect (td_seconds extension_secs);
    lease' ← Lease_renew lease extension;
    modify (λ v, set_leases (<[lease_id := lease']> (vault_leases v)) v);;
    audit_event (EvLeaseRenewed lease_id extension_secs) (lease_agent lease') peer Success;;
    mret (LeaseGrant_from lease')
  end.

Definition Vault_delete_secret (name : SecretName) (peer : PeerIdentity) : VM unit :=
  revoke_loop (λ l, bool_decide (lease_secret_name l = name)) SecretDeleted Z.succ peer;;
  on_store (store_delete name);;
  audit_event (EvSecretDeleted name) (AgentId_new "admin") peer Success.

(** One iteration of the re-encryption loop of [rotate_dek]. *)
Definition reencrypt (cipher : Cipher) (old_dek new_dek : DataEncryptionKey)
    (meta : SecretMetadata) : VM BatchUpdateItem :=
  stored ← on_store (store_get (meta_name meta));
  plaintext ← lift (Cipher_decrypt cipher
                (mkSealed (stored_ciphertext stored) (stored_nonce stored)
                   (stored_algorithm stored)) old_dek);
  new_sealed ← Cipher_encrypt cipher plaintext new_dek;
  mret (mkBatchUpdateItem (meta_name meta) (sealed_ciphertext new_sealed)
          (sealed_nonce new_sealed) (sealed_algorithm new_sealed)).

Definition Vault_rotate_dek (peer : PeerIdentity) : VM unit :=
  self ← read;
  old_dek ← ok_or (vault_dek self) no_dek;
  new_key_bytes ← fill_bytes 32;
  let new_dek := DataEncryptionKey_from_bytes new_key_bytes in
  secrets ← on_store store_list;
  updates ← traverse (reencrypt (vault_cipher self) old_dek new_dek) secrets;
  on_store (store_batch_update updates);;
  on_key_source (ks_rotate_dek new_dek);;
  modify (set_dek (Some new_dek));;
  audit_event EvDekRotated (AgentId_new "admin") peer Success.

(** [retain] visits every entry; a revoked lease is dropped without reading the clock. *)
Definition Vault_gc_leases : VM Z :=
  self ← read;
  for_each (λ kl : LeaseId * Lease,
    keep ← (if negb (lease_revoked kl.2)
            then d ← Lease_time_remaining kl.2; mret (0 <? td_num_seconds d)
            else mret false);
    if (keep : bool) then mret tt
    else modify (λ v, set_leases (delete kl.1 (vault_leases v)) v))
    (hash_iter (vault_leases self));;
  self' ← read;
  mret (Z.of_nat (size (vault_leases self)) - Z.of_nat (size (vault_leases self'))).

Definition Vault_create_session (user channel : string) (policy : SessionPolicy)
    (peer : PeerIdentity) : VM (SessionToken * SessionId) :=
  session ← Session_new user channel policy;
  let sid := session_id session in
  remaining ← Session_time_remaining session;
  let duration_secs := td_num_seconds remaining in
  bytes ← fill_bytes 16;
  let token := SessionToken_from_bytes bytes in
  modify (λ v, set_sessions (<[token := session]> (vault_sessions v)) v);;
  audit_event (EvSessionCreated sid user channel duration_secs) (AgentId_new user) peer
    Success;;
  mret (token, sid).

Definition Vault_validate_session (token : SessionToken) : VM Session :=
  self ← read;
  session ← ok_or (vault_sessions self !! token) SessionNotFound;
  if session_revoked session then throw (SessionRevoked (session_id session)) else
  expired ← Session_is_expired session;
  if (expired : bool) then throw (SessionExpired (session_id session))
  else mret session.

Definition Vault_revoke_session (token : SessionToken) (peer : PeerIdentity) : VM unit :=
  self ← read;
  session ← ok_or (vault_sessions self !! token) SessionNotFound;
  modify (λ v, set_sessions (<[token := Session_revoke session]> (vault_sessions v)) v);;
  let sid := session_id session in
  leases_revoked ← revoke_loop (λ l, bool_decide (lease_session_id l = Some sid))
                     SessionRevokedReason (λ n, u32_add n 1) peer;
  audit_event (EvSessionRevoked sid "explicit revocation" leases_revoked)
    (AgentId_new "session") peer Success.

Definition Vault_request_lease_scoped (agent : AgentId) (secret_name : SecretName)
    (domain : DomainScope) (peer : PeerIdentity) (session_token : SessionToken)
    (tool_name : string) : VM LeaseGrant :=
  self ← read;
  session ← ok_or (vault_sessions self !! session_token) SessionNotFound;
  if session_revoked session then throw (SessionRevoked (session_id session)) else
  expired ← Session_is_expired session;
  if (expired : bool) then throw (SessionExpired (session_id session)) else
  match Session_check_tool_binding session tool_name secret_name domain with
  | Err _ =>
    audit_event_best_effort
      (EvToolBindingDenied (session_id session) tool_name secret_name
         ("tool '" +:+ tool_name +:+ "' is not bound to secret '"
          +:+ SecretName_display secret_name +:+ "' for domain '"
          +:+ DomainScope_display domain +:+ "'"))
      agent peer (Denied "tool-to-secret binding denied");;
    throw (AccessDenied (AgentId_new tool_name) secret_name domain)
  | Panic => panic
  | Ok _ =>
    if max_concurrent_leases (session_policy session) <=? session_active_lease_count session
    then throw (SessionLeaseLimitReached (session_id session)
                  (max_concurrent_leases (session_policy session)))
    else
      grant ← Vault_request_lease agent secret_name domain peer;
      modify (λ v, set_leases (alter (set_lease_session (Some (session_id session)))
                                 (grant_lease_id grant) (vault_leases v)) v);;
      modify (λ v, set_sessions
                (alter (λ s, set_active_lease_count
                               (u32_add (session_active_lease_count s) 1) s)
                   session_token (vault_sessions v)) v);;
      mret grant
  end.

(** [retain(|_, session| session.is_active())] *)
Definition Vault_gc_sessions : VM Z :=
  self ← read;
  for_each (λ ts : SessionToken * Session,
    keep ← Session_is_active ts.2;
    if (keep : bool) then mret tt
    else modify (λ v, set_sessions (delete ts.1 (vault_sessions v)) v))
    (hash_iter (vault_sessions self));;
  self' ← read;
  mret (Z.of_nat (size (vault_sessions self)) - Z.of_nat (size (vault_sessions self'))).
End operations.
