(* ===== verification/VaultInv.v ===== *)
(** How the vault's state evolves.

    Every operation of [Vault] moves the lease table by the micro-steps [lstep] (issue,
    use, renew, revoke, link, drop), only appends to the audit log, and never changes
    the policy, the cipher or the cap. [evolves] packages this; each operation is shown
    to evolve the vault, and the invariants of later files are proved once per
    micro-step instead of once per operation. *)
From S2P Require Import Prelude Text Types Lease Policy Session Store Crypto.
From S2P Require Import KeySource Auth AuditEvents Vault.

Local Open Scope string_scope.
Local Open Scope Z_scope.
Local Open Scope list_scope.

(** ** Micro-steps of the lease table *)

Section lstep.
Context `{!Env}.
Variables (pol : PolicyEngine) (cap : nat).

(** A lease just issued under the policy for one requested scope. *)
Definition issued_as (l : Lease) (d : DomainScope) (t : LeaseTerms) : Prop :=
  PolicyEngine_evaluate pol (lease_agent l) (lease_secret_name l) d = Ok t ∧
  lease_allowed_domains l = [d] ∧ lease_max_uses l = terms_max_uses t ∧
  lease_renewable l = terms_renewable t ∧
  lease_use_count l = 0 ∧ lease_renewal_count l = 0 ∧
  lease_revoked l = false ∧ lease_session_id l = None.

Inductive lstep : gmap LeaseId Lease * World → gmap LeaseId Lease * World → Prop :=
  | ls_time m w w' : world_le w w' → lstep (m, w) (m, w')
  | ls_issue m w w' i l d t :
      world_le w w' → (w_uuid w ≤ i < w_uuid w')%nat →
      lease_id l = LeaseId_from_uuid (now_v7 i) → issued_as l d t →
      (active_count (lease_agent l) m < cap)%nat →
      lstep (m, w) (<[lease_id l := l]> m, w')
  | ls_use m w k l l' :
      m !! k = Some l → lease_revoked l = false → Lease_record_use l = Ok l' →
      lstep (m, w) (<[k := l']> m, w)
  | ls_renew m w k l t :
      m !! k = Some l → lease_revoked l = false → lease_renewable l = true →
      lstep (m, w) (<[k := set_renewal t (u32_add (lease_renewal_count l) 1) l]> m, w)
  | ls_revoke m w k l :
      m !! k = Some l → lstep (m, w) (<[k := Lease_revoke l]> m, w)
  | ls_link m w k sid :
      lstep (m, w) (alter (set_lease_session (Some sid)) k m, w)
  | ls_drop m w k : lstep (m, w) (delete k m, w).
End lstep.

Abbreviation lsteps pol cap := (rtc (lstep pol cap)).

(** ** Evolution of a vault *)

Section evolves.
Context {K S A : Type}.
Context `{!Env, !Chrono, !UuidText, !HashIter, !Aead}.
Context `{!KeySource K, !SecretStore S, !AuditLog A}.
Context `{!KeySourceLaws K, !SecretStoreLaws S, !AuditLogLaws A}.
Implicit Types (v : Vault K S A) (w : World).

Definition evolves (v : Vault K S A) (w : World) (v' : Vault K S A) (w' : World) : Prop :=
  vault_policy v' = vault_policy v ∧ vault_cipher v' = vault_cipher v ∧
  vault_max_leases_per_agent v' = vault_max_leases_per_agent v ∧
  (∃ es, audit_view (vault_audit v') = audit_view (vault_audit v) ++ es) ∧
  lsteps (vault_policy v) (vault_max_leases_per_agent v)
    (vault_leases v, w) (vault_leases v', w').

Lemma evolves_refl v w : evolves v w v w.
Proof. repeat split; try done. exists []. by rewrite app_nil_r. Qed.

Lemma evolves_trans v1 w1 v2 w2 v3 w3 :
  evolves v1 w1 v2 w2 → evolves v2 w2 v3 w3 → evolves v1 w1 v3 w3.
Proof.
  intros (Hp & Hc & Hm & [es He] & Hl) (Hp' & Hc' & Hm' & [es' He'] & Hl').
  split; [congruence|]. split; [congruence|]. split; [congruence|]. split.
  - exists (es ++ es'). by rewrite He', He, app_assoc.
  - rewrite Hp, Hm in Hl'. by etrans.
Qed.

(** A change that leaves the tables and the log alone. *)
Lemma evolves_frame v w v' w' :
  vault_policy v' = vault_policy v → vault_cipher v' = vault_cipher v →
  vault_max_leases_per_agent v' = vault_max_leases_per_agent v →
  vault_audit v' = vault_audit v → vault_leases v' = vault_leases v →
  world_le w w' → evolves v w v' w'.
Proof.
  unfold evolves. intros -> -> -> -> -> Hw. repeat split; try done.
  - exists []. by rewrite app_nil_r.
  - apply rtc_once. by constructor.
Qed.

(** A micro-step of the lease table. *)
Lemma evolves_lstep v w m w' :
  lstep (vault_policy v) (vault_max_leases_per_agent v) (vault_leases v, w) (m, w') →
  evolves v w (set_leases m v) w'.
Proof.
  intros Hl. repeat split; try done.
  - exists []. by rewrite app_nil_r.
  - by apply rtc_once.
Qed.

(** [m] evolves the vault on every outcome. *)
Definition evolving {B} (m : M (Vault K S A) Error B) : Prop :=
  ∀ v w, wp m v w (λ _ v' w', evolves v w v' w').

Lemma evolving_ret {B} (b : B) : evolving (mret b).
Proof. intros v w. apply wp_ret, evolves_refl. Qed.
Lemma evolving_throw {B} e : evolving (throw e : M _ _ B).
Proof. intros v w. wp_step. apply evolves_refl. Qed.
Lemma evolving_panic {B} : evolving (panic : M _ _ B).
Proof. intros v w. wp_step. apply evolves_refl. Qed.
Lemma evolving_lift {B} (r : outcome Error B) : evolving (lift r).
Proof. intros v w. wp_step; apply evolves_refl. Qed.
Lemma evolving_read : evolving read.
Proof. intros v w. wp_step. apply evolves_refl. Qed.
Lemma evolving_ok_or {B} (o : option B) e : evolving (ok_or o e).
Proof. destruct o; [apply evolving_ret|apply evolving_throw]. Qed.
Lemma evolving_expect {B} (o : option B) : evolving (expect o).
Proof. destruct o; [apply evolving_ret|apply evolving_panic]. Qed.

Lemma evolving_bind {B C} (m : M (Vault K S A) Error B) (k : B → M _ Error C) :
  evolving m → (∀ b, evolving (k b)) → evolving (m ≫= k).
Proof.
  intros Hm Hk v w. apply wp_bind. eapply wp_mono; [apply Hm|].
  intros [b|e|] v' w' Hev; simpl; [|done..].
  eapply wp_mono; [apply Hk|]. intros r v'' w'' Hev'. by eapply evolves_trans.
Qed.

(** [k] only runs on the state [m] left, which satisfies [P]. *)
Lemma evolving_try {B} (m : M (Vault K S A) Error B) :
  evolving m → evolving (try_ m : M _ Error _).
Proof.
  intros Hm v w. apply wp_try. eapply wp_mono; [apply Hm|]. by intros [b|e|].
Qed.

Lemma evolving_fold_m {B C} (f : C → B → M (Vault K S A) Error C) acc xs :
  (∀ c x, evolving (f c x)) → evolving (fold_m f acc xs).
Proof.
  intros Hf. revert acc. induction xs as [|x xs IH]; intros acc; simpl.
  - apply evolving_ret.
  - apply evolving_bind; auto.
Qed.
Lemma evolving_for_each {B} (f : B → M (Vault K S A) Error unit) xs :
  (∀ x, evolving (f x)) → evolving (for_each f xs).
Proof.
  intros Hf. induction xs as [|x xs IH]; simpl;
    [apply evolving_ret|apply evolving_bind; auto].
Qed.
Lemma evolving_traverse {B C} (f : B → M (Vault K S A) Error C) xs :
  (∀ x, evolving (f x)) → evolving (traverse f xs).
Proof.
  intros Hf. induction xs as [|x xs IH]; simpl; [apply evolving_ret|].
  apply evolving_bind; [done|]. intros y. apply evolving_bind; [done|].
  intros ys. apply evolving_ret.
Qed.

(** Calls that touch neither the lease table nor the log. *)
Lemma evolving_utc_now : evolving utc_now.
Proof. intros v w. wp_step. apply evolves_frame; auto with zerolease. Qed.
Lemma evolving_uuid : evolving uuid_now_v7.
Proof. intros v w. wp_step. apply evolves_frame; auto with zerolease. Qed.
Lemma evolving_fill_bytes n : evolving (fill_bytes n).
Proof. intros v w. wp_step. apply evolves_frame; auto with zerolease. Qed.
Lemma evolving_on_store {B} (m : M S Error B) : forward m → evolving (on_store m).
Proof.
  intros Hm v w. apply wp_zoom. eapply wp_mono; [apply Hm|]. intros r s' w' Hw.
  by apply evolves_frame.
Qed.
Lemma evolving_on_key_source {B} (m : M K Error B) : forward m → evolving (on_key_source m).
Proof.
  intros Hm v w. apply wp_zoom. eapply wp_mono; [apply Hm|]. intros r s' w' Hw.
  by apply evolves_frame.
Qed.
Lemma evolving_set_dek d : evolving (modify (set_dek d)).
Proof. intros v w. wp_step. by apply evolves_frame. Qed.
Lemma evolving_set_sessions f : evolving (modify (λ v, set_sessions (f v) v)).
Proof. intros v w. wp_step. by apply evolves_frame. Qed.
Lemma evolving_drop_lease k :
  evolving (modify (λ v, set_leases (delete k (vault_leases v)) v)).
Proof. intros v w. wp_step. apply evolves_lstep, ls_drop. Qed.

(** Recording an event appends it, or leaves the log alone. *)
Lemma Vault_trace_and_record_wp entry v w :
  wp (Vault_trace_and_record entry) v w (λ r v' w',
    r ≠ Panic ∧ world_le w w' ∧
    v' = set_audit (vault_audit v') v ∧
    audit_view (vault_audit v') =
      if is_ok r then audit_view (vault_audit v) ++ [entry] else audit_view (vault_audit v)).
Proof.
  unfold Vault_trace_and_record, on_audit. apply wp_zoom. wp_call audit_record_spec.
  naive_solver.
Qed.

Lemma audit_event_wp ev ag peer out v w :
  wp (audit_event ev ag peer out) v w (λ r v' w',
    r ≠ Panic ∧ world_le w w' ∧ v' = set_audit (vault_audit v') v ∧
    audit_view (vault_audit v') =
      if is_ok r then audit_view (vault_audit v) ++
        [mkAuditEntry (clock (w_clock w)) (now_v7 (w_uuid w)) ev ag
           (PeerIdentity_to_string peer) out]
      else audit_view (vault_audit v)).
Proof.
  unfold audit_event. wp_step. wp_call AuditEntry_new_wp.
  intros r v1 w1 (-> & -> & ->). wp_call Vault_trace_and_record_wp.
  intros r v' w' (Hr & Hw & Hv & Ha). split; [done|]. split; [solve_world|]. done.
Qed.

Lemma audit_event_best_effort_wp ev ag peer out v w :
  wp (audit_event_best_effort ev ag peer out) v w (λ r v' w',
    r = Ok tt ∧ world_le w w' ∧ v' = set_audit (vault_audit v') v ∧
    ∃ es, audit_view (vault_audit v') = audit_view (vault_audit v) ++ es ∧
      Forall (λ e, entry_event e = ev ∧ entry_agent e = ag) es).
Proof.
  unfold audit_event_best_effort, Vault_trace_and_record_best_effort.
  wp_step. wp_call AuditEntry_new_wp.
  intros r v1 w1 (-> & -> & ->). wp_step. apply wp_try.
  wp_call Vault_trace_and_record_wp.
  intros r v' w' (Hr & Hw & Hv & Ha).
  destruct r as [[]|e|]; simpl in *; [| |done]; wp_steps;
    (split; [done|]); (split; [solve_world|]); (split; [done|]); eexists;
    (split; [try exact Ha; by rewrite app_nil_r|]); repeat constructor.
Qed.

Lemma evolves_audit v w v' w' es :
  v' = set_audit (vault_audit v') v → world_le w w' →
  audit_view (vault_audit v') = audit_view (vault_audit v) ++ es →
  evolves v w v' w'.
Proof.
  intros -> Hw He. repeat split; eauto. apply rtc_once. by constructor.
Qed.

Lemma evolving_audit_event ev ag peer out : evolving (audit_event ev ag peer out).
Proof.
  intros v w. wp_call audit_event_wp. intros r v' w' (_ & Hw & Hv & Ha).
  destruct (is_ok r); eapply evolves_audit; eauto. by rewrite app_nil_r.
Qed.
Lemma evolving_audit_event_best_effort ev ag peer out :
  evolving (audit_event_best_effort ev ag peer out).
Proof.
  intros v w. wp_call audit_event_best_effort_wp.
  intros r v' w' (_ & Hw & Hv & es & Ha & _). by eapply evolves_audit.
Qed.
End evolves.

(** ** The revocation loop *)

(** What the loop does to a lease that [sel] selects. *)
Definition revoke_if (sel : Lease → bool) (l : Lease) : Lease :=
  if sel l then Lease_revoke l else l.

(** The leases the loop revokes. *)
Definition to_revoke (sel : Lease → bool) (kl : LeaseId * Lease) : Prop :=
  sel kl.2 = true ∧ lease_revoked kl.2 = false.
#[global] Instance to_revoke_dec sel kl : Decision (to_revoke sel kl).
Proof. unfold to_revoke. apply _. Defined.

Lemma Lease_revoke_idem l : lease_revoked l = true → Lease_revoke l = l.
Proof. destruct l. simpl. by intros ->. Qed.

Section revoke_loop.
Context {K S A : Type}.
Context `{!Env, !Chrono, !UuidText, !HashIter, !Aead}.
Context `{!KeySource K, !SecretStore S, !AuditLog A, !AuditLogLaws A}.
Implicit Types (v : Vault K S A) (w : World).

(** The entries the loop may have written. *)
Definition revocation_entry (m : gmap LeaseId Lease) (sel : Lease → bool)
    (reason : RevocationReason) (e : AuditEntry) : Prop :=
  ∃ k l, m !! k = Some l ∧ to_revoke sel (k, l) ∧
    entry_event e = EvLeaseRevoked (lease_id l) reason ∧ entry_agent e = lease_agent l.

(** A map treated entry by entry. *)
Definition partial_fmap (f : Lease → Lease) (visited : list (LeaseId * Lease))
    (m0 m : gmap LeaseId Lease) : Prop :=
  ∀ k, m !! k = if decide (k ∈ visited.*1) then f <$> m0 !! k else m0 !! k.

Lemma partial_fmap_visit f visited m0 m k l x :
  partial_fmap f visited m0 m → m0 !! k = Some l → x = f l →
  partial_fmap f (visited ++ [(k, l)]) m0 (<[k := x]> m).
Proof.
  intros Hm Hk -> k'. rewrite fmap_app. destruct (decide (k' = k)) as [->|Hne].
  - rewrite lookup_insert_eq, decide_True by set_solver. by rewrite Hk.
  - rewrite lookup_insert_ne, Hm by done. destruct (decide (k' ∈ visited.*1)).
    + by rewrite decide_True by set_solver.
    + by rewrite decide_False by set_solver.
Qed.

(** The loop after the entries [visited]: exactly those have been treated. *)
Definition revoke_loop_inv (v0 : Vault K S A) (w0 : World) (sel : Lease → bool)
    (reason : RevocationReason) (incr : Z → Z)
    (count : Z) (xs : list (LeaseId * Lease)) (v : Vault K S A) (w : World) : Prop :=
  ∃ visited es,
    hash_iter (vault_leases v0) = visited ++ xs ∧
    count = Nat.iter (length (filter (to_revoke sel) visited)) incr 0 ∧
    v = set_audit (vault_audit v) (set_leases (vault_leases v) v0) ∧
    partial_fmap (revoke_if sel) visited (vault_leases v0) (vault_leases v) ∧
    audit_view (vault_audit v) = audit_view (vault_audit v0) ++ es ∧
    Forall (revocation_entry (vault_leases v0) sel reason) es ∧
    evolves v0 w0 v w.

Lemma framed_trans v0 v v' m :
  v = set_audit (vault_audit v) (set_leases (vault_leases v) v0) →
  v' = set_audit (vault_audit v') (set_leases m v) →
  v' = set_audit (vault_audit v') (set_leases (vault_leases v') v0).
Proof. destruct v0, v, v'. unfold set_audit, set_leases. simpl. congruence. Qed.

Lemma revoke_loop_step v0 w0 sel reason incr peer count kl xs v w :
  revoke_loop_inv v0 w0 sel reason incr count (kl :: xs) v w →
  wp (let lease := kl.2 in
      if sel lease && negb (lease_revoked lease) then
        modify (λ v, set_leases (<[kl.1 := Lease_revoke lease]> (vault_leases v)) v);;
        audit_event_best_effort (EvLeaseRevoked (lease_id lease) reason)
          (lease_agent lease) peer Success;;
        mret (incr count)
      else mret count) v w (λ r v' w',
    ∃ c, r = Ok c ∧ revoke_loop_inv v0 w0 sel reason incr c xs v' w').
Proof.
  destruct kl as [k l]. intros (visited & es & Hit & Hc & Hv & Hm & Ha & Hes & Hev).
  cbn [fst snd].
  assert (Hk : vault_leases v0 !! k = Some l).
  { apply elem_of_hash_iter. rewrite Hit. set_solver. }
  assert (Hnew : k ∉ visited.*1).
  { pose proof (hash_iter_NoDup (vault_leases v0)) as Hnd. rewrite Hit, fmap_app in Hnd.
    apply NoDup_app in Hnd as (_ & Hnd & _). intros Hin. apply (Hnd k Hin). set_solver. }
  assert (Hit' : hash_iter (vault_leases v0) = (visited ++ [(k, l)]) ++ xs)
    by (by rewrite <-app_assoc).
  assert (Hcur : vault_leases v !! k = Some l) by (by rewrite Hm, decide_False).
  destruct (sel l && negb (lease_revoked l)) eqn:Hsel.
  - apply andb_true_iff in Hsel as [Hs Hr]. apply negb_true_iff in Hr.
    wp_steps. wp_call audit_event_best_effort_wp.
    intros r v' w' (-> & Hw & Hv' & es' & Ha' & Hes'). wp_steps. eexists. split; [done|].
    exists (visited ++ [(k, l)]), (es ++ es'). split; [done|]. split.
    { rewrite filter_app, filter_cons_True, length_app by done. simpl.
      by rewrite Nat.add_1_r, Nat.iter_succ, Hc. }
    split; [by eapply framed_trans|].
    split. { rewrite Hv'. cbn [vault_leases set_audit set_leases].
      apply partial_fmap_visit; [done..|]. unfold revoke_if. by rewrite Hs. }
    split. { rewrite Ha'. cbn [vault_audit set_leases]. by rewrite Ha, app_assoc. }
    split. { apply Forall_app. split; [done|]. eapply Forall_impl; [done|].
      intros e [He1 He2]. exists k, l. done. }
    eapply evolves_trans; [done|]. eapply evolves_trans.
    { eapply (evolves_lstep v w (<[k := Lease_revoke l]> (vault_leases v)) w).
      by eapply ls_revoke. }
    by eapply evolves_audit.
  - wp_steps. eexists. split; [done|].
    exists (visited ++ [(k, l)]), es. split; [done|]. split.
    { rewrite filter_app, filter_cons_False, filter_nil, app_nil_r; [done|].
      intros [Hs Hr]. simpl in *. by rewrite Hs, Hr in Hsel. }
    split; [done|]. split; [|done].
    rewrite <-(insert_id (vault_leases v) k l) by done.
    apply partial_fmap_visit; [done..|]. unfold revoke_if.
    destruct (sel l); [|done]. simpl in Hsel. apply negb_false_iff in Hsel.
    by rewrite Lease_revoke_idem.
Qed.

(** The loop revokes exactly the selected leases, whatever order the map is visited in
    and whether or not the log accepts the entries. *)
Lemma revoke_loop_wp sel reason incr peer v w :
  wp (revoke_loop sel reason incr peer) v w (λ r v' w',
    r = Ok (Nat.iter (size (filter (to_revoke sel) (vault_leases v))) incr 0) ∧
    v' = set_audit (vault_audit v')
           (set_leases (revoke_if sel <$> vault_leases v) v) ∧
    (∃ es, audit_view (vault_audit v') = audit_view (vault_audit v) ++ es ∧
           Forall (revocation_entry (vault_leases v) sel reason) es) ∧
    evolves v w v' w').
Proof.
  unfold revoke_loop. wp_step. wp_step.
  apply wp_fold_m with (I := revoke_loop_inv v w sel reason incr).
  - exists [], []. split; [done|]. split; [done|]. split; [by destruct v|].
    split; [intros k; by rewrite decide_False by set_solver|].
    split; [by rewrite app_nil_r|]. split; [constructor|]. apply evolves_refl.
  - intros count kl xs v1 w1 Hinv. eapply wp_mono; [by apply revoke_loop_step|].
    intros r v' w' (c & -> & HI). done.
  - intros count v1 w1 (visited & es & Hit & -> & Hv & Hm & Ha & Hes & Hev).
    rewrite app_nil_r in Hit. rewrite <-Hit, hash_iter_filter_size.
    split; [done|]. split; [|eauto]. rewrite Hv at 1. f_equal. f_equal.
    apply map_eq. intros k. rewrite Hm, lookup_fmap, <-Hit. case_decide as Hin; [done|].
    destruct (vault_leases v !! k) as [l|] eqn:Hk; [|done].
    destruct Hin. apply list_elem_of_fmap. exists (k, l). split; [done|].
    by apply elem_of_hash_iter.
Qed.
End revoke_loop.
