(* ===== verification/VaultSpec.v ===== *)
(** The functional behaviour of every operation of the vault, on every outcome. *)
From S2P Require Import Prelude Text Types Lease Policy Session Store Crypto.
From S2P Require Import KeySource Auth AuditEvents Vault VaultInv.

Local Open Scope string_scope.
Local Open Scope Z_scope.
Local Open Scope list_scope.

Section spec.
Context {K S A : Type}.
Context `{!Env, !Chrono, !UuidText, !HashIter, !Aead}.
Context `{!KeySource K, !SecretStore S, !AuditLog A}.
Context `{!KeySourceLaws K, !SecretStoreLaws S, !AuditLogLaws A}.
Implicit Types (v : Vault K S A) (w : World).

(** [v'] is [v] with another audit log, another store and the lease table [m]. *)
Definition frame_leases v v' (m : gmap LeaseId Lease) : Prop :=
  v' = set_audit (vault_audit v') (set_store (vault_store v') (set_leases m v)).

(** The entry is this event of this agent. *)
Definition is_entry (ev : AuditEvent) (ag : AgentId) (out : AuditOutcome)
    (peer : PeerIdentity) (e : AuditEntry) : Prop :=
  entry_event e = ev ∧ entry_agent e = ag ∧ entry_outcome e = out ∧
  entry_peer_identity e = PeerIdentity_to_string peer.

Definition logged v v' (P : AuditEntry → Prop) : Prop :=
  ∃ e, audit_view (vault_audit v') = audit_view (vault_audit v) ++ [e] ∧ P e.
Definition not_logged v v' : Prop :=
  audit_view (vault_audit v') = audit_view (vault_audit v).

Lemma frame_leases_refl v : frame_leases v v (vault_leases v).
Proof. by destruct v. Qed.

(** Compose frames: the last table counts. *)
Lemma frame_leases_trans v1 v2 v3 m m' :
  frame_leases v1 v2 m → frame_leases v2 v3 m' → frame_leases v1 v3 m'.
Proof.
  unfold frame_leases, set_audit, set_store, set_leases.
  destruct v1, v2, v3. simpl. congruence.
Qed.
Lemma frame_leases_eq v v' m : frame_leases v v' m → vault_leases v' = m.
Proof. by intros ->. Qed.

Lemma audit_frame v v' :
  v' = set_audit (vault_audit v') v → frame_leases v v' (vault_leases v).
Proof.
  unfold frame_leases, set_audit, set_store, set_leases. destruct v, v'. simpl. congruence.
Qed.
Lemma store_frame v v' :
  v' = set_store (vault_store v') v → frame_leases v v' (vault_leases v).
Proof.
  unfold frame_leases, set_audit, set_store, set_leases. destruct v, v'. simpl. congruence.
Qed.
Lemma leases_frame v m : frame_leases v (set_leases m v) m.
Proof. by destruct v. Qed.

Lemma audit_event_log_wp ev ag peer out v w :
  wp (audit_event ev ag peer out) v w (λ r v' w',
    r ≠ Panic ∧ world_le w w' ∧ v' = set_audit (vault_audit v') v ∧ evolves v w v' w' ∧
    match r with Ok _ => logged v v' (is_entry ev ag out peer) | _ => not_logged v v' end).
Proof.
  eapply wp_mono; [apply wp_conj; [apply audit_event_wp|apply evolving_audit_event]|].
  intros r v' w' [(Hr & Hw & Hv & Ha) Hev]. do 4 (split; [done|]).
  destruct r; simpl in *; [|done..]. eexists. by split.
Qed.

Lemma on_store_get_wp n v w :
  wp (on_store (store_get n)) v w (λ r v' w',
    r ≠ Panic ∧ world_le w w' ∧ v' = set_store (vault_store v') v ∧ evolves v w v' w' ∧
    (store_inv (vault_store v) → v' = v ∧
       match r with
       | Ok x => store_view (vault_store v) !! n = Some x
       | Err e =>
         (e = SecretNotFound n ∧ store_view (vault_store v) !! n = None) ∨ is_storage e
       | Panic => False
       end ∧
       (Reliable → ∀ e, r = Err e → e = SecretNotFound n))).
Proof.
  unfold on_store. apply wp_zoom. apply run_wp. intros r s' w' Hrun.
  pose proof (wp_run _ _ _ _ _ _ _ (store_get_wb n _ _) Hrun) as [Hr Hw].
  split; [done|]. split; [done|]. split; [by destruct v|].
  split; [by apply evolves_frame|]. intros Hinv.
  pose proof (wp_run _ _ _ _ _ _ _ (store_get_spec n _ _ Hinv) Hrun) as (-> & Hspec).
  split; [by destruct v|done].
Qed.

(** *** [request_lease] *)

(** The lease a grant stands for. *)
Definition issued v w w' (agent : AgentId) (n : SecretName) (d : DomainScope)
    (t : LeaseTerms) (l : Lease) : Prop :=
  issued_as (vault_policy v) l d t ∧ lease_agent l = agent ∧ lease_secret_name l = n ∧
  (∃ i, (w_uuid w ≤ i < w_uuid w')%nat ∧ lease_id l = LeaseId_from_uuid (now_v7 i)) ∧
  (∃ j, (w_clock w ≤ j < w_clock w')%nat ∧ lease_issued_at l = clock j ∧
        dt_add (clock j) (terms_ttl t) = Some (lease_expires_at l)).

Lemma Lease_new_issued agent n d t v w :
  PolicyEngine_evaluate (vault_policy v) agent n d = Ok t →
  wp (Lease_new agent n [d] t) v w (λ r v' w',
    v' = v ∧ world_le w w' ∧ (∀ e, r ≠ Err e) ∧
    ∀ l, r = Ok l → issued v w w' agent n d t l).
Proof.
  intros Hpol. unfold Lease_new, LeaseId_new. wp_steps; (split; [done|]);
    (split; [solve_world|]); (split; [done|]); [|done].
  intros l [= <-]. split; [done|]. split; [done|]. split; [done|]. split.
  - exists (w_uuid w). split; [simpl; lia|done].
  - exists (w_clock w). split; [simpl; lia|done].
Qed.

Definition lease_granted_event (l : Lease) (n : SecretName) (d : DomainScope)
    (t : LeaseTerms) : AuditEvent :=
  EvLeaseGranted (lease_id l) n [d] (td_num_seconds (terms_ttl t)).

Lemma evolves_issue v w w' agent n d t l :
  issued v w w' agent n d t l → world_le w w' →
  (active_count agent (vault_leases v) < vault_max_leases_per_agent v)%nat →
  evolves v w (set_leases (<[lease_id l := l]> (vault_leases v)) v) w'.
Proof.
  intros (Has & Hag & Hn & (i & Hi & Hid) & _) Hw Hcap. apply evolves_lstep.
  eapply ls_issue; eauto. by rewrite Hag.
Qed.

(** The denial branch: the event is logged, or the log's error is returned. *)
Lemma request_lease_denied_wp agent n d peer e v w :
  wp (audit_event (EvAccessDenied n d (Error_to_string e)) agent peer
        (Denied (Error_to_string e));;
      throw e : M _ Error LeaseGrant) v w (λ r v' w',
    evolves v w v' w' ∧ world_le w w' ∧
    frame_leases v v' (vault_leases v) ∧ vault_store v' = vault_store v ∧
    ∃ e', r = Err e' ∧
      ((e' = e ∧ logged v v' (is_entry (EvAccessDenied n d (Error_to_string e)) agent
                                (Denied (Error_to_string e)) peer)) ∨
       not_logged v v')).
Proof.
  wp_step. wp_call audit_event_log_wp. intros r v' w' (Hr & Hw & Hv & Hev & Hlog).
  assert (Hst : vault_store v' = vault_store v) by (by rewrite Hv).
  apply audit_frame in Hv. destruct r as [[]|e'|]; [| |done].
  - wp_step. do 4 (split; [done|]). eexists. eauto.
  - do 4 (split; [done|]). eexists. eauto.
Qed.

(** The end of the granting branch: the grant is logged, then the lease is entered. *)
Lemma grant_logged_wp agent n d peer t l v w0 w :
  issued v w0 w agent n d t l → world_le w0 w →
  (active_count agent (vault_leases v) < vault_max_leases_per_agent v)%nat →
  wp (audit_event (lease_granted_event l n d t) agent peer Success;;
      modify (λ v, set_leases (<[lease_id l := l]> (vault_leases v)) v);;
      mret (LeaseGrant_from l)) v w (λ r v' w',
    evolves v w0 v' w' ∧ world_le w w' ∧ vault_store v' = vault_store v ∧
    match r with
    | Ok g => g = LeaseGrant_from l ∧
        frame_leases v v' (<[lease_id l := l]> (vault_leases v)) ∧
        logged v v' (is_entry (lease_granted_event l n d t) agent Success peer)
    | _ => frame_leases v v' (vault_leases v) ∧ not_logged v v'
    end).
Proof.
  intros Hiss Hw Hcap. wp_step. wp_call audit_event_log_wp.
  intros r v3 w3 (Hr3 & Hw3 & Hv3 & Hev3 & Hlog3).
  destruct (evolves_issue _ _ _ _ _ _ _ _ Hiss Hw Hcap) as (_ & _ & _ & _ & Hls).
  destruct r as [[]|e|]; [| |done].
  - wp_steps. split.
    { rewrite Hv3. destruct Hlog3 as (e & Hlog & _). do 3 (split; [done|]).
      split; [exists [e]; done|]. eapply rtc_r; [exact Hls|]. by constructor. }
    split; [done|]. split; [by rewrite Hv3|]. split; [done|]. split; [|done].
    eapply frame_leases_trans; [by apply audit_frame|]. rewrite Hv3. apply leases_frame.
  - split; [eapply evolves_trans; [by apply (evolves_frame v w0 v w)|done]|].
    split; [done|]. split; [by rewrite Hv3|]. split; [by apply audit_frame|done].
Qed.

(** The granting branch, once the policy and the cap have been checked. *)
Lemma request_lease_granted_wp agent n d peer t v w :
  PolicyEngine_evaluate (vault_policy v) agent n d = Ok t →
  (active_count agent (vault_leases v) < vault_max_leases_per_agent v)%nat →
  wp (on_store (store_get n);;
      lease ← Lease_new agent n [d] t;
      let grant := LeaseGrant_from lease in
      audit_event (lease_granted_event lease n d t) agent peer Success;;
      modify (λ v, set_leases (<[lease_id lease := lease]> (vault_leases v)) v);;
      mret grant) v w (λ r v' w',
    evolves v w v' w' ∧ world_le w w' ∧
    (store_inv (vault_store v) → vault_store v' = vault_store v ∧
       (is_ok r = true → is_Some (store_view (vault_store v) !! n))) ∧
    match r with
    | Ok g => ∃ l, issued v w w' agent n d t l ∧ g = LeaseGrant_from l ∧
        frame_leases v v' (<[lease_id l := l]> (vault_leases v)) ∧
        logged v v' (is_entry (lease_granted_event l n d t) agent Success peer)
    | _ => frame_leases v v' (vault_leases v) ∧ not_logged v v'
    end).
Proof.
  intros Hpol Hcap. wp_step. wp_call on_store_get_wp.
  intros r v1 w1 (Hr & Hw1 & Hv1 & Hev1 & Hinv). destruct r as [x|e|]; [| |done].
  2:{ do 2 (split; [done|]). split; [|split; [by apply store_frame|by rewrite Hv1]].
      intros Hi. by destruct (Hinv Hi) as [-> _]. }
  assert (Hpol1 : PolicyEngine_evaluate (vault_policy v1) agent n d = Ok t)
    by (by rewrite Hv1).
  assert (Hcap1 : (active_count agent (vault_leases v1) <
                   vault_max_leases_per_agent v1)%nat) by (by rewrite Hv1).
  assert (Hget : store_inv (vault_store v) → v1 = v ∧ is_Some (store_view (vault_store v) !! n)).
  { intros Hi. destruct (Hinv Hi) as (-> & Hx & _). eauto. }
  assert (Hnl1 : not_logged v v1) by (by rewrite Hv1). clear Hinv Hr.
  assert (Hl1 : vault_leases v1 = vault_leases v) by (by rewrite Hv1).
  assert (Hfr1 : frame_leases v v1 (vault_leases v1))
    by (rewrite Hl1; by apply store_frame).
  assert (Hp1 : vault_policy v1 = vault_policy v) by (by rewrite Hv1). clear Hv1.
  wp_step. wp_call (Lease_new_issued _ _ _ _ v1 w1 Hpol1).
  intros r v2 w2 (-> & Hw2 & Hne & Hiss). destruct r as [l|e|]; [|by destruct (Hne e)|].
  2:{ split; [eapply evolves_trans; [done|]; by apply evolves_frame|].
      split; [solve_world|]. split; [|by rewrite <-Hl1]. intros Hi.
      by destruct (Hget Hi) as [-> ?]. }
  specialize (Hiss l eq_refl). wp_step.
  wp_call (grant_logged_wp agent n d peer t l v1 w1 w2 Hiss Hw2 Hcap1).
  intros r v3 w3 (Hev3 & Hw3 & Hst & Hr3).
  split; [by eapply evolves_trans|]. split; [solve_world|]. split.
  { intros Hi. destruct (Hget Hi) as [-> ?]. by rewrite Hst. }
  destruct r as [g|e|].
  - destruct Hr3 as (-> & Hfr3 & e & Hlog & He). exists l. split.
    { destruct Hiss as (Ha & Hb & Hc & (i & Hi & Hid) & (j & Hj & Hjd)).
      split; [by rewrite <-Hp1|]. do 2 (split; [done|]).
      split; [exists i|exists j]; (split; [solve_world|done]). }
    split; [done|]. rewrite <-Hl1. split; [by eapply frame_leases_trans|].
    exists e. split; [|done]. unfold not_logged in Hnl1. by rewrite <-Hnl1.
  - destruct Hr3 as [Hfr3 Hnl3]. rewrite <-Hl1.
    split; [by eapply frame_leases_trans|unfold not_logged in *; congruence].
  - destruct Hr3 as [Hfr3 Hnl3]. rewrite <-Hl1.
    split; [by eapply frame_leases_trans|unfold not_logged in *; congruence].
Qed.

Lemma Vault_request_lease_wp agent n d peer v w :
  wp (Vault_request_lease agent n d peer) v w (λ r v' w',
    evolves v w v' w' ∧ world_le w w' ∧
    (store_inv (vault_store v) → vault_store v' = vault_store v ∧
       (is_ok r = true → is_Some (store_view (vault_store v) !! n))) ∧
    match r with
    | Ok g => ∃ t l,
        PolicyEngine_evaluate (vault_policy v) agent n d = Ok t ∧
        (active_count agent (vault_leases v) < vault_max_leases_per_agent v)%nat ∧
        issued v w w' agent n d t l ∧ g = LeaseGrant_from l ∧
        frame_leases v v' (<[lease_id l := l]> (vault_leases v)) ∧
        logged v v' (is_entry (lease_granted_event l n d t) agent Success peer)
    | Err e => frame_leases v v' (vault_leases v) ∧
        ((∃ t, PolicyEngine_evaluate (vault_policy v) agent n d = Ok t ∧ not_logged v v') ∨
         (PolicyEngine_evaluate (vault_policy v) agent n d = Err (AccessDenied agent n d) ∧
          ((e = AccessDenied agent n d ∧
            logged v v' (is_entry (EvAccessDenied n d (Error_to_string e)) agent
                           (Denied (Error_to_string e)) peer)) ∨
           not_logged v v')))
    | Panic => frame_leases v v' (vault_leases v)
    end).
Proof.
  unfold Vault_request_lease. wp_step. wp_step.
  destruct (PolicyEngine_evaluate_err (vault_policy v) agent n d _ eq_refl)
    as [[t Hpol]|Hpol]; rewrite Hpol.
  - destruct (Nat.leb_spec (vault_max_leases_per_agent v)
                (active_count agent (vault_leases v))) as [Hcap|Hcap].
    + wp_step. split; [apply evolves_refl|]. split; [reflexivity|]. split; [done|].
      split; [apply frame_leases_refl|]. left. by exists t.
    + wp_call (request_lease_granted_wp agent n d peer t v w Hpol Hcap).
      intros r v' w' (Hev & Hw & Hst & Hr). do 3 (split; [done|]).
      destruct r as [g|e|]; [|naive_solver..]. destruct Hr as (l & Hr). eauto.
  - wp_call request_lease_denied_wp.
    intros r v' w' (Hev & Hw & Hfr & Hst & e' & -> & Hlog).
    split; [done|]. split; [done|]. split; [done|]. split; [done|]. right.
    split; [done|]. destruct Hlog as [[-> Hlog]|Hlog]; auto.
Qed.

(** *** [access_secret] *)

(** [x] decrypts to the text [p] under the vault's key. *)
Definition decrypts_to v (x : StoredSecret) (p : string) : Prop :=
  ∃ dek raw, vault_dek v = Some dek ∧
    Cipher_decrypt (vault_cipher v)
      (mkSealed (stored_ciphertext x) (stored_nonce x) (stored_algorithm x)) dek = Ok raw ∧
    from_utf8 raw = Some p.

Lemma Vault_decrypt_wp x v w :
  wp (Vault_decrypt (stored_ciphertext x) (stored_nonce x) (stored_algorithm x)) v w
    (λ r v' w', v' = v ∧ w' = w ∧ r ≠ Panic ∧ ∀ p, r = Ok p ↔ decrypts_to v x p).
Proof.
  unfold Vault_decrypt, decrypts_to. wp_steps; (split; [done|]); (split; [done|]).
  - split; [done|]. intros p. split; [intros [= <-]; eauto|].
    intros (dek & raw & Hd & Hdec & Hp). congruence.
  - split; [done|]. intros p. split; [done|].
    intros (dek & raw & Hd & Hdec & Hp). congruence.
  - split; [done|]. intros p. split; [done|].
    intros (dek & raw & Hd & Hdec & Hp). congruence.
  - by destruct (Cipher_decrypt_no_panic _ _ _ Hlift).
  - split; [done|]. intros p. split; [done|].
    intros (dek & raw & Hd & Hdec & Hp). congruence.
Qed.

(** After the use has been recorded: read, decrypt, log. *)
Lemma access_tail_wp k n host ag peer v w :
  wp (stored ← on_store (store_get n);
      plaintext ← Vault_decrypt (stored_ciphertext stored) (stored_nonce stored)
                    (stored_algorithm stored);
      let guard := LeaseGuard_new k plaintext in
      audit_event (EvSecretAccessed k n (DomainScope_new host)) ag peer Success;;
      mret guard) v w (λ r v' w',
    evolves v w v' w' ∧ world_le w w' ∧ r ≠ Panic ∧ frame_leases v v' (vault_leases v) ∧
    (store_inv (vault_store v) → vault_store v' = vault_store v) ∧
    match r with
    | Ok g =>
      guard_lease_id g = k ∧
      logged v v' (is_entry (EvSecretAccessed k n (DomainScope_new host)) ag Success peer) ∧
      ∃ x, decrypts_to v x (guard_value g) ∧
           (store_inv (vault_store v) → store_view (vault_store v) !! n = Some x)
    | _ => not_logged v v'
    end).
Proof.
  wp_step. wp_call on_store_get_wp.
  intros r v1 w1 (Hr & Hw1 & Hv1 & Hev1 & Hinv).
  assert (Hst : store_inv (vault_store v) → vault_store v1 = vault_store v).
  { intros Hi. by destruct (Hinv Hi) as [-> _]. }
  assert (Hfr : frame_leases v v1 (vault_leases v)) by (by apply store_frame).
  assert (Hnl : not_logged v v1) by (by rewrite Hv1).
  destruct r as [x|e|]; [| |done]; [|by repeat (split; [done|])].
  wp_step. wp_call Vault_decrypt_wp. intros r v2 w2 (-> & -> & Hr2 & Hdec).
  destruct r as [p|e|]; [| |done]; [|by repeat (split; [done|])].
  assert (Hp : decrypts_to v x p).
  { destruct (proj1 (Hdec p) eq_refl) as (dek & raw & Hd). exists dek, raw.
    by rewrite Hv1 in Hd. }
  wp_step. wp_step. wp_call audit_event_log_wp.
  intros r v3 w3 (Hr3 & Hw3 & Hv3 & Hev3 & Hlog3).
  assert (Hev : evolves v w v3 w3) by (by eapply evolves_trans).
  assert (Hw : world_le w w3) by (by etrans).
  assert (Hst3 : store_inv (vault_store v) → vault_store v3 = vault_store v)
    by (intros Hi; rewrite Hv3; by apply Hst).
  assert (Hfr3 : frame_leases v v3 (vault_leases v)).
  { eapply frame_leases_trans; [done|]. apply audit_frame in Hv3.
    by rewrite (frame_leases_eq _ _ _ Hfr) in Hv3. }
  unfold logged, not_logged in *. rewrite Hnl in Hlog3.
  destruct r as [[]|e|]; [| |done]; [wp_step|by repeat (split; [done|])].
  do 5 (split; [done|]). split; [done|]. split; [done|]. exists x. split; [done|].
  intros Hi. by destruct (Hinv Hi) as (_ & Hx & _).
Qed.

Lemma Vault_access_secret_wp k host peer v w :
  wp (Vault_access_secret k host peer) v w (λ r v' w',
    evolves v w v' w' ∧ world_le w w' ∧ r ≠ Panic ∧
    (store_inv (vault_store v) → vault_store v' = vault_store v) ∧
    match r with
    | Ok g => ∃ l l' x,
        vault_leases v !! k = Some l ∧
        lease_live_for l (clock (w_clock w)) host ∧ Lease_record_use l = Ok l' ∧
        frame_leases v v' (<[k := l']> (vault_leases v)) ∧
        guard_lease_id g = k ∧
        logged v v' (is_entry (EvSecretAccessed k (lease_secret_name l)
                                 (DomainScope_new host)) (lease_agent l) Success peer) ∧
        decrypts_to v x (guard_value g) ∧
        (store_inv (vault_store v) →
           store_view (vault_store v) !! lease_secret_name l = Some x)
    | _ => not_logged v v' ∧
        (frame_leases v v' (vault_leases v) ∨
         ∃ l l', vault_leases v !! k = Some l ∧
           lease_live_for l (clock (w_clock w)) host ∧ Lease_record_use l = Ok l' ∧
           frame_leases v v' (<[k := l']> (vault_leases v)))
    end).
Proof.
  unfold Vault_access_secret. wp_step. wp_step. wp_step.
  destruct (vault_leases v !! k) as [l|] eqn:Hk; cbn [ok_or]; wp_step.
  2:{ split; [apply evolves_refl|]. split; [reflexivity|]. do 2 (split; [done|]).
      split; [done|]. left. apply frame_leases_refl. }
  wp_step. wp_call Lease_validate_wp. intros r v1 w1 (-> & Hw1 & Hp & Hlive).
  destruct r as [[]|e|]; [| |done].
  2:{ split; [by apply evolves_frame|]. do 4 (split; [done|]). left.
      apply frame_leases_refl. }
  pose proof (proj1 Hlive eq_refl) as Hl. pose proof Hl as (Hrev & _ & Hex & _).
  pose proof (Lease_record_use_ok l Hex) as Hru. rewrite Hru.
  set (l' := set_use_count _ l) in *.
  do 4 wp_step.
  wp_call (access_tail_wp k (lease_secret_name l') host (lease_agent l') peer).
  intros r v' w' (Hev & Hw & Hr & Hfr & Hst & Hlog).
  assert (Hev' : evolves v w v' w').
  { eapply evolves_trans; [|done]. eapply evolves_trans;
      [by apply (evolves_frame v w v w1)|].
    apply evolves_lstep. by eapply ls_use. }
  assert (Hfr' : frame_leases v v' (<[k := l']> (vault_leases v)))
    by (eapply frame_leases_trans; [apply leases_frame|exact Hfr]).
  split; [done|]. split; [solve_world|]. split; [done|]. split; [done|].
  destruct r as [g|e|]; [|split; [done|]; right; by exists l, l'|done].
  destruct Hlog as (Hg & Hlog & x & Hdec & Hx). exists l, l', x. done.
Qed.

(** *** [revoke_lease] and [renew_lease] *)

Lemma Vault_revoke_lease_wp k reason peer v w :
  wp (Vault_revoke_lease k reason peer) v w (λ r v' w',
    evolves v w v' w' ∧ world_le w w' ∧ r ≠ Panic ∧ vault_store v' = vault_store v ∧
    match vault_leases v !! k with
    | None => r = Err (LeaseNotFound k) ∧ v' = v
    | Some l =>
      frame_leases v v' (<[k := Lease_revoke l]> (vault_leases v)) ∧
      match r with
      | Ok _ => logged v v' (is_entry (EvLeaseRevoked k reason) (lease_agent l) Success peer)
      | _ => not_logged v v'
      end
    end).
Proof.
  unfold Vault_revoke_lease. do 3 wp_step.
  destruct (vault_leases v !! k) as [l|] eqn:Hk; cbn [ok_or]; wp_steps.
  2:{ split; [apply evolves_refl|]. done. }
  wp_call audit_event_log_wp. intros r v' w' (Hr & Hw & Hv & Hev & Hlog).
  split. { eapply evolves_trans; [|done]. apply evolves_lstep. by eapply ls_revoke. }
  split; [done|]. split; [done|]. split; [by rewrite Hv|]. split; [|done].
  eapply frame_leases_trans; [apply leases_frame|]. by apply (audit_frame (set_leases _ v)).
Qed.

(** The lease may be renewed for [secs] seconds, and becomes [l']. *)
Definition renewed v w (k : LeaseId) (secs : Z) (l l' : Lease) : Prop :=
  vault_leases v !! k = Some l ∧
  clock (w_clock w) ≤ lease_expires_at l ∧ 1 ≤ secs ≤ MAX_EXTENSION_SECS ∧
  renewal_limit l (vault_sessions v) = None ∧
  lease_revoked l = false ∧ lease_renewable l = true ∧
  ∃ ext t, td_seconds secs = Some ext ∧
    dt_add (clock (w_clock (tick_clock w))) ext = Some t ∧
    l' = set_renewal t (u32_add (lease_renewal_count l) 1) l.

Lemma Vault_renew_lease_wp k secs peer v w :
  wp (Vault_renew_lease k secs peer) v w (λ r v' w',
    evolves v w v' w' ∧ world_le w w' ∧ vault_store v' = vault_store v ∧
    match r with
    | Ok g => ∃ l l', renewed v w k secs l l' ∧ g = LeaseGrant_from l' ∧
        frame_leases v v' (<[k := l']> (vault_leases v)) ∧
        logged v v' (is_entry (EvLeaseRenewed k secs) (lease_agent l) Success peer)
    | _ => not_logged v v' ∧
        (frame_leases v v' (vault_leases v) ∨
         ∃ l l', renewed v w k secs l l' ∧
           frame_leases v v' (<[k := l']> (vault_leases v)))
    end).
Proof.
  unfold Vault_renew_lease, Lease_renew. wp_steps.
  all: try (split; [apply evolves_frame; try done; solve_world|];
            split; [solve_world|]; split; [done|]; split; [done|]; left;
            apply frame_leases_refl).
  match goal with
  | Hl : vault_leases v !! k = Some ?l, Ht : dt_add _ _ = Some ?t |- _ =>
      rename l into l0; rename t into t0
  end.
  set (l' := set_renewal t0 (u32_add (lease_renewal_count l0) 1) l0).
  assert (Hren : renewed v w k secs l0 l').
  { rewrite orb_false_iff, negb_false_iff, Z.leb_gt, !Z.ltb_ge in *.
    repeat (split; [first [done|lia]|]). eauto. }
  wp_call audit_event_log_wp. intros r v' w' (Hr & Hw & Hv & Hev & Hlog).
  assert (Hfr : frame_leases v v' (<[k := l']> (vault_leases v))).
  { eapply frame_leases_trans; [apply leases_frame|]. by apply (audit_frame (set_leases _ v)). }
  assert (Hev' : evolves v w v' w').
  { eapply evolves_trans; [|done]. eapply evolves_trans;
      [apply (evolves_frame v w v (tick_clock (tick_clock w))); try done; solve_world|].
    apply evolves_lstep. destruct Hren as (? & _ & _ & _ & ? & ? & _). by apply ls_renew. }
  assert (Hst : vault_store v' = vault_store v) by (by rewrite Hv).
  destruct r as [[]|e|]; [| |done]; [wp_step|]; (split; [done|]);
    (split; [solve_world|]); (split; [done|]).
  - by exists l0, l'.
  - split; [done|]. right. by exists l0, l'.
Qed.

(** *** Every operation evolves the vault *)

Lemma evolving_stateless {B} (m : M (Vault K S A) Error B) :
  (∀ v w, wp m v w (λ _ v' w', v' = v ∧ world_le w w')) → evolving m.
Proof.
  intros Hm v w. eapply wp_mono; [apply Hm|]. intros r v' w' [-> Hw].
  by apply evolves_frame.
Qed.

Lemma evolving_Cipher_encrypt c p k : evolving (Cipher_encrypt c p k : M (Vault K S A) _ _).
Proof.
  apply evolving_stateless. intros v w. wp_call Cipher_encrypt_wp. naive_solver.
Qed.
Lemma evolving_revoke_loop sel reason incr peer :
  evolving (revoke_loop sel reason incr peer : M (Vault K S A) _ _).
Proof. intros v w. wp_call revoke_loop_wp. naive_solver. Qed.
Lemma evolving_request_lease agent n d peer : 
  evolving (Vault_request_lease agent n d peer : M (Vault K S A) _ _).
Proof. intros v w. wp_call Vault_request_lease_wp. naive_solver. Qed.
Lemma evolving_link k sid :
  evolving (modify (λ v : Vault K S A, set_leases
    (alter (set_lease_session (Some sid)) k (vault_leases v)) v)).
Proof. intros v w. wp_step. apply evolves_lstep, ls_link. Qed.
Lemma evolving_is_expired s : evolving (Session_is_expired s : M (Vault K S A) _ _).
Proof.
  apply evolving_bind; [apply evolving_utc_now|intros; apply evolving_ret].
Qed.
End spec.

(** Structural proofs of [evolving]. *)
Ltac evolve_step :=
  lazymatch goal with
  | |- evolving (mret _) => apply evolving_ret
  | |- evolving (throw _) => apply evolving_throw
  | |- evolving panic => apply evolving_panic
  | |- evolving (lift _) => apply evolving_lift
  | |- evolving read => apply evolving_read
  | |- evolving (ok_or _ _) => apply evolving_ok_or
  | |- evolving (expect _) => apply evolving_expect
  | |- evolving utc_now => apply evolving_utc_now
  | |- evolving uuid_now_v7 => apply evolving_uuid
  | |- evolving (fill_bytes _) => apply evolving_fill_bytes
  | |- evolving (audit_event _ _ _ _) => apply evolving_audit_event
  | |- evolving (audit_event_best_effort _ _ _ _) => apply evolving_audit_event_best_effort
  | |- evolving (Cipher_encrypt _ _ _) => apply evolving_Cipher_encrypt
  | |- evolving (revoke_loop _ _ _ _) => apply evolving_revoke_loop
  | |- evolving (Vault_request_lease _ _ _ _) => apply evolving_request_lease
  | |- evolving (Session_is_expired _) => apply evolving_is_expired
  | |- evolving (on_store _) => apply evolving_on_store, well_behaved_forward
  | |- evolving (on_key_source _) => apply evolving_on_key_source
  | |- evolving (modify (set_dek _)) => apply evolving_set_dek
  | |- evolving (modify _) =>
      first [apply evolving_drop_lease | apply evolving_link | apply evolving_set_sessions]
  | |- evolving (for_each _ _) => apply evolving_for_each; intros ?
  | |- evolving (fold_m _ _ _) => apply evolving_fold_m; intros ? ?
  | |- evolving (traverse _ _) => apply evolving_traverse; intros ?
  | |- evolving (_ ≫= _) => apply evolving_bind; [|intros ?]
  | |- evolving (let _ := _ in _) => cbv zeta
  | |- evolving (if ?b then _ else _) => destruct b
  | |- evolving (match ?x with _ => _ end) => destruct x
  end.
Ltac evolve := repeat (evolve_step; cbn beta).

Section evolving.
Context {K S A : Type}.
Context `{!Env, !Chrono, !UuidText, !HashIter, !Aead}.
Context `{!KeySource K, !SecretStore S, !AuditLog A}.
Context `{!KeySourceLaws K, !SecretStoreLaws S, !AuditLogLaws A}.
Abbreviation VM := (M (Vault K S A) Error).

Lemma evolving_initialize : evolving (Vault_initialize : VM _).
Proof. unfold Vault_initialize. evolve. apply ks_load_forward. Qed.
Lemma evolving_access_secret k h peer : evolving (Vault_access_secret k h peer : VM _).
Proof. intros v w. wp_call Vault_access_secret_wp. naive_solver. Qed.
Lemma evolving_revoke_lease k reason peer : evolving (Vault_revoke_lease k reason peer : VM _).
Proof. intros v w. wp_call Vault_revoke_lease_wp. naive_solver. Qed.
Lemma evolving_renew_lease k secs peer : evolving (Vault_renew_lease k secs peer : VM _).
Proof. intros v w. wp_call Vault_renew_lease_wp. naive_solver. Qed.
Lemma evolving_revoke_all agent peer : evolving (Vault_revoke_all_for_agent agent peer : VM _).
Proof. unfold Vault_revoke_all_for_agent. evolve. Qed.
Lemma evolving_store_secret n p k d peer : evolving (Vault_store_secret n p k d peer : VM _).
Proof. unfold Vault_store_secret, Vault_encrypt. evolve. apply store_put_wb. Qed.
Lemma evolving_list_secrets : evolving (Vault_list_secrets : VM _).
Proof. unfold Vault_list_secrets. evolve. apply store_list_wb. Qed.
Lemma evolving_delete_secret n peer : evolving (Vault_delete_secret n peer : VM _).
Proof. unfold Vault_delete_secret. evolve. apply store_delete_wb. Qed.
Lemma evolving_rotate_dek peer : evolving (Vault_rotate_dek peer : VM _).
Proof.
  unfold Vault_rotate_dek, reencrypt. evolve.
  - apply store_list_wb.
  - apply store_get_wb.
  - apply store_batch_update_wb.
  - apply ks_rotate_forward.
Qed.
Lemma evolving_gc_leases : evolving (Vault_gc_leases : VM _).
Proof. unfold Vault_gc_leases, Lease_time_remaining. evolve. Qed.
Lemma evolving_create_session u c p peer : evolving (Vault_create_session u c p peer : VM _).
Proof.
  unfold Vault_create_session, Session_new, SessionId_new, Session_time_remaining. evolve.
Qed.
Lemma evolving_validate_session t : evolving (Vault_validate_session t : VM _).
Proof. unfold Vault_validate_session. evolve. Qed.
Lemma evolving_revoke_session t peer : evolving (Vault_revoke_session t peer : VM _).
Proof. unfold Vault_revoke_session. evolve. Qed.
Lemma evolving_request_lease_scoped a n d peer t tool :
  evolving (Vault_request_lease_scoped a n d peer t tool : VM _).
Proof. unfold Vault_request_lease_scoped. evolve. Qed.
Lemma evolving_gc_sessions : evolving (Vault_gc_sessions : VM _).
Proof. unfold Vault_gc_sessions, Session_is_active. evolve. Qed.
End evolving.

(** ** Bulk revocations, sessions and storage *)

Section spec2.
Context {K S A : Type}.
Context `{!Env, !Chrono, !UuidText, !HashIter, !Aead}.
Context `{!KeySource K, !SecretStore S, !AuditLog A}.
Context `{!KeySourceLaws K, !SecretStoreLaws S, !AuditLogLaws A}.
Implicit Types (v : Vault K S A) (w : World).

(** The leases are revoked before the store is asked to delete, so they are revoked on
    every outcome. *)
Lemma Vault_delete_secret_wp n peer v w :
  wp (Vault_delete_secret n peer) v w (λ r v' w',
    evolves v w v' w' ∧ r ≠ Panic ∧
    vault_leases v' =
      revoke_if (λ l, bool_decide (lease_secret_name l = n)) <$> vault_leases v ∧
    vault_sessions v' = vault_sessions v ∧ vault_dek v' = vault_dek v ∧
    (store_inv (vault_store v) →
     store_inv (vault_store v') ∧
     (r = Ok tt → store_view (vault_store v') = delete n (store_view (vault_store v))) ∧
     (store_view (vault_store v') = store_view (vault_store v) ∨
      store_view (vault_store v') = delete n (store_view (vault_store v))))).
Proof.
  apply run_wp. intros r v' w' Hrun.
  split; [exact (wp_run _ _ _ _ _ _ _ (evolving_delete_secret n peer v w) Hrun)|].
  revert r v' w' Hrun. apply (wp_run_all _ v w). unfold Vault_delete_secret.
  wp_step. wp_call revoke_loop_wp. intros r v1 w1 (-> & Hv1 & _ & _).
  wp_step. unfold on_store. apply wp_zoom. apply run_wp. intros r s2 w2 Hrun.
  pose proof (wp_run _ _ _ _ _ _ _ (store_delete_wb n _ _) Hrun) as [Hp _].
  assert (Hspec : store_inv (vault_store v) → store_inv s2 ∧
    match r with
    | Ok _ => store_view s2 = delete n (store_view (vault_store v))
    | _ => store_view s2 = store_view (vault_store v)
    end).
  { intros Hi. assert (Hst : vault_store v1 = vault_store v) by (by rewrite Hv1).
    rewrite Hst in Hrun.
    destruct (wp_run _ _ _ _ _ _ _ (store_delete_spec n _ _ Hi) Hrun) as (Hi' & Hr & _).
    split; [done|]. destruct r; naive_solver. }
  destruct r as [[]|e|]; [| |done].
  - wp_call audit_event_log_wp. intros r v3 w3 (Hr & _ & Hv3 & _ & _).
    split; [done|]. rewrite Hv3. cbn. rewrite Hv1. cbn.
    do 3 (split; [done|]). intros Hi. destruct (Hspec Hi) as [Hi' Hview].
    split; [done|]. split; [done|by right].
  - split; [done|]. rewrite Hv1. cbn. do 3 (split; [done|]).
    intros Hi. destruct (Hspec Hi) as [Hi' Hview].
    split; [done|]. split; [done|by left].
Qed.

Lemma Vault_revoke_session_wp t peer v w :
  wp (Vault_revoke_session t peer) v w (λ r v' w',
    evolves v w v' w' ∧ r ≠ Panic ∧
    match vault_sessions v !! t with
    | None => r = Err SessionNotFound ∧ v' = v
    | Some s =>
      vault_leases v' =
        revoke_if (λ l, bool_decide (lease_session_id l = Some (session_id s)))
          <$> vault_leases v ∧
      vault_sessions v' = <[t := Session_revoke s]> (vault_sessions v)
    end).
Proof.
  apply run_wp. intros r v' w' Hrun.
  split; [exact (wp_run _ _ _ _ _ _ _ (evolving_revoke_session t peer v w) Hrun)|].
  revert r v' w' Hrun. apply (wp_run_all _ v w). unfold Vault_revoke_session.
  do 3 wp_step. destruct (vault_sessions v !! t) as [s|]; cbn [ok_or]; wp_steps; [|done].
  wp_call revoke_loop_wp. intros r v1 w1 (-> & Hv1 & _ & _).
  wp_call audit_event_log_wp. intros r v3 w3 (Hr & _ & Hv3 & _ & _).
  split; [done|]. rewrite Hv3. cbn. rewrite Hv1. cbn. done.
Qed.

(** A session that was revoked, or has expired, is refused. *)
Lemma Vault_validate_session_wp t v w :
  wp (Vault_validate_session t) v w (λ r v' w', v' = v ∧
    match vault_sessions v !! t with
    | None => r = Err SessionNotFound
    | Some s =>
      r = if session_revoked s then Err (SessionRevoked (session_id s))
          else if session_expires_at s <? clock (w_clock w)
          then Err (SessionExpired (session_id s)) else Ok s
    end).
Proof.
  unfold Vault_validate_session, Session_is_expired.
  do 3 wp_step. destruct (vault_sessions v !! t) as [s|]; cbn [ok_or]; wp_steps;
    (split; [done|]); by rewrite ?Hb, ?Hb0.
Qed.

(** *** [request_lease_scoped] *)

Lemma Vault_request_lease_scoped_wp agent n d peer t tool v w :
  wp (Vault_request_lease_scoped agent n d peer t tool) v w (λ r v' w',
    match r with
    | Ok g => ∃ s l terms w1,
        vault_sessions v !! t = Some s ∧ session_revoked s = false ∧
        clock (w_clock w) ≤ session_expires_at s ∧
        Session_check_tool_binding s tool n d = Ok tt ∧
        session_active_lease_count s < max_concurrent_leases (session_policy s) ∧
        PolicyEngine_evaluate (vault_policy v) agent n d = Ok terms ∧
        world_le w w1 ∧ issued v w1 w' agent n d terms l ∧ g = LeaseGrant_from l ∧
        vault_leases v' = <[lease_id l := set_lease_session (Some (session_id s)) l]>
                            (vault_leases v) ∧
        vault_sessions v' =
          <[t := set_active_lease_count (u32_add (session_active_lease_count s) 1) s]>
            (vault_sessions v)
    | _ => vault_leases v' = vault_leases v ∧ vault_sessions v' = vault_sessions v
    end).
Proof.
  unfold Vault_request_lease_scoped, Session_is_expired. do 3 wp_step.
  destruct (vault_sessions v !! t) as [s|] eqn:Hs; cbn [ok_or]; wp_step; [|done].
  destruct (session_revoked s) eqn:Hrev; [by wp_step|]. do 4 wp_step.
  wp_step; [by wp_step|]. rewrite Z.ltb_ge in Hb.
  destruct (Session_check_tool_binding s tool n d) as [[]|e|] eqn:Hbind.
  2:{ wp_step. wp_call audit_event_best_effort_wp.
      intros r v1 w1 (-> & _ & Hv1 & _). wp_step. by rewrite Hv1. }
  2:{ by wp_step. }
  wp_step; [by wp_step|]. rewrite Z.leb_gt in Hb0.
  wp_step. wp_call Vault_request_lease_wp. intros r v1 w1 (_ & Hw & _ & Hr).
  destruct r as [g|e|]; [|destruct Hr as [Hfr _]; by rewrite Hfr|by rewrite Hr].
  destruct Hr as (terms & l & Hpol & _ & Hiss & -> & Hfr & _). wp_steps.
  exists s, l, terms, (tick_clock w). do 6 (split; [done|]).
  split; [solve_world|]. split; [done|]. split; [done|]. rewrite Hfr. cbn. split.
  - by rewrite (alter_insert_eq (vault_leases v)).
  - by rewrite (alter_alt_Some _ _ _ _ Hs).
Qed.

(** *** Storing *)

Lemma Vault_store_secret_wp n p kind desc peer v w :
  wp (Vault_store_secret n p kind desc peer) v w (λ r v' w',
    r ≠ Panic ∧ vault_leases v' = vault_leases v ∧ vault_dek v' = vault_dek v ∧
    vault_policy v' = vault_policy v ∧
    vault_max_leases_per_agent v' = vault_max_leases_per_agent v ∧
    vault_cipher v' = vault_cipher v ∧
    (store_inv (vault_store v) → store_inv (vault_store v') ∧
     ∀ m, r = Ok m → ∃ x dek sealed w1 w2,
       m = SecretMetadata_from x ∧ vault_dek v = Some dek ∧
       Cipher_encrypt (vault_cipher v) p dek v w1 = (Ok sealed, v, w2) ∧
       stored_ciphertext x = sealed_ciphertext sealed ∧
       stored_nonce x = sealed_nonce sealed ∧
       stored_algorithm x = sealed_algorithm sealed ∧
       store_view (vault_store v) !! n = None ∧
       store_view (vault_store v') =
         <[n := StoredSecret_erase x]> (store_view (vault_store v)))).
Proof.
  unfold Vault_store_secret, Vault_encrypt. do 4 wp_step.
  destruct (vault_dek v) as [dek|] eqn:Hdek; cbn [ok_or]; wp_step.
  2:{ do 6 (split; [done|]). intros Hi. split; done. }
  apply run_wp. intros r v1 w1 Henc.
  destruct (wp_run _ _ _ _ _ _ _ (Cipher_encrypt_wp (vault_cipher v) p dek v w) Henc)
    as (-> & _ & Hr & _ & _).
  destruct r as [sealed|e|]; [| |done]; [|do 6 (split; [done|]); intros Hi; split; done].
  wp_step. unfold on_store. apply wp_zoom. apply run_wp. intros r s2 w2 Hput.
  pose proof (wp_run _ _ _ _ _ _ _ (store_put_wb _ _ _) Hput) as [Hp _].
  destruct r as [x|e|]; [| |done].
  - wp_step. wp_call audit_event_log_wp. intros r v3 w3 (Hr3 & _ & Hv3 & _ & _).
    assert (Hpost : store_inv (vault_store v) → store_inv s2 ∧
      stored_ciphertext x = sealed_ciphertext sealed ∧
      stored_nonce x = sealed_nonce sealed ∧
      stored_algorithm x = sealed_algorithm sealed ∧
      store_view (vault_store v) !! n = None ∧
      store_view s2 = <[n := StoredSecret_erase x]> (store_view (vault_store v))).
    { intros Hi. destruct (wp_run _ _ _ _ _ _ _ (store_put_spec _ _ _ Hi) Hput)
        as (Hi' & Hx & _). naive_solver. }
    destruct r as [[]|e|]; [| |done]; [wp_step|]; rewrite Hv3; cbn;
      do 6 (split; [done|]); intros Hi; destruct (Hpost Hi) as (Hi' & ? & ? & ? & ? & ?);
      (split; [done|]); [|done].
    intros m [= <-]. exists x, dek, sealed, w, w1. done.
  - do 6 (split; [done|]). intros Hi. split; [|done]. cbn.
    by destruct (wp_run _ _ _ _ _ _ _ (store_put_spec _ _ _ Hi) Hput) as (Hi' & _).
Qed.
End spec2.
