(* ===== verification/VaultProps.v ===== *)
(** Reachable vaults, their invariants, and the properties of the vault's operations.

    [vstep] lets any operation of the vault run with any arguments, or time pass; its
    closure from a new vault gives the reachable states. *)
From S2P Require Import Prelude Text Concrete Types Lease Policy Session Store.
From S2P Require Import Crypto KeySource Auth AuditEvents Vault VaultInv VaultSpec.

Local Open Scope string_scope.
Local Open Scope Z_scope.
Local Open Scope list_scope.

(** ** Operations as data *)

Inductive VaultOp :=
  | OpInitialize
  | OpRequestLease (agent : AgentId) (n : SecretName) (d : DomainScope) (peer : PeerIdentity)
  | OpAccessSecret (k : LeaseId) (host : string) (peer : PeerIdentity)
  | OpRevokeLease (k : LeaseId) (reason : RevocationReason) (peer : PeerIdentity)
  | OpRevokeAllForAgent (agent : AgentId) (peer : PeerIdentity)
  | OpStoreSecret (n : SecretName) (p : bytes) (kind : SecretKind) (desc : option string)
      (peer : PeerIdentity)
  | OpListSecrets
  | OpRenewLease (k : LeaseId) (secs : Z) (peer : PeerIdentity)
  | OpDeleteSecret (n : SecretName) (peer : PeerIdentity)
  | OpRotateDek (peer : PeerIdentity)
  | OpGcLeases
  | OpCreateSession (user channel : string) (p : SessionPolicy) (peer : PeerIdentity)
  | OpValidateSession (t : SessionToken)
  | OpRevokeSession (t : SessionToken) (peer : PeerIdentity)
  | OpRequestLeaseScoped (agent : AgentId) (n : SecretName) (d : DomainScope)
      (peer : PeerIdentity) (t : SessionToken) (tool : string)
  | OpGcSessions.

Section run.
Context {K S A : Type}.
Context `{!Env, !Chrono, !UuidText, !HashIter, !Aead}.
Context `{!KeySource K, !SecretStore S, !AuditLog A}.
Abbreviation VM := (M (Vault K S A) Error).

(** Run an operation and forget its result. *)
Definition run_op (op : VaultOp) : VM unit :=
  match op with
  | OpInitialize => Vault_initialize
  | OpRequestLease a n d peer => Vault_request_lease a n d peer;; mret tt
  | OpAccessSecret k h peer => Vault_access_secret k h peer;; mret tt
  | OpRevokeLease k reason peer => Vault_revoke_lease k reason peer
  | OpRevokeAllForAgent a peer => Vault_revoke_all_for_agent a peer;; mret tt
  | OpStoreSecret n p kind desc peer => Vault_store_secret n p kind desc peer;; mret tt
  | OpListSecrets => Vault_list_secrets;; mret tt
  | OpRenewLease k secs peer => Vault_renew_lease k secs peer;; mret tt
  | OpDeleteSecret n peer => Vault_delete_secret n peer
  | OpRotateDek peer => Vault_rotate_dek peer
  | OpGcLeases => Vault_gc_leases;; mret tt
  | OpCreateSession u c p peer => Vault_create_session u c p peer;; mret tt
  | OpValidateSession t => Vault_validate_session t;; mret tt
  | OpRevokeSession t peer => Vault_revoke_session t peer
  | OpRequestLeaseScoped a n d peer t tool =>
      Vault_request_lease_scoped a n d peer t tool;; mret tt
  | OpGcSessions => Vault_gc_sessions;; mret tt
  end.

Inductive vstep : Vault K S A * World → Vault K S A * World → Prop :=
  | vs_time v w w' : world_le w w' → vstep (v, w) (v, w')
  | vs_op op v w r v' w' : run_op op v w = (r, v', w') → vstep (v, w) (v', w').

(** A vault as the code builds it, and everything that can happen to it. *)
Definition initial (v : Vault K S A) : Prop :=
  ∃ k s a pol alg max,
    v = Vault_with_max_leases_per_agent (Vault_new k s a pol alg) max.
Definition reachable (v : Vault K S A) (w : World) : Prop :=
  ∃ v0 w0, initial v0 ∧ rtc vstep (v0, w0) (v, w).

Context `{!KeySourceLaws K, !SecretStoreLaws S, !AuditLogLaws A}.

Lemma evolving_run_op op : evolving (run_op op).
Proof.
  destruct op; cbn [run_op]; try (apply evolving_bind; [|intros; apply evolving_ret]).
  - apply evolving_initialize.
  - apply evolving_request_lease.
  - apply evolving_access_secret.
  - apply evolving_revoke_lease.
  - apply evolving_revoke_all.
  - apply evolving_store_secret.
  - apply evolving_list_secrets.
  - apply evolving_renew_lease.
  - apply evolving_delete_secret.
  - apply evolving_rotate_dek.
  - apply evolving_gc_leases.
  - apply evolving_create_session.
  - apply evolving_validate_session.
  - apply evolving_revoke_session.
  - apply evolving_request_lease_scoped.
  - apply evolving_gc_sessions.
Qed.

Lemma vstep_evolves v w v' w' : vstep (v, w) (v', w') → evolves v w v' w'.
Proof.
  inversion 1; subst; [by apply evolves_frame|].
  by eapply (wp_run _ _ _ _ _ _ _ (evolving_run_op op v w)).
Qed.

Lemma vsteps_evolves v w v' w' : rtc vstep (v, w) (v', w') → evolves v w v' w'.
Proof.
  intros Hr. remember (v, w) as c eqn:Hc. remember (v', w') as c' eqn:Hc'.
  revert v w Hc. induction Hr as [c|c1 [v2 w2] c3 Hstep Hr IH]; intros v w ->.
  - injection Hc' as -> ->. apply evolves_refl.
  - eapply evolves_trans; [by apply vstep_evolves|]. by apply IH.
Qed.
End run.

(** ** Counting active leases *)

Lemma active_count_insert_le a k l m :
  (active_count a (<[k := l]> m) ≤ active_count a m + if decide (active_for a (k, l)) then 1 else 0)%nat.
Proof.
  unfold active_count. rewrite map_filter_insert. case_decide.
  - rewrite map_size_insert. destruct (filter _ m !! k); simpl; lia.
  - rewrite map_filter_delete, map_size_delete. destruct (filter _ m !! k); simpl; lia.
Qed.

Lemma active_count_replace_le a k l l' m :
  m !! k = Some l → (active_for a (k, l') → active_for a (k, l)) →
  (active_count a (<[k := l']> m) ≤ active_count a m)%nat.
Proof.
  intros Hk Himp. unfold active_count. rewrite map_filter_insert. case_decide as Hact.
  - rewrite map_size_insert_Some; [done|]. exists l.
    apply map_lookup_filter_Some. auto.
  - rewrite map_filter_delete, map_size_delete. destruct (filter _ m !! k); simpl; lia.
Qed.

Lemma active_count_delete_le a k m : (active_count a (delete k m) ≤ active_count a m)%nat.
Proof.
  unfold active_count. rewrite map_filter_delete, map_size_delete.
  destruct (filter _ m !! k); simpl; lia.
Qed.

Lemma active_count_empty a : active_count a ∅ = O.
Proof. unfold active_count. by rewrite map_filter_empty, map_size_empty. Qed.

Lemma to_revoke_agent agent m :
  size (filter (to_revoke (λ l, bool_decide (lease_agent l = agent))) m) = active_count agent m.
Proof.
  unfold active_count. f_equal. apply map_filter_ext. intros k l _.
  unfold to_revoke, active_for. simpl. by rewrite bool_decide_eq_true.
Qed.

Lemma revoke_if_agent_inactive agent m :
  active_count agent (revoke_if (λ l, bool_decide (lease_agent l = agent)) <$> m) = O.
Proof.
  unfold active_count. apply map_size_empty_iff, map_empty_filter.
  intros k l. rewrite lookup_fmap_Some. intros (l0 & <- & _) [Ha Hr].
  simpl in *. unfold revoke_if in *. case_bool_decide; done.
Qed.

Lemma iter_Z_succ n : Nat.iter n Z.succ 0 = Z.of_nat n.
Proof. induction n as [|n IH]; [done|]. rewrite Nat.iter_succ, IH. lia. Qed.

(** ** The invariant of the lease table *)

Section lease_inv.
Context `{!Env}.

(** The identifier was drawn before the world [w]. *)
Definition drawn (k : LeaseId) (w : World) : Prop :=
  ∃ i, (i < w_uuid w)%nat ∧ k = LeaseId_from_uuid (now_v7 i).

(** The policy allowed this lease's agent, secret and scope. *)
Definition authorised (pol : PolicyEngine) (l : Lease) : Prop :=
  ∃ d t, PolicyEngine_evaluate pol (lease_agent l) (lease_secret_name l) d = Ok t ∧
    lease_allowed_domains l = [d] ∧ lease_max_uses l = terms_max_uses t.

Definition lease_inv (pol : PolicyEngine) (cap : nat) (c : gmap LeaseId Lease * World)
    : Prop :=
  (∀ a, (active_count a c.1 ≤ cap)%nat) ∧
  ∀ k l, c.1 !! k = Some l →
    lease_id l = k ∧ drawn k c.2 ∧ authorised pol l ∧
    (PolicyEngine_wf LeaseTerms_wf pol → Lease_wf l).

Lemma drawn_le k w w' : drawn k w → world_le w w' → drawn k w'.
Proof. intros (i & Hi & ->) (_ & Hu & _). exists i. split; [lia|done]. Qed.

(** What a changed lease must keep. *)
Lemma lease_inv_replace pol cap m w k l l' :
  lease_inv pol cap (m, w) → m !! k = Some l →
  lease_id l' = lease_id l → lease_agent l' = lease_agent l →
  lease_secret_name l' = lease_secret_name l →
  lease_allowed_domains l' = lease_allowed_domains l →
  lease_max_uses l' = lease_max_uses l →
  (lease_revoked l' = false → lease_revoked l = false) →
  (Lease_wf l → Lease_wf l') →
  lease_inv pol cap (<[k := l']> m, w).
Proof.
  intros [Hcap Hl] Hk Hid Ha Hn Hd Hm Hrev Hwf. destruct (Hl k l Hk) as (Hid0 & Hdr & Hau & Hw).
  split.
  - intros a. etrans; [|apply Hcap]. eapply active_count_replace_le; [done|].
    intros [H1 H2]. simpl in *. split; simpl; [congruence|auto].
  - intros k' l0. cbn [fst snd]. rewrite lookup_insert_Some.
    intros [[<- <-]|[Hne Hk']]; [|by apply Hl].
    split; [congruence|]. split; [done|]. split; [|auto].
    destruct Hau as (d & t & ?). exists d, t. by rewrite Ha, Hn, Hd, Hm.
Qed.

Lemma lstep_inv pol cap c c' : lstep pol cap c c' → lease_inv pol cap c → lease_inv pol cap c'.
Proof.
  intros Hstep Hinv. pose proof Hinv as [Hcap Hl]. destruct Hstep as
    [m w w' Hw|m w w' i l d t Hw Hi Hid Has Hlt|m w k l l' Hk Hrev Huse|m w k l t Hk Hrev Hren
    |m w k l Hk|m w k sid|m w k]; cbn [fst snd] in *.
  - split; [done|]. intros k l Hk. destruct (Hl k l Hk) as (?&?&?&?).
    split; [done|]. split; [by eapply drawn_le|done].
  - split.
    + intros a. etrans; [apply active_count_insert_le|]. case_decide as Hact.
      * destruct Hact as [<- _]. simpl. lia.
      * rewrite Nat.add_0_r. apply Hcap.
    + intros k l0. cbn [fst snd]. rewrite lookup_insert_Some. intros [[<- <-]|[Hne Hk]].
      * destruct Has as (He & Hd & Hm & _ & Hu & Hrn & Hrv & _).
        split; [done|]. split; [exists i; split; [lia|done]|].
        split; [by exists d, t|]. intros Hpol.
        pose proof (PolicyEngine_evaluate_terms _ _ _ _ _ _ Hpol He) as Ht.
        unfold Lease_wf, U32_MAX. rewrite Hu, Hrn. split; [lia|]. split; [lia|].
        intros m' Hm'. rewrite Hm in Hm'. apply Ht in Hm'. done.
      * destruct (Hl k l0 Hk) as (?&?&?&?). split; [done|]. split; [by eapply drawn_le|done].
  - eapply lease_inv_replace; [done|done|..]; try (intros Hwf; by eapply Lease_record_use_wf);
      unfold Lease_record_use in Huse; destruct (uses_exhausted l); simplify_eq/=; done.
  - eapply lease_inv_replace; [done|done|..]; try done.
    intros (Hu & Hr & Hm). split; [done|]. split; [apply u32_add_range|done].
  - by eapply lease_inv_replace.
  - destruct (m !! k) as [l|] eqn:Hk.
    + rewrite (alter_alt_Some _ _ _ _ Hk). by eapply lease_inv_replace.
    + rewrite alter_id; [done|]. intros x Hx. congruence.
  - split.
    + intros a. etrans; [apply active_count_delete_le|apply Hcap].
    + intros k' l Hk'. cbn [fst] in Hk'. apply lookup_delete_Some in Hk' as [_ Hk'].
      by apply Hl.
Qed.

Lemma lsteps_inv pol cap c c' : lsteps pol cap c c' → lease_inv pol cap c → lease_inv pol cap c'.
Proof. induction 1; eauto using lstep_inv. Qed.

Lemma lsteps_world pol cap c c' : lsteps pol cap c c' → world_le c.2 c'.2.
Proof.
  induction 1 as [c|c1 c2 c3 Hstep _ IH]; [reflexivity|]. etrans; [|exact IH].
  by destruct Hstep.
Qed.

Lemma lease_inv_empty pol cap w : lease_inv pol cap (∅, w).
Proof.
  split; cbn [fst snd]; [intros a; rewrite active_count_empty; lia|].
  intros k l Hk. by rewrite lookup_empty in Hk.
Qed.
End lease_inv.

(** ** Leases that are gone for good *)

Section dead.
Context `{!Env, !EnvLaws}.

(** [k] was issued before [w], and is revoked or no longer in the table. *)
Definition dead (k : LeaseId) (c : gmap LeaseId Lease * World) : Prop :=
  drawn k c.2 ∧ ∀ l, c.1 !! k = Some l → lease_revoked l = true.

Lemma dead_insert k k' l m w :
  dead k (m, w) → (k' = k → lease_revoked l = true) → dead k (<[k' := l]> m, w).
Proof.
  intros [Hd Hm] Hl. split; [done|]. intros l0. cbn [fst] in *.
  rewrite lookup_insert_Some. intros [[-> <-]|[_ Hk]]; auto.
Qed.

Lemma lstep_dead pol cap k c c' : lstep pol cap c c' → dead k c → dead k c'.
Proof.
  intros Hstep Hdead. pose proof Hdead as [Hdr Hm]. destruct Hstep as
    [m w w' Hw|m w w' i l d t Hw Hi Hid Has Hlt|m w k' l l' Hk Hrev Huse
    |m w k' l t Hk Hrev Hren|m w k' l Hk|m w k' sid|m w k']; cbn [fst snd] in *.
  - split; [by eapply drawn_le|done].
  - apply dead_insert; [split; [by eapply drawn_le|done]|]. intros Heq.
    destruct Hdr as (j & Hj & ->). rewrite Heq in Hid. injection Hid as Hid.
    apply now_v7_inj in Hid. lia.
  - apply dead_insert; [done|]. intros ->. rewrite (Hm _ Hk) in Hrev. done.
  - apply dead_insert; [done|]. intros ->. rewrite (Hm _ Hk) in Hrev. done.
  - by apply dead_insert.
  - split; [done|]. intros l Hl. cbn [fst] in Hl.
    apply lookup_alter_Some in Hl as [(-> & l0 & Hk & ->)|[_ Hk]]; [|by apply Hm].
    simpl. by apply Hm.
  - split; [done|]. intros l Hl. cbn [fst] in Hl. apply lookup_delete_Some in Hl as [_ Hl].
    by apply Hm.
Qed.

Lemma lsteps_dead pol cap k c c' : lsteps pol cap c c' → dead k c → dead k c'.
Proof. induction 1; eauto using lstep_dead. Qed.
End dead.

Section reach.
Context {K S A : Type}.
Context `{!Env, !Chrono, !UuidText, !HashIter, !Aead}.
Context `{!KeySource K, !SecretStore S, !AuditLog A}.
Context `{!KeySourceLaws K, !SecretStoreLaws S, !AuditLogLaws A}.
Implicit Types (v : Vault K S A) (w : World).

Lemma reachable_inv v w :
  reachable v w →
  lease_inv (vault_policy v) (vault_max_leases_per_agent v) (vault_leases v, w).
Proof.
  intros (v0 & w0 & (k & s & a & pol & alg & max & ->) & Hr).
  apply vsteps_evolves in Hr as (-> & _ & -> & _ & Hls).
  eapply lsteps_inv; [done|]. apply lease_inv_empty.
Qed.

Lemma reachable_trans v w v' w' : reachable v w → rtc vstep (v, w) (v', w') → reachable v' w'.
Proof. intros (v0 & w0 & Hi & Hr) Hr'. exists v0, w0. split; [done|]. by etrans. Qed.

Lemma vsteps_dead `{!EnvLaws} k v w v' w' :
  rtc vstep (v, w) (v', w') → dead k (vault_leases v, w) → dead k (vault_leases v', w').
Proof. intros (_ & _ & _ & _ & Hls)%vsteps_evolves. by eapply lsteps_dead. Qed.

(** Nothing can be read or extended through a dead lease. *)
Lemma dead_access k v w host peer :
  dead k (vault_leases v, w) →
  wp (Vault_access_secret k host peer) v w (λ r _ _, ¬ is_ok r).
Proof.
  intros [_ Hd]. wp_call Vault_access_secret_wp. intros [g|e|] v' w' (_ & _ & _ & _ & Hr);
    [|naive_solver..].
  destruct Hr as (l & l' & x & Hk & (Hrev & _) & _). rewrite (Hd l Hk) in Hrev. done.
Qed.
Lemma dead_renew k v w secs peer :
  dead k (vault_leases v, w) →
  wp (Vault_renew_lease k secs peer) v w (λ r _ _, ¬ is_ok r).
Proof.
  intros [_ Hd]. wp_call Vault_renew_lease_wp. intros [g|e|] v' w' (_ & _ & _ & Hr);
    [|naive_solver..].
  destruct Hr as (l & l' & (Hk & _ & _ & _ & Hrev & _) & _). rewrite (Hd l Hk) in Hrev. done.
Qed.

(** From [v] on, [k] is useless. *)
Definition useless_forever (k : LeaseId) v w : Prop :=
  ∀ v' w', rtc vstep (v, w) (v', w') → ∀ host secs peer,
    wp (Vault_access_secret k host peer) v' w' (λ r _ _, ¬ is_ok r) ∧
    wp (Vault_renew_lease k secs peer) v' w' (λ r _ _, ¬ is_ok r).

Lemma dead_useless_forever `{!EnvLaws} k v w :
  dead k (vault_leases v, w) → useless_forever k v w.
Proof.
  intros Hd v' w' Hr host secs peer. pose proof (vsteps_dead _ _ _ _ _ Hr Hd).
  split; [by apply dead_access|by apply dead_renew].
Qed.

(** The tables of the three bulk revocations. *)
Lemma revoke_if_dead sel k l v w v' w' :
  reachable v w → world_le w w' →
  vault_leases v' = revoke_if sel <$> vault_leases v →
  vault_leases v !! k = Some l → sel l = true →
  dead k (vault_leases v', w').
Proof.
  intros Hr Hw Hm Hk Hsel. destruct (reachable_inv _ _ Hr) as [_ Hinv].
  destruct (Hinv k l Hk) as (_ & Hdr & _). split; [by eapply drawn_le|].
  intros l'. cbn [fst]. rewrite Hm, lookup_fmap, Hk. intros [= <-].
  unfold revoke_if. by rewrite Hsel.
Qed.
End reach.

(** ** Remaining uses *)

Section budget.
Context `{!Env, !EnvLaws}.

(** [k] was issued before [w], and at most [n] more uses of it can succeed. *)
Definition at_most (k : LeaseId) (n : Z) (c : gmap LeaseId Lease * World) : Prop :=
  drawn k c.2 ∧ ∀ l, c.1 !! k = Some l →
    ∃ m, lease_max_uses l = Some m ∧ m - lease_use_count l ≤ n ∧
         0 ≤ lease_use_count l ∧ m ≤ U32_MAX.

Lemma at_most_insert k k' n l m w :
  at_most k n (m, w) →
  (k' = k → ∃ mx, lease_max_uses l = Some mx ∧ mx - lease_use_count l ≤ n ∧
                  0 ≤ lease_use_count l ∧ mx ≤ U32_MAX) →
  at_most k n (<[k' := l]> m, w).
Proof.
  intros [Hd Hm] Hl. split; [done|]. intros l0. cbn [fst] in *.
  rewrite lookup_insert_Some. intros [[-> <-]|[_ Hk]]; auto.
Qed.

(** One use takes one unit of the budget. *)
Lemma record_use_budget l l' mx n :
  Lease_record_use l = Ok l' → lease_max_uses l = Some mx →
  mx - lease_use_count l ≤ n → 0 ≤ lease_use_count l → mx ≤ U32_MAX →
  1 ≤ n ∧ lease_max_uses l' = Some mx ∧ mx - lease_use_count l' ≤ n - 1 ∧
  0 ≤ lease_use_count l'.
Proof.
  unfold Lease_record_use. destruct (uses_exhausted l) eqn:Hx; [done|].
  intros [= <-] Hm Hn Hnn Hmx.
  assert (lease_use_count l < mx).
  { apply Z.lt_nge. intros ?. apply not_true_iff_false in Hx. apply Hx.
    apply uses_exhausted_spec. eauto. }
  simpl. rewrite u32_add_small by lia. split; [lia|]. split; [done|]. lia.
Qed.

Lemma lstep_at_most pol cap k n c c' :
  lstep pol cap c c' → at_most k n c → at_most k n c'.
Proof.
  intros Hstep Ham. pose proof Ham as [Hdr Hm]. destruct Hstep as
    [m w w' Hw|m w w' i l d t Hw Hi Hid Has Hlt|m w k' l l' Hk Hrev Huse
    |m w k' l t Hk Hrev Hren|m w k' l Hk|m w k' sid|m w k']; cbn [fst snd] in *.
  - split; [by eapply drawn_le|done].
  - apply at_most_insert; [split; [by eapply drawn_le|done]|]. intros Heq.
    destruct Hdr as (j & Hj & ->). rewrite Heq in Hid. injection Hid as Hid.
    apply now_v7_inj in Hid. lia.
  - apply at_most_insert; [done|]. intros ->. destruct (Hm _ Hk) as (mx & Hu1 & Hu2 & Hu3 & Hu4).
    destruct (record_use_budget _ _ _ _ Huse Hu1 Hu2 Hu3 Hu4) as (? & ? & ? & ?).
    exists mx. split; [done|]. lia.
  - apply at_most_insert; [done|]. intros ->. destruct (Hm _ Hk) as (mx & ?). by exists mx.
  - apply at_most_insert; [done|]. intros ->. destruct (Hm _ Hk) as (mx & ?). by exists mx.
  - split; [done|]. intros l Hl. cbn [fst] in Hl.
    apply lookup_alter_Some in Hl as [(-> & l0 & Hk & ->)|[_ Hk]]; [|by apply Hm].
    simpl. by apply Hm.
  - split; [done|]. intros l Hl. cbn [fst] in Hl. apply lookup_delete_Some in Hl as [_ Hl].
    by apply Hm.
Qed.

Lemma lsteps_at_most pol cap k n c c' :
  lsteps pol cap c c' → at_most k n c → at_most k n c'.
Proof. induction 1; eauto using lstep_at_most. Qed.
End budget.

Section accesses.
Context {K S A : Type}.
Context `{!Env, !Chrono, !UuidText, !HashIter, !Aead}.
Context `{!KeySource K, !SecretStore S, !AuditLog A}.

Definition is_access (k : LeaseId) (op : VaultOp) : bool :=
  match op with OpAccessSecret k' _ _ => bool_decide (k' = k) | _ => false end.

(** How many of a sequence of operations are successful accesses through [k]. *)
Fixpoint accesses (k : LeaseId) (ops : list VaultOp) (v : Vault K S A) (w : World) : nat :=
  match ops with
  | [] => O
  | op :: ops' =>
    match run_op op v w with
    | (r, v', w') =>
      ((if is_access k op && is_ok r then 1 else 0) + accesses k ops' v' w')%nat
    end
  end.

Context `{!KeySourceLaws K, !SecretStoreLaws S, !AuditLogLaws A, !EnvLaws}.
Implicit Types (v : Vault K S A) (w : World).

Lemma access_at_most k n host peer v w g v' w' :
  at_most k n (vault_leases v, w) →
  Vault_access_secret k host peer v w = (Ok g, v', w') →
  1 ≤ n ∧ at_most k (n - 1) (vault_leases v', w').
Proof.
  intros [Hdr Hm] Hrun.
  destruct (wp_run _ _ _ _ _ _ _ (Vault_access_secret_wp k host peer v w) Hrun)
    as (_ & Hw & _ & _ & l & l' & x & Hk & _ & Huse & Hfr & _).
  destruct (Hm l Hk) as (mx & H1' & H2' & H3' & H4').
  destruct (record_use_budget _ _ _ _ Huse H1' H2' H3' H4') as (Hn & ? & ? & ?).
  split; [done|]. split; [by eapply drawn_le|]. intros l0. cbn [fst].
  rewrite (frame_leases_eq _ _ _ Hfr), lookup_insert_eq. intros [= <-].
  exists mx. done.
Qed.

Lemma accesses_at_most k n ops v w :
  0 ≤ n → at_most k n (vault_leases v, w) → Z.of_nat (accesses k ops v w) ≤ n.
Proof.
  revert n v w. induction ops as [|op ops IH]; intros n v w Hn Ham; [done|].
  cbn [accesses]. destruct (run_op op v w) as [[r v'] w'] eqn:Hrun.
  pose proof (wp_run _ _ _ _ _ _ _ (evolving_run_op op v w) Hrun) as (_ & _ & _ & _ & Hls).
  pose proof (lsteps_at_most _ _ _ _ _ _ Hls Ham) as Ham'.
  destruct (is_access k op && is_ok r) eqn:Hacc; [|rewrite Nat.add_0_l; by apply IH].
  apply andb_true_iff in Hacc as [Hop Hok]. destruct op; try done. cbn [is_access] in Hop.
  apply bool_decide_eq_true in Hop as ->. cbn [run_op] in Hrun.
  unfold mbind, M_bind, mret, M_ret in Hrun.
  destruct (Vault_access_secret k host peer v w) as [[[g|e|] v1] w1] eqn:Ha;
    simplify_eq/=.
  destruct (access_at_most _ _ _ _ _ _ _ _ _ Ham Ha) as [H1' Ham1].
  pose proof (IH (n - 1) v' w' ltac:(lia) Ham1). lia.
Qed.
End accesses.
