(* ===== verification/VaultThreads.v ===== *)
(** The operations of the vault with their locks and awaits: [src/vault.rs].

    Each operation of [Vault] once more, as a program of atomic actions: what it does
    between two awaits is one action, and a lock is held for the scope of its guard. A call
    of the store, the key source or the audit log is one action. Run alone, a program is the
    operation of [Vault]; the locks are taken in a fixed order, and the tables are only
    written under their locks. *)
From S2P Require Import Prelude Threads Text Concrete Types Lease Policy Session.
From S2P Require Import Store Crypto KeySource Auth AuditEvents Vault VaultInv VaultProps.

Local Open Scope string_scope.
Local Open Scope Z_scope.
Local Open Scope list_scope.

(** The [RwLock] fields of [Vault]. *)
Inductive VaultLock := LPolicy | LLeases | LSessions | LDek.
#[global] Instance VaultLock_eq_dec : EqDecision VaultLock.
Proof. solve_decision. Defined.

Section programs.
Context {K S A : Type}.
Context `{!Env, !Chrono, !UuidText, !HashIter, !Aead}.
Context `{!KeySource K, !SecretStore S, !AuditLog A}.
Abbreviation VM := (M (Vault K S A) Error).
Abbreviation VP := (Prog (Vault K S A) Error VaultLock).

Definition initialize_prog : VP unit :=
  dek ← atomic (on_key_source ks_load_or_create_dek);
  with_lock LDek Exclusive (atomic (modify (set_dek (Some dek)))).

Definition audit_prog (ev : AuditEvent) (agent : AgentId) (peer : PeerIdentity)
    (outcome : AuditOutcome) : VP unit := atomic (audit_event ev agent peer outcome).
Definition audit_best_effort_prog (ev : AuditEvent) (agent : AgentId) (peer : PeerIdentity)
    (outcome : AuditOutcome) : VP unit := atomic (audit_event_best_effort ev agent peer outcome).

(** Step 1 of [request_lease]: the policy is read, and a denial recorded, under its lock. *)
Definition policy_check (agent : AgentId) (secret_name : SecretName) (domain : DomainScope)
    (peer : PeerIdentity) : VP LeaseTerms :=
  with_lock LPolicy Shared (
    self ← atomic read;
    match PolicyEngine_evaluate (vault_policy self) agent secret_name domain with
    | Ok terms => mret terms
    | Err e =>
      audit_prog (EvAccessDenied secret_name domain (Error_to_string e)) agent peer
        (Denied (Error_to_string e));;
      Ret (Err e)
    | Panic => Ret Panic
    end).

(** Step 2 of [request_lease]. *)
Definition cap_check (agent : AgentId) : VM unit :=
  self ← read;
  if (vault_max_leases_per_agent self <=? active_count agent (vault_leases self))%nat
  then throw (InvalidConfig ("agent " +:+ AgentId_display agent
         +:+ " has reached the maximum of "
         +:+ fmt_Z (Z.of_nat (vault_max_leases_per_agent self)) +:+ " active leases"))
  else mret tt.

Definition insert_lease (lease : Lease) : VM unit :=
  modify (λ v, set_leases (<[lease_id lease := lease]> (vault_leases v)) v).

Definition request_lease_prog (agent : AgentId) (secret_name : SecretName)
    (domain : DomainScope) (peer : PeerIdentity) : VP LeaseGrant :=
  terms ← policy_check agent secret_name domain peer;
  with_lock LLeases Shared (atomic (cap_check agent));;
  atomic (on_store (store_get secret_name));;
  lease ← atomic (Lease_new agent secret_name [domain] terms);
  audit_prog (EvLeaseGranted (lease_id lease) secret_name [domain]
                (td_num_seconds (terms_ttl terms))) agent peer Success;;
  with_lock LLeases Exclusive (atomic (insert_lease lease));;
  mret (LeaseGrant_from lease).

(** Step 1 of [access_secret]: validation and the use of the lease, under one lock. *)
Definition use_lease (lease_id : LeaseId) (target_domain : string) : VM Lease :=
  self ← read;
  lease ← ok_or (vault_leases self !! lease_id) (LeaseNotFound lease_id);
  Lease_validate lease target_domain;;
  lease' ← lift (Lease_record_use lease);
  modify (λ v, set_leases (<[lease_id := lease']> (vault_leases v)) v);;
  mret lease'.

Definition access_secret_prog (lease_id : LeaseId) (target_domain : string)
    (peer : PeerIdentity) : VP LeaseGuard :=
  lease ← with_lock LLeases Exclusive (atomic (use_lease lease_id target_domain));
  let agent := lease_agent lease in
  let secret_name := lease_secret_name lease in
  stored ← atomic (on_store (store_get secret_name));
  plaintext ← with_lock LDek Shared
    (atomic (Vault_decrypt (stored_ciphertext stored) (stored_nonce stored)
               (stored_algorithm stored)));
  audit_prog (EvSecretAccessed lease_id secret_name (DomainScope_new target_domain))
    agent peer Success;;
  mret (LeaseGuard_new lease_id plaintext).

Definition revoke_one (lease_id : LeaseId) : VM AgentId :=
  self ← read;
  lease ← ok_or (vault_leases self !! lease_id) (LeaseNotFound lease_id);
  modify (λ v, set_leases (<[lease_id := Lease_revoke lease]> (vault_leases v)) v);;
  mret (lease_agent lease).

Definition revoke_lease_prog (lease_id : LeaseId) (reason : RevocationReason)
    (peer : PeerIdentity) : VP unit :=
  agent ← with_lock LLeases Exclusive (atomic (revoke_one lease_id));
  audit_prog (EvLeaseRevoked lease_id reason) agent peer Success.

(** The loop of the bulk revocations; the entries are recorded with the lock held, and the
    lease is changed where it is. *)
Definition revoke_step_prog (sel : Lease → bool) (reason : RevocationReason)
    (incr : Z → Z) (peer : PeerIdentity) (count : Z) (kl : LeaseId * Lease) : VP Z :=
  let lease := kl.2 in
  if sel lease && negb (lease_revoked lease) then
    atomic (modify (λ v, set_leases (alter Lease_revoke kl.1 (vault_leases v)) v));;
    audit_best_effort_prog (EvLeaseRevoked (lease_id lease) reason)
      (lease_agent lease) peer Success;;
    mret (incr count)
  else mret count.
Definition revoke_loop_prog (sel : Lease → bool) (reason : RevocationReason)
    (incr : Z → Z) (peer : PeerIdentity) : VP Z :=
  with_lock LLeases Exclusive (
    self ← atomic read;
    pfold (revoke_step_prog sel reason incr peer) 0 (hash_iter (vault_leases self))).

Definition revoke_all_for_agent_prog (agent : AgentId) (peer : PeerIdentity) : VP Z :=
  revoke_loop_prog (λ l, bool_decide (lease_agent l = agent)) AdminRevoked Z.succ peer.

Definition store_secret_prog (name : SecretName) (plaintext : bytes) (kind : SecretKind)
    (description : option string) (peer : PeerIdentity) : VP SecretMetadata :=
  sealed ← with_lock LDek Shared (atomic (Vault_encrypt plaintext));
  let params := mkStoreSecretParams name (sealed_ciphertext sealed) (sealed_nonce sealed)
                  (sealed_algorithm sealed) kind description in
  stored ← atomic (on_store (store_put params));
  audit_prog (EvSecretStored name) (AgentId_new "admin") peer Success;;
  mret (SecretMetadata_from stored).

(** The checks of [renew_lease] before it looks at the session. *)
Definition renew_checks (lease_id : LeaseId) (extension_secs : Z) : VM Lease :=
  self ← read;
  lease ← ok_or (vault_leases self !! lease_id) (LeaseNotFound lease_id);
  now ← utc_now;
  if lease_expires_at lease <? now then throw (LeaseExpired lease_id) else
  if (extension_secs <=? 0) || (MAX_EXTENSION_SECS <? extension_secs)
  then throw (InvalidConfig ("extension must be between 1 and "
         +:+ fmt_Z MAX_EXTENSION_SECS +:+ " seconds, got " +:+ fmt_Z extension_secs))
  else mret lease.

Definition renew_limit_check (id : LeaseId) (lease : Lease) : VM unit :=
  self ← read;
  match renewal_limit lease (vault_sessions self) with
  | Some max => throw (RenewalLimitReached id max)
  | None => mret tt
  end.

(** The lease is renewed where it is; it is there, since the table has been locked. *)
Definition renew_in_place (lease_id : LeaseId) (extension_secs : Z) : VM Lease :=
  extension ← expect (td_seconds extension_secs);
  self ← read;
  lease ← expect (vault_leases self !! lease_id);
  lease' ← Lease_renew lease extension;
  modify (λ v, set_leases (<[lease_id := lease']> (vault_leases v)) v);;
  mret lease'.

(** The lock of the sessions is only taken for a lease that belongs to a session. *)
Definition renew_lease_prog (lease_id : LeaseId) (extension_secs : Z)
    (peer : PeerIdentity) : VP LeaseGrant :=
  lease' ← with_lock LLeases Exclusive (
    lease ← atomic (renew_checks lease_id extension_secs);
    (match lease_session_id lease with
     | Some _ => with_lock LSessions Shared (atomic (renew_limit_check lease_id lease))
     | None => mret tt
     end);;
    atomic (renew_in_place lease_id extension_secs));
  audit_prog (EvLeaseRenewed lease_id extension_secs) (lease_agent lease') peer Success;;
  mret (LeaseGrant_from lease').

Definition delete_secret_prog (name : SecretName) (peer : PeerIdentity) : VP unit :=
  revoke_loop_prog (λ l, bool_decide (lease_secret_name l = name)) SecretDeleted Z.succ peer;;
  atomic (on_store (store_delete name));;
  audit_prog (EvSecretDeleted name) (AgentId_new "admin") peer Success.

Definition reencrypt_prog (old_dek new_dek : DataEncryptionKey) (meta : SecretMetadata)
    : VP BatchUpdateItem :=
  stored ← atomic (on_store (store_get (meta_name meta)));
  atomic (self ← read;
    plaintext ← lift (Cipher_decrypt (vault_cipher self)
                  (mkSealed (stored_ciphertext stored) (stored_nonce stored)
                     (stored_algorithm stored)) old_dek);
    new_sealed ← Cipher_encrypt (vault_cipher self) plaintext new_dek;
    mret (mkBatchUpdateItem (meta_name meta) (sealed_ciphertext new_sealed)
            (sealed_nonce new_sealed) (sealed_algorithm new_sealed))).

Definition rotate_dek_prog (peer : PeerIdentity) : VP unit :=
  old_dek ← with_lock LDek Shared (atomic (self ← read; ok_or (vault_dek self) no_dek));
  new_key_bytes ← atomic (fill_bytes 32);
  let new_dek := DataEncryptionKey_from_bytes new_key_bytes in
  secrets ← atomic (on_store store_list);
  updates ← ptraverse (reencrypt_prog old_dek new_dek) secrets;
  atomic (on_store (store_batch_update updates));;
  atomic (on_key_source (ks_rotate_dek new_dek));;
  with_lock LDek Exclusive (atomic (modify (set_dek (Some new_dek))));;
  audit_prog EvDekRotated (AgentId_new "admin") peer Success.

(** The part of [create_session] before its first await. *)
Definition new_session (user channel : string) (policy : SessionPolicy)
    : VM (Session * Z * SessionToken) :=
  session ← Session_new user channel policy;
  remaining ← Session_time_remaining session;
  bytes ← fill_bytes 16;
  mret (session, td_num_seconds remaining, SessionToken_from_bytes bytes).
Definition create_session_prog (user channel : string) (policy : SessionPolicy)
    (peer : PeerIdentity) : VP (SessionToken * SessionId) :=
  '(session, duration_secs, token) ← atomic (new_session user channel policy);
  with_lock LSessions Exclusive
    (atomic (modify (λ v, set_sessions (<[token := session]> (vault_sessions v)) v)));;
  audit_prog (EvSessionCreated (session_id session) user channel duration_secs)
    (AgentId_new user) peer Success;;
  mret (token, session_id session).

Definition mark_session_revoked (token : SessionToken) : VM SessionId :=
  self ← read;
  session ← ok_or (vault_sessions self !! token) SessionNotFound;
  modify (λ v, set_sessions (<[token := Session_revoke session]> (vault_sessions v)) v);;
  mret (session_id session).

Definition revoke_session_prog (token : SessionToken) (peer : PeerIdentity) : VP unit :=
  sid ← with_lock LSessions Exclusive (atomic (mark_session_revoked token));
  leases_revoked ← revoke_loop_prog (λ l, bool_decide (lease_session_id l = Some sid))
                     SessionRevokedReason (λ n, u32_add n 1) peer;
  audit_prog (EvSessionRevoked sid "explicit revocation" leases_revoked)
    (AgentId_new "session") peer Success.

(** Steps 1 to 3 of [request_lease_scoped]; a denied binding is recorded with the lock of
    the sessions held. *)
Definition scope_check (agent : AgentId) (secret_name : SecretName) (domain : DomainScope)
    (peer : PeerIdentity) (session_token : SessionToken) (tool_name : string) : VP SessionId :=
  with_lock LSessions Shared (
    session ← atomic (Vault_validate_session session_token);
    match Session_check_tool_binding session tool_name secret_name domain with
    | Err _ =>
      audit_best_effort_prog
        (EvToolBindingDenied (session_id session) tool_name secret_name
           ("tool '" +:+ tool_name +:+ "' is not bound to secret '"
            +:+ SecretName_display secret_name +:+ "' for domain '"
            +:+ DomainScope_display domain +:+ "'"))
        agent peer (Denied "tool-to-secret binding denied");;
      Ret (Err (AccessDenied (AgentId_new tool_name) secret_name domain))
    | Panic => Ret Panic
    | Ok _ =>
      if max_concurrent_leases (session_policy session) <=? session_active_lease_count session
      then Ret (Err (SessionLeaseLimitReached (session_id session)
                       (max_concurrent_leases (session_policy session))))
      else mret (session_id session)
    end).

Definition request_lease_scoped_prog (agent : AgentId) (secret_name : SecretName)
    (domain : DomainScope) (peer : PeerIdentity) (session_token : SessionToken)
    (tool_name : string) : VP LeaseGrant :=
  sid ← scope_check agent secret_name domain peer session_token tool_name;
  grant ← request_lease_prog agent secret_name domain peer;
  with_lock LLeases Exclusive
    (atomic (modify (λ v, set_leases (alter (set_lease_session (Some sid))
                                        (grant_lease_id grant) (vault_leases v)) v)));;
  with_lock LSessions Exclusive
    (atomic (modify (λ v, set_sessions
               (alter (λ s, set_active_lease_count
                              (u32_add (session_active_lease_count s) 1) s)
                  session_token (vault_sessions v)) v)));;
  mret grant.

(** Every operation; those without an await inside their lock are one action. *)
Definition op_prog (op : VaultOp) : VP unit :=
  match op with
  | OpInitialize => initialize_prog
  | OpRequestLease a n d peer => request_lease_prog a n d peer;; mret tt
  | OpAccessSecret k h peer => access_secret_prog k h peer;; mret tt
  | OpRevokeLease k reason peer => revoke_lease_prog k reason peer
  | OpRevokeAllForAgent a peer => revoke_all_for_agent_prog a peer;; mret tt
  | OpStoreSecret n p kind desc peer => store_secret_prog n p kind desc peer;; mret tt
  | OpListSecrets => atomic Vault_list_secrets;; mret tt
  | OpRenewLease k secs peer => renew_lease_prog k secs peer;; mret tt
  | OpDeleteSecret n peer => delete_secret_prog n peer
  | OpRotateDek peer => rotate_dek_prog peer
  | OpGcLeases => with_lock LLeases Exclusive (atomic Vault_gc_leases);; mret tt
  | OpCreateSession u c p peer => create_session_prog u c p peer;; mret tt
  | OpValidateSession t => with_lock LSessions Shared (atomic (Vault_validate_session t));; mret tt
  | OpRevokeSession t peer => revoke_session_prog t peer
  | OpRequestLeaseScoped a n d peer t tool =>
      request_lease_scoped_prog a n d peer t tool;; mret tt
  | OpGcSessions => with_lock LSessions Exclusive (atomic Vault_gc_sessions);; mret tt
  end.
End programs.

(** ** Alone, a program is the operation *)

Section sequential.
Context {K S A : Type}.
Context `{!Env, !Chrono, !UuidText, !HashIter, !Aead}.
Context `{!KeySource K, !SecretStore S, !AuditLog A}.
Implicit Types (v : Vault K S A) (w : World).

Lemma policy_check_alone agent n d peer :
  run_prog (policy_check (K := K) (S := S) (A := A) agent n d peer) ≈
  (self ← read;
   match PolicyEngine_evaluate (vault_policy self) agent n d with
   | Ok terms => mret terms
   | Err e => audit_event (EvAccessDenied n d (Error_to_string e)) agent peer
                (Denied (Error_to_string e));; throw e
   | Panic => panic
   end).
Proof.
  unfold policy_check, audit_prog. run_alone. apply bind_proper; [|done]. intros self.
  destruct (PolicyEngine_evaluate (vault_policy self) agent n d) as [t|e|]; [done| |done].
  by run_alone.
Qed.

Lemma request_lease_alone agent n d peer :
  run_prog (request_lease_prog (K := K) (S := S) (A := A) agent n d peer) ≈
  Vault_request_lease agent n d peer.
Proof.
  unfold request_lease_prog, Vault_request_lease, audit_prog, cap_check, insert_lease.
  rewrite run_prog_bind, policy_check_alone. run_alone. intros v w. same_run.
Qed.

Lemma access_secret_alone k host peer :
  run_prog (access_secret_prog (K := K) (S := S) (A := A) k host peer) ≈
  Vault_access_secret k host peer.
Proof.
  unfold access_secret_prog, Vault_access_secret, audit_prog, use_lease. run_alone.
  intros v w. same_run.
Qed.

Lemma revoke_lease_alone k reason peer :
  run_prog (revoke_lease_prog (K := K) (S := S) (A := A) k reason peer) ≈
  Vault_revoke_lease k reason peer.
Proof.
  unfold revoke_lease_prog, Vault_revoke_lease, audit_prog, revoke_one. run_alone.
  intros v w. same_run.
Qed.

(** Recording an entry leaves the leases alone. *)
Lemma audit_best_effort_leases ev ag peer out v w r v' w' :
  audit_event_best_effort ev ag peer out v w = (r, v', w') → vault_leases v' = vault_leases v.
Proof.
  unfold audit_event_best_effort, Vault_trace_and_record_best_effort, AuditEntry_new, on_audit,
    zoom, try_, utc_now, uuid_now_v7. unfold_run. intros Hrun.
  repeat case_match; by simplify_eq/=.
Qed.

(** One iteration of the loop: changing the lease in place is writing it back. *)
Definition revoke_body (sel : Lease → bool) (reason : RevocationReason) (incr : Z → Z)
    (peer : PeerIdentity) (count : Z) (kl : LeaseId * Lease) : M (Vault K S A) Error Z :=
  if sel kl.2 && negb (lease_revoked kl.2) then
    modify (λ v, set_leases (<[kl.1 := Lease_revoke kl.2]> (vault_leases v)) v);;
    audit_event_best_effort (EvLeaseRevoked (lease_id kl.2) reason)
      (lease_agent kl.2) peer Success;;
    mret (incr count)
  else mret count.

Lemma revoke_step_alone sel reason incr peer count k l v w :
  vault_leases v !! k = Some l →
  run_prog (revoke_step_prog sel reason incr peer count (k, l)) v w =
  revoke_body sel reason incr peer count (k, l) v w.
Proof.
  intros Hk. unfold revoke_step_prog, revoke_body. cbn [fst snd].
  destruct (sel l && negb (lease_revoked l)); [|done].
  unfold audit_best_effort_prog.
  assert (Hrun : ∀ (m m' : M (Vault K S A) Error Z), m ≈ m' → m v w = m' v w) by auto.
  erewrite Hrun; [|run_alone; reflexivity]. unfold_run.
  by rewrite (alter_alt_Some _ _ _ _ Hk).
Qed.

Lemma revoke_body_others sel reason incr peer count kl v w r v' w' k :
  revoke_body sel reason incr peer count kl v w = (r, v', w') → k ≠ kl.1 →
  vault_leases v' !! k = vault_leases v !! k.
Proof.
  unfold revoke_body. intros Hrun Hne.
  destruct (sel kl.2 && negb (lease_revoked kl.2)); [|by unfold_run; simplify_eq].
  revert Hrun. unfold_run.
  destruct (audit_event_best_effort _ _ _ _ _ _) as [[r1 v1] w1] eqn:Ha.
  apply audit_best_effort_leases in Ha. intros Hrun.
  assert (v' = v1) as -> by (by destruct r1; simplify_eq).
  rewrite Ha. cbn [set_leases vault_leases]. by rewrite lookup_insert_ne.
Qed.

Lemma revoke_fold_alone sel reason incr peer xs count v w :
  NoDup xs.*1 → (∀ k l, (k, l) ∈ xs → vault_leases v !! k = Some l) →
  run_prog (pfold (revoke_step_prog sel reason incr peer) count xs) v w =
  fold_m (revoke_body sel reason incr peer) count xs v w.
Proof.
  revert count v w. induction xs as [|[k l] xs IH]; intros count v w Hnd Hin; [done|].
  rewrite fmap_cons in Hnd. apply NoDup_cons in Hnd as [Hk Hnd].
  cbn [pfold fold_m]. rewrite (run_prog_bind _ _ v w).
  unfold mbind, M_bind. rewrite revoke_step_alone by (apply Hin; set_solver).
  destruct (revoke_body sel reason incr peer count (k, l) v w) as [[[c|e|] v1] w1] eqn:Hb;
    [|done..].
  apply IH; [done|]. intros k' l' Hin'.
  assert (k' ≠ k). { intros ->. apply Hk. apply list_elem_of_fmap. by exists (k, l'). }
  rewrite (revoke_body_others _ _ _ _ _ _ _ _ _ _ _ k' Hb) by done. apply Hin. set_solver.
Qed.

Lemma revoke_loop_alone sel reason incr peer :
  run_prog (revoke_loop_prog (K := K) (S := S) (A := A) sel reason incr peer) ≈
  revoke_loop sel reason incr peer.
Proof.
  intros v w. unfold revoke_loop_prog, revoke_loop.
  rewrite (run_prog_lock _ _ _ v w), (run_prog_bind _ _ v w).
  apply (revoke_fold_alone sel reason incr peer (hash_iter (vault_leases v)) 0 v w).
  - apply hash_iter_NoDup.
  - intros k l. apply elem_of_hash_iter.
Qed.

Lemma initialize_alone :
  run_prog (initialize_prog (K := K) (S := S) (A := A)) ≈ Vault_initialize.
Proof. unfold initialize_prog, Vault_initialize. by run_alone. Qed.

Lemma store_secret_alone n p kind desc peer :
  run_prog (store_secret_prog (K := K) (S := S) (A := A) n p kind desc peer) ≈
  Vault_store_secret n p kind desc peer.
Proof. unfold store_secret_prog, Vault_store_secret, audit_prog. by run_alone. Qed.

Lemma delete_secret_alone n peer :
  run_prog (delete_secret_prog (K := K) (S := S) (A := A) n peer) ≈ Vault_delete_secret n peer.
Proof.
  unfold delete_secret_prog, Vault_delete_secret, audit_prog.
  rewrite run_prog_bind, revoke_loop_alone. by run_alone.
Qed.

Lemma revoke_session_alone t peer :
  run_prog (revoke_session_prog (K := K) (S := S) (A := A) t peer) ≈ Vault_revoke_session t peer.
Proof.
  unfold revoke_session_prog, Vault_revoke_session, audit_prog, mark_session_revoked.
  rewrite run_prog_bind. setoid_rewrite run_prog_bind. setoid_rewrite revoke_loop_alone.
  run_alone. intros v w. same_run.
Qed.

Lemma create_session_new u c p peer :
  Vault_create_session (K := K) (S := S) (A := A) u c p peer ≈
  ('(session, duration_secs, token) ← new_session u c p;
   modify (λ v, set_sessions (<[token := session]> (vault_sessions v)) v);;
   audit_event (EvSessionCreated (session_id session) u c duration_secs) (AgentId_new u) peer
     Success;;
   mret (token, session_id session)).
Proof. unfold Vault_create_session, new_session. intros v w. same_run. Qed.

Lemma create_session_alone u c p peer :
  run_prog (create_session_prog (K := K) (S := S) (A := A) u c p peer) ≈
  Vault_create_session u c p peer.
Proof.
  rewrite create_session_new. unfold create_session_prog, audit_prog.
  rewrite run_prog_bind, run_prog_atomic. apply bind_proper; [|done].
  intros [[session d] token]. by run_alone.
Qed.

Lemma renew_session_alone k l :
  run_prog (match lease_session_id l with
            | Some _ => with_lock LSessions Shared (atomic (renew_limit_check k l))
            | None => mret tt
            end) ≈ renew_limit_check (K := K) (S := S) (A := A) k l.
Proof.
  unfold renew_limit_check, renewal_limit. destruct (lease_session_id l); [|done]. by run_alone.
Qed.

Lemma renew_lease_alone k secs peer :
  run_prog (renew_lease_prog (K := K) (S := S) (A := A) k secs peer) ≈
  Vault_renew_lease k secs peer.
Proof.
  unfold renew_lease_prog, Vault_renew_lease, audit_prog. run_alone.
  setoid_rewrite renew_session_alone.
  unfold renew_checks, renew_limit_check, renew_in_place, ok_or, expect, utc_now.
  intros v w. same_run; congruence.
Qed.

Lemma reencrypt_alone old_dek new_dek meta v w :
  run_prog (reencrypt_prog old_dek new_dek meta) v w =
  reencrypt (vault_cipher v) old_dek new_dek meta v w.
Proof.
  unfold reencrypt_prog, reencrypt.
  assert (Hrun : ∀ (m m' : M (Vault K S A) Error BatchUpdateItem), m ≈ m' → m v w = m' v w) by auto.
  erewrite Hrun; [|run_alone; reflexivity]. unfold on_store, zoom. same_run.
Qed.

(** The cipher is fixed, so that reading it for every secret is reading it once. *)
Lemma on_store_cipher {B} (m : M S Error B) v w r v' w' :
  on_store (K := K) (A := A) m v w = (r, v', w') → vault_cipher v' = vault_cipher v.
Proof.
  unfold on_store, zoom. destruct (m (vault_store v) w) as [[r0 s] w0]. by intros [= _ <- _].
Qed.
Lemma reencrypt_cipher c old_dek new_dek meta v w r v' w' :
  reencrypt (K := K) (S := S) (A := A) c old_dek new_dek meta v w = (r, v', w') →
  vault_cipher v' = vault_cipher v.
Proof.
  intros Hrun. refine (wp_run _ _ _ (λ _ v' _, vault_cipher v' = vault_cipher v) _ _ _ _ Hrun).
  clear Hrun. unfold reencrypt. wp_step. apply run_wp. intros r1 v1 w1 Hs%on_store_cipher.
  destruct r1 as [st|e|]; [|done..]. wp_step. wp_step; [|done..]. wp_step.
  wp_call Cipher_encrypt_wp. intros r2 v2 w2 (-> & _). destruct r2; [|done..]. by wp_step.
Qed.
Lemma reencrypt_all_alone c old_dek new_dek xs v w :
  vault_cipher v = c →
  run_prog (ptraverse (reencrypt_prog old_dek new_dek) xs) v w =
  traverse (reencrypt c old_dek new_dek) xs v w.
Proof.
  revert v w. induction xs as [|x xs IH]; intros v w Hc; [done|].
  cbn [ptraverse traverse]. rewrite (run_prog_bind _ _ v w).
  unfold mbind, M_bind. rewrite reencrypt_alone, Hc.
  destruct (reencrypt c old_dek new_dek x v w) as [[[y|e|] v1] w1] eqn:Hr; [|done..].
  apply reencrypt_cipher in Hr.
  pose proof (run_prog_bind (ptraverse (reencrypt_prog old_dek new_dek) xs)
    (λ ys, mret (y :: ys)) v1 w1) as Hb. unfold mbind, M_bind in Hb. rewrite Hb.
  rewrite IH by congruence. done.
Qed.

Lemma rotate_dek_alone peer :
  run_prog (rotate_dek_prog (K := K) (S := S) (A := A) peer) ≈ Vault_rotate_dek peer.
Proof.
  unfold rotate_dek_prog, Vault_rotate_dek, audit_prog. run_alone. intros v w.
  unfold_run. unfold ok_or, fill_bytes. destruct (vault_dek v) as [dek|]; [|done]. unfold_run.
  destruct (on_store store_list v (tick_rng w)) as [[[secrets|e|] v1] w1] eqn:Hs; [|done..].
  apply on_store_cipher in Hs. rewrite (reencrypt_all_alone (vault_cipher v)) by done.
  same_run.
Qed.

Lemma scope_check_alone agent n d peer t tool :
  run_prog (scope_check (K := K) (S := S) (A := A) agent n d peer t tool) ≈
  (session ← Vault_validate_session t;
   match Session_check_tool_binding session tool n d with
   | Err _ =>
     audit_event_best_effort
       (EvToolBindingDenied (session_id session) tool n
          ("tool '" +:+ tool +:+ "' is not bound to secret '" +:+ SecretName_display n
           +:+ "' for domain '" +:+ DomainScope_display d +:+ "'"))
       agent peer (Denied "tool-to-secret binding denied");;
     throw (AccessDenied (AgentId_new tool) n d)
   | Panic => panic
   | Ok _ =>
     if max_concurrent_leases (session_policy session) <=? session_active_lease_count session
     then throw (SessionLeaseLimitReached (session_id session)
                   (max_concurrent_leases (session_policy session)))
     else mret (session_id session)
   end).
Proof.
  unfold scope_check, audit_best_effort_prog. run_alone. apply bind_proper; [|done].
  intros session. destruct (Session_check_tool_binding session tool n d); [|by run_alone|done].
  by destruct (_ <=? _).
Qed.

Lemma request_lease_scoped_alone agent n d peer t tool :
  run_prog (request_lease_scoped_prog (K := K) (S := S) (A := A) agent n d peer t tool) ≈
  Vault_request_lease_scoped agent n d peer t tool.
Proof.
  unfold request_lease_scoped_prog, Vault_request_lease_scoped.
  rewrite run_prog_bind, scope_check_alone. setoid_rewrite run_prog_bind.
  setoid_rewrite request_lease_alone. run_alone. unfold Vault_validate_session.
  intros v w. same_run.
Qed.

(** Every operation, with its locks and awaits, run while no other operation runs, does
    what the operation of [Vault] does: the same outcome, the same vault, the same draws
    from the clock and the random sources, whatever the arguments. *)
Theorem op_prog_alone op :
  run_prog (op_prog (K := K) (S := S) (A := A) op) ≈ run_op op.
Proof.
  destruct op; cbn [op_prog run_op]; try rewrite run_prog_bind;
    first
      [ apply initialize_alone | apply revoke_lease_alone | apply delete_secret_alone
      | apply rotate_dek_alone | apply revoke_session_alone
      | apply bind_proper; [done|]; unfold revoke_all_for_agent_prog;
        first
          [ apply request_lease_alone | apply access_secret_alone | apply revoke_loop_alone
          | apply store_secret_alone | apply renew_lease_alone | apply create_session_alone
          | apply request_lease_scoped_alone | by run_alone ] ].
Qed.
End sequential.
