(* ===== verification/VaultLocks.v ===== *)
(** The locks of the vault: [src/vault.rs].

    The lock of the leases is taken before the one of the sessions where an operation holds
    both, and a table is only written under its lock, so that operations that run at the
    same time cannot block each other and never see a table change under a guard. *)
From S2P Require Import Prelude Threads Text Concrete Types Lease Policy Session.
From S2P Require Import Store Crypto KeySource Auth AuditEvents Vault VaultInv VaultProps.
From S2P Require Import VaultThreads.

Local Open Scope list_scope.

(** The order in which the operations take the locks. *)
#[global] Instance VaultLock_rank : LockRank VaultLock := λ l,
  match l with LPolicy => 0 | LLeases => 1 | LSessions => 2 | LDek => 3 end%nat.

(** The field behind each lock. *)
#[global] Instance VaultLock_guards {K S A} : Guards (Vault K S A) VaultLock := λ l v v',
  match l with
  | LPolicy => vault_policy v' = vault_policy v
  | LLeases => vault_leases v' = vault_leases v
  | LSessions => vault_sessions v' = vault_sessions v
  | LDek => vault_dek v' = vault_dek v
  end.
#[global] Instance VaultLock_same_refl {K S A} (l : VaultLock) :
  Reflexive (same (St := Vault K S A) l).
Proof. by destruct l. Qed.
#[global] Instance VaultLock_same_trans {K S A} (l : VaultLock) :
  Transitive (same (St := Vault K S A) l).
Proof. intros v1 v2 v3. destruct l; unfold same; simpl; congruence. Qed.

Section respecting.
Context {K S A : Type}.
Context `{!Env, !Chrono, !UuidText, !HashIter, !Aead}.
Context `{!KeySource K, !SecretStore S, !AuditLog A}.
Abbreviation VM := (M (Vault K S A) Error).
Implicit Types (v : Vault K S A) (w : World) (h : list (VaultLock * Mode)).

(** [m] only writes the tables whose lock is held exclusively in [h]. *)
Definition respecting {B} h (m : VM B) : Prop :=
  ∀ v w, wp m v w (λ _ v' _, respects h v v').

Lemma respecting_same {B} h (m : VM B) :
  (∀ v w, wp m v w (λ _ v' _, v' = v)) → respecting h m.
Proof. intros Hm v w. eapply wp_mono; [apply Hm|]. by intros r v' w' -> l _. Qed.
Lemma respecting_bind {B C} h (m : VM B) (k : B → VM C) :
  respecting h m → (∀ b, respecting h (k b)) → respecting h (m ≫= k).
Proof.
  intros Hm Hk v w. apply wp_bind. eapply wp_mono; [apply Hm|].
  intros [b|e|] v' w' Hr; [|done..]. eapply wp_mono; [apply Hk|].
  intros r v2 w2 Hr' l Hl. etrans; [by apply Hr|by apply Hr'].
Qed.
Lemma respecting_modify h f : (∀ v, respects h v (f v)) → respecting h (modify f).
Proof. intros Hf v w. wp_step. apply Hf. Qed.
Lemma respecting_on_store {B} h (m : M S Error B) : respecting h (on_store m).
Proof. intros v w. unfold on_store. wp_step. apply run_wp. by intros r s' w' _ []. Qed.
Lemma respecting_on_audit {B} h (m : M A Error B) : respecting h (on_audit m).
Proof. intros v w. unfold on_audit. wp_step. apply run_wp. by intros r s' w' _ []. Qed.
Lemma respecting_on_key_source {B} h (m : M K Error B) : respecting h (on_key_source m).
Proof. intros v w. unfold on_key_source. wp_step. apply run_wp. by intros r s' w' _ []. Qed.
Lemma respecting_try {B} h (m : VM B) : respecting h m → respecting h (try_ m).
Proof. intros Hm v w. wp_step. eapply wp_mono; [apply Hm|]. by intros [b|e|]. Qed.
Lemma respecting_for_each {B} h (f : B → VM unit) xs :
  (∀ x, respecting h (f x)) → respecting h (for_each f xs).
Proof.
  intros Hf. induction xs as [|x xs IH]; simpl; [by apply respecting_same|].
  by apply respecting_bind.
Qed.
Lemma respecting_fold {B C} h (f : C → B → VM C) acc xs :
  (∀ acc x, respecting h (f acc x)) → respecting h (fold_m f acc xs).
Proof.
  intros Hf. revert acc. induction xs as [|x xs IH]; intros acc; [by apply respecting_same|].
  simpl. by apply respecting_bind.
Qed.
Lemma respecting_traverse {B C} h (f : B → VM C) xs :
  (∀ x, respecting h (f x)) → respecting h (traverse f xs).
Proof.
  intros Hf. induction xs as [|x xs IH]; simpl; [by apply respecting_same|].
  apply respecting_bind; [done|]. intros y. apply respecting_bind; [done|]. intros ys.
  by apply respecting_same.
Qed.
Lemma locked_act {B} h (m : VM B) : respecting h m → locked_in (L := VaultLock) h (atomic m) h.
Proof. apply locked_atomic. Qed.
End respecting.

(** Decides what an action writes from how it is put together. *)
Ltac respecting :=
  repeat first
    [ apply respecting_bind; [|intros ?] | apply respecting_on_store
    | apply respecting_on_audit | apply respecting_on_key_source | apply respecting_try
    | apply respecting_for_each; intros ? | apply respecting_fold; intros ? ?
    | apply respecting_traverse; intros ?
    | apply respecting_modify; intros ? [] ?; (done || set_solver)
    | apply respecting_same; intros ? ?; by wp_steps
    | match goal with |- respecting _ (match ?x with _ => _ end) => destruct x end ].
Ltac vault_respecting :=
  unfold audit_event, audit_event_best_effort, Vault_trace_and_record,
    Vault_trace_and_record_best_effort, Vault_encrypt, Vault_decrypt, cap_check, insert_lease,
    use_lease, revoke_one, renew_checks, renew_limit_check, renew_in_place, new_session,
    mark_session_revoked, Vault_validate_session, Vault_gc_leases, Vault_gc_sessions,
    Vault_list_secrets;
  unfold AuditEntry_new, Cipher_encrypt, encrypt_aes_gcm, encrypt_xchacha, Lease_new,
    Lease_validate, Lease_renew, Lease_time_remaining, Session_new, Session_time_remaining,
    Session_is_active, Session_is_expired, LeaseId_new, SessionId_new;
  respecting.
(** Decides the discipline from how a program is put together. *)
Ltac locked_step :=
  first
    [ apply locked_bind; [|intros ?] | apply locked_ret | apply locked_fail
    | apply locked_with; [repeat constructor|] | apply locked_fold; intros ? ?
    | apply locked_traverse; intros ?
    | match goal with |- locked_in _ (match ?x with _ => _ end) _ => destruct x end
    | apply locked_act; vault_respecting ].
Ltac locked := repeat locked_step.

Section locks.
Context {K S A : Type}.
Context `{!Env, !Chrono, !UuidText, !HashIter, !Aead}.
Context `{!KeySource K, !SecretStore S, !AuditLog A}.
Abbreviation VP := (Prog (Vault K S A) Error VaultLock).

Lemma audit_locked h ev a peer out : locked_in h (audit_prog ev a peer out : VP _) h.
Proof. unfold audit_prog. locked. Qed.
Lemma audit_best_effort_locked h ev a peer out :
  locked_in h (audit_best_effort_prog ev a peer out : VP _) h.
Proof. unfold audit_best_effort_prog. locked. Qed.

Lemma request_lease_locked a n d peer :
  locked_in [] (request_lease_prog a n d peer : VP _) [].
Proof. unfold request_lease_prog, policy_check, audit_prog. locked. Qed.

Lemma revoke_loop_locked sel reason incr peer :
  locked_in [] (revoke_loop_prog sel reason incr peer : VP _) [].
Proof. unfold revoke_loop_prog, revoke_step_prog, audit_best_effort_prog. locked. Qed.

Lemma op_prog_locked op : locked_in [] (op_prog op : VP _) [].
Proof.
  destruct op; cbn [op_prog];
    unfold initialize_prog, access_secret_prog, revoke_lease_prog, revoke_all_for_agent_prog,
      store_secret_prog, renew_lease_prog, delete_secret_prog, rotate_dek_prog, reencrypt_prog,
      create_session_prog, revoke_session_prog, request_lease_scoped_prog, scope_check,
      audit_prog, audit_best_effort_prog;
    repeat first [apply request_lease_locked | apply revoke_loop_locked | locked_step].
Qed.
End locks.
