(* ===== verification/VaultMoves.v ===== *)
(** What the operations of the vault may do to the shared tables between their awaits.

    A thread of the vault goes through phases, and each of its actions is a move: the cap
    has been checked, the lease has been made, its grant has been logged, it is entered in
    the table; a lease has been used, the access has been logged. Every operation of
    [VaultThreads] follows this protocol, whatever the other threads do meanwhile. *)
From S2P Require Import Prelude Threads Text Concrete Types Lease Policy Session.
From S2P Require Import Store Crypto KeySource Auth AuditEvents Vault VaultInv VaultSpec.
From S2P Require Import VaultProps VaultThreads VaultLocks.

Local Open Scope Z_scope.
Local Open Scope list_scope.

(** How far an operation has got. *)
Inductive Phase :=
  | Idle
  | Checked (agent : AgentId)
  | Drawn (l : Lease)
  | Logged (l : Lease)
  | Used (k : LeaseId) (l : Lease) (host : string)
  | Accessed (k : LeaseId) (l : Lease) (host : string)
  | Renewed (k : LeaseId)
  | Done.

(** The lease that is not yet in the table, and the agent whose request is under way. *)
Definition phase_lease (x : Phase) : option Lease :=
  match x with Drawn l | Logged l => Some l | _ => None end.
Definition phase_agent (x : Phase) : option AgentId :=
  match x with Checked a => Some a | Drawn l | Logged l => Some (lease_agent l) | _ => None end.
Definition phase_used (x : Phase) : option LeaseId :=
  match x with Used k _ _ | Accessed k _ _ => Some k | _ => None end.

(** The entries of the log that a grant and an access leave. *)
Definition grant_entry (l : Lease) (e : AuditEntry) : Prop :=
  ∃ ttl, entry_event e = EvLeaseGranted (lease_id l) (lease_secret_name l)
                           (lease_allowed_domains l) ttl ∧ entry_agent e = lease_agent l.
Definition access_entry (k : LeaseId) (l : Lease) (host : string) (e : AuditEntry) : Prop :=
  entry_event e = EvSecretAccessed k (lease_secret_name l) (DomainScope_new host) ∧
  entry_agent e = lease_agent l.

Section moves.
Context `{!Env}.
Variables (pol : PolicyEngine) (cap : nat).
Implicit Types (m : gmap LeaseId Lease) (w : World) (es : list AuditEntry).

(** [move x m w es x' m' w']: an action that takes its thread from [x] to [x'], the leases
    from [m] to [m'], and appends [es] to the log. With a cap of 0 the micro-steps of the
    table issue nothing: a lease is only entered by [mv_insert]. *)
Inductive move : Phase → gmap LeaseId Lease → World → list AuditEntry →
    Phase → gmap LeaseId Lease → World → Prop :=
  | mv_calm x x' m w es m' w' :
      lsteps pol 0 (m, w) (m', w') → x' = x ∨ x' = Done → move x m w es x' m' w'
  | mv_check a m w :
      (active_count a m < cap)%nat → move Idle m w [] (Checked a) m w
  | mv_draw m w w' i l d t :
      world_le w w' → (w_uuid w ≤ i < w_uuid w')%nat →
      lease_id l = LeaseId_from_uuid (now_v7 i) → issued_as pol l d t →
      move (Checked (lease_agent l)) m w [] (Drawn l) m w'
  | mv_log_grant m w w' l e :
      world_le w w' → grant_entry l e → move (Drawn l) m w [e] (Logged l) m w'
  | mv_insert m w l : move (Logged l) m w [] Done (<[lease_id l := l]> m) w
  | mv_use m w w' k l l' host :
      world_le w w' → m !! k = Some l → lease_live_for l (clock (w_clock w)) host →
      Lease_record_use l = Ok l' → move Idle m w [] (Used k l' host) (<[k := l']> m) w'
  | mv_log_access m w w' k l host e :
      world_le w w' → access_entry k l host e →
      move (Used k l host) m w [e] (Accessed k l host) m w'
  | mv_renew m w w' k l t :
      world_le w w' → m !! k = Some l → lease_revoked l = false → lease_renewable l = true →
      move Idle m w [] (Renewed k)
        (<[k := set_renewal t (u32_add (lease_renewal_count l) 1) l]> m) w'.

(** A move enters the lease it has logged, or leaves the table with the leases it had. *)
Lemma move_cases x m w es x' m' w' :
  move x m w es x' m' w' →
  lsteps pol 0 (m, w) (m', w') ∨
  ∃ l, x = Logged l ∧ x' = Done ∧ m' = <[lease_id l := l]> m ∧ w' = w ∧ es = [].
Proof.
  intros Hm. destruct Hm as [| | | | |m w w' k l l' host Hw Hk [Hr _] Hu| |m w w' k l t Hw Hk Hr Hn];
    eauto 10; left; try (by apply rtc_once, ls_time); [|].
  - eapply rtc_l; [by apply ls_time|]. apply rtc_once. by eapply ls_use.
  - eapply rtc_l; [by apply ls_time|]. apply rtc_once. by eapply ls_renew.
Qed.

Lemma move_world x m w es x' m' w' : move x m w es x' m' w' → world_le w w'.
Proof.
  intros [Hl|(l & _ & _ & _ & -> & _)]%move_cases; [by apply lsteps_world in Hl|done].
Qed.
End moves.

Section calm.
Context {K S A : Type}.
Context `{!Env, !Chrono, !UuidText, !HashIter, !Aead}.
Context `{!KeySource K, !SecretStore S, !AuditLog A}.
Context `{!KeySourceLaws K, !SecretStoreLaws S, !AuditLogLaws A}.
Abbreviation VM := (M (Vault K S A) Error).
Implicit Types (v : Vault K S A) (w : World).

(** The part of the vault that never changes, and a log that only grows. *)
Definition extends v v' (es : list AuditEntry) : Prop :=
  vault_policy v' = vault_policy v ∧
  vault_max_leases_per_agent v' = vault_max_leases_per_agent v ∧
  audit_view (vault_audit v') = audit_view (vault_audit v) ++ es.
Lemma extends_refl v : extends v v [].
Proof. unfold extends. by rewrite app_nil_r. Qed.
Lemma extends_leases v m : extends v (set_leases m v) [].
Proof. unfold extends. by rewrite app_nil_r. Qed.
Lemma extends_trans v1 v2 v3 es es' :
  extends v1 v2 es → extends v2 v3 es' → extends v1 v3 (es ++ es').
Proof.
  intros (Hp & Hc & Ha) (Hp' & Hc' & Ha'). unfold extends.
  rewrite Hp', Hc', Ha', Hp, Hc, Ha. by rewrite app_assoc.
Qed.

(** Nothing is issued. *)
Definition calm {B} (m : VM B) : Prop :=
  ∀ v w, wp m v w (λ _ v' w', ∃ es, extends v v' es ∧
    lsteps (vault_policy v) 0 (vault_leases v, w) (vault_leases v', w')).

Lemma calm_evolving {B} h (m : VM B) :
  evolving m → respecting h m → (LLeases, Exclusive) ∉ h → calm m.
Proof.
  intros He Hr Hh v w. eapply wp_mono; [apply (wp_conj _ _ _ _ _ (He v w) (Hr v w))|].
  intros r v' w' [(Hp & _ & Hc & [es Ha] & Hl) Hres]. exists es. split; [done|].
  specialize (Hres LLeases Hh). unfold same in Hres. simpl in Hres. rewrite Hres.
  apply rtc_once, ls_time. by apply lsteps_world in Hl.
Qed.
Lemma calm_bind {B C} (m : VM B) (k : B → VM C) :
  calm m → (∀ b, calm (k b)) → calm (m ≫= k).
Proof.
  intros Hm Hk v w. apply wp_bind. eapply wp_mono; [apply Hm|].
  intros [b|e|] v' w' (es & Hx & Hl); [|by exists es..]. eapply wp_mono; [apply Hk|].
  intros r v2 w2 (es' & Hx' & Hl'). exists (es ++ es'). split; [by eapply extends_trans|].
  destruct Hx as (Hp & _). rewrite Hp in Hl'. by etrans.
Qed.
Lemma calm_leases f :
  (∀ v w, lsteps (vault_policy v) 0 (vault_leases v, w) (f v, w)) →
  calm (modify (λ v, set_leases (f v) v)).
Proof. intros Hf v w. wp_step. exists []. split; [apply extends_leases|]. apply Hf. Qed.
Lemma calm_for_each {B} (f : B → VM unit) xs : (∀ x, calm (f x)) → calm (for_each f xs).
Proof.
  intros Hf. induction xs as [|x xs IH]; simpl; [|by apply calm_bind].
  intros v w. wp_step. exists []. split; [apply extends_refl|done].
Qed.
End calm.

(** An action that does not touch the leases is calm. *)
Ltac calm_frame :=
  eapply (calm_evolving [(LSessions, Exclusive); (LDek, Exclusive)]);
  [ unfold cap_check, renew_checks, renew_limit_check, new_session, mark_session_revoked,
      Vault_encrypt, Vault_decrypt, Vault_validate_session, Vault_list_secrets,
      Vault_gc_sessions, Lease_new, LeaseId_new, Session_new, SessionId_new,
      Session_time_remaining, Session_is_active, Lease_time_remaining;
    evolve;
    first [ apply store_get_wb | apply store_put_wb | apply store_list_wb
          | apply store_delete_wb | apply store_batch_update_wb | apply ks_rotate_forward
          | apply ks_load_forward ]
  | vault_respecting | set_solver ].

Section protocol.
Context {K S A : Type}.
Context `{!Env, !Chrono, !UuidText, !HashIter, !Aead}.
Context `{!KeySource K, !SecretStore S, !AuditLog A}.
Context `{!KeySourceLaws K, !SecretStoreLaws S, !AuditLogLaws A}.
Variables (pol : PolicyEngine) (cap : nat).
Abbreviation VM := (M (Vault K S A) Error).
Abbreviation VP := (Prog (Vault K S A) Error VaultLock).
Implicit Types (v : Vault K S A) (w : World) (op : VaultOp) (x : Phase).

(** The policy and the cap are those of the start. *)
Definition configured v w : Prop :=
  vault_policy v = pol ∧ vault_max_leases_per_agent v = cap.

(** An action of the operation [y.1], from the phase [y.2] on. *)
Definition vault_move (y : VaultOp * Phase) v w (y' : VaultOp * Phase) v' w' : Prop :=
  y'.1 = y.1 ∧ ∃ es, extends v v' es ∧
    move pol cap y.2 (vault_leases v) w es y'.2 (vault_leases v') w'.

Abbreviation vfollows := (follows configured vault_move).

Lemma configured_extends v w v' w' es : configured v w → extends v v' es → configured v' w'.
Proof. intros [? ?] (? & ? & _). split; congruence. Qed.

(** An action that does what [move] says. *)
Lemma follows_move {B} op x (m : VM B) Q :
  (∀ v w, configured v w → wp m v w (λ r v' w', ∃ es x', extends v v' es ∧
     move pol cap x (vault_leases v) w es x' (vault_leases v') w' ∧ Q (op, x') r)) →
  vfollows (op, x) (atomic m : VP B) Q.
Proof.
  intros Hm. apply follows_atomic. intros v w Hc. eapply wp_mono; [by apply Hm|].
  intros r v' w' (es & x' & Hx & Hmv & HQ). split; [by eapply configured_extends|].
  exists (op, x'). split; [|done]. split; [done|]. by exists es.
Qed.

(** A calm action: it stays where it is, or gives up. *)
Lemma follows_calm {B} op x (m : VM B) Q :
  calm m → (∀ r, Q (op, x) r ∨ Q (op, Done) r) → vfollows (op, x) (atomic m : VP B) Q.
Proof.
  intros Hm HQ. apply follows_move. intros v w [Hp _]. eapply wp_mono; [apply Hm|].
  intros r v' w' (es & Hx & Hl). rewrite Hp in Hl. exists es.
  destruct (HQ r); [exists x|exists Done]; (split; [done|]); (split; [|done]);
    apply mv_calm; auto.
Qed.

(** Programs that never leave their phase. *)
Definition stays {B} (y : VaultOp * Phase) (p : VP B) : Prop := vfollows y p (λ y' _, y' = y).

Lemma stays_calm {B} y (m : VM B) : calm m → stays y (atomic m).
Proof. destruct y as [op x]. intros Hm. apply follows_calm; auto. Qed.
Lemma stays_ret {B} y (r : outcome Error B) : stays y (Ret r : VP B).
Proof. done. Qed.
Lemma stays_bind {B C} y (p : VP B) (k : B → VP C) :
  stays y p → (∀ b, stays y (k b)) → stays y (p ≫= k).
Proof.
  intros Hp Hk. eapply follows_bind; [exact Hp|..]; simpl; [|done..]. intros y' b ->. apply Hk.
Qed.
Lemma stays_lock {B} y l md (p : VP B) : stays y p → stays y (with_lock l md p).
Proof. apply follows_lock. Qed.
Lemma stays_fold {B C} y (f : C → B → VP C) acc xs :
  (∀ acc b, stays y (f acc b)) → stays y (pfold f acc xs).
Proof.
  intros Hf. apply (follows_fold _ _ _ _ _ _ (λ y', y' = y)); [done|].
  intros y' acc' b ->. apply Hf.
Qed.
Lemma stays_traverse {B C} y (f : B → VP C) xs :
  (∀ b, stays y (f b)) → stays y (ptraverse f xs).
Proof.
  intros Hf. apply (follows_traverse _ _ _ _ _ (λ y', y' = y)); [done|].
  intros y' b ->. apply Hf.
Qed.

(** A program that stays where it is, then one that goes on from there. *)
Lemma follows_stays {B C} y (p : VP B) (k : B → VP C) Q :
  stays y p → (∀ b, vfollows y (k b) Q) → (∀ e, Q y (Err e)) → Q y Panic →
  vfollows y (p ≫= k) Q.
Proof.
  intros Hp Hk He Hpa. eapply follows_bind; [exact Hp|..]; simpl;
    [intros y' b ->|intros y' e ->|intros y' ->]; auto.
Qed.

(** *** The operations that issue, use and renew nothing *)

Lemma calm_audit ev a peer out : calm (audit_event ev a peer out : VM _).
Proof. calm_frame. Qed.
Lemma calm_audit_best_effort ev a peer out : calm (audit_event_best_effort ev a peer out : VM _).
Proof. calm_frame. Qed.
Lemma calm_revoke_one k : calm (revoke_one k : VM _).
Proof.
  intros v w. unfold revoke_one. wp_steps; exists [].
  - split; [apply extends_leases|]. by apply rtc_once, ls_revoke.
  - split; [apply extends_refl|done].
Qed.
Lemma calm_revoke_entry k :
  calm (modify (λ v, set_leases (alter Lease_revoke k (vault_leases v)) v) : VM _).
Proof.
  apply calm_leases. intros v w. destruct (vault_leases v !! k) as [l|] eqn:Hk.
  - rewrite (alter_alt_Some _ _ _ _ Hk). by apply rtc_once, ls_revoke.
  - rewrite alter_id; [done|]. intros l Hl. congruence.
Qed.
Lemma calm_link k sid :
  calm (modify (λ v, set_leases (alter (set_lease_session (Some sid)) k (vault_leases v)) v) : VM _).
Proof. apply calm_leases. intros v w. apply rtc_once, ls_link. Qed.
Lemma calm_gc_leases : calm (Vault_gc_leases : VM _).
Proof.
  unfold Vault_gc_leases. apply calm_bind; [calm_frame|]. intros self.
  apply calm_bind; [|intros _; calm_frame]. apply calm_for_each. intros kl.
  apply calm_bind; [calm_frame|]. intros [|]; [calm_frame|]. apply calm_leases.
  intros v w. apply rtc_once, ls_drop.
Qed.

Ltac calming :=
  first [ apply calm_audit | apply calm_audit_best_effort | apply calm_revoke_one
        | apply calm_revoke_entry | apply calm_link | apply calm_gc_leases | calm_frame ].
Ltac staying :=
  repeat first
    [ apply stays_bind; [|intros ?] | apply stays_lock | apply stays_fold; intros ? ?
    | apply stays_traverse; intros ? | apply stays_ret
    | match goal with |- stays _ (match ?c with _ => _ end) => destruct c end
    | apply stays_calm; calming ].

(** What an operation has done when it returns: it holds no lease back, and if it has read
    a secret or renewed a lease, it has gone through the moves for that. *)
Definition post (y : VaultOp * Phase) (r : outcome Error unit) : Prop :=
  phase_agent y.2 = None ∧
  (is_ok r = true →
   match y.1 with
   | OpAccessSecret k host _ => ∃ l, y.2 = Accessed k l host
   | OpRenewLease k _ _ => y.2 = Renewed k
   | _ => True
   end).

(** The operations that do neither. *)
Definition bystander op : Prop :=
  match op with
  | OpRequestLease _ _ _ _ | OpRequestLeaseScoped _ _ _ _ _ _
  | OpAccessSecret _ _ _ | OpRenewLease _ _ _ => False
  | _ => True
  end.
Lemma bystander_stays op : bystander op → stays (op, Idle) (op_prog op).
Proof.
  destruct op; try done; intros _; cbn [op_prog];
    unfold initialize_prog, revoke_lease_prog, revoke_all_for_agent_prog, store_secret_prog,
      delete_secret_prog, rotate_dek_prog, reencrypt_prog, create_session_prog,
      revoke_session_prog, revoke_loop_prog, revoke_step_prog, audit_prog,
      audit_best_effort_prog;
    staying.
Qed.

(** *** The operations that do *)

Definition settled (y : VaultOp * Phase) : Prop := y.2 = Idle ∨ y.2 = Done.

Lemma policy_check_follows op a n d peer :
  vfollows (op, Idle) (policy_check a n d peer : VP _) (λ y r,
    y = (op, Idle) ∧ ∀ t, r = Ok t → PolicyEngine_evaluate pol a n d = Ok t).
Proof.
  unfold policy_check, audit_prog. apply follows_lock.
  eapply follows_bind with (P := λ y r, y = (op, Idle) ∧ ∀ v, r = Ok v → vault_policy v = pol).
  - apply follows_move. intros v w [Hp _]. wp_step. exists [], Idle.
    split; [apply extends_refl|]. split; [by apply mv_calm; auto|]. split; [done|].
    by intros v' [= <-].
  - intros y self [-> Hp]. rewrite (Hp self) by done.
    destruct (PolicyEngine_evaluate pol a n d) as [t|e|]; [by split; [|intros t' [= <-]]| |done].
    apply follows_stays; [apply stays_calm; calming|done..].
  - by intros y e [-> _].
  - by intros y [-> _].
Qed.

Lemma cap_check_follows op a :
  vfollows (op, Idle) (atomic (cap_check a) : VP _) (λ y r,
    if is_ok r then y = (op, Checked a) else y = (op, Idle)).
Proof.
  apply follows_move. intros v w [_ Hc]. unfold cap_check. wp_step. wp_step. wp_step; wp_step;
    exists []; (eexists; split; [apply extends_refl|]; split; [|done]).
  - by apply mv_calm; auto.
  - apply mv_check. rewrite <-Hc. by apply Nat.leb_gt.
Qed.

Lemma Lease_new_follows op a n d t :
  PolicyEngine_evaluate pol a n d = Ok t →
  vfollows (op, Checked a) (atomic (Lease_new a n [d] t) : VP _) (λ y r,
    match r with
    | Ok l => y = (op, Drawn l) ∧ lease_agent l = a ∧ lease_secret_name l = n ∧
              lease_allowed_domains l = [d]
    | _ => y = (op, Done)
    end).
Proof.
  intros Hpol. apply follows_move. intros v w [Hp _].
  wp_call (Lease_new_issued a n d t v w); [by rewrite Hp|].
  intros [l|e|] v' w' (-> & Hw & Hne & Hiss); [|by destruct (Hne e)|].
  - destruct (Hiss l eq_refl) as (Has & Ha & Hn & (i & Hi & Hid) & _). rewrite Hp in Has.
    exists [], (Drawn l). split; [apply extends_refl|]. split.
    + rewrite <-Ha. by eapply mv_draw.
    + destruct Has as (_ & Hd & _). done.
  - exists [], Done. split; [apply extends_refl|]. split; [|done].
    apply mv_calm; [|by right]. by apply rtc_once, ls_time.
Qed.

(** A logging step: the entry is appended and the phase changes, or the operation ends. *)
Lemma audit_follows op x x' ev a peer out :
  (∀ e m w w', world_le w w' → entry_event e = ev → entry_agent e = a →
     move pol cap x m w [e] x' m w') →
  vfollows (op, x) (audit_prog ev a peer out : VP _) (λ y r,
    if is_ok r then y = (op, x') else y = (op, Done)).
Proof.
  intros Hmv. unfold audit_prog. apply follows_move. intros v w Hc. wp_call audit_event_wp.
  intros r v' w' (_ & Hw & Hv & Ha).
  assert (Hl : vault_leases v' = vault_leases v) by (by rewrite Hv). rewrite Hl.
  destruct (is_ok r).
  - eexists [_], x'. split; [split; [by rewrite Hv|split; [by rewrite Hv|exact Ha]]|].
    split; [|done]. by apply Hmv.
  - exists [], Done. split.
    { split; [by rewrite Hv|]. split; [by rewrite Hv|]. by rewrite app_nil_r. }
    split; [|done]. apply mv_calm; [|by right]. by apply rtc_once, ls_time.
Qed.

Lemma insert_follows op l :
  vfollows (op, Logged l) (atomic (insert_lease l) : VP _) (λ y r, y = (op, Done)).
Proof.
  apply follows_move. intros v w _. unfold insert_lease. wp_step. exists [], Done.
  split; [apply extends_leases|]. split; [|done]. apply mv_insert.
Qed.

Lemma request_lease_follows op a n d peer :
  vfollows (op, Idle) (request_lease_prog a n d peer : VP _) (λ y _, y.1 = op ∧ settled y).
Proof.
  unfold request_lease_prog.
  eapply follows_bind; [apply policy_check_follows|..]; cbn [is_ok].
  2: { intros y e [-> _]. split; [done|by left]. } 2: { intros y [-> _]. split; [done|by left]. }
  intros y t [-> Hpol].
  eapply follows_bind; [apply follows_lock, cap_check_follows|..]; cbn [is_ok].
  2: { intros y e ->. split; [done|by left]. } 2: { intros y ->. split; [done|by left]. }
  intros y _ ->.
  eapply follows_bind with (P := λ y r, y = if is_ok r then (op, Checked a) else (op, Done)).
  { apply follows_calm; [calming|]. intros [x|e|]; simpl; auto. }
  2, 3: intros; subst; split; [done|by right].
  intros y st ->. cbn [is_ok].
  eapply follows_bind; [apply Lease_new_follows; by apply Hpol|..]; cbn [is_ok].
  2: { intros y e ->. split; [done|by right]. } 2: { intros y ->. split; [done|by right]. }
  intros y l (-> & Ha & Hn & Hd).
  eapply follows_bind; [apply (audit_follows op (Drawn l) (Logged l))|..]; cbn [is_ok].
  { intros e m w w' Hw He1 He2. apply mv_log_grant; [done|]. eexists. by rewrite Ha, Hn, Hd. }
  2: { intros y e ->. split; [done|by right]. } 2: { intros y ->. split; [done|by right]. }
  intros y _ ->.
  eapply follows_bind; [apply follows_lock, insert_follows|..]; cbn [is_ok];
    intros; subst; (split; [done|by right]).
Qed.

Lemma use_lease_follows op k host :
  vfollows (op, Idle) (atomic (use_lease k host) : VP _) (λ y r,
    match r with Ok l => y = (op, Used k l host) | _ => y = (op, Idle) end).
Proof.
  apply follows_move. intros v w _. unfold use_lease. wp_step. wp_step. wp_step.
  wp_step; wp_step; [|exists [], Idle; split; [apply extends_refl|]; split; [by apply mv_calm; auto|done]].
  wp_step. wp_call Lease_validate_wp. intros r v' w' (-> & Hw & Hr & Hlive).
  assert (Hstay : ∃ es x', extends v v es ∧
    move pol cap Idle (vault_leases v) w es x' (vault_leases v) w' ∧ (op, x') = (op, Idle)).
  { exists [], Idle. split; [apply extends_refl|]. split; [|done].
    apply mv_calm; [|by left]. by apply rtc_once, ls_time. }
  destruct r as [[]|e|]; [|done..]. wp_step. wp_step; [|done..].
  wp_step. wp_step. wp_step. exists [], (Used k a host). split; [apply extends_leases|].
  split; [|done]. eapply mv_use; [done..| |done]. by apply Hlive.
Qed.

Lemma access_secret_follows op k host peer :
  vfollows (op, Idle) (access_secret_prog k host peer : VP _) (λ y r,
    y.1 = op ∧ phase_agent y.2 = None ∧ (is_ok r = true → ∃ l, y.2 = Accessed k l host)).
Proof.
  unfold access_secret_prog.
  eapply follows_bind; [apply follows_lock, use_lease_follows|..]; cbn beta iota;
    [|by intros y e ->|by intros y ->].
  intros y l ->. apply follows_stays; [apply stays_calm; calming| |done..]. intros st.
  apply follows_stays; [apply stays_lock, stays_calm; calming| |done..]. intros p.
  eapply follows_bind; [apply (audit_follows op (Used k l host) (Accessed k l host))|..];
    cbn [is_ok]; [|intros y u ->; simpl; by eauto|by intros y e ->|by intros y ->].
  intros e m w w' Hw He1 He2. by apply mv_log_access.
Qed.

Lemma renew_in_place_follows op k secs :
  vfollows (op, Idle) (atomic (renew_in_place k secs) : VP _) (λ y r,
    if is_ok r then y = (op, Renewed k) else y = (op, Idle)).
Proof.
  apply follows_move. intros v w _. unfold renew_in_place, Lease_renew.
  assert (Hstay : ∀ w', world_le w w' → ∃ es x', extends v v es ∧
    move pol cap Idle (vault_leases v) w es x' (vault_leases v) w' ∧ (op, x') = (op, Idle)).
  { intros w' Hw. exists [], Idle. split; [apply extends_refl|]. split; [|done].
    apply mv_calm; [|by left]. by apply rtc_once, ls_time. }
  wp_steps; try (by apply Hstay; solve_world).
  exists [], (Renewed k). split; [apply extends_leases|]. split; [|done].
  eapply mv_renew; [solve_world|done|done|]. by apply negb_false_iff.
Qed.

Lemma renew_lease_follows op k secs peer :
  vfollows (op, Idle) (renew_lease_prog k secs peer : VP _) (λ y r,
    y.1 = op ∧ phase_agent y.2 = None ∧ (is_ok r = true → y.2 = Renewed k)).
Proof.
  unfold renew_lease_prog.
  eapply follows_bind with (P := λ y r, if is_ok r then y = (op, Renewed k) else y = (op, Idle));
    cbn [is_ok]; [apply follows_lock| |by intros y e ->|by intros y ->].
  - apply follows_stays; [apply stays_calm; calming| |done..]. intros l.
    apply follows_stays; [staying| |done..]. intros _. apply renew_in_place_follows.
  - intros y l ->. apply follows_stays; [apply stays_calm; calming|done..].
Qed.

Lemma scoped_follows op a n d peer t tool :
  vfollows (op, Idle) (request_lease_scoped_prog a n d peer t tool : VP _) (λ y _,
    y.1 = op ∧ settled y).
Proof.
  unfold request_lease_scoped_prog, scope_check, audit_best_effort_prog.
  apply follows_stays; [staying| |split; [done|by left]..]. intros sid.
  eapply follows_bind; [apply request_lease_follows|..]; cbn beta; [|done..].
  intros [op' x] g Hx. eapply (follows_seq _ _ _ _ _ (λ y' _, y' = (op', x)));
    [apply stays_lock, stays_calm; calming|]. intros y' r ->. destruct r; [|done..].
  eapply (follows_seq _ _ _ _ _ (λ y' _, y' = (op', x)));
    [apply stays_lock, stays_calm; calming|]. intros y' r ->. by destruct r.
Qed.

(** Every operation follows the protocol, from its arrival on. *)
Lemma op_prog_follows op : vfollows (op, Idle) (op_prog op) post.
Proof.
  assert (Hb : bystander op → vfollows (op, Idle) (op_prog op) post).
  { intros Hop. eapply follows_mono; [by apply bystander_stays|].
    intros y r ->. split; [done|]. by destruct op. }
  destruct op; try (by apply Hb); cbn [op_prog].
  all: eapply follows_bind; [first [apply request_lease_follows | apply access_secret_follows
    | apply renew_lease_follows | apply scoped_follows]|..].
  all: intros [op x]; unfold settled, post; simpl; naive_solver.
Qed.
End protocol.
