(* ===== verification/VaultConc.v ===== *)
(** The vault under concurrent operations.

    Operations arrive at any time, at most [N] of them are under way at once, and their
    steps interleave in any way the locks allow. The invariants of the lease table and of
    the log, the finality of a revocation, the use budget of a lease and the bound on the
    active leases of an agent are proved of every such run, from what a single move may
    do. *)
From S2P Require Import Prelude Threads Fifo Text Concrete Types Lease Policy Session.
From S2P Require Import Store Crypto KeySource Auth AuditEvents Vault VaultInv VaultSpec.
From S2P Require Import VaultProps VaultThreads VaultLocks VaultMoves.

Local Open Scope Z_scope.
Local Open Scope list_scope.

(** ** Counting *)

Section count.
Context {X : Type} (P : X → Prop) `{!∀ x, Decision (P x)}.

Definition count (xs : list X) : nat := length (filter P xs).

Lemma count_app xs ys : count (xs ++ ys) = (count xs + count ys)%nat.
Proof. unfold count. by rewrite filter_app, length_app. Qed.
Lemma count_insert xs i x x' :
  xs !! i = Some x →
  (count (<[i := x']> xs) + (if decide (P x) then 1 else 0) =
   count xs + (if decide (P x') then 1 else 0))%nat.
Proof.
  unfold count. revert i. induction xs as [|y xs IH]; intros [|i] Hi; simplify_eq/=.
  - rewrite !filter_cons. repeat case_decide; simpl; lia.
  - specialize (IH i Hi). rewrite !filter_cons. repeat case_decide; simpl; lia.
Qed.
Lemma count_Forall2_le {Y} (Q : Y → Prop) `{!∀ y, Decision (Q y)} xs (ys : list Y) :
  Forall2 (λ x y, P x → Q y) xs ys → (count xs ≤ length (filter Q ys))%nat.
Proof.
  unfold count. induction 1 as [|x y xs ys Hxy _ IH]; [done|]. rewrite !filter_cons.
  repeat case_decide; simpl; try lia. tauto.
Qed.
End count.

(** ** Runs *)

Section runs.
Context {K S A : Type}.
Context `{!Env, !Chrono, !UuidText, !HashIter, !Aead}.
Context `{!KeySource K, !SecretStore S, !AuditLog A}.
Abbreviation VPool := (Pool (Vault K S A) Error VaultLock unit).
Implicit Types (v : Vault K S A) (w : World) (c : VPool) (op : VaultOp).

(** A new request. *)
Definition arrive op c : VPool :=
  mkPool (pool_state c) (pool_world c) (pool_threads c ++ [spawn (op_prog op)]).

(** [conc N c ops c']: from [c] on the operations [ops] have arrived, none of them while [N]
    others were under way, and the pool has become [c']. *)
Inductive conc (N : nat) : VPool → list VaultOp → VPool → Prop :=
  | conc_refl c : conc N c [] c
  | conc_step c ops c1 c2 : conc N c ops c1 → pool_step c1 c2 → conc N c ops c2
  | conc_time c ops c1 w :
      conc N c ops c1 → world_le (pool_world c1) w →
      conc N c ops (mkPool (pool_state c1) w (pool_threads c1))
  | conc_arrive c ops c1 op :
      conc N c ops c1 → (running c1 < N)%nat → conc N c (ops ++ [op]) (arrive op c1).

(** The runs of a new vault. *)
Definition conc_run (N : nat) v0 w0 (ops : list VaultOp) c : Prop :=
  initial v0 ∧ conc N (mkPool v0 w0 []) ops c.

(** A run as a script: an arrival, or a number of steps of a thread. *)
Inductive Event := Arrive (op : VaultOp) | Run (i n : nat).
Definition run_event (N : nat) (ev : Event) c : option VPool :=
  match ev with
  | Arrive op => if decide (running c < N)%nat then Some (arrive op c) else None
  | Run i n => run_schedule (replicate n i) c
  end.
Fixpoint run_events (N : nat) (evs : list Event) c : option VPool :=
  match evs with
  | [] => Some c
  | ev :: evs' => c' ← run_event N ev c; run_events N evs' c'
  end.
Lemma run_events_app N evs evs' c :
  run_events N (evs ++ evs') c = (c' ← run_events N evs c; run_events N evs' c').
Proof.
  revert c. induction evs as [|ev evs IH]; intros c; [done|]. simpl.
  destruct (run_event N ev c) as [c1|]; [apply IH|done].
Qed.
Definition arrivals (evs : list Event) : list VaultOp :=
  omap (λ ev, match ev with Arrive op => Some op | _ => None end) evs.

Lemma conc_trans N c1 ops1 c2 ops2 c3 :
  conc N c1 ops1 c2 → conc N c2 ops2 c3 → conc N c1 (ops1 ++ ops2) c3.
Proof.
  intros H12 H23. induction H23; rewrite ?app_nil_r, ?app_assoc; eauto using conc.
Qed.
Lemma conc_steps N c c' : rtc pool_step c c' → conc N c [] c'.
Proof.
  intros Hr. refine (rtc_ind_r (λ c', conc N c [] c') c _ _ c' Hr); [constructor|].
  intros c1 c2 _ Hs IH. by eapply conc_step.
Qed.
Lemma run_events_conc N evs c c' : run_events N evs c = Some c' → conc N c (arrivals evs) c'.
Proof.
  revert c. induction evs as [|ev evs IH]; intros c Hrun; simplify_eq/=; [constructor|].
  apply bind_Some in Hrun as (c1 & Hev & Hrun). specialize (IH c1 Hrun).
  destruct ev as [op|i n]; simpl in Hev.
  - case_decide as Hlt; simplify_eq.
    apply (conc_trans N c [op] (arrive op c) (arrivals evs)); [|exact IH]. apply (conc_arrive N c []); [constructor|done].
  - apply (conc_trans N c [] c1 (arrivals evs)); [|exact IH].
    apply conc_steps. by eapply run_schedule_steps.
Qed.

Context `{!KeySourceLaws K, !SecretStoreLaws S, !AuditLogLaws A}.
Variables (pol : PolicyEngine) (cap : nat).
Abbreviation ghosts := (list (VaultOp * Phase)).
Abbreviation vpool_follows := (pool_follows (configured pol cap) (vault_move pol cap) post).

Definition busy (y : VaultOp * Phase) : Prop := is_Some (phase_agent y.2).
#[global] Instance busy_dec y : Decision (busy y).
Proof. unfold busy. apply _. Defined.

(** A request under way is a thread that has not finished. *)
Lemma busy_running (ys : ghosts) c : vpool_follows ys c → (count busy ys ≤ running c)%nat.
Proof.
  intros [_ Hall]. apply count_Forall2_le. eapply Forall2_impl; [exact Hall|].
  intros y t Hf [a Ha] [r Hr]. cbn beta in Hf. rewrite Hr in Hf. destruct Hf as [Hn _]. congruence.
Qed.

Lemma filter_running_insert (ts : list (Thread (Vault K S A) Error VaultLock unit)) i t t' :
  ts !! i = Some t → ¬ finished t →
  (length (filter (λ t, ¬ finished t) (<[i := t']> ts)) ≤
   length (filter (λ t, ¬ finished t) ts))%nat.
Proof.
  intros Hi Hf. pose proof (count_insert (λ t, ¬ finished t) ts i t t' Hi) as Hc.
  unfold count in Hc. rewrite (decide_True _ _ Hf) in Hc. case_decide; lia.
Qed.
Lemma pool_step_running c c' : pool_step c c' → (running c' ≤ running c)%nat.
Proof.
  intros [i Hi]. apply step_at_Some in Hi as (t & t' & s' & w' & Ht & Hs & ->).
  eapply filter_running_insert; [done|]. intros [r Hr]. unfold thread_step in Hs.
  by rewrite Hr in Hs.
Qed.

(** What the moves, the arrivals and the time keep, every run keeps. *)
Lemma conc_simulated (N : nat) (J : ghosts → Vault K S A → World → Prop) c ops c' ys :
  (∀ ys v w ys' v' w',
     protocol_step (vault_move pol cap) (ys, v, w) (ys', v', w') →
     configured pol cap v w → (count busy ys' ≤ N)%nat → J ys v w → J ys' v' w') →
  (∀ ys v w w', world_le w w' → J ys v w → J ys v w') →
  (∀ ys v w op, J ys v w → J (ys ++ [(op, Idle)]) v w) →
  conc N c ops c' → vpool_follows ys c → (running c ≤ N)%nat → J ys (pool_state c) (pool_world c) →
  ∃ ys', vpool_follows ys' c' ∧ (running c' ≤ N)%nat ∧ ys'.*1 = ys.*1 ++ ops ∧
    J ys' (pool_state c') (pool_world c').
Proof.
  intros Hmove Htime Hjoin Hrun Hys HN HJ. induction Hrun as
    [c|c ops c1 c2 _ IH Hs|c ops c1 w _ IH Hw|c ops c1 op _ IH Hlt].
  - exists ys. by rewrite app_nil_r.
  - destruct (IH Hys HN HJ) as (ys1 & Hf1 & HN1 & Hops & HJ1).
    destruct (pool_step_follows _ _ _ _ _ _ Hs Hf1) as (ys2 & Hf2 & Hcase).
    pose proof (pool_step_running _ _ Hs). exists ys2. split; [done|]. split; [lia|].
    destruct Hcase as [[= -> -> ->]|Hp]; [done|]. split.
    + destruct Hp as (i & y & y' & Hi & [Hy _] & Heq). cbn [fst snd] in *. subst ys2.
      rewrite list_fmap_insert, Hy, list_insert_id; [done|]. by rewrite list_lookup_fmap, Hi.
    + eapply Hmove; [exact Hp|by destruct Hf1| |done]. pose proof (busy_running _ _ Hf2). lia.
  - destruct (IH Hys HN HJ) as (ys1 & [Hc Hf1] & HN1 & Hops & HJ1). exists ys1.
    split; [done|]. split; [done|]. split; [done|]. by eapply Htime.
  - destruct (IH Hys HN HJ) as (ys1 & Hf1 & HN1 & Hops & HJ1). exists (ys1 ++ [(op, Idle)]).
    split; [by apply pool_follows_join, op_prog_follows|]. split.
    { unfold running, arrive in *. cbn [pool_threads]. rewrite filter_app, length_app.
      rewrite filter_cons. case_decide; simpl; lia. }
    split; [by rewrite fmap_app, Hops, app_assoc|]. by apply Hjoin.
Qed.
End runs.

(** ** What a move keeps of the leases *)

(** A lease after any number of uses, renewals, links and revocations. *)
Definition kept (l l' : Lease) : Prop :=
  lease_id l' = lease_id l ∧ lease_agent l' = lease_agent l ∧
  lease_secret_name l' = lease_secret_name l ∧
  lease_allowed_domains l' = lease_allowed_domains l ∧
  lease_max_uses l' = lease_max_uses l ∧
  (lease_revoked l' = false → lease_revoked l = false) ∧ (Lease_wf l → Lease_wf l').
#[global] Instance kept_preorder : PreOrder kept.
Proof.
  split; [by intros l|]. intros l1 l2 l3 (H1 & H2 & H3 & H4 & H5 & H6 & H7)
    (J1 & J2 & J3 & J4 & J5 & J6 & J7).
  do 5 (split; [congruence|]). auto.
Qed.

(** No lease is new. *)
Definition shrinks (m m' : gmap LeaseId Lease) : Prop :=
  ∀ k l', m' !! k = Some l' → ∃ l, m !! k = Some l ∧ kept l l'.
#[global] Instance shrinks_preorder : PreOrder shrinks.
Proof.
  split; [intros m k l Hl; by exists l|]. intros m1 m2 m3 H12 H23 k l3 H3.
  destruct (H23 k l3 H3) as (l2 & H2 & Hk2). destruct (H12 k l2 H2) as (l1 & H1 & Hk1).
  exists l1. split; [done|]. by etrans.
Qed.
Lemma shrinks_insert m k l l' : m !! k = Some l → kept l l' → shrinks m (<[k := l']> m).
Proof.
  intros Hk Hl k' l0. rewrite lookup_insert_Some. intros [[<- <-]|[_ Hk']]; [by exists l|].
  by exists l0.
Qed.
Lemma shrinks_None m m' k : shrinks m m' → m !! k = None → m' !! k = None.
Proof.
  intros Hs Hk. destruct (m' !! k) as [l'|] eqn:Hk'; [|done].
  destruct (Hs k l' Hk') as (l & Hl & _). congruence.
Qed.
Lemma shrinks_active a m m' : shrinks m m' → (active_count a m' ≤ active_count a m)%nat.
Proof.
  intros Hs. unfold active_count. rewrite <-!size_dom. apply subseteq_size.
  intros k. rewrite !elem_of_dom. intros [l' [Hk [Ha Hr]]%map_lookup_filter_Some].
  destruct (Hs k l' Hk) as (l & Hl & _ & Hag & _ & _ & _ & Hrv & _). exists l.
  apply map_lookup_filter_Some. split; [done|]. split; simpl in *; [congruence|auto].
Qed.

Section shrink.
Context `{!Env} (pol : PolicyEngine).

Lemma lstep_shrinks c c' : lstep pol 0 c c' → shrinks c.1 c'.1.
Proof.
  intros Hstep. destruct Hstep as
    [m w w' Hw|m w w' i l d t Hw Hi Hid Has Hlt|m w k l l' Hk Hrev Huse
    |m w k l t Hk Hrev Hren|m w k l Hk|m w k sid|m w k]; cbn [fst].
  - reflexivity.
  - lia.
  - eapply shrinks_insert; [done|]. pose proof (Lease_record_use_wf l l') as Hwf.
    unfold Lease_record_use in *. destruct (uses_exhausted l); simplify_eq.
    do 6 (split; [done|]). intros; by apply Hwf.
  - eapply shrinks_insert; [done|]. do 6 (split; [done|]).
    intros (Hu & _ & Hm). split; [done|]. split; [apply u32_add_range|done].
  - by eapply shrinks_insert.
  - destruct (m !! k) as [l|] eqn:Hk.
    + rewrite (alter_alt_Some _ _ _ _ Hk). by eapply shrinks_insert.
    + rewrite alter_id; [reflexivity|]. intros x Hx. congruence.
  - intros k' l' [_ Hk']%lookup_delete_Some. by exists l'.
Qed.
Lemma lsteps_shrinks c c' : lsteps pol 0 c c' → shrinks c.1 c'.1.
Proof. induction 1; [reflexivity|]. etrans; [by apply lstep_shrinks|done]. Qed.
End shrink.

(** ** The invariant of every run *)

Section invariant.
Context `{!Env, !EnvLaws} (pol : PolicyEngine) (cap : nat).
Implicit Types (m : gmap LeaseId Lease) (w : World) (log : list AuditEntry) (l : Lease).

Definition lease_ok w l : Prop :=
  drawn (lease_id l) w ∧ authorised pol l ∧ (PolicyEngine_wf LeaseTerms_wf pol → Lease_wf l).
Definition granted log l : Prop := Exists (grant_entry l) log.
(** The lease allows [host]. *)
Definition covers l (host : string) : Prop :=
  ∃ d, d ∈ lease_allowed_domains l ∧ DomainScope_matches d host = true.

(** The table: every lease in it is authorised, and its grant is in the log. *)
Definition table_ok m w log : Prop :=
  ∀ k l, m !! k = Some l → lease_id l = k ∧ lease_ok w l ∧ granted log l.
Definition phase_ok m w log (x : Phase) : Prop :=
  match x with
  | Drawn l => lease_ok w l ∧ m !! lease_id l = None
  | Logged l => (lease_ok w l ∧ m !! lease_id l = None) ∧ granted log l
  | Used k l host => lease_id l = k ∧ authorised pol l ∧ covers l host
  | Accessed k l host =>
      (lease_id l = k ∧ authorised pol l ∧ covers l host) ∧ Exists (access_entry k l host) log
  | _ => True
  end.
(** No two threads hold back a lease with the same identifier. *)
Definition distinct (xs : list Phase) : Prop :=
  ∀ i j x y l l', i ≠ j → xs !! i = Some x → xs !! j = Some y →
    phase_lease x = Some l → phase_lease y = Some l' → lease_id l ≠ lease_id l'.

Definition tables_inv (xs : list Phase) m w log : Prop :=
  table_ok m w log ∧ Forall (phase_ok m w log) xs ∧ distinct xs.

Lemma issued_ok w w' l d t i :
  issued_as pol l d t → (w_uuid w ≤ i < w_uuid w')%nat →
  lease_id l = LeaseId_from_uuid (now_v7 i) → lease_ok w' l.
Proof.
  intros (He & Hd & Hm & _ & Hu & Hrn & Hrv & _) Hi Hid.
  split; [exists i; split; [lia|done]|]. split; [by exists d, t|]. intros Hpol.
  pose proof (PolicyEngine_evaluate_terms _ _ _ _ _ _ Hpol He) as Ht.
  unfold Lease_wf, U32_MAX. rewrite Hu, Hrn. split; [lia|]. split; [lia|].
  intros m' Hm'. rewrite Hm in Hm'. apply Ht in Hm'. done.
Qed.
Lemma kept_ok w w' l l' : kept l l' → world_le w w' → lease_ok w l → lease_ok w' l'.
Proof.
  intros (Hid & Ha & Hn & Hd & Hm & _ & Hwf) Hw (Hdr & (d & t & He & Hds & Hmx) & Hw').
  split; [rewrite Hid; by eapply drawn_le|]. split; [|auto].
  exists d, t. by rewrite Ha, Hn, Hd, Hm.
Qed.
Lemma kept_granted log es l l' : kept l l' → granted log l → granted (log ++ es) l'.
Proof.
  intros (Hid & Ha & Hn & Hd & _) Hg. apply Exists_app. left. eapply Exists_impl; [exact Hg|].
  intros e [ttl He]. exists ttl. by rewrite Hid, Ha, Hn, Hd.
Qed.
Lemma drawn_fresh k w i : drawn k w → (w_uuid w ≤ i)%nat → k ≠ LeaseId_from_uuid (now_v7 i).
Proof. intros (j & Hj & ->) Hi [= Heq%now_v7_inj]. lia. Qed.

Lemma table_ok_shrinks m w log m' w' es :
  table_ok m w log → shrinks m m' → world_le w w' → table_ok m' w' (log ++ es).
Proof.
  intros Ht Hs Hw k l' Hk. destruct (Hs k l' Hk) as (l & Hl & Hkept).
  destruct (Ht k l Hl) as (Hid & Hok & Hg). split; [by rewrite (proj1 Hkept)|].
  split; [by eapply kept_ok|by eapply kept_granted].
Qed.
Lemma phase_ok_shrinks m w log m' w' es x :
  phase_ok m w log x → shrinks m m' → world_le w w' → phase_ok m' w' (log ++ es) x.
Proof.
  intros Hx Hs Hw. destruct x as [|a|l|l|k l h|k l h|k|]; simpl in *; try done.
  - destruct Hx as [Hok Hn]. split; [by eapply kept_ok|by eapply shrinks_None].
  - destruct Hx as [[Hok Hn] Hg]. split; [split|].
    + by eapply kept_ok.
    + by eapply shrinks_None.
    + by eapply kept_granted.
  - destruct Hx as [Hx He]. split; [done|]. apply Exists_app. by left.
Qed.

(** The phase a move leads to. *)
Lemma move_phase_ok x m w log es x' m' w' :
  move pol cap x m w es x' m' w' → table_ok m w log → phase_ok m w log x →
  phase_ok m' w' (log ++ es) x'.
Proof.
  intros Hm Ht Hx. pose proof (move_world _ _ _ _ _ _ _ _ _ Hm) as Hw.
  destruct Hm as [x x' m w es m' w' Hl Hx'|a m w Hc|m w w' i l d t _ Hi Hid Has
    |m w w' l e _ He|m w l|m w w' k l l' host _ Hk Hlive Hu|m w w' k l host e _ He
    |m w w' k l t _ Hk Hr Hn].
  - destruct Hx' as [->| ->]; [|done]. eapply phase_ok_shrinks; [done| |done].
    by apply lsteps_shrinks in Hl.
  - done.
  - split; [by eapply issued_ok|]. destruct (m !! lease_id l) as [l0|] eqn:Hl0; [|done].
    destruct (Ht _ _ Hl0) as (Hid0 & (Hdr & _) & _). exfalso.
    eapply drawn_fresh; [exact Hdr| |by rewrite Hid0]. lia.
  - destruct Hx as [Hok Hn]. split; [split; [by eapply kept_ok|done]|].
    apply Exists_app. right. by constructor.
  - done.
  - destruct (Ht k l Hk) as (Hid & (_ & (d & t & Hau) & _) & _).
    destruct Hlive as (_ & _ & _ & d' & Hd' & Hmatch).
    unfold Lease_record_use in Hu. destruct (uses_exhausted l); simplify_eq/=.
    split; [done|]. split; [by exists d, t|by exists d'].
  - split; [done|]. apply Exists_app. right. by constructor.
  - done.
Qed.

(** What the move of one thread does to the phases of the others. *)
Lemma move_others x m w log es x' m' w' y :
  move pol cap x m w es x' m' w' → phase_ok m w log y →
  (∀ l l', phase_lease x = Some l → phase_lease y = Some l' → lease_id l ≠ lease_id l') →
  phase_ok m' w' (log ++ es) y.
Proof.
  intros Hm Hy Hne. pose proof (move_world _ _ _ _ _ _ _ _ _ Hm) as Hw.
  apply move_cases in Hm as [Hl|(l & -> & -> & -> & -> & ->)].
  { eapply phase_ok_shrinks; [done| |done]. by apply lsteps_shrinks in Hl. }
  rewrite app_nil_r. specialize (Hne l).
  destruct y as [|a|l'|l'|k l' h|k l' h|k|]; simpl in *; try done.
  - rewrite lookup_insert_ne; [done|]. by apply Hne.
  - rewrite lookup_insert_ne; [done|]. by apply Hne.
Qed.

Lemma move_table_ok x m w log es x' m' w' :
  move pol cap x m w es x' m' w' → table_ok m w log → phase_ok m w log x →
  table_ok m' w' (log ++ es).
Proof.
  intros Hm Ht Hx. pose proof (move_world _ _ _ _ _ _ _ _ _ Hm) as Hw.
  apply move_cases in Hm as [Hl|(l & -> & -> & -> & -> & ->)].
  { eapply table_ok_shrinks; [done| |done]. by apply lsteps_shrinks in Hl. }
  rewrite app_nil_r. destruct Hx as [[Hok Hn] Hg]. intros k l0. rewrite lookup_insert_Some.
  intros [[<- <-]|[_ Hk]]; [done|by apply Ht].
Qed.

(** The lease a thread holds back after a move is the one it held back, or is new. *)
Lemma move_lease x m w es x' m' w' l :
  move pol cap x m w es x' m' w' → phase_lease x' = Some l →
  phase_lease x = Some l ∨ ∀ k, drawn k w → k ≠ lease_id l.
Proof.
  intros Hm Hl. destruct Hm as [x x' m w es m' w' _ Hx'|a m w Hc|m w w' i l0 d t _ Hi Hid Has
    |m w w' l0 e _ He|m w l0|m w w' k l0 l' host _ Hk Hlive Hu|m w w' k l0 host e _ He
    |m w w' k l0 t _ Hk Hr Hn]; simplify_eq/=; auto.
  - destruct Hx' as [->| ->]; [by left|done].
  - right. intros k Hk. rewrite Hid. eapply drawn_fresh; [done|lia].
Qed.

Lemma tables_inv_move xs i x m w log es x' m' w' :
  tables_inv xs m w log → xs !! i = Some x → move pol cap x m w es x' m' w' →
  tables_inv (<[i := x']> xs) m' w' (log ++ es).
Proof.
  intros (Ht & Hxs & Hd) Hi Hm. rewrite Forall_lookup in Hxs.
  assert (Hx := Hxs i x Hi). split; [by eapply move_table_ok|]. split.
  - apply Forall_lookup. intros j y Hj.
    apply list_lookup_insert_Some in Hj as [(<- & <- & _)|(Hne & Hj)];
      [by eapply move_phase_ok|].
    eapply move_others; [done|by eapply Hxs|]. intros l l' Hl Hl'. by eapply (Hd i j).
  - assert (Hnew : ∀ j y l l', i ≠ j → xs !! j = Some y → phase_lease x' = Some l →
      phase_lease y = Some l' → lease_id l ≠ lease_id l').
    { intros j y l l' Hne Hj Hl Hl'. destruct (move_lease _ _ _ _ _ _ _ _ Hm Hl) as [Hlx|Hfr];
        [by eapply (Hd i j)|]. intros Heq. apply (Hfr (lease_id l')); [|done].
      assert (Hy := Hxs j y Hj). destruct y; simplify_eq/=; [by destruct Hy as [[? _] _]|].
      by destruct Hy as [[[? _] _] _]. }
    intros j1 j2 y1 y2 l1 l2 Hne H1 H2 Hl1 Hl2.
    apply list_lookup_insert_Some in H1 as [(<- & <- & _)|(Hn1 & H1)];
      apply list_lookup_insert_Some in H2 as [(<- & <- & _)|(Hn2 & H2)].
    + done.
    + by eapply (Hnew j2).
    + intros Heq. by eapply (Hnew j1 y1 l2 l1).
    + by eapply (Hd j1 j2).
Qed.

Lemma tables_inv_time xs m w w' log :
  tables_inv xs m w log → world_le w w' → tables_inv xs m w' log.
Proof.
  intros (Ht & Hxs & Hd) Hw. rewrite <-(app_nil_r log). split; [by eapply table_ok_shrinks|].
  split; [|done]. eapply Forall_impl; [exact Hxs|]. intros x Hx. by eapply phase_ok_shrinks.
Qed.
Lemma tables_inv_join xs m w log : tables_inv xs m w log → tables_inv (xs ++ [Idle]) m w log.
Proof.
  intros (Ht & Hxs & Hd). split; [done|]. split; [apply Forall_app; by repeat constructor|].
  intros i j x y l l' Hne Hi Hj Hx Hy.
  apply lookup_snoc_Some in Hi as [[_ Hi]|[_ <-]]; [|done].
  apply lookup_snoc_Some in Hj as [[_ Hj]|[_ <-]]; [|done]. by eapply (Hd i j).
Qed.
Lemma tables_inv_empty w log : tables_inv [] ∅ w log.
Proof. split; [by intros k l ?%lookup_empty_Some|]. split; [done|]. by intros i j x y l l' _ Hi. Qed.
End invariant.

(** ** A revoked lease, a use budget, the cap *)

Section facts.
Context `{!Env, !EnvLaws} (pol : PolicyEngine) (cap : nat).
Implicit Types (m : gmap LeaseId Lease) (w : World) (l : Lease) (xs : list Phase) (k : LeaseId).

(** [k] is drawn, and no thread holds back a lease with this identifier. *)
Definition no_pending k xs w : Prop :=
  drawn k w ∧ ∀ i x l, xs !! i = Some x → phase_lease x = Some l → lease_id l ≠ k.

Lemma no_pending_move k xs i x m w es x' m' w' :
  no_pending k xs w → xs !! i = Some x → move pol cap x m w es x' m' w' →
  no_pending k (<[i := x']> xs) w'.
Proof.
  intros [Hdr Hp] Hi Hm. pose proof (move_world _ _ _ _ _ _ _ _ _ Hm) as Hw.
  split; [by eapply drawn_le|]. intros j y l Hj Hl.
  apply list_lookup_insert_Some in Hj as [(<- & <- & _)|(_ & Hj)]; [|by eapply Hp].
  destruct (move_lease _ _ _ _ _ _ _ _ _ _ Hm Hl) as [Hlx|Hfr]; [by eapply Hp|].
  intros Heq. by apply (Hfr k).
Qed.
Lemma no_pending_time k xs w w' : no_pending k xs w → world_le w w' → no_pending k xs w'.
Proof. intros [Hdr Hp] Hw. split; [by eapply drawn_le|done]. Qed.
Lemma no_pending_join k xs w : no_pending k xs w → no_pending k (xs ++ [Idle]) w.
Proof.
  intros [Hdr Hp]. split; [done|]. intros i x l Hi Hl.
  apply lookup_snoc_Some in Hi as [[_ Hi]|[_ <-]]; [by eapply Hp|done].
Qed.
(** Leases in the table are held back by nobody. *)
Lemma tables_inv_no_pending xs m w log k l :
  tables_inv pol xs m w log → m !! k = Some l → no_pending k xs w.
Proof.
  intros (Ht & Hxs & _) Hk. destruct (Ht k l Hk) as (<- & (Hdr & _) & _). split; [done|].
  intros i x l' Hi Hl' Heq. rewrite Forall_lookup in Hxs. specialize (Hxs i x Hi).
  destruct x; simplify_eq/=; [destruct Hxs as [_ Hn]|destruct Hxs as [[_ Hn] _]]; congruence.
Qed.

(** [k] is revoked or gone, and no thread from [n] on has got anything through it. *)
Definition gone k (n : nat) xs m w : Prop :=
  no_pending k xs w ∧ dead k (m, w) ∧
  ∀ i x, (n ≤ i)%nat → xs !! i = Some x → phase_used x ≠ Some k ∧ x ≠ Renewed k.

Lemma move_dead k x m w es x' m' w' :
  move pol cap x m w es x' m' w' → dead k (m, w) →
  (∀ l, phase_lease x = Some l → lease_id l ≠ k) → dead k (m', w').
Proof.
  intros [Hl|(l & -> & -> & -> & -> & ->)]%move_cases Hd Hp; [by eapply lsteps_dead|].
  apply dead_insert; [done|]. intros Heq. by destruct (Hp l).
Qed.
Lemma gone_move k n xs i x m w es x' m' w' :
  gone k n xs m w → xs !! i = Some x → move pol cap x m w es x' m' w' →
  gone k n (<[i := x']> xs) m' w'.
Proof.
  intros (Hp & Hd & Hc) Hi Hm. split; [by eapply no_pending_move|]. split.
  { eapply move_dead; [done..|]. intros l Hl. destruct Hp as [_ Hp]. by eapply Hp. }
  intros j y Hn Hj.
  apply list_lookup_insert_Some in Hj as [(<- & <- & _)|(_ & Hj)]; [|by eapply Hc].
  specialize (Hc i x Hn Hi). destruct Hd as [_ Hd]. cbn [fst] in Hd.
  destruct Hm as [x x' m w es m' w' Hl [->| ->]| | | | |m w w' k' l l' host _ Hk [Hr _] Hu
    | |m w w' k' l t _ Hk Hr _]; try done.
  - split; [|done]. intros [= ->]. rewrite (Hd l Hk) in Hr. done.
  - by destruct Hc.
  - split; [done|]. intros [= ->]. rewrite (Hd l Hk) in Hr. done.
Qed.

(** At most [n] uses of [k] are left, counting those of the threads from [j] on. *)
Definition uses_lease k (x : Phase) : Prop := phase_used x = Some k.
#[global] Instance uses_lease_dec k x : Decision (uses_lease k x).
Proof. unfold uses_lease. apply _. Defined.
Definition budget k (j : nat) (n : Z) xs m w : Prop :=
  no_pending k xs w ∧ ∃ left, 0 ≤ left ∧ at_most k left (m, w) ∧
    left + Z.of_nat (count (uses_lease k) (drop j xs)) ≤ n.

Lemma count_drop_insert k j xs i x x' :
  xs !! i = Some x →
  (count (uses_lease k) (drop j (<[i := x']> xs)) ≤
   count (uses_lease k) (drop j xs) +
   if decide (uses_lease k x' ∧ ¬ uses_lease k x) then 1 else 0)%nat.
Proof.
  intros Hi. destruct (decide (i < j)%nat) as [Hlt|Hge].
  { rewrite drop_insert_lt by done. lia. }
  rewrite drop_insert_ge by lia.
  assert (Hi' : drop j xs !! (i - j)%nat = Some x).
  { rewrite lookup_drop. rewrite <-Hi. f_equal. lia. }
  pose proof (count_insert (uses_lease k) _ _ _ x' Hi'). repeat case_decide; try lia; tauto.
Qed.

Lemma move_at_most k n x m w es x' m' w' :
  move pol cap x m w es x' m' w' → at_most k n (m, w) →
  (∀ l, phase_lease x = Some l → lease_id l ≠ k) →
  at_most k n (m', w') ∧
  (uses_lease k x' → uses_lease k x ∨ 1 ≤ n ∧ at_most k (n - 1) (m', w')).
Proof.
  intros Hm Ha Hp. split.
  { apply move_cases in Hm as [Hl|(l & -> & -> & -> & -> & ->)];
      [by eapply lsteps_at_most|]. apply at_most_insert; [done|].
    intros Heq. by destruct (Hp l). }
  unfold uses_lease. intros Hu. destruct Hm as [x x' m w es m' w' Hl [->| ->]| | | |
    |m w w' k' l l' host Hw Hk Hlive Huse|m w w' k' l host e _ He|]; simplify_eq/=; auto.
  right. destruct Ha as [Hdr Ha]. destruct (Ha l Hk) as (mx & H1 & H2 & H3 & H4).
  destruct (record_use_budget _ _ _ _ Huse H1 H2 H3 H4) as (Hn & ? & ? & ?).
  split; [done|]. split; [by eapply drawn_le|]. intros l0. cbn [fst].
  rewrite lookup_insert_eq. intros [= <-]. by exists mx.
Qed.

Lemma budget_move k j n xs i x m w es x' m' w' :
  budget k j n xs m w → xs !! i = Some x → move pol cap x m w es x' m' w' →
  budget k j n (<[i := x']> xs) m' w'.
Proof.
  intros (Hp & left & Hl0 & Ha & Hle) Hi Hm. split; [by eapply no_pending_move|].
  destruct (move_at_most k left _ _ _ _ _ _ _ Hm Ha) as [Ha' Hu].
  { intros l Hl. destruct Hp as [_ Hp]. by eapply Hp. }
  pose proof (count_drop_insert k j xs i x x' Hi) as Hc. case_decide as Hux.
  - destruct Hux as [Hx' Hx]. destruct (Hu Hx') as [?|[H1 Ha1]]; [done|].
    exists (left - 1). split; [lia|]. split; [done|]. lia.
  - exists left. split; [done|]. split; [done|]. lia.
Qed.

(** The active leases of [a] with those its requests may still add. *)
Definition requests a (x : Phase) : Prop := phase_agent x = Some a.
#[global] Instance requests_dec a x : Decision (requests a x).
Proof. unfold requests. apply _. Defined.
Definition capped (N : nat) a xs m : Prop :=
  (active_count a m + count (requests a) xs ≤ (cap + N) - 1)%nat.

Lemma capped_move N a xs i x m w es x' m' w' :
  capped N a xs m → xs !! i = Some x → move pol cap x m w es x' m' w' →
  (count (requests a) (<[i := x']> xs) ≤ N)%nat → capped N a (<[i := x']> xs) m'.
Proof.
  unfold capped. intros Hcap Hi Hm HN.
  pose proof (count_insert (requests a) xs i x x' Hi) as Hc. unfold requests in *.
  destruct Hm as [x x' m w es m' w' Hl Hx'|b m w Hlt|m w w' i' l d t _ _ _ _
    |m w w' l e _ _|m w l|m w w' k l l' host _ Hk Hlive Hu|m w w' k l host e _ _
    |m w w' k l t _ Hk Hr Hn]; cbn [phase_agent] in *.
  - apply lsteps_shrinks in Hl. pose proof (shrinks_active a _ _ Hl). cbn [fst] in *.
    destruct Hx' as [->| ->]; cbn [phase_agent] in *; repeat case_decide; (lia || done).
  - destruct (decide (b = a)) as [->|Hne]; [lia|].
    rewrite (decide_False (P := Some b = Some a)) in Hc by congruence.
    rewrite (decide_False (P := None = Some a)) in Hc by done. lia.
  - repeat case_decide; (lia || done).
  - repeat case_decide; (lia || done).
  - pose proof (active_count_insert_le a (lease_id l) l m) as Hins.
    rewrite (decide_False (P := None = Some a)) in Hc by done.
    destruct (decide (lease_agent l = a)) as [<-|Hne].
    + rewrite (decide_True (P := Some _ = Some _)) in Hc by done.
      destruct (decide (active_for _ _)) in Hins; lia.
    + rewrite (decide_False (P := Some _ = Some _)) in Hc by congruence.
      rewrite (decide_False (P := active_for _ _)) in Hins by (by intros [? _]). lia.
  - unfold Lease_record_use in Hu. destruct (uses_exhausted l); simplify_eq.
    pose proof (active_count_replace_le a k l
      (set_use_count (u32_add (lease_use_count l) 1) l) m Hk) as Hr. unfold active_for in Hr.
    simpl in Hr. repeat case_decide; (done || specialize (Hr ltac:(done)); lia).
  - repeat case_decide; (lia || done).
  - pose proof (active_count_replace_le a k l
      (set_renewal t (u32_add (lease_renewal_count l) 1) l) m Hk) as Hr'. unfold active_for in Hr'.
    simpl in Hr'. repeat case_decide; (done || specialize (Hr' ltac:(done)); lia).
Qed.
End facts.

(** ** Runs from a new vault *)

Section conclusions.
Context {K S A : Type}.
Context `{!Env, !Chrono, !UuidText, !HashIter, !Aead, !EnvLaws}.
Context `{!KeySource K, !SecretStore S, !AuditLog A}.
Context `{!KeySourceLaws K, !SecretStoreLaws S, !AuditLogLaws A}.
Abbreviation VPool := (Pool (Vault K S A) Error VaultLock unit).
Implicit Types (v : Vault K S A) (w : World) (c : VPool) (ops : list VaultOp).
Implicit Types (ys : list (VaultOp * Phase)).

Lemma protocol_step_move pol cap ys v w ys' v' w' :
  protocol_step (vault_move pol cap) (ys, v, w) (ys', v', w') →
  ∃ i x x' es, ys.*2 !! i = Some x ∧ extends v v' es ∧
    move pol cap x (vault_leases v) w es x' (vault_leases v') w' ∧ ys'.*2 = <[i := x']> ys.*2.
Proof.
  intros (i & y & y' & Hi & (_ & es & Hx & Hm) & Heq). cbn [fst snd] in *. subst ys'.
  exists i, y.2, y'.2, es. rewrite list_lookup_fmap, Hi, list_fmap_insert. done.
Qed.

Lemma count_requests_busy a ys : (count (requests a) ys.*2 ≤ count busy ys)%nat.
Proof.
  unfold count. induction ys as [|y ys IH]; [done|]. rewrite fmap_cons, !filter_cons.
  unfold requests, busy in *. repeat case_decide; simpl; try lia. naive_solver.
Qed.

Definition conc_inv pol cap (N : nat) ys v w : Prop :=
  tables_inv pol ys.*2 (vault_leases v) w (audit_view (vault_audit v)) ∧
  ∀ a, capped cap N a ys.*2 (vault_leases v).

Section run.
Context (pol : PolicyEngine) (cap N : nat).

Lemma conc_inv_move ys v w ys' v' w' :
  protocol_step (vault_move pol cap) (ys, v, w) (ys', v', w') →
  (count busy ys' ≤ N)%nat → conc_inv pol cap N ys v w → conc_inv pol cap N ys' v' w'.
Proof.
  intros Hp HN [Ht Hc]. apply protocol_step_move in Hp as (i & x & x' & es & Hi & Hx & Hm & Heq).
  unfold conc_inv. destruct Hx as (_ & _ & ->). split; rewrite ?Heq.
  - by eapply tables_inv_move.
  - intros a. pose proof (count_requests_busy a ys'). rewrite Heq in *.
    eapply capped_move; [apply Hc|done..|lia].
Qed.
Lemma conc_inv_time ys v w w' : world_le w w' → conc_inv pol cap N ys v w → conc_inv pol cap N ys v w'.
Proof. intros Hw [Ht Hc]. split; [by eapply tables_inv_time|done]. Qed.
Lemma conc_inv_join ys v w op : conc_inv pol cap N ys v w → conc_inv pol cap N (ys ++ [(op, Idle)]) v w.
Proof.
  intros [Ht Hc]. unfold conc_inv. rewrite fmap_app. split; [by apply tables_inv_join|].
  intros a. unfold capped in *. rewrite count_app. specialize (Hc a).
  unfold count at 2. simpl. lia.
Qed.
End run.

(** Every run keeps the invariant, and an invariant [J] of the moves on top of it. *)
Lemma conc_keeps pol cap N (J : list (VaultOp * Phase) → Vault K S A → World → Prop) c ops c' ys :
  (∀ ys v w i x es x' ys' v' w',
     ys.*2 !! i = Some x → ys'.*2 = <[i := x']> ys.*2 →
     move pol cap x (vault_leases v) w es x' (vault_leases v') w' → J ys v w → J ys' v' w') →
  (∀ ys v w w', world_le w w' → J ys v w → J ys v w') →
  (∀ ys v w op, J ys v w → J (ys ++ [(op, Idle)]) v w) →
  conc N c ops c' → pool_follows (configured pol cap) (vault_move pol cap) post ys c →
  (running c ≤ N)%nat → conc_inv pol cap N ys (pool_state c) (pool_world c) →
  J ys (pool_state c) (pool_world c) →
  ∃ ys', pool_follows (configured pol cap) (vault_move pol cap) post ys' c' ∧
    ys'.*1 = ys.*1 ++ ops ∧ (running c' ≤ N)%nat ∧
    conc_inv pol cap N ys' (pool_state c') (pool_world c') ∧ J ys' (pool_state c') (pool_world c').
Proof.
  intros Hmove Htime Hjoin Hrun Hys HN Hinv HJ.
  destruct (conc_simulated pol cap N (λ ys v w, conc_inv pol cap N ys v w ∧ J ys v w) c ops c' ys)
    as (ys' & Hf & HN' & Hops & Hinv' & HJ'); [..|by exists ys'].
  - intros ys0 v w ys1 v' w' Hp _ Hb [Hi Hj]. split; [by eapply conc_inv_move|].
    apply protocol_step_move in Hp as (i & x & x' & es & Hx & _ & Hm & Heq). by eapply Hmove.
  - intros ys0 v w w' Hw [Hi Hj]. split; [by eapply conc_inv_time|by eapply Htime].
  - intros ys0 v w op [Hi Hj]. split; [by apply conc_inv_join|by apply Hjoin].
  - done.
  - done.
  - done.
  - done.
Qed.

Definition conc_state N v0 ops c ys : Prop :=
  pool_follows (configured (vault_policy v0) (vault_max_leases_per_agent v0))
    (vault_move (vault_policy v0) (vault_max_leases_per_agent v0)) post ys c ∧
  ys.*1 = ops ∧ (running c ≤ N)%nat ∧
  conc_inv (vault_policy v0) (vault_max_leases_per_agent v0) N ys (pool_state c) (pool_world c).

Lemma conc_run_state N v0 w0 ops c : conc_run N v0 w0 ops c → ∃ ys, conc_state N v0 ops c ys.
Proof.
  intros [(k & s & a & pol & alg & max & ->) Hrun].
  destruct (conc_keeps pol max N (λ _ _ _, True) _ _ _ [] ltac:(done) ltac:(done) ltac:(done) Hrun)
    as (ys & Hf & Hops & HN & Hinv & _); [done|unfold running; simpl; lia| |done|by exists ys].
  split; [apply tables_inv_empty|]. intros ag. unfold capped. cbn [vault_leases pool_state].
  simpl. rewrite active_count_empty. unfold count. simpl. lia.
Qed.

(** The result of an operation that has returned fits its phase. *)
Lemma state_post N v0 ops c ys i op r :
  conc_state N v0 ops c ys → ops !! i = Some op → result i c = Some r →
  ∃ x, ys !! i = Some (op, x) ∧ post (op, x) r.
Proof.
  intros ([_ Hall] & <- & _ & _) Hop Hres. unfold result in Hres.
  apply bind_Some in Hres as (t & Ht & Hr). apply list_lookup_fmap_Some in Hop as ([op' x] & -> & Hy).
  pose proof (Forall2_lookup_lr _ _ _ _ _ _ Hall Hy Ht) as Hf. cbn beta in Hf.
  exists x. split; [done|]. by destruct (prog t); simplify_eq.
Qed.

Lemma state_threads N v0 ops c ys : conc_state N v0 ops c ys → length ys = length ops.
Proof. intros (_ & <- & _). by rewrite length_fmap. Qed.

(** From [c] on, with an invariant of the moves. *)
Lemma conc_from N v0 ops0 c ys ops c' (J : list Phase → gmap LeaseId Lease → World → Prop) :
  (∀ xs i x m w es x' m' w', xs !! i = Some x →
     move (vault_policy v0) (vault_max_leases_per_agent v0) x m w es x' m' w' →
     J xs m w → J (<[i := x']> xs) m' w') →
  (∀ xs m w w', world_le w w' → J xs m w → J xs m w') →
  (∀ xs m w, J xs m w → J (xs ++ [Idle]) m w) →
  conc_state N v0 ops0 c ys → conc N c ops c' →
  J ys.*2 (vault_leases (pool_state c)) (pool_world c) →
  ∃ ys', conc_state N v0 (ops0 ++ ops) c' ys' ∧
    J ys'.*2 (vault_leases (pool_state c')) (pool_world c').
Proof.
  intros Hmove Htime Hjoin (Hf & Hops & HN & Hinv) Hrun HJ.
  destruct (conc_keeps (vault_policy v0) (vault_max_leases_per_agent v0) N
    (λ ys v w, J ys.*2 (vault_leases v) w) c ops c' ys)
    as (ys' & Hf' & Hops' & HN' & Hinv' & HJ'); [..|exists ys'; split; [|done]]; try done.
  - intros ys0 v w i x es x' ys1 v' w' Hi Heq Hm Hj. rewrite Heq. by eapply Hmove.
  - intros ys0 v w w'. by apply Htime.
  - intros ys0 v w op Hj. rewrite fmap_app. by apply Hjoin.
  - split; [done|]. by rewrite Hops', Hops.
Qed.

(** Operations that read or extend a lease. *)
Definition through (k : LeaseId) (op : VaultOp) : bool :=
  match op with
  | OpAccessSecret k' _ _ | OpRenewLease k' _ _ => bool_decide (k' = k)
  | _ => false
  end.

Lemma gone_join k n xs m w : gone k n xs m w → gone k n (xs ++ [Idle]) m w.
Proof.
  intros (Hp & Hd & Hc). split; [by apply no_pending_join|]. split; [done|].
  intros i x Hn Hi. apply lookup_snoc_Some in Hi as [[_ Hi]|[_ <-]]; [by eapply Hc|done].
Qed.
Lemma gone_time k n xs m w w' : world_le w w' → gone k n xs m w → gone k n xs m w'.
Proof.
  intros Hw (Hp & [Hdr Hd] & Hc). split; [by eapply no_pending_time|].
  split; [split; [by eapply drawn_le|done]|done].
Qed.

Lemma revoked_final N v0 w0 ops0 c k l ops c' :
  conc_run N v0 w0 ops0 c → vault_leases (pool_state c) !! k = Some l →
  lease_revoked l = true → conc N c ops c' →
  dead k (vault_leases (pool_state c'), pool_world c') ∧
  ∀ i op r, ops !! i = Some op → through k op = true →
    result (length ops0 + i) c' = Some r → is_ok r = false.
Proof.
  intros (ys & Hst)%conc_run_state Hk Hrev Hrun.
  assert (Hnp : no_pending k ys.*2 (pool_world c)).
  { destruct Hst as (_ & _ & _ & Ht & _). by eapply tables_inv_no_pending. }
  destruct (conc_from N v0 ops0 c ys ops c' (gone k (length ops0)))
    as (ys' & Hst' & _ & Hd & Hc); [..|split; [done|]].
  - intros. by eapply gone_move.
  - intros. by eapply gone_time.
  - intros. by apply gone_join.
  - done.
  - done.
  - split; [done|]. split; [split; [by destruct Hnp|cbn [fst]; congruence]|].
    intros i x Hi Hx. apply lookup_lt_Some in Hx.
    rewrite length_fmap, (state_threads _ _ _ _ _ Hst) in Hx. lia.
  - intros i op r Hop Hth Hres.
    destruct (state_post _ _ _ _ _ (length ops0 + i) op r Hst') as (x & Hx & _ & Hpost); [|done|].
    { rewrite lookup_app_r by lia. by replace (length ops0 + i - length ops0)%nat with i by lia. }
    destruct (is_ok r); [|done]. exfalso. specialize (Hpost eq_refl).
    destruct (Hc (length ops0 + i)%nat x) as [Hu Hr]; [lia|by rewrite list_lookup_fmap, Hx|].
    destruct op; try done; simpl in Hth; apply bool_decide_eq_true in Hth as ->;
      simpl in Hpost; [destruct Hpost as [l0 ->]|subst]; done.
Qed.

(** How many of the operations [ops], the first of them thread [n], are of the kind [P] and
    have succeeded. *)
Definition succeeded (n : nat) c : bool :=
  match result n c with Some r => is_ok r | None => false end.
Fixpoint successes_of (P : VaultOp → bool) (n : nat) ops c : nat :=
  match ops with
  | [] => O
  | op :: ops' =>
    ((if P op && succeeded n c then 1 else 0) + successes_of P (Datatypes.S n) ops' c)%nat
  end.
(** The accesses through [k]. *)
Definition successes (k : LeaseId) (n : nat) ops c : nat := successes_of (is_access k) n ops c.

Lemma successes_of_count N v0 c ys P (Q : Phase → Prop) `{!∀ x, Decision (Q x)} pre ops :
  (∀ op x r, P op = true → post (op, x) r → is_ok r = true → Q x) →
  conc_state N v0 (pre ++ ops) c ys →
  (successes_of P (length pre) ops c ≤ count Q (drop (length pre) ys.*2))%nat.
Proof.
  intros HPQ. revert pre. induction ops as [|op ops IH]; intros pre Hst; cbn [successes_of]; [lia|].
  specialize (IH (pre ++ [op])). rewrite <-app_assoc in IH. specialize (IH Hst).
  rewrite length_app, Nat.add_1_r in IH.
  assert (Hy : is_Some (ys.*2 !! length pre)).
  { apply lookup_lt_is_Some. rewrite length_fmap, (state_threads _ _ _ _ _ Hst), length_app.
    simpl. lia. }
  destruct Hy as [x Hx]. rewrite (drop_S _ _ _ Hx). unfold count in *. rewrite filter_cons.
  destruct (P op && succeeded (length pre) c) eqn:Hok; [|case_decide; simpl; lia].
  apply andb_true_iff in Hok as [Hop Hres]. unfold succeeded in Hres.
  destruct (result (length pre) c) as [r|] eqn:Hr; [|done].
  destruct (state_post _ _ _ _ _ (length pre) op r Hst) as (x' & Hx' & Hpost); [|done|].
  { rewrite lookup_app_r by lia. by rewrite Nat.sub_diag. }
  rewrite list_lookup_fmap, Hx' in Hx. simplify_eq/=.
  rewrite decide_True by (by eapply HPQ). simpl. lia.
Qed.

Lemma successes_count N v0 c ys k pre ops :
  conc_state N v0 (pre ++ ops) c ys →
  (successes k (length pre) ops c ≤ count (uses_lease k) (drop (length pre) ys.*2))%nat.
Proof.
  apply successes_of_count. intros op x r Hop [_ Hpost] Hok. specialize (Hpost Hok).
  destruct op; try done. simpl in Hop. apply bool_decide_eq_true in Hop as ->.
  destruct Hpost as [l Hl]. simpl in Hl. by subst.
Qed.

Lemma budget_join k j n xs m w : budget k j n xs m w → budget k j n (xs ++ [Idle]) m w.
Proof.
  intros (Hp & left & Hl0 & Ha & Hle). split; [by apply no_pending_join|]. exists left.
  split; [done|]. split; [done|]. rewrite drop_app, count_app.
  assert (count (uses_lease k) (drop (j - length xs) [Idle]) = 0)%nat as ->; [|lia].
  unfold count. destruct (j - length xs)%nat as [|[|?]]; done.
Qed.
Lemma budget_time k j n xs m w w' : world_le w w' → budget k j n xs m w → budget k j n xs m w'.
Proof.
  intros Hw (Hp & left & Hl0 & [Hdr Ha] & Hle). split; [by eapply no_pending_time|].
  exists left. split; [done|]. split; [split; [by eapply drawn_le|done]|done].
Qed.

Lemma budget_spent N v0 w0 ops0 c k l mx ops c' :
  conc_run N v0 w0 ops0 c → PolicyEngine_wf LeaseTerms_wf (vault_policy v0) →
  vault_leases (pool_state c) !! k = Some l → lease_max_uses l = Some mx →
  conc N c ops c' → Z.of_nat (successes k (length ops0) ops c') ≤ mx - lease_use_count l.
Proof.
  intros (ys & Hst)%conc_run_state Hpol Hk Hmx Hrun.
  pose proof Hst as (_ & _ & _ & Ht & _).
  assert (Hnp : no_pending k ys.*2 (pool_world c)) by (by eapply tables_inv_no_pending).
  destruct Ht as (Ht & _). destruct (Ht k l Hk) as (_ & (Hdr & _ & Hwf) & _).
  destruct (Hwf Hpol) as (Hu & _ & Hm). destruct (Hm mx Hmx).
  destruct (conc_from N v0 ops0 c ys ops c' (budget k (length ops0) (mx - lease_use_count l)))
    as (ys' & Hst' & _ & left & Hl0 & _ & Hle).
  - intros. by eapply budget_move.
  - intros. by eapply budget_time.
  - intros. by apply budget_join.
  - done.
  - done.
  - split; [done|]. exists (mx - lease_use_count l). split; [lia|]. split.
    { split; [by destruct Hnp|]. intros l'. cbn [fst]. rewrite Hk. intros [= <-].
      exists mx. split; [done|]. lia. }
    rewrite drop_ge by (rewrite length_fmap, (state_threads _ _ _ _ _ Hst); lia).
    unfold count. simpl. lia.
  - pose proof (successes_count _ _ _ _ k _ _ Hst'). lia.
Qed.

(** *** Looking back *)

(** A step of a run, as a move of one of its threads. *)
Lemma state_step N v0 ops c ys c' :
  conc_state N v0 ops c ys → pool_step c c' →
  ∃ ys', conc_state N v0 ops c' ys' ∧
    ((ys' = ys ∧ pool_state c' = pool_state c ∧ pool_world c' = pool_world c) ∨
     ∃ i x x' es, ys.*2 !! i = Some x ∧ extends (pool_state c) (pool_state c') es ∧
       move (vault_policy v0) (vault_max_leases_per_agent v0) x
         (vault_leases (pool_state c)) (pool_world c) es x'
         (vault_leases (pool_state c')) (pool_world c') ∧
       ys'.*2 = <[i := x']> ys.*2).
Proof.
  intros (Hf & Hops & HN & Hinv) Hs.
  destruct (pool_step_follows _ _ _ _ _ _ Hs Hf) as (ys' & Hf' & Hcase).
  pose proof (pool_step_running _ _ Hs). exists ys'.
  destruct Hcase as [[= -> Hst Hwd]|Hp].
  - split; [|by left]. split; [done|]. split; [done|]. split; [lia|]. by rewrite <-Hst, <-Hwd in Hinv.
  - assert (Hinv' : conc_inv (vault_policy v0) (vault_max_leases_per_agent v0) N ys'
      (pool_state c') (pool_world c')).
    { eapply conc_inv_move; [exact Hp| |done]. pose proof (busy_running _ _ _ _ Hf'). lia. }
    split; [|right; by apply protocol_step_move in Hp].
    split; [done|]. split; [|split; [lia|done]].
    destruct Hp as (i & y & y' & Hi & [Hy _] & Heq). cbn [fst snd] in *. subst ys'.
    rewrite list_fmap_insert, Hy, list_insert_id; [done|]. by rewrite list_lookup_fmap, Hi.
Qed.
Lemma state_time N v0 ops c ys w :
  conc_state N v0 ops c ys → world_le (pool_world c) w →
  conc_state N v0 ops (mkPool (pool_state c) w (pool_threads c)) ys.
Proof.
  intros (Hf & Hops & HN & Hinv) Hw. split; [exact Hf|]. split; [done|]. split; [done|].
  by eapply conc_inv_time.
Qed.
Lemma state_arrive N v0 ops c ys op :
  conc_state N v0 ops c ys → (running c < N)%nat →
  conc_state N v0 (ops ++ [op]) (arrive op c) (ys ++ [(op, Idle)]).
Proof.
  intros (Hf & Hops & HN & Hinv) Hlt.
  split; [by apply pool_follows_join, op_prog_follows|]. split; [by rewrite fmap_app, Hops|].
  split; [|by apply conc_inv_join].
  unfold running, arrive in *. cbn [pool_threads]. rewrite filter_app, length_app.
  rewrite filter_cons. case_decide; simpl; lia.
Qed.

(** A moment of the run from [c] over [ops] to [c'], after [n] arrivals at least. *)
Definition moment N c ops c' (n : nat) c1 : Prop :=
  ∃ ops1 ops2, ops = ops1 ++ ops2 ∧ (n ≤ length ops1)%nat ∧
    conc N c ops1 c1 ∧ conc N c1 ops2 c'.

Lemma moment_later N c ops c' ops' c'' n c1 :
  moment N c ops c' n c1 → conc N c' ops' c'' → moment N c (ops ++ ops') c'' n c1.
Proof.
  intros (ops1 & ops2 & -> & Hn & Hc1 & Hc2) H'. exists ops1, (ops2 ++ ops').
  split; [by rewrite app_assoc|]. split; [done|]. split; [done|]. by eapply conc_trans.
Qed.

(** The lease behind a phase was live when the thread, the [j]-th since [c], took it from the
    table. *)
Definition lease_seen N c ops c' (j : nat) (x : Phase) : Prop :=
  match x with
  | Used k l host | Accessed k l host =>
    ∃ c1 l0, moment N c ops c' (Datatypes.S j) c1 ∧
      vault_leases (pool_state c1) !! k = Some l0 ∧
      lease_live_for l0 (clock (w_clock (pool_world c1))) host ∧ Lease_record_use l0 = Ok l
  | _ => True
  end.
(** The accesses of the threads from [n] on that are in the log, and those of the log. *)
Definition accessed_for k host (x : Phase) : Prop :=
  match x with Accessed k' _ host' => k' = k ∧ host' = host | _ => False end.
#[global] Instance accessed_for_dec k host x : Decision (accessed_for k host x).
Proof. unfold accessed_for. destruct x; apply _. Defined.
Definition access_of k host (e : AuditEntry) : Prop :=
  match entry_event e with
  | EvSecretAccessed k' _ d => k' = k ∧ d = DomainScope_new host
  | _ => False
  end.
#[global] Instance access_of_dec k host e : Decision (access_of k host e).
Proof. unfold access_of. destruct (entry_event e); apply _. Defined.

Lemma lease_seen_later N c ops c' ops' c'' j x :
  lease_seen N c ops c' j x → conc N c' ops' c'' → lease_seen N c (ops ++ ops') c'' j x.
Proof.
  destruct x; simpl; try done; intros (c1 & l0 & Hm & ?) H'; exists c1, l0;
    (split; [by eapply moment_later|done]).
Qed.

Definition looking_back N (n : nat) log0 c ops c' (xs : list Phase) : Prop :=
  (∀ j x, xs !! (n + j)%nat = Some x → lease_seen N c ops c' j x) ∧
  ∃ es, audit_view (vault_audit (pool_state c')) = log0 ++ es ∧
    (∀ j k l host, xs !! (n + j)%nat = Some (Accessed k l host) → Exists (access_entry k l host) es) ∧
    ∀ k host, (count (accessed_for k host) (drop n xs) ≤ count (access_of k host) es)%nat.

Lemma accessed_insert n k host xs i x x' :
  xs !! i = Some x →
  (count (accessed_for k host) (drop n (<[i := x']> xs)) ≤
   count (accessed_for k host) (drop n xs) +
   if decide (accessed_for k host x' ∧ ¬ accessed_for k host x) then 1 else 0)%nat.
Proof.
  intros Hi. destruct (decide (i < n)%nat) as [Hlt|Hge].
  { rewrite drop_insert_lt by done. lia. }
  rewrite drop_insert_ge by lia.
  assert (Hi' : drop n xs !! (i - n)%nat = Some x).
  { rewrite lookup_drop. rewrite <-Hi. f_equal. lia. }
  pose proof (count_insert (accessed_for k host) _ _ _ x' Hi'). repeat case_decide; try lia; tauto.
Qed.

Lemma access_entry_of k l host e : access_entry k l host e → access_of k host e.
Proof. intros [He _]. unfold access_of. by rewrite He. Qed.

(** The move of a thread, seen from the log: a new access in its phase is a new entry. *)
Lemma move_accessed pol cap x m w es x' m' w' k l host :
  move pol cap x m w es x' m' w' → x' = Accessed k l host →
  x = Accessed k l host ∨ x = Used k l host ∧ ∃ e, es = [e] ∧ access_entry k l host e.
Proof.
  intros Hm ->. inversion Hm as [? ? ? ? ? ? ? _ [Hx|Hx]| | | | | |? ? ? ? ? ? e _ He|];
    simplify_eq; eauto.
Qed.
(** A lease that a move takes from the table is live then. *)
Lemma move_seen pol cap N c ops c1 c2 j x es x' :
  move pol cap x (vault_leases (pool_state c1)) (pool_world c1) es x'
    (vault_leases (pool_state c2)) (pool_world c2) →
  conc N c ops c1 → (j < length ops)%nat → pool_step c1 c2 →
  lease_seen N c ops c2 j x → lease_seen N c ops c2 j x'.
Proof.
  intros Hm Hrun Hj Hs Hx.
  inversion Hm as [? ? ? ? ? ? ? _ [->| ->]| | | | |? ? ? k l l' host Hw Hk Hlive Hu| |];
    simplify_eq; try done.
  exists c1, l. split; [|done]. exists ops, []. rewrite app_nil_r. split; [done|]. split; [lia|].
  split; [done|]. eapply conc_step; [constructor|done].
Qed.

Lemma looking_back_move N v0 ops0 c ops c1 ys c2 i x x' es :
  let n := length ops0 in
  conc_state N v0 (ops0 ++ ops) c1 ys → conc N c ops c1 → pool_step c1 c2 →
  ys.*2 !! i = Some x → extends (pool_state c1) (pool_state c2) es →
  move (vault_policy v0) (vault_max_leases_per_agent v0) x
    (vault_leases (pool_state c1)) (pool_world c1) es x'
    (vault_leases (pool_state c2)) (pool_world c2) →
  ∀ log0, looking_back N n log0 c ops c1 ys.*2 →
  looking_back N n log0 c ops c2 (<[i := x']> ys.*2).
Proof.
  intros n Hst Hrun Hs Hi (_ & _ & Hlog) Hm log0 (Hseen & es0 & Hes & Hin & Hcount).
  assert (H12 : conc N c1 [] c2) by (eapply conc_step; [constructor|done]).
  assert (Hlen : (i < length ops0 + length ops)%nat).
  { apply lookup_lt_Some in Hi. rewrite length_fmap, (state_threads _ _ _ _ _ Hst) in Hi.
    by rewrite length_app in Hi. }
  assert (Hsame : ∀ j y, ys.*2 !! (n + j)%nat = Some y → lease_seen N c ops c2 j y).
  { intros j y Hy. rewrite <-(app_nil_r ops). eapply lease_seen_later; [by apply Hseen|done]. }
  split; [|exists (es0 ++ es); split; [by rewrite Hlog, Hes, app_assoc|split]].
  - intros j y Hy. apply list_lookup_insert_Some in Hy as [(Heq & <- & _)|(_ & Hy)]; [|by apply Hsame].
    eapply move_seen; [done|done|unfold n in *; lia|done|]. apply Hsame. by rewrite <-Heq.
  - intros j k l host Hy. apply Exists_app.
    apply list_lookup_insert_Some in Hy as [(Heq & Hx' & _)|(_ & Hy)]; [|left; by eapply Hin].
    destruct (move_accessed _ _ _ _ _ _ _ _ _ _ _ _ Hm Hx') as [->|(_ & e & -> & He)];
      [left; eapply Hin; by rewrite <-Heq|right; by constructor].
  - intros k host. rewrite count_app.
    pose proof (accessed_insert n k host ys.*2 i x x' Hi) as Hc. specialize (Hcount k host).
    case_decide as Hd; [|lia]. destruct Hd as [Hx' Hx].
    destruct x' as [| | | | |k' l host'| |]; simpl in Hx'; try done. destruct Hx' as [-> ->].
    destruct (move_accessed _ _ _ _ _ _ _ _ _ _ _ _ Hm eq_refl) as [->|(_ & e & -> & He)];
      [by destruct Hx|].
    unfold count at 3. rewrite filter_cons_True by (by eapply access_entry_of). simpl. lia.
Qed.

Lemma conc_looking_back N v0 ops0 c ys ops c' :
  let log0 := audit_view (vault_audit (pool_state c)) in
  conc_state N v0 ops0 c ys → conc N c ops c' →
  ∃ ys', conc_state N v0 (ops0 ++ ops) c' ys' ∧
    looking_back N (length ops0) log0 c ops c' ys'.*2.
Proof.
  intros log0 Hst Hrun. induction Hrun as
    [c|c ops c1 c2 Hrun IH Hs|c ops c1 w Hrun IH Hw|c ops c1 op Hrun IH Hlt].
  - exists ys. rewrite app_nil_r. split; [done|]. pose proof (state_threads _ _ _ _ _ Hst) as Hlen.
    assert (Hno : ∀ j, ys.*2 !! (length ops0 + j)%nat = None)
      by (intros j; apply lookup_ge_None_2; rewrite length_fmap; lia).
    split; [intros j x Hx; by rewrite Hno in Hx|].
    exists []. rewrite app_nil_r. split; [done|]. split; [intros j k l host Hx; by rewrite Hno in Hx|].
    intros k host. rewrite drop_ge by (rewrite length_fmap; lia). done.
  - destruct (IH Hst) as (ys1 & Hst1 & Hlb). destruct (state_step _ _ _ _ _ _ Hst1 Hs)
      as (ys2 & Hst2 & [(-> & Hstate & _)|(i & x & x' & es & Hi & Hx & Hm & Heq)]).
    + exists ys1. split; [done|]. destruct Hlb as (Hseen & Hlog). split; [|by rewrite Hstate].
      intros j y Hy. rewrite <-(app_nil_r ops). eapply lease_seen_later; [by apply Hseen|].
      eapply conc_step; [constructor|done].
    + exists ys2. split; [done|]. rewrite Heq. by eapply looking_back_move.
  - destruct (IH Hst) as (ys1 & Hst1 & Hseen & Hlog). exists ys1.
    split; [by apply state_time|]. split; [|done].
    intros j y Hy. rewrite <-(app_nil_r ops). eapply lease_seen_later; [by apply Hseen|].
    apply conc_time; [constructor|done].
  - destruct (IH Hst) as (ys1 & Hst1 & Hseen & es & Hlog & Hin & Hcount).
    exists (ys1 ++ [(op, Idle)]). split; [rewrite app_assoc; by apply state_arrive|].
    rewrite fmap_app. change ([(op, Idle)].*2) with [Idle].
    split; [|exists es; split; [done|split]].
    + intros j y Hy. apply lookup_snoc_Some in Hy as [[_ Hy]|[_ <-]]; [|done].
      eapply lease_seen_later; [by apply Hseen|]. apply (conc_arrive N c1 []); [constructor|done].
    + intros j k l host Hy. apply lookup_snoc_Some in Hy as [[_ Hy]|[_ ?]]; [by eapply Hin|done].
    + intros k host. rewrite drop_app, count_app. specialize (Hcount k host).
      assert (count (accessed_for k host) (drop (length ops0 - length ys1.*2) [Idle]) = 0)%nat
        as ->; [|lia].
      unfold count. destruct (length ops0 - length ys1.*2)%nat as [|[|?]]; done.
Qed.

(** Every run keeps the discipline of the locks. *)
Lemma conc_locked N c ops c' : conc N c ops c' → pool_locked c → pool_locked c'.
Proof.
  induction 1 as [c|c ops c1 c2 _ IH Hs|c ops c1 w _ IH Hw|c ops c1 op _ IH Hlt]; intros Hc.
  - done.
  - by eapply pool_step_locked, IH.
  - by apply IH.
  - apply pool_locked_join; [by apply IH|apply op_prog_locked].
Qed.
Lemma conc_run_locked N v0 w0 ops c : conc_run N v0 w0 ops c → pool_locked c.
Proof. intros [_ Hrun]. eapply conc_locked; [exact Hrun|]. by apply (spawn_locked v0 w0 []). Qed.
End conclusions.

(** ** Runs with fair locks *)

Section fair.
Context {K S A : Type}.
Context `{!Env, !Chrono, !UuidText, !HashIter, !Aead}.
Context `{!KeySource K, !SecretStore S, !AuditLog A}.
Abbreviation VFifo := (FifoPool (Vault K S A) Error VaultLock unit).
Implicit Types (F : VFifo) (op : VaultOp).

Definition fair_arrive op F : VFifo := mkFifo (arrive op (fifo_pool F)) (fifo_line F).

(** A run as in [conc], whose locks serve their waiters in the order in which they came. *)
Inductive fair_conc (N : nat) : VFifo → list VaultOp → VFifo → Prop :=
  | fair_refl F : fair_conc N F [] F
  | fair_step F ops F1 F2 : fair_conc N F ops F1 → fifo_step F1 F2 → fair_conc N F ops F2
  | fair_time F ops F1 w :
      fair_conc N F ops F1 → world_le (pool_world (fifo_pool F1)) w →
      fair_conc N F ops (mkFifo (mkPool (pool_state (fifo_pool F1)) w
                                   (pool_threads (fifo_pool F1))) (fifo_line F1))
  | fair_arrives F ops F1 op :
      fair_conc N F ops F1 → (running (fifo_pool F1) < N)%nat →
      fair_conc N F (ops ++ [op]) (fair_arrive op F1).
Definition fair_run (N : nat) (v0 : Vault K S A) (w0 : World) (ops : list VaultOp) F : Prop :=
  initial v0 ∧ fair_conc N (mkFifo (mkPool v0 w0 []) []) ops F.

(** Every such run is a run. *)
Lemma fair_conc_conc N F ops F' :
  fair_conc N F ops F' → conc N (fifo_pool F) ops (fifo_pool F').
Proof.
  induction 1 as [F|F ops F1 F2 _ IH Hs|F ops F1 w _ IH Hw|F ops F1 op _ IH Hlt]; [constructor| |..].
  - apply fifo_step_pool in Hs as [->|Hs]; [done|by eapply conc_step].
  - by apply conc_time.
  - by apply conc_arrive.
Qed.
Lemma fair_conc_line N F ops F' : fair_conc N F ops F' → line_ok F → line_ok F'.
Proof.
  induction 1 as [F|F ops F1 F2 _ IH Hs|F ops F1 w _ IH Hw|F ops F1 op _ IH Hlt]; intros HF.
  - done.
  - by eapply line_ok_step, IH.
  - by apply IH.
  - intros i l Hin. destruct (IH HF i l Hin) as (t & m & k & Ht & Hp). exists t, m, k.
    split; [|done]. unfold fifo_threads in *. cbn [fair_arrive fifo_pool arrive pool_threads].
    by apply lookup_app_l_Some.
Qed.

(** A run as a script. *)
Definition fair_event (N : nat) (ev : Event) F : option VFifo :=
  match ev with
  | Arrive op => if decide (running (fifo_pool F) < N)%nat then Some (fair_arrive op F) else None
  | Run i n => fifo_schedule (replicate n i) F
  end.
Fixpoint fair_events (N : nat) (evs : list Event) F : option VFifo :=
  match evs with
  | [] => Some F
  | ev :: evs' => F' ← fair_event N ev F; fair_events N evs' F'
  end.
Lemma fair_trans N F1 ops1 F2 ops2 F3 :
  fair_conc N F1 ops1 F2 → fair_conc N F2 ops2 F3 → fair_conc N F1 (ops1 ++ ops2) F3.
Proof.
  intros H12 H23. induction H23; rewrite ?app_nil_r, ?app_assoc; eauto using fair_conc.
Qed.
Lemma fair_events_conc N evs F F' :
  fair_events N evs F = Some F' → fair_conc N F (arrivals evs) F'.
Proof.
  revert F. induction evs as [|ev evs IH]; intros F Hrun; simplify_eq/=; [constructor|].
  apply bind_Some in Hrun as (F1 & Hev & Hrun). specialize (IH F1 Hrun).
  destruct ev as [op|i n]; simpl in Hev.
  - case_decide as Hlt; simplify_eq.
    apply (fair_trans N F [op] (fair_arrive op F) (arrivals evs)); [|exact IH].
    apply (fair_arrives N F []); [constructor|done].
  - apply (fair_trans N F [] F1 (arrivals evs)); [|exact IH].
    apply fifo_schedule_steps in Hev.
    refine (rtc_ind_r (λ F', fair_conc N F [] F') F _ _ F1 Hev); [constructor|].
    intros F2 F3 _ Hs HF. by eapply fair_step.
Qed.
End fair.
