(* ===== verification/Demo.v ===== *)
(** A small vault on the concrete instances, for the witnesses.

    The key source is [KmsSource] on a disk held in memory, the store is the SQLite
    store, and the audit log is the list of its entries. *)
From S2P Require Import Prelude Text Concrete Types Lease Policy Session Store.
From S2P Require Import RusqliteStore StoreRefinement Crypto KeySource Auth AuditEvents Vault VaultInv.
From S2P Require Import VaultSpec VaultProps.

Local Open Scope string_scope.
Local Open Scope Z_scope.
Local Open Scope list_scope.

Definition demo_ProcEnv : ProcEnv := λ _, Some (hex_encode (replicate 32 (byte_of 171))).
Definition demo_Reliable : @Reliable demo_Env.
Proof. done. Qed.
Definition demo_AuditReliable : @AuditReliable _ demo_AuditLog.
Proof. intros e s w. by eexists _, _. Qed.

(** The instances, for a file that evaluates on the demo vault. *)
Module DemoInstances.
#[export] Existing Instance demo_Env.
#[export] Existing Instance demo_EnvLaws.
#[export] Existing Instance demo_MonotoneClock.
#[export] Existing Instance demo_Reliable.
#[export] Existing Instance demo_Chrono.
#[export] Existing Instance demo_ChronoLaws.
#[export] Existing Instance demo_UuidText.
#[export] Existing Instance demo_UuidTextLaws.
#[export] Existing Instance demo_HashIter.
#[export] Existing Instance demo_Aead.
#[export] Existing Instance demo_AeadLaws.
#[export] Existing Instance demo_Rusqlite.
#[export] Existing Instance demo_KmsIO.
#[export] Existing Instance demo_KmsIOLaws.
#[export] Existing Instance demo_ProcEnv.
#[export] Existing Instance demo_AuditLog.
#[export] Existing Instance demo_AuditLogLaws.
#[export] Existing Instance demo_AuditReliable.
End DemoInstances.
Import DemoInstances.

Abbreviation DemoVault := (Vault (KmsSource (list (string * bytes))) RusqliteStore
                             (list AuditEntry)).

(** Agent [ci] may use every secret on the subdomains of [example.com], twice per lease,
    for fifteen minutes. *)
Definition demo_agent : AgentId := AgentId_new "ci".
Definition demo_peer : PeerIdentity := Unix 1000 42.
Definition demo_secret : SecretName := SecretName_new "github".
Definition demo_scope : DomainScope := DomainScope_new "*.example.com".
Definition demo_terms : LeaseTerms := mkLeaseTerms (900 * NANOS) true (Some 2).
Definition demo_policy : PolicyEngine := mkPolicyEngine (mkPolicyConfig demo_terms
  [mkPolicyGrant (AgentExact demo_agent) SecretAny [demo_scope] None]).
Definition demo_key_source : KmsSource (list (string * bytes)) :=
  KmsSource_new [] "alias/k" "/dek".
Definition demo_vault : DemoVault :=
  Vault_new demo_key_source (mkRusqliteStore []) [] demo_policy Aes256Gcm.

(** A session of [alice] whose tool [git] may use the secret. *)
Definition demo_session_policy : SessionPolicy :=
  mkSessionPolicy (3600 * NANOS) 1 1
    [mkToolCredentialBinding "git" [demo_secret] [demo_scope]].
Definition demo_token : SessionToken := SessionToken_from_bytes (replicate 16 (byte_of 2)).

(** The vault after a sequence of operations. *)
Definition exec1 {K S A} `{!KeySource K, !SecretStore S, !AuditLog A}
    (c : Vault K S A * World) (op : VaultOp) : Vault K S A * World :=
  match run_op op c.1 c.2 with (_, v', w') => (v', w') end.
Definition exec {K S A} `{!KeySource K, !SecretStore S, !AuditLog A}
    (c : Vault K S A * World) (ops : list VaultOp) : Vault K S A * World := foldl exec1 c ops.

Lemma exec_steps {K S A} `{!KeySource K, !SecretStore S, !AuditLog A}
    (ops : list VaultOp) (c : Vault K S A * World) : rtc vstep c (exec c ops).
Proof.
  revert c. induction ops as [|op ops IH]; intros [v w]; [reflexivity|].
  eapply rtc_l; [|apply IH]. unfold exec1. cbn [fst snd].
  destruct (run_op op v w) as [[r v'] w'] eqn:Hr. by eapply vs_op.
Qed.

Definition demo_after (ops : list VaultOp) : DemoVault * World :=
  exec (demo_vault, demo_world) ops.

Lemma demo_after_reachable ops : reachable (demo_after ops).1 (demo_after ops).2.
Proof.
  exists demo_vault, demo_world. split.
  - exists demo_key_source, (mkRusqliteStore []), [], demo_policy, Aes256Gcm,
      DEFAULT_MAX_LEASES_PER_AGENT. reflexivity.
  - pose proof (exec_steps ops (demo_vault, demo_world)) as Hr. unfold demo_after.
    by destruct (exec (demo_vault, demo_world) ops).
Qed.

(** The histories the witnesses start from. *)
Definition ops_stored : list VaultOp :=
  [OpInitialize; OpStoreSecret demo_secret (as_bytes "s3cret") Pat None demo_peer].
Definition ops_leased : list VaultOp :=
  ops_stored ++ [OpRequestLease demo_agent demo_secret demo_scope demo_peer].
Definition ops_session : list VaultOp :=
  ops_stored ++ [OpCreateSession "alice" "tui" demo_session_policy demo_peer].
Definition ops_scoped : list VaultOp :=
  ops_session ++ [OpRequestLeaseScoped demo_agent demo_secret demo_scope demo_peer demo_token
                    "git"].

(** What an operation does from there. *)
Abbreviation demo_run ops m := (m (demo_after ops).1 (demo_after ops).2).

Definition demo_lease : LeaseId := LeaseId_from_uuid 2.
Definition demo_scoped_lease : LeaseId := LeaseId_from_uuid 4.

Definition demo_lease_value : Lease :=
  mkLease demo_lease demo_agent demo_secret [demo_scope] (2 * NANOS) (902 * NANOS) true
    (Some 2) 0 false None 0.
Lemma demo_leased : vault_leases (demo_after ops_leased).1 !! demo_lease = Some demo_lease_value.
Proof. vm_compute. reflexivity. Qed.

Definition demo_scoped_lease_value : Lease :=
  mkLease demo_scoped_lease demo_agent demo_secret [demo_scope] (6 * NANOS) (906 * NANOS) true
    (Some 2) 0 false (Some (SessionId_from_uuid 2)) 0.
Lemma demo_scoped_leased :
  vault_leases (demo_after ops_scoped).1 !! demo_scoped_lease = Some demo_scoped_lease_value.
Proof. vm_compute. reflexivity. Qed.

Definition demo_session_value : Session :=
  mkSession (SessionId_from_uuid 2) "alice" "tui" (2 * NANOS) (3602 * NANOS)
    demo_session_policy 1 false.
Lemma demo_session_open :
  vault_sessions (demo_after ops_scoped).1 !! demo_token = Some demo_session_value.
Proof. vm_compute. reflexivity. Qed.

(** Runs an operation that is known to succeed. *)
Lemma run_ok {E B St} (x : outcome E B * St * World) :
  is_ok x.1.1 = true → ∃ a v' w', x = (Ok a, v', w').
Proof. destruct x as [[[a| |] v'] w']; [by exists a, v', w'|done..]. Qed.
Lemma run_eq {E B St} (x : outcome E B * St * World) r :
  x.1.1 = r → ∃ v' w', x = (r, v', w').
Proof. destruct x as [[r' v'] w']. intros <-. by exists v', w'. Qed.

Ltac demo_runs := first [apply run_ok|apply run_eq]; vm_compute; reflexivity.
