(* ===== verification/VaultSecrets.v ===== *)
(** The life of a secret in the vault: stored, leased, read back, re-encrypted. *)
From S2P Require Import Prelude Text Concrete Types Lease Policy Session Store.
From S2P Require Import Crypto KeySource Auth AuditEvents Vault VaultInv VaultSpec VaultProps.
From S2P Require Import RusqliteStore Demo.

Local Open Scope string_scope.
Local Open Scope Z_scope.
Local Open Scope list_scope.

Section secrets.
Context {K S A : Type}.
Context `{!Env, !Chrono, !UuidText, !HashIter, !Aead}.
Context `{!KeySource K, !SecretStore S, !AuditLog A}.
Context `{!KeySourceLaws K, !SecretStoreLaws S, !AuditLogLaws A}.
Implicit Types (v : Vault K S A) (w : World).

(** ** Reading succeeds when it should *)

Lemma audit_event_reliable `{!AuditReliable A} ev ag peer out v w :
  wp (audit_event ev ag peer out) v w (λ r _ _, r = Ok tt).
Proof.
  unfold audit_event. wp_step. wp_call AuditEntry_new_wp. intros r v1 w1 (-> & -> & ->).
  unfold Vault_trace_and_record, on_audit. apply wp_zoom. apply run_wp.
  intros r s' w' Hrun.
  destruct (audit_never_fails (mkAuditEntry (clock (w_clock w)) (now_v7 (w_uuid w)) ev ag
    (PeerIdentity_to_string peer) out) (vault_audit v) (tick_uuid (tick_clock w)))
    as (s2 & w2 & Hok). congruence.
Qed.

Lemma on_store_get_reliable `{!Reliable} n x v w :
  store_inv (vault_store v) → store_view (vault_store v) !! n = Some x →
  wp (on_store (store_get n)) v w (λ r v' _, r = Ok x ∧ v' = v).
Proof.
  intros Hi Hx. wp_call on_store_get_wp. intros r v1 w1 (Hr & _ & _ & _ & Hinv).
  destruct (Hinv Hi) as (-> & Hspec & Hrel). destruct r as [y|e|]; [| |done].
  - rewrite Hx in Hspec. by simplify_eq.
  - rewrite (Hrel _ e eq_refl) in Hspec. destruct Hspec as [[_ Hno]|[msg Hmsg]]; congruence.
Qed.

(** A live lease whose secret is in the store and decrypts gives the value, unless it is not
    UTF-8. *)
Definition delivered (k : LeaseId) (raw : bytes) : outcome Error LeaseGuard :=
  match from_utf8 raw with
  | Some p => Ok (LeaseGuard_new k p)
  | None => Err DecryptionFailed
  end.

Lemma Vault_access_secret_complete `{!Reliable, !AuditReliable A} k host peer l x dek raw v w :
  vault_leases v !! k = Some l → lease_live_for l (clock (w_clock w)) host →
  store_inv (vault_store v) → store_view (vault_store v) !! lease_secret_name l = Some x →
  vault_dek v = Some dek →
  Cipher_decrypt (vault_cipher v)
    (mkSealed (stored_ciphertext x) (stored_nonce x) (stored_algorithm x)) dek = Ok raw →
  wp (Vault_access_secret k host peer) v w (λ r _ _, r = delivered k raw).
Proof.
  intros Hk Hlive Hi Hx Hdek Hdec. unfold Vault_access_secret. do 3 wp_step.
  rewrite Hk. cbn [ok_or]. wp_step. wp_step. wp_call Lease_validate_wp.
  intros r v1 w1 (-> & _ & _ & Hr). pose proof (proj2 Hr Hlive) as ->.
  pose proof Hlive as (_ & _ & Hex & _). rewrite (Lease_record_use_ok l Hex).
  do 4 wp_step. wp_step. wp_call (on_store_get_reliable (lease_secret_name l) x).
  intros r v2 w2 [-> ->]. wp_step. unfold Vault_decrypt, delivered.
  do 3 wp_step. cbn [vault_dek set_leases]. rewrite Hdek. cbn [ok_or]. do 2 wp_step.
  cbn [vault_cipher set_leases]. rewrite Hdec. wp_step.
  destruct (from_utf8 raw) as [p|]; cbn [ok_or]; wp_step; [|done].
  wp_step. wp_call audit_event_reliable. intros r v4 w4 ->. by wp_step.
Qed.

(** C28. Store, lease, read back. Take a vault whose store is well-formed, and suppose that no
    call to the store and no recording in the audit log fails. When a secret is stored, then
    a lease for it is granted and then used, with no other operation of the vault in between
    (by whatever peers), before it expires, for a host in its scope and with a budget that
    is not zero, the access delivers exactly the bytes that were stored if they are UTF-8,
    and fails with [DecryptionFailed] if they are not. *)
Theorem store_lease_access_roundtrip
    `{!Reliable, !AuditReliable A, !EnvLaws, !AeadLaws}
    v w n (secret : bytes) kind desc agent d host peer1 peer2 peer3 m v1 w1 g v2 w2 :
  store_inv (vault_store v) →
  Vault_store_secret n secret kind desc peer1 v w = (Ok m, v1, w1) →
  Vault_request_lease agent n d peer2 v1 w1 = (Ok g, v2, w2) →
  DomainScope_matches d host = true →
  clock (w_clock w2) ≤ grant_expires_at g → grant_remaining_uses g ≠ Some 0 →
  ∃ v3 w3, Vault_access_secret (grant_lease_id g) host peer3 v2 w2 =
    (match from_utf8 secret with
     | Some text => Ok (LeaseGuard_new (grant_lease_id g) text)
     | None => Err DecryptionFailed
     end, v3, w3).
Proof.
  intros Hi Hstore Hreq Hd Hexp Huses.
  destruct (wp_run _ _ _ _ _ _ _ (Vault_store_secret_wp _ _ _ _ _ v w) Hstore)
    as (_ & _ & Hdek1 & _ & _ & Hc1 & Hst).
  destruct (Hst Hi) as [Hi1 Hok].
  destruct (Hok _ eq_refl) as (x & dek & sealed & wa & wb & _ & Hdek & Henc & Hct & Hn & Halg
    & _ & Hview). clear Hok Hst.
  destruct (wp_run _ _ _ _ _ _ _ (Vault_request_lease_wp agent n d peer2 v1 w1) Hreq)
    as (_ & _ & Hst2 & t & l & _ & _ & Hiss & -> & Hfr & _).
  destruct (Hst2 Hi1) as [Hs2 _].
  destruct Hiss as ((_ & Hdom & _ & _ & Huc & _ & Hrev & _) & _ & Hln & _).
  assert (Hacc : wp (Vault_access_secret (lease_id l) host peer3) v2 w2
    (λ r _ _, r = delivered (lease_id l) secret)).
  { eapply (Vault_access_secret_complete _ _ _ l (StoredSecret_erase x) dek).
    - by rewrite Hfr; cbn; rewrite lookup_insert_eq.
    - split; [done|]. split; [done|]. split.
      + apply not_true_iff_false. rewrite uses_exhausted_spec. intros (mx & Hmx & Hle).
        apply Huses. cbn [LeaseGrant_from grant_remaining_uses]. rewrite Hmx. simpl.
        f_equal. lia.
      + exists d. rewrite Hdom. split; [by apply list_elem_of_singleton|done].
    - by rewrite Hs2.
    - by rewrite Hs2, Hview, Hln, lookup_insert_eq.
    - rewrite Hfr. cbn. congruence.
    - rewrite <-(Cipher_encrypt_decrypt _ _ _ _ _ _ _ _ (vault_cipher v2) Henc).
      f_equal. cbn. rewrite Hct, Hn, Halg. by destruct sealed. }
  unfold wp in Hacc. cbn [LeaseGrant_from grant_lease_id].
  destruct (Vault_access_secret (lease_id l) host peer3 v2 w2) as [[r v3] w3].
  subst r. unfold delivered. eauto.
Qed.

(** ** Rotation of the data encryption key *)

Definition sealed_of (x : StoredSecret) : Sealed :=
  mkSealed (stored_ciphertext x) (stored_nonce x) (stored_algorithm x).
Definition sealed_of_item (u : BatchUpdateItem) : Sealed :=
  mkSealed (batch_ciphertext u) (batch_nonce u) (batch_algorithm u).

(** The item replaces a secret by the same plaintext under the new key. *)
Definition reencrypts v (old new : DataEncryptionKey) (n : SecretName)
    (u : BatchUpdateItem) : Prop :=
  batch_name u = n ∧ ∃ x raw, store_view (vault_store v) !! n = Some x ∧
    Cipher_decrypt (vault_cipher v) (sealed_of x) old = Ok raw ∧
    Cipher_decrypt (vault_cipher v) (sealed_of_item u) new = Ok raw.

Lemma reencrypt_wp `{!EnvLaws, !AeadLaws} old new meta v w :
  store_inv (vault_store v) →
  wp (reencrypt (vault_cipher v) old new meta) v w (λ r v' _,
    v' = v ∧ ∀ u, r = Ok u → reencrypts v old new (meta_name meta) u).
Proof.
  intros Hi. unfold reencrypt. wp_step. wp_call on_store_get_wp.
  intros r v1 w1 (Hr & _ & _ & _ & Hinv). destruct (Hinv Hi) as (-> & Hx & _).
  destruct r as [x|e|]; [| |done]; [|done]. wp_step.
  pose proof (Cipher_decrypt_no_panic (vault_cipher v) (sealed_of x) old) as Hnp.
  fold (sealed_of x). destruct (Cipher_decrypt _ (sealed_of x) old) as [raw|e|] eqn:Hdec;
    wp_step; [|done..].
  wp_step. apply run_wp. intros r v2 w2 Henc.
  destruct (wp_run _ _ _ _ _ _ _ (Cipher_encrypt_wp (vault_cipher v) raw new v w1) Henc)
    as (-> & _ & Hr2 & _ & _).
  destruct r as [sealed|e|]; [|done..]. wp_step. split; [done|]. intros u [= <-].
  split; [done|]. exists x, raw. split; [done|]. split; [done|].
  rewrite <-(Cipher_encrypt_decrypt _ _ _ _ _ _ _ _ (vault_cipher v) Henc).
  by destruct sealed.
Qed.

Lemma reencrypt_all_wp `{!EnvLaws, !AeadLaws} old new metas v w :
  store_inv (vault_store v) →
  wp (traverse (reencrypt (vault_cipher v) old new) metas) v w (λ r v' _,
    v' = v ∧ ∀ us, r = Ok us →
      Forall2 (λ meta u, reencrypts v old new (meta_name meta) u) metas us).
Proof.
  intros Hi. revert w. induction metas as [|meta metas IH]; intros w; cbn [traverse].
  { wp_step. split; [done|]. intros us [= <-]. constructor. }
  wp_step. wp_call reencrypt_wp. intros r v1 w1 [-> Hu]. destruct r as [u|e|]; [|done..].
  wp_step. wp_call IH. intros r v2 w2 [-> Hus]. destruct r as [us|e|]; [|done..].
  wp_step. split; [done|]. intros us' [= <-]. constructor; [by apply Hu|by apply Hus].
Qed.

(** The effect of a batch whose items have different names. *)
Lemma batch_apply_other l m n :
  (∀ u, u ∈ l.*2 → batch_name u ≠ n) → batch_apply l m !! n = m !! n.
Proof.
  revert m. induction l as [|u l IH]; intros m Hall; [done|].
  change (batch_apply (u :: l) m) with (batch_apply l (batch_apply1 u m)).
  rewrite IH by (intros u' Hu'; apply Hall; rewrite fmap_cons; by apply list_elem_of_further).
  unfold batch_apply1. apply lookup_alter_ne. apply Hall. rewrite fmap_cons.
  apply list_elem_of_here.
Qed.
Lemma batch_apply_item l m u now :
  NoDup (batch_name <$> l.*2) → (now, u) ∈ l →
  batch_apply l m !! batch_name u =
    StoredSecret_rotate (batch_ciphertext u) (batch_nonce u) (batch_algorithm u) now
      <$> m !! batch_name u.
Proof.
  revert m. induction l as [|[now' u'] l IH]; intros m Hnd Hin.
  { by apply elem_of_nil in Hin. }
  rewrite !fmap_cons in Hnd. apply NoDup_cons in Hnd as [Hn Hnd]. cbn [snd] in Hn.
  change (batch_apply ((now', u') :: l) m) with (batch_apply l (batch_apply1 (now', u') m)).
  apply elem_of_cons in Hin as [[= <- <-]|Hin].
  - rewrite batch_apply_other.
    + unfold batch_apply1. cbn [fst snd]. by rewrite lookup_alter_eq.
    + intros u0 Hu0 Heq. apply Hn. rewrite <-Heq. by apply list_elem_of_fmap_2.
  - rewrite IH by done. f_equal. unfold batch_apply1. cbn [fst snd].
    apply lookup_alter_ne. intros Heq. apply Hn. rewrite Heq.
    apply list_elem_of_fmap_2. by apply (list_elem_of_fmap_2 snd _ (now, u)).
Qed.

(** Every secret of [v] is in [v'] too, with the same plaintext, now under [new]. *)
Definition reencrypted v (old new : DataEncryptionKey) v' : Prop :=
  store_inv (vault_store v') ∧
  ∀ n, match store_view (vault_store v) !! n with
       | None => store_view (vault_store v') !! n = None
       | Some x => ∃ x' raw, store_view (vault_store v') !! n = Some x' ∧
           Cipher_decrypt (vault_cipher v) (sealed_of x) old = Ok raw ∧
           Cipher_decrypt (vault_cipher v) (sealed_of x') new = Ok raw
       end.

(** No secret is about to run out of version numbers. *)
Definition versions_fit v : Prop :=
  ∀ n x, store_view (vault_store v) !! n = Some x →
    stored_version x + Z.of_nat (size (store_view (vault_store v))) ≤ VERSION_MAX.

(** The list of all secrets has as many entries as the store. *)
Lemma listed_length (m : gmap SecretName StoredSecret) ms :
  NoDup (meta_name <$> ms) →
  (∀ x, x ∈ ms → is_Some (m !! meta_name x)) → (length ms ≤ size m)%nat.
Proof.
  intros Hnd Hin. rewrite <-(length_fmap meta_name), <-size_dom.
  rewrite <-(size_list_to_set (C := gset SecretName)) by done.
  apply subseteq_size. intros n Hn%elem_of_list_to_set.
  apply list_elem_of_fmap in Hn as (x & -> & Hx). apply elem_of_dom. auto.
Qed.

Lemma batch_reencrypted old new ms us nows v v' :
  store_inv (vault_store v') →
  (∀ m, m ∈ ms ↔ ∃ x, store_view (vault_store v) !! meta_name m = Some x ∧
                       m = SecretMetadata_from x) →
  (∀ n x, store_view (vault_store v) !! n = Some x → stored_name x = n) →
  NoDup (meta_name <$> ms) →
  Forall2 (λ meta u, reencrypts v old new (meta_name meta) u) ms us →
  length nows = length us →
  store_view (vault_store v') = batch_apply (zip nows us) (store_view (vault_store v)) →
  reencrypted v old new v'.
Proof.
  intros Hi Hms Hname Hnd Hall Hlen Hview. split; [done|]. intros n.
  assert (Hz : (zip nows us).*2 = us) by (apply snd_zip; lia).
  assert (Hnames : batch_name <$> us = meta_name <$> ms).
  { clear -Hall. induction Hall as [|m u ms us [Hn _] _ IH]; [done|].
    by rewrite !fmap_cons, IH, Hn. }
  rewrite Hview. destruct (store_view (vault_store v) !! n) as [x|] eqn:Hx.
  - assert (Hm : SecretMetadata_from x ∈ ms).
    { apply Hms. exists x. simpl. by rewrite (Hname n x Hx). }
    apply list_elem_of_lookup in Hm as [i Hmi].
    destruct (Forall2_lookup_l _ _ _ _ _ Hall Hmi) as (u & Hu & Hn & x0 & raw & Hx0 & Hd & He).
    simpl in Hn, Hx0. rewrite (Hname n x Hx) in Hn, Hx0. simplify_eq.
    destruct (lookup_lt_is_Some_2 nows i) as [now Hnow].
    { rewrite Hlen. by eapply lookup_lt_Some. }
    assert (Hin : (now, u) ∈ zip nows us).
    { apply list_elem_of_lookup. exists i. apply lookup_zip_Some. done. }
    eexists _, raw. rewrite (batch_apply_item _ _ u now) by (by rewrite ?Hz, ?Hnames).
    rewrite Hx. split; [reflexivity|]. done.
  - rewrite batch_apply_other; [done|]. intros u Hu Heq. rewrite Hz in Hu.
    apply list_elem_of_lookup in Hu as [i Hu].
    destruct (Forall2_lookup_r _ _ _ _ _ Hall Hu) as (m & _ & Hn & x0 & raw & Hx0 & _).
    congruence.
Qed.

(** The key a rotation draws: the next 32 bytes of the random generator. *)
Definition fresh_dek w : DataEncryptionKey := DataEncryptionKey_from_bytes (os_rng (w_rng w) 32).

(** The key source of [v] has accepted the key, which left it as it is in [v']. *)
Definition key_accepted (new : DataEncryptionKey) v v' : Prop :=
  ∃ w1 ed w2, ks_rotate_dek new (vault_key_source v) w1 = (Ok ed, vault_key_source v', w2).

Lemma Vault_rotate_dek_wp `{!EnvLaws, !AeadLaws} peer old v w :
  vault_dek v = Some old → store_inv (vault_store v) → versions_fit v →
  let new := fresh_dek w in
  wp (Vault_rotate_dek peer) v w (λ r v' w',
    (r = Ok tt ∧ vault_dek v' = Some new ∧ key_accepted new v v' ∧ reencrypted v old new v') ∨
    (¬ is_ok r ∧
     ((vault_dek v' = Some old ∧ store_view (vault_store v') = store_view (vault_store v)) ∨
      ((vault_dek v' = Some old ∨ vault_dek v' = Some new) ∧ reencrypted v old new v')))).
Proof.
  intros Hdek Hi Hver new. unfold Vault_rotate_dek. do 3 wp_step. rewrite Hdek. cbn [ok_or].
  do 3 wp_step. fold (fresh_dek w). fold new.
  assert (Hunch : ∀ e, (Err e = Ok tt ∧ vault_dek v = Some new ∧ key_accepted new v v ∧
      reencrypted v old new v) ∨
    (¬ is_ok (Err e : outcome Error unit) ∧
     ((vault_dek v = Some old ∧ store_view (vault_store v) = store_view (vault_store v)) ∨
      ((vault_dek v = Some old ∨ vault_dek v = Some new) ∧ reencrypted v old new v)))).
  { intros e. right. split; [by intros []|]. by left. }
  wp_step. unfold on_store at 1. apply wp_zoom. wp_call store_list_spec.
  intros r s1 w1 (-> & Hl & _). replace (set_store (vault_store v) v) with v by (by destruct v).
  destruct r as [ms|e|]; [|by apply Hunch|done]. destruct Hl as [Hnd Hms].
  wp_step. wp_call reencrypt_all_wp. intros r v2 w2 [-> Hus].
  destruct r as [us|e|]; [|by apply Hunch|].
  2:{ right. split; [by intros []|]. by left. }
  specialize (Hus us eq_refl). wp_step. unfold on_store. apply wp_zoom.
  eapply wp_mono.
  { apply store_batch_update_spec; [done|]. intros n x Hx.
    rewrite <-(Forall2_length _ _ _ Hus).
    assert (length ms ≤ size (store_view (vault_store v)))%nat.
    { apply listed_length; [done|]. intros m (y & Hy & _)%Hms. by eexists. }
    specialize (Hver n x Hx). lia. }
  cbn beta. intros r s3 w3 (Hi3 & Hr & _). destruct r as [[]|e|]; [| |done].
  2:{ destruct Hr as [Hsame _]. right. split; [by intros []|]. by left. }
  destruct Hr as (_ & nows & Hlen & Hview).
  assert (Hre : ∀ v', vault_store v' = s3 → reencrypted v old new v').
  { intros v' Hv'. eapply (batch_reencrypted old new ms us nows); try done.
    - by rewrite Hv'.
    - intros n x. apply store_view_name, Hi.
    - by rewrite Hv'. }
  wp_step. unfold on_key_source. apply wp_zoom. apply run_wp. intros r k4 w4 Hrot.
  destruct r as [ed|e|].
  2,3: (right; split; [by intros []|]; right; split; [by left|by apply Hre]).
  do 2 wp_step. wp_call audit_event_log_wp. intros r v5 w5 (Hp & _ & Hv5 & _ & _).
  assert (Hdek5 : vault_dek v5 = Some new) by (by rewrite Hv5).
  assert (Hre5 : reencrypted v old new v5) by (apply Hre; by rewrite Hv5).
  assert (Hkey : key_accepted new v v5) by (exists w3, ed, w4; by rewrite Hv5).
  destruct r as [[]|e|]; [by left| |done].
  right. split; [by intros []|]. right. auto.
Qed.

(** C29. A successful key rotation loses nothing. From a vault with a key, a well-formed store
    and version numbers to spare, a rotation that reports success has drawn a fresh key, the
    next 32 random bytes; the key source of the vault has accepted that very key to keep (and
    is as it left itself then), and the vault now uses it; the store holds the same set of
    secrets as before, and each of them decrypts under the new key to the very bytes it
    decrypted to under the old one. *)
Theorem rotate_dek_preserves_secrets `{!EnvLaws, !AeadLaws} peer old v w v' w' :
  vault_dek v = Some old → store_inv (vault_store v) → versions_fit v →
  Vault_rotate_dek peer v w = (Ok tt, v', w') →
  let new := DataEncryptionKey_from_bytes (os_rng (w_rng w) 32) in
  vault_dek v' = Some new ∧
  (∃ w1 ed w2, ks_rotate_dek new (vault_key_source v) w1 = (Ok ed, vault_key_source v', w2)) ∧
  dom (store_view (vault_store v')) = dom (store_view (vault_store v)) ∧
  ∀ n x, store_view (vault_store v) !! n = Some x →
    ∃ x' raw, store_view (vault_store v') !! n = Some x' ∧
      Cipher_decrypt (vault_cipher v) (sealed_of x) old = Ok raw ∧
      Cipher_decrypt (vault_cipher v') (sealed_of x') new = Ok raw.
Proof.
  intros Hdek Hi Hver Hrun new.
  destruct (wp_run _ _ _ _ _ _ _ (evolving_rotate_dek peer v w) Hrun) as (_ & Hc & _).
  destruct (wp_run _ _ _ _ _ _ _ (Vault_rotate_dek_wp peer old v w Hdek Hi Hver) Hrun)
    as [(_ & Hd & Hkey & _ & Hre)|[[] _]]; [|done].
  split; [done|]. split; [exact Hkey|]. split.
  - apply set_eq. intros n. rewrite !elem_of_dom. specialize (Hre n).
    destruct (store_view (vault_store v) !! n) as [x|]; [|by rewrite Hre].
    destruct Hre as (x' & raw & -> & _). split; eauto.
  - intros n x Hx. specialize (Hre n). rewrite Hx in Hre. by rewrite Hc.
Qed.
End secrets.

(** ** Witnesses *)

Import DemoInstances.

Lemma demo_store_inv : store_inv (vault_store (demo_after ops_stored).1).
Proof.
  assert (∃ r x, secrets (vault_store (demo_after ops_stored).1) = [r] ∧
    row_version r = 1 ∧ row_to_stored_secret r = Ok x) as (r & x & Hr & Hv & Hx).
  { eexists _, _. split; [vm_compute; reflexivity|]. split; vm_compute; reflexivity. }
  split; rewrite Hr; [apply NoDup_singleton|].
  intros r' ->%list_elem_of_singleton. split; [lia|by exists x].
Qed.

Lemma store_lease_access_roundtrip_witness :
  ∃ m v1 w1 g v2 w2,
    demo_run [OpInitialize] (Vault_store_secret demo_secret (as_bytes "s3cret") Pat None
      demo_peer) = (Ok m, v1, w1) ∧
    Vault_request_lease demo_agent demo_secret demo_scope demo_peer v1 w1 = (Ok g, v2, w2) ∧
    ∃ v3 w3, Vault_access_secret (grant_lease_id g) "api.example.com" demo_peer v2 w2 =
      (Ok (LeaseGuard_new (grant_lease_id g) "s3cret"), v3, w3).
Proof.
  assert (store_inv (vault_store (demo_after [OpInitialize]).1)) as Hi.
  { split; [constructor|]. intros r Hr. vm_compute in Hr. by apply not_elem_of_nil in Hr. }
  assert (∃ m v1 w1, demo_run [OpInitialize] (Vault_store_secret demo_secret
    (as_bytes "s3cret") Pat None demo_peer) = (Ok m, v1, w1))
    as (m & v1 & w1 & H1) by demo_runs.
  assert (∃ g v2 w2, (Vault_request_lease demo_agent demo_secret demo_scope demo_peer v1 w1
    = (Ok g, v2, w2) ∧ clock (w_clock w2) ≤ grant_expires_at g ∧
      grant_remaining_uses g ≠ Some 0)) as (g & v2 & w2 & H2 & Hc & Hu).
  { vm_compute in H1. injection H1 as <- <- <-. eexists _, _, _.
    split; [vm_compute; reflexivity|]. by split; vm_compute. }
  exists m, v1, w1, g, v2, w2. split; [exact H1|]. split; [exact H2|].
  exact (store_lease_access_roundtrip _ _ demo_secret (as_bytes "s3cret") Pat None demo_agent
    demo_scope "api.example.com" demo_peer demo_peer demo_peer m v1 w1 g v2 w2 Hi H1 H2 eq_refl
    Hc Hu).
Defined.

Lemma rotate_dek_preserves_secrets_witness :
  ∃ v' w',
    demo_run ops_stored (Vault_rotate_dek demo_peer) = (Ok tt, v', w') ∧
    vault_dek v' ≠ vault_dek (demo_after ops_stored).1 ∧
    dom (store_view (vault_store v')) = dom (store_view (vault_store (demo_after ops_stored).1)).
Proof.
  assert (∃ v' w', demo_run ops_stored (Vault_rotate_dek demo_peer) = (Ok tt, v', w'))
    as (v' & w' & Hrun) by demo_runs.
  exists v', w'. split; [exact Hrun|].
  assert (∃ old, vault_dek (demo_after ops_stored).1 = Some old) as [old Hold].
  { eexists. vm_compute. reflexivity. }
  assert (versions_fit (demo_after ops_stored).1) as Hfit.
  { intros n x Hx. unfold versions_fit in *.
    assert (store_view (vault_store (demo_after ops_stored).1) =
      {[ demo_secret := default x (store_view (vault_store (demo_after ops_stored).1)
           !! demo_secret) ]}) as Hs by (vm_compute; reflexivity).
    rewrite Hs in Hx |- *. apply lookup_singleton_Some in Hx as [<- <-].
    rewrite map_size_singleton. vm_compute. done. }
  destruct (rotate_dek_preserves_secrets _ _ _ _ _ _ Hold demo_store_inv Hfit Hrun)
    as (Hn & _ & Hd & _).
  split; [|exact Hd]. rewrite Hn. vm_compute. discriminate.
Defined.

(** ** Key sources that cannot rotate *)

(** The demo vault with its key in an environment variable. *)
Definition env_vault : Vault EnvVarSource RusqliteStore (list AuditEntry) :=
  Vault_new (EnvVarSource_new "ZEROLEASE_KEY") (mkRusqliteStore []) [] demo_policy Aes256Gcm.
Definition env_after (ops : list VaultOp) := exec (env_vault, demo_world) ops.

(** [rotate_dek] on a key source that cannot rotate strands the secrets. On a vault
    whose key comes from an environment variable, a lease that delivers the secret before
    the rotation fails with [DecryptionFailed] after it: [rotate_dek] reports an error, but
    only after it has re-encrypted the whole store under a key that nobody keeps. *)
Theorem rotate_dek_env_strands_secrets :
  let before := env_after ops_leased in
  let after := env_after (ops_leased ++ [OpRotateDek demo_peer]) in
  (Vault_access_secret demo_lease "api.example.com" demo_peer before.1 before.2).1.1 =
    Ok (LeaseGuard_new demo_lease "s3cret") ∧
  (Vault_rotate_dek demo_peer before.1 before.2).1.1 = Err (KeySourceUnavailable
    "cannot rotate an env-var key source; set a new value and restart") ∧
  vault_dek after.1 = vault_dek before.1 ∧
  (Vault_access_secret demo_lease "api.example.com" demo_peer after.1 after.2).1.1 =
    Err DecryptionFailed.
Proof. vm_compute. auto. Qed.
