(* ===== verification/VaultConcSecrets.v ===== *)
(** The secrets of the vault under concurrent operations: [src/vault.rs].

    Requests that store, read, delete and list secrets run at the same time, each as the
    program of [VaultThreads] that keeps the value it delivers. As long as the key is not
    replaced, every secret in the store decrypts to what was stored under its name, at every
    moment of every run, and an access delivers nothing else. *)
From S2P Require Import Prelude Threads Text Concrete Types Lease Policy Session.
From S2P Require Import Store Crypto KeySource Auth AuditEvents Vault VaultInv VaultSpec.
From S2P Require Import VaultProps VaultThreads VaultLocks VaultSecrets RusqliteStore Demo.

Local Open Scope string_scope.
Local Open Scope Z_scope.
Local Open Scope list_scope.

(** Operations that leave the data encryption key as it is. *)
Definition keeps_key (op : VaultOp) : bool :=
  match op with OpInitialize | OpRotateDek _ => false | _ => true end.

Section replies.
Context {K S A : Type}.
Context `{!Env, !Chrono, !UuidText, !HashIter, !Aead}.
Context `{!KeySource K, !SecretStore S, !AuditLog A}.
Abbreviation VP := (Prog (Vault K S A) Error VaultLock).
Abbreviation RPool := (Pool (Vault K S A) Error VaultLock (option LeaseGuard)).
Implicit Types (c : RPool) (op : VaultOp).

(** An operation with the secret it delivers, if any. *)
Definition reply_prog op : VP (option LeaseGuard) :=
  match op with
  | OpAccessSecret k host peer => g ← access_secret_prog k host peer; mret (Some g)
  | _ => op_prog op;; mret None
  end.

(** A step of one of the requests, or time that passes. *)
Inductive reply_step c : RPool → Prop :=
  | rs_step c' : pool_step c c' → reply_step c c'
  | rs_time w : world_le (pool_world c) w →
      reply_step c (mkPool (pool_state c) w (pool_threads c)).
End replies.

(** ** Actions that leave the secrets alone *)

Section steady.
Context {K S A : Type}.
Context `{!Env, !Chrono, !UuidText, !HashIter, !Aead}.
Context `{!KeySource K, !SecretStore S, !AuditLog A, !AuditLogLaws A}.
Abbreviation VM := (M (Vault K S A) Error).
Implicit Types (v : Vault K S A) (w : World).

(** The log only grows. *)
Definition log_grows v v' : Prop :=
  ∃ es, audit_view (vault_audit v') = audit_view (vault_audit v) ++ es.
#[global] Instance log_grows_preorder : PreOrder log_grows.
Proof.
  split.
  - intros v. exists []. by rewrite app_nil_r.
  - intros v1 v2 v3 [es He] [es' He']. exists (es ++ es'). by rewrite He', He, app_assoc.
Qed.
Lemma log_grows_same v v' : vault_audit v' = vault_audit v → log_grows v v'.
Proof. intros Ha. exists []. by rewrite Ha, app_nil_r. Qed.

(** The store, the key and the cipher are the same. *)
Definition untouched v v' : Prop :=
  vault_store v' = vault_store v ∧ vault_dek v' = vault_dek v ∧
  vault_cipher v' = vault_cipher v ∧ log_grows v v'.
#[global] Instance untouched_preorder : PreOrder untouched.
Proof.
  split; [done|]. intros v1 v2 v3 (? & ? & ? & ?) (? & ? & ? & ?).
  do 3 (split; [congruence|]). by etrans.
Qed.

Definition steady {B} (m : VM B) : Prop := ∀ v w, wp m v w (λ _ v' _, untouched v v').

Lemma steady_same {B} (m : VM B) : (∀ v w, wp m v w (λ _ v' _, v' = v)) → steady m.
Proof. intros Hm v w. eapply wp_mono; [apply Hm|]. by intros r v' w' ->. Qed.
Lemma steady_bind {B C} (m : VM B) (k : B → VM C) :
  steady m → (∀ b, steady (k b)) → steady (m ≫= k).
Proof.
  intros Hm Hk v w. apply wp_bind. eapply wp_mono; [apply Hm|].
  intros [b|e|] v' w' Hr; [|done..]. eapply wp_mono; [apply Hk|].
  intros r v2 w2 Hr'. by etrans.
Qed.
Lemma steady_modify f :
  (∀ v, vault_store (f v) = vault_store v ∧ vault_dek (f v) = vault_dek v ∧
        vault_cipher (f v) = vault_cipher v ∧ vault_audit (f v) = vault_audit v) →
  steady (modify f).
Proof.
  intros Hf v w. wp_step. destruct (Hf v) as (? & ? & ? & ?).
  do 3 (split; [done|]). by apply log_grows_same.
Qed.
Lemma steady_audit ev a peer out : steady (audit_event ev a peer out).
Proof.
  intros v w. eapply wp_mono; [apply audit_event_wp|]. intros r v' w' (_ & _ & Hv & Ha).
  do 3 (split; [by rewrite Hv|]). destruct (is_ok r); eexists; [exact Ha|].
  by rewrite Ha, app_nil_r.
Qed.
Lemma steady_audit_best_effort ev a peer out : steady (audit_event_best_effort ev a peer out).
Proof.
  intros v w. eapply wp_mono; [apply audit_event_best_effort_wp|].
  intros r v' w' (_ & _ & Hv & es & Ha & _). do 3 (split; [by rewrite Hv|]). by exists es.
Qed.
Lemma steady_for_each {B} (f : B → VM unit) xs : (∀ x, steady (f x)) → steady (for_each f xs).
Proof.
  intros Hf. induction xs as [|x xs IH]; simpl; [by apply steady_same|]. by apply steady_bind.
Qed.
End steady.

(** Decides what an action leaves alone from how it is put together. *)
Ltac steadily :=
  repeat first
    [ apply steady_audit | apply steady_audit_best_effort
    | apply steady_bind; [|intros ?] | apply steady_for_each; intros ?
    | apply steady_modify; intros []; done
    | apply steady_same; intros ? ?; by wp_steps
    | match goal with |- steady (match ?x with _ => _ end) => destruct x end ].
Ltac vault_steady :=
  unfold cap_check, insert_lease, use_lease, revoke_one, renew_checks, renew_limit_check,
    renew_in_place, new_session, mark_session_revoked, Vault_validate_session,
    Vault_gc_leases, Vault_gc_sessions;
  unfold Lease_new, Lease_validate, Lease_renew, Lease_time_remaining, Session_new,
    Session_time_remaining, Session_is_active, Session_is_expired, LeaseId_new, SessionId_new;
  steadily.

(** ** What the operations do to the secrets *)

Section protocol.
Context {K S A : Type}.
Context `{!Env, !Chrono, !UuidText, !HashIter, !Aead, !EnvLaws, !AeadLaws}.
Context `{!KeySource K, !SecretStore S, !AuditLog A}.
Context `{!KeySourceLaws K, !SecretStoreLaws S, !AuditLogLaws A}.
Variables (alg : Cipher) (dek : DataEncryptionKey) (Stored : SecretName → bytes → Prop).
Abbreviation VM := (M (Vault K S A) Error).
Abbreviation VP := (Prog (Vault K S A) Error VaultLock).
Implicit Types (v : Vault K S A) (w : World) (op : VaultOp).

(** The secret decrypts to something that was stored under the name. *)
Definition genuine (n : SecretName) (x : StoredSecret) : Prop :=
  ∃ raw, Cipher_decrypt alg (sealed_of x) dek = Ok raw ∧ Stored n raw.

Definition secrets_inv v (w : World) : Prop :=
  vault_dek v = Some dek ∧ vault_cipher v = alg ∧ store_inv (vault_store v) ∧
  ∀ n x, store_view (vault_store v) !! n = Some x → genuine n x.

(** A thread is an operation, with the entry of the log it has made last if it is an
    access. *)
Abbreviation Ghost := (VaultOp * option AuditEntry)%type.
Definition secret_move (y : Ghost) v w (y' : Ghost) v' w' : Prop :=
  y'.1 = y.1 ∧ log_grows v v' ∧
  (y'.2 = y.2 ∨ ∃ e, y'.2 = Some e ∧ e ∈ audit_view (vault_audit v')).

Abbreviation sfollows := (follows secrets_inv secret_move).

Lemma secrets_inv_untouched v w v' w' : secrets_inv v w → untouched v v' → secrets_inv v' w'.
Proof.
  intros (Hd & Hc & Hi & Hx) (Hs & Hd' & Hc' & _). unfold secrets_inv.
  by rewrite Hs, Hd', Hc'.
Qed.

(** Programs that keep the invariant, with what they return. *)
Definition keeps {B} (p : VP B) (R : outcome Error B → Prop) : Prop :=
  ∀ y, sfollows y p (λ y' r, y' = y ∧ R r).
Abbreviation calmly p := (keeps p (λ _, True)).

Lemma keeps_action {B} (m : VM B) R :
  (∀ v w, secrets_inv v w → wp m v w (λ r v' w', secrets_inv v' w' ∧ log_grows v v' ∧ R r)) →
  keeps (atomic m) R.
Proof.
  intros Hm y. apply follows_atomic. intros v w Hv. eapply wp_mono; [by apply Hm|].
  intros r v' w' (Hv' & Hl & HR). split; [done|]. exists y. split; [|done].
  split; [done|]. split; [done|]. by left.
Qed.
Lemma keeps_steady {B} (m : VM B) : steady m → calmly (atomic m).
Proof.
  intros Hm. apply keeps_action. intros v w Hv. eapply wp_mono; [apply Hm|].
  intros r v' w' Hu. split; [by eapply secrets_inv_untouched|]. split; [apply Hu|done].
Qed.
Lemma keeps_ret {B} (r : outcome Error B) (R : outcome Error B → Prop) :
  R r → keeps (Ret r) R.
Proof. by intros HR y. Qed.
Lemma keeps_bind {B C} (p : VP B) (k : B → VP C) R :
  keeps p R → (∀ b, R (Ok b) → calmly (k b)) → calmly (p ≫= k).
Proof.
  intros Hp Hk y. eapply follows_bind; [apply Hp|..]; simpl.
  - intros y' b [-> HR]. by apply Hk.
  - by intros y' e [-> _].
  - by intros y' [-> _].
Qed.
Lemma keeps_lock {B} l md (p : VP B) R : keeps p R → keeps (with_lock l md p) R.
Proof. intros Hp y. apply follows_lock, Hp. Qed.
Lemma keeps_fold {B C} (f : C → B → VP C) acc xs :
  (∀ acc b, calmly (f acc b)) → calmly (pfold f acc xs).
Proof.
  intros Hf. revert acc. induction xs as [|x xs IH]; intros acc; simpl.
  - by apply keeps_ret.
  - eapply keeps_bind; [apply Hf|auto].
Qed.

(** *** The calls of the store *)

Lemma keeps_get n : keeps (atomic (on_store (store_get n)))
  (λ r, ∀ x, r = Ok x → genuine n x).
Proof.
  apply keeps_action. intros v w Hv. pose proof Hv as (_ & _ & Hi & Hx).
  eapply wp_mono; [apply on_store_get_wp|]. intros r v' w' (_ & _ & _ & _ & Hinv).
  destruct (Hinv Hi) as (-> & Hr & _). split; [done|]. split; [done|].
  intros x ->. by apply Hx.
Qed.
Lemma keeps_list : calmly (atomic (on_store store_list)).
Proof.
  apply keeps_action. intros v w Hv. pose proof Hv as (Hd & Hc & Hi & Hx).
  unfold on_store. apply wp_zoom. eapply wp_mono; [by apply store_list_spec|].
  intros r s' w' (-> & _). split; [done|]. split; [|done]. by apply log_grows_same.
Qed.
Lemma keeps_delete n : calmly (atomic (on_store (store_delete n))).
Proof.
  apply keeps_action. intros v w Hv. pose proof Hv as (Hd & Hc & Hi & Hx).
  unfold on_store. apply wp_zoom. eapply wp_mono; [by apply store_delete_spec|].
  intros r s' w' (Hi' & Hr & _). split; [|split; [by apply log_grows_same|done]].
  do 3 (split; [done|]). cbn. intros n' x Hl.
  destruct r as [[]|e|]; [|destruct Hr as [Hr _]|done].
  - destruct Hr as [_ Hr]. rewrite Hr in Hl. apply lookup_delete_Some in Hl as [_ Hl]. by apply Hx.
  - rewrite Hr in Hl. by apply Hx.
Qed.
Lemma keeps_put p :
  (∀ x, stored_ciphertext x = params_ciphertext p → stored_nonce x = params_nonce p →
        stored_algorithm x = params_algorithm p → genuine (params_name p) x) →
  calmly (atomic (on_store (store_put p))).
Proof.
  intros Hp. apply keeps_action. intros v w Hv. pose proof Hv as (Hd & Hc & Hi & Hx).
  unfold on_store. apply wp_zoom. eapply wp_mono; [by apply store_put_spec|].
  intros r s' w' (Hi' & Hr & _). split; [|split; [by apply log_grows_same|done]].
  do 3 (split; [done|]). cbn. intros n' x Hl.
  destruct r as [y|e|]; [|destruct Hr as [Hr _]|done].
  - destruct Hr as (_ & Hr & Hn & Hct & Hno & Hal & _). rewrite Hr in Hl.
    apply lookup_insert_Some in Hl as [[<- <-]|[_ Hl]]; [by apply Hp|by apply Hx].
  - rewrite Hr in Hl. by apply Hx.
Qed.

(** *** Sealing and opening *)

Lemma keeps_encrypt p : keeps (atomic (Vault_encrypt p))
  (λ r, ∀ sealed, r = Ok sealed → Cipher_decrypt alg sealed dek = Ok p).
Proof.
  apply keeps_action. intros v w Hv. pose proof Hv as (Hd & Hc & _). unfold Vault_encrypt.
  wp_step. wp_step. rewrite Hd. cbn [ok_or]. wp_step. wp_step. apply run_wp. intros r v' w' Henc.
  destruct (wp_run _ _ _ _ _ _ _ (Cipher_encrypt_wp (vault_cipher v) p dek v w) Henc)
    as (-> & _). split; [done|]. split; [done|]. intros sealed ->.
  by apply (Cipher_encrypt_decrypt _ _ _ _ _ _ _ _ alg Henc).
Qed.
Lemma keeps_decrypt n x : genuine n x →
  keeps (atomic (Vault_decrypt (stored_ciphertext x) (stored_nonce x) (stored_algorithm x)))
  (λ r, ∀ s, r = Ok s → ∃ raw, Stored n raw ∧ from_utf8 raw = Some s).
Proof.
  intros (raw & Hraw & Hst). apply keeps_action. intros v w Hv. pose proof Hv as (Hd & Hc & _).
  eapply wp_mono; [apply Vault_decrypt_wp|]. intros r v' w' (-> & _ & _ & Hr).
  split; [done|]. split; [done|]. intros s Hs.
  apply Hr in Hs as (dek' & raw' & Hd' & Hdec & Hs). exists raw'.
  rewrite Hc in Hdec. unfold sealed_of in Hraw. split; [|done]. congruence.
Qed.

(** *** The operations *)

Lemma keeps_audit ev a peer out : calmly (audit_prog ev a peer out).
Proof. apply keeps_steady, steady_audit. Qed.

Ltac keep_step :=
  first
    [ eapply keeps_bind; [|intros ? _] | apply keeps_lock | apply keeps_fold; intros ? ?
    | by apply keeps_ret | apply keeps_list | apply keeps_delete
    | match goal with |- keeps (match ?c with _ => _ end) _ => destruct c end
    | apply keeps_steady; vault_steady ].
Ltac keeping := repeat keep_step.

Lemma request_lease_keeps a n d peer : calmly (request_lease_prog a n d peer).
Proof.
  unfold request_lease_prog, policy_check, audit_prog.
  eapply keeps_bind; [keeping|intros t _].
  eapply keeps_bind; [keeping|intros _ _].
  eapply keeps_bind; [apply keeps_get|intros x _]. keeping.
Qed.
Lemma store_secret_keeps n p kind desc peer :
  Stored n p → calmly (store_secret_prog n p kind desc peer).
Proof.
  intros Hp. unfold store_secret_prog. eapply keeps_bind; [apply keeps_lock, keeps_encrypt|].
  intros sealed Hs. eapply keeps_bind; [|intros x _; keeping].
  apply keeps_put. intros x Hct Hn Ha. exists p. split; [|done].
  rewrite <-(Hs _ eq_refl). unfold sealed_of. simpl in *. rewrite Hct, Hn, Ha.
  by destruct sealed.
Qed.

(** What was asked to be stored has been stored. *)
Definition stores op : Prop :=
  match op with OpStoreSecret n p _ _ _ => Stored n p | _ => True end.

Lemma op_keeps op :
  keeps_key op = true → (∀ k h p, op ≠ OpAccessSecret k h p) → stores op → calmly (op_prog op).
Proof.
  intros Hk Hna Hs. destruct op; try done; cbn [op_prog];
    try (by edestruct Hna);
    unfold revoke_lease_prog, revoke_all_for_agent_prog, renew_lease_prog, delete_secret_prog,
      create_session_prog, revoke_session_prog, request_lease_scoped_prog, scope_check,
      revoke_loop_prog, revoke_step_prog, audit_prog, audit_best_effort_prog, Vault_list_secrets;
    repeat first [by apply store_secret_keeps | apply request_lease_keeps | keep_step].
Qed.

(** What an access has done when it delivers a secret. *)
Definition delivered (k : LeaseId) (host : string) (g : LeaseGuard) (e : AuditEntry) : Prop :=
  ∃ n raw, entry_event e = EvSecretAccessed k n (DomainScope_new host) ∧ Stored n raw ∧
    guard_lease_id g = k ∧ from_utf8 raw = Some (guard_value g).
Definition reply_post (y : Ghost) (r : outcome Error (option LeaseGuard)) : Prop :=
  match y.1 with
  | OpAccessSecret k host _ =>
    ∀ og, r = Ok og → ∃ g e, og = Some g ∧ y.2 = Some e ∧ delivered k host g e
  | _ => True
  end.

Lemma audit_reply_follows op ev a peer out :
  sfollows (op, None) (audit_prog ev a peer out) (λ y r,
    y.1 = op ∧ (is_ok r = true → ∃ e, y.2 = Some e ∧ entry_event e = ev)).
Proof.
  apply follows_atomic. intros v w Hv.
  eapply wp_mono; [apply (wp_conj _ _ _ _ _ (audit_event_wp ev a peer out v w)
                            (steady_audit ev a peer out v w))|].
  intros r v' w' [(_ & _ & _ & Ha) Hu]. split; [by eapply secrets_inv_untouched|].
  destruct Hu as (_ & _ & _ & Hl). destruct (is_ok r).
  - set (e := mkAuditEntry _ _ ev _ _ _) in Ha. exists (op, Some e). split; [|naive_solver].
    split; [done|]. split; [done|]. right. exists e. split; [done|]. rewrite Ha.
    apply elem_of_app. right. by apply list_elem_of_singleton.
  - exists (op, None). split; [|done]. split; [done|]. split; [done|]. by left.
Qed.

(** A program that keeps the invariant, then one that goes on. *)
Lemma follows_keeps {B C} y (p : VP B) (k : B → VP C) R Q :
  keeps p R → (∀ b, R (Ok b) → sfollows y (k b) Q) → (∀ e, Q y (Err e)) → Q y Panic →
  sfollows y (p ≫= k) Q.
Proof.
  intros Hp Hk He Hpa. eapply follows_bind; [apply Hp|..]; simpl;
    [intros y' b [-> HR]|intros y' e [-> _]|intros y' [-> _]]; auto.
Qed.

Lemma access_reply_follows k host peer :
  let op := OpAccessSecret k host peer in
  sfollows (op, None) (reply_prog op) reply_post.
Proof.
  intros op. cbn [reply_prog op]. unfold reply_post.
  eapply (follows_bind _ _ _ _ _ (λ y r, y.1 = op ∧
    ∀ g, r = Ok g → ∃ e, y.2 = Some e ∧ delivered k host g e)).
  2:{ intros y g [Hy Hg]. simpl. rewrite Hy. intros og [= <-].
      destruct (Hg g eq_refl) as (e & ? & ?). eauto. }
  2:{ intros y e [Hy _]. by rewrite Hy. }
  2:{ intros y [Hy _]. by rewrite Hy. }
  unfold access_secret_prog.
  eapply follows_keeps; [apply keeps_lock; keeping|intros l _|done..]. cbn zeta.
  eapply follows_keeps; [apply keeps_get|intros x Hx|done..]. simpl in Hx.
  eapply follows_keeps; [by apply keeps_lock, (keeps_decrypt (lease_secret_name l)), Hx|intros s Hs|done..].
  destruct (Hs s eq_refl) as (raw & Hst & Hutf).
  eapply follows_bind; [apply audit_reply_follows|..]; simpl; [|naive_solver..].
  intros y [] [-> He]. split; [done|]. intros g [= <-]. destruct (He eq_refl) as (e & Hy & Hev).
  exists e. split; [done|]. by exists (lease_secret_name l), raw.
Qed.

Lemma reply_prog_follows op :
  keeps_key op = true → stores op → sfollows (op, None) (reply_prog op) reply_post.
Proof.
  intros Hk Hs. pose proof (op_keeps op Hk) as Hop.
  destruct op; try apply access_reply_follows; cbn [reply_prog];
    (eapply follows_mono;
      [apply (keeps_bind _ _ _ (Hop ltac:(done) Hs)); intros ? _; by apply keeps_ret|]);
    by intros y r [-> _].
Qed.
End protocol.

(** ** Runs *)

Section runs.
Context {K S A : Type}.
Context `{!Env, !Chrono, !UuidText, !HashIter, !Aead, !EnvLaws, !AeadLaws}.
Context `{!KeySource K, !SecretStore S, !AuditLog A}.
Context `{!KeySourceLaws K, !SecretStoreLaws S, !AuditLogLaws A}.
Abbreviation RPool := (Pool (Vault K S A) Error VaultLock (option LeaseGuard)).
Implicit Types (v : Vault K S A) (w : World) (c : RPool) (ops : list VaultOp).

(** What may be under a name: the secret that was there, or one that a request stores. *)
Definition stored_as v0 (dek : DataEncryptionKey) ops (n : SecretName) (raw : bytes) : Prop :=
  (∃ x, store_view (vault_store v0) !! n = Some x ∧
     Cipher_decrypt (vault_cipher v0) (sealed_of x) dek = Ok raw) ∨
  (∃ kind desc peer, OpStoreSecret n raw kind desc peer ∈ ops).

(** A vault with its key, whose secrets all decrypt. *)
Definition readable v (dek : DataEncryptionKey) : Prop :=
  vault_dek v = Some dek ∧ store_inv (vault_store v) ∧
  ∀ n x, store_view (vault_store v) !! n = Some x →
    ∃ raw, Cipher_decrypt (vault_cipher v) (sealed_of x) dek = Ok raw.

(** All requests [ops], of which none has started. *)
Definition requests_pool v w ops : RPool := mkPool v w (spawn ∘ reply_prog <$> ops).

Section invariant.
Variables (alg : Cipher) (dek : DataEncryptionKey) (Stored : SecretName → bytes → Prop).
Implicit Types (ys : list (VaultOp * option AuditEntry)).

Definition reply_inv ops ys c : Prop :=
  pool_follows (secrets_inv alg dek Stored) secret_move (reply_post Stored) ys c ∧
  ys.*1 = ops ∧
  ∀ y e, y ∈ ys → y.2 = Some e → e ∈ audit_view (vault_audit (pool_state c)).

Lemma secret_moves_logged ys v w ys' v' w' :
  protocol_step secret_move (ys, v, w) (ys', v', w') →
  (∀ y e, y ∈ ys → y.2 = Some e → e ∈ audit_view (vault_audit v)) →
  ys'.*1 = ys.*1 ∧ ∀ y e, y ∈ ys' → y.2 = Some e → e ∈ audit_view (vault_audit v').
Proof.
  intros (i & y & y' & Hi & (Hop & [es Hl] & Hy) & Heq) Hold. cbn [fst snd] in *. subst ys'.
  split.
  - rewrite list_fmap_insert, Hop. apply list_insert_id. by rewrite list_lookup_fmap, Hi.
  - assert (Hgrow : ∀ e, e ∈ audit_view (vault_audit v) → e ∈ audit_view (vault_audit v')).
    { intros e He. rewrite Hl. apply elem_of_app. by left. }
    intros z e Hz He. apply list_elem_of_lookup in Hz as [j Hj].
    apply list_lookup_insert_Some in Hj as [(<- & <- & _)|(_ & Hj)].
    + destruct Hy as [Hy|(e' & Hy & Hin)]; [|congruence]. apply Hgrow, (Hold y); [|congruence].
      by eapply list_elem_of_lookup_2.
    + eapply Hgrow, Hold; [by eapply list_elem_of_lookup_2|done].
Qed.

Lemma reply_inv_step ops ys c c' :
  reply_step c c' → reply_inv ops ys c → ∃ ys', reply_inv ops ys' c'.
Proof.
  intros [c1 Hs|w Hw] (Hf & Hops & Hlog).
  - destruct (pool_step_follows _ _ _ _ _ _ Hs Hf) as (ys' & Hf' & [Heq|Hm]).
    + exists ys'. simplify_eq. split; [done|]. split; [done|].
      by replace (pool_state c1) with (pool_state c).
    + exists ys'. destruct (secret_moves_logged _ _ _ _ _ _ Hm Hlog) as [Hops' Hlog'].
      split; [done|]. split; [congruence|done].
  - exists ys. destruct Hf as [HI Hall]. split; [by split|done].
Qed.

Lemma reply_inv_start v w ops :
  secrets_inv alg dek Stored v w → Forall (λ op, keeps_key op = true ∧ stores Stored op) ops →
  reply_inv ops ((λ op, (op, None)) <$> ops) (requests_pool v w ops).
Proof.
  intros Hv Hops. split; [split; [done|]|split].
  - cbn [pool_threads requests_pool]. induction Hops as [|op ops [Hk Hs] _ IH]; [constructor|].
    rewrite !fmap_cons. constructor; [by apply reply_prog_follows|done].
  - rewrite <-list_fmap_compose. apply list_fmap_id.
  - intros y e (op & -> & _)%list_elem_of_fmap. done.
Qed.

Lemma reply_inv_result ops ys c i k host peer og :
  reply_inv ops ys c → ops !! i = Some (OpAccessSecret k host peer) →
  result i c = Some (Ok og) →
  ∃ g e, og = Some g ∧ e ∈ audit_view (vault_audit (pool_state c)) ∧
    delivered Stored k host g e.
Proof.
  intros ([_ Hall] & <- & Hlog) Hop Hres. unfold result in Hres.
  apply bind_Some in Hres as (t & Ht & Hr).
  apply list_lookup_fmap_Some in Hop as ([op' x] & Heq & Hy). simpl in Heq. subst op'.
  pose proof (Forall2_lookup_lr _ _ _ _ _ _ Hall Hy Ht) as Hf. cbn beta in Hf.
  destruct (prog t); simplify_eq/=. destruct (Hf og eq_refl) as (g & e & -> & He & Hd).
  exists g, e. split; [done|]. split; [|done].
  eapply Hlog; [by eapply list_elem_of_lookup_2|done].
Qed.
End invariant.

(** What holds at every moment of every run of [ops]. *)
Lemma replies_invariant v0 w0 dek ops c :
  readable v0 dek → Forall (λ op, keeps_key op = true) ops →
  rtc reply_step (requests_pool v0 w0 ops) c →
  ∃ ys, reply_inv (vault_cipher v0) dek (stored_as v0 dek ops) ops ys c.
Proof.
  intros (Hd & Hi & Hx) Hops Hrun.
  refine (rtc_ind_r (λ c, ∃ ys, reply_inv _ _ _ ops ys c) _ _ _ _ Hrun).
  - eexists. apply reply_inv_start.
    + do 3 (split; [done|]). intros n x Hn. destruct (Hx n x Hn) as [raw Hraw].
      exists raw. split; [done|]. left. eauto.
    + rewrite Forall_forall in Hops |- *. intros op Hop. split; [by apply Hops|].
      destruct op; try done. right. eauto.
  - intros c1 c2 _ Hs [ys Hys]. by eapply reply_inv_step.
Qed.

(** C21. Secrets under concurrency. Requests that store, lease, read, delete and list
    secrets, and everything else but the replacement of the key, run at the same time, in
    any interleaving. At every moment the key is the same and every secret in the store
    decrypts under it to what was in the store under that name, or to what one of the
    requests stores under it; and an access that has succeeded has delivered such a
    plaintext of the very secret that its entry in the audit log names. *)
Theorem conc_secrets_intact v0 w0 dek ops c :
  readable v0 dek → Forall (λ op, keeps_key op = true) ops →
  rtc reply_step (requests_pool v0 w0 ops) c →
  vault_dek (pool_state c) = Some dek ∧ store_inv (vault_store (pool_state c)) ∧
  (∀ n x, store_view (vault_store (pool_state c)) !! n = Some x → ∃ raw,
     Cipher_decrypt (vault_cipher (pool_state c)) (sealed_of x) dek = Ok raw ∧
     stored_as v0 dek ops n raw) ∧
  (∀ i k host peer og, ops !! i = Some (OpAccessSecret k host peer) →
     result i c = Some (Ok og) → ∃ g e n raw, og = Some g ∧
     e ∈ audit_view (vault_audit (pool_state c)) ∧
     entry_event e = EvSecretAccessed k n (DomainScope_new host) ∧
     stored_as v0 dek ops n raw ∧ guard_lease_id g = k ∧ from_utf8 raw = Some (guard_value g)).
Proof.
  intros Hv Hops Hrun. destruct (replies_invariant _ _ _ _ _ Hv Hops Hrun) as (ys & Hys).
  pose proof Hys as (((Hd & Hc & Hi & Hx) & _) & _). split; [done|]. split; [done|]. split.
  - intros n x Hn. rewrite Hc. by apply Hx.
  - intros i k host peer og Hop Hres.
    destruct (reply_inv_result _ _ _ _ _ _ _ _ _ _ _ Hys Hop Hres)
      as (g & e & -> & Hin & n & raw & Hev & Hst & Hk & Hutf).
    by exists g, e, n, raw.
Qed.
End runs.

(** ** Witness *)

Import DemoInstances.

(** While an access reads the secret, it is deleted, and stored again with another value. *)
Definition secrets_race : list VaultOp :=
  [OpAccessSecret demo_lease "api.example.com" demo_peer; OpDeleteSecret demo_secret demo_peer;
   OpStoreSecret demo_secret (as_bytes "new") Pat None demo_peer].
Definition secrets_schedule : list nat :=
  [0; 0; 0; 0; 2; 2; 2; 1; 1; 1; 1; 1; 1; 1; 2; 0; 0; 0; 0; 2]%nat.
Definition secrets_race_pool : Pool DemoVault Error VaultLock (option LeaseGuard) :=
  requests_pool (demo_after ops_leased).1 (demo_after ops_leased).2 secrets_race.

Lemma demo_readable : ∃ dek, readable (demo_after ops_leased).1 dek.
Proof.
  assert (∃ dek, vault_dek (demo_after ops_leased).1 = Some dek ∧
    ∀ x, store_view (vault_store (demo_after ops_leased).1) !! demo_secret = Some x →
      Cipher_decrypt (vault_cipher (demo_after ops_leased).1) (sealed_of x) dek =
        Ok (as_bytes "s3cret")) as (dek & Hd & Hx).
  { eexists. split; [vm_compute; reflexivity|]. intros x Hx. vm_compute in Hx.
    injection Hx as <-. vm_compute. reflexivity. }
  assert (vault_store (demo_after ops_leased).1 = vault_store (demo_after ops_stored).1) as Hs
    by (vm_compute; reflexivity).
  exists dek. split; [done|]. split; [rewrite Hs; apply demo_store_inv|].
  intros n x Hn. destruct (decide (n = demo_secret)) as [->|Hne]; [by eauto|].
  assert (∃ y, store_view (vault_store (demo_after ops_leased).1) = {[ demo_secret := y ]})
    as [y Hy] by (eexists; vm_compute; reflexivity).
  rewrite Hy in Hn. apply lookup_singleton_Some in Hn as [Heq _]. congruence.
Qed.

Lemma conc_secrets_intact_witness :
  ∃ c, run_schedule secrets_schedule secrets_race_pool = Some c ∧
    result 0 c = Some (Ok (Some (LeaseGuard_new demo_lease "s3cret"))) ∧
    result 1 c = Some (Ok None) ∧ result 2 c = Some (Ok None) ∧
    ∃ dek, vault_dek (pool_state c) = Some dek ∧
      ∀ n x, store_view (vault_store (pool_state c)) !! n = Some x → ∃ raw,
        Cipher_decrypt (vault_cipher (pool_state c)) (sealed_of x) dek = Ok raw ∧
        stored_as (demo_after ops_leased).1 dek secrets_race n raw.
Proof.
  assert (∃ c, run_schedule secrets_schedule secrets_race_pool = Some c ∧
    result 0 c = Some (Ok (Some (LeaseGuard_new demo_lease "s3cret"))) ∧
    result 1 c = Some (Ok None) ∧ result 2 c = Some (Ok None)) as (c & Hrun & H0 & H1 & H2).
  { eexists. split; [vm_compute; reflexivity|]. vm_compute. auto. }
  exists c. do 4 (split; [done|]). destruct demo_readable as [dek Hr].
  assert (Hsteps : rtc reply_step secrets_race_pool c).
  { eapply (rtc_subrel pool_step); [intros a b Hab; by apply rs_step|].
    by eapply run_schedule_steps. }
  destruct (conc_secrets_intact _ _ dek secrets_race c Hr ltac:(by repeat constructor) Hsteps)
    as (Hd & _ & Hx & _).
  exists dek. split; [exact Hd|exact Hx].
Defined.
