(* ===== verification/VaultAws.v ===== *)
(** Key rotation on the AWS Secrets Manager store.

    [batch_update] of that store is not atomic; its comments rely on a failed rotation being
    safe to retry. The vault below shows what happens to the secrets. *)
From S2P Require Import Prelude Text Concrete Types Lease Policy Session Store AwsStore.
From S2P Require Import Crypto KeySource Auth AuditEvents Vault VaultProps Demo.
Import DemoInstances DemoAws.

Local Open Scope string_scope.
Local Open Scope Z_scope.
Local Open Scope list_scope.

(** Two secrets in Secrets Manager, and a service that fails at its [k]-th call. *)
Section demo.
Context (k : nat).
#[local] Instance faulty_Env : Env := {|
  clock := clock (Env := demo_Env);
  now_v7 := now_v7 (Env := demo_Env);
  os_rng := os_rng (Env := demo_Env);
  io_fault := λ i, if decide (i = k) then Some "throttled" else None
|}.

Definition aws_vault : Vault (KmsSource (list (string * bytes))) (AwsSecretsManagerStore SmContents)
    (list AuditEntry) :=
  Vault_new demo_key_source (AwsStore_new ∅ "zerolease") [] demo_policy Aes256Gcm.
Definition secret_b : SecretName := SecretName_new "npm".
Definition ops_two_leased : list VaultOp :=
  [OpInitialize;
   OpStoreSecret demo_secret (as_bytes "s3cret") Pat None demo_peer;
   OpStoreSecret secret_b (as_bytes "t0ken") Pat None demo_peer;
   OpRequestLease demo_agent demo_secret demo_scope demo_peer;
   OpRequestLease demo_agent secret_b demo_scope demo_peer].
Definition aws_after ops := exec (aws_vault, demo_world) ops.
Definition aws_access ops id :=
  (Vault_access_secret id "api.example.com" demo_peer (aws_after ops).1 (aws_after ops).2).1.1.
Definition aws_rotate ops :=
  is_ok (Vault_rotate_dek demo_peer (aws_after ops).1 (aws_after ops).2).1.1.
End demo.

Definition lease_a : LeaseId := LeaseId_from_uuid 4.
Definition lease_b : LeaseId := LeaseId_from_uuid 6.
Definition ops_rotated : list VaultOp := ops_two_leased ++ [OpRotateDek demo_peer].

(** A failed rotation on the Secrets Manager store loses secrets. With two secrets that
    both can be read, let the service fail once, at the second write of a rotation: the
    rotation reports an error and the vault keeps its old key, but the secret that was
    already written can no longer be decrypted, and the next two retries of the rotation fail
    because of it, although the service works again. *)
Theorem aws_rotation_not_retriable :
  let k := 11%nat in
  aws_access k ops_two_leased lease_a = Ok (LeaseGuard_new lease_a "s3cret") ∧
  aws_access k ops_two_leased lease_b = Ok (LeaseGuard_new lease_b "t0ken") ∧
  aws_rotate k ops_two_leased = false ∧
  vault_dek (aws_after k ops_rotated).1 = vault_dek (aws_after k ops_two_leased).1 ∧
  (aws_access k ops_rotated lease_a = Err DecryptionFailed ∨
   aws_access k ops_rotated lease_b = Err DecryptionFailed) ∧
  aws_rotate k ops_rotated = false ∧
  aws_rotate k (ops_rotated ++ [OpRotateDek demo_peer]) = false.
Proof. vm_compute. split_and!; auto. Qed.
