(* ===== verification/VaultGc.v ===== *)
(** Garbage collection of leases: [Vault::gc_leases]. *)
From S2P Require Import Prelude Text Concrete Types Lease Policy Session Store.
From S2P Require Import Crypto KeySource Auth AuditEvents Vault VaultInv VaultSpec VaultProps.
From S2P Require Import RusqliteStore Demo.

Local Open Scope string_scope.
Local Open Scope Z_scope.
Local Open Scope list_scope.

Section gc.
Context {K S A : Type}.
Context `{!Env, !Chrono, !UuidText, !HashIter, !Aead}.
Context `{!KeySource K, !SecretStore S, !AuditLog A}.
Implicit Types (v : Vault K S A) (w : World).

(** The test of [retain] at clock reading [j]. *)
Definition kept_at (l : Lease) (j : nat) : Prop :=
  0 < td_num_seconds (lease_expires_at l - clock j).

(** What happened to an entry that has been visited between [w0] and [w]. *)
Definition gc_visited (m : gmap LeaseId Lease) w0 w (kl : LeaseId * Lease) : Prop :=
  (lease_revoked kl.2 = true ∧ m !! kl.1 = None) ∨
  (lease_revoked kl.2 = false ∧ ∃ j, (w_clock w0 ≤ j < w_clock w)%nat ∧
     ((kept_at kl.2 j ∧ m !! kl.1 = Some kl.2) ∨ (¬ kept_at kl.2 j ∧ m !! kl.1 = None))).

Definition gc_inv v0 w0 (xs : list (LeaseId * Lease)) v w : Prop :=
  ∃ visited, hash_iter (vault_leases v0) = visited ++ xs ∧
    v = set_leases (vault_leases v) v0 ∧ world_le w0 w ∧
    (∀ k, k ∉ visited.*1 → vault_leases v !! k = vault_leases v0 !! k) ∧
    Forall (gc_visited (vault_leases v) w0 w) visited.

Lemma gc_visited_step m m' w0 w w' k l visited :
  k ∉ visited.*1 → (w_clock w ≤ w_clock w')%nat →
  (∀ k', k' ≠ k → m' !! k' = m !! k') →
  gc_visited m' w0 w' (k, l) →
  Forall (gc_visited m w0 w) visited →
  Forall (gc_visited m' w0 w') (visited ++ [(k, l)]).
Proof.
  intros Hk Hw Hm Hl Hall. apply Forall_app. split; [|by apply Forall_singleton].
  apply Forall_forall. intros [k' l'] Hin. rewrite Forall_forall in Hall.
  assert (k' ≠ k).
  { intros ->. apply Hk. by apply (list_elem_of_fmap_2 fst _ (k, l')). }
  destruct (Hall _ Hin) as [[Hr Hn]|(Hr & j & Hj & Hc)]; unfold gc_visited;
    cbn [fst snd] in *; rewrite Hm by done; [by left|].
  right. split; [done|]. exists j. split; [lia|done].
Qed.

Lemma gc_step_wp v0 w0 kl xs v w :
  gc_inv v0 w0 (kl :: xs) v w →
  wp (keep ← (if negb (lease_revoked kl.2)
              then d ← Lease_time_remaining kl.2; mret (0 <? td_num_seconds d)
              else mret false);
      if (keep : bool) then mret tt
      else modify (λ v, set_leases (delete kl.1 (vault_leases v)) v)) v w (λ r v' w',
    r = Ok tt ∧ gc_inv v0 w0 xs v' w').
Proof.
  destruct kl as [k l]. intros (visited & Hit & Hv & Hw & Hun & Hvis). cbn [fst snd].
  assert (Hk : vault_leases v0 !! k = Some l).
  { apply elem_of_hash_iter. rewrite Hit. apply elem_of_app. right.
    apply list_elem_of_here. }
  assert (Hnew : k ∉ visited.*1).
  { pose proof (hash_iter_NoDup (vault_leases v0)) as Hnd. rewrite Hit, fmap_app in Hnd.
    apply NoDup_app in Hnd as (_ & Hnd & _). intros Hin. apply (Hnd k Hin).
    rewrite fmap_cons. apply list_elem_of_here. }
  assert (Hit' : hash_iter (vault_leases v0) = (visited ++ [(k, l)]) ++ xs)
    by (by rewrite <-app_assoc).
  assert (Hdrop : ∀ w', world_le w w' →
    gc_visited (delete k (vault_leases v)) w0 w' (k, l) →
    gc_inv v0 w0 xs (set_leases (delete k (vault_leases v)) v) w').
  { intros w' Hw' Hl. exists (visited ++ [(k, l)]). split; [done|].
    split; [by rewrite Hv|]. split; [by etrans|]. cbn [vault_leases set_leases]. split.
    - intros k' Hk'. rewrite fmap_app, not_elem_of_app in Hk'. destruct Hk' as [Hv1 Hv2].
      rewrite lookup_delete_ne; [by apply Hun|]. intros ->. apply Hv2.
      by apply list_elem_of_singleton.
    - apply (gc_visited_step (vault_leases v) _ w0 w); [done|by destruct Hw'| |done|done].
      intros k' Hne. by rewrite lookup_delete_ne. }
  unfold Lease_time_remaining. destruct (lease_revoked l) eqn:Hrev; cbn [negb].
  - wp_steps. split; [done|]. apply Hdrop; [done|]. left. cbn. by rewrite lookup_delete_eq.
  - do 6 wp_step.
    destruct (Z.ltb_spec 0 (td_num_seconds (lease_expires_at l - clock (w_clock w))))
      as [Hkeep|Hgone]; wp_step; (split; [done|]).
    + exists (visited ++ [(k, l)]). split; [done|]. split; [done|].
      split; [solve_world|]. split.
      * intros k' Hk'. rewrite fmap_app, not_elem_of_app in Hk'.
        by apply Hun; destruct Hk'.
      * eapply gc_visited_step; [done| |done| |done]; [simpl; lia|]. right. cbn.
        split; [done|]. exists (w_clock w). split; [split; [by destruct Hw|lia]|].
        left. split; [done|]. rewrite <-Hk. by apply Hun.
    + apply Hdrop; [solve_world|]. right. cbn. split; [done|]. exists (w_clock w).
      split; [split; [by destruct Hw|lia]|]. right.
      split; [by apply Z.le_ngt|by rewrite lookup_delete_eq].
Qed.

Lemma Vault_gc_leases_wp v w :
  wp Vault_gc_leases v w (λ r v' w',
    r = Ok (Z.of_nat (size (vault_leases v)) - Z.of_nat (size (vault_leases v'))) ∧
    v' = set_leases (vault_leases v') v ∧ world_le w w' ∧
    ∀ k, match vault_leases v !! k with
         | Some l => gc_visited (vault_leases v') w w' (k, l)
         | None => vault_leases v' !! k = None
         end).
Proof.
  unfold Vault_gc_leases. do 3 wp_step.
  apply wp_for_each with (I := gc_inv v w).
  - exists []. split; [done|]. split; [by destruct v|]. split; [reflexivity|].
    split; [done|constructor].
  - intros kl xs v1 w1 HI. eapply wp_mono; [by apply gc_step_wp|].
    intros r v2 w2 [-> HI2]. done.
  - intros v1 w1 (visited & Hit & Hv & Hw & Hun & Hvis). rewrite app_nil_r in Hit.
    wp_steps. split; [done|]. split; [done|]. split; [done|]. intros k.
    destruct (vault_leases v !! k) as [l|] eqn:Hk.
    + rewrite Forall_forall in Hvis. apply Hvis. rewrite <-Hit. by apply elem_of_hash_iter.
    + rewrite Hun; [done|]. intros ([k' l] & Hkk & Hin)%list_elem_of_fmap. simpl in Hkk.
      subst k'. rewrite <-Hit in Hin. apply elem_of_hash_iter in Hin. congruence.
Qed.

(** [gc_leases] keeps and drops by whole seconds. It never adds or alters a lease; it
    drops every revoked lease and every lease with less than a whole second left when
    it starts, keeps every unrevoked lease with at least one second left when it ends,
    and returns the number dropped. *)
Theorem gc_leases_spec `{!MonotoneClock, !ChronoLaws} v w r v' w' :
  Vault_gc_leases v w = (r, v', w') →
  vault_leases v' ⊆ vault_leases v ∧
  r = Ok (Z.of_nat (size (vault_leases v)) - Z.of_nat (size (vault_leases v'))) ∧
  ∀ k l, vault_leases v !! k = Some l →
    (lease_revoked l = true ∨ lease_expires_at l - clock (w_clock w) < NANOS →
       vault_leases v' !! k = None) ∧
    (lease_revoked l = false ∧ NANOS ≤ lease_expires_at l - clock (w_clock w') →
       vault_leases v' !! k = Some l).
Proof.
  intros Hrun. destruct (wp_run _ _ _ _ _ _ _ (Vault_gc_leases_wp v w) Hrun)
    as (Hr & _ & Hw & Hgc).
  assert (Hone : ∀ l j, kept_at l j ↔ NANOS ≤ lease_expires_at l - clock j).
  { intros l j. unfold kept_at. rewrite td_num_seconds_spec. unfold NANOS.
    set (z := lease_expires_at l - clock j).
    clearbody z. Z.to_euclidean_division_equations. lia. }
  split; [|split; [done|]].
  - apply map_subseteq_spec. intros k l Hl. specialize (Hgc k).
    destruct (vault_leases v !! k) as [l0|]; [|congruence].
    destruct Hgc as [[_ Hn]|(_ & j & _ & [[_ Hk]|[_ Hn]])]; cbn in *; congruence.
  - intros k l Hk. specialize (Hgc k). rewrite Hk in Hgc. split.
    + intros Hor. destruct Hgc as [[_ Hn]|(Hrev & j & Hj & [[Hkept _]|[_ Hn]])];
        cbn in *; [done| |done].
      apply Hone in Hkept. pose proof (clock_mono (w_clock w) j ltac:(lia)).
      destruct Hor; [congruence|lia].
    + intros [Hrev Hexp]. destruct Hgc as [[Hrev' _]|(_ & j & Hj & [[_ Hs]|[Hno _]])];
        cbn in *; [congruence|done|].
      destruct Hno. apply Hone. pose proof (clock_mono j (w_clock w') ltac:(lia)). lia.
Qed.
End gc.

(** ** Witness and consequences on the demo vault *)

Import DemoInstances.

Lemma gc_leases_spec_witness :
  ∃ v' w',
    demo_run (ops_leased ++ [OpRevokeLease demo_lease AdminRevoked demo_peer]) Vault_gc_leases
      = (Ok 1, v', w') ∧
    vault_leases v' !! demo_lease = None.
Proof.
  assert (∃ v' w', demo_run (ops_leased ++ [OpRevokeLease demo_lease AdminRevoked demo_peer])
    Vault_gc_leases = (Ok 1, v', w')) as (v' & w' & Hrun) by demo_runs.
  exists v', w'. split; [exact Hrun|].
  destruct (gc_leases_spec _ _ _ _ _ Hrun) as (_ & _ & Hgc).
  apply (Hgc demo_lease (Lease_revoke demo_lease_value)); [vm_compute; reflexivity|].
  left. reflexivity.
Defined.

(** Lease slots of a session are not given back. A session with one slot whose only
    lease has been revoked and collected, so that the vault holds no lease at all, still
    refuses the next lease with [SessionLeaseLimitReached]. *)
Theorem session_slots_not_released :
  let freed := demo_after (ops_scoped ++
    [OpRevokeLease demo_scoped_lease AdminRevoked demo_peer; OpGcLeases]) in
  vault_leases freed.1 = ∅ ∧
  (Vault_validate_session demo_token freed.1 freed.2).1.1 = Ok demo_session_value ∧
  (Vault_request_lease_scoped demo_agent demo_secret demo_scope demo_peer demo_token "git"
     freed.1 freed.2).1.1 = Err (SessionLeaseLimitReached (SessionId_from_uuid 2) 1).
Proof. vm_compute. auto. Qed.

(** The renewal cap of a session ends with the session's entry. A lease granted under a
    cap of one renewal is refused its second renewal while the session is known; once the
    session has expired and has been collected, the lease is renewed again. *)
Theorem renewal_cap_lost_with_session :
  let renewed := ops_scoped ++ [OpRenewLease demo_scoped_lease 86400 demo_peer] in
  let c := demo_after renewed in
  let late := mkWorld 4000 (w_uuid c.2) (w_rng c.2) (w_io c.2) in
  let collected := exec (c.1, late) [OpGcSessions] in
  (Vault_renew_lease demo_scoped_lease 60 demo_peer c.1 c.2).1.1 =
    Err (RenewalLimitReached demo_scoped_lease 1) ∧
  vault_sessions collected.1 = ∅ ∧
  is_ok (Vault_renew_lease demo_scoped_lease 60 demo_peer collected.1 collected.2).1.1 = true.
Proof.
  cbv zeta. split; [vm_compute; reflexivity|]. split; [vm_compute; reflexivity|].
  vm_compute. reflexivity.
Qed.
