(* ===== verification/VaultTheorems.v ===== *)
(** The properties of the vault: authorisation, revocation, caps, budgets, audit. *)
From S2P Require Import Prelude Text Concrete Types Lease Policy Session Store.
From S2P Require Import Crypto KeySource Auth AuditEvents Vault VaultInv VaultSpec VaultProps.
From S2P Require Import RusqliteStore Threads VaultThreads VaultLocks Demo.

Local Open Scope string_scope.
Local Open Scope Z_scope.
Local Open Scope list_scope.

Section theorems.
Context {K S A : Type}.
Context `{!Env, !Chrono, !UuidText, !HashIter, !Aead}.
Context `{!KeySource K, !SecretStore S, !AuditLog A}.
Context `{!KeySourceLaws K, !SecretStoreLaws S, !AuditLogLaws A}.
Implicit Types (v : Vault K S A) (w : World).

(** C1. End-to-end authorisation. Whatever happened to the vault before, if
    [access_secret] hands out a value then the presented lease exists, is not revoked,
    not expired at the instant it is checked and not used up; the policy grants the
    lease's agent that secret for the very host that was asked for; the value is the
    decryption of the secret the store holds under that name; and the access has been
    appended to the audit log under the lease's agent. *)
Theorem access_within_policy v w k host peer g v' w' :
  reachable v w →
  Vault_access_secret k host peer v w = (Ok g, v', w') →
  ∃ l t x,
    vault_leases v !! k = Some l ∧
    lease_live_for l (clock (w_clock w)) host ∧
    PolicyEngine_evaluate (vault_policy v) (lease_agent l) (lease_secret_name l)
      (DomainScope_new host) = Ok t ∧
    guard_lease_id g = k ∧ decrypts_to v x (guard_value g) ∧
    (store_inv (vault_store v) →
       store_view (vault_store v) !! lease_secret_name l = Some x) ∧
    logged v v' (is_entry (EvSecretAccessed k (lease_secret_name l)
                             (DomainScope_new host)) (lease_agent l) Success peer).
Proof.
  intros Hreach Hrun.
  destruct (wp_run _ _ _ _ _ _ _ (Vault_access_secret_wp k host peer v w) Hrun)
    as (_ & _ & _ & _ & l & l' & x & Hk & Hlive & _ & _ & Hg & Hlog & Hdec & Hx).
  destruct (reachable_inv _ _ Hreach) as [_ Hinv].
  destruct (Hinv k l Hk) as (_ & _ & (d & t & Hpol & Hdom & _) & _).
  pose proof Hlive as (_ & _ & _ & d' & Hin & Hd'). rewrite Hdom in Hin.
  apply list_elem_of_singleton in Hin as ->.
  destruct (PolicyEngine_evaluate_host _ _ _ _ _ _ Hpol Hd') as [t' Ht'].
  exists l, t', x. done.
Qed.

(** C6. [request_lease], branch by branch. A grant means that the policy allowed the
    request with some terms and that the agent held fewer than the maximum number of
    unrevoked leases; the lease table gains exactly the lease behind the grant, which
    has a fresh identifier, covers exactly the requested scope with the terms' budget
    and expiry, and is logged. An error or a panic leaves the lease table as it was,
    and a denial by policy is reported as such only once it is in the audit log. *)
Theorem request_lease_spec v w agent n d peer r v' w' :
  Vault_request_lease agent n d peer v w = (r, v', w') →
  match r with
  | Ok g => ∃ t l,
      PolicyEngine_evaluate (vault_policy v) agent n d = Ok t ∧
      (active_count agent (vault_leases v) < vault_max_leases_per_agent v)%nat ∧
      issued v w w' agent n d t l ∧ g = LeaseGrant_from l ∧
      vault_leases v' = <[lease_id l := l]> (vault_leases v) ∧
      vault_sessions v' = vault_sessions v ∧
      logged v v' (is_entry (lease_granted_event l n d t) agent Success peer)
  | Err e =>
      vault_leases v' = vault_leases v ∧ vault_sessions v' = vault_sessions v ∧
      (PolicyEngine_evaluate (vault_policy v) agent n d = Err (AccessDenied agent n d) →
       e = AccessDenied agent n d ∧
         logged v v' (is_entry (EvAccessDenied n d (Error_to_string e)) agent
                        (Denied (Error_to_string e)) peer) ∨
       not_logged v v')
  | Panic => vault_leases v' = vault_leases v ∧ vault_sessions v' = vault_sessions v
  end.
Proof.
  intros Hrun.
  destruct (wp_run _ _ _ _ _ _ _ (Vault_request_lease_wp agent n d peer v w) Hrun)
    as (_ & _ & _ & Hr). destruct r as [g|e|].
  - destruct Hr as (t & l & Hpol & Hcap & Hiss & Hg & Hfr & Hlog). exists t, l.
    do 4 (split; [done|]). by rewrite Hfr at 1 2.
  - destruct Hr as [Hfr Hlog]. split; [by rewrite Hfr|]. split; [by rewrite Hfr|].
    intros Hpol. destruct Hlog as [(t & Ht & _)|(_ & Hlog)]; [congruence|done].
  - split; by rewrite Hr.
Qed.

(** No sequence of operations lets an agent hold more unrevoked leases than the cap
    the vault was built with. *)
Theorem lease_cap_invariant v w agent :
  reachable v w →
  (active_count agent (vault_leases v) ≤ vault_max_leases_per_agent v)%nat.
Proof. intros Hr. by apply (reachable_inv _ _ Hr). Qed.

(** Revocation is permanent. After [revoke_lease] of an existing lease, even if its
    audit entry could not be written, no later sequence of operations makes the lease
    usable or renewable again: identifiers are never reused. *)
Theorem revocation_permanent `{!EnvLaws} v w k l reason peer r v' w' :
  reachable v w → vault_leases v !! k = Some l →
  Vault_revoke_lease k reason peer v w = (r, v', w') →
  useless_forever k v' w'.
Proof.
  intros Hreach Hk Hrun. apply dead_useless_forever.
  destruct (wp_run _ _ _ _ _ _ _ (Vault_revoke_lease_wp k reason peer v w) Hrun)
    as (_ & Hw & _ & _ & Hr). rewrite Hk in Hr. destruct Hr as [Hfr _].
  destruct (reachable_inv _ _ Hreach) as [_ Hinv].
  destruct (Hinv k l Hk) as (_ & Hdr & _). split; [by eapply drawn_le|].
  intros l0. cbn [fst]. rewrite (frame_leases_eq _ _ _ Hfr), lookup_insert_eq.
  by intros [= <-].
Qed.

(** [revoke_all_for_agent] always succeeds, returns the number of leases it revoked,
    leaves the agent without an active lease and its leases useless for good, and does
    not touch a lease of any other agent. *)
Theorem revoke_all_for_agent_spec `{!EnvLaws} v w agent peer r v' w' :
  reachable v w →
  Vault_revoke_all_for_agent agent peer v w = (r, v', w') →
  r = Ok (Z.of_nat (active_count agent (vault_leases v))) ∧
  active_count agent (vault_leases v') = O ∧
  ∀ k l, vault_leases v !! k = Some l →
    if decide (lease_agent l = agent) then useless_forever k v' w'
    else vault_leases v' !! k = Some l.
Proof.
  intros Hreach Hrun.
  destruct (wp_run _ _ _ _ _ _ _ (revoke_loop_wp _ _ _ _ v w) Hrun)
    as (-> & Hv & _ & (_ & _ & _ & _ & Hls)).
  assert (Hm : vault_leases v' =
    revoke_if (λ l, bool_decide (lease_agent l = agent)) <$> vault_leases v) by (by rewrite Hv).
  split; [by rewrite to_revoke_agent, iter_Z_succ|].
  split; [by rewrite Hm, revoke_if_agent_inactive|].
  intros k l Hk. case_decide as Ha.
  - apply dead_useless_forever. eapply revoke_if_dead; [done| |done|done|].
    + exact (lsteps_world _ _ _ _ Hls).
    + by apply bool_decide_eq_true.
  - rewrite Hm, lookup_fmap, Hk. simpl. unfold revoke_if. by rewrite bool_decide_false.
Qed.

(** C19. Deleting a secret kills its leases first. Whether or not the store or the audit
    log fail, every lease of that secret is useless from then on, all other leases are
    untouched, and a successful deletion removes exactly that secret from the store. *)
Theorem delete_secret_spec `{!EnvLaws} v w n peer r v' w' :
  reachable v w →
  Vault_delete_secret n peer v w = (r, v', w') →
  (∀ k l, vault_leases v !! k = Some l →
     if decide (lease_secret_name l = n) then useless_forever k v' w'
     else vault_leases v' !! k = Some l) ∧
  (store_inv (vault_store v) →
     store_inv (vault_store v') ∧
     (r = Ok tt → store_view (vault_store v') = delete n (store_view (vault_store v))) ∧
     ∀ n', n' ≠ n →
       store_view (vault_store v') !! n' = store_view (vault_store v) !! n').
Proof.
  intros Hreach Hrun.
  destruct (wp_run _ _ _ _ _ _ _ (Vault_delete_secret_wp n peer v w) Hrun)
    as ((_ & _ & _ & _ & Hls) & _ & Hm & _ & _ & Hst). split.
  - intros k l Hk. case_decide as Hn.
    + apply dead_useless_forever. eapply revoke_if_dead; [done| |done|done|].
      * exact (lsteps_world _ _ _ _ Hls).
      * by apply bool_decide_eq_true.
    + rewrite Hm, lookup_fmap, Hk. simpl. unfold revoke_if. by rewrite bool_decide_false.
  - intros Hi. destruct (Hst Hi) as (Hi' & Hok & Hview). split; [done|]. split; [done|].
    intros n' Hne. destruct Hview as [->| ->]; [done|]. by rewrite lookup_delete_ne.
Qed.

(** The operations that write the session table; the others write at most the leases and
    the key. *)
Definition session_op (op : VaultOp) : bool :=
  match op with
  | OpCreateSession _ _ _ _ | OpRevokeSession _ _ | OpRequestLeaseScoped _ _ _ _ _ _
  | OpGcSessions => true
  | _ => false
  end.
Lemma run_op_sessions op v w :
  session_op op = false → wp (run_op op) v w (λ _ v' _, vault_sessions v' = vault_sessions v).
Proof.
  intros Hop. assert (Hr : respecting [(LLeases, Exclusive); (LDek, Exclusive)]
    (run_op op : M (Vault K S A) Error _)).
  { destruct op; try discriminate; cbn [run_op];
      unfold Vault_initialize, Vault_request_lease, Vault_access_secret, Vault_revoke_lease,
        Vault_revoke_all_for_agent, Vault_store_secret, Vault_renew_lease, Vault_delete_secret,
        Vault_rotate_dek, reencrypt, revoke_loop; vault_respecting. }
  eapply wp_mono; [apply Hr|]. intros r v' w' Hres. apply (Hres LSessions). set_solver.
Qed.

(** A token that nobody can use any more: its session is revoked, or has been collected. *)
Definition spent t v : Prop :=
  match vault_sessions v !! t with Some s => session_revoked s = true | None => True end.

Lemma spent_gc t v w :
  spent t v → wp (Vault_gc_sessions : M (Vault K S A) Error _) v w (λ _ v' _, spent t v').
Proof.
  intros Hs. unfold Vault_gc_sessions. wp_step. wp_step. wp_step.
  apply (wp_for_each _ _ (λ _ v' _, spent t v')); [done| |intros v1 w1 Hv; by do 3 wp_step].
  intros [t' s'] rest v1 w1 Hv. unfold Session_is_active, Session_is_expired. cbn [snd fst].
  wp_steps; try done; unfold spent in *; cbn [vault_sessions set_sessions];
    destruct (decide (t' = t)) as [->|Hne];
    (rewrite lookup_delete_eq || rewrite lookup_delete_ne by done); done.
Qed.

Lemma spent_create t u c p peer v w :
  spent t v → wp (Vault_create_session u c p peer) v w (λ _ v' w',
    (∀ i, (w_rng w ≤ i < w_rng w')%nat → os_rng i 16 ≠ SessionToken_bytes t) → spent t v').
Proof.
  intros Hs. unfold Vault_create_session, Session_new, SessionId_new, Session_time_remaining,
    Session_is_expired.
  assert (Hput : ∀ b s1, b ≠ SessionToken_bytes t →
    spent t (set_sessions (<[SessionToken_from_bytes b := s1]> (vault_sessions v)) v)).
  { intros b s1 Hb. unfold spent in *. cbn [vault_sessions set_sessions].
    rewrite lookup_insert_ne; [done|]. intros Ht. apply Hb. by rewrite <-Ht. }
  repeat lazymatch goal with
  | |- wp (audit_event _ _ _ _) _ _ _ => fail
  | |- wp _ _ _ _ => wp_step
  end; try done.
  match goal with |- wp (audit_event ?ev ?a ?p ?o) ?v1 ?w1 _ =>
    assert (Hr : respecting [] (audit_event ev a p o : M (Vault K S A) Error _))
      by vault_respecting;
    pose proof (wp_conj _ _ _ _ _ (evolving_audit_event ev a p o v1 w1) (Hr v1 w1)) as Hw end.
  eapply wp_mono; [exact Hw|]. cbn beta.
  intros r v1 w1 [(_ & _ & _ & _ & Hl) Hres]. apply lsteps_world in Hl.
  destruct Hl as (_ & _ & Hrng & _). simpl in Hrng.
  assert (Hend : (∀ i, (w_rng w ≤ i < w_rng w1)%nat → os_rng i 16 ≠ SessionToken_bytes t) →
    spent t v1).
  { intros Hno. unfold spent. specialize (Hres LSessions ltac:(set_solver)).
    unfold same in Hres. simpl in Hres. rewrite Hres. apply Hput, Hno. simpl. lia. }
  destruct r as [[]|e|]; [wp_step|..]; exact Hend.
Qed.

Lemma spent_run_op t op v w r v' w' :
  spent t v → run_op op v w = (r, v', w') →
  (∀ i, (w_rng w ≤ i < w_rng w')%nat → os_rng i 16 ≠ SessionToken_bytes t) → spent t v'.
Proof.
  intros Hs Hrun Hno. destruct (session_op op) eqn:Hop.
  2: { pose proof (wp_run _ _ _ _ _ _ _ (run_op_sessions op v w Hop) Hrun) as Heq.
       unfold spent. by rewrite Heq. }
  refine (wp_run _ _ _ (λ _ v' w', (∀ i, (w_rng w ≤ i < w_rng w')%nat →
    os_rng i 16 ≠ SessionToken_bytes t) → spent t v') _ _ _ _ Hrun Hno). clear Hrun Hno r v' w'.
  destruct op as [| | | | | | | | | | |u c p pr| |token pr|ag n d pr token tool|]; try discriminate;
    cbn [run_op]; try wp_step.
  - eapply wp_mono; [by apply spent_create|]. intros [x|e|] v1 w1 Hv; [wp_step|..]; exact Hv.
  - wp_call Vault_revoke_session_wp. intros r v1 w1 (_ & _ & Hr) _. unfold spent in *.
    destruct (vault_sessions v !! token) as [s|] eqn:Ht; [|destruct Hr as (_ & ->); done].
    destruct Hr as [_ ->]. destruct (decide (token = t)) as [->|Hne];
      [by rewrite lookup_insert_eq|by rewrite lookup_insert_ne].
  - wp_call Vault_request_lease_scoped_wp. intros r v1 w1 Hr.
    assert (Hend : spent t v1).
    { destruct r as [g|e|]; [|destruct Hr as [_ Hr]; unfold spent; by rewrite Hr..].
      destruct Hr as (s & l & terms & w2 & Ht & Hrev & Hr). unfold spent in *.
      destruct Hr as (_ & _ & _ & _ & _ & _ & _ & _ & ->).
      destruct (decide (token = t)) as [->|Hne]; [by rewrite Ht, Hrev in Hs|].
      by rewrite lookup_insert_ne. }
    destruct r; [wp_step|..]; intros _; exact Hend.
  - eapply wp_mono; [by apply spent_gc|]. intros [x|e|] v1 w1 Hv; [wp_step|..]; by intros _.
Qed.
Lemma spent_steps t c c' :
  rtc vstep c c' → spent t c.1 →
  (∀ i, (w_rng c.2 ≤ i < w_rng c'.2)%nat → os_rng i 16 ≠ SessionToken_bytes t) → spent t c'.1.
Proof.
  induction 1 as [c|c1 c2 c3 Hstep Hsteps IH]; [done|]. intros Hs Hno.
  assert (Hle : world_le c1.2 c2.2).
  { destruct Hstep as [|op v w r v' w' Hrun]; [done|].
    pose proof (wp_run _ _ _ _ _ _ _ (evolving_run_op op v w) Hrun) as (_ & _ & _ & _ & Hl).
    exact (lsteps_world _ _ _ _ Hl). }
  assert (Hle' : world_le c2.2 c3.2).
  { destruct c2, c3. by apply vsteps_evolves in Hsteps as (_ & _ & _ & _ & Hl%lsteps_world). }
  destruct Hle as (_ & _ & Hle & _), Hle' as (_ & _ & Hle' & _).
  apply IH; [|intros i Hi; apply Hno; lia].
  destruct Hstep as [|op v w r v' w' Hrun]; [done|]. simpl in *.
  eapply spent_run_op; [done..|]. intros i Hi. apply Hno. lia.
Qed.

Lemma spent_refused t v : spent t v →
  (∀ w, ∃ e w', Vault_validate_session t v w = (Err e, v, w') ∧
     (e = SessionNotFound ∨ ∃ sid, e = SessionRevoked sid)) ∧
  (∀ w agent n d peer tool, ∃ e w',
     Vault_request_lease_scoped agent n d peer t tool v w = (Err e, v, w') ∧
     (e = SessionNotFound ∨ ∃ sid, e = SessionRevoked sid)).
Proof.
  unfold spent. intros Hs. split; intros;
    unfold Vault_validate_session, Vault_request_lease_scoped, read, mbind, M_bind;
    destruct (vault_sessions v !! t) as [s|]; simpl; try rewrite Hs; eauto 10.
Qed.

(** C26. Revoking a session cascades, and is final. Whatever the audit log answers, every
    lease of the session is useless from then on, and the leases of other sessions and
    without a session are untouched. The session's token is refused from then on: after any
    later history of operations, as long as no random draw of that history repeats the
    token's sixteen bytes, [validate_session] and [request_lease_scoped], whoever asks, fail
    with [SessionRevoked], or with [SessionNotFound] once the session was collected, and
    change nothing; right after the revocation with [SessionRevoked]. *)
Theorem revoke_session_cascade `{!EnvLaws} v w t s peer r v' w' :
  reachable v w → vault_sessions v !! t = Some s →
  Vault_revoke_session t peer v w = (r, v', w') →
  (∀ k l, vault_leases v !! k = Some l →
     if decide (lease_session_id l = Some (session_id s)) then useless_forever k v' w'
     else vault_leases v' !! k = Some l) ∧
  (∀ w2, ∃ w3, Vault_validate_session t v' w2 = (Err (SessionRevoked (session_id s)), v', w3)) ∧
  (∀ vn wn, rtc vstep (v', w') (vn, wn) →
     (∀ i, (w_rng w' ≤ i < w_rng wn)%nat → os_rng i 16 ≠ SessionToken_bytes t) →
     (∀ w2, ∃ e w3, Vault_validate_session t vn w2 = (Err e, vn, w3) ∧
        (e = SessionNotFound ∨ ∃ sid, e = SessionRevoked sid)) ∧
     (∀ w2 agent n d peer' tool, ∃ e w3,
        Vault_request_lease_scoped agent n d peer' t tool vn w2 = (Err e, vn, w3) ∧
        (e = SessionNotFound ∨ ∃ sid, e = SessionRevoked sid))).
Proof.
  intros Hreach Hs Hrun.
  destruct (wp_run _ _ _ _ _ _ _ (Vault_revoke_session_wp t peer v w) Hrun)
    as ((_ & _ & _ & _ & Hls) & _ & Hr). rewrite Hs in Hr. destruct Hr as [Hm Hss].
  assert (Ht : vault_sessions v' !! t = Some (Session_revoke s))
    by (by rewrite Hss, lookup_insert_eq).
  split; [|split].
  - intros k l Hk. case_decide as Hn.
    + apply dead_useless_forever. eapply revoke_if_dead; [done| |done|done|].
      * exact (lsteps_world _ _ _ _ Hls).
      * by apply bool_decide_eq_true.
    + rewrite Hm, lookup_fmap, Hk. simpl. unfold revoke_if. by rewrite bool_decide_false.
  - intros w2. unfold Vault_validate_session, read, mbind, M_bind. rewrite Ht. by eexists.
  - intros vn wn Hsteps Hno. apply spent_refused.
    apply (spent_steps t (v', w') (vn, wn) Hsteps); [|done]. unfold spent. simpl. by rewrite Ht.
Qed.

(** The use budget holds over every history. From any reachable vault, whatever
    operations follow and in whatever order, the number of successful accesses through
    a lease with a budget of [m] uses is at most what is left of it. *)
Theorem use_budget_over_history `{!EnvLaws} v w k l m ops :
  reachable v w → PolicyEngine_wf LeaseTerms_wf (vault_policy v) →
  vault_leases v !! k = Some l → lease_max_uses l = Some m →
  Z.of_nat (accesses k ops v w) ≤ m - lease_use_count l.
Proof.
  intros Hreach Hpol Hk Hm. destruct (reachable_inv _ _ Hreach) as [_ Hinv].
  destruct (Hinv k l Hk) as (_ & Hdr & _ & Hwf).
  destruct (Hwf Hpol) as (Hc & _ & Hb). destruct (Hb m Hm).
  apply accesses_at_most; [lia|]. split; [done|]. intros l0. cbn [fst].
  rewrite Hk. intros [= <-]. exists m. split; [done|]. lia.
Qed.

(** The audit log is append-only: whatever the vault does, the entries recorded so
    far stay, in order, at the front of the log; and no operation ever changes the
    policy, the cipher or the lease cap. *)
Theorem audit_append_only v w v' w' :
  rtc vstep (v, w) (v', w') →
  audit_view (vault_audit v) `prefix_of` audit_view (vault_audit v') ∧
  vault_policy v' = vault_policy v ∧ vault_cipher v' = vault_cipher v ∧
  vault_max_leases_per_agent v' = vault_max_leases_per_agent v.
Proof. intros (? & ? & ? & [es He] & _)%vsteps_evolves. split; [by exists es|done]. Qed.

Lemma renewal_limit_None l (m : gmap SessionToken Session) :
  renewal_limit l m = None ↔
  ∀ sid s, lease_session_id l = Some sid → find_session sid m = Some s →
    lease_renewal_count l < max_renewals_per_lease (session_policy s).
Proof.
  unfold renewal_limit. destruct (lease_session_id l) as [sid|]; [|naive_solver].
  destruct (find_session sid m) as [s|] eqn:Hs; [|naive_solver].
  destruct (Z.leb_spec (max_renewals_per_lease (session_policy s)) (lease_renewal_count l));
    split; try done; try naive_solver.
  intros Hlt. specialize (Hlt sid s eq_refl Hs). lia.
Qed.

(** C35. [renew_lease] succeeds only for 1 to 86400 seconds, on a lease that has not
    expired, is not revoked and is renewable, and whose session, when it has one that
    the vault still knows (it may have been collected), allows more renewals than the lease
    has had. The renewed lease expires that many seconds after a clock reading of the call
    and counts one renewal more (modulo 2^32); every other field of it is as before, and so
    is every other lease. With another number of seconds the call fails and leaves the table
    as it was. *)
Theorem renew_lease_bounds `{!ChronoLaws} v w k secs peer r v' w' :
  Vault_renew_lease k secs peer v w = (r, v', w') →
  (∀ g, r = Ok g → ∃ l,
     let l' := set_renewal (clock (w_clock (tick_clock w)) + secs * NANOS)
                 (u32_add (lease_renewal_count l) 1) l in
     vault_leases v !! k = Some l ∧ vault_leases v' = <[k := l']> (vault_leases v) ∧
     g = LeaseGrant_from l' ∧
     1 ≤ secs ≤ 86400 ∧ clock (w_clock w) ≤ lease_expires_at l ∧
     lease_revoked l = false ∧ lease_renewable l = true ∧
     (∀ sid s, lease_session_id l = Some sid → find_session sid (vault_sessions v) = Some s →
        lease_renewal_count l < max_renewals_per_lease (session_policy s))) ∧
  (secs ≤ 0 ∨ 86400 < secs → ¬ is_ok r ∧ vault_leases v' = vault_leases v).
Proof.
  intros Hrun.
  destruct (wp_run _ _ _ _ _ _ _ (Vault_renew_lease_wp k secs peer v w) Hrun)
    as (_ & _ & _ & Hr). split.
  - intros g ->. destruct Hr as (l & l' & Hren & -> & Hfr & _).
    destruct Hren as (Hk & Hexp & Hsecs & Hlim & Hrev & Hrn & ext & t & Hext & Ht & ->).
    unfold MAX_EXTENSION_SECS in Hsecs. rewrite td_seconds_spec in Hext by lia.
    injection Hext as <-. apply dt_add_spec in Ht as ->. rewrite renewal_limit_None in Hlim.
    exists l. cbv zeta. split; [done|]. split; [exact (frame_leases_eq _ _ _ Hfr)|]. done.
  - intros Hbad.
    assert (Hno : ∀ l l', ¬ renewed v w k secs l l').
    { intros l l' (_ & _ & Hsecs & _). unfold MAX_EXTENSION_SECS in Hsecs. lia. }
    destruct r as [g|e|].
    + destruct Hr as (l & l' & Hren & _). by destruct (Hno l l').
    + destruct Hr as [_ [Hfr|(l & l' & Hren & _)]]; [|by destruct (Hno l l')].
      split; [by intros []|exact (frame_leases_eq _ _ _ Hfr)].
    + destruct Hr as [_ [Hfr|(l & l' & Hren & _)]]; [|by destruct (Hno l l')].
      split; [by intros []|exact (frame_leases_eq _ _ _ Hfr)].
Qed.

(** C27. A session-scoped lease is granted only through a live session whose bindings
    cover the tool, the secret and the domain and whose lease counter is below its
    limit, and only if the policy allows the agent too; the lease is linked to the
    session and the counter goes up by one. Every other outcome leaves both tables as
    they were. *)
Theorem scoped_lease_spec v w agent n d peer t tool r v' w' :
  Vault_request_lease_scoped agent n d peer t tool v w = (r, v', w') →
  match r with
  | Ok g => ∃ s l,
      vault_sessions v !! t = Some s ∧ session_revoked s = false ∧
      clock (w_clock w) ≤ session_expires_at s ∧
      (∃ b, b ∈ tool_bindings (session_policy s) ∧ binding_covers b tool n d) ∧
      session_active_lease_count s < max_concurrent_leases (session_policy s) ∧
      (∃ terms, PolicyEngine_evaluate (vault_policy v) agent n d = Ok terms) ∧
      g = LeaseGrant_from l ∧ lease_agent l = agent ∧ lease_secret_name l = n ∧
      lease_allowed_domains l = [d] ∧
      vault_leases v' = <[lease_id l := set_lease_session (Some (session_id s)) l]>
                          (vault_leases v) ∧
      vault_sessions v' =
        <[t := set_active_lease_count (u32_add (session_active_lease_count s) 1) s]>
          (vault_sessions v)
  | _ => vault_leases v' = vault_leases v ∧ vault_sessions v' = vault_sessions v
  end.
Proof.
  intros Hrun.
  pose proof (wp_run _ _ _ _ _ _ _
    (Vault_request_lease_scoped_wp agent n d peer t tool v w) Hrun) as Hr.
  destruct r as [g| |]; [|done..].
  destruct Hr as (s & l & terms & w1 & Hs & Hrev & Hexp & Hb & Hlim & Hpol & _ & Hiss & Hg
    & Hl & Hss).
  destruct Hiss as ((_ & Hdom & _) & Ha & Hn & _). exists s, l.
  do 3 (split; [done|]). split.
  { unfold Session_check_tool_binding in Hb.
    destruct (check_bindings_spec (tool_bindings (session_policy s)) tool n d)
      as [[_ Hex]|[Hno _]]; [done|congruence]. }
  split; [done|]. split; [eauto|]. done.
Qed.
End theorems.

(** ** Witnesses *)

Import DemoInstances.

Lemma access_within_policy_witness :
  ∃ g v' w',
    demo_run ops_leased (Vault_access_secret demo_lease "api.example.com" demo_peer)
      = (Ok g, v', w') ∧
    ∃ l t x, vault_leases (demo_after ops_leased).1 !! demo_lease = Some l ∧
      PolicyEngine_evaluate demo_policy (lease_agent l) (lease_secret_name l)
        (DomainScope_new "api.example.com") = Ok t ∧
      decrypts_to (demo_after ops_leased).1 x (guard_value g).
Proof.
  assert (∃ g v' w', demo_run ops_leased
    (Vault_access_secret demo_lease "api.example.com" demo_peer) = (Ok g, v', w'))
    as (g & v' & w' & Hrun) by demo_runs.
  exists g, v', w'. split; [exact Hrun|].
  destruct (access_within_policy _ _ _ _ _ _ _ _ (demo_after_reachable ops_leased) Hrun)
    as (l & t & x & Hl & _ & Hp & _ & Hd & _).
  exists l, t, x. split; [exact Hl|]. split; [exact Hp|exact Hd].
Defined.

Lemma request_lease_spec_witness :
  ∃ g v' w',
    demo_run ops_stored (Vault_request_lease demo_agent demo_secret demo_scope demo_peer)
      = (Ok g, v', w') ∧
    ∃ l, vault_leases v' = <[lease_id l := l]> (vault_leases (demo_after ops_stored).1).
Proof.
  assert (∃ g v' w', demo_run ops_stored
    (Vault_request_lease demo_agent demo_secret demo_scope demo_peer) = (Ok g, v', w'))
    as (g & v' & w' & Hrun) by demo_runs.
  exists g, v', w'. split; [exact Hrun|].
  destruct (request_lease_spec _ _ _ _ _ _ _ _ _ Hrun) as (t & l & _ & _ & _ & _ & Hl & _).
  exists l. exact Hl.
Defined.

Lemma lease_cap_invariant_witness :
  (active_count demo_agent (vault_leases (demo_after ops_leased).1) ≤ 100)%nat.
Proof. exact (lease_cap_invariant _ _ demo_agent (demo_after_reachable ops_leased)). Defined.

Lemma revocation_permanent_witness :
  ∃ v' w',
    demo_run ops_leased (Vault_revoke_lease demo_lease AdminRevoked demo_peer)
      = (Ok tt, v', w') ∧
    useless_forever demo_lease v' w'.
Proof.
  assert (∃ v' w', demo_run ops_leased
    (Vault_revoke_lease demo_lease AdminRevoked demo_peer) = (Ok tt, v', w'))
    as (v' & w' & Hrun) by demo_runs.
  exists v', w'. split; [exact Hrun|].
  exact (revocation_permanent _ _ _ _ _ _ _ _ _ (demo_after_reachable ops_leased)
    demo_leased Hrun).
Defined.

Lemma revoke_all_for_agent_spec_witness :
  ∃ v' w',
    demo_run ops_leased (Vault_revoke_all_for_agent demo_agent demo_peer) = (Ok 1, v', w') ∧
    active_count demo_agent (vault_leases v') = O.
Proof.
  assert (∃ v' w', demo_run ops_leased
    (Vault_revoke_all_for_agent demo_agent demo_peer) = (Ok 1, v', w'))
    as (v' & w' & Hrun) by demo_runs.
  exists v', w'. split; [exact Hrun|].
  exact (proj1 (proj2 (revoke_all_for_agent_spec _ _ _ _ _ _ _
    (demo_after_reachable ops_leased) Hrun))).
Defined.

Lemma delete_secret_spec_witness :
  ∃ v' w',
    demo_run ops_leased (Vault_delete_secret demo_secret demo_peer) = (Ok tt, v', w') ∧
    useless_forever demo_lease v' w'.
Proof.
  assert (∃ v' w', demo_run ops_leased
    (Vault_delete_secret demo_secret demo_peer) = (Ok tt, v', w'))
    as (v' & w' & Hrun) by demo_runs.
  exists v', w'. split; [exact Hrun|].
  pose proof (proj1 (delete_secret_spec _ _ _ _ _ _ _
    (demo_after_reachable ops_leased) Hrun) _ _ demo_leased) as Hu.
  rewrite decide_True in Hu by reflexivity. exact Hu.
Defined.

(** Another session is opened and the revoked one is collected before its token is tried. *)
Definition ops_after_revocation : list VaultOp :=
  [OpCreateSession "mallory" "chat" demo_session_policy demo_peer; OpGcSessions].

Lemma revoke_session_cascade_witness :
  ∃ v' w',
    demo_run ops_scoped (Vault_revoke_session demo_token demo_peer) = (Ok tt, v', w') ∧
    useless_forever demo_scoped_lease v' w' ∧
    let c := exec (v', w') ops_after_revocation in
    ∃ e w3, Vault_validate_session demo_token c.1 c.2 = (Err e, c.1, w3) ∧
      (e = SessionNotFound ∨ ∃ sid, e = SessionRevoked sid).
Proof.
  assert (∃ v' w', demo_run ops_scoped
    (Vault_revoke_session demo_token demo_peer) = (Ok tt, v', w'))
    as (v' & w' & Hrun) by demo_runs.
  exists v', w'. split; [exact Hrun|].
  destruct (revoke_session_cascade _ _ _ _ _ _ _ _
    (demo_after_reachable ops_scoped) demo_session_open Hrun) as (Hl & _ & Hlater).
  split.
  - specialize (Hl _ _ demo_scoped_leased). rewrite decide_True in Hl by reflexivity. exact Hl.
  - intros c. assert (Hst : rtc vstep (v', w') (c.1, c.2))
      by (rewrite <-surjective_pairing; apply exec_steps).
    destruct (Hlater c.1 c.2 Hst) as [Hv _]; [|exact (Hv c.2)].
    set (run := demo_run ops_scoped (Vault_revoke_session demo_token demo_peer)) in Hrun.
    assert (Hw1 : w_rng run.2 = 3%nat) by (vm_compute; reflexivity).
    assert (Hw2 : w_rng (exec (run.1.2, run.2) ops_after_revocation).2 = 4%nat)
      by (vm_compute; reflexivity).
    rewrite Hrun in Hw1, Hw2. cbn [fst snd] in Hw1, Hw2. unfold c. rewrite Hw1, Hw2.
    intros i Hi. replace i with 3%nat by lia. vm_compute. discriminate.
Defined.

Lemma use_budget_over_history_witness :
  Z.of_nat (accesses demo_lease
    (replicate 5 (OpAccessSecret demo_lease "api.example.com" demo_peer))
    (demo_after ops_leased).1 (demo_after ops_leased).2) ≤ 2.
Proof.
  assert (vault_policy (demo_after ops_leased).1 = demo_policy) as Hp
    by (vm_compute; reflexivity).
  assert (PolicyEngine_wf LeaseTerms_wf (vault_policy (demo_after ops_leased).1)) as Hwf.
  { rewrite Hp. split.
    - intros m [= <-]. unfold U32_MAX. lia.
    - intros g t ->%list_elem_of_singleton. done. }
  exact (use_budget_over_history _ _ _ _ _
           (replicate 5 (OpAccessSecret demo_lease "api.example.com" demo_peer))
           (demo_after_reachable ops_leased) Hwf demo_leased eq_refl).
Defined.

Lemma audit_append_only_witness :
  audit_view (vault_audit (demo_after ops_stored).1) `prefix_of`
    audit_view (vault_audit (demo_after ops_leased).1).
Proof.
  apply (audit_append_only (demo_after ops_stored).1 (demo_after ops_stored).2
           (demo_after ops_leased).1 (demo_after ops_leased).2).
  exact (exec_steps [OpRequestLease demo_agent demo_secret demo_scope demo_peer]
           (demo_after ops_stored)).
Defined.

Lemma renew_lease_bounds_witness :
  ∃ g v' w',
    demo_run ops_leased (Vault_renew_lease demo_lease 60 demo_peer) = (Ok g, v', w') ∧
    ∃ l', vault_leases v' = <[demo_lease := l']> (vault_leases (demo_after ops_leased).1) ∧
      lease_renewal_count l' = 1.
Proof.
  assert (∃ g v' w', demo_run ops_leased
    (Vault_renew_lease demo_lease 60 demo_peer) = (Ok g, v', w'))
    as (g & v' & w' & Hrun) by demo_runs.
  exists g, v', w'. split; [exact Hrun|].
  destruct (proj1 (renew_lease_bounds _ _ _ _ _ _ _ _ Hrun) g eq_refl) as (l & Hl & Hv & _).
  eexists. split; [exact Hv|]. rewrite demo_leased in Hl. by injection Hl as <-.
Defined.

Lemma scoped_lease_spec_witness :
  ∃ g v' w',
    demo_run ops_session (Vault_request_lease_scoped demo_agent demo_secret demo_scope
      demo_peer demo_token "git") = (Ok g, v', w') ∧
    ∃ s, vault_sessions (demo_after ops_session).1 !! demo_token = Some s ∧
      session_revoked s = false.
Proof.
  assert (∃ g v' w', demo_run ops_session (Vault_request_lease_scoped demo_agent demo_secret
      demo_scope demo_peer demo_token "git") = (Ok g, v', w'))
    as (g & v' & w' & Hrun) by demo_runs.
  exists g, v', w'. split; [exact Hrun|].
  destruct (scoped_lease_spec _ _ _ _ _ _ _ _ _ _ _ Hrun) as (s & l & Hs & Hr & _).
  exists s. split; [exact Hs|exact Hr].
Defined.
