(* ===== verification/VaultRaces.v ===== *)
(** Runs of the vault in which two operations race, evaluated on the demo vault.

    The guards of [src/vault.rs] do not span whole operations; these runs show what may
    happen between them. They are also the runs the properties of the concurrent vault are
    applied to. *)
From S2P Require Import Prelude Threads Text Concrete Types Lease Policy Session.
From S2P Require Import Store RusqliteStore Crypto KeySource Auth AuditEvents Vault VaultProps.
From S2P Require Import VaultThreads VaultConc Demo.
Import DemoInstances.

Local Open Scope string_scope.
Local Open Scope list_scope.

Abbreviation DemoPool := (Pool DemoVault Error VaultLock unit).

(** A new vault with a cap of [max] leases, before anything has arrived. *)
Definition demo_start (max : nat) : DemoPool :=
  mkPool (Vault_with_max_leases_per_agent demo_vault max) demo_world [].
(** The pool after a script, when the locks allow it. *)
Definition demo_script (max : nat) (evs : list Event) : option DemoPool :=
  run_events 3 evs (demo_start max).
Definition demo_pool (max : nat) (evs : list Event) : DemoPool :=
  default (demo_start max) (demo_script max evs).

Definition played {B} (o : option B) : bool := match o with Some _ => true | None => false end.
Lemma demo_pool_run max evs :
  played (demo_script max evs) = true →
  conc_run 3 (Vault_with_max_leases_per_agent demo_vault max) demo_world (arrivals evs)
    (demo_pool max evs).
Proof.
  unfold demo_pool. destruct (demo_script max evs) as [c|] eqn:Hc; [intros _|done]. split.
  - by exists demo_key_source, (mkRusqliteStore []), [], demo_policy, Aes256Gcm, max.
  - by apply run_events_conc.
Qed.
Lemma demo_pool_conc max evs evs' :
  played (demo_script max (evs ++ evs')) = true →
  conc 3 (demo_pool max evs) (arrivals evs') (demo_pool max (evs ++ evs')).
Proof.
  unfold demo_pool, demo_script. rewrite run_events_app.
  destruct (run_events 3 evs (demo_start max)) as [c|]; simpl; [|done].
  destruct (run_events 3 evs' c) as [c'|] eqn:Hc; simpl; [intros _|done].
  by apply run_events_conc.
Qed.

(** The requests of the scripts. *)
Definition demo_store : VaultOp :=
  OpStoreSecret demo_secret (as_bytes "s3cret") Pat None demo_peer.
Definition demo_request : VaultOp := OpRequestLease demo_agent demo_secret demo_scope demo_peer.
Definition demo_access (k : LeaseId) : VaultOp := OpAccessSecret k "api.example.com" demo_peer.
(** The vault is initialised and the secret stored, one after the other. *)
Definition script_stored : list Event :=
  [Arrive OpInitialize; Run 0 4; Arrive demo_store; Run 1 5].
Definition script_leased : list Event := script_stored ++ [Arrive demo_request; Run 2 12].

(** Three requests of an agent whose cap is one lease pass the check before any of them has
    entered its lease, and all are granted. *)
Definition script_cap_race : list Event :=
  script_stored ++ [Arrive demo_request; Arrive demo_request; Arrive demo_request;
                    Run 2 6; Run 3 6; Run 4 12; Run 3 6; Run 2 6].
Theorem cap_race :
  (λ c, ([result 2 c; result 3 c; result 4 c],
         active_count demo_agent (vault_leases (pool_state c)),
         vault_max_leases_per_agent (pool_state c))) <$> demo_script 1 script_cap_race =
  Some (replicate 3 (Some (Ok tt)), 3%nat, 1%nat).
Proof. vm_compute. reflexivity. Qed.

(** The results of all operations, in the order of their arrival. *)
Definition demo_outcomes (c : DemoPool) : list (option (outcome Error unit)) :=
  (λ i, result i c) <$> seq 0 (length (pool_threads c)).

(** A secret is encrypted under the old key, the key is rotated, and the secret is stored.
    Both operations succeed, and the secret cannot be read. *)
Definition script_rotate_race : list Event :=
  [Arrive OpInitialize; Run 0 4; Arrive demo_store; Arrive (OpRotateDek demo_peer); Run 1 3;
   Run 2 11; Run 1 2; Arrive demo_request; Run 3 12;
   Arrive (demo_access (LeaseId_from_uuid 3)); Run 4 7].
Theorem rotate_race :
  demo_outcomes <$> demo_script 5 script_rotate_race =
  Some [Some (Ok tt); Some (Ok tt); Some (Ok tt); Some (Ok tt); Some (Err DecryptionFailed)].
Proof. vm_compute. reflexivity. Qed.

(** A scoped request has checked its session when the session is revoked; its lease is
    linked to the revoked session, stays active, and reads the secret. *)
Definition script_session_race : list Event :=
  script_stored ++
  [Arrive (OpCreateSession "alice" "tui" demo_session_policy demo_peer); Run 2 5;
   Arrive (OpRequestLeaseScoped demo_agent demo_secret demo_scope demo_peer demo_token "git");
   Run 3 3; Arrive (OpRevokeSession demo_token demo_peer); Run 4 7; Run 3 18;
   Arrive (demo_access (LeaseId_from_uuid 5)); Run 5 8].
Theorem session_race :
  (λ c, (demo_outcomes c,
         session_revoked <$> vault_sessions (pool_state c) !! demo_token,
         lease_session_id <$> vault_leases (pool_state c) !! LeaseId_from_uuid 5,
         lease_revoked <$> vault_leases (pool_state c) !! LeaseId_from_uuid 5)) <$>
    demo_script 5 script_session_race =
  Some (replicate 6 (Some (Ok tt)), Some true, Some (Some (SessionId_from_uuid 2)), Some false).
Proof. vm_compute. reflexivity. Qed.

(** A request has found its secret when the secret is deleted with all its leases; its lease
    is entered afterwards, and reads a later secret of the same name. *)
Definition script_delete_race : list Event :=
  script_stored ++
  [Arrive demo_request; Run 2 7; Arrive (OpDeleteSecret demo_secret demo_peer); Run 3 5;
   Run 2 5; Arrive demo_store; Run 4 5; Arrive (demo_access (LeaseId_from_uuid 3)); Run 5 8].
Theorem delete_race :
  demo_outcomes <$> demo_script 5 script_delete_race = Some (replicate 6 (Some (Ok tt))).
Proof. vm_compute. reflexivity. Qed.

(** A request has passed its checks when all leases of its agent are revoked; its lease is
    entered afterwards, and reads the secret. *)
Definition script_revoke_all_race : list Event :=
  script_stored ++
  [Arrive demo_request; Run 2 7; Arrive (OpRevokeAllForAgent demo_agent demo_peer); Run 3 3;
   Run 2 5; Arrive (demo_access (LeaseId_from_uuid 2)); Run 4 8].
Theorem revoke_all_race :
  (λ c, (demo_outcomes c, active_count demo_agent (vault_leases (pool_state c)))) <$>
    demo_script 5 script_revoke_all_race =
  Some (replicate 5 (Some (Ok tt)), 1%nat).
Proof. vm_compute. reflexivity. Qed.
