(* ===== verification/VaultConcTheorems.v ===== *)
(** The properties of the vault under concurrent operations. *)
From S2P Require Import Prelude Threads Fifo Text Concrete Types Lease Policy Session.
From S2P Require Import Store Crypto KeySource Auth AuditEvents Vault VaultInv VaultSpec.
From S2P Require Import VaultProps VaultThreads VaultLocks VaultMoves VaultConc.
From S2P Require Import RusqliteStore Demo VaultRaces.

Local Open Scope string_scope.
Local Open Scope Z_scope.
Local Open Scope list_scope.

Section theorems.
Context {K S A : Type}.
Context `{!Env, !Chrono, !UuidText, !HashIter, !Aead, !EnvLaws}.
Context `{!KeySource K, !SecretStore S, !AuditLog A}.
Context `{!KeySourceLaws K, !SecretStoreLaws S, !AuditLogLaws A}.
Implicit Types (v : Vault K S A) (w : World) (ops : list VaultOp).
Implicit Types (c : Pool (Vault K S A) Error VaultLock unit).

(** C12. Revocation is final under concurrency. Once a lease is revoked in the table,
    whatever operations are under way or arrive, and however their steps interleave, the
    lease never becomes active again, and no access or renewal through it that arrives
    from then on succeeds. *)
Theorem conc_revocation_final N v0 w0 ops0 c k l ops c' :
  conc_run N v0 w0 ops0 c → vault_leases (pool_state c) !! k = Some l →
  lease_revoked l = true → conc N c ops c' →
  (∀ l', vault_leases (pool_state c') !! k = Some l' → lease_revoked l' = true) ∧
  ∀ i op r, ops !! i = Some op → through k op = true →
    result (length ops0 + i) c' = Some r → is_ok r = false.
Proof.
  intros Hrun Hk Hrev Hc. destruct (revoked_final _ _ _ _ _ _ _ _ _ Hrun Hk Hrev Hc) as [Hd Hr].
  split; [exact (proj2 Hd)|done].
Qed.

(** C13. The use budget holds under concurrency. Of the accesses through a lease that arrive
    after some point, however they interleave with each other and with everything else, at
    most as many succeed as the lease had uses left at that point. *)
Theorem conc_use_budget N v0 w0 ops0 c k l mx ops c' :
  conc_run N v0 w0 ops0 c → PolicyEngine_wf LeaseTerms_wf (vault_policy v0) →
  vault_leases (pool_state c) !! k = Some l → lease_max_uses l = Some mx →
  conc N c ops c' → Z.of_nat (successes k (length ops0) ops c') ≤ mx - lease_use_count l.
Proof. apply budget_spent. Qed.

(** Accesses through [k] for [host]. *)
Definition access_op (k : LeaseId) (host : string) (op : VaultOp) : bool :=
  match op with OpAccessSecret k' host' _ => bool_decide (k' = k ∧ host' = host) | _ => false end.

(** C14. Access control and audit under concurrency. Take any point of a run, and what happens
    from then on. For every access that arrives then and has succeeded, there is a moment
    after its arrival at which the lease it presents is in the table and live: not revoked,
    not expired at that moment's clock, not used up, and covering the host; the policy allows
    that lease's agent that lease's secret for its one scope, which covers the host; and an
    entry for the access, with that lease's identifier, secret and agent and the host, has
    been added to the log. Of all the accesses through one lease for one host that succeed
    from that point on, each has an entry of its own: at least as many entries are added. *)
Theorem conc_access_audited N v0 w0 ops0 c ops c' :
  conc_run N v0 w0 ops0 c → conc N c ops c' →
  ∃ es, audit_view (vault_audit (pool_state c')) = audit_view (vault_audit (pool_state c)) ++ es ∧
    (∀ k host, (successes_of (access_op k host) (length ops0) ops c' ≤
                count (access_of k host) es)%nat) ∧
    ∀ i k host peer r, ops !! i = Some (OpAccessSecret k host peer) →
      result (length ops0 + i) c' = Some r → is_ok r = true →
      ∃ ops1 ops2 c1 l d t e,
        ops = ops1 ++ ops2 ∧ (i < length ops1)%nat ∧ conc N c ops1 c1 ∧ conc N c1 ops2 c' ∧
        vault_leases (pool_state c1) !! k = Some l ∧
        lease_live_for l (clock (w_clock (pool_world c1))) host ∧
        lease_allowed_domains l = [d] ∧ DomainScope_matches d host = true ∧
        PolicyEngine_evaluate (vault_policy v0) (lease_agent l) (lease_secret_name l) d = Ok t ∧
        e ∈ es ∧ entry_event e = EvSecretAccessed k (lease_secret_name l) (DomainScope_new host) ∧
        entry_agent e = lease_agent l.
Proof.
  intros (ys & Hst)%conc_run_state Hrun.
  destruct (conc_looking_back _ _ _ _ _ _ _ Hst Hrun) as (ys' & Hst' & Hseen & es & Hes & Hin & Hcount).
  exists es. split; [done|]. split.
  - intros k host. etrans; [|apply Hcount]. eapply successes_of_count; [|done].
    intros op x r Hop [_ Hpost] Hok. specialize (Hpost Hok). destruct op; try done.
    simpl in Hop. apply bool_decide_eq_true in Hop as [-> ->].
    destruct Hpost as [l Hl]. simpl in Hl. by subst.
  - intros i k host peer r Hop Hres Hok.
    destruct (state_post _ _ _ _ _ (length ops0 + i) (OpAccessSecret k host peer) r Hst')
      as (x & Hx & _ & Hpost); [|done|].
    { rewrite lookup_app_r by lia. by replace (length ops0 + i - length ops0)%nat with i by lia. }
    destruct (Hpost Hok) as [l Hl]. simpl in Hl. subst x.
    assert (Hph : ys'.*2 !! (length ops0 + i)%nat = Some (Accessed k l host))
      by (by rewrite list_lookup_fmap, Hx).
    destruct (Hseen i _ Hph) as (c1 & l0 & (ops1 & ops2 & -> & Hlen & Hc1 & Hc2) & Hk & Hlive & Huse).
    specialize (Hin _ _ _ _ Hph). apply Exists_exists in Hin as (e & He & Hev & Hag).
    destruct Hst' as (_ & _ & _ & (_ & Hxs & _) & _). rewrite Forall_lookup in Hxs.
    destruct (Hxs _ _ Hph) as [(_ & (d & t & Heval & Hd & _) & d' & Hd' & Hmatch) _].
    unfold Lease_record_use in Huse. destruct (uses_exhausted l0); simplify_eq/=.
    rewrite Hd in Hd'. apply list_elem_of_singleton in Hd' as ->.
    exists ops1, ops2, c1, l0, d, t, e. split_and!; try done.
Qed.

(** C15. What is in the lease table, in every run: each lease is filed under its own identifier,
    was issued to an agent, for a secret and for a scope that the policy allows, with the
    use limit of the policy and counters in range, and its grant is in the audit log. *)
Theorem conc_table_invariant N v0 w0 ops c k l :
  conc_run N v0 w0 ops c → vault_leases (pool_state c) !! k = Some l →
  lease_id l = k ∧
  (∃ d t, PolicyEngine_evaluate (vault_policy v0) (lease_agent l) (lease_secret_name l) d = Ok t ∧
     lease_allowed_domains l = [d] ∧ lease_max_uses l = terms_max_uses t) ∧
  (PolicyEngine_wf LeaseTerms_wf (vault_policy v0) → Lease_wf l) ∧
  ∃ e ttl, e ∈ audit_view (vault_audit (pool_state c)) ∧
    entry_event e = EvLeaseGranted k (lease_secret_name l) (lease_allowed_domains l) ttl ∧
    entry_agent e = lease_agent l.
Proof.
  intros (ys & Hst)%conc_run_state Hk. destruct Hst as (_ & _ & _ & (Ht & _) & _).
  destruct (Ht k l Hk) as (Hid & (_ & Hau & Hwf) & Hg). split; [done|]. split; [done|].
  split; [done|]. apply Exists_exists in Hg as (e & Hin & ttl & Hev & Hag). rewrite Hid in Hev.
  by exists e, ttl.
Qed.

(** C16. The lease cap under concurrency. The cap is checked and the lease entered under separate
    guards, so that requests under way at the same time can pass the same check; with at
    most [N] operations at once an agent never holds more than [N - 1] active leases beyond
    the cap. *)
Theorem conc_cap_bound N v0 w0 ops c agent :
  conc_run N v0 w0 ops c →
  (active_count agent (vault_leases (pool_state c)) ≤ vault_max_leases_per_agent v0 + N - 1)%nat.
Proof.
  intros (ys & Hst)%conc_run_state. destruct Hst as (_ & _ & _ & _ & Hcap).
  specialize (Hcap agent). unfold capped in Hcap. lia.
Qed.

(** C18. The locks as types. In every run each thread takes its locks in the fixed order and
    writes a table only under its lock, a table held for writing is held by one thread, and
    while a thread holds a lock nobody else changes the table behind it. *)
Theorem conc_lock_discipline N v0 w0 ops c :
  conc_run N v0 w0 ops c →
  pool_locked c ∧
  ∀ i j t l m c', pool_threads c !! i = Some t → (l, m) ∈ held t → j ≠ i →
    step_at j c = Some c' → same l (pool_state c) (pool_state c').
Proof.
  intros Hrun%conc_run_locked. split; [done|]. intros i j t l m c' Ht Hl Hne Hj.
  by eapply locked_stable.
Qed.

(** C17. No deadlock with fair locks. The locks of the vault serve their waiters in the order
    in which they came, so that a reader waits behind a writer that waits. Every run with
    such locks is a run of the concurrent vault, to which the other theorems apply; and from
    every moment of it, in whatever order the operations under way take their steps, there is
    a step to take until all of them have returned, and they all return. (The actions between
    two awaits are taken to return: no call to the store, to the key source or to the audit
    log hangs.) *)
Theorem conc_progress N v0 w0 ops F :
  fair_run N v0 w0 ops F →
  conc_run N v0 w0 ops (fifo_pool F) ∧
  inevitable fifo_step (λ F', Forall finished (fifo_threads F')) F.
Proof.
  intros [Hini Hrun].
  assert (Hc : conc_run N v0 w0 ops (fifo_pool F)).
  { split; [done|]. exact (fair_conc_conc _ _ _ _ Hrun). }
  split; [done|]. apply inevitable_finished; [by eapply conc_run_locked|].
  eapply fair_conc_line; [exact Hrun|]. by intros i l ?%not_elem_of_nil.
Qed.
End theorems.

(** ** Witnesses *)

Import DemoInstances.

(** The demo vault after its lease has been revoked; then it is used once more. *)
Definition script_revoked : list Event :=
  script_leased ++ [Arrive (OpRevokeLease demo_lease AdminRevoked demo_peer); Run 3 4].
Definition script_reuse : list Event :=
  [Arrive (demo_access demo_lease); Arrive OpGcLeases; Run 4 1; Run 4 2; Run 5 3].

Lemma conc_revocation_final_witness :
  result 4 (demo_pool 5 (script_revoked ++ script_reuse)) = Some (Err (LeaseRevoked demo_lease)) ∧
  is_ok (Err (LeaseRevoked demo_lease) : outcome Error unit) = false.
Proof.
  assert (Hr : result 4 (demo_pool 5 (script_revoked ++ script_reuse)) =
    Some (Err (LeaseRevoked demo_lease))) by (vm_compute; reflexivity).
  split; [exact Hr|].
  destruct (conc_revocation_final 3 (Vault_with_max_leases_per_agent demo_vault 5) demo_world
    (arrivals script_revoked) (demo_pool 5 script_revoked) demo_lease
    (Lease_revoke demo_lease_value) (arrivals script_reuse)
    (demo_pool 5 (script_revoked ++ script_reuse))) as [_ Hfinal].
  - apply demo_pool_run. vm_compute. reflexivity.
  - vm_compute. reflexivity.
  - vm_compute. reflexivity.
  - apply demo_pool_conc. vm_compute. reflexivity.
  - apply (Hfinal 0%nat (demo_access demo_lease)); [reflexivity|vm_compute; reflexivity|exact Hr].
Defined.

(** Three accesses at once through a lease for two uses: two of them succeed. *)
Definition script_three : list Event :=
  [Arrive (demo_access demo_lease); Arrive (demo_access demo_lease); Arrive (demo_access demo_lease);
   Run 3 3; Run 4 3; Run 5 3; Run 3 5; Run 4 5].
Lemma conc_use_budget_witness :
  successes demo_lease 3 (arrivals script_three) (demo_pool 5 (script_leased ++ script_three)) = 2%nat ∧
  Z.of_nat (successes demo_lease 3 (arrivals script_three)
              (demo_pool 5 (script_leased ++ script_three))) ≤ 2 - 0.
Proof.
  split; [vm_compute; reflexivity|].
  apply (conc_use_budget 3 (Vault_with_max_leases_per_agent demo_vault 5) demo_world
    (arrivals script_leased) (demo_pool 5 script_leased)
    demo_lease demo_lease_value 2 (arrivals script_three)
    (demo_pool 5 (script_leased ++ script_three))).
  - apply demo_pool_run. vm_compute. reflexivity.
  - split; [intros m [= <-]; unfold U32_MAX; lia|].
    intros g t ->%list_elem_of_singleton. done.
  - vm_compute. reflexivity.
  - reflexivity.
  - apply demo_pool_conc. vm_compute. reflexivity.
Defined.

(** Of the three accesses at once, the second one has succeeded. *)
Lemma conc_access_audited_witness :
  ∃ es e agent,
    audit_view (vault_audit (pool_state (demo_pool 5 (script_leased ++ script_three)))) =
      audit_view (vault_audit (pool_state (demo_pool 5 script_leased))) ++ es ∧
    (2 ≤ count (access_of demo_lease "api.example.com") es)%nat ∧
    e ∈ es ∧ entry_agent e = agent ∧
    entry_event e = EvSecretAccessed demo_lease demo_secret (DomainScope_new "api.example.com").
Proof.
  destruct (conc_access_audited 3 (Vault_with_max_leases_per_agent demo_vault 5) demo_world
    (arrivals script_leased) (demo_pool 5 script_leased) (arrivals script_three)
    (demo_pool 5 (script_leased ++ script_three))) as (es & Hes & Hcount & Hone).
  - apply demo_pool_run. vm_compute. reflexivity.
  - apply demo_pool_conc. vm_compute. reflexivity.
  - destruct (Hone 1%nat demo_lease "api.example.com" demo_peer (Ok tt))
      as (ops1 & ops2 & c1 & l & d & t & e & _ & _ & _ & _ & _ & _ & _ & _ & _ & He & Hev & Hag).
    + reflexivity.
    + vm_compute. reflexivity.
    + reflexivity.
    + exists es, e, (lease_agent l). split; [exact Hes|]. split; [|split; [exact He|]].
      * etrans; [|exact (Hcount demo_lease "api.example.com")].
        apply Nat.eq_le_incl. vm_compute. reflexivity.
      * split; [exact Hag|]. rewrite Hev.
        assert (Hall : Forall (λ e, match entry_event e with
          | EvSecretAccessed _ n _ => n = demo_secret | _ => True end) (audit_view (vault_audit
            (pool_state (demo_pool 5 (script_leased ++ script_three))))))
          by (vm_compute; repeat constructor).
        rewrite Hes, Forall_app, !Forall_forall in Hall. destruct Hall as [_ Hall].
        specialize (Hall e He). simpl in Hall. rewrite Hev in Hall. by rewrite Hall.
Defined.

Lemma conc_table_invariant_witness :
  ∃ e ttl, e ∈ audit_view (vault_audit (pool_state (demo_pool 5 script_revoked))) ∧
    entry_event e = EvLeaseGranted demo_lease demo_secret [demo_scope] ttl ∧
    entry_agent e = demo_agent.
Proof.
  apply (conc_table_invariant 3 (Vault_with_max_leases_per_agent demo_vault 5) demo_world
    (arrivals script_revoked) (demo_pool 5 script_revoked) demo_lease
    (Lease_revoke demo_lease_value)).
  - apply demo_pool_run. vm_compute. reflexivity.
  - vm_compute. reflexivity.
Defined.

(** The race for the cap reaches the bound for three operations at once. *)
Lemma conc_cap_bound_witness :
  active_count demo_agent (vault_leases (pool_state (demo_pool 1 script_cap_race))) = 3%nat ∧
  (active_count demo_agent (vault_leases (pool_state (demo_pool 1 script_cap_race))) ≤ 1 + 3 - 1)%nat.
Proof.
  split; [vm_compute; reflexivity|].
  apply (conc_cap_bound 3 (Vault_with_max_leases_per_agent demo_vault 1) demo_world
    (arrivals script_cap_race) (demo_pool 1 script_cap_race)).
  apply demo_pool_run. vm_compute. reflexivity.
Defined.

(** One request holds the lock of the leases, and another waits for it. *)
Definition script_waiting : list Event :=
  script_stored ++ [Arrive demo_request; Arrive demo_request; Run 3 9; Run 2 10].
Lemma conc_lock_discipline_witness :
  played (step_at 3 (demo_pool 5 script_waiting)) = false ∧
  played (step_at 2 (demo_pool 5 script_waiting)) = true ∧
  pool_locked (demo_pool 5 script_waiting).
Proof.
  split; [vm_compute; reflexivity|]. split; [vm_compute; reflexivity|].
  apply (conc_lock_discipline 3 (Vault_with_max_leases_per_agent demo_vault 5) demo_world
    (arrivals script_waiting)).
  apply demo_pool_run. vm_compute. reflexivity.
Defined.

(** The same with fair locks: the first request holds the lock of the leases, the second has
    got in line for it and cannot go on. *)
Definition script_in_line : list Event := script_waiting ++ [Run 3 1].
Definition demo_fifo (evs : list Event) : FifoPool _ Error VaultLock unit :=
  default (mkFifo (mkPool (Vault_with_max_leases_per_agent demo_vault 5) demo_world []) [])
    (fair_events 3 evs
       (mkFifo (mkPool (Vault_with_max_leases_per_agent demo_vault 5) demo_world []) [])).
Lemma conc_progress_witness :
  fifo_line (demo_fifo script_in_line) = [(3%nat, LLeases)] ∧
  fifo_step_at 3 (demo_fifo script_in_line) = None ∧
  inevitable fifo_step (λ F', Forall finished (fifo_threads F')) (demo_fifo script_in_line).
Proof.
  split; [vm_compute; reflexivity|]. split; [vm_compute; reflexivity|].
  apply (conc_progress 3 (Vault_with_max_leases_per_agent demo_vault 5) demo_world
    (arrivals script_in_line)).
  split; [by eexists _, _, _, _, _, _|]. apply fair_events_conc. unfold demo_fifo.
  set (F0 := mkFifo _ _).
  assert (Hsome : played (fair_events 3 script_in_line F0) = true) by (vm_compute; reflexivity).
  destruct (fair_events 3 script_in_line F0) as [F|]; [reflexivity|discriminate Hsome].
Defined.
