(* ===== verification/Server.v ===== *)
(** The vault server: [src/server.rs].

    One connection is served at a time: its state is the shared vault and the stream. The
    accept loops ([serve], [serve_with_shutdown]) hand every accepted stream to
    [handle_connection] on a task of its own. *)
From S2P Require Import Prelude Text Concrete Types Lease Policy Session Store.
From S2P Require Import Crypto KeySource Auth AuditEvents Vault Frame Protocol.

Local Open Scope string_scope.
Local Open Scope Z_scope.
Local Open Scope list_scope.

Record Conn (K S A : Type) := mkConn { conn_vault : Vault K S A; conn_stream : Stream }.
Arguments mkConn {K S A}.
Arguments conn_vault {K S A}.
Arguments conn_stream {K S A}.

Definition ADMIN_METHODS : list string := [STORE_SECRET; DELETE_SECRET; LIST_SECRETS].

(** The closure [resolve_agent] of [dispatch]. *)
Definition resolve_agent (identity : ConnectionIdentity) (requested : string) : AgentId :=
  match identity_role identity with
  | Agent => default (AgentId_new requested) (identity_agent_id identity)
  | Orchestrator | Admin => AgentId_new requested
  end.

Section dispatch.
Context {K S A V : Type}.
Context `{!Env, !Chrono, !UuidText, !HashIter, !Aead}.
Context `{!KeySource K, !SecretStore S, !AuditLog A}.
Context `{!Wire V, !Base64}.
Abbreviation VM := (M (Vault K S A) Error).
Implicit Type request : Request V.

Definition invalid_request (id : Uuid) (message : string) : Response V :=
  Response_protocol_error id CODE_INVALID_REQUEST message.

(** [parse_params!], with the rest of the arm as a continuation. *)
Definition parse_params {B} `{!SerdeValue V B} request (k : B → VM (Response V))
    : VM (Response V) :=
  match from_value (request_params request) with
  | Ok r => k r
  | Err e => mret (invalid_request (request_id request) ("invalid params: " +:+ e))
  | Panic => panic
  end.

(** [json_response!] on a value, and on the outcome of a vault call. *)
Definition json_value {B} `{!SerdeValue V B} (id : Uuid) (value : B) : VM (Response V) :=
  match to_value value with
  | Ok v => mret (Response_success id v)
  | Err e => mret (invalid_request id ("serialization failed: " +:+ e))
  | Panic => panic
  end.
Definition json_response {B} `{!SerdeValue V B} (id : Uuid) (result : VM B)
    : VM (Response V) :=
  r ← try_ result;
  match r with
  | Ok value => json_value id value
  | Err e => mret (Response_from_error id e)
  | Panic => panic
  end.

(** [match call { Ok(()) => success(id, {}), Err(e) => from_error(id, e) }] *)
Definition unit_response (id : Uuid) (result : VM unit) : VM (Response V) :=
  r ← try_ result;
  match r with
  | Ok _ => mret (Response_success id empty_object)
  | Err e => mret (Response_from_error id e)
  | Panic => panic
  end.

(** [v.ok()] *)
Definition ok {B} (r : outcome string B) : option B :=
  match r with Ok b => Some b | _ => None end.

Definition dispatch_store_secret request (peer : PeerIdentity) : VM (Response V) :=
  let id := request_id request in
  parse_params request (λ req : StoreSecretRequest V,
  match b64_decode (ssr_plaintext req) with
  | Err e => mret (invalid_request id ("invalid base64: " +:+ e))
  | Panic => panic
  | Ok plaintext =>
    match from_value (ssr_kind req) with
    | Err e => mret (invalid_request id ("invalid kind: " +:+ e))
    | Panic => panic
    | Ok kind =>
      json_response id
        (Vault_store_secret (SecretName_new (ssr_name req)) plaintext kind
           (ssr_description req) peer)
    end
  end).

Definition dispatch_request_lease request (peer : PeerIdentity)
    (identity : ConnectionIdentity) : VM (Response V) :=
  parse_params request (λ req : RequestLeaseRequest,
  let agent := resolve_agent identity (rlr_agent req) in
  json_response (request_id request)
    (Vault_request_lease agent (SecretName_new (rlr_secret_name req))
       (DomainScope_new (rlr_domain req)) peer)).

Definition dispatch_access_secret request (peer : PeerIdentity) : VM (Response V) :=
  let id := request_id request in
  parse_params request (λ req : AccessSecretRequest,
  r ← try_ (Vault_access_secret (LeaseId_from_uuid (asr_lease_id req))
              (asr_target_domain req) peer);
  match r with
  | Ok guard =>
    let secret := LeaseGuard_expose guard (λ s, b64_encode (as_bytes s)) in
    json_value id (mkAccessSecretResponse secret)
  | Err e => mret (Response_from_error id e)
  | Panic => panic
  end).

Definition dispatch_revoke_lease request (peer : PeerIdentity) : VM (Response V) :=
  let id := request_id request in
  parse_params request (λ req : RevokeLeaseRequest V,
  match from_value (rvl_reason req) with
  | Err e => mret (invalid_request id ("invalid reason: " +:+ e))
  | Panic => panic
  | Ok reason =>
    unit_response id (Vault_revoke_lease (LeaseId_from_uuid (rvl_lease_id req)) reason peer)
  end).

Definition dispatch_revoke_all request (peer : PeerIdentity)
    (identity : ConnectionIdentity) : VM (Response V) :=
  parse_params request (λ req : RevokeAllForAgentRequest,
  let agent := resolve_agent identity (raa_agent req) in
  json_response (request_id request)
    (count ← Vault_revoke_all_for_agent agent peer;
     mret (mkRevokeAllForAgentResponse count))).

Definition dispatch_list_secrets request : VM (Response V) :=
  json_response (request_id request)
    (secrets ← Vault_list_secrets;
     mret (mkListSecretsResponse (omap (λ s : SecretMetadata, ok (to_value s)) secrets))).

Definition dispatch_renew_lease request (peer : PeerIdentity) : VM (Response V) :=
  parse_params request (λ req : RenewLeaseRequest,
  json_response (request_id request)
    (Vault_renew_lease (LeaseId_from_uuid (rnl_lease_id req)) (rnl_extension_secs req) peer)).

Definition dispatch_delete_secret request (peer : PeerIdentity) : VM (Response V) :=
  parse_params request (λ req : DeleteSecretRequest,
  unit_response (request_id request) (Vault_delete_secret (SecretName_new (dsr_name req)) peer)).

(** The error for a method that the role may not call. *)
Definition role_denied request (identity : ConnectionIdentity) : Response V :=
  Response_from_error (request_id request)
    (AccessDenied (default (AgentId_new (identity_label identity)) (identity_agent_id identity))
       (SecretName_new (request_method request)) (DomainScope_new "admin")).

Definition dispatch request (peer : PeerIdentity) (identity : ConnectionIdentity)
    : VM (Response V) :=
  let method := request_method request in
  if bool_decide (method ∈ ADMIN_METHODS) && negb (bool_decide (identity_role identity = Admin))
  then mret (role_denied request identity)
  else if str_eqb method STORE_SECRET then dispatch_store_secret request peer
  else if str_eqb method REQUEST_LEASE then dispatch_request_lease request peer identity
  else if str_eqb method ACCESS_SECRET then dispatch_access_secret request peer
  else if str_eqb method REVOKE_LEASE then dispatch_revoke_lease request peer
  else if str_eqb method REVOKE_ALL_FOR_AGENT then dispatch_revoke_all request peer identity
  else if str_eqb method LIST_SECRETS then dispatch_list_secrets request
  else if str_eqb method RENEW_LEASE then dispatch_renew_lease request peer
  else if str_eqb method DELETE_SECRET then dispatch_delete_secret request peer
  else mret (invalid_request (request_id request)
               ("unknown method: " +:+ request_method request)).
End dispatch.

(** ** One connection *)

Section connection.
Context {K S A V T : Type}.
Context `{!Env, !StreamIO, !Chrono, !UuidText, !HashIter, !Aead, !Sha256}.
Context `{!KeySource K, !SecretStore S, !AuditLog A, !Authenticator T}.
Context `{!Wire V, !Base64}.
Context `{!Serde ClientHello, !Serde ServerHello, !Serde (Request V), !Serde (Response V)}.
Abbreviation CM := (M (Conn K S A) Error).

Definition on_stream {B} (m : M Stream Error B) : CM B :=
  zoom conn_stream (λ s c, mkConn (conn_vault c) s) m.
Definition on_vault {B} (m : M (Vault K S A) Error B) : CM B :=
  zoom conn_vault (λ v c, mkConn v (conn_stream c)) m.

(** [serde_json::to_vec(&hello)] and [write_frame] *)
Definition send_hello (hello : ServerHello) : CM unit :=
  bytes ← lift (map_err (λ e, Transport ("failed to serialize ServerHello: " +:+ e))
                 (to_json hello));
  on_stream (write_frame (as_bytes bytes)).

(** [serde_json::to_vec(&resp).unwrap_or_default()] *)
Definition to_vec_or_default (resp : Response V) : string :=
  match to_json resp with Ok s => s | _ => "" end.

(** [let _ = write_frame(..)]: the outcome is ignored. *)
Definition send_best_effort (resp : Response V) : CM unit :=
  try_ (on_stream (write_frame (as_bytes (to_vec_or_default resp))));; mret tt.

(** The handshake: the identity of an accepted client and the peer it acts as, or [None]
    when the handler returns without having served it. *)
Definition handshake (peer : PeerIdentity) (authenticator : T)
    : CM (option (PeerIdentity * ConnectionIdentity)) :=
  hello_bytes ← on_stream read_frame;
  hello ← lift (map_err (λ e, Transport ("invalid ClientHello: " +:+ e))
                 (from_json (from_bytes hello_bytes)));
  if negb (str_eqb (chello_protocol hello) PROTOCOL_NAME) then
    send_hello (ServerHello_reject ("unknown protocol: " +:+ chello_protocol hello
                  +:+ "; expected " +:+ PROTOCOL_NAME));;
    mret None
  else if CURRENT_VERSION <? chello_version hello then
    send_hello (ServerHello_reject ("unsupported version " +:+ fmt_Z (chello_version hello)
                  +:+ "; server supports up to " +:+ fmt_Z CURRENT_VERSION));;
    mret None
  else
    send_hello (ServerHello_accept (chello_version hello));;
    let token := chello_token hello in
    let peer' := match token with
                 | Some t => PeerIdentity_set_token_hash peer (hash_token t)
                 | None => peer
                 end in
    match authenticate authenticator peer' token with
    | None => mret None
    | Some identity => mret (Some (peer', identity))
    end.

(** One iteration of the request loop; [false] when the loop returns. *)
Definition serve_one (peer : PeerIdentity) (identity : ConnectionIdentity) : CM bool :=
  frame ← try_ (on_stream read_frame);
  match frame with
  | Panic => panic
  | Err e =>
    let msg := Error_to_string e in
    if contains "unexpected EOF" msg then mret false else
    send_best_effort (invalid_request 0%N ("frame error: " +:+ msg));;
    mret false
  | Ok f =>
    match from_json (from_bytes f) with
    | Panic => panic
    | Err e =>
      send_best_effort (invalid_request 0%N ("invalid request: " +:+ e));;
      mret true
    | Ok request =>
      response ← on_vault (dispatch request peer identity);
      resp_bytes ← lift (map_err (λ e, Transport ("failed to serialize response: " +:+ e))
                          (to_json response));
      on_stream (write_frame (as_bytes resp_bytes));;
      mret true
    end
  end.

(** The request loop. Every iteration reads at least the four bytes of a length, or
    returns: [fuel] bounds the iterations, and [None] stands for a loop that is still
    running when it is used up. *)
Fixpoint request_loop (fuel : nat) (peer : PeerIdentity) (identity : ConnectionIdentity)
    : CM (option unit) :=
  match fuel with
  | O => mret None
  | Datatypes.S fuel' =>
    go ← serve_one peer identity;
    if go : bool then request_loop fuel' peer identity else mret (Some tt)
  end.

(** As many iterations as there are bytes to read. *)
Definition handle_connection (peer : PeerIdentity) (authenticator : T) : CM (option unit) :=
  accepted ← handshake peer authenticator;
  match accepted with
  | None => mret (Some tt)
  | Some (peer', identity) =>
    c ← read;
    request_loop (Datatypes.S (length (incoming (conn_stream c)))) peer' identity
  end.
End connection.
