(* ===== verification/ServerTheorems.v ===== *)
(** What a connection can make the vault do.

    Every request amounts to at most one operation of the vault, permitted for the role of
    the connection; so everything that is proved of reachable vaults holds under whatever
    bytes clients send. *)
From S2P Require Import Prelude Text Concrete Types Lease Policy Session Store.
From S2P Require Import RusqliteStore Crypto KeySource Auth AuditEvents Frame Protocol Vault.
From S2P Require Import VaultInv VaultSpec VaultProps Demo Server.

Local Open Scope string_scope.
Local Open Scope Z_scope.
Local Open Scope list_scope.

(** The operations that a request over a connection may run. *)
Definition permitted (identity : ConnectionIdentity) (peer : PeerIdentity) (op : VaultOp) : Prop :=
  match op with
  | OpStoreSecret _ _ _ _ p | OpDeleteSecret _ p => identity_role identity = Admin ∧ p = peer
  | OpListSecrets => identity_role identity = Admin
  | OpRequestLease agent _ _ p | OpRevokeAllForAgent agent p =>
      (∃ requested, agent = resolve_agent identity requested) ∧ p = peer
  | OpAccessSecret _ _ p | OpRevokeLease _ _ p | OpRenewLease _ _ p => p = peer
  | _ => False
  end.

(** A response that belongs to request [id] and is either a result or an error. *)
Definition answers {V} (id : Uuid) (resp : Response V) : Prop :=
  response_id resp = id ∧
  if response_ok resp
  then is_Some (response_result resp) ∧ response_error resp = None
  else response_result resp = None ∧ is_Some (response_error resp).

Section dispatch.
Context {K S A V : Type}.
Context `{!Env, !Chrono, !UuidText, !HashIter, !Aead}.
Context `{!KeySource K, !SecretStore S, !AuditLog A}.
Context `{!Wire V, !Base64}.
Abbreviation VM := (M (Vault K S A) Error).
Implicit Types (v : Vault K S A) (w : World) (request : Request V).

(** [v'] and [w'] are what one run of [op] leaves; [panicked] if that run panics. *)
Definition ran (op : VaultOp) v w v' w' (panicked : Prop) : Prop :=
  ∃ r, run_op op v w = (r, v', w') ∧ (r = Panic ↔ panicked).

Definition handled identity peer id v w (r : outcome Error (Response V)) v' w' : Prop :=
  match r with
  | Ok resp => answers id resp ∧
      ((v' = v ∧ w' = w) ∨ ∃ op, permitted identity peer op ∧ ran op v w v' w' False)
  | Err _ => False
  | Panic => ∃ op, permitted identity peer op ∧ ran op v w v' w' True
  end.

Context `{!WireLaws V, !Base64Laws}.

Lemma answers_error id e : answers id (Response_from_error id e : Response V).
Proof. split; [done|]. split; [done|by eexists]. Qed.
Lemma answers_invalid id msg : answers id (invalid_request id msg : Response V).
Proof. split; [done|]. split; [done|by eexists]. Qed.
Lemma answers_success id x : answers id (Response_success id x : Response V).
Proof. split; [done|]. split; [by eexists|done]. Qed.

Lemma handled_invalid identity peer id msg v w :
  handled identity peer id v w (Ok (invalid_request id msg)) v w.
Proof. split; [apply answers_invalid|by left]. Qed.

(** Running [m] and answering runs the operation that [m] is. *)
Lemma ran_forget {B} op (m : VM B) v w r v' w' :
  (∀ v w, run_op op v w = (m;; mret tt) v w) → m v w = (r, v', w') →
  ran op v w v' w' (r = Panic).
Proof.
  intros Hop Hm. unfold ran. rewrite Hop. unfold mbind, M_bind. rewrite Hm.
  destruct r as [b|e|]; eexists; (split; [reflexivity|]); split; done.
Qed.

Lemma ran_iff op v w v' w' (P Q : Prop) :
  ran op v w v' w' P → (P ↔ Q) → ran op v w v' w' Q.
Proof. intros (r & Hr & Hp) HPQ. exists r. split; [done|]. by rewrite Hp. Qed.

(** The operation returns a value computed from the call's. *)
Lemma forget_map {B C} (m : VM B) (f : B → C) v w :
  (m;; mret tt) v w = ((x ← m; mret (f x));; mret tt) v w.
Proof. unfold mbind, M_bind. by destruct (m v w) as [[[b|e|] v'] w']. Qed.

Lemma json_value_handled `{!SerdeValue V B, !SerdeValueLaws V B} identity peer op id
    (b : B) v w v1 w1 :
  permitted identity peer op → ran op v w v1 w1 False →
  wp (json_value id b) v1 w1 (handled identity peer id v w).
Proof.
  intros Hperm Hran. unfold json_value. pose proof (to_value_no_panic b).
  destruct (to_value b) as [x|e|]; [| |done]; wp_step;
    (split; [auto using answers_success, answers_invalid|]); right; eauto.
Qed.

Lemma json_response_handled `{!SerdeValue V B, !SerdeValueLaws V B} identity peer op id
    (m : VM B) v w :
  permitted identity peer op → (∀ v w, run_op op v w = (m;; mret tt) v w) →
  wp (json_response id m) v w (handled identity peer id v w).
Proof.
  intros Hperm Hop. unfold json_response. wp_step. wp_step. apply run_wp.
  intros r v1 w1 Hm. pose proof (ran_forget _ _ _ _ _ _ _ Hop Hm) as Hran.
  destruct r as [b|e|]; simpl.
  - eapply json_value_handled; [done|]. by eapply ran_iff.
  - wp_step. split; [apply answers_error|]. right. exists op. split; [done|].
    by eapply ran_iff.
  - exists op. split; [done|]. by eapply ran_iff.
Qed.

Lemma unit_response_handled identity peer op id (m : VM unit) v w :
  permitted identity peer op → run_op op = m →
  wp (unit_response id m) v w (handled identity peer id v w).
Proof.
  intros Hperm Hop. unfold unit_response. wp_step. wp_step. apply run_wp.
  intros r v1 w1 Hm. rewrite <-Hop in Hm.
  destruct r as [[]|e|]; simpl; try wp_step.
  - split; [apply answers_success|]. right. exists op. split; [done|]. by eexists.
  - split; [apply answers_error|]. right. exists op. split; [done|]. by eexists.
  - exists op. split; [done|]. by eexists.
Qed.

Lemma parse_params_handled `{!SerdeValue V B, !SerdeValueLaws V B} identity peer request
    (k : B → VM (Response V)) v w :
  (∀ b, wp (k b) v w (handled identity peer (request_id request) v w)) →
  wp (parse_params request k) v w (handled identity peer (request_id request) v w).
Proof.
  intros Hk. unfold parse_params. pose proof (from_value_no_panic (A := B) (request_params request)).
  destruct (from_value (request_params request)) as [b|e|]; [done| |done].
  wp_step. apply handled_invalid.
Qed.

Lemma dispatch_store_secret_wp request peer identity v w :
  identity_role identity = Admin →
  wp (dispatch_store_secret request peer) v w
    (handled identity peer (request_id request) v w).
Proof.
  intros Hadmin. unfold dispatch_store_secret. apply parse_params_handled. intros req.
  pose proof (b64_decode_no_panic (ssr_plaintext req)).
  destruct (b64_decode _) as [p|e|]; [|wp_step; apply handled_invalid|done].
  pose proof (from_value_no_panic (A := SecretKind) (ssr_kind req)).
  destruct (from_value _) as [kind|e|]; [|wp_step; apply handled_invalid|done].
  by eapply (json_response_handled _ _ (OpStoreSecret (SecretName_new (ssr_name req)) p kind
    (ssr_description req) peer)).
Qed.

Lemma dispatch_access_secret_wp request peer identity v w :
  wp (dispatch_access_secret request peer) v w
    (handled identity peer (request_id request) v w).
Proof.
  unfold dispatch_access_secret. apply parse_params_handled. intros req. wp_step. wp_step.
  apply run_wp. intros r v1 w1 Hm.
  pose proof (ran_forget (OpAccessSecret (LeaseId_from_uuid (asr_lease_id req))
    (asr_target_domain req) peer) _ _ _ _ _ _ (λ _ _, eq_refl) Hm) as Hran.
  destruct r as [g|e|]; simpl.
  - by eapply json_value_handled; [|by eapply ran_iff].
  - wp_step. split; [apply answers_error|]. right. by eexists; split; [|by eapply ran_iff].
  - by eexists; split; [|by eapply ran_iff].
Qed.

Lemma dispatch_wp request peer identity v w :
  wp (dispatch request peer identity) v w
    (handled identity peer (request_id request) v w).
Proof.
  unfold dispatch, str_eqb. cbv zeta. wp_step.
  { wp_step. split; [apply answers_error|by left]. }
  assert (Hrole : request_method request ∈ ADMIN_METHODS → identity_role identity = Admin).
  { intros Hin. rewrite bool_decide_true in Hb by done. simpl in Hb.
    by apply negb_false_iff, bool_decide_eq_true in Hb. }
  clear Hb. unfold ADMIN_METHODS in Hrole.
  repeat (case_bool_decide as Hmethod; [rewrite Hmethod in Hrole|clear Hmethod]).
  - apply dispatch_store_secret_wp. apply Hrole, list_elem_of_here.
  - apply parse_params_handled. intros req. cbv zeta.
    eapply (json_response_handled _ _ (OpRequestLease (resolve_agent identity (rlr_agent req))
      (SecretName_new (rlr_secret_name req)) (DomainScope_new (rlr_domain req)) peer));
      [split; [by eexists|done]|done].
  - apply dispatch_access_secret_wp.
  - unfold dispatch_revoke_lease. apply parse_params_handled. intros req.
    pose proof (from_value_no_panic (A := RevocationReason) (rvl_reason req)).
    destruct (from_value _) as [reason|e|]; [|wp_step; apply handled_invalid|done].
    by eapply (unit_response_handled _ _ (OpRevokeLease
      (LeaseId_from_uuid (rvl_lease_id req)) reason peer)).
  - apply parse_params_handled. intros req. cbv zeta.
    eapply (json_response_handled _ _ (OpRevokeAllForAgent
      (resolve_agent identity (raa_agent req)) peer)); [split; [by eexists|done]|].
    intros. apply forget_map.
  - eapply (json_response_handled _ _ OpListSecrets); [|intros; apply forget_map].
    apply Hrole. do 2 apply list_elem_of_further. apply list_elem_of_here.
  - apply parse_params_handled. intros req.
    by eapply (json_response_handled _ _ (OpRenewLease (LeaseId_from_uuid (rnl_lease_id req))
      (rnl_extension_secs req) peer)).
  - apply parse_params_handled. intros req.
    eapply (unit_response_handled _ _ (OpDeleteSecret (SecretName_new (dsr_name req)) peer));
      [|done]. split; [|done]. apply Hrole. apply list_elem_of_further, list_elem_of_here.
  - wp_step. apply handled_invalid.
Qed.

(** ** Properties of one request *)

(** C3. A request runs at most one operation, and only a permitted one. Whatever the
    request, [dispatch] answers with the request's own id and either a result or an error,
    and has either left the vault alone or run exactly one operation that the role of the
    connection permits, under the connection's peer identity; it can only panic if that
    operation does. *)
Theorem dispatch_permitted request peer identity v w r v' w' :
  dispatch request peer identity v w = (r, v', w') →
  match r with
  | Ok resp => answers (request_id request) resp ∧
      ((v' = v ∧ w' = w) ∨ ∃ op, permitted identity peer op ∧ ran op v w v' w' False)
  | Err _ => False
  | Panic => ∃ op, permitted identity peer op ∧ ran op v w v' w' True
  end.
Proof. intros Hrun. exact (wp_run _ _ _ _ _ _ _ (dispatch_wp request peer identity v w) Hrun). Qed.

(** The operation a request ran, if any. *)
Lemma dispatch_ran request peer identity v w r v' w' :
  dispatch request peer identity v w = (r, v', w') →
  (v' = v ∧ w' = w) ∨ ∃ op r', permitted identity peer op ∧ run_op op v w = (r', v', w').
Proof.
  intros Hrun. pose proof (wp_run _ _ _ _ _ _ _ (dispatch_wp request peer identity v w) Hrun)
    as Hh. destruct r as [resp|e|]; [|done|].
  - destruct Hh as [_ [?|(op & Hp & r & Hr & _)]]; [by left|]. right. by exists op, r.
  - destruct Hh as (op & Hp & r & Hr & _). right. by exists op, r.
Qed.
End dispatch.

Section roles.
Context {K S A V : Type}.
Context `{!Env, !Chrono, !UuidText, !HashIter, !Aead}.
Context `{!KeySource K, !SecretStore S, !AuditLog A}.
Context `{!KeySourceLaws K, !SecretStoreLaws S, !AuditLogLaws A}.
Context `{!Wire V, !Base64, !WireLaws V, !Base64Laws}.
Implicit Types (v : Vault K S A) (w : World) (request : Request V).

(** [run_op] and the operation behind it leave the same state. *)
Lemma run_op_wp {B} op (m : M (Vault K S A) Error B) (Q : Vault K S A → Prop) v w r v' w' :
  (∀ v w, run_op op v w = (m;; mret tt) v w) → run_op op v w = (r, v', w') →
  wp m v w (λ _ v' _, Q v') → Q v'.
Proof.
  intros Hop Hrun Hwp. rewrite Hop in Hrun. unfold wp in Hwp. unfold mbind, M_bind in Hrun.
  destruct (m v w) as [[[b|e|] v1] w1]; injection Hrun as _ <- _; done.
Qed.
Lemma bind_unit (m : M (Vault K S A) Error unit) v w : m v w = (m;; mret tt) v w.
Proof. unfold mbind, M_bind. by destruct (m v w) as [[[[]|e|] v'] w']. Qed.

Lemma non_admin_store identity peer op v w r v' w' :
  identity_role identity ≠ Admin → permitted identity peer op →
  store_inv (vault_store v) → run_op op v w = (r, v', w') → vault_store v' = vault_store v.
Proof.
  intros Hrole Hperm Hi Hrun. destruct op; try done; try (by destruct Hperm).
  - eapply (run_op_wp _ _ (λ v', vault_store v' = vault_store v)); [|exact Hrun|]; [done|].
    wp_call Vault_request_lease_wp. intros r0 v1 w1 (_ & _ & Hs & _). by apply Hs.
  - eapply (run_op_wp _ _ (λ v', vault_store v' = vault_store v)); [|exact Hrun|]; [done|].
    wp_call Vault_access_secret_wp. intros r0 v1 w1 (_ & _ & _ & Hs & _). by apply Hs.
  - eapply (run_op_wp _ _ (λ v', vault_store v' = vault_store v)); [|exact Hrun|];
      [intros; apply bind_unit|].
    wp_call Vault_revoke_lease_wp. intros r0 v1 w1 (_ & _ & _ & Hs & _). done.
  - eapply (run_op_wp _ _ (λ v', vault_store v' = vault_store v)); [|exact Hrun|]; [done|].
    wp_call revoke_loop_wp. intros r0 v1 w1 (_ & -> & _). done.
  - eapply (run_op_wp _ _ (λ v', vault_store v' = vault_store v)); [|exact Hrun|]; [done|].
    wp_call Vault_renew_lease_wp. intros r0 v1 w1 (_ & _ & Hs & _). done.
Qed.

(** C4. Administration needs the admin role. Over a connection with any other role, the
    administrative methods are refused with [access_denied] before anything happens, and
    no request whatsoever changes the contents of the secret store. *)
Theorem admin_role_required request peer identity v w :
  identity_role identity ≠ Admin →
  (request_method request ∈ ADMIN_METHODS →
     dispatch request peer identity v w = (Ok (role_denied request identity), v, w)) ∧
  (∀ r v' w', store_inv (vault_store v) →
     dispatch request peer identity v w = (r, v', w') → vault_store v' = vault_store v).
Proof.
  intros Hrole. split.
  - intros Hin. unfold dispatch. cbv zeta. rewrite bool_decide_true by done.
    by rewrite bool_decide_false.
  - intros r v' w' Hi Hrun.
    destruct (dispatch_ran _ _ _ _ _ _ _ _ Hrun) as [[-> _]|(op & r' & Hp & Hop)]; [done|].
    by eapply non_admin_store.
Qed.

(** Every lease of [m'] was in [m] under the same agent, or is [a]'s. *)
Definition leases_for (a : AgentId) (m m' : gmap LeaseId Lease) : Prop :=
  ∀ k l', m' !! k = Some l' →
    (∃ l, m !! k = Some l ∧ lease_agent l' = lease_agent l) ∨ lease_agent l' = a.

Lemma leases_for_refl a m : leases_for a m m.
Proof. intros k l' Hk. left. eauto. Qed.
Lemma leases_for_update a m k l l' :
  m !! k = Some l → lease_agent l' = lease_agent l → leases_for a m (<[k := l']> m).
Proof.
  intros Hk Ha k0 l0 Hk0. left. destruct (decide (k0 = k)) as [->|Hne].
  - rewrite lookup_insert_eq in Hk0. injection Hk0 as <-. eauto.
  - rewrite lookup_insert_ne in Hk0 by done. eauto.
Qed.
Lemma leases_for_revoke a sel m : leases_for a m (revoke_if sel <$> m).
Proof.
  intros k l' Hk. rewrite lookup_fmap in Hk. apply fmap_Some in Hk as (l & Hl & ->).
  left. exists l. split; [done|]. unfold revoke_if. by destruct (sel l).
Qed.

Lemma record_use_agent l l' : Lease_record_use l = Ok l' → lease_agent l' = lease_agent l.
Proof. unfold Lease_record_use. case_match; [done|]. by intros [= <-]. Qed.

Abbreviation keeps_agents a v := (λ _ v' _, leases_for a (vault_leases v) (vault_leases v')).

Lemma leases_for_request a n d peer v w :
  wp (Vault_request_lease a n d peer) v w (keeps_agents a v).
Proof.
  wp_call Vault_request_lease_wp. intros [g|e|] v1 w1 (_ & _ & _ & Hr).
  - destruct Hr as (t & l & _ & _ & (_ & Hla & _) & _ & Hfr & _).
    rewrite (frame_leases_eq _ _ _ Hfr). intros k0 l0 Hk0.
    destruct (decide (k0 = lease_id l)) as [->|Hne].
    + rewrite lookup_insert_eq in Hk0. injection Hk0 as <-. by right.
    + rewrite lookup_insert_ne in Hk0 by done. eauto.
  - destruct Hr as [Hfr _]. rewrite (frame_leases_eq _ _ _ Hfr). apply leases_for_refl.
  - rewrite (frame_leases_eq _ _ _ Hr). apply leases_for_refl.
Qed.

Lemma leases_for_access a k host peer v w :
  wp (Vault_access_secret k host peer) v w (keeps_agents a v).
Proof.
  wp_call Vault_access_secret_wp. intros r0 v1 w1 (_ & _ & _ & _ & Hr).
  assert (frame_leases v v1 (vault_leases v) ∨ ∃ l l', vault_leases v !! k = Some l ∧
    Lease_record_use l = Ok l' ∧ frame_leases v v1 (<[k := l']> (vault_leases v)))
    as [Hfr|(l & l' & Hk & Hu & Hfr)] by (destruct r0; naive_solver);
    rewrite (frame_leases_eq _ _ _ Hfr).
  - apply leases_for_refl.
  - eapply leases_for_update; [done|]. by apply record_use_agent.
Qed.

Lemma leases_for_revoke_lease a k reason peer v w :
  wp (Vault_revoke_lease k reason peer) v w (keeps_agents a v).
Proof.
  wp_call Vault_revoke_lease_wp. intros r0 v1 w1 (_ & _ & _ & _ & Hr).
  destruct (vault_leases v !! k) as [l|] eqn:Hk.
  - destruct Hr as [Hfr _]. rewrite (frame_leases_eq _ _ _ Hfr).
    by eapply leases_for_update.
  - destruct Hr as [_ ->]. apply leases_for_refl.
Qed.

Lemma leases_for_revoke_all a agent peer v w :
  wp (Vault_revoke_all_for_agent agent peer) v w (keeps_agents a v).
Proof. wp_call revoke_loop_wp. intros r0 v1 w1 (_ & -> & _). apply leases_for_revoke. Qed.

Lemma leases_for_renew a k secs peer v w :
  wp (Vault_renew_lease k secs peer) v w (keeps_agents a v).
Proof.
  wp_call Vault_renew_lease_wp. intros r0 v1 w1 (_ & _ & _ & Hr).
  assert (frame_leases v v1 (vault_leases v) ∨ ∃ l l', renewed v w k secs l l' ∧
    frame_leases v v1 (<[k := l']> (vault_leases v)))
    as [Hfr|(l & l' & (Hk & _ & _ & _ & _ & _ & ext & t & _ & _ & ->) & Hfr)]
    by (destruct r0; naive_solver); rewrite (frame_leases_eq _ _ _ Hfr).
  - apply leases_for_refl.
  - by eapply leases_for_update.
Qed.

Lemma keeps_agents_run {B} op (m : M (Vault K S A) Error B) a v w r v' w' :
  (∀ v w, run_op op v w = (m;; mret tt) v w) → run_op op v w = (r, v', w') →
  wp m v w (keeps_agents a v) → leases_for a (vault_leases v) (vault_leases v').
Proof. apply (run_op_wp op m (λ v', leases_for a (vault_leases v) (vault_leases v'))). Qed.

Lemma bound_agent_leases identity peer a op v w r v' w' :
  identity_role identity = Agent → identity_agent_id identity = Some a →
  permitted identity peer op → run_op op v w = (r, v', w') →
  leases_for a (vault_leases v) (vault_leases v').
Proof.
  intros Hrole Ha Hperm Hrun.
  destruct op; try done; try (destruct Hperm as [Hadm _]; congruence);
    try (simpl in Hperm; congruence).
  - destruct Hperm as [[req ->] _]. unfold resolve_agent in Hrun. rewrite Hrole, Ha in Hrun.
    change (default _ (Some a)) with a in Hrun.
    eapply keeps_agents_run; [|exact Hrun|apply (leases_for_request a)]; done.
  - eapply keeps_agents_run; [|exact Hrun|apply (leases_for_access a)]; done.
  - eapply keeps_agents_run; [|exact Hrun|apply (leases_for_revoke_lease a)]. intros. apply bind_unit.
  - eapply keeps_agents_run; [|exact Hrun|apply (leases_for_revoke_all a)]; done.
  - eapply keeps_agents_run; [|exact Hrun|apply (leases_for_renew a)]; done.
Qed.

(** C5. A connection bound to an agent only gets leases for that agent. Whatever agent name
    a request over such a connection asserts, every lease in the vault afterwards was
    there before under the same agent, or belongs to the agent the connection is bound
    to. *)
Theorem agent_binding_enforced request peer identity a v w r v' w' :
  identity_role identity = Agent → identity_agent_id identity = Some a →
  dispatch request peer identity v w = (r, v', w') →
  leases_for a (vault_leases v) (vault_leases v').
Proof.
  intros Hrole Ha Hrun.
  destruct (dispatch_ran _ _ _ _ _ _ _ _ Hrun) as [[-> _]|(op & r' & Hp & Hop)].
  - apply leases_for_refl.
  - by eapply bound_agent_leases.
Qed.
End roles.

Section connection.
Context {K S A V T : Type}.
Context `{!Env, !StreamIO, !Chrono, !UuidText, !HashIter, !Aead, !Sha256}.
Context `{!KeySource K, !SecretStore S, !AuditLog A, !Authenticator T}.
Context `{!Wire V, !Base64, !WireLaws V, !Base64Laws}.
Context `{!Serde ClientHello, !Serde ServerHello, !Serde (Request V), !Serde (Response V)}.
Implicit Types (c : Conn K S A) (v : Vault K S A) (w : World).

(** What one request of an authenticated connection, or the passing of time, does. *)
Inductive pstep (identity : ConnectionIdentity) (peer : PeerIdentity)
    : Vault K S A * World → Vault K S A * World → Prop :=
  | ps_time v w w' : world_le w w' → pstep identity peer (v, w) (v, w')
  | ps_op op v w r v' w' :
      permitted identity peer op → run_op op v w = (r, v', w') →
      pstep identity peer (v, w) (v', w').

(** Over the connection, the vault has moved by permitted operations only, and what was
    written are whole frames, if nothing failed. *)
Definition served (identity : ConnectionIdentity) (peer : PeerIdentity) c w c' w' : Prop :=
  rtc (pstep identity peer) (conn_vault c, w) (conn_vault c', w') ∧
  (length (incoming (conn_stream c')) ≤ length (incoming (conn_stream c)))%nat ∧
  (Reliable → ∃ ps, Forall fits ps ∧
     outgoing (conn_stream c') = outgoing (conn_stream c) ++ concat (frame_bytes <$> ps)).

Lemma served_refl identity peer c w : served identity peer c w c w.
Proof.
  split; [reflexivity|]. split; [done|]. intros _. exists []. simpl. by rewrite app_nil_r.
Qed.
Lemma served_trans identity peer c1 w1 c2 w2 c3 w3 :
  served identity peer c1 w1 c2 w2 → served identity peer c2 w2 c3 w3 →
  served identity peer c1 w1 c3 w3.
Proof.
  intros (Hr & Hl & Ho) (Hr' & Hl' & Ho'). split; [by etrans|]. split; [lia|]. intros Hrel.
  destruct (Ho Hrel) as (ps & Hps & Hout), (Ho' Hrel) as (ps' & Hps' & Hout').
  exists (ps ++ ps'). split; [by apply Forall_app|].
  by rewrite Hout', Hout, fmap_app, concat_app, app_assoc.
Qed.

(** [m] serves from [c], and a loop that goes on has consumed input. *)
Definition serves identity peer {B} (m : M (Conn K S A) Error B) c w
    (Q : outcome Error B → Conn K S A → World → Prop) : Prop :=
  wp m c w (λ r c' w', served identity peer c w c' w' ∧ Q r c' w').

Lemma serves_read_frame identity peer c w :
  serves identity peer (on_stream read_frame) c w (λ r c' w',
    conn_vault c' = conn_vault c ∧ world_le w w' ∧
    match r with
    | Ok _ => (4 ≤ length (incoming (conn_stream c)) ∧ 
        length (incoming (conn_stream c')) + 4 ≤ length (incoming (conn_stream c)))%nat
    | Err _ => True
    | Panic => False
    end).
Proof.
  unfold serves, on_stream. apply wp_zoom. wp_call read_frame_wp.
  intros r s' w' (Hw & Ho & Hr). cbn [conn_vault conn_stream].
  assert (Hlen : (length (incoming s') ≤ length (incoming (conn_stream c)))%nat ∧
    match r with Ok _ => (length (incoming s') + 4 ≤ length (incoming (conn_stream c)))%nat
    | _ => True end).
  { destruct r as [b|e|]; [|naive_solver|done].
    destruct Hr as (_ & lb & Hlb & _ & ->). rewrite !length_app. lia. }
  split.
  - split; [apply rtc_once; by constructor|]. cbn [conn_stream]. split; [lia|]. intros _.
    exists []. simpl. by rewrite Ho, app_nil_r.
  - split; [done|]. split; [done|]. destruct r; [lia|done|done].
Qed.

Lemma serves_write_frame identity peer data c w :
  serves identity peer (on_stream (write_frame data)) c w (λ r c' w',
    conn_vault c' = conn_vault c ∧ world_le w w' ∧ r ≠ Panic).
Proof.
  unfold serves, on_stream. apply wp_zoom. wp_call write_frame_wp.
  intros r s' w' (Hw & Hi & Hr & Hok). cbn [conn_vault conn_stream].
  split; [|split; [done|]; split; [done|by destruct r]].
  split; [apply rtc_once; by constructor|]. cbn [conn_stream]. split; [by rewrite Hi|].
  intros Hrel. destruct r as [[]|e|]; [| |done].
  - exists [data]. split; [apply Forall_singleton; by destruct Hr|].
    simpl. rewrite app_nil_r. by destruct Hr.
  - exists []. split; [done|]. simpl. rewrite app_nil_r. destruct Hr as (_ & Hsame & _).
    rewrite Hsame; [done|]. intros Hfit. by specialize (Hok Hrel Hfit).
Qed.

Lemma serves_best_effort identity peer resp c w :
  serves identity peer (send_best_effort resp) c w (λ r c' w', r = Ok tt).
Proof.
  unfold serves, send_best_effort. wp_step. wp_step. eapply wp_mono.
  { apply serves_write_frame. } cbn beta.
  intros [u|e|] c' w' (Hs & _ & _ & Hp); [| |done]; by wp_step.
Qed.

Lemma serves_dispatch identity peer request c w :
  serves identity peer (on_vault (dispatch request peer identity)) c w (λ r c' w',
    conn_stream c' = conn_stream c).
Proof.
  unfold serves, on_vault. apply wp_zoom, run_wp. intros r v' w' Hrun.
  split; [|done]. split.
  - cbn [conn_vault].
    destruct (dispatch_ran _ _ _ _ _ _ _ _ Hrun) as [[-> ->]|(op & r' & Hp & Hop)].
    + reflexivity.
    + apply rtc_once. by eapply ps_op.
  - cbn [conn_stream]. split; [done|]. intros _. exists []. simpl. by rewrite app_nil_r.
Qed.

Lemma serves_bind {B C} identity peer (m : M (Conn K S A) Error B)
    (k : B → M (Conn K S A) Error C) c w Q R :
  serves identity peer m c w Q →
  (∀ b c' w', Q (Ok b) c' w' → serves identity peer (k b) c' w' R) →
  (∀ e c' w', Q (Err e) c' w' → R (Err e) c' w') →
  (∀ c' w', Q Panic c' w' → R Panic c' w') →
  serves identity peer (m ≫= k) c w R.
Proof.
  intros Hm Hk He Hp. unfold serves. apply wp_bind. eapply wp_mono; [exact Hm|]. cbn beta.
  intros [b|e|] c' w' [Hs HQ]; [|auto..]. eapply wp_mono; [by apply Hk|].
  intros r c2 w2 [Hs2 HR]. split; [by eapply served_trans|done].
Qed.

Lemma serve_one_serves `{!SerdeLaws (Request V), !SerdeTotal (Response V)} identity peer c w :
  serves identity peer (serve_one peer identity) c w (λ r c' _,
    r = Ok true → (length (incoming (conn_stream c')) < length (incoming (conn_stream c)))%nat).
Proof.
  set (n := length (incoming (conn_stream c))). unfold serve_one.
  eapply (serves_bind _ _ _ _ _ _ (λ r c' w', (length (incoming (conn_stream c')) < n)%nat ∨
    ∃ e, r = Ok (Err e))); [| |done..].
  { unfold serves. apply wp_try. eapply wp_mono; [apply (serves_read_frame identity peer)|].
    cbn beta. intros [f|e|] c' w' (Hs & _ & _ & Hr); [| |done]; (split; [done|]); [|eauto].
    left. unfold n. lia. }
  intros [f|e|] c' w' Hc; [| |unfold serves; wp_step; split; [apply served_refl|done]].
  2: { cbv zeta. destruct (contains _ _).
       - unfold serves. wp_step. split; [apply served_refl|done].
       - eapply serves_bind; [apply serves_best_effort| |done..].
         intros [] c2 w2 _. unfold serves. wp_step. split; [apply served_refl|done]. }
  pose proof (from_json_no_panic (A := Request V) (from_bytes f)).
  assert (Hlt : (length (incoming (conn_stream c')) < n)%nat) by naive_solver.
  destruct (from_json (from_bytes f)) as [request|m|]; [| |done].
  - eapply serves_bind; [apply serves_dispatch| |done..].
    intros resp c2 w2 Hc2. cbn beta in Hc2. pose proof (to_json_no_panic resp).
    eapply (serves_bind _ _ _ _ _ _ (λ r c' w', c' = c2)); [| |done..].
    { unfold serves. destruct (to_json resp); cbn [map_err]; [| |done];
        wp_step; (split; [apply served_refl|done]). }
    intros rb c3 w3 ->.
    eapply (serves_bind _ _ _ _ _ _ (λ r c' w', (length (incoming (conn_stream c')) < n)%nat));
      [| |done..].
    { unfold serves. eapply wp_mono; [apply (serves_write_frame identity peer)|]. cbn beta.
      intros r c4 w4 [Hs _]. split; [done|]. destruct Hs as (_ & Hl & _). rewrite Hc2 in Hl. lia. }
    intros [] c4 w4 Hl. unfold serves. wp_step. split; [apply served_refl|done].
  - eapply (serves_bind _ _ _ _ _ _ (λ r c' w', (length (incoming (conn_stream c')) < n)%nat));
      [| |done..].
    { unfold serves. eapply wp_mono; [apply (serves_best_effort identity peer)|]. cbn beta.
      intros r c4 w4 [Hs _]. split; [done|]. destruct Hs as (_ & Hl & _). lia. }
    intros [] c4 w4 Hl. unfold serves. wp_step. split; [apply served_refl|done].
Qed.

Lemma request_loop_serves `{!SerdeLaws (Request V), !SerdeTotal (Response V)} fuel identity peer c w :
  (length (incoming (conn_stream c)) < fuel)%nat →
  serves identity peer (request_loop fuel peer identity) c w (λ r _ _, r ≠ Ok None).
Proof.
  revert c w. induction fuel as [|fuel IH]; intros c w Hf; [lia|]. cbn [request_loop].
  eapply serves_bind; [apply serve_one_serves| |done..].
  intros [] c' w' Hgo; [apply IH; specialize (Hgo eq_refl); lia|].
  unfold serves. wp_step. split; [apply served_refl|done].
Qed.

(** Before authentication: the vault is not touched. *)
Definition quiet c w c' w' : Prop :=
  conn_vault c' = conn_vault c ∧ world_le w w' ∧
  ∀ identity peer, served identity peer c w c' w'.

Lemma quiet_refl c w : quiet c w c w.
Proof. split; [done|]. split; [done|]. intros. apply served_refl. Qed.
Lemma quiet_trans c1 w1 c2 w2 c3 w3 : quiet c1 w1 c2 w2 → quiet c2 w2 c3 w3 → quiet c1 w1 c3 w3.
Proof.
  intros (Hv & Hw & Hs) (Hv' & Hw' & Hs'). split; [congruence|]. split; [by etrans|].
  intros. by eapply served_trans.
Qed.

Lemma quiet_all {B} (m : M (Conn K S A) Error B) c w
    (Q : outcome Error B → Conn K S A → Prop) :
  (∀ identity peer, serves identity peer m c w (λ r c' w',
     conn_vault c' = conn_vault c ∧ world_le w w' ∧ Q r c')) →
  wp m c w (λ r c' w', quiet c w c' w' ∧ Q r c').
Proof.
  intros Hm. unfold serves, wp in *. destruct (m c w) as [[r c'] w'] eqn:Hrun.
  destruct (Hm (mkConnectionIdentity Admin None "") Anonymous) as (_ & Hv & Hw & HQ).
  split; [|done]. split; [done|]. split; [done|]. intros identity peer. apply (Hm identity peer).
Qed.

(** The bytes start with a frame: its length, and its payload. *)
Definition first_frame (bs payload : bytes) : Prop :=
  ∃ len_buf rest, length len_buf = 4%nat ∧
    from_be_bytes len_buf = Z.of_nat (length payload) ∧ bs = len_buf ++ payload ++ rest.

Lemma quiet_read_frame c w :
  wp (on_stream read_frame) c w (λ r c' w', quiet c w c' w' ∧ r ≠ Panic ∧
    ∀ f, r = Ok f → first_frame (incoming (conn_stream c)) f ∧
      (length (incoming (conn_stream c')) < length (incoming (conn_stream c)))%nat).
Proof.
  apply quiet_all. intros identity peer.
  assert (Hf : wp (on_stream (K := K) (S := S) (A := A) read_frame) c w (λ r _ _,
    ∀ f, r = Ok f → first_frame (incoming (conn_stream c)) f)).
  { unfold on_stream. apply wp_zoom. wp_call read_frame_wp. intros r s' w' (_ & _ & Hr) f ->.
    destruct Hr as (_ & lb & Hlb & Hn & Hin). by exists lb, (incoming s'). }
  eapply wp_mono; [apply (wp_conj _ _ _ _ _ Hf (serves_read_frame identity peer c w))|]. cbn beta.
  intros r c' w' [Hfr (Hs & Hv & Hw & Hr)]. split; [done|]. split; [done|]. split; [done|].
  destruct r; [|done..]. split; [done|]. intros f Heq. split; [by apply Hfr|lia].
Qed.

Lemma quiet_send_hello `{!SerdeLaws ServerHello} hello c w :
  wp (send_hello hello) c w (λ r c' w', quiet c w c' w' ∧ r ≠ Panic).
Proof.
  unfold send_hello. pose proof (to_json_no_panic hello). wp_step.
  destruct (to_json hello) as [t|e|]; cbn [map_err]; [| |done]; wp_step.
  - apply (quiet_all _ _ _ (λ r _, r ≠ Panic)). intros identity peer. apply serves_write_frame.
  - split; [apply quiet_refl|done].
Qed.

(** The peer identity a connection acts under once its hello has been read. *)
Definition effective_peer (peer : PeerIdentity) (token : option string) : PeerIdentity :=
  match token with
  | Some t => PeerIdentity_set_token_hash peer (hash_token t)
  | None => peer
  end.

Context `{!SerdeLaws ClientHello, !SerdeLaws ServerHello}.
Context `{!SerdeLaws (Request V), !SerdeTotal (Response V)}.

(** The client has introduced itself: the bytes it sends start with the frame of a hello
    that the server understands. *)
Definition introduced (bs : bytes) (hello : ClientHello) : Prop :=
  ∃ payload, first_frame bs payload ∧ from_json (from_bytes payload) = Ok hello ∧
    chello_protocol hello = PROTOCOL_NAME ∧ chello_version hello ≤ CURRENT_VERSION.

(** The handshake does not touch the vault, and accepts a client whose hello carries a token
    that the authenticator accepts. *)
Definition handshake_post (peer : PeerIdentity) (authenticator : T) c w
    (r : outcome Error (option (PeerIdentity * ConnectionIdentity))) c' w' : Prop :=
  quiet c w c' w' ∧ r ≠ Panic ∧
  ∀ peer' identity, r = Ok (Some (peer', identity)) →
    (length (incoming (conn_stream c')) < length (incoming (conn_stream c)))%nat ∧
    ∃ hello, introduced (incoming (conn_stream c)) hello ∧
      peer' = effective_peer peer (chello_token hello) ∧
      authenticate authenticator peer' (chello_token hello) = Some identity.

Lemma handshake_wp peer authenticator c w :
  wp (handshake peer authenticator) c w (handshake_post peer authenticator c w).
Proof.
  assert (Hreject : ∀ hello c1 w1, quiet c w c1 w1 →
    wp (send_hello hello;; mret None) c1 w1 (handshake_post peer authenticator c w)).
  { intros hello c1 w1 Hq. wp_step. wp_call quiet_send_hello.
    intros [[]|e|] c2 w2 [Hq2 Hp]; [| |done]; try wp_step; (split; [by eapply quiet_trans|done]). }
  unfold handshake. wp_step. wp_call quiet_read_frame.
  intros [hb|e|] c1 w1 (Hq & Hp & Hlen); [|done..].
  wp_step. pose proof (from_json_no_panic (A := ClientHello) (from_bytes hb)).
  destruct (from_json (from_bytes hb)) as [hello|e|] eqn:Hjson; cbn [map_err]; [| |done]; wp_step; [|done].
  wp_step; [by apply Hreject|]. apply negb_false_iff, bool_decide_eq_true in Hb as Hproto. clear Hb.
  wp_step; [by apply Hreject|]. apply Z.ltb_ge in Hb as Hver.
  wp_step. wp_call quiet_send_hello. intros [[]|e|] c2 w2 [Hq2 Hp2]; [| |done].
  2:{ split; [by eapply quiet_trans|done]. }
  cbv zeta. fold (effective_peer peer (chello_token hello)).
  destruct (authenticate _ _ _) as [identity|] eqn:Hauth; wp_step;
    (split; [by eapply quiet_trans|]); (split; [done|]); [|done].
  intros peer' identity' [= <- <-]. destruct (Hlen _ eq_refl) as [Hfirst Hlt]. split.
  - destruct Hq2 as (_ & _ & Hs2), (Hs2 identity peer) as (_ & Hl & _). lia.
  - exists hello. split; [|done]. by exists hb.
Qed.

Definition connection_post (peer : PeerIdentity) (authenticator : T) c w
    (r : outcome Error (option unit)) c' w' : Prop :=
  r ≠ Ok None ∧
  (quiet c w c' w' ∨ ∃ hello identity, introduced (incoming (conn_stream c)) hello ∧
     let token := chello_token hello in
     authenticate authenticator (effective_peer peer token) token = Some identity ∧
     served identity (effective_peer peer token) c w c' w').

Lemma handle_connection_wp peer authenticator c w :
  wp (handle_connection peer authenticator) c w (connection_post peer authenticator c w).
Proof.
  unfold handle_connection. wp_step. wp_call handshake_wp.
  intros [[[peer' identity]|]|e|] c1 w1 (Hq & Hp & Hauth); [| |split; auto|done].
  2: { wp_step. split; auto. }
  destruct (Hauth _ _ eq_refl) as (_ & hello & Hin & -> & Ha).
  do 2 wp_step. eapply wp_mono; [apply request_loop_serves; lia|]. cbn beta.
  intros r c3 w3 [Hs Hr]. split; [done|]. right. exists hello, identity.
  split; [done|]. split; [done|]. eapply served_trans; [apply Hq|exact Hs].
Qed.

(** C2. Only an authenticated connection touches the vault. Whatever bytes a client sends
    before it closes the connection, the handler returns; and either the vault is as it was,
    or those bytes start with the frame of a hello in a protocol version the server speaks,
    the authenticator accepts the token of that very hello under the peer identity of the
    connection with the hash of that token, and the vault has moved by operations permitted
    to the identity it gives. *)
Theorem connection_authenticated peer authenticator c w r c' w' :
  handle_connection peer authenticator c w = (r, c', w') →
  r ≠ Ok None ∧
  (conn_vault c' = conn_vault c ∨ ∃ hello identity,
     introduced (incoming (conn_stream c)) hello ∧
     let token := chello_token hello in
     authenticate authenticator (effective_peer peer token) token = Some identity ∧
     rtc (pstep identity (effective_peer peer token)) (conn_vault c, w) (conn_vault c', w')).
Proof.
  intros Hrun.
  destruct (wp_run _ _ _ _ _ _ _ (handle_connection_wp peer authenticator c w) Hrun)
    as [Hr [[Hv _]|(hello & identity & Hin & Ha & Hs & _)]]; (split; [done|]); [by left|].
  right. by exists hello, identity.
Qed.

Lemma psteps_vsteps identity peer x y : rtc (pstep identity peer) x y → rtc vstep x y.
Proof.
  induction 1 as [|x y z Hxy _ IH]; [reflexivity|]. eapply rtc_l; [|exact IH].
  destruct Hxy as [v w w' Hw|op v w r v' w' _ Hop]; [by constructor|by eapply vs_op].
Qed.

(** Everything a client can do over the wire is a history of vault operations: a
    connection started on a reachable vault leaves a reachable vault, and if the transport
    does not fail, the server has answered with a sequence of whole frames of at most
    1 MiB each. *)
Theorem connection_reachable peer authenticator c w r c' w' :
  reachable (conn_vault c) w →
  handle_connection peer authenticator c w = (r, c', w') →
  reachable (conn_vault c') w' ∧
  (Reliable → ∃ ps, Forall fits ps ∧
     outgoing (conn_stream c') = outgoing (conn_stream c) ++ concat (frame_bytes <$> ps)).
Proof.
  intros (v0 & w0 & Hini & Hr0) Hrun.
  destruct (wp_run _ _ _ _ _ _ _ (handle_connection_wp peer authenticator c w) Hrun)
    as [_ [(_ & _ & Hs)|(hello & identity & _ & _ & Hs)]].
  - destruct (Hs (mkConnectionIdentity Admin None "") Anonymous) as (Hst & _ & Ho).
    split; [|done]. exists v0, w0. split; [done|]. etrans; [done|]. by eapply psteps_vsteps.
  - destruct Hs as (Hst & _ & Ho).
    split; [|done]. exists v0, w0. split; [done|]. etrans; [done|]. by eapply psteps_vsteps.
Qed.
End connection.

(** ** Witnesses *)

(** A JSON value for every type of the protocol. *)
Inductive DemoValue :=
  | DVNull
  | DVEmpty
  | DVStoreSecret (name plaintext : string) (kind : DemoValue) (description : option string)
  | DVRequestLease (r : RequestLeaseRequest)
  | DVAccessSecret (r : AccessSecretRequest)
  | DVAccessResponse (r : AccessSecretResponse)
  | DVRevokeLease (id : Uuid) (reason : DemoValue)
  | DVRevokeAll (r : RevokeAllForAgentRequest)
  | DVRevokeAllResponse (r : RevokeAllForAgentResponse)
  | DVListRequest (r : ListSecretsRequest)
  | DVListResponse (l : list DemoValue)
  | DVRenewLease (r : RenewLeaseRequest)
  | DVDeleteSecret (r : DeleteSecretRequest)
  | DVKind (k : SecretKind)
  | DVReason (r : RevocationReason)
  | DVMetadata (m : SecretMetadata)
  | DVGrant (g : LeaseGrant).

Definition demo_codec {B} (inj : B → DemoValue) (proj : DemoValue → option B)
    : SerdeValue DemoValue B := {|
  to_value := λ b, Ok (inj b);
  from_value := λ v, match proj v with Some b => Ok b | None => Err "invalid type" end
|}.
Lemma demo_codec_laws {B} (inj : B → DemoValue) proj :
  (∀ b, proj (inj b) = Some b) → @SerdeValueLaws DemoValue B (demo_codec inj proj).
Proof.
  intros Hp. constructor; unfold to_value, from_value; cbn [demo_codec].
  - done.
  - intros v. by destruct (proj v).
  - intros a v [= <-]. by rewrite Hp.
Qed.

Definition demo_Wire : Wire DemoValue := {|
  wire_store_secret := demo_codec
    (λ r, DVStoreSecret (ssr_name r) (ssr_plaintext r) (ssr_kind r) (ssr_description r))
    (λ v, match v with DVStoreSecret n p k d => Some (mkStoreSecretRequest n p k d) | _ => None end);
  wire_request_lease := demo_codec DVRequestLease
    (λ v, match v with DVRequestLease r => Some r | _ => None end);
  wire_access_secret := demo_codec DVAccessSecret
    (λ v, match v with DVAccessSecret r => Some r | _ => None end);
  wire_access_response := demo_codec DVAccessResponse
    (λ v, match v with DVAccessResponse r => Some r | _ => None end);
  wire_revoke_lease := demo_codec (λ r, DVRevokeLease (rvl_lease_id r) (rvl_reason r))
    (λ v, match v with DVRevokeLease i x => Some (mkRevokeLeaseRequest i x) | _ => None end);
  wire_revoke_all := demo_codec DVRevokeAll
    (λ v, match v with DVRevokeAll r => Some r | _ => None end);
  wire_revoke_all_response := demo_codec DVRevokeAllResponse
    (λ v, match v with DVRevokeAllResponse r => Some r | _ => None end);
  wire_list_request := demo_codec DVListRequest
    (λ v, match v with DVListRequest r => Some r | _ => None end);
  wire_list_response := demo_codec (λ r, DVListResponse (lsr_secrets r))
    (λ v, match v with DVListResponse l => Some (mkListSecretsResponse l) | _ => None end);
  wire_renew_lease := demo_codec DVRenewLease
    (λ v, match v with DVRenewLease r => Some r | _ => None end);
  wire_delete_secret := demo_codec DVDeleteSecret
    (λ v, match v with DVDeleteSecret r => Some r | _ => None end);
  wire_kind := demo_codec DVKind (λ v, match v with DVKind r => Some r | _ => None end);
  wire_reason := demo_codec DVReason (λ v, match v with DVReason r => Some r | _ => None end);
  wire_metadata := demo_codec DVMetadata
    (λ v, match v with DVMetadata r => Some r | _ => None end);
  wire_grant := demo_codec DVGrant (λ v, match v with DVGrant r => Some r | _ => None end);
  empty_object := DVEmpty;
  json_null := DVNull
|}.
Definition demo_WireLaws : @WireLaws DemoValue demo_Wire.
Proof. constructor; first [apply demo_codec_laws; by intros []|done]. Qed.

Definition demo_Base64 : Base64 := {|
  b64_encode := from_bytes;
  b64_decode := λ s, Ok (as_bytes s)
|}.
Definition demo_Base64Laws : @Base64Laws demo_Base64.
Proof.
  constructor; unfold b64_decode, b64_encode; cbn [demo_Base64]; [|done].
  intros b. by rewrite as_from_bytes.
Qed.

(** JSON texts for the messages of one short conversation. *)
Definition demo_hello : Serde ClientHello := {|
  to_json := λ _, Err "unsupported";
  from_json := λ s, if decide (s = "hello") then Ok (ClientHello_with_token "tok")
                    else Err "unsupported"
|}.
Definition demo_server_hello : Serde ServerHello := {|
  to_json := λ h, match h with
    | mkServerHello p v true None =>
        if decide (p = PROTOCOL_NAME ∧ v = 1) then Ok "welcome" else Err "unsupported"
    | _ => Err "unsupported" end;
  from_json := λ s, if decide (s = "welcome") then Ok (ServerHello_accept 1)
                    else Err "unsupported"
|}.
Definition demo_request : Serde (Request DemoValue) := {|
  to_json := λ _, Err "unsupported";
  from_json := λ s, if decide (s = "list") then Ok (mkRequest 5%N LIST_SECRETS DVEmpty)
                    else Err "unsupported"
|}.
Definition demo_response : Serde (Response DemoValue) := {|
  to_json := λ r, match r with
    | mkResponse 5%N true (Some (DVListResponse [])) None => Ok "none"
    | _ => Err "unsupported" end;
  from_json := λ s, if decide (s = "none")
                    then Ok (mkResponse 5%N true (Some (DVListResponse [])) None)
                    else Err "unsupported"
|}.

Module DemoWireInstances.
#[export] Existing Instance demo_Wire.
#[export] Existing Instance demo_WireLaws.
#[export] Existing Instance demo_Base64.
#[export] Existing Instance demo_Base64Laws.
#[export] Existing Instance demo_StreamIO.
#[export] Existing Instance demo_Sha256.
#[export] Existing Instance demo_hello.
#[export] Existing Instance demo_server_hello.
#[export] Existing Instance demo_request.
#[export] Existing Instance demo_response.
End DemoWireInstances.
Import DemoInstances DemoWireInstances.

#[local] Instance demo_hello_laws : SerdeLaws ClientHello.
Proof.
  constructor; unfold to_json, from_json; cbn [demo_hello]; [done| |done].
  intros s. by case_decide.
Qed.
#[local] Instance demo_request_laws : SerdeLaws (Request DemoValue).
Proof.
  constructor; unfold to_json, from_json; cbn [demo_request]; [done| |done].
  intros s. by case_decide.
Qed.
#[local] Instance demo_server_hello_laws : SerdeLaws ServerHello.
Proof.
  constructor; unfold to_json, from_json; cbn [demo_server_hello].
  - intros [p v [] [e|]]; try done. by case_decide.
  - intros s. by case_decide.
  - intros [p v [] [e|]] s; try done. case_decide as Hd; [|done]. intros [= <-].
    rewrite decide_True by done. by destruct Hd as [-> ->].
Qed.
#[local] Instance demo_response_laws : SerdeTotal (Response DemoValue).
Proof.
  constructor; unfold to_json, from_json; cbn [demo_response].
  - intros r. by repeat case_match.
  - intros s. by case_decide.
Qed.

Definition bound_identity : ConnectionIdentity :=
  mkConnectionIdentity Agent (Some demo_agent) "ci token".
Definition lease_request : Request DemoValue :=
  mkRequest 5%N REQUEST_LEASE (DVRequestLease (mkRequestLeaseRequest "root" "github"
    "*.example.com")).

Lemma dispatch_permitted_witness :
  ∃ resp v' w',
    demo_run ops_stored (dispatch lease_request demo_peer bound_identity) = (Ok resp, v', w') ∧
    answers 5%N resp.
Proof.
  assert (∃ resp v' w', demo_run ops_stored
    (dispatch lease_request demo_peer bound_identity) = (Ok resp, v', w'))
    as (resp & v' & w' & Hrun) by demo_runs.
  exists resp, v', w'. split; [exact Hrun|].
  exact (proj1 (dispatch_permitted _ _ _ _ _ _ _ _ Hrun)).
Defined.

Lemma admin_role_required_witness :
  demo_run ops_stored (dispatch (mkRequest 5%N LIST_SECRETS DVEmpty) demo_peer bound_identity) =
    (Ok (role_denied (mkRequest 5%N LIST_SECRETS DVEmpty) bound_identity),
     (demo_after ops_stored).1, (demo_after ops_stored).2).
Proof.
  refine (proj1 (admin_role_required (mkRequest 5%N LIST_SECRETS DVEmpty) demo_peer
    bound_identity (demo_after ops_stored).1 (demo_after ops_stored).2 _) _).
  - done.
  - do 2 apply list_elem_of_further. apply list_elem_of_here.
Defined.

Lemma agent_binding_enforced_witness :
  ∃ resp v' w',
    demo_run ops_stored (dispatch lease_request demo_peer bound_identity) = (Ok resp, v', w') ∧
    leases_for demo_agent (vault_leases (demo_after ops_stored).1) (vault_leases v').
Proof.
  assert (∃ resp v' w', demo_run ops_stored
    (dispatch lease_request demo_peer bound_identity) = (Ok resp, v', w'))
    as (resp & v' & w' & Hrun) by demo_runs.
  exists resp, v', w'. split; [exact Hrun|].
  exact (agent_binding_enforced lease_request demo_peer bound_identity demo_agent _ _ _ _ _
    eq_refl eq_refl Hrun).
Defined.

(** A client says hello and lists the secrets of an empty vault. *)
Definition demo_conn : Conn (KmsSource (list (string * bytes))) RusqliteStore (list AuditEntry) :=
  mkConn demo_vault (mkStream (frame_bytes (as_bytes "hello") ++ frame_bytes (as_bytes "list")) []).

Lemma connection_authenticated_witness :
  ∃ c' w',
    handle_connection (V := DemoValue) demo_peer mkAllowAllAdmin demo_conn demo_world
      = (Ok (Some tt), c', w') ∧
    (conn_vault c' = conn_vault demo_conn ∨ ∃ hello identity,
       introduced (incoming (conn_stream demo_conn)) hello ∧
       let token := chello_token hello in
       authenticate mkAllowAllAdmin (effective_peer demo_peer token) token = Some identity ∧
       rtc (pstep identity (effective_peer demo_peer token)) (demo_vault, demo_world)
         (conn_vault c', w')).
Proof.
  assert (∃ c' w', handle_connection (V := DemoValue) demo_peer mkAllowAllAdmin demo_conn
    demo_world = (Ok (Some tt), c', w')) as (c' & w' & Hrun) by demo_runs.
  exists c', w'. split; [exact Hrun|].
  exact (proj2 (connection_authenticated _ _ _ _ _ _ _ Hrun)).
Defined.

Lemma connection_reachable_witness :
  ∃ c' w',
    handle_connection (V := DemoValue) demo_peer mkAllowAllAdmin demo_conn demo_world
      = (Ok (Some tt), c', w') ∧
    reachable (conn_vault c') w' ∧ outgoing (conn_stream c') ≠ [].
Proof.
  assert (∃ c' w', handle_connection (V := DemoValue) demo_peer mkAllowAllAdmin demo_conn
    demo_world = (Ok (Some tt), c', w')) as (c' & w' & Hrun) by demo_runs.
  exists c', w'. split; [exact Hrun|].
  split; [exact (proj1 (connection_reachable demo_peer mkAllowAllAdmin demo_conn demo_world _ _ _
    (demo_after_reachable []) Hrun))|].
  assert (Hc : c' = (handle_connection (V := DemoValue) demo_peer mkAllowAllAdmin demo_conn
    demo_world).1.2) by (by rewrite Hrun). rewrite Hc. vm_compute. discriminate.
Defined.
