(* ===== verification/ServerThreads.v ===== *)
(** The connections of the server with their awaits: [src/server.rs].

    [dispatch], the request loop and [handle_connection] once more, as programs over the
    vault and the stream of the connection: a request runs the program of the vault
    operation it asks for, lock by lock and await by await. The handshake, and after it the
    reading or writing of a frame, is one action: the stream belongs to the connection and
    no other task touches it. Run alone, the programs are the handlers of [Server]. *)
From S2P Require Import Prelude Threads Text Concrete Types Lease Policy Session.
From S2P Require Import Store Crypto KeySource Auth AuditEvents Vault VaultProps VaultThreads.
From S2P Require Import Frame Protocol Server.

Local Open Scope string_scope.
Local Open Scope Z_scope.
Local Open Scope list_scope.

(** ** Programs on a part of the state *)

Section zooming.
Context {St T E L : Type} (get : St → T) (put : T → St → St).

Fixpoint pzoom {B} (p : Prog T E L B) : Prog St E L B :=
  match p with
  | Ret r => Ret r
  | Acquire l m k => Acquire l m (pzoom k)
  | Release l k => Release l (pzoom k)
  | Act a k => Act (zoom get put a) (λ r, pzoom (k r))
  end.

(** What is put is what there is, and the last to put is right. *)
Class Lens : Prop := {
  lens_get_put : ∀ x s, get (put x s) = x;
  lens_put_get : ∀ s, put (get s) s = s;
  lens_put_put : ∀ x y s, put y (put x s) = put y s
}.

Lemma run_prog_zoom `{!Lens} {B} (p : Prog T E L B) :
  run_prog (pzoom p) ≈ zoom get put (run_prog p).
Proof.
  intros s w. unfold zoom. revert s w.
  induction p as [r|l m k IH|l k IH|C a k IH]; intros s w; simpl; [|apply IH..|].
  - by rewrite lens_put_get.
  - unfold zoom. destruct (a (get s) w) as [[r x] w']. rewrite IH, lens_get_put.
    destruct (run_prog (k r) x w') as [[r' y] w2]. by rewrite lens_put_put.
Qed.
End zooming.

(** [match p.await { .. }]: the outcome as a value. *)
Definition ptry {St E L B} (p : Prog St E L B) : Prog St E L (outcome E B) :=
  pseq p (λ r, match r with Panic => Ret Panic | r => Ret (Ok r) end).
Lemma run_prog_try {St E L B} (p : Prog St E L B) : run_prog (ptry p) ≈ try_ (run_prog p).
Proof.
  intros s w. unfold ptry, try_. rewrite run_prog_seq.
  by destruct (run_prog p s w) as [[[b|e|] s'] w'].
Qed.
#[global] Instance try_proper {St E F A} :
  Proper (eqM ==> eqM) (try_ (St := St) (E := E) (F := F) (A := A)).
Proof. intros m m' Hm s w. unfold try_. by rewrite Hm. Qed.
#[global] Instance zoom_proper {St T E A} (get : St → T) (put : T → St → St) :
  Proper (eqM ==> eqM) (zoom (E := E) (A := A) get put).
Proof. intros m m' Hm s w. unfold zoom. by rewrite Hm. Qed.

(** ** Requests *)

Section dispatch.
Context {K S A V : Type}.
Context `{!Env, !Chrono, !UuidText, !HashIter, !Aead}.
Context `{!KeySource K, !SecretStore S, !AuditLog A}.
Context `{!Wire V, !Base64}.
Abbreviation VP := (Prog (Vault K S A) Error VaultLock).
Implicit Type request : Request V.

Definition parse_params_prog {B} `{!SerdeValue V B} request (k : B → VP (Response V))
    : VP (Response V) :=
  match from_value (request_params request) with
  | Ok r => k r
  | Err e => mret (invalid_request (request_id request) ("invalid params: " +:+ e))
  | Panic => Ret Panic
  end.

Definition json_value_prog {B} `{!SerdeValue V B} (id : Uuid) (value : B) : VP (Response V) :=
  match to_value value with
  | Ok v => mret (Response_success id v)
  | Err e => mret (invalid_request id ("serialization failed: " +:+ e))
  | Panic => Ret Panic
  end.
Definition json_response_prog {B} `{!SerdeValue V B} (id : Uuid) (result : VP B)
    : VP (Response V) :=
  r ← ptry result;
  match r with
  | Ok value => json_value_prog id value
  | Err e => mret (Response_from_error id e)
  | Panic => Ret Panic
  end.
Definition unit_response_prog (id : Uuid) (result : VP unit) : VP (Response V) :=
  r ← ptry result;
  match r with
  | Ok _ => mret (Response_success id empty_object)
  | Err e => mret (Response_from_error id e)
  | Panic => Ret Panic
  end.

Definition dispatch_store_secret_prog request (peer : PeerIdentity) : VP (Response V) :=
  let id := request_id request in
  parse_params_prog request (λ req : StoreSecretRequest V,
  match b64_decode (ssr_plaintext req) with
  | Err e => mret (invalid_request id ("invalid base64: " +:+ e))
  | Panic => Ret Panic
  | Ok plaintext =>
    match from_value (ssr_kind req) with
    | Err e => mret (invalid_request id ("invalid kind: " +:+ e))
    | Panic => Ret Panic
    | Ok kind =>
      json_response_prog id
        (store_secret_prog (SecretName_new (ssr_name req)) plaintext kind
           (ssr_description req) peer)
    end
  end).

Definition dispatch_request_lease_prog request (peer : PeerIdentity)
    (identity : ConnectionIdentity) : VP (Response V) :=
  parse_params_prog request (λ req : RequestLeaseRequest,
  let agent := resolve_agent identity (rlr_agent req) in
  json_response_prog (request_id request)
    (request_lease_prog agent (SecretName_new (rlr_secret_name req))
       (DomainScope_new (rlr_domain req)) peer)).

Definition dispatch_access_secret_prog request (peer : PeerIdentity) : VP (Response V) :=
  let id := request_id request in
  parse_params_prog request (λ req : AccessSecretRequest,
  r ← ptry (access_secret_prog (LeaseId_from_uuid (asr_lease_id req))
              (asr_target_domain req) peer);
  match r with
  | Ok guard =>
    let secret := LeaseGuard_expose guard (λ s, b64_encode (as_bytes s)) in
    json_value_prog id (mkAccessSecretResponse secret)
  | Err e => mret (Response_from_error id e)
  | Panic => Ret Panic
  end).

Definition dispatch_revoke_lease_prog request (peer : PeerIdentity) : VP (Response V) :=
  let id := request_id request in
  parse_params_prog request (λ req : RevokeLeaseRequest V,
  match from_value (rvl_reason req) with
  | Err e => mret (invalid_request id ("invalid reason: " +:+ e))
  | Panic => Ret Panic
  | Ok reason =>
    unit_response_prog id
      (revoke_lease_prog (LeaseId_from_uuid (rvl_lease_id req)) reason peer)
  end).

Definition dispatch_revoke_all_prog request (peer : PeerIdentity)
    (identity : ConnectionIdentity) : VP (Response V) :=
  parse_params_prog request (λ req : RevokeAllForAgentRequest,
  let agent := resolve_agent identity (raa_agent req) in
  json_response_prog (request_id request)
    (count ← revoke_all_for_agent_prog agent peer;
     mret (mkRevokeAllForAgentResponse count))).

Definition dispatch_list_secrets_prog request : VP (Response V) :=
  json_response_prog (request_id request)
    (secrets ← atomic Vault_list_secrets;
     mret (mkListSecretsResponse (omap (λ s : SecretMetadata, ok (to_value s)) secrets))).

Definition dispatch_renew_lease_prog request (peer : PeerIdentity) : VP (Response V) :=
  parse_params_prog request (λ req : RenewLeaseRequest,
  json_response_prog (request_id request)
    (renew_lease_prog (LeaseId_from_uuid (rnl_lease_id req)) (rnl_extension_secs req) peer)).

Definition dispatch_delete_secret_prog request (peer : PeerIdentity) : VP (Response V) :=
  parse_params_prog request (λ req : DeleteSecretRequest,
  unit_response_prog (request_id request)
    (delete_secret_prog (SecretName_new (dsr_name req)) peer)).

Definition dispatch_prog request (peer : PeerIdentity) (identity : ConnectionIdentity)
    : VP (Response V) :=
  let method := request_method request in
  if bool_decide (method ∈ ADMIN_METHODS) && negb (bool_decide (identity_role identity = Admin))
  then mret (role_denied request identity)
  else if str_eqb method STORE_SECRET then dispatch_store_secret_prog request peer
  else if str_eqb method REQUEST_LEASE then dispatch_request_lease_prog request peer identity
  else if str_eqb method ACCESS_SECRET then dispatch_access_secret_prog request peer
  else if str_eqb method REVOKE_LEASE then dispatch_revoke_lease_prog request peer
  else if str_eqb method REVOKE_ALL_FOR_AGENT then dispatch_revoke_all_prog request peer identity
  else if str_eqb method LIST_SECRETS then dispatch_list_secrets_prog request
  else if str_eqb method RENEW_LEASE then dispatch_renew_lease_prog request peer
  else if str_eqb method DELETE_SECRET then dispatch_delete_secret_prog request peer
  else mret (invalid_request (request_id request)
               ("unknown method: " +:+ request_method request)).

(** Alone, a request is what [dispatch] makes of it. *)

Lemma parse_params_alone `{!SerdeValue V B} request (k : B → VP (Response V)) k' :
  (∀ b, run_prog (k b) ≈ k' b) →
  run_prog (parse_params_prog request k) ≈ parse_params request k'.
Proof.
  intros Hk. unfold parse_params_prog, parse_params.
  by destruct (from_value (request_params request)).
Qed.
Lemma json_value_alone `{!SerdeValue V B} id (b : B) :
  run_prog (json_value_prog id b) ≈ json_value id b.
Proof. unfold json_value_prog, json_value. by destruct (to_value b). Qed.
Lemma json_response_alone `{!SerdeValue V B} id (p : VP B) m :
  run_prog p ≈ m → run_prog (json_response_prog id p) ≈ json_response id m.
Proof.
  intros Hp. unfold json_response_prog, json_response. rewrite run_prog_bind, run_prog_try, Hp.
  apply bind_proper; [|done]. intros [b|e|]; [apply json_value_alone|done..].
Qed.
Lemma unit_response_alone id (p : VP unit) m :
  run_prog p ≈ m → run_prog (unit_response_prog id p) ≈ unit_response id m.
Proof.
  intros Hp. unfold unit_response_prog, unit_response. rewrite run_prog_bind, run_prog_try, Hp.
  apply bind_proper; [|done]. by intros [b|e|].
Qed.

Lemma dispatch_alone request peer identity :
  run_prog (dispatch_prog request peer identity) ≈ dispatch request peer identity.
Proof.
  unfold dispatch_prog, dispatch. repeat case_match; try done.
  - apply parse_params_alone. intros req. repeat case_match; try done.
    apply json_response_alone, store_secret_alone.
  - apply parse_params_alone. intros req. apply json_response_alone, request_lease_alone.
  - apply parse_params_alone. intros req. rewrite run_prog_bind, run_prog_try, access_secret_alone.
    apply bind_proper; [|done]. intros [g|e|]; [apply json_value_alone|done..].
  - apply parse_params_alone. intros req. repeat case_match; try done.
    apply unit_response_alone, revoke_lease_alone.
  - apply parse_params_alone. intros req. apply json_response_alone.
    rewrite run_prog_bind. apply bind_proper; [done|]. apply revoke_loop_alone.
  - apply json_response_alone. by rewrite run_prog_bind, run_prog_atomic.
  - apply parse_params_alone. intros req. apply json_response_alone, renew_lease_alone.
  - apply parse_params_alone. intros req. apply unit_response_alone, delete_secret_alone.
Qed.
End dispatch.

(** ** Connections *)

Section connection.
Context {K S A V T : Type}.
Context `{!Env, !StreamIO, !Chrono, !UuidText, !HashIter, !Aead, !Sha256}.
Context `{!KeySource K, !SecretStore S, !AuditLog A, !Authenticator T}.
Context `{!Wire V, !Base64}.
Context `{!Serde ClientHello, !Serde ServerHello, !Serde (Request V), !Serde (Response V)}.
Abbreviation CP := (Prog (Conn K S A) Error VaultLock).

Definition put_vault (v : Vault K S A) (c : Conn K S A) : Conn K S A := mkConn v (conn_stream c).
#[global] Instance conn_vault_lens : Lens conn_vault put_vault.
Proof. split; [done| |done]. by intros []. Qed.

Definition serve_one_prog (peer : PeerIdentity) (identity : ConnectionIdentity) : CP bool :=
  frame ← atomic (try_ (on_stream read_frame));
  match frame with
  | Panic => Ret Panic
  | Err e =>
    let msg := Error_to_string e in
    if contains "unexpected EOF" msg then mret false else
    atomic (send_best_effort (invalid_request 0%N ("frame error: " +:+ msg)));;
    mret false
  | Ok f =>
    match from_json (from_bytes f) with
    | Panic => Ret Panic
    | Err e =>
      atomic (send_best_effort (invalid_request 0%N ("invalid request: " +:+ e)));;
      mret true
    | Ok request =>
      response ← pzoom conn_vault put_vault (dispatch_prog request peer identity);
      resp_bytes ← Ret (map_err (λ e, Transport ("failed to serialize response: " +:+ e))
                          (to_json response));
      atomic (on_stream (write_frame (as_bytes resp_bytes)));;
      mret true
    end
  end.

Fixpoint request_loop_prog (fuel : nat) (peer : PeerIdentity) (identity : ConnectionIdentity)
    : CP (option unit) :=
  match fuel with
  | O => mret None
  | Datatypes.S fuel' =>
    go ← serve_one_prog peer identity;
    if go : bool then request_loop_prog fuel' peer identity else mret (Some tt)
  end.

Definition handle_connection_prog (peer : PeerIdentity) (authenticator : T) : CP (option unit) :=
  accepted ← atomic (handshake peer authenticator);
  match accepted with
  | None => mret (Some tt)
  | Some (peer', identity) =>
    c ← atomic read;
    request_loop_prog (Datatypes.S (length (incoming (conn_stream c)))) peer' identity
  end.

Lemma serve_one_alone peer identity :
  run_prog (serve_one_prog peer identity) ≈ serve_one (V := V) peer identity.
Proof.
  unfold serve_one_prog, serve_one. rewrite run_prog_bind, run_prog_atomic.
  apply bind_proper; [|done]. intros [f|e|]; [| |done].
  - destruct (from_json (from_bytes f)) as [request|e|]; [| |done].
    + rewrite run_prog_bind, (run_prog_zoom conn_vault put_vault), dispatch_alone.
      apply bind_proper; [|done]. intros response. rewrite run_prog_bind.
      apply bind_proper; [|done]. intros b. by rewrite run_prog_bind, run_prog_atomic.
    + by rewrite run_prog_bind, run_prog_atomic.
  - cbv zeta. case_match; [done|]. by rewrite run_prog_bind, run_prog_atomic.
Qed.

Lemma request_loop_alone fuel peer identity :
  run_prog (request_loop_prog fuel peer identity) ≈ request_loop (V := V) fuel peer identity.
Proof.
  induction fuel as [|fuel IH]; [done|]. cbn [request_loop_prog request_loop].
  rewrite run_prog_bind, serve_one_alone. apply bind_proper; [|done]. by intros [|].
Qed.

(** Alone, a connection is served as [handle_connection] serves it. *)
Theorem handle_connection_alone peer authenticator :
  run_prog (handle_connection_prog peer authenticator) ≈
  handle_connection (V := V) peer authenticator.
Proof.
  unfold handle_connection_prog, handle_connection. rewrite run_prog_bind, run_prog_atomic.
  apply bind_proper; [|done]. intros [[peer' identity]|]; [|done].
  rewrite run_prog_bind, run_prog_atomic. apply bind_proper; [|done].
  intros c. apply request_loop_alone.
Qed.
End connection.
