(* ===== verification/ClientServer.v ===== *)
(** A client of [src/client.rs] linked to a server of [src/server.rs].

    The link is the state of a connection past its handshake: the vault, the bytes on their
    way to the server and the bytes on their way to the client. The client blocks until a
    response arrives, and the server's task runs while it waits; so waiting for a frame lets
    the server go through one iteration of its request loop. *)
From S2P Require Import Prelude Text Concrete Types Lease Policy Session Store.
From S2P Require Import RusqliteStore Crypto KeySource Auth AuditEvents Frame Protocol Vault.
From S2P Require Import VaultInv VaultSpec VaultProps Demo Server ServerTheorems Client.

Local Open Scope string_scope.
Local Open Scope Z_scope.
Local Open Scope list_scope.

Section link.
Context {K S A V : Type}.
Context `{!Env, !StreamIO, !Chrono, !UuidText, !HashIter, !Aead}.
Context `{!KeySource K, !SecretStore S, !AuditLog A}.
Context `{!Wire V, !Base64}.
Context `{!Serde ClientHello, !Serde ServerHello, !Serde (Request V), !Serde (Response V)}.
Context (peer : PeerIdentity) (identity : ConnectionIdentity).
Abbreviation CM := (M (Conn K S A) Error).

Lemma bind_assoc {B C D} (m : CM B) (f : B → CM C) (g : C → CM D) c w :
  ((m ≫= f) ≫= g) c w = (m ≫= (λ b, f b ≫= g)) c w.
Proof. unfold mbind, M_bind. by destruct (m c w) as [[[b|e|] c'] w']. Qed.

(** The client's end of the connection: what the server has written is what it reads. *)
Definition flip (s : Stream) : Stream := mkStream (outgoing s) (incoming s).

Definition at_client {B} (m : M Stream Error B) : CM B :=
  zoom (λ c, flip (conn_stream c)) (λ s c, mkConn (conn_vault c) (flip s)) m.

(** The server's task: however it ends, the client's task goes on. *)
Definition isolate (m : CM bool) : CM unit := λ c w,
  match m c w with (_, c', w') => (Ok tt, c', w') end.

Definition link_FrameIO : FrameIO (Conn K S A) := {|
  send_frame := λ data, at_client (write_frame data);
  recv_frame := isolate (serve_one (V := V) peer identity);; at_client read_frame
|}.

#[local] Existing Instance link_FrameIO.

(** ** What a call amounts to *)

(** The empty text is not JSON. *)
Class SerdeEmpty (B : Type) `{!Serde B} := from_json_empty : ∃ e, from_json (A := B) "" = Err e.

Context `{!WireLaws V, !Base64Laws, !SerdeLaws (Request V), !ResponseLaws V}.
Context `{!SerdeEmpty (Response V)}.
Implicit Types (v : Vault K S A) (w : World) (c : Conn K S A).

(** No bytes are on their way. *)
Definition idle v : Conn K S A := mkConn v (mkStream [] []).

(** The errors that say that a message was lost or not understood. *)
Definition protocol_failure (e : Error) : Prop :=
  is_transport e ∨ ∃ msg, e = Remote CODE_INVALID_REQUEST msg.

(** The vault was left alone, or [m] was run on it once. *)
Definition at_most_once {B} (m : M (Vault K S A) Error B) v w v' w' : Prop :=
  (v' = v ∧ world_le w w') ∨
  ∃ r w1 w2, world_le w w1 ∧ m v w1 = (r, v', w2) ∧ world_le w2 w'.

(** A server's error as the client reports it. *)
Definition remote (e : Error) : Error := Remote (error_to_code e) (Error_to_string e).

(** [call] over an idle link is [m] on the vault: it delivers what [m] delivers, as [f]
    represents it, or the error of [m] as a remote error; or it reports a protocol failure
    and [m] has been run at most once. *)
Definition call_post {B C} (m : M (Vault K S A) Error B) (f : B → C) v w
    (r : outcome Error C) (c' : Conn K S A) w' : Prop :=
  match r with
  | Ok x => ∃ b w1 w2, world_le w w1 ∧ m v w1 = (Ok b, conn_vault c', w2) ∧
      world_le w2 w' ∧ x = f b ∧ c' = idle (conn_vault c')
  | Err e => (protocol_failure e ∧ at_most_once m v w (conn_vault c') w') ∨
      ∃ e' w1 w2, e = remote e' ∧ world_le w w1 ∧ m v w1 = (Err e', conn_vault c', w2) ∧
        world_le w2 w' ∧ c' = idle (conn_vault c')
  | Panic => False
  end.
Definition call_refines {B C} (call : CM C) (m : M (Vault K S A) Error B) (f : B → C) : Prop :=
  ∀ v w r c' w', call (idle v) w = (r, c', w') → call_post m f v w r c' w'.

(** The server never answers with [null]. *)
Lemma json_value_not_null {B} `{!SerdeValue V B} id (b : B) v w :
  to_value b ≠ Ok json_null →
  wp (json_value id b : M (Vault K S A) Error _) v w
    (λ r _ _, ∀ resp : Response V, r = Ok resp → not_null resp).
Proof.
  intros Hb. unfold json_value. destruct (to_value b) as [x|e|]; wp_step; [|by intros resp [= <-]|done].
  intros resp [= <-] [= ->]. done.
Qed.
Lemma json_response_not_null {B} `{!SerdeValue V B} id (m : M (Vault K S A) Error B) v w :
  (∀ b, to_value b ≠ Ok json_null) →
  wp (json_response id m) v w (λ r _ _, ∀ resp : Response V, r = Ok resp → not_null resp).
Proof.
  intros Hb. unfold wp, json_response, mbind, M_bind, try_.
  destruct (m v w) as [[[b|e|] v'] w']; [|by intros resp [= <-]|done].
  by apply (json_value_not_null id b v' w').
Qed.
Lemma unit_response_not_null id (m : M (Vault K S A) Error unit) v w :
  wp (unit_response id m) v w (λ r _ _, ∀ resp : Response V, r = Ok resp → not_null resp).
Proof.
  unfold wp, unit_response, mbind, M_bind, try_.
  destruct (m v w) as [[[b|e|] v'] w']; [|by intros resp [= <-]|done].
  intros resp [= <-] [= Hn]. by apply object_empty in Hn.
Qed.
Lemma dispatch_not_null (request : Request V) v w resp v' w' :
  dispatch request peer identity v w = (Ok resp, v', w') → not_null resp.
Proof.
  intros Hrun. eapply (wp_run _ _ _ (λ r _ _, ∀ resp, r = Ok resp → not_null resp) _ _ _); [|exact Hrun|done].
  clear Hrun. unfold dispatch, dispatch_store_secret, dispatch_request_lease, dispatch_access_secret,
    dispatch_revoke_lease, dispatch_revoke_all, dispatch_list_secrets, dispatch_renew_lease,
    dispatch_delete_secret, parse_params.
  repeat case_match; try (wp_step; by intros ? [= <-]);
    try (apply json_response_not_null; intros b;
         first [apply object_metadata|apply object_grant|apply object_revoke_all_response
               |apply object_list_response]);
    try apply unit_response_not_null.
  unfold wp, mbind, M_bind, try_. destruct (Vault_access_secret _ _ _ _ _) as [[[g|e|] v1] w1];
    [|by intros ? [= <-]|done].
  apply (json_value_not_null _ _ v1 w1), object_access_response.
Qed.

(** What the server has on its way to the client after [serve_one]: a prefix of the frame of
    the response to the request, or of an error frame. *)
Definition replied (request : Request V) v w (c' : Conn K S A) w' : Prop :=
  let out := outgoing (conn_stream c') in
  (conn_vault c' = v ∧ world_le w w' ∧ ∃ msg text, out `prefix_of` frame_bytes (as_bytes text) ∧
     (fits (as_bytes text) ∨ out = []) ∧
     (text = "" ∨ to_json (invalid_request 0%N msg : Response V) = Ok text)) ∨
  ∃ rd w1 w2, world_le w w1 ∧ dispatch request peer identity v w1 = (rd, conn_vault c', w2) ∧
    world_le w2 w' ∧ incoming (conn_stream c') = [] ∧
    (out = [] ∨ ∃ resp text, rd = Ok resp ∧ to_json resp = Ok text ∧ fits (as_bytes text) ∧
       out `prefix_of` frame_bytes (as_bytes text)).

Lemma best_effort_wp resp v i w :
  wp (send_best_effort resp : CM unit) (mkConn v (mkStream i [])) w (λ r c' w',
    r = Ok tt ∧ world_le w w' ∧ ∃ text out, c' = mkConn v (mkStream i out) ∧
      out `prefix_of` frame_bytes (as_bytes text) ∧ (fits (as_bytes text) ∨ out = []) ∧
      (text = "" ∨ to_json resp = Ok text)).
Proof.
  unfold send_best_effort, on_stream. wp_step. wp_step. wp_step.
  eapply wp_mono; [apply wp_conj; [apply write_frame_prefix_wp|apply write_frame_wp]|].
  intros r s' w' ((p & -> & Hp & Hf) & Hw & _ & Hr & _).
  assert (∃ text out, mkConn v (mkStream i ([] ++ p)) = mkConn v (mkStream i out) ∧
    out `prefix_of` frame_bytes (as_bytes text) ∧ (fits (as_bytes text) ∨ out = []) ∧
    (text = "" ∨ to_json resp = Ok text)).
  { exists (to_vec_or_default resp), p. do 3 (split; [done|]).
    unfold to_vec_or_default. destruct (to_json resp); auto. }
  destruct r; [| |done]; by wp_step.
Qed.

Lemma serve_one_wp request text v w :
  to_json request = Ok text → fits (as_bytes text) →
  wp (serve_one (V := V) peer identity) (mkConn v (mkStream (frame_bytes (as_bytes text)) [])) w
    (λ _ c' w', replied request v w c' w').
Proof.
  intros Hjson Hfit. unfold serve_one, on_stream. wp_step. wp_step. wp_step.
  wp_call read_frame_wp. cbn [conn_stream conn_vault incoming outgoing].
  intros [b|e|] [i o] w1 (Hw1 & Ho & Hr); [| |done]; simpl in Ho; subst o.
  - destruct Hr as (_ & lb & Hlb & Hlen & Hin).
    destruct (frame_prefix_unique _ _ _ _ _ (reflexivity _) Hfit Hin Hlb Hlen) as [-> Hi].
    simpl in Hi. subst i. rewrite from_as_bytes, (json_roundtrip _ _ Hjson).
    wp_step. unfold on_vault. wp_step. apply run_wp. cbn [conn_vault].
    intros rd v' w2 Hrun.
    assert (Hnone : ∀ w3, world_le w2 w3 → replied request v w
      (mkConn v' (mkStream [] [])) w3).
    { intros w3 Hw3. right. exists rd, w1, w2. do 4 (split; [done|]). by left. }
    destruct rd as [resp|e|]; [|by apply Hnone|by apply Hnone].
    cbn [conn_vault conn_stream]. wp_step. pose proof (to_json_no_panic resp) as Hnp.
    destruct (to_json resp) as [t|e|] eqn:Ht; cbn [map_err]; [| |done]; wp_step;
      [|by apply Hnone].
    wp_step. wp_step. eapply wp_mono;
      [apply wp_conj; [apply write_frame_prefix_wp|apply write_frame_wp]|].
    intros r s' w3 ((p & -> & Hp & Hf) & Hw3 & _ & Hr3 & _).
    cbn [conn_vault conn_stream incoming outgoing] in *.
    assert (replied request v w (mkConn v' (mkStream [] ([] ++ p))) w3).
    { right. exists (Ok resp), w1, w2. do 4 (split; [done|]). cbn [outgoing conn_stream].
      destruct Hf as [Hf| ->]; [|by left]. right. exists resp, t. done. }
    destruct r; [|done|done]. by wp_step.
  - destruct Hr as [_ _]. cbv zeta. wp_step; wp_step.
    + left. split; [done|]. split; [done|]. exists "", "". split; [apply prefix_nil|].
      split; [by right|by left].
    + wp_call best_effort_wp. intros r c' w2 (-> & Hw2 & t & out & -> & Hp & Hf & Ht).
      wp_step. left. split; [done|]. split; [solve_world|]. eexists _, t.
      split; [done|]. split; [done|exact Ht].
Qed.

(** How a request over an idle link ends: lost on the way, or as one call of [dispatch]. *)
Definition called (request : Request V) v w (r : outcome Error V) (c' : Conn K S A) w' : Prop :=
  let call := dispatch request peer identity in
  (∃ e, r = Err e ∧ protocol_failure e ∧ at_most_once call v w (conn_vault c') w') ∨
  ∃ resp w1 w2, world_le w w1 ∧ call v w1 = (Ok resp, conn_vault c', w2) ∧
    world_le w2 w' ∧ r = response_value resp ∧ c' = idle (conn_vault c').

Lemma called_lost request v w e (c' : Conn K S A) w' :
  is_transport e → conn_vault c' = v → world_le w w' → called request v w (Err e) c' w'.
Proof. intros He Hv Hw. left. exists e. split; [done|]. split; [by left|]. by left. Qed.

Lemma replied_at_most_once request v w c w1 w2 :
  replied request v w c w1 → world_le w1 w2 →
  at_most_once (dispatch request peer identity) v w (conn_vault c) w2.
Proof.
  intros [(Hv & Hw & _)|(rd & w3 & w4 & Hw3 & Hrun & Hw4 & _)] Hw12.
  - left. split; [done|]. solve_world.
  - right. exists rd, w3, w4. split; [done|]. split; [done|]. solve_world.
Qed.

(** The client reads what the server replied. *)
Lemma receive_wp request v w c w1 :
  replied request v w c w1 →
  wp (resp_bytes ← at_client read_frame;
      response ← transport_err (A := Response V) "invalid response"
                   (from_json (from_bytes resp_bytes));
      lift (response_value response)) c w1 (λ r c' w', called request v w r c' w').
Proof.
  intros Hrep. unfold at_client, transport_err. wp_step. wp_step. wp_call read_frame_wp.
  intros rb [i o] w2 (Hw2 & Ho & Hr). unfold flip in *. cbn [incoming outgoing] in *. subst o.
  assert (Hlost : ∀ e, is_transport e → called request v w (Err e)
    (mkConn (conn_vault c) (mkStream (incoming (conn_stream c)) i)) w2).
  { intros e He. left. exists e. split; [done|]. split; [by left|].
    exact (replied_at_most_once _ _ _ _ _ _ Hrep Hw2). }
  destruct rb as [b|e|]; [|apply Hlost; by destruct Hr|done].
  destruct Hr as (_ & lb & Hlb & Hlen & Hin).
  assert (Hread : ∀ text, outgoing (conn_stream c) `prefix_of` frame_bytes (as_bytes text) →
    fits (as_bytes text) ∨ outgoing (conn_stream c) = [] → b = as_bytes text ∧ i = []).
  { intros text Hp Hf.
    assert (Hfit : fits (as_bytes text)).
    { destruct Hf as [|Hnil]; [done|]. rewrite Hnil in Hin. by destruct lb. }
    exact (frame_prefix_unique _ lb b i _ Hp Hfit Hin Hlb Hlen). }
  pose proof (from_json_no_panic (A := Response V) (from_bytes b)) as Hnp.
  destruct Hrep as [(Hv & Hw & msg & text & Hp & Hf & Htext)|
    (rd & w3 & w4 & Hw3 & Hrun & Hw4 & Hi & Hout)].
  - destruct (Hread text Hp Hf) as [-> ->]. rewrite from_as_bytes in *.
    destruct Htext as [->|Htext].
    + destruct (from_json_empty (B := Response V)) as [e He]. rewrite He. cbn [map_err].
      do 2 wp_step. apply Hlost. by eexists.
    + rewrite (response_roundtrip (invalid_request _ _) _ ltac:(done) Htext). cbn [map_err]. do 2 wp_step.
      left. eexists. split; [done|]. split; [right; by eexists|]. left. split; [done|solve_world].
  - destruct Hout as [Hnil|(resp & text & -> & Htext & Hf & Hp)].
    { rewrite Hnil in Hin. by destruct lb. }
    destruct (Hread text Hp (or_introl Hf)) as [-> ->].
    rewrite from_as_bytes, (response_roundtrip _ _ (dispatch_not_null _ _ _ _ _ _ Hrun) Htext).
    cbn [map_err].
    wp_step. wp_step. eapply wp_det; [reflexivity|].
    right. exists resp, w3, w4. split; [done|]. split; [done|]. split; [solve_world|].
    split; [done|]. cbn [conn_vault]. by rewrite Hi.
Qed.

Lemma client_request_wp method params v w :
  wp (client_request method params) (idle v) w (λ r c' w',
    ∃ id, called (mkRequest id method params) v w r c' w').
Proof.
  unfold client_request. do 2 wp_step. cbv zeta. set (request := mkRequest _ method params).
  apply (wp_mono _ _ _ (called request v w)); [|intros r c' w' Hc; by eexists].
  wp_step. apply wp_transport_err; [apply to_json_no_panic| |].
  2: { intros e He. apply called_lost; [done|done|solve_world]. }
  intros text Hjson. wp_step. unfold send_frame, link_FrameIO at 1, at_client. wp_step. wp_call write_frame_wp.
  intros r [i o] w1 (Hw1 & Hi & Hr & _). simpl in Hi. subst i.
  destruct r as [[]|e|]; [| |done].
  2: { destruct Hr as [He _]. apply called_lost; [done|done|solve_world]. }
  destruct Hr as [Hfit Ho]. simpl in Ho. subst o. unfold flip. cbn [incoming outgoing idle conn_vault].
  pose proof (serve_one_wp request text v w1 Hjson Hfit) as Hserve. unfold wp in Hserve.
  unfold recv_frame, link_FrameIO, wp. rewrite bind_assoc.
  unfold mbind at 1, M_bind at 1, isolate. destruct (serve_one _ _ _ _) as [[rs c1] w2].
  apply (receive_wp request v w). destruct Hserve as [(Hv & Hw & Hrest)|
    (rd & w3 & w4 & Hw3 & Hrun & Hw4 & Hrest)].
  - left. split; [done|]. split; [solve_world|done].
  - right. exists rd, w3, w4. split; [solve_world|]. done.
Qed.

(** ** The methods *)

Lemma call_refines_transport {B C D} what (r : outcome string D) (k : D → CM C)
    (m : M (Vault K S A) Error B) (f : B → C) :
  r ≠ Panic → (∀ x, r = Ok x → call_refines (k x) m f) →
  call_refines (transport_err what r ≫= k) m f.
Proof.
  intros Hnp Hk v w. apply wp_run_all. wp_step. apply wp_transport_err; [done| |].
  - intros x Hx. apply run_wp. by apply Hk.
  - intros e He. left. split; [by left|]. by left.
Qed.

(** A method whose arm of [dispatch] runs [m] and answers with [answer]. *)
Lemma call_refines_request {B C} method params (m : M (Vault K S A) Error B)
    (answer : Uuid → B → outcome Error (Response V)) (k : V → CM C) (f : B → C) :
  (∀ id v w, dispatch (mkRequest id method params) peer identity v w =
     (r ← try_ m;
      match r with
      | Ok b => lift (answer id b)
      | Err e => mret (Response_from_error id e)
      | Panic => panic
      end) v w) →
  (∀ id b, match answer id b with
     | Ok resp =>
       (∃ x, response_value resp = Ok x ∧ ∀ c w, k x c w = (Ok (f b), c, w)) ∨
       ∃ msg, response_value resp = Err (Remote CODE_INVALID_REQUEST msg)
     | _ => True
     end) →
  call_refines (client_request method params ≫= k) m f.
Proof.
  intros Hdispatch Hanswer v w. apply wp_run_all. wp_step. wp_call client_request_wp.
  intros r c1 w1 [id [(e & -> & He & Hamo)|(resp & w2 & w3 & Hw2 & Hrun & Hw3 & -> & Hidle)]].
  - left. split; [done|]. destruct Hamo as [Hsame|(rd & w2 & w3 & Hw2 & Hrun & Hw3)];
      [by left|right]. rewrite Hdispatch in Hrun. unfold mbind, M_bind, try_ in Hrun.
    destruct (m v w2) as [[[b|e'|] v'] w4] eqn:Hm; injection Hrun as _ Hv Hw;
      rewrite Hv, Hw in Hm; by eexists _, w2, _.
  - rewrite Hdispatch in Hrun. unfold mbind, M_bind, try_ in Hrun.
    destruct (m v w2) as [[[b|e'|] v'] w4] eqn:Hm; [| |done].
    + specialize (Hanswer id b). injection Hrun as Hans Hv Hw. rewrite Hv, Hw in Hm.
      rewrite Hans in Hanswer.
      destruct Hanswer as [(x & -> & Hk)|[msg ->]].
      * apply run_wp. intros r' c2 w5. rewrite Hk. intros [= <- <- <-].
        exists b, w2, w3. done.
      * left. split; [right; by eexists|]. right. by eexists _, w2, _.
    + injection Hrun as <- Hv Hw. rewrite Hv, Hw in Hm. right. exists e', w2, w3. done.
Qed.

(** [json_value] as a value. *)
Definition answer_json {B} `{!SerdeValue V B} (id : Uuid) (b : B) : outcome Error (Response V) :=
  match to_value b with
  | Ok v => Ok (Response_success id v)
  | Err e => Ok (invalid_request id ("serialization failed: " +:+ e))
  | Panic => Panic
  end.

Lemma json_response_answer {B} `{!SerdeValue V B} id (m : M (Vault K S A) Error B) v w :
  json_response id m v w =
  (r ← try_ m;
   match r with
   | Ok b => lift (answer_json id b)
   | Err e => mret (Response_from_error id e)
   | Panic => panic
   end) v w.
Proof.
  unfold json_response, mbind, M_bind, try_. destruct (m v w) as [[[b|e|] v'] w']; [|done|done].
  unfold json_value, answer_json. by destruct (to_value b).
Qed.

(** The client's continuation reads [g b] back from the JSON value of [b]. *)
Lemma answer_json_read {B C} `{!SerdeValue V B, !SerdeValueLaws V B} id (b : B) (k : V → CM C)
    (g : B → C) :
  (∀ x, to_value b = Ok x → ∀ c w, k x c w = (Ok (g b), c, w)) →
  match answer_json id b with
  | Ok resp =>
    (∃ x, response_value resp = Ok x ∧ ∀ c w, k x c w = (Ok (g b), c, w)) ∨
    ∃ msg, response_value resp = Err (Remote CODE_INVALID_REQUEST msg)
  | _ => True
  end.
Proof.
  intros Hk. unfold answer_json. destruct (to_value b) as [x|e|] eqn:Hx; [| |done].
  - left. exists x. split; [done|]. by apply Hk.
  - right. by eexists.
Qed.

Lemma parse_result_run `{!SerdeValue V B, !SerdeValueLaws V B} (b : B) x (c : Conn K S A) w :
  to_value b = Ok x → parse_result x c w = (Ok b, c, w).
Proof.
  intros Hx. unfold parse_result, transport_err, lift. by rewrite (value_roundtrip _ _ Hx).
Qed.

(** Running [m] and then mapping its value. *)
Lemma call_refines_map {B C D} (call : CM D) (m : M (Vault K S A) Error B) (h : B → C)
    (f : C → D) :
  call_refines call (x ← m; mret (h x)) f → call_refines call m (λ b, f (h b)).
Proof.
  intros Hc v w r c' w' Hrun. specialize (Hc v w r c' w' Hrun).
  assert (Hamo : ∀ v' w', at_most_once (x ← m; mret (h x)) v w v' w' → at_most_once m v w v' w').
  { intros v1 w1 [Hsame|(rm & w2 & w3 & Hw2 & Hm & Hw3)]; [by left|right].
    unfold mbind, M_bind in Hm. destruct (m v w2) as [[[b|e|] v2] w4] eqn:Hm2;
      injection Hm as <- <- <-; by eexists _, w2, _. }
  destruct r as [x|e|]; [| |done].
  - destruct Hc as (b & w1 & w2 & Hw1 & Hm & Hw2 & -> & Hi). unfold mbind, M_bind in Hm.
    destruct (m v w1) as [[[b'|e|] v2] w4] eqn:Hm2; try done. injection Hm as <- Hv Hw.
    rewrite Hv, Hw in Hm2. by exists b', w1, w2.
  - destruct Hc as [[He Ha]|(e' & w1 & w2 & -> & Hw1 & Hm & Hw2 & Hi)]; [left; auto|right].
    unfold mbind, M_bind in Hm.
    destruct (m v w1) as [[[b'|e|] v2] w4] eqn:Hm2; try done. injection Hm as <- Hv Hw.
    rewrite Hv, Hw in Hm2. by exists e, w1, w2.
Qed.

(** The arm of [dispatch] for a method, on a connection with the admin role. *)
Ltac dispatch_arm :=
  unfold dispatch; cbn [request_method];
  repeat match goal with
  | |- context [str_eqb ?a ?b] =>
      let t := eval vm_compute in (str_eqb a b) in change (str_eqb a b) with t; cbv iota
  end.

Section methods.
Hypothesis Hadmin : identity_role identity = Admin.

Lemma admin_allowed (b : bool) : b && negb (bool_decide (identity_role identity = Admin)) = false.
Proof. rewrite bool_decide_eq_true_2 by done. apply andb_false_r. Qed.

Lemma store_secret_refines name plaintext kind description :
  call_refines (client_store_secret name plaintext kind description)
    (Vault_store_secret (SecretName_new name) plaintext kind description peer) id.
Proof.
  unfold client_store_secret, to_params.
  apply call_refines_transport; [apply to_value_no_panic|intros kv Hkv].
  apply call_refines_transport; [apply to_value_no_panic|intros x Hx].
  eapply call_refines_request.
  - intros id v w. unfold dispatch. rewrite admin_allowed. dispatch_arm.
    unfold dispatch_store_secret, parse_params. cbn [request_params request_id].
    rewrite (value_roundtrip _ _ Hx). cbn [ssr_plaintext ssr_kind ssr_name ssr_description].
    rewrite b64_roundtrip, (value_roundtrip _ _ Hkv). apply json_response_answer.
  - intros id b. apply answer_json_read. intros y Hy c w. by apply parse_result_run.
Qed.

Lemma request_lease_refines agent secret_name domain :
  call_refines (client_request_lease agent secret_name domain)
    (Vault_request_lease (AgentId_new agent) (SecretName_new secret_name)
       (DomainScope_new domain) peer) id.
Proof.
  unfold client_request_lease, to_params.
  apply call_refines_transport; [apply to_value_no_panic|intros x Hx].
  eapply call_refines_request.
  - intros id v w. unfold dispatch. rewrite admin_allowed. dispatch_arm.
    unfold dispatch_request_lease, parse_params. cbn [request_params request_id].
    rewrite (value_roundtrip _ _ Hx). unfold resolve_agent. rewrite Hadmin.
    apply json_response_answer.
  - intros id b. apply answer_json_read. intros y Hy c w. by apply parse_result_run.
Qed.

Lemma renew_lease_refines lease_id secs :
  call_refines (client_renew_lease lease_id secs)
    (Vault_renew_lease (LeaseId_from_uuid lease_id) secs peer) id.
Proof.
  unfold client_renew_lease, to_params.
  apply call_refines_transport; [apply to_value_no_panic|intros x Hx].
  eapply call_refines_request.
  - intros id v w. unfold dispatch. rewrite admin_allowed. dispatch_arm.
    unfold dispatch_renew_lease, parse_params. cbn [request_params request_id].
    rewrite (value_roundtrip _ _ Hx). apply json_response_answer.
  - intros id b. apply answer_json_read. intros y Hy c w. by apply parse_result_run.
Qed.

Lemma revoke_all_refines agent :
  call_refines (client_revoke_all_for_agent agent)
    (Vault_revoke_all_for_agent (AgentId_new agent) peer) id.
Proof.
  apply (call_refines_map _ _ mkRevokeAllForAgentResponse raa_revoked_count).
  unfold client_revoke_all_for_agent, to_params.
  apply call_refines_transport; [apply to_value_no_panic|intros x Hx].
  eapply call_refines_request.
  - intros id v w. unfold dispatch. rewrite admin_allowed. dispatch_arm.
    unfold dispatch_revoke_all, parse_params. cbn [request_params request_id].
    rewrite (value_roundtrip _ _ Hx). unfold resolve_agent. rewrite Hadmin.
    apply json_response_answer.
  - intros id b. apply answer_json_read. intros y Hy c w. unfold mbind, M_bind.
    by rewrite (parse_result_run b).
Qed.

(** The secret as it travels. *)
Definition sealed_response (guard : LeaseGuard) : AccessSecretResponse :=
  mkAccessSecretResponse (LeaseGuard_expose guard (λ s, b64_encode (as_bytes s))).

Lemma access_secret_refines lease_id target :
  call_refines (client_access_secret lease_id target)
    (Vault_access_secret (LeaseId_from_uuid lease_id) target peer)
    (λ guard, LeaseGuard_expose guard as_bytes).
Proof.
  unfold client_access_secret, to_params.
  apply call_refines_transport; [apply to_value_no_panic|intros x Hx].
  eapply (call_refines_request _ _ _ (λ id g, answer_json id (sealed_response g))).
  - intros id v w. unfold dispatch. rewrite admin_allowed. dispatch_arm.
    unfold dispatch_access_secret, parse_params. cbn [request_params request_id].
    rewrite (value_roundtrip _ _ Hx). unfold mbind, M_bind, try_.
    cbn [asr_lease_id asr_target_domain].
    destruct (Vault_access_secret _ _ _ v w) as [[[g|e|] v'] w']; [|done|done].
    unfold json_value, answer_json, sealed_response, LeaseGuard_expose.
    by case_match.
  - intros id g. apply (answer_json_read id (sealed_response g) _
      (λ _, LeaseGuard_expose g as_bytes)). intros y Hy c w. unfold mbind, M_bind.
    rewrite (parse_result_run _ _ _ _ Hy). unfold transport_err, lift, sealed_response.
    cbn [asresp_secret]. unfold LeaseGuard_expose. by rewrite b64_roundtrip.
Qed.

Lemma unit_response_answer id (m : M (Vault K S A) Error unit) v w :
  unit_response id m v w =
  (r ← try_ m;
   match r with
   | Ok b => lift (Ok (Response_success (V := V) id empty_object))
   | Err e => mret (Response_from_error id e)
   | Panic => panic
   end) v w.
Proof.
  unfold unit_response, mbind, M_bind, try_. by destruct (m v w) as [[[b|e|] v'] w'].
Qed.

Lemma revoke_lease_refines lease_id reason :
  call_refines (client_revoke_lease lease_id reason)
    (Vault_revoke_lease (LeaseId_from_uuid lease_id) reason peer) id.
Proof.
  unfold client_revoke_lease, to_params.
  apply call_refines_transport; [apply to_value_no_panic|intros rv Hrv].
  apply call_refines_transport; [apply to_value_no_panic|intros x Hx].
  eapply call_refines_request.
  - intros id v w. unfold dispatch. rewrite admin_allowed. dispatch_arm.
    unfold dispatch_revoke_lease, parse_params. cbn [request_params request_id].
    rewrite (value_roundtrip _ _ Hx). cbn [rvl_reason rvl_lease_id].
    rewrite (value_roundtrip _ _ Hrv). apply unit_response_answer.
  - intros id []. left. by eexists.
Qed.

Lemma delete_secret_refines name :
  call_refines (client_delete_secret name) (Vault_delete_secret (SecretName_new name) peer) id.
Proof.
  unfold client_delete_secret, to_params.
  apply call_refines_transport; [apply to_value_no_panic|intros x Hx].
  eapply call_refines_request.
  - intros id v w. unfold dispatch. rewrite admin_allowed. dispatch_arm.
    unfold dispatch_delete_secret, parse_params. cbn [request_params request_id].
    rewrite (value_roundtrip _ _ Hx). apply unit_response_answer.
  - intros id []. left. by eexists.
Qed.

(** The server leaves out what it cannot serialize. *)
Definition serializable (s : SecretMetadata) : bool :=
  match to_value (V := V) s with Ok _ => true | _ => false end.

Lemma traverse_metadata (l : list SecretMetadata) (c : Conn K S A) w :
  traverse (λ x : V, transport_err (A := SecretMetadata) "failed to parse secret metadata"
              (from_value x))
    (omap (λ s : SecretMetadata, ok (to_value (V := V) s)) l) c w =
  (Ok (List.filter serializable l), c, w).
Proof.
  induction l as [|s l IH]; [done|].
  change (omap ?g (s :: l)) with (match g s with Some y => y :: omap g l | None => omap g l end).
  change (List.filter serializable (s :: l)) with
    (if serializable s then s :: List.filter serializable l else List.filter serializable l).
  unfold serializable at 1. destruct (to_value s) as [x|e|] eqn:Hx; [|exact IH|exact IH].
  cbn [ok traverse]. unfold mbind, M_bind, transport_err at 1, lift at 1.
  rewrite (value_roundtrip _ _ Hx). cbn [map_err]. by rewrite IH.
Qed.

Lemma list_secrets_refines :
  call_refines client_list_secrets Vault_list_secrets (List.filter serializable).
Proof.
  unfold client_list_secrets.
  eapply (call_refines_request _ _ _ (λ id l, answer_json id (mkListSecretsResponse
    (omap (λ s : SecretMetadata, ok (to_value (V := V) s)) l)))).
  - intros id v w. unfold dispatch. rewrite admin_allowed. dispatch_arm.
    unfold dispatch_list_secrets. rewrite json_response_answer. cbn [request_id].
    unfold mbind, M_bind, try_. by destruct (Vault_list_secrets v w) as [[[l|e|] v'] w'].
  - intros id l. eapply (answer_json_read _ _ _ (λ _, List.filter serializable l)).
    intros y Hy c w. unfold mbind at 1, M_bind at 1. rewrite (parse_result_run _ _ _ _ Hy).
    apply traverse_metadata.
Qed.
End methods.
End link.

(** C7. The client is the vault, seen through the wire. Over a link to a server that gave the
    connection the admin role, every method of the typed client amounts to the operation of
    the vault of the same name: it delivers the operation's value (for an access the secret
    byte for byte, for a listing the metadata that can be serialized) or its error as a
    remote error with the same code and message; any other outcome is a transport or
    protocol error, after which the operation has been run at most once. The client never
    panics. *)
Theorem client_refines_vault {K S A V : Type}
    `{!Env, !StreamIO, !Chrono, !UuidText, !HashIter, !Aead,
      !KeySource K, !SecretStore S, !AuditLog A, !Wire V, !Base64,
      !Serde (Request V), !Serde (Response V), !WireLaws V, !Base64Laws,
      !SerdeLaws (Request V), !ResponseLaws V, !SerdeEmpty (Response V)}
    (peer : PeerIdentity) (identity : ConnectionIdentity) :
  identity_role identity = Admin →
  let _ : FrameIO (Conn K S A) := link_FrameIO peer identity in
  (∀ name plaintext kind description,
     call_refines (client_store_secret name plaintext kind description)
       (Vault_store_secret (SecretName_new name) plaintext kind description peer) id) ∧
  (∀ agent secret_name domain,
     call_refines (client_request_lease agent secret_name domain)
       (Vault_request_lease (AgentId_new agent) (SecretName_new secret_name)
          (DomainScope_new domain) peer) id) ∧
  (∀ lease_id target,
     call_refines (client_access_secret lease_id target)
       (Vault_access_secret (LeaseId_from_uuid lease_id) target peer)
       (λ guard, LeaseGuard_expose guard as_bytes)) ∧
  (∀ lease_id reason,
     call_refines (client_revoke_lease lease_id reason)
       (Vault_revoke_lease (LeaseId_from_uuid lease_id) reason peer) id) ∧
  (∀ agent,
     call_refines (client_revoke_all_for_agent agent)
       (Vault_revoke_all_for_agent (AgentId_new agent) peer) id) ∧
  call_refines client_list_secrets Vault_list_secrets (List.filter (serializable (V := V))) ∧
  (∀ lease_id secs,
     call_refines (client_renew_lease lease_id secs)
       (Vault_renew_lease (LeaseId_from_uuid lease_id) secs peer) id) ∧
  (∀ name,
     call_refines (client_delete_secret name)
       (Vault_delete_secret (SecretName_new name) peer) id).
Proof.
  intros Hadmin. cbv zeta.
  split; [intros; by apply store_secret_refines|].
  split; [intros; by apply request_lease_refines|].
  split; [intros; by apply access_secret_refines|].
  split; [intros; by apply revoke_lease_refines|].
  split; [intros; by apply revoke_all_refines|].
  split; [by apply list_secrets_refines|].
  split; [intros; by apply renew_lease_refines|].
  intros; by apply delete_secret_refines.
Qed.

(** ** Witness *)

Import DemoInstances DemoWireInstances.

(** JSON texts for one access and its answer. *)
Definition access_text : Serde (Request DemoValue) := {|
  to_json := λ r, match r with
    | mkRequest id m (DVAccessSecret (mkAccessSecretRequest l d)) =>
        if decide (m = ACCESS_SECRET ∧ l = 2%N ∧ d = "api.example.com")
        then Ok (Z_to_text (Z.of_N id)) else Err "unsupported"
    | _ => Err "unsupported" end;
  from_json := λ s, match text_to_Z s with
    | Some z => Ok (mkRequest (Z.to_N z) ACCESS_SECRET
                      (DVAccessSecret (mkAccessSecretRequest 2 "api.example.com")))
    | None => Err "unsupported" end
|}.
Definition answer_text : Serde (Response DemoValue) := {|
  to_json := λ r, match r with
    | mkResponse id true (Some (DVAccessResponse (mkAccessSecretResponse s))) None =>
        if decide (s = "s3cret") then Ok (Z_to_text (Z.of_N id)) else Err "unsupported"
    | _ => Err "unsupported" end;
  from_json := λ s, match text_to_Z s with
    | Some z => Ok (mkResponse (Z.to_N z) true
                      (Some (DVAccessResponse (mkAccessSecretResponse "s3cret"))) None)
    | None => Err "unsupported" end
|}.
Lemma access_text_laws : @SerdeLaws _ access_text.
Proof.
  constructor; unfold to_json, from_json; cbn [access_text].
  - intros r. by repeat case_match.
  - intros s. by case_match.
  - intros [id m [| | | | [l d] | | | | | | | | | | | |]] s Hr; try done. case_decide as Hd; [|done].
    injection Hr as <-. destruct Hd as (-> & -> & ->). by rewrite text_to_Z_to_text, N2Z.id.
Qed.
Lemma answer_text_laws : @ResponseLaws DemoValue _ answer_text.
Proof.
  constructor; [constructor|]; unfold to_json, from_json; cbn [answer_text].
  - intros r. by repeat case_match.
  - intros s. by case_match.
  - intros [id [] [[| | | | | [x] | | | | | | | | | | |]|] [e|]] s _ Hr; try done.
    case_decide as Hd; [|done]. injection Hr as <-. subst x.
    by rewrite text_to_Z_to_text, N2Z.id.
Qed.
Lemma answer_text_empty : @SerdeEmpty _ answer_text.
Proof. by eexists. Qed.

Definition admin_identity : ConnectionIdentity := mkConnectionIdentity Admin None "operator".

#[local] Existing Instance access_text.
#[local] Existing Instance answer_text.
#[local] Existing Instance access_text_laws.
#[local] Existing Instance answer_text_laws.
#[local] Existing Instance answer_text_empty.
#[local] Instance demo_link : FrameIO (Conn (KmsSource (list (string * bytes))) RusqliteStore
    (list AuditEntry)) := link_FrameIO (V := DemoValue) demo_peer admin_identity.

Lemma client_refines_vault_witness :
  ∃ c' w', client_access_secret (V := DemoValue) 2 "api.example.com"
      (idle (demo_after ops_leased).1) (demo_after ops_leased).2
      = (Ok (as_bytes "s3cret"), c', w') ∧
    ∃ guard w1 w2, Vault_access_secret (LeaseId_from_uuid 2) "api.example.com" demo_peer
        (demo_after ops_leased).1 w1 = (Ok guard, conn_vault c', w2) ∧
      as_bytes "s3cret" = LeaseGuard_expose guard as_bytes.
Proof.
  assert (∃ c' w', client_access_secret (V := DemoValue) 2 "api.example.com"
    (idle (demo_after ops_leased).1) (demo_after ops_leased).2
    = (Ok (as_bytes "s3cret"), c', w')) as (c' & w' & Hrun) by demo_runs.
  exists c', w'. split; [exact Hrun|].
  destruct (client_refines_vault (K := KmsSource (list (string * bytes))) (S := RusqliteStore)
    (A := list AuditEntry) (V := DemoValue) demo_peer admin_identity eq_refl)
    as (_ & _ & Haccess & _).
  destruct (Haccess _ _ _ _ _ _ _ Hrun) as (guard & w1 & w2 & _ & Hv & _ & Hs & _).
  by exists guard, w1, w2.
Defined.
