(* ===== verification/Serve.v ===== *)
(** The server and its connections: [VaultServer] of [src/server.rs].

    [serve] accepts connections and spawns a task for each; the tasks share the vault. A
    server is the vault, the tasks that are running, and what the accept loop returned with,
    if it did. A turn of a task is its handshake, or one iteration of its request loop;
    turns of different tasks interleave in any order. The bytes a client will send are in
    the stream from the start: a task that waits for them is one that has no turn yet. What
    is shown here is what the turns may do to the vault; that a silent client, whose task has
    no turn ever again, does not hold up the others is shown in [ServerFair]. *)
From S2P Require Import Prelude Text Concrete Types Store Crypto KeySource Auth.
From S2P Require Import AuditEvents Frame Transport Protocol Vault VaultInv VaultProps Server.
From S2P Require Import ServerTheorems Demo RusqliteStore.

Local Open Scope string_scope.
Local Open Scope Z_scope.
Local Open Scope list_scope.

(** A spawned [handle_connection]; it has no identity before its handshake. *)
Record Task := mkTask {
  task_peer : PeerIdentity;
  task_identity : option ConnectionIdentity;
  task_stream : Stream
}.

Record VaultServer (K S A : Type) := mkVaultServer {
  srv_vault : Vault K S A;
  srv_tasks : list Task;
  srv_result : option (outcome Error unit)
}.
Arguments mkVaultServer {K S A}.
Arguments srv_vault {K S A}.
Arguments srv_tasks {K S A}.
Arguments srv_result {K S A}.

Section serving.
Context {K S A V T : Type}.
Context `{!Env, !StreamIO, !Chrono, !UuidText, !HashIter, !Aead, !Sha256}.
Context `{!KeySource K, !SecretStore S, !AuditLog A, !Authenticator T}.
Context `{!Wire V, !Base64}.
Context `{!Serde ClientHello, !Serde ServerHello, !Serde (Request V), !Serde (Response V)}.

Definition VaultServer_new (vault : Vault K S A) : VaultServer K S A :=
  mkVaultServer vault [] None.

(** A turn of a task. However the handler ends, with an error or a panic too, its task is
    gone and the others go on. *)
Definition task_turn (authenticator : T) (t : Task) (v : Vault K S A) (w : World)
    : option Task * Vault K S A * World :=
  let c := mkConn v (task_stream t) in
  match task_identity t with
  | None =>
    match handshake (task_peer t) authenticator c w with
    | (Ok (Some (peer, identity)), c', w') =>
        (Some (mkTask peer (Some identity) (conn_stream c')), conn_vault c', w')
    | (_, c', w') => (None, conn_vault c', w')
    end
  | Some identity =>
    match serve_one (V := V) (task_peer t) identity c w with
    | (Ok true, c', w') =>
        (Some (mkTask (task_peer t) (Some identity) (conn_stream c')), conn_vault c', w')
    | (_, c', w') => (None, conn_vault c', w')
    end
  end.

(** The body of the loop of [serve] on what the listener returned. *)
Definition serve_accept (res : Accepted) (srv : VaultServer K S A) : VaultServer K S A :=
  match res with
  | Ok (stream, peer) =>
      mkVaultServer (srv_vault srv) (srv_tasks srv ++ [mkTask peer None stream]) None
  | Err e => mkVaultServer (srv_vault srv) (srv_tasks srv) (Some (Err e))
  | Panic => mkVaultServer (srv_vault srv) (srv_tasks srv) (Some Panic)
  end.

(** The other branch of the [select!] of [serve_with_shutdown]. *)
Definition serve_shutdown (srv : VaultServer K S A) : VaultServer K S A :=
  mkVaultServer (srv_vault srv) (srv_tasks srv) (Some (Ok tt)).

(** One step of the server, whose listener accepts peers of [accepts] only. The loop and its
    [select!] are left by the [return] that sets the result: the accept steps are those of the
    loop. *)
Inductive sstep (authenticator : T) (accepts : PeerIdentity → Prop)
    : VaultServer K S A * World → VaultServer K S A * World → Prop :=
  | ss_accept srv res w :
      srv_result srv = None → (∀ stream peer, res = Ok (stream, peer) → accepts peer) →
      sstep authenticator accepts (srv, w) (serve_accept res srv, w)
  | ss_shutdown srv w :
      srv_result srv = None → sstep authenticator accepts (srv, w) (serve_shutdown srv, w)
  | ss_turn v pre t post result w t' v' w' :
      task_turn authenticator t v w = (t', v', w') →
      sstep authenticator accepts
        (mkVaultServer v (pre ++ t :: post) result, w)
        (mkVaultServer v' (pre ++ option_list t' ++ post) result, w').
End serving.

(** ** Facts *)

Section facts.
Context {K S A V T : Type}.
Context `{!Env, !StreamIO, !Chrono, !UuidText, !HashIter, !Aead, !Sha256}.
Context `{!KeySource K, !SecretStore S, !AuditLog A, !Authenticator T}.
Context `{!Wire V, !Base64, !WireLaws V, !Base64Laws}.
Context `{!Serde ClientHello, !Serde ServerHello, !Serde (Request V), !Serde (Response V)}.
Context `{!SerdeLaws ClientHello, !SerdeLaws ServerHello}.
Context `{!SerdeLaws (Request V), !SerdeTotal (Response V)}.
Context (authenticator : T) (accepts : PeerIdentity → Prop).
Implicit Types (v : Vault K S A) (w : World) (srv : VaultServer K S A).
Abbreviation step := (sstep (K := K) (S := S) (A := A) (V := V) authenticator accepts).

(** An identity that the authenticator gave to the token of an accepted peer. *)
Definition granted (peer : PeerIdentity) (identity : ConnectionIdentity) : Prop :=
  ∃ peer0 token, accepts peer0 ∧ peer = effective_peer peer0 token ∧
    authenticate authenticator peer token = Some identity.

Definition task_ok (t : Task) : Prop :=
  match task_identity t with
  | None => accepts (task_peer t)
  | Some identity => granted (task_peer t) identity
  end.

(** An operation of some authenticated connection. *)
Definition gstep (x y : Vault K S A * World) : Prop :=
  (x.1 = y.1 ∧ world_le x.2 y.2) ∨
  ∃ peer identity, granted peer identity ∧ pstep identity peer x y.

Definition bytes_left (t : Task) : nat := length (incoming (task_stream t)).

Lemma task_turn_spec t v w t' v' w' :
  task_turn (V := V) authenticator t v w = (t', v', w') → task_ok t →
  rtc gstep (v, w) (v', w') ∧
  ∀ t1, t' = Some t1 → task_ok t1 ∧ (bytes_left t1 < bytes_left t)%nat.
Proof.
  unfold task_turn, task_ok. intros Hrun Hok. destruct t as [peer [identity|] stream]; simpl in *.
  - destruct (serve_one (V := V) peer identity (mkConn v stream) w) as [[r c'] w1] eqn:Hone.
    destruct (wp_run _ _ _ _ _ _ _ (serve_one_serves identity peer (mkConn v stream) w) Hone)
      as [(Hsteps & _) Hgo].
    assert (v' = conn_vault c' ∧ w' = w1) as [-> ->] by (by repeat case_match; simplify_eq).
    split.
    + apply (rtc_subrel (pstep identity peer)); [|exact Hsteps]. intros x y Hxy. right. eauto.
    + intros t1 ->. destruct r as [[]|e|]; simplify_eq/=. split; [done|]. by apply Hgo.
  - destruct (handshake peer authenticator (mkConn v stream) w) as [[r c'] w1] eqn:Hhs.
    destruct (wp_run _ _ _ _ _ _ _ (handshake_wp peer authenticator (mkConn v stream) w) Hhs)
      as ((Hv & Hw & _) & _ & Hacc).
    assert (v' = conn_vault c' ∧ w' = w1) as [-> ->] by (by repeat case_match; simplify_eq).
    split; [apply rtc_once; by left|]. intros t1 ->.
    destruct r as [[[peer' identity]|]|e|]; simplify_eq/=.
    destruct (Hacc _ _ eq_refl) as (Hl & hello & _ & -> & Ha). split; [|done].
    by exists peer, (chello_token hello).
Qed.

Definition server_ok srv : Prop := Forall task_ok (srv_tasks srv).

Lemma sstep_ok x y :
  step x y → server_ok x.1 →
  server_ok y.1 ∧ rtc gstep (srv_vault x.1, x.2) (srv_vault y.1, y.2).
Proof.
  unfold server_ok. destruct 1 as [srv res w Hres Hacc|srv w Hres|v pre t post result w t' v' w' Hrun];
    simpl; intros Hok.
  - destruct res as [[stream peer]|e|]; simpl; (split; [|reflexivity]); [|done..].
    apply Forall_app. split; [done|]. apply Forall_singleton. by apply (Hacc stream).
  - done.
  - apply Forall_app in Hok as [Hpre [Ht Hpost]%Forall_cons].
    destruct (task_turn_spec _ _ _ _ _ _ Hrun Ht) as [Hsteps Ht']. split; [|done].
    apply Forall_app. split; [done|]. apply Forall_app. split; [|done].
    destruct t' as [t1|]; simpl; [|constructor]. apply Forall_singleton. by apply Ht'.
Qed.

Lemma ssteps_ok x y :
  rtc step x y → server_ok x.1 →
  server_ok y.1 ∧ rtc gstep (srv_vault x.1, x.2) (srv_vault y.1, y.2).
Proof.
  induction 1 as [|x y z Hxy _ IH]; [done|]. intros Hok.
  destruct (sstep_ok _ _ Hxy Hok) as [Hok' Hs], (IH Hok') as [Hok'' Hs'].
  split; [done|]. by etrans.
Qed.

Lemma gsteps_vsteps x y : rtc gstep x y → rtc vstep x y.
Proof.
  induction 1 as [|[v w] [v' w'] z [[Heq Hw]|(peer & identity & _ & Hp)] _ IH];
    [reflexivity| |]; (etrans; [|exact IH]).
  - simpl in *. subst. apply rtc_once. by constructor.
  - by eapply psteps_vsteps, rtc_once.
Qed.

(** ** One connection alone *)

Lemma task_turn_once t v w t' v' w' result :
  task_turn (V := V) authenticator t v w = (t', v', w') →
  step (mkVaultServer v [t] result, w) (mkVaultServer v' (option_list t') result, w').
Proof.
  intros Hrun. pose proof (ss_turn authenticator accepts v [] t [] result w t' v' w' Hrun) as Hs.
  by rewrite app_nil_r in Hs.
Qed.

Lemma request_loop_turns fuel peer identity c w r c' w' result :
  (length (incoming (conn_stream c)) < fuel)%nat →
  request_loop (V := V) fuel peer identity c w = (r, c', w') →
  rtc step (mkVaultServer (conn_vault c) [mkTask peer (Some identity) (conn_stream c)] result, w)
    (mkVaultServer (conn_vault c') [] result, w').
Proof.
  revert c w. induction fuel as [|fuel IH]; intros c w Hf; [lia|]. cbn [request_loop].
  unfold mbind, M_bind.
  destruct (serve_one (V := V) peer identity c w) as [[o c1] w1] eqn:Hone.
  destruct (wp_run _ _ _ _ _ _ _ (serve_one_serves identity peer c w) Hone) as [_ Hgo].
  pose proof (task_turn_once (mkTask peer (Some identity) (conn_stream c)) (conn_vault c) w)
    as Hturn. unfold task_turn in Hturn. simpl in Hturn.
  replace (mkConn (conn_vault c) (conn_stream c)) with c in Hturn by (by destruct c).
  rewrite Hone in Hturn.
  destruct o as [[]|e|]; intros Hrun; (eapply rtc_l; [by apply Hturn|]); simpl.
  - apply IH; [|done]. specialize (Hgo eq_refl). lia.
  - by injection Hrun as <- <- <-.
  - by injection Hrun as <- <- <-.
  - by injection Hrun as <- <- <-.
Qed.
End facts.

(** ** Properties *)

Section theorems.
Context {K S A V T : Type}.
Context `{!Env, !StreamIO, !Chrono, !UuidText, !HashIter, !Aead, !Sha256}.
Context `{!KeySource K, !SecretStore S, !AuditLog A, !Authenticator T}.
Context `{!Wire V, !Base64, !WireLaws V, !Base64Laws}.
Context `{!Serde ClientHello, !Serde ServerHello, !Serde (Request V), !Serde (Response V)}.
Context `{!SerdeLaws ClientHello, !SerdeLaws ServerHello}.
Context `{!SerdeLaws (Request V), !SerdeTotal (Response V)}.
Context (authenticator : T) (accepts : PeerIdentity → Prop).
Implicit Types (v : Vault K S A) (w : World) (srv : VaultServer K S A).
Abbreviation step := (sstep (K := K) (S := S) (A := A) (V := V) authenticator accepts).

(** However many clients connect and however their requests interleave, the vault only
    moves by operations of authenticated connections: each one permitted to an identity
    that the authenticator gave to the token that some peer of the listener presented. So a
    server started on a reachable vault always has a reachable vault, to which every
    theorem about histories applies. *)
Theorem serve_authorised v w srv w' :
  rtc step (VaultServer_new v, w) (srv, w') →
  rtc (gstep authenticator accepts) (v, w) (srv_vault srv, w') ∧
  (reachable v w → reachable (srv_vault srv) w').
Proof.
  intros Hrun. destruct (ssteps_ok authenticator accepts _ _ Hrun) as [_ Hsteps]; [by constructor|].
  split; [done|]. intros (v0 & w0 & Hini & Hr0). exists v0, w0. split; [done|].
  etrans; [exact Hr0|]. by eapply gsteps_vsteps.
Qed.

(** A server with a single connection serves it as [handle_connection] does. *)
Theorem serve_single peer stream v w r c' w' result :
  handle_connection (V := V) peer authenticator (mkConn v stream) w = (r, c', w') →
  rtc step (mkVaultServer v [mkTask peer None stream] result, w)
    (mkVaultServer (conn_vault c') [] result, w').
Proof.
  unfold handle_connection, mbind, M_bind.
  destruct (handshake peer authenticator (mkConn v stream) w) as [[o c1] w1] eqn:Hhs.
  pose proof (task_turn_once authenticator accepts (mkTask peer None stream) v w) as Hturn.
  unfold task_turn in Hturn. simpl in Hturn. rewrite Hhs in Hturn.
  destruct o as [[[peer' identity]|]|e|]; intros Hrun; (eapply rtc_l; [by apply Hturn|]); simpl;
    [|injection Hrun as <- <- <-; reflexivity..].
  exact (request_loop_turns authenticator accepts (Datatypes.S (length (incoming (conn_stream c1))))
    peer' identity c1 w1 r c' w' result (Nat.lt_succ_diag_r _) Hrun).
Qed.
End theorems.

(** ** Witnesses *)

Import DemoInstances DemoWireInstances.
#[local] Existing Instance demo_hello_laws.
#[local] Existing Instance demo_server_hello_laws.
#[local] Existing Instance demo_request_laws.
#[local] Existing Instance demo_response_laws.

Abbreviation demo_server := (VaultServer (KmsSource (list (string * bytes))) RusqliteStore
  (list AuditEntry)).
Abbreviation demo_step := (sstep (V := DemoValue) mkAllowAllAdmin (λ peer, peer = demo_peer)).

(** A client connects. *)
Definition demo_listening : demo_server :=
  serve_accept (Ok (conn_stream demo_conn, demo_peer)) (VaultServer_new demo_vault).
Lemma demo_accepts : demo_step (VaultServer_new demo_vault, demo_world) (demo_listening, demo_world).
Proof. apply ss_accept; [done|]. congruence. Qed.
Lemma serve_authorised_witness :
  ∃ srv w', rtc demo_step (VaultServer_new demo_vault, demo_world) (srv, w') ∧
    srv_tasks srv ≠ [] ∧
    rtc (gstep mkAllowAllAdmin (λ peer, peer = demo_peer)) (demo_vault, demo_world)
      (srv_vault srv, w').
Proof.
  exists demo_listening, demo_world.
  pose proof (rtc_once _ _ demo_accepts) as Hrun. split; [exact Hrun|]. split; [discriminate|].
  exact (proj1 (serve_authorised mkAllowAllAdmin (λ peer, peer = demo_peer) demo_vault demo_world
    demo_listening demo_world Hrun)).
Defined.

Lemma serve_single_witness :
  ∃ c' w', rtc demo_step
    (mkVaultServer demo_vault [mkTask demo_peer None (conn_stream demo_conn)] None, demo_world)
    (mkVaultServer (conn_vault c') [] None, w').
Proof.
  assert (∃ c' w', handle_connection (V := DemoValue) demo_peer mkAllowAllAdmin demo_conn
    demo_world = (Ok (Some tt), c', w')) as (c' & w' & Hrun) by demo_runs.
  exists c', w'.
  exact (serve_single mkAllowAllAdmin (λ peer, peer = demo_peer) demo_peer _ demo_vault demo_world
    _ c' w' None Hrun).
Defined.
