(* ===== verification/ServerConc.v ===== *)
(** The server with its connections at the same time: [VaultServer] of [src/server.rs].

    A hub is the shared vault with the streams of the connections, and each connection is a
    thread that runs [handle_connection_prog]; the steps of the connections interleave in
    any way the locks of the vault allow. Every run of the hub is a run of the vault under
    concurrent operations ([VaultConc]), each of them permitted to an authenticated
    connection, so that what is proved of those runs holds of the served vault. *)
From S2P Require Import Prelude Threads Text Concrete Types Lease Policy Session.
From S2P Require Import Store RusqliteStore Crypto KeySource Auth AuditEvents Vault VaultInv.
From S2P Require Import VaultSpec VaultProps VaultThreads VaultLocks VaultMoves VaultConc.
From S2P Require Import Frame Transport Protocol Server ServerTheorems ServerThreads Serve Demo.

Local Open Scope string_scope.
Local Open Scope list_scope.

(** ** The hub *)

Record Hub (K S A : Type) := mkHub { hub_vault : Vault K S A; hub_streams : list Stream }.
Arguments mkHub {K S A}.
Arguments hub_vault {K S A}.
Arguments hub_streams {K S A}.

Section hub.
Context {K S A V T : Type}.
Context `{!Env, !StreamIO, !Chrono, !UuidText, !HashIter, !Aead, !Sha256}.
Context `{!KeySource K, !SecretStore S, !AuditLog A, !Authenticator T}.
Context `{!Wire V, !Base64}.
Context `{!Serde ClientHello, !Serde ServerHello, !Serde (Request V), !Serde (Response V)}.
Abbreviation HP := (Prog (Hub K S A) Error VaultLock).
Abbreviation HPool := (Pool (Hub K S A) Error VaultLock (option unit)).
Implicit Types (h : Hub K S A) (c : HPool).

(** What connection [i] sees: the vault and its own stream. *)
Definition hub_conn (i : nat) h : Conn K S A :=
  mkConn (hub_vault h) (default (mkStream [] []) (hub_streams h !! i)).
Definition put_conn (i : nat) (x : Conn K S A) h : Hub K S A :=
  mkHub (conn_vault x) (<[i := conn_stream x]> (hub_streams h)).

(** The task that [serve] spawns for a connection. *)
Definition connection_prog (authenticator : T) (i : nat) (peer : PeerIdentity)
    : HP (option unit) :=
  pzoom (hub_conn i) (put_conn i) (handle_connection_prog (V := V) peer authenticator).

Definition hub_start (v : Vault K S A) (w : World) : HPool := mkPool (mkHub v []) w [].

(** [serve] accepts a connection. *)
Definition hub_connect (authenticator : T) (stream : Stream) (peer : PeerIdentity) c : HPool :=
  let h := pool_state c in
  mkPool (mkHub (hub_vault h) (hub_streams h ++ [stream])) (pool_world c)
    (pool_threads c ++ [spawn (connection_prog authenticator (length (hub_streams h)) peer)]).

(** [serving N c c']: from [c] on connections were accepted, of peers in [accepts] and never
    while [N] others were open, and took their steps, and the hub has become [c']. *)
Inductive serving (authenticator : T) (accepts : PeerIdentity → Prop) (N : nat)
    : HPool → HPool → Prop :=
  | sg_refl c : serving authenticator accepts N c c
  | sg_step c c1 c2 :
      serving authenticator accepts N c c1 → pool_step c1 c2 → serving authenticator accepts N c c2
  | sg_time c c1 w :
      serving authenticator accepts N c c1 → world_le (pool_world c1) w →
      serving authenticator accepts N c (mkPool (pool_state c1) w (pool_threads c1))
  | sg_connect c c1 stream peer :
      serving authenticator accepts N c c1 → accepts peer → (running c1 < N)%nat →
      serving authenticator accepts N c (hub_connect authenticator stream peer c1).
End hub.

(** ** Programs that run operations of the vault *)

Section drives.
Context {K S A : Type}.
Context `{!Env, !Chrono, !UuidText, !HashIter, !Aead}.
Context `{!KeySource K, !SecretStore S, !AuditLog A}.
Abbreviation VP := (Prog (Vault K S A) Error VaultLock).
Context (Allowed : VaultOp → Prop).

Section relation.
Context {St : Type} (get : St → Vault K S A).

(** [drives o p]: with the program [o] of an operation under way, or none, [p] does what is
    left of it step by step, and afterwards other operations of [Allowed], one after the
    other; in between it leaves the vault alone. *)
Inductive drives {B : Type} : option (VP unit) → Prog St Error VaultLock B → Prop :=
  | dr_ret r : drives None (Ret r)
  | dr_own {C} (a : M St Error C) k (R : outcome Error C → Prop) :
      (∀ s w, wp a s w (λ r s' w', get s' = get s ∧ world_le w w' ∧ R r)) →
      (∀ r, R r → drives None (k r)) → drives None (Act a k)
  | dr_start op p : Allowed op → drives (Some (op_prog op)) p → drives None p
  | dr_finish r p : drives None p → drives (Some (Ret r)) p
  | dr_acquire l m q p : drives (Some q) p → drives (Some (Acquire l m q)) (Acquire l m p)
  | dr_release l q p : drives (Some q) p → drives (Some (Release l q)) (Release l p)
  | dr_act {C} (a : M (Vault K S A) Error C) (a' : M St Error C) k k' :
      (∀ s w, wp a' s w (λ r s' w', a (get s) w = (r, get s', w'))) →
      (∀ r, drives (Some (k r)) (k' r)) → drives (Some (Act a k)) (Act a' k').

Lemma drives_seq {B C} o (p : Prog St Error VaultLock B) (k : outcome Error B → Prog St Error VaultLock C) :
  drives o p → (∀ r, drives None (k r)) → drives o (pseq p k).
Proof.
  intros Hp Hk. induction Hp; simpl; [done| |by econstructor..|].
  - by eapply dr_own.
  - by eapply dr_act.
Qed.
Lemma drives_bind {B C} o (p : Prog St Error VaultLock B) (k : B → Prog St Error VaultLock C) :
  drives o p → (∀ b, drives None (k b)) → drives o (p ≫= k).
Proof. intros Hp Hk. apply drives_seq; [done|]. intros [b|e|]; [done|constructor..]. Qed.
Lemma drives_try {B} o (p : Prog St Error VaultLock B) : drives o p → drives o (ptry p).
Proof. intros Hp. apply drives_seq; [done|]. intros [b|e|]; constructor. Qed.
Lemma drives_own {B} (a : M St Error B) (R : outcome Error B → Prop) :
  (∀ s w, wp a s w (λ r s' w', get s' = get s ∧ world_le w w' ∧ R r)) → drives None (atomic a).
Proof. intros Ha. eapply dr_own; [exact Ha|]. intros r _. constructor. Qed.
End relation.

(** A program on a part of the state drives what it drives. *)
Lemma drives_zoom {St St' B} (get : St → Vault K S A) (g : St' → St) (p : St → St' → St') o
    (q : Prog St Error VaultLock B) :
  (∀ x s, get (g (p x s)) = get x) → drives get o q →
  drives (λ s, get (g s)) o (pzoom g p q).
Proof.
  intros Hg Hq. induction Hq as [|C a k R Ha _ IH| | | | |C a a' k k' Ha _ IH]; simpl;
    [by econstructor| |by econstructor..|].
  - eapply dr_own; [|exact IH]. intros s w. apply wp_zoom. eapply wp_mono; [apply Ha|].
    intros r x w' (Hx & Hw & HR). by rewrite Hg.
  - apply dr_act; [|exact IH]. intros s w. apply wp_zoom. eapply wp_mono; [apply Ha|].
    intros r x w' Hr. by rewrite Hg.
Qed.

(** An operation with its result drives the operation without it. *)
Abbreviation vdrives := (drives (λ v : Vault K S A, v)).
Lemma drives_forget {B} (p : VP B) (f : outcome Error B → VP unit) :
  (∀ r, ∃ r', f r = Ret r') → vdrives (Some (pseq p f)) p.
Proof.
  intros Hf. induction p as [r|l m k IH|l k IH|C a k IH]; simpl.
  - destruct (Hf r) as [r' ->]. apply dr_finish, dr_ret.
  - by constructor.
  - by constructor.
  - constructor; [|done]. intros v w. by apply run_wp.
Qed.
Lemma drives_call {B} op (p : VP B) :
  Allowed op → op_prog op = (p;; mret tt) → vdrives None p.
Proof.
  intros Ha Hop. apply (dr_start _ op); [done|]. rewrite Hop. apply drives_forget.
  intros [b|e|]; eauto.
Qed.
Lemma drives_same (p : VP unit) : vdrives (Some p) p.
Proof.
  induction p as [r|l m k IH|l k IH|C a k IH].
  - apply dr_finish, dr_ret.
  - by constructor.
  - by constructor.
  - constructor; [|done]. intros v w. by apply run_wp.
Qed.
Lemma drives_op op : Allowed op → vdrives None (op_prog op).
Proof. intros Ha. apply (dr_start _ op); [done|]. apply drives_same. Qed.
End drives.

(** ** What a connection drives *)

Section connections.
Context {K S A V T : Type}.
Context `{!Env, !StreamIO, !Chrono, !UuidText, !HashIter, !Aead, !Sha256}.
Context `{!KeySource K, !SecretStore S, !AuditLog A, !Authenticator T}.
Context `{!Wire V, !Base64}.
Context `{!Serde ClientHello, !Serde ServerHello, !Serde (Request V), !Serde (Response V)}.
Context `{!SerdeLaws ClientHello, !SerdeLaws ServerHello}.
Abbreviation VP := (Prog (Vault K S A) Error VaultLock).
Implicit Types (request : Request V).

Section requests.
Context (Allowed : VaultOp → Prop) (identity : ConnectionIdentity) (peer : PeerIdentity).
Hypothesis Hallowed : ∀ op, permitted identity peer op → Allowed op.
Abbreviation vdrives := (drives Allowed (λ v : Vault K S A, v)).
Abbreviation cdrives := (drives Allowed (conn_vault (K := K) (S := S) (A := A))).

Lemma json_value_drives `{!SerdeValue V B} id (b : B) : vdrives None (json_value_prog id b).
Proof. unfold json_value_prog. destruct (to_value b); constructor. Qed.
Lemma json_response_drives `{!SerdeValue V B} id (p : VP B) :
  vdrives None p → vdrives None (json_response_prog id p).
Proof.
  intros Hp. apply drives_bind; [by apply drives_try|].
  intros [b|e|]; [apply json_value_drives|constructor..].
Qed.
Lemma unit_response_drives id (p : VP unit) :
  vdrives None p → vdrives None (unit_response_prog id p : VP (Response V)).
Proof.
  intros Hp. apply drives_bind; [by apply drives_try|]. intros [b|e|]; constructor.
Qed.
Lemma parse_params_drives `{!SerdeValue V B} request (k : B → VP (Response V)) :
  (∀ b, vdrives None (k b)) → vdrives None (parse_params_prog request k).
Proof.
  intros Hk. unfold parse_params_prog. destruct (from_value _); [done|constructor..].
Qed.

(** A request drives at most the one operation that it asks for, which its role permits. *)
Lemma dispatch_drives request : vdrives None (dispatch_prog request peer identity).
Proof.
  unfold dispatch_prog. cbv zeta.
  destruct (bool_decide (request_method request ∈ ADMIN_METHODS) &&
    negb (bool_decide (identity_role identity = Admin))) eqn:Hrole; [constructor|].
  assert (Hadmin : request_method request ∈ ADMIN_METHODS → identity_role identity = Admin).
  { intros Hm. rewrite (bool_decide_eq_true_2 _ Hm) in Hrole. simpl in Hrole.
    apply negb_false_iff, bool_decide_eq_true in Hrole. done. }
  clear Hrole. unfold str_eqb, ADMIN_METHODS in *.
  repeat (case_bool_decide as Hmethod; [rewrite Hmethod in Hadmin|clear Hmethod]);
    [| | | | | | | |constructor].
  - apply parse_params_drives. intros req. repeat case_match; try constructor.
    apply json_response_drives; eapply (drives_call _ (OpStoreSecret _ _ _ _ _)); [|reflexivity].
    apply Hallowed. split; [|done]. apply Hadmin. by repeat constructor.
  - apply parse_params_drives. intros req.
    apply json_response_drives; eapply (drives_call _ (OpRequestLease _ _ _ _)); [|reflexivity].
    apply Hallowed. split; eauto.
  - apply parse_params_drives. intros req. apply drives_bind; [apply drives_try|].
    + eapply (drives_call _ (OpAccessSecret _ _ _)); [|reflexivity]. by apply Hallowed.
    + intros [g|e|]; [apply json_value_drives|constructor..].
  - apply parse_params_drives. intros req. repeat case_match; try constructor.
    apply unit_response_drives; eapply (drives_op _ (OpRevokeLease _ _ _)). by apply Hallowed.
  - apply parse_params_drives. intros req. apply json_response_drives, drives_bind.
    + eapply (drives_call _ (OpRevokeAllForAgent _ _)); [|reflexivity]. apply Hallowed. split; eauto.
    + intros count. constructor.
  - apply json_response_drives, drives_bind; [|intros ms; constructor].
    eapply (drives_call _ OpListSecrets); [|reflexivity]. apply Hallowed, Hadmin. by repeat constructor.
  - apply parse_params_drives. intros req.
    apply json_response_drives; eapply (drives_call _ (OpRenewLease _ _ _)); [|reflexivity]. by apply Hallowed.
  - apply parse_params_drives. intros req.
    apply unit_response_drives; eapply (drives_op _ (OpDeleteSecret _ _)).
    apply Hallowed. split; [|done]. apply Hadmin. by repeat constructor.
Qed.

Lemma own_stream {B} (m : M Stream Error B) :
  forward m → ∀ c w, wp (on_stream (K := K) (S := S) (A := A) m) c w (λ r c' w',
    conn_vault c' = conn_vault c ∧ world_le w w' ∧ True).
Proof.
  intros Hm c w. unfold on_stream. apply wp_zoom. eapply wp_mono; [apply Hm|]. done.
Qed.
Lemma read_frame_forward : forward read_frame.
Proof. intros s w. eapply wp_mono; [apply read_frame_wp|]. naive_solver. Qed.
Lemma write_frame_forward data : forward (write_frame data).
Proof. intros s w. eapply wp_mono; [apply write_frame_wp|]. naive_solver. Qed.

Lemma send_best_effort_drives (resp : Response V) : cdrives None (atomic (send_best_effort resp)).
Proof.
  eapply (drives_own _ _ _ (λ _, True)). intros c w. unfold send_best_effort. wp_step. wp_step.
  eapply wp_mono; [apply own_stream, write_frame_forward|]. intros [u|e|] c' w' Hr; by wp_steps.
Qed.

Lemma serve_one_drives : cdrives None (serve_one_prog (V := V) peer identity).
Proof.
  unfold serve_one_prog. apply drives_bind.
  { eapply (drives_own _ _ _ (λ _, True)). intros c w. wp_step.
    eapply wp_mono; [apply own_stream, read_frame_forward|]. by intros [f|e|] c' w' Hr. }
  intros [f|e|]; [| |constructor].
  - destruct (from_json (from_bytes f)) as [request|e|]; [| |constructor].
    + apply drives_bind.
      { apply (drives_zoom _ (λ v, v)); [done|]. apply dispatch_drives. }
      intros response. apply drives_bind; [constructor|]. intros b.
      apply drives_bind; [|intros _; constructor].
      eapply (drives_own _ _ _ (λ _, True)), own_stream, write_frame_forward.
    + apply drives_bind; [apply send_best_effort_drives|intros _; constructor].
  - cbv zeta. case_match; [constructor|].
    apply drives_bind; [apply send_best_effort_drives|intros _; constructor].
Qed.
Lemma request_loop_drives fuel : cdrives None (request_loop_prog (V := V) fuel peer identity).
Proof.
  induction fuel as [|fuel IH]; cbn [request_loop_prog]; [constructor|].
  apply drives_bind; [apply serve_one_drives|]. intros [|]; [done|constructor].
Qed.
End requests.

Context (authenticator : T) (accepts : PeerIdentity → Prop).

(** An operation of some authenticated connection. *)
Definition granted_op (op : VaultOp) : Prop :=
  ∃ peer identity, granted authenticator accepts peer identity ∧ permitted identity peer op.

Lemma handle_connection_drives peer :
  accepts peer →
  drives granted_op (conn_vault (K := K) (S := S) (A := A)) None
    (handle_connection_prog (V := V) peer authenticator).
Proof.
  intros Hacc. unfold handle_connection_prog.
  eapply (dr_own _ _ _ _ (λ r, ∀ peer' identity, r = Ok (Some (peer', identity)) →
    granted authenticator accepts peer' identity)).
  { intros c w. eapply wp_mono; [apply handshake_wp|].
    intros r c' w' ((Hv & Hw & _) & _ & Hok). split; [done|]. split; [done|].
    intros peer' identity ->. destruct (Hok _ _ eq_refl) as (_ & hello & _ & -> & Ha).
    by exists peer, (chello_token hello). }
  intros [[[peer' identity]|]|e|] HR; simpl; try constructor.
  eapply (dr_own _ _ _ _ (λ _, True)); [intros c w; by wp_step|].
  intros [c|e|] _; simpl; [|constructor..]. eapply (drives_bind _ _ None (serve_one_prog peer' identity)).
  - apply serve_one_drives. intros op Hop. exists peer', identity. auto.
  - intros [|]; [|constructor]. apply request_loop_drives. intros op Hop.
    exists peer', identity. auto.
Qed.

Lemma connection_drives i peer :
  accepts peer →
  drives granted_op (hub_vault (K := K) (S := S) (A := A)) None
    (connection_prog (V := V) authenticator i peer).
Proof.
  intros Hacc. apply (drives_zoom _ conn_vault (hub_conn i) (put_conn i)); [done|].
  by apply handle_connection_drives.
Qed.
End connections.

(** ** The simulation *)

Section alive.
Context {K S A : Type}.
Abbreviation VThread := (Thread (Vault K S A) Error VaultLock unit).
Implicit Types (o : option VThread) (os : list (option VThread)).

(** The operations that are still under way. *)
Definition alive1 o : list VThread :=
  match o with Some t => if decide (finished t) then [] else [t] | None => [] end.
Definition alive os : list VThread := os ≫= alive1.

Lemma alive_app os os' : alive (os ++ os') = alive os ++ alive os'.
Proof. apply bind_app. Qed.
Lemma alive_insert os i o o' :
  os !! i = Some o → alive (<[i := o']> os) ++ alive1 o ≡ₚ alive os ++ alive1 o'.
Proof.
  intros Hi. rewrite insert_take_drop by (by eapply lookup_lt_Some).
  rewrite <-(take_drop_middle os i o Hi) at 3.
  rewrite !alive_app. unfold alive. rewrite !bind_cons, <-!(assoc_L (++)).
  apply Permutation_app_head. rewrite (Permutation_app_comm (alive1 o')),
    (Permutation_app_comm (alive1 o)), <-!(assoc_L (++)).
  apply Permutation_app_head, Permutation_app_comm.
Qed.
Lemma alive_running c : length (alive (Some <$> pool_threads c)) = running c.
Proof.
  unfold running. induction (pool_threads c) as [|t ts IH]; [done|].
  unfold alive in *. rewrite fmap_cons, bind_cons, length_app, IH, filter_cons. simpl.
  repeat case_decide; done.
Qed.
Lemma elem_of_alive t os : t ∈ alive os ↔ Some t ∈ os ∧ ¬ finished t.
Proof.
  unfold alive. rewrite list_elem_of_bind. split.
  - intros (o & Ht & Ho). destruct o as [t'|]; simpl in Ht; [|by apply not_elem_of_nil in Ht].
    case_decide; [by apply not_elem_of_nil in Ht|]. by apply list_elem_of_singleton in Ht as ->.
  - intros [Ho Hf]. exists (Some t). split; [|done]. simpl. rewrite decide_False by done.
    by apply list_elem_of_singleton.
Qed.
End alive.

Section simulation.
Context {K S A : Type}.
Context `{!Env, !Chrono, !UuidText, !HashIter, !Aead}.
Context `{!KeySource K, !SecretStore S, !AuditLog A}.
Context {B : Type} (Allowed : VaultOp → Prop) (N : nat).
Abbreviation HPool := (Pool (Hub K S A) Error VaultLock B).
Abbreviation VPool := (Pool (Vault K S A) Error VaultLock unit).
Abbreviation VThread := (Thread (Vault K S A) Error VaultLock unit).
Abbreviation HThread := (Thread (Hub K S A) Error VaultLock B).
Abbreviation hdrives := (drives Allowed (hub_vault (K := K) (S := S) (A := A))).
Implicit Types (hc : HPool) (vc : VPool) (os : list (option VThread)).

(** A connection between operations, or with the operation it is in. *)
Definition paired (o : option VThread) (t : HThread) : Prop :=
  hdrives (prog <$> o) (prog t) ∧
  match o with
  | None => held t = []
  | Some tv => held tv = held t ∧ (finished tv → held tv = [])
  end.

Definition pairs os hc vc : Prop :=
  pool_state vc = hub_vault (pool_state hc) ∧ pool_world vc = pool_world hc ∧
  Forall2 paired os (pool_threads hc) ∧ alive (Some <$> pool_threads vc) ≡ₚ alive os.

(** An operation under way belongs to a connection that is open. *)
Lemma paired_open o t : paired o t → alive1 o ≠ [] → ¬ finished t.
Proof.
  intros [Hd _] Ho [r Hr]. destruct o as [tv|]; [|done]. simpl in *. case_decide as Hf; [done|].
  apply Hf. rewrite Hr in Hd. remember (Some (prog tv)) as q eqn:Hq.
  remember (Ret r) as p eqn:Hp. destruct Hd; simplify_eq. by eexists.
Qed.
Lemma alive_le os (ts : list HThread) :
  Forall2 paired os ts → (length (alive os) ≤ count (λ t, ¬ finished t) ts)%nat.
Proof.
  unfold count, alive. induction 1 as [|o t os ts Hp _ IH]; [done|].
  rewrite bind_cons, length_app, filter_cons. pose proof (paired_open _ _ Hp) as Ho.
  destruct o as [tv|]; simpl in *; repeat case_decide; simpl; try lia.
  exfalso. by apply Ho.
Qed.

(** There is room for the operation that an idle connection starts. *)
Lemma room os hc vc i t :
  pairs os hc vc → os !! i = Some None → pool_threads hc !! i = Some t → ¬ finished t →
  (running vc < running hc)%nat.
Proof.
  intros (_ & _ & Hall & Hperm) Hi Ht Hf. rewrite <-alive_running, Hperm.
  set (dead := mkThread [] (Ret Panic) : HThread).
  assert (Hd : Forall2 paired os (<[i := dead]> (pool_threads hc))).
  { rewrite <-(list_insert_id os i None Hi). apply Forall2_insert; [done|].
    split; [constructor|done]. }
  apply alive_le in Hd.
  pose proof (count_insert (λ t : HThread, ¬ finished t) _ i t dead Ht) as Hc.
  rewrite (decide_True _ _ Hf) in Hc. rewrite (decide_False (P := ¬ finished dead)) in Hc.
  - change (running hc) with (count (λ t : HThread, ¬ finished t) (pool_threads hc)). lia.
  - intros Hn. apply Hn. by eexists.
Qed.

Lemma pairs_update os hc vc i o ovc' o' t' hs' w' :
  os !! i = Some o → pairs os hc vc →
  pool_state ovc' = hub_vault hs' → pool_world ovc' = w' →
  alive (Some <$> pool_threads ovc') ++ alive1 o ≡ₚ alive (Some <$> pool_threads vc) ++ alive1 o' →
  paired o' t' →
  pairs (<[i := o']> os) (mkPool hs' w' (<[i := t']> (pool_threads hc))) ovc'.
Proof.
  intros Hi (_ & _ & Hall & Hperm) Hs Hw Ha Hp. split; [done|]. split; [done|]. split.
  - by apply Forall2_insert.
  - apply (Permutation_app_inv_r (alive1 o)). rewrite (alive_insert os i o o' Hi), Ha.
    by apply Permutation_app_tail.
Qed.

(** A finished operation holds no lock. *)
Lemma locked_finished vc t : pool_locked vc → t ∈ pool_threads vc → finished t → held t = [].
Proof. intros [Hl _] Ht [r Hr]. specialize (Hl t Ht). by rewrite Hr in Hl. Qed.

Lemma paired_available os hc vc l m :
  pairs os hc vc → pool_locked vc → available l m (pool_threads hc) →
  available l m (pool_threads vc).
Proof.
  intros (_ & _ & Hall & Hperm) Hl Ha. apply Forall_forall.
  intros tv Htv. destruct (decide (finished tv)) as [Hf|Hf].
  - rewrite (locked_finished _ _ Hl Htv Hf). by intros ?%Exists_nil.
  - assert (Hin : tv ∈ alive (Some <$> pool_threads vc)).
    { apply elem_of_alive. split; [by apply list_elem_of_fmap_2|done]. }
    rewrite Hperm in Hin. apply elem_of_alive in Hin as [Ho _].
    apply list_elem_of_lookup in Ho as [i Hi].
    destruct (Forall2_lookup_l _ _ _ _ _ Hall Hi) as (t & Ht & _ & Hh & _). rewrite Hh.
    unfold available in Ha. rewrite Forall_forall in Ha. apply Ha. by eapply list_elem_of_lookup_2.
Qed.

(** An operation that a connection is in is one of the vault. *)
Lemma under_way os hc vc i tv :
  pairs os hc vc → os !! i = Some (Some tv) → ¬ finished tv → tv ∈ pool_threads vc.
Proof.
  intros (_ & _ & _ & Hperm) Hi Hf.
  assert (Hin : tv ∈ alive (Some <$> pool_threads vc)).
  { rewrite Hperm. apply elem_of_alive. split; [by eapply list_elem_of_lookup_2|done]. }
  apply elem_of_alive in Hin as [Hin _]. by apply list_elem_of_fmap in Hin as (tv2 & [= <-] & Hin).
Qed.

(** The operation of connection [i] takes a step with it. *)
Lemma pair_step os hc vc i tv t' hs' w' tv' :
  pairs os hc vc → pool_locked vc → os !! i = Some (Some tv) → ¬ finished tv →
  thread_step (pool_threads vc) tv (pool_state vc) (pool_world vc) =
    Some (tv', hub_vault hs', w') →
  held tv' = held t' → hdrives (Some (prog tv')) (prog t') →
  ∃ vc' os', pool_step vc vc' ∧
    pairs os' (mkPool hs' w' (<[i := t']> (pool_threads hc))) vc'.
Proof.
  intros Hp Hl Hi Hf Hs Hh Hd. pose proof (under_way _ _ _ _ _ Hp Hi Hf) as Hin.
  apply list_elem_of_lookup in Hin as [j Hj].
  set (vc' := mkPool (hub_vault hs') w' (<[j := tv']> (pool_threads vc)) : VPool).
  assert (Hstep : pool_step vc vc').
  { exists j. apply step_at_Some. by exists tv, tv', (hub_vault hs'), w'. }
  exists vc', (<[i := Some tv']> os). split; [done|].
  eapply pairs_update; [done|done|done|done| |].
  - cbn [pool_threads vc']. rewrite list_fmap_insert.
    apply alive_insert. by rewrite list_lookup_fmap, Hj.
  - split; [done|]. split; [done|]. intros Hft. eapply (locked_finished vc'); [| |done].
    + by eapply pool_step_locked.
    + apply (list_elem_of_lookup_2 _ j). apply list_lookup_insert_eq. by eapply lookup_lt_Some.
Qed.

(** Only what the connection is in changes. *)
Lemma pairs_change os hc vc i o vc' o' t :
  os !! i = Some o → pool_threads hc !! i = Some t → pairs os hc vc →
  pool_state vc' = pool_state vc → pool_world vc' = pool_world vc →
  alive (Some <$> pool_threads vc') ++ alive1 o ≡ₚ alive (Some <$> pool_threads vc) ++ alive1 o' →
  paired o' t → pairs (<[i := o']> os) hc vc'.
Proof.
  intros Hi Ht Hpr Hs Hw Ha Hp. pose proof Hpr as (Hs0 & Hw0 & _).
  pose proof (pairs_update os hc vc i o vc' o' t (pool_state hc) (pool_world hc) Hi Hpr
    ltac:(congruence) ltac:(congruence) Ha Hp) as Hnew.
  rewrite (list_insert_id (pool_threads hc) i t Ht) in Hnew. by destruct hc.
Qed.

(** The operation that an idle connection starts arrives. *)
Lemma pairs_arrive os hc vc i t op :
  pairs os hc vc → pool_locked vc → os !! i = Some None → pool_threads hc !! i = Some t →
  ¬ finished t → (running hc ≤ N)%nat → hdrives (Some (op_prog op)) (prog t) →
  let o' := Some (spawn (op_prog op)) in
  <[i := o']> os !! i = Some o' ∧ pairs (<[i := o']> os) hc (arrive op vc) ∧
  pool_locked (arrive op vc) ∧ conc N vc [op] (arrive op vc).
Proof.
  intros Hpr Hl Hi Ht Hnf HN Hd o'.
  pose proof Hpr as (_ & _ & Hall & _). pose proof (room _ _ _ _ _ Hpr Hi Ht Hnf).
  destruct (Forall2_lookup_lr _ _ _ _ _ _ Hall Hi Ht) as [_ Hheld]. split_and!.
  - apply list_lookup_insert_eq. by eapply lookup_lt_Some.
  - eapply pairs_change; [done..| |].
    + cbn [arrive pool_threads]. rewrite fmap_app, alive_app. unfold alive at 2.
      by rewrite fmap_cons, bind_cons, !app_nil_r.
    + split; [done|]. by split.
  - apply pool_locked_join; [done|]. apply op_prog_locked.
  - apply (conc_arrive N vc []); [constructor|lia].
Qed.

(** The operation that a connection was in has returned. *)
Lemma pairs_return os hc vc i t tv :
  pairs os hc vc → os !! i = Some (Some tv) → pool_threads hc !! i = Some t → finished tv →
  hdrives None (prog t) → <[i := None]> os !! i = Some None ∧ pairs (<[i := None]> os) hc vc.
Proof.
  intros Hpr Hi Ht Hf Hd. pose proof Hpr as (_ & _ & Hall & _).
  destruct (Forall2_lookup_lr _ _ _ _ _ _ Hall Hi Ht) as (_ & Hh & Hfin). split.
  - apply list_lookup_insert_eq. by eapply lookup_lt_Some.
  - eapply pairs_change; [done..| |].
    + simpl. by rewrite decide_True.
    + split; [done|]. rewrite <-Hh. by apply Hfin.
Qed.

(** A step of a connection is a step of its operation, the arrival of its next one first, or
    nothing at all for the vault. *)
Lemma drive_step hc i t t' hs' w' q p :
  hdrives q p → prog t = p → pool_threads hc !! i = Some t → (running hc ≤ N)%nat →
  thread_step (pool_threads hc) t (pool_state hc) (pool_world hc) = Some (t', hs', w') →
  ∀ o vc os, prog <$> o = q → os !! i = Some o → pairs os hc vc → pool_locked vc →
  ∃ ops vc' os', conc N vc ops vc' ∧ Forall Allowed ops ∧
    pairs os' (mkPool hs' w' (<[i := t']> (pool_threads hc))) vc'.
Proof.
  intros Hd Hp Ht HN Hs.
  assert (Hnf : ¬ finished t).
  { intros [r Hr]. unfold thread_step in Hs. by rewrite Hr in Hs. }
  assert (Hone : ∀ vc, (∃ vc' os', pool_step vc vc' ∧
      pairs os' (mkPool hs' w' (<[i := t']> (pool_threads hc))) vc') →
    ∃ ops vc' os', conc N vc ops vc' ∧ Forall Allowed ops ∧
      pairs os' (mkPool hs' w' (<[i := t']> (pool_threads hc))) vc').
  { intros vc (vc' & os' & Hst & Hpr). exists [], vc', os'.
    split; [by eapply conc_step; [constructor|]|done]. }
  unfold thread_step in Hs.
  induction Hd as [r|C a k R Ha Hk _|op p Hop Hd IH|r p Hd IH|l m q p Hd _|l q p Hd _
    |C a a' k k' Ha Hk _]; intros o vc os Hq Hi Hpr Hl; pose proof Hpr as (Hst & Hw & Hall & _);
    destruct (Forall2_lookup_lr _ _ _ _ _ _ Hall Hi Ht) as [_ Hheld];
    (destruct o as [tv|]; [destruct Hheld as [Hh _]|]); simplify_eq/=.
  - by rewrite Hp in Hs.
  - rewrite Hp in Hs. specialize (Ha (pool_state hc) (pool_world hc)). unfold wp in Ha.
    destruct (a (pool_state hc) (pool_world hc)) as [[r s1] w1]. simplify_eq/=.
    destruct Ha as (Hv & Hle & HR).
    exists [], (mkPool (pool_state vc) w' (pool_threads vc)), (<[i := None]> os).
    split; [apply conc_time; [constructor|by rewrite Hw]|]. split; [done|].
    eapply pairs_update; [exact Hi|exact Hpr|by rewrite Hst, Hv|done|done|].
    split; [by apply Hk|done].
  - destruct (pairs_arrive _ _ _ _ _ op Hpr Hl Hi Ht Hnf HN Hd) as (Hi' & Hpr' & Hl' & Hc).
    destruct (IH eq_refl (Some (spawn (op_prog op))) _ _ eq_refl Hi' Hpr' Hl') as (ops & vc' & os' & Hc' & Hops & Hpr2).
    exists (op :: ops), vc', os'. split; [by apply (conc_trans N vc [op] _ ops _ Hc)|].
    split; [by constructor|done].
  - destruct (pairs_return _ _ _ _ _ _ Hpr Hi Ht (ex_intro _ r Hq) Hd) as [Hi' Hpr'].
    by apply (IH eq_refl None vc _ eq_refl Hi').
  - rewrite Hp in Hs. case_decide as Hav; simplify_eq/=. apply Hone.
    eapply (pair_step _ _ _ _ tv _ _ _ (mkThread ((l, m) :: held tv) q)); try done.
    + intros [r Hr]. congruence.
    + unfold thread_step. rewrite Hq, decide_True by (by eapply paired_available).
      by rewrite Hst, Hw.
    + simpl. by rewrite Hh.
  - rewrite Hp in Hs. simplify_eq/=. apply Hone.
    eapply (pair_step _ _ _ _ tv _ _ _ (mkThread (drop_lock l (held tv)) q)); try done.
    + intros [r Hr]. congruence.
    + unfold thread_step. by rewrite Hq, Hst, Hw.
    + simpl. by rewrite Hh.
  - rewrite Hp in Hs. specialize (Ha (pool_state hc) (pool_world hc)). unfold wp in Ha.
    destruct (a' (pool_state hc) (pool_world hc)) as [[r s1] w1]. simplify_eq/=. apply Hone.
    eapply (pair_step _ _ _ _ tv _ _ _ (mkThread (held tv) (k r))); try done.
    + intros [r' Hr]. congruence.
    + unfold thread_step. by rewrite Hq, Hst, Hw, Ha.
    + apply Hk.
Qed.
End simulation.

(** ** The server *)

Section server.
Context {K S A V T : Type}.
Context `{!Env, !StreamIO, !Chrono, !UuidText, !HashIter, !Aead, !Sha256}.
Context `{!KeySource K, !SecretStore S, !AuditLog A, !Authenticator T}.
Context `{!Wire V, !Base64}.
Context `{!Serde ClientHello, !Serde ServerHello, !Serde (Request V), !Serde (Response V)}.
Context `{!SerdeLaws ClientHello, !SerdeLaws ServerHello}.
Context (authenticator : T) (accepts : PeerIdentity → Prop) (N : nat).
Abbreviation HPool := (Pool (Hub K S A) Error VaultLock (option unit)).
Abbreviation VPool := (Pool (Vault K S A) Error VaultLock unit).
Abbreviation hserving := (serving (V := V) authenticator accepts N).
Abbreviation hpairs := (pairs (granted_op authenticator accepts)).
Implicit Types (hc : HPool) (vc : VPool).

Lemma hub_step_running hc hc' : pool_step hc hc' → (running hc' ≤ running hc)%nat.
Proof.
  intros [i Hi]. apply step_at_Some in Hi as (t & t' & s' & w' & Ht & Hs & ->).
  pose proof (count_insert (λ t : Thread _ _ _ _, ¬ finished t) _ i t t' Ht) as Hc.
  unfold running. unfold count in Hc. simpl. rewrite (decide_True (P := ¬ finished t)) in Hc.
  - case_decide; lia.
  - intros [r Hr]. unfold thread_step in Hs. by rewrite Hr in Hs.
Qed.
Lemma hub_connect_running stream peer hc :
  (running (hub_connect (V := V) authenticator stream peer hc) ≤ Datatypes.S (running hc))%nat.
Proof.
  unfold running. cbn [hub_connect pool_threads]. rewrite filter_app, length_app.
  rewrite filter_cons. case_decide; simpl; lia.
Qed.

(** A new connection is idle. *)
Lemma pairs_connect os stream peer hc vc :
  accepts peer → hpairs os hc vc →
  hpairs (os ++ [None]) (hub_connect (V := V) authenticator stream peer hc) vc.
Proof.
  intros Hacc (Hs & Hw & Hall & Hperm). split; [done|]. split; [done|]. split.
  - apply Forall2_app; [done|]. constructor; [|constructor]. split; [|done].
    by apply connection_drives.
  - by rewrite alive_app, Hperm, app_nil_r.
Qed.

(** A server whose vault is in a run goes on with that run. *)
Lemma serving_simulated os hc vc hc' :
  hserving hc hc' → hpairs os hc vc → pool_locked vc → (running hc ≤ N)%nat →
  (running hc' ≤ N)%nat ∧ ∃ ops vc' os', conc N vc ops vc' ∧
    Forall (granted_op authenticator accepts) ops ∧ hpairs os' hc' vc'.
Proof.
  intros Hrun Hpr Hl HN.
  induction Hrun as [c|c c1 c2 _ IH Hs|c c1 w _ IH Hw|c c1 stream peer _ IH Hacc Hlt].
  - split; [done|]. exists [], vc, os. split; [constructor|done].
  - destruct (IH Hpr HN) as (HN1 & ops & vc1 & os1 & Hc & Hops & Hpr1).
    split; [by etrans; [apply hub_step_running|]|]. destruct Hs as [i Hi].
    apply step_at_Some in Hi as (t & t' & s' & w' & Ht & Hs & ->).
    pose proof Hpr1 as (_ & _ & Hall & _).
    destruct (Forall2_lookup_r _ _ _ _ _ Hall Ht) as (o & Ho & Hd & _).
    destruct (drive_step _ N _ _ _ _ _ _ _ _ Hd eq_refl Ht HN1 Hs o vc1 os1 eq_refl Ho Hpr1)
      as (ops2 & vc2 & os2 & Hc2 & Hops2 & Hpr2); [by eapply conc_locked|].
    exists (ops ++ ops2), vc2, os2. split; [by eapply conc_trans|]. split; [|done].
    by apply Forall_app.
  - destruct (IH Hpr HN) as (HN1 & ops & vc1 & os1 & Hc & Hops & Hs1 & Hw1 & Hall & Hperm).
    split; [done|]. exists ops, (mkPool (pool_state vc1) w (pool_threads vc1)), os1.
    split; [apply conc_time; [done|by rewrite Hw1]|]. done.
  - destruct (IH Hpr HN) as (HN1 & ops & vc1 & os1 & Hc & Hops & Hpr1).
    split; [etrans; [apply hub_connect_running|lia]|].
    exists ops, vc1, (os1 ++ [None]). split; [done|]. split; [done|]. by apply pairs_connect.
Qed.

Lemma serving_from N' v0 w0 ops0 vc0 :
  conc_run N' v0 w0 ops0 vc0 → Forall finished (pool_threads vc0) →
  hpairs [] (hub_start (pool_state vc0) (pool_world vc0)) vc0 ∧ pool_locked vc0.
Proof.
  intros Hrun Hfin. split; [|by eapply conc_run_locked].
  split; [done|]. split; [done|]. split; [constructor|].
  unfold alive. induction Hfin as [|t ts Hf _ IH]; [done|].
  rewrite fmap_cons, bind_cons. simpl. by rewrite decide_True.
Qed.
End server.
