(* ===== verification/ServerFair.v ===== *)
(** The server with fair locks and clients that fall silent: [src/server.rs].

    The request loop waits for the next frame without a timeout, so a client that neither
    sends nor closes keeps its handler where it is. What the other clients need is that such
    a handler holds no lock of the vault. This file shows that a handler uses its stream only
    between two operations, when it holds no lock, and with [Fifo] that the handlers of the
    clients that go on come to rest, whoever else has fallen silent. *)
From S2P Require Import Prelude Threads Fifo Text Concrete Types Lease Policy.
From S2P Require Import Session Store Crypto KeySource Auth AuditEvents Vault VaultInv.
From S2P Require Import VaultSpec VaultProps VaultThreads VaultLocks VaultMoves VaultConc.
From S2P Require Import Frame Transport Protocol Server ServerTheorems ServerThreads ServerConc.

Local Open Scope string_scope.
Local Open Scope list_scope.

(** ** Programs that are quiet while they hold a lock *)

Section hushed.
Context {St E L : Type} `{!EqDecision L, !LockRank L, !Guards St L}.
Context (quiet : ∀ C, M St E C → Prop).
Implicit Types (h : list (L * Mode)).

(** While the program holds a lock, its actions are [quiet]. *)
Fixpoint hushed {B} h (p : Prog St E L B) : Prop :=
  match p with
  | Ret _ => True
  | Acquire l m k => hushed ((l, m) :: h) k
  | Release l k => hushed (drop_lock l h) k
  | Act a k => (h = [] ∨ quiet _ a) ∧ ∀ s w, wp a s w (λ r _ _, hushed h (k r))
  end.

Lemma hushed_seq {B C} (p : Prog St E L B) (k : outcome E B → Prog St E L C) h h1 :
  locked_in h p h1 → hushed h p → (∀ r, hushed h1 (k r)) → hushed h (pseq p k).
Proof.
  intros Hl Hp Hk. revert h Hl Hp.
  induction p as [r|l m p IH|l p IH|D a f IH]; simpl; intros h; [by intros ->|naive_solver..|].
  intros Hl [Ha Hp]. split; [done|]. intros s w.
  eapply wp_mono; [apply (wp_conj _ _ _ _ _ (Hl s w) (Hp s w))|]. naive_solver.
Qed.
Lemma hushed_bind {B C} (p : Prog St E L B) (k : B → Prog St E L C) h :
  locked_in h p h → hushed h p → (∀ b, hushed h (k b)) → hushed h (p ≫= k).
Proof. intros Hl Hp Hk. eapply hushed_seq; [done..|]. by intros [b|e|]; simpl. Qed.
Lemma hushed_atomic {B} (a : M St E B) : hushed [] (atomic a).
Proof. split; [by left|]. intros s w. by apply run_wp. Qed.

Lemma thread_step_hushed {B} ts (t : Thread St E L B) s w t' s' w' :
  thread_step ts t s w = Some (t', s', w') → hushed (held t) (prog t) → hushed (held t') (prog t').
Proof.
  unfold thread_step. destruct (prog t) as [r|l m k|l k|C a k]; simpl; intros Hs Hp.
  - done.
  - case_decide; by simplify_eq/=.
  - by simplify_eq/=.
  - destruct Hp as [_ Hp]. specialize (Hp s w). unfold wp in Hp.
    destruct (a s w) as [[r s1] w1]. by simplify_eq/=.
Qed.

(** A thread whose next action is not quiet holds no lock. *)
Lemma hushed_loud {B} (t : Thread St E L B) C (a : M St E C) k :
  hushed (held t) (prog t) → prog t = Act a k → ¬ quiet _ a → held t = [].
Proof. intros Ht Hp Ha. rewrite Hp in Ht. by destruct Ht as [[?|?] _]. Qed.
End hushed.

(** ** Programs on a part of the state *)

Section zooming.
Context {St T E L : Type} `{!EqDecision L, !LockRank L, !Guards St L, !Guards T L}.
Context (get : St → T) (put : T → St → St).
Hypothesis same_put : ∀ (l : L) s x, same l (get s) x → same l s (put x s).

Lemma locked_zoom {B} h (p : Prog T E L B) h' :
  locked_in h p h' → locked_in h (pzoom get put p) h'.
Proof.
  revert h. induction p as [r|l m k IH|l k IH|C a k IH]; intros h; simpl; [done|naive_solver..|].
  intros Hp s w. apply wp_zoom. eapply wp_mono; [apply Hp|]. intros r x w' [Hr Hk].
  split; [|by apply IH]. intros l Hl. by apply same_put, Hr.
Qed.

Lemma hushed_zoom {B} (quiet : ∀ C, M St E C → Prop) (quiet' : ∀ C, M T E C → Prop) h
    (p : Prog T E L B) :
  (∀ C (a : M T E C), quiet' C a → quiet C (zoom get put a)) →
  hushed quiet' h p → hushed quiet h (pzoom get put p).
Proof.
  intros Hq. revert h. induction p as [r|l m k IH|l k IH|C a k IH]; intros h; simpl; [done|auto..|].
  intros [Ha Hp]. split; [destruct Ha; auto|]. intros s w. apply wp_zoom.
  eapply wp_mono; [apply Hp|]. intros r x w'. apply IH.
Qed.
End zooming.

Lemma hushed_everywhere {St E L B} `{!EqDecision L} (quiet : ∀ C, M St E C → Prop) h
    (p : Prog St E L B) : (∀ C a, quiet C a) → hushed quiet h p.
Proof.
  intros Hq. revert h. induction p as [r|l m k IH|l k IH|C a k IH]; intros h; simpl; [done|auto..|].
  split; [by right|]. intros s w. apply run_wp. intros r s' w' _. apply IH.
Qed.

(** What a program with a result keeps, it keeps without it. *)
Lemma locked_forget {St E L B C} `{!EqDecision L, !LockRank L, !Guards St L} (p : Prog St E L B)
    (f : outcome E B → Prog St E L C) h h' :
  (∀ r, ∃ r', f r = Ret r') → locked_in h (pseq p f) h' → locked_in h p h'.
Proof.
  intros Hf. revert h. induction p as [r|l m k IH|l k IH|D a k IH]; intros h; simpl.
  - by destruct (Hf r) as [r' ->].
  - naive_solver.
  - naive_solver.
  - intros Hp s w. eapply wp_mono; [apply Hp|]. naive_solver.
Qed.

(** ** The handlers *)

Section handlers.
Context {K S A V T : Type}.
Context `{!Env, !StreamIO, !Chrono, !UuidText, !HashIter, !Aead, !Sha256}.
Context `{!KeySource K, !SecretStore S, !AuditLog A, !Authenticator T}.
Context `{!Wire V, !Base64}.
Context `{!Serde ClientHello, !Serde ServerHello, !Serde (Request V), !Serde (Response V)}.
Context `{!SerdeLaws ClientHello, !SerdeLaws ServerHello}.
Abbreviation VP := (Prog (Vault K S A) Error VaultLock).
Abbreviation CP := (Prog (Conn K S A) Error VaultLock).
Implicit Types (request : Request V) (peer : PeerIdentity) (identity : ConnectionIdentity).

(** The locks guard the tables of the vault, wherever it is. *)
#[global] Instance Conn_guards : Guards (Conn K S A) VaultLock := λ l c c',
  same l (conn_vault c) (conn_vault c').
#[global] Instance Hub_guards : Guards (Hub K S A) VaultLock := λ l h h',
  same l (hub_vault h) (hub_vault h').

(** An action that leaves the stream of the connection, or all streams, alone. *)
Definition off_stream C (a : M (Conn K S A) Error C) : Prop :=
  ∀ c w, conn_stream (a c w).1.2 = conn_stream c.
Definition off_streams C (a : M (Hub K S A) Error C) : Prop :=
  ∀ h w, hub_streams (a h w).1.2 = hub_streams h.

Lemma op_locked {B} op (p : VP B) : op_prog op = (p;; mret tt) → locked_in [] p [].
Proof.
  intros Hop. pose proof (op_prog_locked (K := K) (S := S) (A := A) op) as Hl. rewrite Hop in Hl.
  eapply locked_forget; [|exact Hl]. intros [b|e|]; by eexists.
Qed.
Lemma try_locked {B} (p : VP B) : locked_in [] p [] → locked_in [] (ptry p) [].
Proof. intros Hp. eapply locked_seq; [exact Hp|]. by intros [b|e|]. Qed.
Lemma json_value_locked `{!SerdeValue V B} id (b : B) :
  locked_in [] (json_value_prog id b : VP (Response V)) [].
Proof. unfold json_value_prog. by destruct (to_value b). Qed.
Lemma json_response_locked `{!SerdeValue V B} id (p : VP B) :
  locked_in [] p [] → locked_in [] (json_response_prog id p : VP (Response V)) [].
Proof.
  intros Hp. apply locked_bind; [by apply try_locked|]. intros [b|e|]; [apply json_value_locked|done..].
Qed.
Lemma unit_response_locked id (p : VP unit) :
  locked_in [] p [] → locked_in [] (unit_response_prog id p : VP (Response V)) [].
Proof. intros Hp. apply locked_bind; [by apply try_locked|]. by intros [b|e|]. Qed.
Lemma parse_params_locked `{!SerdeValue V B} request (k : B → VP (Response V)) :
  (∀ b, locked_in [] (k b) []) → locked_in [] (parse_params_prog request k) [].
Proof. intros Hk. unfold parse_params_prog. by destruct (from_value _). Qed.

Lemma dispatch_locked request peer identity : locked_in [] (dispatch_prog request peer identity : VP _) [].
Proof.
  unfold dispatch_prog. cbv zeta. destruct (_ && _); [done|].
  repeat (destruct (str_eqb (request_method request) _); [|]); [| | | | | | | |done].
  - apply parse_params_locked. intros req. repeat case_match; try done.
    eapply json_response_locked, (op_locked (OpStoreSecret _ _ _ _ _)). reflexivity.
  - apply parse_params_locked. intros req.
    eapply json_response_locked, (op_locked (OpRequestLease _ _ _ _)). reflexivity.
  - apply parse_params_locked. intros req. apply locked_bind.
    + eapply try_locked, (op_locked (OpAccessSecret _ _ _)). reflexivity.
    + intros [g|e|]; [apply json_value_locked|done..].
  - apply parse_params_locked. intros req. repeat case_match; try done.
    apply unit_response_locked, (op_prog_locked (OpRevokeLease _ _ _)).
  - apply parse_params_locked. intros req. apply json_response_locked, locked_bind; [|done].
    eapply (op_locked (OpRevokeAllForAgent _ _)). reflexivity.
  - apply json_response_locked, locked_bind; [|done].
    eapply (op_locked OpListSecrets). reflexivity.
  - apply parse_params_locked. intros req.
    eapply json_response_locked, (op_locked (OpRenewLease _ _ _)). reflexivity.
  - apply parse_params_locked. intros req.
    apply unit_response_locked, (op_prog_locked (OpDeleteSecret _ _)).
Qed.

Lemma stream_locked {B} (m : M Stream Error B) : forward m → locked_in [] (atomic (on_stream m) : CP B) [].
Proof.
  intros Hm. apply locked_atomic. intros c w. eapply wp_mono; [by apply own_stream|].
  intros r c' w' (Hv & _) l _. unfold same, Conn_guards. by rewrite Hv.
Qed.
Lemma vault_kept_locked {B} (a : M (Conn K S A) Error B) :
  (∀ c w, wp a c w (λ _ c' _, conn_vault c' = conn_vault c)) → locked_in [] (atomic a : CP B) [].
Proof.
  intros Ha. apply locked_atomic. intros c w. eapply wp_mono; [apply Ha|].
  intros r c' w' Hv l _. unfold same, Conn_guards. by rewrite Hv.
Qed.
Lemma send_best_effort_locked (resp : Response V) : locked_in [] (atomic (send_best_effort resp) : CP unit) [].
Proof.
  apply vault_kept_locked. intros c w. unfold send_best_effort. wp_step. wp_step.
  eapply wp_mono; [apply own_stream, write_frame_forward|]. intros [u|e|] c' w' (Hv & _); by wp_steps.
Qed.

(** The handler takes its locks in order, and touches the stream only without a lock. *)
Definition tame {B} (p : CP B) : Prop := locked_in [] p [] ∧ hushed off_stream [] p.

Lemma tame_ret {B} (r : outcome Error B) : tame (Ret r).
Proof. done. Qed.
Lemma tame_bind {B C} (p : CP B) (k : B → CP C) : tame p → (∀ b, tame (k b)) → tame (p ≫= k).
Proof.
  intros [Hl Hh] Hk. split; [apply locked_bind|apply hushed_bind]; try done; intros b; apply Hk.
Qed.
Lemma tame_atomic {B} (a : M (Conn K S A) Error B) : locked_in [] (atomic a : CP B) [] → tame (atomic a).
Proof. intros Ha. split; [done|apply hushed_atomic]. Qed.

Lemma dispatch_tame request peer identity :
  tame (pzoom conn_vault put_vault (dispatch_prog request peer identity) : CP (Response V)).
Proof.
  split.
  - apply locked_zoom; [|apply dispatch_locked]. intros l c v Hs. exact Hs.
  - apply (hushed_zoom _ _ _ (λ _ _, True)); [|by apply hushed_everywhere].
    intros C a _ c w. unfold zoom. by destruct (a (conn_vault c) w) as [[r v] w'].
Qed.

Lemma serve_one_tame peer identity : tame (serve_one_prog (V := V) peer identity : CP bool).
Proof.
  unfold serve_one_prog. apply tame_bind.
  { apply tame_atomic, vault_kept_locked. intros c w. wp_step.
    eapply wp_mono; [apply own_stream, read_frame_forward|]. by intros [f|e|] c' w' (Hv & _). }
  intros [f|e|]; [| |apply tame_ret].
  - destruct (from_json (from_bytes f)) as [request|e|]; [| |apply tame_ret].
    + apply tame_bind; [apply dispatch_tame|]. intros response.
      apply tame_bind; [apply tame_ret|]. intros b. apply tame_bind; [|intros _; apply tame_ret].
      apply tame_atomic, stream_locked, write_frame_forward.
    + apply tame_bind; [apply tame_atomic, send_best_effort_locked|intros _; apply tame_ret].
  - cbv zeta. case_match; [apply tame_ret|].
    apply tame_bind; [apply tame_atomic, send_best_effort_locked|intros _; apply tame_ret].
Qed.
Lemma request_loop_tame fuel peer identity :
  tame (request_loop_prog (V := V) fuel peer identity : CP (option unit)).
Proof.
  induction fuel as [|fuel IH]; cbn [request_loop_prog]; [apply tame_ret|].
  apply tame_bind; [apply serve_one_tame|]. intros [|]; [done|apply tame_ret].
Qed.
Lemma handle_connection_tame peer (authenticator : T) :
  tame (handle_connection_prog (V := V) peer authenticator : CP (option unit)).
Proof.
  unfold handle_connection_prog. apply tame_bind.
  { apply tame_atomic, vault_kept_locked. intros c w. eapply wp_mono; [apply handshake_wp|].
    by intros r c' w' ((Hv & _) & _). }
  intros [[peer' identity]|]; [|apply tame_ret]. apply tame_bind; [|intros c; apply request_loop_tame].
  apply tame_atomic, vault_kept_locked. intros c w. by wp_step.
Qed.
End handlers.

(** ** The hub with fair locks *)

Section hub.
Context {K S A V T : Type}.
Context `{!Env, !StreamIO, !Chrono, !UuidText, !HashIter, !Aead, !Sha256}.
Context `{!KeySource K, !SecretStore S, !AuditLog A, !Authenticator T}.
Context `{!Wire V, !Base64}.
Context `{!Serde ClientHello, !Serde ServerHello, !Serde (Request V), !Serde (Response V)}.
Context (authenticator : T) (accepts : PeerIdentity → Prop) (N : nat).
Abbreviation HPool := (Pool (Hub K S A) Error VaultLock (option unit)).
Abbreviation HFifo := (FifoPool (Hub K S A) Error VaultLock (option unit)).
Abbreviation HProg := (Prog (Hub K S A) Error VaultLock (option unit)).
Implicit Types (F : HFifo) (c : HPool).

(** [serving] with locks that serve their waiters in the order in which they came. *)
Inductive fair_serving : HFifo → HFifo → Prop :=
  | fs_refl F : fair_serving F F
  | fs_step F F1 F2 : fair_serving F F1 → fifo_step F1 F2 → fair_serving F F2
  | fs_time F F1 w :
      fair_serving F F1 → world_le (pool_world (fifo_pool F1)) w →
      fair_serving F (mkFifo (mkPool (pool_state (fifo_pool F1)) w (pool_threads (fifo_pool F1)))
                        (fifo_line F1))
  | fs_connect F F1 stream peer :
      fair_serving F F1 → accepts peer → (running (fifo_pool F1) < N)%nat →
      fair_serving F (mkFifo (hub_connect (V := V) authenticator stream peer (fifo_pool F1))
                        (fifo_line F1)).

(** The handler is about to use a stream: its next action changes one, from some state. *)
Definition at_stream (p : HProg) : Prop :=
  match p with
  | Act a _ => ∃ h w, hub_streams (a h w).1.2 ≠ hub_streams h
  | _ => False
  end.

Lemma fair_serving_serving F F' :
  fair_serving F F' → serving (V := V) authenticator accepts N (fifo_pool F) (fifo_pool F').
Proof.
  induction 1 as [F|F F1 F2 _ IH Hs|F F1 w _ IH Hw|F F1 stream peer _ IH Ha Hlt]; [constructor|..].
  - apply fifo_step_pool in Hs as [->|Hs]; [done|by eapply sg_step].
  - by apply sg_time.
  - by apply sg_connect.
Qed.

Context `{!SerdeLaws ClientHello, !SerdeLaws ServerHello}.

(** Locks taken in order, no stream used under a lock, and a line that is up to date. *)
Definition hub_tame F : Prop :=
  pool_locked (fifo_pool F) ∧
  (∀ t, t ∈ fifo_threads F → hushed off_streams (held t) (prog t)) ∧ line_ok F.

Lemma connection_tame i peer :
  let p := connection_prog (V := V) authenticator i peer : HProg in
  locked_in [] p [] ∧ hushed off_streams [] p.
Proof.
  destruct (handle_connection_tame (V := V) (K := K) (S := S) (A := A) peer authenticator)
    as [Hl Hh]. split.
  - apply locked_zoom; [|exact Hl]. intros l h x Hs. exact Hs.
  - apply (hushed_zoom _ _ _ off_stream); [|exact Hh]. intros C a Ha h w. unfold zoom.
    specialize (Ha (hub_conn i h) w). destruct (a (hub_conn i h) w) as [[r x] w']. simpl in *.
    rewrite Ha. destruct (hub_streams h !! i) as [s|] eqn:Hi; simpl.
    + by apply list_insert_id.
    + apply list_insert_ge. by apply lookup_ge_None.
Qed.

Lemma hub_tame_start v w : hub_tame (mkFifo (hub_start v w) []).
Proof.
  split; [by apply (spawn_locked (mkHub v []) w [])|].
  split; [by intros t ?%not_elem_of_nil|by intros i l ?%not_elem_of_nil].
Qed.

Lemma hub_tame_step F F' : fifo_step F F' → hub_tame F → hub_tame F'.
Proof.
  intros Hs (Hl & Hh & Hq). split; [|split; [|by eapply line_ok_step]].
  - apply fifo_step_pool in Hs as [->|Hs]; [done|by eapply pool_step_locked].
  - apply fifo_step_pool in Hs as [Heq|[i Hi]]; unfold fifo_threads in *; [by rewrite Heq|].
    apply step_at_Some in Hi as (t & t' & s' & w' & Ht & Hs & ->). cbn [pool_threads].
    intros t1 Ht1. apply list_elem_of_lookup in Ht1 as [j Hj].
    apply list_lookup_insert_Some in Hj as [(<- & <- & _)|(_ & Hj)].
    + eapply thread_step_hushed; [exact Hs|]. apply Hh. by eapply list_elem_of_lookup_2.
    + apply Hh. by eapply list_elem_of_lookup_2.
Qed.

Lemma hub_tame_serving F F' : fair_serving F F' → hub_tame F → hub_tame F'.
Proof.
  induction 1 as [F|F F1 F2 _ IH Hs|F F1 w _ IH Hw|F F1 stream peer _ IH Ha Hlt]; intros HF.
  - done.
  - by eapply hub_tame_step, IH.
  - by apply IH.
  - destruct (IH HF) as (Hl & Hh & Hq).
    destruct (connection_tame (length (hub_streams (pool_state (fifo_pool F1)))) peer) as [Hpl Hph].
    split; [|split].
    + exact (pool_locked_join _ _ Hl Hpl).
    + intros t [Ht|Ht]%elem_of_app; [by apply Hh|].
      apply list_elem_of_singleton in Ht as ->. exact Hph.
    + intros i l Hin. destruct (Hq i l Hin) as (t & m & k & Ht & Hp). exists t, m, k.
      split; [|done]. unfold fifo_threads in *. cbn [fifo_pool hub_connect pool_threads].
      by apply lookup_app_l_Some.
Qed.

Lemma at_stream_unlocked F i t :
  hub_tame F → fifo_threads F !! i = Some t → at_stream (prog t) → held t = [].
Proof.
  intros (_ & Hh & _) Ht Hs. specialize (Hh t (list_elem_of_lookup_2 _ _ _ Ht)).
  unfold at_stream in Hs. destruct (prog t) as [r|l m k|l k|C a k] eqn:Hp; try done.
  rewrite <-Hp in Hh. eapply hushed_loud; [exact Hh|exact Hp|].
  intros Hq. destruct Hs as (h & w & Hne). by apply Hne.
Qed.

(** The handlers come to rest, whichever of them wait for a silent client. *)
Lemma hub_rests silent F :
  (∀ i p, silent i p = true → at_stream p) → hub_tame F →
  inevitable (awake_step silent) (at_rest silent) F.
Proof.
  intros Hsil. apply inevitable_rest; [|intros F1 F2 HF Hs; by eapply hub_tame_step].
  intros F1 HF. pose proof HF as (Hl & _ & Hq). split; [done|]. split; [done|].
  intros i t (t' & Ht' & Hs) Ht. simplify_eq. apply Hsil in Hs. split.
  - by eapply at_stream_unlocked.
  - intros l m k Hp. by rewrite Hp in Hs.
Qed.
End hub.
