(* ===== verification/ServerConcTheorems.v ===== *)
(** The properties of the server under concurrent connections. *)
From S2P Require Import Prelude Threads Fifo Text Concrete Types Lease Policy Session.
From S2P Require Import Store RusqliteStore Crypto KeySource Auth AuditEvents Vault VaultInv.
From S2P Require Import VaultSpec VaultProps VaultThreads VaultLocks VaultMoves VaultConc.
From S2P Require Import Frame Transport Protocol Server ServerTheorems ServerThreads Serve.
From S2P Require Import ServerConc ServerFair Demo VaultRaces.

Local Open Scope string_scope.
Local Open Scope list_scope.

Section theorems.
Context {K S A V T : Type}.
Context `{!Env, !StreamIO, !Chrono, !UuidText, !HashIter, !Aead, !Sha256, !EnvLaws}.
Context `{!KeySource K, !SecretStore S, !AuditLog A, !Authenticator T}.
Context `{!KeySourceLaws K, !SecretStoreLaws S, !AuditLogLaws A}.
Context `{!Wire V, !Base64}.
Context `{!Serde ClientHello, !Serde ServerHello, !Serde (Request V), !Serde (Response V)}.
Context `{!SerdeLaws ClientHello, !SerdeLaws ServerHello}.
Context (authenticator : T) (accepts : PeerIdentity → Prop) (N : nat).
Abbreviation hserving := (serving (V := V) authenticator accepts N).
Implicit Types (v : Vault K S A) (w : World).
Implicit Types (hc : Pool (Hub K S A) Error VaultLock (option unit)).
Implicit Types (vc : Pool (Vault K S A) Error VaultLock unit).

(** C22. The server refines the concurrent vault. A server is started on a vault that some
    operations have prepared. However many clients connect, at most [N] at a time, whatever
    bytes they send and however their handlers interleave, await by await, the vault is at
    every moment in a state of a run of the vault in which at most [N] operations are under
    way at once, and each operation that the server adds to the run is permitted to an
    identity that the authenticator gave to an accepted peer. *)
Theorem server_refines_vault v0 w0 ops0 vc0 hc :
  conc_run N v0 w0 ops0 vc0 → Forall finished (pool_threads vc0) →
  hserving (hub_start (pool_state vc0) (pool_world vc0)) hc →
  ∃ ops vc, conc_run N v0 w0 (ops0 ++ ops) vc ∧
    pool_state vc = hub_vault (pool_state hc) ∧ pool_world vc = pool_world hc ∧
    Forall (granted_op authenticator accepts) ops.
Proof.
  intros Hrun Hfin Hsrv. destruct (serving_from authenticator accepts _ _ _ _ _ Hrun Hfin) as [Hpr Hl].
  destruct (serving_simulated authenticator accepts N _ _ _ _ Hsrv Hpr Hl)
    as (_ & ops & vc & os & Hc & Hops & Hs & Hw & _); [apply Nat.le_0_l|].
  exists ops, vc. split; [|done]. destruct Hrun as [Hini Hrun]. split; [done|].
  by eapply conc_trans.
Qed.

(** C23. Revocation is final at the server. Once a lease of the served vault is revoked, no
    client can bring it back: whoever is connected or connects later, whatever they send
    and however it interleaves, the lease is revoked or gone from then on. *)
Theorem server_revocation_final v0 w0 ops0 vc0 hc k l hc' l' :
  conc_run N v0 w0 ops0 vc0 → Forall finished (pool_threads vc0) →
  hserving (hub_start (pool_state vc0) (pool_world vc0)) hc →
  vault_leases (hub_vault (pool_state hc)) !! k = Some l → lease_revoked l = true →
  hserving hc hc' →
  vault_leases (hub_vault (pool_state hc')) !! k = Some l' → lease_revoked l' = true.
Proof.
  intros Hrun Hfin Hsrv Hk Hrev Hsrv' Hk'.
  destruct (serving_from authenticator accepts _ _ _ _ _ Hrun Hfin) as [Hpr Hl].
  destruct (serving_simulated authenticator accepts N _ _ _ _ Hsrv Hpr Hl)
    as (HN & ops & vc & os & Hc & _ & Hpr'); [apply Nat.le_0_l|].
  destruct (serving_simulated authenticator accepts N _ _ _ _ Hsrv' Hpr')
    as (_ & ops' & vc' & os' & Hc' & _ & Hs' & _); [by eapply conc_locked|done|].
  destruct Hrun as [Hini Hrun]. pose proof Hpr' as (Hs & _).
  destruct (revoked_final N v0 w0 (ops0 ++ ops) vc k l ops' vc') as [Hd _]; [|by rewrite Hs|done..|].
  - split; [done|]. by eapply conc_trans.
  - apply (proj2 Hd). cbn [fst]. by rewrite Hs'.
Qed.

(** C24. A silent client never blocks the others. The locks of the vault are fair, and the
    request loop has no timeout: a client that neither sends nor closes leaves its handler
    waiting for good. Take any moment of any run of such a server, and let any of the
    handlers stop for good at any of its uses of its stream, as [silent] says. A handler
    about to use its stream holds no lock of the vault; and in whatever order the other
    handlers take their steps, one of them can, until every handler has returned or waits,
    without a lock, for its silent client. With clients that all go on, every handler
    returns. *)
Theorem server_progress v w F (silent : nat → Prog (Hub K S A) Error VaultLock (option unit) → bool) :
  fair_serving (V := V) authenticator accepts N (mkFifo (hub_start v w) []) F →
  (∀ i p, silent i p = true → at_stream p) →
  hserving (hub_start v w) (fifo_pool F) ∧
  (∀ i t, fifo_threads F !! i = Some t → at_stream (prog t) → held t = []) ∧
  inevitable (awake_step silent) (at_rest silent) F.
Proof.
  intros Hrun Hsil.
  assert (HF : hub_tame F) by (eapply (hub_tame_serving _ _ _ _ _ Hrun), hub_tame_start).
  split; [by apply fair_serving_serving in Hrun|].
  split; [|by apply hub_rests]. intros i t Ht Hs. by eapply at_stream_unlocked.
Qed.
End theorems.

(** ** Witnesses *)

Import DemoInstances DemoWireInstances.
#[local] Existing Instance demo_hello_laws.
#[local] Existing Instance demo_server_hello_laws.

(** The texts of two requests for the lease of the demo vault. *)
Definition script_request : Serde (Request DemoValue) := {|
  to_json := λ _, Err "unsupported";
  from_json := λ s,
    if decide (s = "access") then
      Ok (mkRequest 6%N ACCESS_SECRET
            (DVAccessSecret (mkAccessSecretRequest 2%N "api.example.com")))
    else if decide (s = "revoke") then
      Ok (mkRequest 7%N REVOKE_LEASE (DVRevokeLease 2%N (DVReason AdminRevoked)))
    else Err "unsupported"
|}.
Definition script_response : Serde (Response DemoValue) := {|
  to_json := λ r, Ok (if response_ok r then "ok" else "no");
  from_json := λ _, Err "unsupported"
|}.
#[local] Existing Instance script_request.
#[local] Existing Instance script_response.

Abbreviation demo_serving :=
  (serving (V := DemoValue) mkAllowAllAdmin (λ peer, peer = demo_peer) 3).
Abbreviation DemoHub := (Pool (Hub (KmsSource (list (string * bytes))) RusqliteStore
  (list AuditEntry)) Error VaultLock (option unit)).

Definition sends (msgs : list string) : Stream :=
  mkStream (msgs ≫= λ m, frame_bytes (as_bytes m)) [].
Definition demo_hub : DemoHub :=
  hub_start (pool_state (demo_pool 5 script_leased)) (pool_world (demo_pool 5 script_leased)).
(** One client revokes the lease that the other one uses twice. *)
Definition two_clients : DemoHub :=
  hub_connect (V := DemoValue) mkAllowAllAdmin (sends ["hello"; "access"; "access"]) demo_peer
    (hub_connect (V := DemoValue) mkAllowAllAdmin (sends ["hello"; "revoke"]) demo_peer demo_hub).
Definition hub_at (sched : list nat) : DemoHub := default two_clients (run_schedule sched two_clients).

(** The lease is revoked while the first access is under way; it still delivers, and the
    second one is refused. *)
Definition schedule_revoked : list nat :=
  ([0; 0; 0] ++ replicate 6 1 ++ replicate 4 0)%nat.
Definition schedule_done : list nat := (schedule_revoked ++ replicate 12 1 ++ [0; 0])%nat.
Definition sent (c : DemoHub) : list bytes := outgoing <$> hub_streams (pool_state c).

Lemma demo_prepared :
  conc_run 3 (Vault_with_max_leases_per_agent demo_vault 5) demo_world (arrivals script_leased)
    (demo_pool 5 script_leased) ∧ Forall finished (pool_threads (demo_pool 5 script_leased)).
Proof.
  split; [apply demo_pool_run; vm_compute; reflexivity|].
  eapply bool_decide_unpack. vm_compute. exact I.
Qed.

Lemma serving_trans {K S A V T} `{!Env, !StreamIO, !Chrono, !UuidText, !HashIter, !Aead, !Sha256}
    `{!KeySource K, !SecretStore S, !AuditLog A, !Authenticator T, !Wire V, !Base64}
    `{!Serde ClientHello, !Serde ServerHello, !Serde (Request V), !Serde (Response V)}
    (authenticator : T) accepts N (c1 c2 c3 : Pool (Hub K S A) Error VaultLock (option unit)) :
  serving (V := V) authenticator accepts N c1 c2 → rtc pool_step c2 c3 →
  serving (V := V) authenticator accepts N c1 c3.
Proof.
  intros H12 H23. induction H23 as [|c2 c3 c4 Hs _ IH]; [done|]. apply IH. by eapply sg_step.
Qed.
Lemma two_clients_serving : demo_serving demo_hub two_clients.
Proof.
  apply sg_connect; [|done|vm_compute; lia]. apply sg_connect; [|done|vm_compute; lia].
  apply sg_refl.
Qed.
Lemma hub_at_steps sched :
  played (run_schedule sched two_clients) = true → rtc pool_step two_clients (hub_at sched).
Proof.
  unfold hub_at. destruct (run_schedule sched two_clients) as [c|] eqn:Hc; [|done].
  intros _. by eapply run_schedule_steps.
Qed.
Lemma hub_at_serving sched :
  played (run_schedule sched two_clients) = true → demo_serving demo_hub (hub_at sched).
Proof. intros Hp. eapply serving_trans; [apply two_clients_serving|by apply hub_at_steps]. Qed.

Lemma server_refines_vault_witness :
  sent (hub_at schedule_done) =
    [incoming (sends ["welcome"; "ok"]); incoming (sends ["welcome"; "ok"; "no"])] ∧
  ∃ ops vc, conc_run 3 (Vault_with_max_leases_per_agent demo_vault 5) demo_world
      (arrivals script_leased ++ ops) vc ∧
    pool_state vc = hub_vault (pool_state (hub_at schedule_done)).
Proof.
  split; [vm_compute; reflexivity|]. destruct demo_prepared as [Hrun Hfin].
  destruct (server_refines_vault mkAllowAllAdmin (λ peer, peer = demo_peer) 3 _ _ _ _ _ Hrun Hfin
    (hub_at_serving schedule_done ltac:(vm_compute; reflexivity))) as (ops & vc & Hc & Hs & _).
  exists ops, vc. split; [exact Hc|exact Hs].
Defined.

Lemma server_revocation_final_witness :
  vault_leases (hub_vault (pool_state (hub_at schedule_revoked))) !! demo_lease =
    Some (Lease_revoke (set_use_count 1 demo_lease_value)) ∧
  ∀ l', vault_leases (hub_vault (pool_state (hub_at schedule_done))) !! demo_lease = Some l' →
    lease_revoked l' = true.
Proof.
  assert (Hk : vault_leases (hub_vault (pool_state (hub_at schedule_revoked))) !! demo_lease =
    Some (Lease_revoke (set_use_count 1 demo_lease_value))) by (vm_compute; reflexivity).
  split; [exact Hk|]. intros l' Hk'. destruct demo_prepared as [Hrun Hfin].
  assert (Hmore : demo_serving (hub_at schedule_revoked) (hub_at schedule_done)).
  { eapply serving_trans; [apply sg_refl|].
    apply (run_schedule_steps (replicate 12 1 ++ [0; 0])%nat). vm_compute. reflexivity. }
  exact (server_revocation_final mkAllowAllAdmin (λ peer, peer = demo_peer) 3 _ _ _ _ _ demo_lease
    _ _ l' Hrun Hfin (hub_at_serving schedule_revoked ltac:(vm_compute; reflexivity)) Hk
    ltac:(vm_compute; reflexivity) Hmore Hk').
Defined.

(** The first client says hello and falls silent; the second one goes on. *)
Definition uses_stream (p : Prog (Hub (KmsSource (list (string * bytes))) RusqliteStore
    (list AuditEntry)) Error VaultLock (option unit)) : bool :=
  match p with
  | Act a _ => bool_decide (incoming <$> hub_streams (a (pool_state two_clients) demo_world).1.2 ≠
                            incoming <$> hub_streams (pool_state two_clients))
  | _ => false
  end.
Definition first_silent (i : nat) p : bool := (i =? 0)%nat && uses_stream p.
Definition greeted : FifoPool _ Error VaultLock (option unit) :=
  default (mkFifo two_clients []) (fifo_schedule [0; 0; 1]%nat (mkFifo two_clients [])).

Lemma played_steps {St E L B} `{!EqDecision L} sched (F : FifoPool St E L B) :
  played (fifo_schedule sched F) = true → rtc fifo_step F (default F (fifo_schedule sched F)).
Proof.
  destruct (fifo_schedule sched F) as [F'|] eqn:HF; [|done]. intros _. by eapply fifo_schedule_steps.
Qed.

Lemma server_progress_witness :
  (∃ t, fifo_threads greeted !! 0%nat = Some t ∧ first_silent 0 (prog t) = true ∧ held t = []) ∧
  inevitable (awake_step first_silent) (at_rest first_silent) greeted.
Proof.
  assert (Hsil : ∀ i p, first_silent i p = true → at_stream p).
  { intros i p [_ Hp]%andb_true_iff. unfold uses_stream in Hp. destruct p as [|l m k|l k|C a k]; try done.
    exists (pool_state two_clients), demo_world. apply bool_decide_eq_true in Hp.
    intros Heq. apply Hp. by rewrite Heq. }
  destruct (server_progress (V := DemoValue) mkAllowAllAdmin (λ peer, peer = demo_peer) 3
    (pool_state (demo_pool 5 script_leased)) (pool_world (demo_pool 5 script_leased)) greeted
    first_silent) as (_ & Hheld & Hrest); [|exact Hsil|].
  - pose proof (played_steps [0; 0; 1]%nat (mkFifo two_clients []) ltac:(vm_compute; reflexivity))
      as Hrun.
    eapply (rtc_ind_r (λ F, fair_serving (V := DemoValue) mkAllowAllAdmin
      (λ peer, peer = demo_peer) 3 _ F) _ _ _ _ Hrun).
    Unshelve.
    + apply (fs_connect _ _ _ _ (mkFifo (hub_connect (V := DemoValue) mkAllowAllAdmin
        (sends ["hello"; "revoke"]) demo_peer demo_hub) [])); [|reflexivity|vm_compute; lia].
      apply (fs_connect _ _ _ _ (mkFifo demo_hub [])); [|reflexivity|vm_compute; lia].
      apply fs_refl.
    + intros F1 F2 _ Hs HF. by eapply fs_step.
  - split; [|exact Hrest].
    assert (Hs : from_option (λ t, first_silent 0 (prog t)) false (fifo_threads greeted !! 0%nat) =
      true) by (vm_compute; reflexivity).
    destruct (fifo_threads greeted !! 0%nat) as [t|] eqn:Ht; [|discriminate Hs].
    exists t. split; [reflexivity|]. split; [exact Hs|].
    exact (Hheld 0%nat t Ht (Hsil _ _ Hs)).
Defined.
